(* ===== verification/_CoqProject ===== *)
-Q . S2P
Prelude.v
Database.v
Migrate.v
Pairing.v
PairCodes.v
RateLimit.v
Json.v
AnyJson.v
Wire.v
SendQueue.v
Relay.v
Proxy.v
RelaySystem.v
RelayFacts.v
RelaySerial.v
Keys.v
Url.v
Blake2s.v
Suite.v
Noise.v
TsNoise.v
CppNoise.v
NoiseInterop.v
SessionAlike.v
SdkSessions.v
TsWire.v
TsClient.v
TsFacts.v
TsPair.v
PeerStore.v
IndentJson.v
PeerFile.v
StoreText.v
SdkStores.v
RustTime.v
SdkPeers.v
Harness.v
Examples.v
Scenarios.v
ScenarioFacts.v
HarnessRun.v
Sdk.v
SdkFacts.v
SdkPair.v
GoTs.v
SdkRace.v
Demos.v
SdkEdges.v
SdkLoops.v
SdkResults.v
Shim.v
Http.v
Config.v
Api.v
Admin.v
Cli.v
Joint.v
