(* ===== verification/Prelude.v ===== *)
(** * Relayly: a relay for end-to-end encrypted messages between paired devices

    The program has several parts.  The server (src/internal) keeps registered devices in
    an SQLite table, accepts WebSocket connections of devices that present their token,
    pairs two devices by a six-digit code, and relays binary frames between paired devices
    without reading them.  The client library (src/sdk/go) connects to the server, runs a
    Noise XX handshake with its peer through it, pins the peer's key, and encrypts
    messages; the server is untrusted by the clients.  There are clients in other
    languages (src/sdk), a harness that drives clients of different languages against
    each other (src/interop), and example programs (src/examples).

    ** How the development is organised

    Each file models one part and proves what makes it correct; a later file uses the
    lemmas of the earlier ones.

    The server:

    - [Prelude]: Go's 64-bit integers, durations, bytes and [strconv.Atoi]; generic lemmas.
    - [Database] (internal/database/pairing.go): the devices table as a finite map, each
      method of [DB] as a computation of the monad [DBM], with a list of engine faults as
      input; transactions roll back.  [PairDevices] refines an abstract linking
      operation, links stay symmetric, tokens unique, announced keys locked.
    - [Migrate] (internal/database/db.go): [Open], the schema, the migrations and their
      loop.  Running them twice is running them once; data of old versions is kept.
    - [Pairing] (internal/pairing): base-58 tokens, devices, pairing codes.
    - [PairCodes] (internal/relay/paircodes.go): the registry of pending codes refines the
      map of codes that are still alive.
    - [RateLimit] (internal/relay/ratelimit.go): the limiter with eviction refines one
      window per address; a bound on what it lets through.
    - [Json], [AnyJson], [Wire] (internal/relay/control.go, sdk/go/wire.go): JSON text as
      encoding/json reads and writes it, for objects held in a [map[string]any] and for
      control messages; decoding inverts encoding.
    - [SendQueue] (internal/relay/client.go): [enqueue], [close] and the receive of
      [writePump] as single lock and channel operations of many goroutines.  No
      interleaving sends on a closed channel; the queue is linearizable.
    - [Relay] (internal/relay: client.go, hub.go, control.go, handler.go): connections are
      objects of a heap, the hub and the table are shared.  A handler is a program over
      atomic operations ([prog]); a goroutine is such programs in a loop ([code]).
      [run] executes a program alone; [exec_op] is the meaning of one operation.
    - [RelaySystem]: the step relation of all goroutines together, with foreign store
      operations in between.  Invariants, locked keys, progress, termination of
      handlers and of the hub's backlog; two races of the code.  [StoreInvariant] is the
      interface between the store and the relay: a predicate every store operation keeps.
    - [RelayFacts]: what each handler does, on every branch, as equations between worlds.
    - [RelaySerial]: histories in which turns do not overlap: every connection routes to
      the device the store links it to, and a frame reaches the partner's socket.
    - [Http], [Api], [Config], [Admin], [Cli]: routing of [http.ServeMux], the REST API, the
      health endpoint, the configuration, the admin server and the commands.  Registration
      followed by connection, end to end; [start] as a system of its goroutines releases
      what it acquired; [status] prints what the admin server knows.

    The Go client:

    - [Keys] (sdk/go/crypto.go): base64, paths, the key file.
    - [Url] (sdk/go: client.go, pairing.go; net/url): the URLs a client dials and prints.
    - [Noise] (sdk/go/noise.go, errors.go): sessions over the class [NoiseLib], which
      stands for the flynn/noise library; [NoiseLaws] states what the library documents
      (message counting, ciphers in step, an honest XX run), [NoiseOrder] that a message
      out of turn does not authenticate.  [ToyNoise] is an instance, so the laws can be met.
    - [PeerStore], [PeerFile] (sdk/go/peerstore.go): pins, in memory and as the text of a
      file that is replaced in steps; interrupted anywhere, no pin is lost.
    - [Sdk] (sdk/go: client.go, peer.go, options.go, pairing.go, message.go): the state the
      client's goroutines share, one function per handler, call and loop turn.
    - [SdkFacts]: a client against an arbitrary relay: sessions are with pinned keys, and
      make-before-break.
    - [SdkPair]: two clients and a relay that forwards: pairing and messages end to end.
    - [SdkRace]: two calls of [Send] that overlap.
    - [SdkEdges]: failed and refused handshakes, sends before verification, backoff.
    - [SdkLoops]: the client's goroutines with its lock, channels and sockets; [Close].
    - [SdkResults]: a channel of a pairing call gets at most one result.
    - [Joint]: two clients of [Sdk], with the text of their frames, and the relay of
      [RelaySerial] in one system: from connecting to messages in both directions.

    The other clients' cryptography:

    - [Blake2s] (sdk/cpp/third_party/blake2): the reference implementation, streaming and
      keyed, against the definition of RFC 7693.
    - [Suite]: HMAC and HKDF (RFC 2104, RFC 5869) over BLAKE2s; the class [Suite] of the
      primitives that stay abstract (X25519, ChaCha20-Poly1305), with an instance.
    - [TsNoise] (sdk/ts/src/noise), [CppNoise] (sdk/cpp/src/noise): the XX handshakes of the
      TypeScript and the C++ client.  The first satisfies [NoiseLaws], the second is the
      same function as the first.
    - [NoiseInterop]: either can talk to either.
    - [SessionAlike]: a Go session whose library is the handshake of [TsNoise] and a TypeScript
      session behave alike.
    - [SdkSessions] (sdk/py/relayly/_noise.py, sdk/rust/src/noise.rs, and the others): the
      class [Session] is what a client asks of its Noise session, [SessionLaws] that it does
      what Go's does.  The sessions of the five SDKs are instances; any two interoperate.

    The TypeScript client (sdk/ts/src):

    - [TsWire] (types.ts, transport.ts): control frames as JavaScript prints and reads them,
      the order of strings, the socket with its reconnections.  The relay reads what the
      client sends, the client reads what the relay sends.
    - [TsClient] (client.ts, peer.ts, peerStore.ts, errors.ts): methods in a monad of the
      client's state and of throws, objects in a heap, promises by number; [step] is a turn
      of the event loop, and the part of [resolveHandshake] after its [await] a turn of its
      own.
    - [TsFacts]: the invariant of all turns, by a weakest-precondition calculus over the
      methods; listeners that are skipped.
    - [TsPair]: two clients pair; reported peers are pinned and sessions are kept against any
      relay; a refused key stays in use.
    - [GoTs]: a client of [TsClient] and one of [Sdk], the latter with the handshake of
      [TsNoise] for its Noise library, pair with each other in either role and converse.

    The peer stores of all the clients (node.ts, _peerstore.py, peerstore.rs,
    peer_store.cpp, and Go's):

    - [IndentJson], [StoreText]: indented JSON, the strings of each language's printer as
      UTF-8, and what it means that a text holds certain pins.
    - [SdkStores]: each store as functions of the disk.  The class [Visitor] is what a client
      promises to the others that use the same file; each of the five stores is an instance.
      Clients one after the other implement one abstract store; clients at the same time,
      an open store and a full disk lose pins.  [JsonLib] with [JsonLaws] stands for
      serde_json and nlohmann::json, [HashOrder] for the order of a Rust [HashMap].
    - [RustTime] (peerstore.rs): the date computed from the seconds is that of the calendar.

    The Python, the Rust and the C++ client:

    - [SdkPeers] (sdk/py/relayly: _peer.py, _client.py; sdk/rust/src: peer.rs, client.rs;
      sdk/cpp/src: peer_conn.cpp, client.cpp): the connection to the peer and the handlers
      that drive it, over any [Session] and with the stores of [SdkStores].  The three are one
      machine in three dialects ([Dialect], [PeerClient]): any two clients pair and converse,
      no relay takes a usable session away, a refused first key is used all the same.

    The harness and the examples:

    - [Proxy], [Harness], [Scenarios], [ScenarioFacts], [HarnessRun] (interop/harness): the
      proxy that rewrites and severs connections; driving shims over the class [Driver];
      the scenarios, what their success means, and that no process is left; a whole run
      from building the shims to the clean-up, over the class [Toolbox].
    - [Shim] (interop/clients/go): the process at the other end, on the client of [Sdk].
    - [Examples], [Demos] (examples/go): registration, configuration, clipboard
      synchronisation, and the main functions of the four programs.

    ** Inputs

    Time, randomness, faults of the engine and of sockets, the order in which Go ranges
    over a map, and the choices of [select] are inputs of the definitions (an [oracle], a
    boolean, a schedule), and the theorems hold for all of them.

    ** Fuel

    [Json.parse_value] recurses on fuel; [Parse] gives it one more than the length of the
    text, and every recursive call has consumed a character, so the fuel never decides
    the outcome ([printed_reads_back] shows it for all printed values).  The loops of
    [base58Encode] run with the length of the input, resp. eleven digits for a 64-bit
    chunk.  [AnyJson.shortest] tries at most the seventeen digits a double needs.
    [HarnessRun.health_loop] gets a turn per polling interval and two more, which
    [health_wait_ends] shows to be enough.  All other recursion is structural.

    ** Not modelled

    The SQL engine, the WebSocket library, Viper, Cobra, zap, the Go Noise library, curve
    and cipher implementations and the HTML templates are outside the repository or
    generated, and are inputs or parameters.  [http.Server], logging, QR images, signals
    and terminals are I/O.  The Noise libraries of the Python and the Rust client
    (noiseprotocol, snow) are parameters like Go's.  Of these two clients and of the C++ client
    the table of waiting calls, the JSON of control frames, dialling, reconnecting and the
    queues of outgoing frames are not modelled; they have one peer.  Of the TypeScript
    client the React hooks are not modelled, and frames with fields of other types than the
    declared ones have no meaning in its model.  The stores' file modes and the expansion of
    the home directory by the SDKs other than Go, and the shims of languages other than Go,
    are not modelled.  device.go is the same file in the four examples and modelled once. *)

From stdpp Require Export base tactics gmap strings list numbers pretty sorting.
From Stdlib Require Export Ascii ZArith Lia.

#[export] Set Warnings "-clear-no-such-hyp".

(** Runs through the binds of a computation in [option] that has succeeded. *)
Ltac run_binds Hrun :=
  repeat match type of Hrun with
  | context [?m ≫= _] => lazymatch m with
      | mbind _ _ => fail
      | _ => let E := fresh "E" in destruct m as [?|] eqn:E; cbn [mbind option_bind] in Hrun; [|discriminate Hrun]
      end
  | context [let '(_, _) := ?p in _] => destruct p
  end.

(** ** Go's machine integers and durations *)

Declare Scope go_scope.
Delimit Scope go_scope with go.

(** Two's-complement wrap-around of a 64-bit signed integer ([int], [int64] and
    [time.Duration] on the supported platforms). *)
Definition int64 (z : Z) : Z := (z + 2 ^ 63) mod 2 ^ 64 - 2 ^ 63.

Definition int64_min : Z := - 2 ^ 63.
Definition int64_max : Z := 2 ^ 63 - 1.

(** [a *64 b] and [a +64 b] are Go's wrapping operators. *)
Infix "*64" := (fun a b => int64 (a * b)%Z) (at level 40, left associativity) : go_scope.
Infix "+64" := (fun a b => int64 (a + b)%Z) (at level 50, left associativity) : go_scope.

Lemma int64_range z : (int64_min ≤ int64 z ≤ int64_max)%Z.
Proof.
  unfold int64, int64_min, int64_max.
  pose proof (Z.mod_pos_bound (z + 2 ^ 63) (2 ^ 64) ltac:(lia)). lia.
Qed.

Lemma int64_id z : (int64_min ≤ z ≤ int64_max)%Z → int64 z = z.
Proof.
  unfold int64, int64_min, int64_max. intros ?.
  rewrite Z.mod_small; lia.
Qed.

(** [time.Duration] counts nanoseconds; [time.Time] is modelled as the number of
    nanoseconds since an arbitrary origin. *)
Definition Second : Z := 1000000000.
Definition Minute : Z := 60 * Second.

(** [time.Time.After] and [Before] are strict. *)
Definition After (t u : Z) : bool := bool_decide (u < t)%Z.
Definition Before (t u : Z) : bool := bool_decide (t < u)%Z.

Lemma After_true t u : After t u = true ↔ (u < t)%Z.
Proof. apply bool_decide_eq_true. Qed.
Lemma After_false t u : After t u = false ↔ (t ≤ u)%Z.
Proof. unfold After. rewrite bool_decide_eq_false. lia. Qed.
Lemma Before_true t u : Before t u = true ↔ (t < u)%Z.
Proof. apply bool_decide_eq_true. Qed.
Lemma Before_false t u : Before t u = false ↔ (u ≤ t)%Z.
Proof. unfold Before. rewrite bool_decide_eq_false. lia. Qed.

(** ** Bytes

    A Go [string] and a Go [[]byte] are both finite sequences of 8-bit values; both
    are modelled by [string], so that the conversions between them are the identity. *)
Abbreviation bytes := string (only parsing).

Definition byte_val (c : ascii) : Z := Z.of_N (N_of_ascii c).
Definition byte_of (z : Z) : ascii := ascii_of_N (Z.to_N (z mod 256)).

Lemma byte_val_range c : (0 ≤ byte_val c < 256)%Z.
Proof.
  unfold byte_val. pose proof (N_ascii_bounded c). lia.
Qed.

Lemma byte_of_val c : byte_of (byte_val c) = c.
Proof.
  unfold byte_of. rewrite Z.mod_small by apply byte_val_range.
  unfold byte_val. rewrite N2Z.id. apply ascii_N_embedding.
Qed.

Lemma byte_val_of z : byte_val (byte_of z) = (z mod 256)%Z.
Proof.
  unfold byte_val, byte_of.
  pose proof (Z.mod_pos_bound z 256 ltac:(lia)).
  rewrite N_ascii_embedding by lia. lia.
Qed.

Definition chars (s : string) : list ascii := String.list_ascii_of_string s.
Definition of_chars (l : list ascii) : string := String.string_of_list_ascii l.

Lemma of_chars_chars s : of_chars (chars s) = s.
Proof. apply String.string_of_list_ascii_of_string. Qed.
Lemma chars_of_chars l : chars (of_chars l) = l.
Proof. apply String.list_ascii_of_string_of_list_ascii. Qed.

Definition slen (s : string) : nat := String.length s.

Lemma slen_chars s : length (chars s) = slen s.
Proof. induction s as [|c s IH]; simpl; [done|]. by rewrite IH. Qed.

Lemma chars_app s t : chars (s +:+ t) = chars s ++ chars t.
Proof. induction s as [|c s IH]; [done|]. simpl. by rewrite <- IH. Qed.

(** ** Decimal numerals

    [pretty] on [N] and [Z] is [strconv.Itoa]; [dec_value] reads a digit sequence back. *)

Definition digit_val (c : ascii) : Z := byte_val c - 48.
Definition is_digit (c : ascii) : Prop := (48 ≤ byte_val c ≤ 57)%Z.
#[export] Instance is_digit_dec c : Decision (is_digit c).
Proof. unfold is_digit. apply _. Defined.

Definition dec_step (acc : Z) (c : ascii) : Z := acc * 10 + digit_val c.
Definition dec_value (l : list ascii) : Z := foldl dec_step 0%Z l.

Lemma dec_value_acc acc l :
  foldl dec_step acc l = (acc * 10 ^ Z.of_nat (length l) + dec_value l)%Z.
Proof.
  unfold dec_value. revert acc. induction l as [|c l IH]; intros acc; [simpl; lia|].
  cbn [foldl length]. rewrite IH, (IH (dec_step 0 c)). unfold dec_step.
  rewrite Nat2Z.inj_succ, Z.pow_succ_r by lia. lia.
Qed.

Lemma dec_value_app l1 l2 :
  dec_value (l1 ++ l2) = (dec_value l1 * 10 ^ Z.of_nat (length l2) + dec_value l2)%Z.
Proof. unfold dec_value at 1. rewrite foldl_app. apply dec_value_acc. Qed.

Lemma dec_value_zeros n : dec_value (replicate n "0"%char) = 0%Z.
Proof.
  unfold dec_value. induction n as [|n IH]; [done|]. simpl. apply IH.
Qed.

Lemma pretty_N_char_digit n :
  (n < 10)%N → is_digit (pretty_N_char n) ∧ digit_val (pretty_N_char n) = Z.of_N n.
Proof.
  intros Hn. assert (n = 0 ∨ n = 1 ∨ n = 2 ∨ n = 3 ∨ n = 4 ∨ n = 5 ∨ n = 6 ∨
    n = 7 ∨ n = 8 ∨ n = 9)%N as H by lia.
  unfold is_digit. destruct_or?; subst; split; vm_compute; split || done; done.
Qed.

(** The digits [pretty] puts in front of an accumulated string. *)
Lemma pretty_N_go_digits n s :
  ∃ ds, chars (pretty_N_go n s) = ds ++ chars s ∧ Forall is_digit ds ∧
        dec_value ds = Z.of_N n ∧
        (∀ k, (n < 10 ^ N.of_nat k)%N → length ds ≤ k) ∧
        ((0 < n)%N → ∃ c ds', ds = c :: ds' ∧ c ≠ "0"%char).
Proof.
  revert s. induction (N.lt_wf_0 n) as [n _ IH]; intros s.
  destruct (decide (n = 0)%N) as [->|Hn].
  { exists []. rewrite pretty_N_go_0. split_and!; [done..|simpl; lia|lia]. }
  rewrite pretty_N_go_step by lia.
  destruct (IH (n `div` 10)%N) with (s := String (pretty_N_char (n `mod` 10)) s)
    as (ds & -> & Hd & Hv & Hl & Hz); [apply N.div_lt; lia|].
  pose proof (pretty_N_char_digit (n `mod` 10)) as [Hc Hcv]; [apply N.mod_lt; lia|].
  exists (ds ++ [pretty_N_char (n `mod` 10)]). split_and!.
  - simpl. by rewrite <- app_assoc.
  - apply Forall_app. split; [done|]. by constructor.
  - rewrite dec_value_app. simpl. unfold dec_value at 2. simpl. unfold dec_step.
    rewrite Hv, Hcv, N2Z.inj_div, N2Z.inj_mod.
    pose proof (Z.div_mod (Z.of_N n) 10). lia.
  - intros [|k] Hk; [simpl in Hk; lia|]. rewrite length_app. simpl.
    assert (length ds ≤ k); [|lia]. apply Hl.
    rewrite Nat2N.inj_succ, N.pow_succ_r' in Hk. apply N.Div0.div_lt_upper_bound. lia.
  - intros _. destruct (decide (n < 10)%N) as [Hs|Hs].
    + rewrite N.mod_small by done. exists (pretty_N_char n), [].
      assert (n `div` 10 = 0)%N as E by by apply N.div_small.
      rewrite E in Hl. specialize (Hl 0 ltac:(simpl; lia)).
      destruct ds; [|simpl in Hl; lia]. split; [done|].
      change "0"%char with (pretty_N_char 0). intros E0%pretty_N_char_inj; lia.
    + destruct Hz as (c & ds' & -> & ?); [apply N.div_str_pos; lia|].
      eexists c, _. split; [reflexivity|done].
Qed.

(** [strconv.Itoa] of a natural number: digits only, read back exactly. *)
Lemma pretty_N_digits (n : N) :
  Forall is_digit (chars (pretty n)) ∧ dec_value (chars (pretty n)) = Z.of_N n ∧
  (∀ k, k ≠ 0 → (n < 10 ^ N.of_nat k)%N → slen (pretty n) ≤ k) ∧ pretty n ≠ "".
Proof.
  unfold pretty, pretty_N. case_decide as Hn.
  - subst. split_and!; [by repeat constructor| done | |done].
    intros k ? _. simpl. lia.
  - destruct (pretty_N_go_digits n "") as (ds & E & Hd & Hv & Hl & Hne).
    simpl in E. rewrite app_nil_r in E. rewrite E. split_and!; [done..| |].
    + intros k _ Hk. rewrite <- slen_chars, E. auto.
    + intros E0. rewrite E0 in E. simpl in E. destruct Hne as (c & ds' & -> & _); [lia|done].
Qed.

(** A positive number has no leading zero. *)
Lemma pretty_N_head (n : N) :
  (0 < n)%N → ∃ c ds, chars (pretty n) = c :: ds ∧ c ≠ "0"%char.
Proof.
  intros Hn. unfold pretty, pretty_N. rewrite decide_False by lia.
  destruct (pretty_N_go_digits n "") as (ds & E & _ & _ & _ & Hne).
  simpl in E. rewrite app_nil_r in E. rewrite E. auto.
Qed.

(** [strconv.Atoi] on a 64-bit platform: an optional sign, decimal digits, and the
    value in range of [int]. *)
Definition Atoi_digits (neg : bool) (l : list ascii) : option Z :=
  if decide (l ≠ [] ∧ Forall is_digit l) then
    let v := if neg then (- dec_value l)%Z else dec_value l in
    if decide (int64_min ≤ v ≤ int64_max)%Z then Some v else None
  else None.

Definition Atoi (s : string) : option Z :=
  match chars s with
  | "-"%char :: l => Atoi_digits true l
  | "+"%char :: l => Atoi_digits false l
  | l => Atoi_digits false l
  end.

Lemma Atoi_pretty (z : Z) : (int64_min ≤ z ≤ int64_max)%Z → Atoi (pretty z) = Some z.
Proof.
  intros Hz.
  assert (∀ n : N, (chars (pretty n) ≠ [] ∧ Forall is_digit (chars (pretty n))) ∧
                   dec_value (chars (pretty n)) = Z.of_N n) as Hn.
  { intros n. destruct (pretty_N_digits n) as (Hd & Hv & _ & Hne). split_and!; [|done..].
    intros E. apply Hne. by rewrite <- (of_chars_chars (pretty n)), E. }
  unfold Atoi. destruct z as [|p|p]; [done| |].
  - change (pretty (Zpos p)) with (pretty (Npos p)). destruct (Hn (Npos p)) as [[Hne Hd] Hv].
    replace (match chars (pretty (N.pos p)) with
      | "-"%char :: l => Atoi_digits true l | "+"%char :: l => Atoi_digits false l
      | l => Atoi_digits false l end) with (Atoi_digits false (chars (pretty (N.pos p)))).
    + unfold Atoi_digits. rewrite decide_True, Hv, decide_True by done. done.
    + destruct (chars (pretty (N.pos p))) as [|c l]; [done|].
      apply Forall_cons in Hd as [Hc _]. unfold is_digit in Hc.
      destruct c as [[] [] [] [] [] [] [] []]; try done; vm_compute in Hc; naive_solver.
  - change (chars (pretty (Zneg p))) with ("-"%char :: chars (pretty (Npos p))).
    destruct (Hn (Npos p)) as [[Hne Hd] Hv].
    unfold Atoi_digits. rewrite decide_True, Hv, decide_True by done. done.
Qed.
