(* ===== verification/Database.v ===== *)
(** * The device store (src/internal/database/pairing.go)

    The [devices] table is a finite map from the primary key [id] to a row with one
    field per remaining column; a nullable column is an [option].  Each method of
    [*DB] is a computation of the monad [DBM]: it threads the table and may fail.

    The SQL engine itself is outside the repository.  What it can do to a call is
    kept as an explicit input: [faults] holds one boolean per engine call to come
    ([Begin], [QueryRow]/[Scan], [Exec], [Commit]); [true] makes that call return an
    error.  A call past the end of the list succeeds.  A failed statement changes
    nothing (a statement is atomic), and a transaction that is not committed is
    rolled back by the deferred [tx.Rollback()].  [foreign_keys] says whether the
    engine enforces the [REFERENCES devices(id) ON DELETE SET NULL] clause. *)

From S2P Require Import Prelude.

(** ** Data *)

Record row := Row {
  r_name : string;
  r_public_key : string;
  r_device_token : string;
  r_static_key : option string;
  r_paired_with : option string;
  r_created_at : Z;
  r_last_seen : option Z;
  r_expires_at : option Z
}.

(** [type Device struct]. *)
Record Device := MkDevice {
  ID : string;
  Name : string;
  PublicKey : string;
  DeviceToken : string;
  StaticKey : string;
  PairedWith : option string;
  CreatedAt : Z;
  LastSeen : option Z;
  ExpiresAt : option Z
}.

(** The sentinel errors, a violated constraint, and any other engine error. *)
Inductive dberr :=
  | ErrNotFound
  | ErrAlreadyPaired
  | ErrStaticKeyMismatch
  | ErrConstraint
  | ErrEngine.

#[export] Instance dberr_eq_dec : EqDecision dberr.
Proof. solve_decision. Defined.
#[export] Instance row_eq_dec : EqDecision row.
Proof. solve_decision. Defined.
#[export] Instance Device_eq_dec : EqDecision Device.
Proof. solve_decision. Defined.

Abbreviation table := (gmap string row).

Record conn := Conn { devices : table; faults : list bool }.

(** ** The monad of store operations *)

Definition DBM (A : Type) : Type := conn → (dberr + A) * conn.

#[export] Instance DBM_ret : MRet DBM := λ A x c, (inr x, c).
#[export] Instance DBM_bind : MBind DBM := λ A B f m c,
  match m c with
  | (inl e, c') => (inl e, c')
  | (inr x, c') => f x c'
  end.

Definition throw {A} (e : dberr) : DBM A := λ c, (inl e, c).

(** One round trip to the engine. *)
Definition engine : DBM unit := λ c,
  match faults c with
  | [] => (inr tt, c)
  | true :: fs => (inl ErrEngine, Conn (devices c) fs)
  | false :: fs => (inr tt, Conn (devices c) fs)
  end.

Definition read {A} (q : table → A) : DBM A := λ c, (inr (q (devices c)), c).

Definition write (f : table → dberr + table) : DBM unit := λ c,
  match f (devices c) with
  | inl e => (inl e, c)
  | inr t => (inr tt, Conn t (faults c))
  end.

(** [QueryRow(...).Scan(...)]: reads the table. *)
Definition query {A} (q : table → A) : DBM A := engine ≫= λ _, read q.

(** [Exec(...)]: replaces the table, or reports a violated constraint. *)
Definition exec (f : table → dberr + table) : DBM unit :=
  engine ≫= λ _, write f.

(** [tx, err := db.Begin(); defer tx.Rollback(); body; return tx.Commit()]. *)
Definition in_tx (body : DBM unit) : DBM unit := λ c,
  match engine c with
  | (inl e, c1) => (inl e, c1)
  | (inr _, c1) =>
      match (body ≫= λ _, engine) c1 with
      | (inl e, c2) => (inl e, Conn (devices c1) (faults c2))
      | (inr _, c2) => (inr tt, c2)
      end
  end.

(** ** The SQL statements *)

Definition set_paired (p : option string) (r : row) : row :=
  Row (r_name r) (r_public_key r) (r_device_token r) (r_static_key r) p
      (r_created_at r) (r_last_seen r) (r_expires_at r).

(** [SET paired_with = ?, expires_at = NULL]. *)
Definition set_linked (p : string) (r : row) : row :=
  Row (r_name r) (r_public_key r) (r_device_token r) (r_static_key r) (Some p)
      (r_created_at r) (r_last_seen r) None.

Definition set_public_key (k : string) (r : row) : row :=
  Row (r_name r) k (r_device_token r) (r_static_key r) (r_paired_with r)
      (r_created_at r) (r_last_seen r) (r_expires_at r).

Definition set_static_key (k : string) (r : row) : row :=
  Row (r_name r) (r_public_key r) (r_device_token r) (Some k) (r_paired_with r)
      (r_created_at r) (r_last_seen r) (r_expires_at r).

Definition set_last_seen (t : Z) (r : row) : row :=
  Row (r_name r) (r_public_key r) (r_device_token r) (r_static_key r) (r_paired_with r)
      (r_created_at r) (Some t) (r_expires_at r).

(** [UPDATE devices SET paired_with = NULL WHERE id = ? OR paired_with = ?]. *)
Definition clear_links (id : string) (t : table) : table :=
  map_imap (λ k r, Some (if decide (k = id ∨ r_paired_with r = Some id)
                         then set_paired None r else r)) t.

(** [UPDATE devices SET paired_with = NULL WHERE paired_with = ?]. *)
Definition clear_refs (id : string) (t : table) : table :=
  (λ r, if decide (r_paired_with r = Some id) then set_paired None r else r) <$> t.

(** [DELETE FROM devices WHERE id = ?], with the foreign-key action when the engine
    enforces it. *)
Definition delete_row (foreign_keys : bool) (id : string) (t : table) : table :=
  let t' := delete id t in if foreign_keys then clear_refs id t' else t'.

(** The [UNIQUE] constraint of [device_token]. *)
Definition token_free (tok : string) (t : table) : Prop :=
  map_Forall (λ _ r, r_device_token r ≠ tok) t.

#[export] Instance token_free_dec tok t : Decision (token_free tok t).
Proof. unfold token_free. apply _. Defined.

(** [INSERT INTO devices (id, name, public_key, device_token, created_at, expires_at)]. *)
Definition insert_row (d : Device) (t : table) : dberr + table :=
  if decide (t !! ID d = None ∧ token_free (DeviceToken d) t) then
    inr (<[ID d := Row (Name d) (PublicKey d) (DeviceToken d) None None
                       (CreatedAt d) None (ExpiresAt d)]> t)
  else inl ErrConstraint.

(** ** The methods of [*DB] *)

(** [scanDevice]: one row into a [Device]; a NULL [static_key] becomes the empty
    string, the other nullable columns stay optional. *)
Definition scanDevice (id : string) (r : row) : Device :=
  MkDevice id (r_name r) (r_public_key r) (r_device_token r)
           (default "" (r_static_key r)) (r_paired_with r)
           (r_created_at r) (r_last_seen r) (r_expires_at r).

Definition CreateDevice (d : Device) : DBM unit := exec (insert_row d).

Definition scan_opt (o : option (string * row)) : DBM Device :=
  match o with
  | None => throw ErrNotFound
  | Some (id, r) => mret (scanDevice id r)
  end.

Definition find_token (token : string) (t : table) : option (string * row) :=
  head (filter (λ p, r_device_token p.2 = token) (map_to_list t)).

Definition GetDeviceByDeviceToken (token : string) : DBM Device :=
  query (find_token token) ≫= scan_opt.

Definition GetDeviceByID (id : string) : DBM Device :=
  query (λ t, (λ r, (id, r)) <$> t !! id) ≫= scan_opt.

Lemma GetDeviceByID_eval id t fs :
  GetDeviceByID id (Conn t fs) =
  match fs with
  | true :: fs => (inl ErrEngine, Conn t fs)
  | _ => (match t !! id with None => inl ErrNotFound | Some r => inr (scanDevice id r) end,
          Conn t (tail fs))
  end.
Proof.
  unfold GetDeviceByID, query, engine, read, scan_opt, throw, mbind, DBM_bind, mret, DBM_ret.
  destruct fs as [|[] fs]; simpl; try done; by destruct (t !! id).
Qed.

(** [ORDER BY created_at]; SQL leaves the order of equal keys open, here it is the
    enumeration order of the map. *)
Definition created_le (p q : string * row) : Prop :=
  (r_created_at p.2 ≤ r_created_at q.2)%Z.

#[export] Instance created_le_dec p q : Decision (created_le p q).
Proof. unfold created_le. apply _. Defined.

Definition ListDevices : DBM (list Device) :=
  query (λ t, (λ p, scanDevice p.1 p.2) <$> merge_sort created_le (map_to_list t)).

(** The two checks of [PairDevices]: [SELECT paired_with FROM devices WHERE id = ?]. *)
Definition check_unpaired (id : string) : DBM unit :=
  query (λ t, r_paired_with <$> t !! id) ≫= λ o,
    match o with
    | None => throw ErrNotFound
    | Some (Some _) => throw ErrAlreadyPaired
    | Some None => mret tt
    end.

(** The entries of [map[string]string{idA: idB, idB: idA}], in the order the runtime
    happens to range over them ([ord]); one entry when the keys coincide. *)
Definition link_entries (ord : bool) (idA idB : string) : list (string * string) :=
  if decide (idA = idB) then [(idB, idA)]
  else if ord then [(idA, idB); (idB, idA)] else [(idB, idA); (idA, idB)].

Definition link_exec (e : string * string) : DBM unit :=
  exec (λ t, inr (alter (set_linked e.2) e.1 t)).

Fixpoint link_loop (es : list (string * string)) : DBM unit :=
  match es with
  | [] => mret tt
  | e :: es => link_exec e ≫= λ _, link_loop es
  end.

Definition pair_body (ord : bool) (idA idB : string) : DBM unit :=
  check_unpaired idA ≫= λ _,
  check_unpaired idB ≫= λ _,
  link_loop (link_entries ord idA idB).

Definition PairDevices (ord : bool) (idA idB : string) : DBM unit :=
  in_tx (pair_body ord idA idB).

Definition UnpairDevice (id : string) : DBM unit :=
  exec (λ t, inr (clear_links id t)).

Definition UpdatePublicKey (id pubKey : string) : DBM unit :=
  exec (λ t, inr (alter (set_public_key pubKey) id t)).

Definition SetStaticKeyIfUnset (id staticKey : string) : DBM unit :=
  in_tx (query (λ t, r_static_key <$> t !! id) ≫= λ o,
    match o with
    | None => throw ErrNotFound
    | Some existing =>
        if decide (default "" existing ≠ "") then
          if decide (default "" existing ≠ staticKey) then throw ErrStaticKeyMismatch
          else mret tt
        else exec (λ t, inr (alter (set_static_key staticKey) id t))
    end).

Definition TouchLastSeen (now : Z) (id : string) : DBM unit :=
  exec (λ t, inr (alter (set_last_seen now) id t)).

(** Two statements, each its own implicit transaction. *)
Definition DeleteDevice_refs (id : string) : DBM unit :=
  exec (λ t, inr (clear_refs id t)).
Definition DeleteDevice_row (foreign_keys : bool) (id : string) : DBM unit :=
  exec (λ t, inr (delete_row foreign_keys id t)).
Definition DeleteDevice (foreign_keys : bool) (id : string) : DBM unit :=
  DeleteDevice_refs id ≫= λ _, DeleteDevice_row foreign_keys id.

(** [Device.PairedWithShort]: the first eight bytes of the peer's ID. *)
Definition PairedWithShort (d : Device) : string :=
  match PairedWith d with
  | None => ""
  | Some p => if decide (slen p < 8) then p else String.substring 0 8 p
  end.

(** ** Possible outcomes of a store operation

    [runs m t r t'] says that, under some schedule of engine faults, [m] started on
    table [t] returns [r] and leaves [t']. *)

Definition runs {A} (m : DBM A) (t : table) (r : dberr + A) (t' : table) : Prop :=
  ∃ fs fs', m (Conn t fs) = (r, Conn t' fs').

Lemma runs_intro {A} (m : DBM A) t fs :
  runs m t (m (Conn t fs)).1 (devices (m (Conn t fs)).2).
Proof. exists fs. destruct (m (Conn t fs)) as [r [t' fs']]. by exists fs'. Qed.

Lemma runs_engine t r t' : runs engine t r t' → t' = t ∧ (r = inl ErrEngine ∨ r = inr tt).
Proof.
  intros (fs & fs' & H). unfold engine in H.
  destruct fs as [|[] fs]; simplify_eq/=; auto.
Qed.

Lemma runs_bind {A B} (m : DBM A) (f : A → DBM B) t r t' :
  runs (m ≫= f) t r t' →
  (∃ e, r = inl e ∧ runs m t (inl e) t') ∨
  (∃ x t1, runs m t (inr x) t1 ∧ runs (f x) t1 r t').
Proof.
  intros (fs & fs' & H). unfold mbind, DBM_bind in H.
  destruct (m (Conn t fs)) as [[e|x] [t1 fs1]] eqn:E; simplify_eq/=.
  - left. exists e. split; [done|]. by exists fs, fs'.
  - right. exists x, t1. split; [by exists fs, fs1|by exists fs1, fs'].
Qed.

Lemma runs_ret {A} (x : A) t r t' : runs (mret x) t r t' → r = inr x ∧ t' = t.
Proof. intros (fs & fs' & H). injection H. by intros <- <- <-. Qed.

Lemma runs_throw {A} (e : dberr) t (r : dberr + A) t' :
  runs (throw e) t r t' → r = inl e ∧ t' = t.
Proof. intros (fs & fs' & H). injection H. by intros <- <- <-. Qed.

Lemma runs_query {A} (q : table → A) t r t' :
  runs (query q) t r t' → t' = t ∧ (r = inl ErrEngine ∨ r = inr (q t)).
Proof.
  intros [(e & -> & [-> Hr]%runs_engine)|(x & t1 & [-> _]%runs_engine & Hq)]%runs_bind.
  - destruct Hr; simplify_eq. auto.
  - destruct Hq as (fs & fs' & H). injection H. intros <- <- <-. auto.
Qed.

Lemma runs_exec f t r t' :
  runs (exec f) t r t' →
  (r = inl ErrEngine ∧ t' = t) ∨ (∃ e, f t = inl e ∧ r = inl e ∧ t' = t) ∨
  (f t = inr t' ∧ r = inr tt).
Proof.
  intros [(e & -> & [-> Hr]%runs_engine)|(x & t1 & [-> _]%runs_engine & Hq)]%runs_bind.
  - destruct Hr; simplify_eq. auto.
  - destruct Hq as (fs & fs' & H). unfold write in H. simpl in H.
    destruct (f t) eqn:?; simplify_eq/=; eauto 10.
Qed.

Lemma runs_exec_inr (f : table → table) t r t' :
  runs (exec (λ t, inr (f t))) t r t' →
  (r = inl ErrEngine ∧ t' = t) ∨ (r = inr tt ∧ t' = f t).
Proof. intros [?|[(? & ? & ?)|[? ?]]]%runs_exec; naive_solver. Qed.

Lemma runs_tx body t r t' :
  runs (in_tx body) t r t' →
  (t' = t ∧ (r = inl ErrEngine ∨ ∃ e t1, r = inl e ∧ runs body t (inl e) t1)) ∨
  (r = inr tt ∧ runs body t (inr tt) t').
Proof.
  intros (fs & fs' & H). unfold in_tx in H.
  destruct (engine (Conn t fs)) as [e1 [t1 fs1]] eqn:E1.
  destruct (runs_engine t e1 t1) as [-> He1]; [by exists fs, fs1|].
  destruct e1 as [e1|[]]; [left; naive_solver|].
  destruct ((body ≫= λ _, engine) (Conn t fs1)) as [r2 [t2 fs2]] eqn:E2.
  assert (runs (body ≫= λ _, engine) t r2 t2) as
    [(e & -> & Hb)|([] & t3 & Hb & [-> Hr]%runs_engine)]%runs_bind by by exists fs1, fs2.
  - simplify_eq/=. left. eauto 10.
  - destruct Hr as [->| ->]; simplify_eq/=; auto.
Qed.

(** ** Specification of linking *)

(** What [PairDevices] refuses a device for. *)
Definition unpaired_err (id : string) (t : table) : option dberr :=
  match r_paired_with <$> t !! id with
  | None => Some ErrNotFound
  | Some (Some _) => Some ErrAlreadyPaired
  | Some None => None
  end.

Definition link (idA idB : string) (t : table) : table :=
  alter (set_linked idA) idB (alter (set_linked idB) idA t).

Definition pair_spec (idA idB : string) (t : table) : dberr + table :=
  match unpaired_err idA t with
  | Some e => inl e
  | None =>
      match unpaired_err idB t with
      | Some e => inl e
      | None => inr (link idA idB t)
      end
  end.

Lemma runs_check_unpaired id t r t' :
  runs (check_unpaired id) t r t' →
  t' = t ∧ (r = inl ErrEngine ∨ r = from_option inl (inr tt) (unpaired_err id t)).
Proof.
  unfold check_unpaired, unpaired_err.
  intros [(e & -> & [-> Hr]%runs_query)|(o & t1 & [-> Hq]%runs_query & H)]%runs_bind.
  - destruct Hr; naive_solver.
  - destruct Hq; [done|]. simplify_eq.
    destruct (r_paired_with <$> t !! id) as [[]|];
      first [apply runs_throw in H as [-> ->]|apply runs_ret in H as [-> ->]]; auto.
Qed.

Lemma link_entries_fold ord idA idB t :
  foldl (λ t e, alter (set_linked e.2) e.1 t) t (link_entries ord idA idB) =
  link idA idB t.
Proof.
  unfold link_entries, link. destruct (decide (idA = idB)) as [<-|Hne]; simpl.
  - apply map_eq; intros i. destruct (decide (i = idA)) as [->|Hi].
    + rewrite !lookup_alter_eq. by destruct (t !! idA).
    + by rewrite !lookup_alter_ne.
  - destruct ord; simpl; [done|]. by apply alter_alter_ne.
Qed.

Lemma runs_link_loop es t r t' :
  runs (link_loop es) t r t' →
  r = inl ErrEngine ∨
  (r = inr tt ∧ t' = foldl (λ t e, alter (set_linked e.2) e.1 t) t es).
Proof.
  revert t. induction es as [|e es IH]; intros t; simpl.
  - intros [-> ->]%runs_ret. auto.
  - intros [(er & -> & H)|([] & t1 & H & Hl)]%runs_bind;
      apply runs_exec_inr in H as [[? ->]|[? ->]]; simplify_eq; eauto.
Qed.

Lemma runs_pair_body ord idA idB t r t' :
  runs (pair_body ord idA idB) t r t' →
  r = inl ErrEngine ∨
  match pair_spec idA idB t with
  | inl e => r = inl e
  | inr t'' => r = inr tt ∧ t' = t''
  end.
Proof.
  unfold pair_body, pair_spec.
  intros [(e & -> & [-> Ha]%runs_check_unpaired)
         |([] & t2 & [-> Ha]%runs_check_unpaired & H)]%runs_bind;
    destruct (unpaired_err idA t); [naive_solver..|].
  apply runs_bind in H as [(e & -> & [-> Hc]%runs_check_unpaired)
         |([] & t2 & [-> Hc]%runs_check_unpaired & H)];
    destruct (unpaired_err idB t); [naive_solver..|].
  rewrite <- (link_entries_fold ord). by apply runs_link_loop in H.
Qed.

(** Every outcome of [PairDevices] is the specified one or a rolled-back engine error. *)
Lemma runs_PairDevices ord idA idB t r t' :
  runs (PairDevices ord idA idB) t r t' →
  (r = inl ErrEngine ∧ t' = t) ∨
  match pair_spec idA idB t with
  | inl e => r = inl e ∧ t' = t
  | inr t'' => r = inr tt ∧ t' = t''
  end.
Proof.
  intros [[-> [->|(e & t1 & -> & H)]]|[-> H]]%runs_tx; [by auto|..];
    apply runs_pair_body in H; destruct (pair_spec idA idB t); naive_solver.
Qed.

Lemma PairDevices_ok ord idA idB t :
  PairDevices ord idA idB (Conn t []) =
    match pair_spec idA idB t with
    | inl e => (inl e, Conn t [])
    | inr t' => (inr tt, Conn t' [])
    end.
Proof.
  unfold pair_spec, PairDevices, pair_body, check_unpaired, unpaired_err, in_tx.
  unfold mbind, DBM_bind; simpl. rewrite <- (link_entries_fold ord idA idB t).
  destruct (r_paired_with <$> t !! idA) as [[?|]|]; simpl; [done| |done].
  destruct (r_paired_with <$> t !! idB) as [[?|]|]; simpl; [done| |done].
  unfold link_entries. case_decide; [done|]. by destruct ord.
Qed.

Lemma UnpairDevice_ok id t : UnpairDevice id (Conn t []) = (inr tt, Conn (clear_links id t) []).
Proof. done. Qed.

(** ** The table invariant *)

Definition partner (t : table) (id : string) : option string :=
  t !! id ≫= r_paired_with.

(** A link is recorded on both ends. *)
Definition links_sym (t : table) : Prop :=
  ∀ a b, partner t a = Some b → partner t b = Some a.

(** [device_token] is [UNIQUE]. *)
Definition tokens_unique (t : table) : Prop :=
  ∀ a b ra rb, t !! a = Some ra → t !! b = Some rb →
    r_device_token ra = r_device_token rb → a = b.

(** A linked device's token carries no expiry. *)
Definition linked_no_expiry (t : table) : Prop :=
  ∀ a r, t !! a = Some r → is_Some (r_paired_with r) → r_expires_at r = None.

Record table_ok (t : table) : Prop := {
  ok_tokens : tokens_unique t;
  ok_expiry : linked_no_expiry t
}.

Lemma partner_lookup t a b :
  partner t a = Some b ↔ ∃ r, t !! a = Some r ∧ r_paired_with r = Some b.
Proof. unfold partner. rewrite bind_Some. done. Qed.

Lemma partner_link idA idB t x :
  partner (link idA idB t) x =
  if decide (x = idB) then (λ _, idA) <$> t !! x
  else if decide (x = idA) then (λ _, idB) <$> t !! x else partner t x.
Proof.
  unfold partner, link. repeat case_decide; subst.
  - rewrite lookup_alter_eq. destruct (decide (idA = idB)) as [->|].
    + rewrite lookup_alter_eq. by destruct (t !! idB).
    + rewrite lookup_alter_ne by done. by destruct (t !! idB).
  - rewrite lookup_alter_ne, lookup_alter_eq by done. by destruct (t !! idA).
  - by rewrite !lookup_alter_ne by done.
Qed.

Lemma partner_clear_links id t x :
  partner (clear_links id t) x =
  if decide (x = id ∨ partner t x = Some id) then None else partner t x.
Proof.
  unfold partner, clear_links. rewrite map_lookup_imap.
  destruct (t !! x) as [r|]; simpl; [|by repeat case_decide].
  by repeat case_decide.
Qed.

Lemma partner_clear_refs id t x :
  partner (clear_refs id t) x =
  if decide (partner t x = Some id) then None else partner t x.
Proof.
  unfold partner, clear_refs. rewrite lookup_fmap.
  destruct (t !! x) as [r|]; simpl; [|by repeat case_decide].
  by repeat case_decide.
Qed.

Lemma partner_delete id t x :
  partner (delete id t) x = if decide (x = id) then None else partner t x.
Proof.
  unfold partner. rewrite lookup_delete. repeat case_decide; by subst.
Qed.

(** Rewriting a row without touching its link leaves every partner alone. *)
Lemma partner_alter f id t x :
  (∀ r, r_paired_with (f r) = r_paired_with r) → partner (alter f id t) x = partner t x.
Proof.
  intros Hf. unfold partner. rewrite lookup_alter. case_decide; [|done]. subst.
  destruct (t !! x); simpl; auto.
Qed.

Lemma unpaired_err_None id t :
  unpaired_err id t = None → is_Some (t !! id) ∧ partner t id = None.
Proof.
  unfold unpaired_err, partner. destruct (t !! id) as [r|]; simpl; [|done].
  destruct (r_paired_with r); [done|eauto].
Qed.

(** ** Sequences of store operations *)

Inductive dbop :=
  | OCreate (d : Device)
  | OPair (ord : bool) (idA idB : string)
  | OUnpair (id : string)
  | OPublicKey (id pubKey : string)
  | OStaticKey (id staticKey : string)
  | OTouch (now : Z) (id : string)
  | ODelete (id : string).

Section store.
Context (foreign_keys : bool).

Definition run_op (o : dbop) : DBM unit :=
  match o with
  | OCreate d => CreateDevice d
  | OPair ord a b => PairDevices ord a b
  | OUnpair id => UnpairDevice id
  | OPublicKey id k => UpdatePublicKey id k
  | OStaticKey id k => SetStaticKeyIfUnset id k
  | OTouch now id => TouchLastSeen now id
  | ODelete id => DeleteDevice foreign_keys id
  end.

(** One call, with the faults the engine injects into it. *)
Definition db_call (t : table) (e : dbop * list bool) : table :=
  devices (run_op e.1 (Conn t e.2)).2.

Definition db_trace (es : list (dbop * list bool)) (t : table) : table :=
  foldl db_call t es.

(** [DeleteDevice] cut off between its two statements. *)
Definition interrupted (e : dbop * list bool) : bool :=
  match e with
  | (ODelete _, false :: true :: _) => true
  | _ => false
  end.

Lemma runs_SetStaticKey id k t r t' :
  runs (SetStaticKeyIfUnset id k) t r t' →
  t' = t ∨ (r = inr tt ∧ t' = alter (set_static_key k) id t ∧
            default "" (t !! id ≫= r_static_key) = "").
Proof.
  intros [[-> _]|[-> H]]%runs_tx; [by left|].
  apply runs_bind in H as [(e & ? & _)|(o & t1 & [-> [|Ho]]%runs_query & Hk)]; [done..|].
  simplify_eq. destruct (t !! id) as [ex|]; simpl in *;
    [|by apply runs_throw in Hk as [??]].
  destruct (decide (default "" (r_static_key ex) = "")) as [E|E].
  - rewrite decide_False in Hk by auto.
    apply runs_exec_inr in Hk as [[? ->]|[? ->]]; auto.
  - rewrite decide_True in Hk by auto. case_decide.
    + by apply runs_throw in Hk as [??].
    + apply runs_ret in Hk as [_ ->]. by left.
Qed.

Lemma SetStaticKeyIfUnset_ok id k t :
  SetStaticKeyIfUnset id k (Conn t []) =
  match t !! id with
  | None => (inl ErrNotFound, Conn t [])
  | Some r =>
      if decide (default "" (r_static_key r) = "") then
        (inr tt, Conn (alter (set_static_key k) id t) [])
      else if decide (default "" (r_static_key r) = k) then (inr tt, Conn t [])
      else (inl ErrStaticKeyMismatch, Conn t [])
  end.
Proof.
  unfold SetStaticKeyIfUnset, in_tx, mbind, DBM_bind. simpl.
  destruct (t !! id) as [r|]; simpl; [|done].
  repeat case_decide; simpl; try done; naive_solver.
Qed.

(** The table an operation may leave behind. *)
Lemma runs_run_op o t r t' :
  runs (run_op o) t r t' →
  t' = t ∨
  match o with
  | OCreate d => insert_row d t = inr t'
  | OPair _ a b => pair_spec a b t = inr t'
  | OUnpair id => t' = clear_links id t
  | OPublicKey id k => t' = alter (set_public_key k) id t
  | OStaticKey id k =>
      t' = alter (set_static_key k) id t ∧ default "" (t !! id ≫= r_static_key) = ""
  | OTouch now id => t' = alter (set_last_seen now) id t
  | ODelete id => t' = clear_refs id t ∨
                  t' = delete_row foreign_keys id (clear_refs id t)
  end.
Proof.
  destruct o; simpl.
  - intros [[_ ->]|[(e & ? & ? & ->)|[? _]]]%runs_exec; auto.
  - intros H%runs_PairDevices. destruct (pair_spec idA idB t); naive_solver.
  - intros [[_ ->]|[_ ->]]%runs_exec_inr; auto.
  - intros [[_ ->]|[_ ->]]%runs_exec_inr; auto.
  - intros [->|(_ & -> & ?)]%runs_SetStaticKey; auto.
  - intros [[_ ->]|[_ ->]]%runs_exec_inr; auto.
  - intros [(e & -> & H)|([] & t1 & H & Hd)]%runs_bind.
    + apply runs_exec_inr in H as [[_ ->]|[_ ->]]; auto.
    + apply runs_exec_inr in H as [[? ->]|[_ ->]]; [done|].
      apply runs_exec_inr in Hd as [[_ ->]|[_ ->]]; auto.
Qed.

Lemma db_call_effect t e :
  db_call t e = t ∨
  match e.1 with
  | OCreate d => insert_row d t = inr (db_call t e)
  | OPair _ a b => pair_spec a b t = inr (db_call t e)
  | OUnpair id => db_call t e = clear_links id t
  | OPublicKey id k => db_call t e = alter (set_public_key k) id t
  | OStaticKey id k =>
      db_call t e = alter (set_static_key k) id t ∧ default "" (t !! id ≫= r_static_key) = ""
  | OTouch now id => db_call t e = alter (set_last_seen now) id t
  | ODelete id => db_call t e = clear_refs id t ∨
                  db_call t e = delete_row foreign_keys id (clear_refs id t)
  end.
Proof. apply runs_run_op with (r := (run_op e.1 (Conn t e.2)).1), runs_intro. Qed.

Lemma db_call_delete t id fs :
  interrupted (ODelete id, fs) = false →
  db_call t (ODelete id, fs) = t ∨
  db_call t (ODelete id, fs) = delete_row foreign_keys id (clear_refs id t).
Proof.
  intros Hi. destruct fs as [|[] [|[] fs]]; try discriminate Hi;
    first [left; reflexivity|right; reflexivity].
Qed.

(** *** Token uniqueness and expiry: preserved by every call, faults included *)

Lemma table_ok_alter f id t :
  (∀ r, r_device_token (f r) = r_device_token r) →
  (∀ r, is_Some (r_paired_with (f r)) → r_expires_at (f r) = None ∨
        (is_Some (r_paired_with r) ∧ r_expires_at (f r) = r_expires_at r)) →
  table_ok t → table_ok (alter f id t).
Proof.
  intros Hf Hp [Ht He]. split.
  - intros a b ra rb Ha Hb. apply lookup_alter_Some in Ha, Hb.
    destruct Ha as [(<- & xa & Ha & ->)|[_ Ha]], Hb as [(<- & xb & Hb & ->)|[_ Hb]];
      rewrite ?Hf; eauto.
  - intros a ra Ha. apply lookup_alter_Some in Ha as [(<- & xa & Ha & ->)|[_ Ha]]; [|eauto].
    intros [?|[? ->]]%Hp; eauto.
Qed.

Lemma table_ok_clear f t :
  (∀ k r, f k r = r ∨ f k r = set_paired None r) →
  table_ok t → table_ok (map_imap (λ k r, Some (f k r)) t).
Proof.
  intros Hf [Ht He]. split.
  - intros a b ra rb. rewrite !map_lookup_imap. intros Ha Hb.
    destruct (t !! a) as [xa|] eqn:Ea, (t !! b) as [xb|] eqn:Eb; simplify_eq/=.
    destruct (Hf a xa) as [->| ->], (Hf b xb) as [->| ->]; eauto.
  - intros a ra. rewrite map_lookup_imap. intros Ha.
    destruct (t !! a) as [xa|] eqn:Ea; simplify_eq/=.
    destruct (Hf a xa) as [->| ->]; [eauto|]. intros [? ?]; done.
Qed.

Lemma table_ok_clear_refs id t : table_ok t → table_ok (clear_refs id t).
Proof.
  intros H. assert (clear_refs id t = map_imap (λ _ r, Some
    (if decide (r_paired_with r = Some id) then set_paired None r else r)) t) as ->.
  { apply map_eq; intros i. unfold clear_refs. rewrite lookup_fmap, map_lookup_imap.
    by destruct (t !! i). }
  apply table_ok_clear; [|done]. intros _ r. case_decide; auto.
Qed.

Lemma table_ok_delete id t : table_ok t → table_ok (delete id t).
Proof.
  intros [Ht He]. split.
  - intros a b ra rb [_ Ha]%lookup_delete_Some [_ Hb]%lookup_delete_Some. eauto.
  - intros a ra [_ Ha]%lookup_delete_Some. eauto.
Qed.

Lemma table_ok_insert d t t' : insert_row d t = inr t' → table_ok t → table_ok t'.
Proof.
  unfold insert_row. case_decide as Hd; [|done]. destruct Hd as [Hid Htok].
  intros [= <-] [Ht He]. split.
  - intros a b ra rb [(<- & <-)|[? Ha]]%lookup_insert_Some
      [(<- & <-)|[? Hb]]%lookup_insert_Some Heq; simpl in *; [done|..|eauto].
    + by destruct (Htok b rb Hb).
    + by destruct (Htok a ra Ha).
  - intros a ra [(<- & <-)|[? Ha]]%lookup_insert_Some; [|eauto]. by intros [? ?].
Qed.

Lemma table_ok_db_call t e : table_ok t → table_ok (db_call t e).
Proof.
  intros Hok. destruct e as [o fs].
  destruct (db_call_effect t (o, fs)) as [->|H]; [done|]. destruct o; simpl in H.
  - by eapply table_ok_insert.
  - unfold pair_spec in H. destruct (unpaired_err idA t), (unpaired_err idB t); simplify_eq.
    rewrite <- H. unfold link. apply table_ok_alter, table_ok_alter; naive_solver.
  - rewrite H. apply table_ok_clear; [|done]. intros k r. case_decide; auto.
  - rewrite H. apply table_ok_alter; naive_solver.
  - destruct H as [-> _]. apply table_ok_alter; naive_solver.
  - rewrite H. apply table_ok_alter; naive_solver.
  - destruct H as [->| ->]; [by apply table_ok_clear_refs|]. unfold delete_row.
    destruct foreign_keys; auto using table_ok_clear_refs, table_ok_delete.
Qed.

(** *** Symmetry of links *)

Lemma links_sym_ext t t' :
  (∀ x, partner t' x = partner t x) → links_sym t → links_sym t'.
Proof. intros E H a b. rewrite !E. apply H. Qed.

Lemma links_sym_pair a b t t' : pair_spec a b t = inr t' → links_sym t → links_sym t'.
Proof.
  unfold pair_spec. destruct (unpaired_err a t) eqn:Ea; [done|].
  destruct (unpaired_err b t) eqn:Eb; [done|]. intros [= <-] Hs x y.
  apply unpaired_err_None in Ea as [[ra Ha] Pa], Eb as [[rb Hb] Pb].
  assert (∀ z, partner t z ≠ Some a ∧ partner t z ≠ Some b) as Hn.
  { intros z. split; intros Hz%Hs; congruence. }
  specialize (Hn x). rewrite !partner_link.
  repeat case_decide; subst; rewrite ?Ha, ?Hb; naive_solver.
Qed.

Lemma links_sym_clear_links id t : links_sym t → links_sym (clear_links id t).
Proof.
  intros Hs x y. rewrite !partner_clear_links. case_decide as H1; [done|].
  intros Hx. pose proof (Hs x y Hx) as Hy. rewrite decide_False; [done|].
  intros [->|E]; [naive_solver|]. simplify_eq. naive_solver.
Qed.

(** A completed deletion has the links of [UnpairDevice]. *)
Lemma partner_deleted id t x :
  partner (delete_row foreign_keys id (clear_refs id t)) x = partner (clear_links id t) x.
Proof.
  unfold delete_row. rewrite partner_clear_links.
  destruct foreign_keys; rewrite ?partner_clear_refs, partner_delete, partner_clear_refs;
    repeat case_decide; naive_solver.
Qed.

Lemma links_sym_insert d t t' : insert_row d t = inr t' → links_sym t → links_sym t'.
Proof.
  unfold insert_row. case_decide as Hd; [|done]. destruct Hd as [Hid _].
  intros [= <-]. apply links_sym_ext. intros x. unfold partner.
  destruct (decide (x = ID d)) as [->|]; [|by rewrite lookup_insert_ne].
  by rewrite lookup_insert_eq, Hid.
Qed.

Lemma links_sym_db_call t e :
  interrupted e = false → links_sym t → links_sym (db_call t e).
Proof.
  intros Hi Hs. destruct e as [o fs].
  destruct o as [d|ord a b|id|id k|id k|now id|id];
    [destruct (db_call_effect t (OCreate d, fs)) as [->|H]
    |destruct (db_call_effect t (OPair ord a b, fs)) as [->|H]
    |destruct (db_call_effect t (OUnpair id, fs)) as [->|H]
    |destruct (db_call_effect t (OPublicKey id k, fs)) as [->|H]
    |destruct (db_call_effect t (OStaticKey id k, fs)) as [->|[H _]]
    |destruct (db_call_effect t (OTouch now id, fs)) as [->|H]
    |apply (db_call_delete t) in Hi as [->|H]]; try done; simpl in H.
  - by eapply links_sym_insert.
  - by eapply links_sym_pair.
  - rewrite H. by apply links_sym_clear_links.
  - rewrite H. eapply links_sym_ext; [|done]. intros. by apply partner_alter.
  - rewrite H. eapply links_sym_ext; [|done]. intros. by apply partner_alter.
  - rewrite H. eapply links_sym_ext; [|done]. intros. by apply partner_alter.
  - rewrite H. eapply links_sym_ext; [apply partner_deleted|]. by apply links_sym_clear_links.
Qed.

(** *** Key locking *)

Definition locked_key (t : table) (id : string) : string :=
  default "" (t !! id ≫= r_static_key).

Lemma locked_key_alter f id t x :
  (∀ r, r_static_key (f r) = r_static_key r) →
  locked_key (alter f id t) x = locked_key t x.
Proof.
  intros Hf. unfold locked_key. rewrite lookup_alter. case_decide; [|done]. subst.
  destruct (t !! x); simpl; by rewrite ?Hf.
Qed.

Lemma locked_key_clear_refs id t x : locked_key (clear_refs id t) x = locked_key t x.
Proof.
  unfold locked_key, clear_refs. rewrite lookup_fmap.
  destruct (t !! x); simpl; [|done]. by case_decide.
Qed.

Lemma locked_key_db_call t o fs x :
  o ≠ ODelete x → locked_key t x ≠ "" → locked_key (db_call t (o, fs)) x = locked_key t x.
Proof.
  intros Ho Hk. destruct (db_call_effect t (o, fs)) as [->|H]; [done|].
  destruct o as [d|ord a b|id|id k|id k|now id|id]; simpl in H.
  - unfold insert_row in H. case_decide as Hd; [|done]. destruct Hd as [Hd _].
    injection H as <-. unfold locked_key. destruct (decide (x = ID d)) as [->|].
    + unfold locked_key in Hk. by rewrite Hd in Hk.
    + by rewrite lookup_insert_ne.
  - unfold pair_spec in H. destruct (unpaired_err a t), (unpaired_err b t); simplify_eq.
    rewrite <- H. unfold link. by rewrite !locked_key_alter.
  - rewrite H. unfold locked_key, clear_links. rewrite map_lookup_imap.
    destruct (t !! x); simpl; [|done]. by case_decide.
  - rewrite H. by apply locked_key_alter.
  - destruct H as [-> Hu]. unfold locked_key in *. destruct (decide (x = id)) as [->|].
    + by rewrite Hu in Hk.
    + by rewrite lookup_alter_ne.
  - rewrite H. by apply locked_key_alter.
  - assert (x ≠ id) as Hx by congruence.
    destruct H as [->| ->]; [apply locked_key_clear_refs|]. unfold delete_row.
    destruct foreign_keys; rewrite ?locked_key_clear_refs; unfold locked_key at 1;
      rewrite lookup_delete_ne by done; apply locked_key_clear_refs.
Qed.
End store.

(** ** Properties *)

(** C27: [PairDevices] is atomic and implements [pair_spec].  Whatever engine call fails
    and in whatever order Go ranges over the two-entry map, the call either returns an
    engine error with the table untouched, or returns exactly what the specification
    says: the first missing device gives [ErrNotFound], the first linked one gives
    [ErrAlreadyPaired] (table untouched both times), and otherwise both rows point at
    each other with their token expiry cleared.  When no call fails the specified
    outcome is the one that happens. *)
Theorem PairDevices_refines ord idA idB t :
  (∀ fs, let out := PairDevices ord idA idB (Conn t fs) in
     (out.1 = inl ErrEngine ∧ devices out.2 = t) ∨
     match pair_spec idA idB t with
     | inl e => out.1 = inl e ∧ devices out.2 = t
     | inr t' => out.1 = inr tt ∧ devices out.2 = t'
     end) ∧
  PairDevices ord idA idB (Conn t []) =
    match pair_spec idA idB t with
    | inl e => (inl e, Conn t [])
    | inr t' => (inr tt, Conn t' [])
    end.
Proof.
  split; [intros fs; apply (runs_PairDevices ord), runs_intro|]. apply PairDevices_ok.
Qed.

(** Links stay symmetric.  Starting from the empty table, after any sequence of
    store operations with any engine faults, a device that records a partner is
    recorded by that partner; the only excluded event is [DeleteDevice] being cut off
    between its two statements. *)
Theorem links_symmetric fk es :
  Forall (λ e, interrupted e = false) es → links_sym (db_trace fk es ∅).
Proof.
  intros Hes. unfold db_trace.
  assert (links_sym ∅) as H0 by (intros a b; unfold partner; by rewrite lookup_empty).
  revert H0. generalize (∅ : table). induction Hes as [|e es He _ IH]; intros t Ht; [done|].
  simpl. apply IH. by apply links_sym_db_call.
Qed.

(** The [UNIQUE] token constraint and the rule that a linked device's token never
    expires hold after any sequence of store operations with any engine faults. *)
Theorem table_always_ok fk es : table_ok (db_trace fk es ∅).
Proof.
  unfold db_trace. assert (table_ok ∅) as H0.
  { split; [intros a b ra rb Ha|intros a r Ha]; by rewrite lookup_empty in Ha. }
  revert H0. generalize (∅ : table). induction es as [|e es IH]; intros t Ht; [done|].
  simpl. apply IH. by apply table_ok_db_call.
Qed.

(** Key locking.  Once a device has announced a non-empty static key, no sequence of
    store operations changes it as long as the device is not deleted. *)
Theorem static_key_locked fk es t id k :
  k ≠ "" → locked_key t id = k →
  Forall (λ e, e.1 ≠ ODelete id) es →
  locked_key (db_trace fk es t) id = k.
Proof.
  intros Hk Ht Hes. unfold db_trace. revert t Ht.
  induction Hes as [|[o fs] es Ho _ IH]; intros t Ht; [done|]. simpl. apply IH.
  rewrite <- Ht in *. by apply locked_key_db_call.
Qed.

(** [DeleteDevice] is not atomic: when its second statement fails, the call reports
    the error but the device keeps pointing at its former peer, whose own link is gone. *)
Theorem DeleteDevice_not_atomic fk t a b :
  a ≠ b → partner t a = Some b → partner t b = Some a →
  let out := DeleteDevice fk a (Conn t [false; true]) in
  out.1 = inl ErrEngine ∧
  partner (devices out.2) a = Some b ∧ partner (devices out.2) b = None.
Proof.
  intros Hne Ha Hb. simpl. split; [done|].
  rewrite !partner_clear_refs. rewrite Ha, Hb.
  split; [rewrite decide_False by congruence|rewrite decide_True by done]; done.
Qed.

(** ** Witnesses *)

Definition ex_dev (id tok : string) : Device := MkDevice id "n" "" tok "" None 0 None (Some 300%Z).
Definition ex_table : table :=
  db_trace false [(OCreate (ex_dev "a" "t1"), []); (OCreate (ex_dev "b" "t2"), []);
                  (OPair true "a" "b", []); (OStaticKey "a" "key", [])] ∅.

Lemma links_symmetric_witness :
  Forall (λ e, interrupted e = false)
    [(OCreate (ex_dev "a" "t1"), []); (OCreate (ex_dev "b" "t2"), []); (OPair true "a" "b", [])] ∧
  links_sym (db_trace true
    [(OCreate (ex_dev "a" "t1"), []); (OCreate (ex_dev "b" "t2"), []); (OPair true "a" "b", [])] ∅).
Proof.
  split; [repeat constructor|apply links_symmetric; repeat constructor].
Defined.

Lemma static_key_locked_witness :
  locked_key (db_trace false [(OStaticKey "a" "other", []); (OUnpair "b", [])] ex_table) "a" = "key".
Proof.
  apply (static_key_locked false _ ex_table "a" "key"); [done|vm_compute; reflexivity|].
  repeat constructor; discriminate.
Defined.

Lemma DeleteDevice_not_atomic_witness :
  let out := DeleteDevice false "a" (Conn ex_table [false; true]) in
  out.1 = inl ErrEngine ∧
  partner (devices out.2) "a" = Some "b" ∧ partner (devices out.2) "b" = None.
Proof.
  apply (DeleteDevice_not_atomic false ex_table "a" "b");
    [discriminate|vm_compute; reflexivity..].
Defined.
