(* ===== verification/Migrate.v ===== *)
(** * Schema migrations (src/internal/database/db.go)

    The SQL text of the migrations is kept as a list of statements of a small
    statement language, one constructor per statement form the file uses, and
    [exec_stmt] gives the effect SQLite documents for it, errors included ([None]).
    A database is its set of recorded versions, the columns and rows of [devices],
    and its indexes.  [migrate] is the loop of [DB.migrate]; as in Database.v an
    explicit list of faults decides which engine call fails, and a fault also stands
    for the process dying at that call. *)

From S2P Require Import Prelude.

(** ** Statements *)

Inductive stmt :=
  | CreateDevices (cols : list string)           (* CREATE TABLE IF NOT EXISTS devices *)
  | CreateIndex (name col : string)              (* CREATE INDEX IF NOT EXISTS *)
  | DropIndex (name : string)                    (* DROP INDEX IF EXISTS *)
  | AddColumn (col : string)                     (* ALTER TABLE devices ADD COLUMN *)
  | RenameColumn (old new : string)              (* ALTER TABLE devices RENAME COLUMN *)
  | CopyNonEmpty (dst src : string).             (* UPDATE devices SET dst = src
                                                    WHERE src IS NOT NULL AND src is not empty *)

Definition migration1SQL : list stmt :=
  [ CreateDevices ["id"; "name"; "public_key"; "pair_token"; "paired_with";
                   "created_at"; "last_seen"];
    CreateIndex "idx_devices_pair_token" "pair_token";
    CreateIndex "idx_devices_paired_with" "paired_with" ].

Definition migration2SQL : list stmt := [ AddColumn "expires_at" ].

Definition migration3SQL : list stmt :=
  [ RenameColumn "pair_token" "device_token";
    AddColumn "static_key";
    CopyNonEmpty "static_key" "public_key";
    DropIndex "idx_devices_pair_token";
    CreateIndex "idx_devices_device_token" "device_token" ].

(** ** Databases *)

(** A row maps the columns with a non-NULL value to that value. *)
Abbreviation srow := (gmap string string).

Record devtable := DevTable { columns : list string; rows : gmap string srow }.

Record sqldb := SqlDB {
  versions : option (gset Z);        (* schema_migrations, if it exists *)
  devtab : option devtable;          (* devices, if it exists *)
  indexes : list (string * string)   (* index name and indexed column *)
}.

#[export] Instance devtable_eq_dec : EqDecision devtable.
Proof. solve_decision. Defined.
#[export] Instance sqldb_eq_dec : EqDecision sqldb.
Proof. solve_decision. Defined.

Definition rename (old new c : string) : string := if decide (c = old) then new else c.

Definition rename_row (old new : string) (r : srow) : srow :=
  match r !! old with
  | Some v => <[new := v]> (delete old r)
  | None => r
  end.

Definition copy_row (dst src : string) (r : srow) : srow :=
  match r !! src with
  | Some v => if decide (v = "") then r else <[dst := v]> r
  | None => r
  end.

Definition exec_stmt (s : stmt) (d : sqldb) : option sqldb :=
  match s, devtab d with
  | CreateDevices cols, None =>
      Some (SqlDB (versions d) (Some (DevTable cols ∅)) (indexes d))
  | CreateDevices _, Some _ => Some d
  | CreateIndex name col, tab =>
      if decide (name ∈ (indexes d).*1) then Some d
      else
        match tab with
        | Some t => if decide (col ∈ columns t)
                    then Some (SqlDB (versions d) tab ((name, col) :: indexes d))
                    else None
        | None => None
        end
  | DropIndex name, _ => Some (SqlDB (versions d) (devtab d) (filter (λ i, i.1 ≠ name) (indexes d)))
  | AddColumn col, Some t =>
      if decide (col ∈ columns t) then None
      else Some (SqlDB (versions d) (Some (DevTable (columns t ++ [col]) (rows t))) (indexes d))
  | RenameColumn old new, Some t =>
      if decide (old ∈ columns t ∧ new ∉ columns t) then
        Some (SqlDB (versions d)
                (Some (DevTable (rename old new <$> columns t) (rename_row old new <$> rows t)))
                (prod_map id (rename old new) <$> indexes d))
      else None
  | CopyNonEmpty dst src, Some t =>
      if decide (dst ∈ columns t ∧ src ∈ columns t) then
        Some (SqlDB (versions d) (Some (DevTable (columns t) (copy_row dst src <$> rows t)))
                (indexes d))
      else None
  | AddColumn _, None | RenameColumn _ _, None | CopyNonEmpty _ _, None => None
  end.

(** [Exec] of a multi-statement text stops at the first failing statement; the
    statements before it have taken effect. *)
Fixpoint exec_stmts (ss : list stmt) (d : sqldb) : bool * sqldb :=
  match ss with
  | [] => (true, d)
  | s :: ss =>
      match exec_stmt s d with
      | Some d' => exec_stmts ss d'
      | None => (false, d)
      end
  end.

(** ** [DB.migrate] *)

(** One engine call: the fault, if any, and the faults that remain. *)
Definition call (fs : list bool) : bool * list bool :=
  match fs with
  | [] => (true, [])
  | b :: fs => (negb b, fs)
  end.

Definition migrations : list (Z * list stmt) :=
  [ (1%Z, migration1SQL); (2%Z, migration2SQL); (3%Z, migration3SQL) ].

Definition applied (v : Z) (d : sqldb) : bool :=
  match versions d with
  | Some vs => bool_decide (v ∈ vs)
  | None => false
  end.

(** [INSERT OR IGNORE INTO schema_migrations(version) VALUES (?)]. *)
Definition record_version (v : Z) (d : sqldb) : sqldb :=
  SqlDB (Some ({[v]} ∪ default ∅ (versions d))) (devtab d) (indexes d).

(** The body of the loop over the migrations; [true] is a nil error. *)
Fixpoint migrate_loop (ms : list (Z * list stmt)) (d : sqldb) (fs : list bool) : bool * sqldb :=
  match ms with
  | [] => (true, d)
  | (v, sql) :: ms =>
      let '(ok1, fs1) := call fs in
      if ok1 then
        if applied v d then migrate_loop ms d fs1
        else
          let '(ok2, fs2) := call fs1 in
          if ok2 then
            match exec_stmts sql d with
            | (true, d') =>
                let '(ok3, fs3) := call fs2 in
                if ok3 then migrate_loop ms (record_version v d') fs3 else (false, d')
            | (false, d') => (false, d')
            end
          else (false, d)
      else (false, d)
  end.

(** [migrationsTableSQL]: CREATE TABLE IF NOT EXISTS schema_migrations. *)
Definition migrationsTableSQL (d : sqldb) : sqldb :=
  SqlDB (Some (default ∅ (versions d))) (devtab d) (indexes d).

Definition migrate (d : sqldb) (fs : list bool) : bool * sqldb :=
  let '(ok, fs1) := call fs in
  if ok then migrate_loop migrations (migrationsTableSQL d) fs1 else (false, d).

Definition empty_db : sqldb := SqlDB None None [].

(** [Open]: making the directory, opening the file named in the data source name, and
    reaching it may each fail; [fs] are as for [migrate]. *)
Inductive openerr := ErrMkdir | ErrSqlOpen | ErrPing | ErrMigrations.

Definition dsn (path : string) : string :=
  "file:" +:+ path +:+ "?_journal_mode=WAL&_busy_timeout=5000&_foreign_keys=on".

Definition Open (mkdir : bool) (sqlOpen : string → option sqldb) (ping : bool) (path : string) (fs : list bool)
    : openerr + sqldb :=
  if mkdir then
    match sqlOpen (dsn path) with
    | None => inl ErrSqlOpen
    | Some rawDB =>
        if ping then
          match migrate rawDB fs with
          | (true, db) => inr db
          | (false, _) => inl ErrMigrations
          end
        else inl ErrPing
    end
  else inl ErrMkdir.

(** ** Facts *)

Lemma exec_stmt_versions s d d' : exec_stmt s d = Some d' → versions d' = versions d.
Proof.
  destruct s, d as [vs tab ix]; simpl; intros H;
    repeat (case_match || case_decide || simplify_eq/=); done.
Qed.

Lemma exec_stmts_versions ss d b d' :
  exec_stmts ss d = (b, d') → versions d' = versions d.
Proof.
  revert d. induction ss as [|s ss IH]; intros d; simpl; [by intros [= _ <-]|].
  destruct (exec_stmt s d) as [d1|] eqn:E; [|by intros [= _ <-]].
  intros ->%IH. by eapply exec_stmt_versions.
Qed.

Lemma applied_mono v w d : applied v d = true → applied v (record_version w d) = true.
Proof.
  unfold applied, record_version. simpl. destruct (versions d); [|done].
  rewrite !bool_decide_eq_true. set_solver.
Qed.

Lemma applied_record v d : applied v (record_version v d) = true.
Proof. unfold applied, record_version; simpl. rewrite bool_decide_eq_true. set_solver. Qed.

Lemma applied_exec v ss d b d' : exec_stmts ss d = (b, d') → applied v d' = applied v d.
Proof. intros H%exec_stmts_versions. unfold applied. by rewrite H. Qed.

(** A successful run records every version of its list and forgets none. *)
Lemma migrate_loop_applied ms d fs d' :
  migrate_loop ms d fs = (true, d') →
  (∀ v, applied v d = true → applied v d' = true) ∧
  Forall (λ m, applied m.1 d' = true) ms.
Proof.
  revert d fs. induction ms as [|[v sql] ms IH]; intros d fs; simpl.
  { intros [= <-]. split; [done|constructor]. }
  destruct (call fs) as [[] fs1]; [|done].
  destruct (applied v d) eqn:Ea.
  { intros [Hm Hf]%IH. split; [done|]. constructor; [by apply Hm|done]. }
  destruct (call fs1) as [[] fs2]; [|done].
  destruct (exec_stmts sql d) as [[] d1] eqn:E; [|done].
  destruct (call fs2) as [[] fs3]; [|done].
  intros [Hm Hf]%IH. split.
  - intros w Hw. apply Hm, applied_mono. by rewrite (applied_exec _ _ _ _ _ E).
  - constructor; [by apply Hm, applied_record|done].
Qed.

Lemma migrate_loop_skip ms d :
  Forall (λ m, applied m.1 d = true) ms → migrate_loop ms d [] = (true, d).
Proof.
  induction 1 as [|[v sql] ms Hv _ IH]; simpl in *; [done|]. by rewrite Hv.
Qed.

Lemma migrationsTable_applied v d : applied v (migrationsTableSQL d) = applied v d.
Proof. unfold applied, migrationsTableSQL; simpl. by destruct (versions d). Qed.

(** A database as version 1 left it, with arbitrary rows. *)
Definition v1_columns : list string :=
  ["id"; "name"; "public_key"; "pair_token"; "paired_with"; "created_at"; "last_seen"].

Definition v1_db (rs : gmap string srow) : sqldb :=
  SqlDB (Some {[1%Z]}) (Some (DevTable v1_columns rs))
    [("idx_devices_paired_with", "paired_with"); ("idx_devices_pair_token", "pair_token")].

Definition v3_columns : list string :=
  ["id"; "name"; "public_key"; "device_token"; "paired_with"; "created_at"; "last_seen";
   "expires_at"; "static_key"].

Definition v3_db (rs : gmap string srow) : sqldb :=
  SqlDB (Some {[3%Z; 2%Z; 1%Z]}) (Some (DevTable v3_columns rs))
    [("idx_devices_device_token", "device_token"); ("idx_devices_paired_with", "paired_with")].

Definition v3_row (r : srow) : srow :=
  copy_row "static_key" "public_key" (rename_row "pair_token" "device_token" r).

Lemma migrate_v1 rs : migrate (v1_db rs) [] = (true, v3_db (v3_row <$> rs)).
Proof.
  trans (true, v3_db (copy_row "static_key" "public_key" <$>
                        (rename_row "pair_token" "device_token" <$> rs))).
  - lazy -[gmap_fmap rename_row copy_row]. reflexivity.
  - unfold v3_row. by rewrite <- map_fmap_compose.
Qed.

Lemma v3_row_lookup r c :
  dom r ⊆ list_to_set v1_columns →
  v3_row r !! c =
    if decide (c = "static_key") then
      match r !! "public_key" with Some v => if decide (v = "") then None else Some v | None => None end
    else if decide (c = "device_token") then r !! "pair_token"
    else if decide (c = "pair_token") then None
    else r !! c.
Proof.
  intros Hd.
  assert (∀ x, x ∉ (list_to_set v1_columns : gset string) → r !! x = None) as Hn.
  { intros x Hx. apply not_elem_of_dom. set_solver. }
  assert (r !! "static_key" = None) as Hs by (apply Hn; set_solver).
  assert (r !! "device_token" = None) as Ht by (apply Hn; set_solver).
  clear Hn Hd. unfold v3_row, copy_row.
  assert (rename_row "pair_token" "device_token" r !! "public_key" = r !! "public_key") as ->.
  { unfold rename_row. destruct (r !! "pair_token"); [|done].
    by rewrite lookup_insert_ne, lookup_delete_ne. }
  assert (∀ x, rename_row "pair_token" "device_token" r !! x =
               if decide (x = "device_token") then r !! "pair_token"
               else if decide (x = "pair_token") then None else r !! x) as Hr.
  { intros x. unfold rename_row. destruct (r !! "pair_token") as [p|] eqn:Ep.
    - destruct (decide (x = "device_token")) as [->|]; [by rewrite lookup_insert_eq|].
      rewrite lookup_insert_ne by done.
      destruct (decide (x = "pair_token")) as [->|]; [apply lookup_delete_eq|].
      by apply lookup_delete_ne.
    - repeat case_decide; by subst. }
  destruct (decide (c = "static_key")) as [->|Hc].
  - destruct (r !! "public_key") as [v|]; [case_decide|]; rewrite ?lookup_insert_eq, ?Hr; done.
  - destruct (r !! "public_key") as [v|]; [case_decide|];
      rewrite ?lookup_insert_ne, ?Hr by done; done.
Qed.

(** ** Properties *)

(** Migrations are idempotent: when [migrate] returns nil, whatever the database it
    started from, running it again on the result changes nothing and returns nil. *)
Theorem migrate_idempotent d fs d' :
  migrate d fs = (true, d') → migrate d' [] = (true, d').
Proof.
  unfold migrate. destruct (call fs) as [[] fs1]; [|done]. intros [_ H]%migrate_loop_applied.
  cbn [call]. assert (migrationsTableSQL d' = d') as ->.
  { apply Forall_cons in H as [H _]. unfold applied in H. unfold migrationsTableSQL.
    destruct d' as [[vs|] ? ?]; done. }
  by apply migrate_loop_skip.
Qed.

(** A database that could be opened has every migration, and opens again as it is. *)
Lemma Open_ready mkdir sqlOpen ping path fs db :
  Open mkdir sqlOpen ping path fs = inr db →
  Forall (λ m, applied m.1 db = true) migrations ∧ Open true (λ _, Some db) true path [] = inr db.
Proof.
  unfold Open. intros E. destruct mkdir; [|done]. destruct (sqlOpen _) as [raw|]; [|done]. destruct ping; [|done].
  destruct (migrate raw fs) as [[] d] eqn:Em; [|done]. injection E as ->. split.
  - unfold migrate in Em. destruct (call fs) as [[] fs1]; [|done]. by apply migrate_loop_applied in Em as [_ ?].
  - by rewrite (migrate_idempotent _ _ _ Em).
Qed.

(** Upgrading a version-1 database renames [pair_token] to [device_token] with every
    value kept, fills [static_key] from a non-empty [public_key] and nothing else, and
    leaves all other columns of every row unchanged. *)
Theorem migrate_preserves_data rs id r :
  rs !! id = Some r → dom r ⊆ list_to_set v1_columns →
  ∃ d t r', migrate (v1_db rs) [] = (true, d) ∧ devtab d = Some t ∧
    columns t = v3_columns ∧ rows t !! id = Some r' ∧
    r' !! "device_token" = r !! "pair_token" ∧
    r' !! "static_key" =
      (match r !! "public_key" with
       | Some v => if decide (v = "") then None else Some v
       | None => None
       end) ∧
    (∀ c, c ∉ ["device_token"; "pair_token"; "static_key"] → r' !! c = r !! c).
Proof.
  intros Hr Hd. exists (v3_db (v3_row <$> rs)), (DevTable v3_columns (v3_row <$> rs)), (v3_row r).
  split; [apply migrate_v1|]. split; [done|]. split; [done|].
  split; [simpl; by rewrite lookup_fmap, Hr|].
  split; [by rewrite v3_row_lookup|]. split; [by rewrite v3_row_lookup|].
  intros c Hc. rewrite v3_row_lookup by done.
  rewrite !not_elem_of_cons in Hc. destruct Hc as (? & ? & ? & _).
  by rewrite !decide_False.
Qed.

(** A migration and its version record are not written atomically.  If the process
    stops after [ALTER TABLE ... ADD COLUMN expires_at] and before version 2 is recorded,
    every later run fails on the duplicate column and leaves the database as it is, so
    the server can no longer open it. *)
Theorem migrate_interrupted_stuck rs :
  let d := (migrate (v1_db rs) [false; false; false; false; true]).2 in
  (migrate (v1_db rs) [false; false; false; false; true]).1 = false ∧
  ∀ fs, migrate d fs = (false, d).
Proof.
  assert ((migrate (v1_db rs) [false; false; false; false; true]) =
          (false, SqlDB (Some {[1%Z]})
             (Some (DevTable (v1_columns ++ ["expires_at"]) rs))
             (indexes (v1_db rs)))) as -> by reflexivity.
  split; [done|]. intros fs. simpl.
  destruct fs as [|[] [|[] [|[] [|[] fs]]]]; reflexivity.
Qed.

(** ** Witnesses *)

Lemma migrate_idempotent_witness :
  ∃ d', migrate empty_db [] = (true, d') ∧ migrate d' [] = (true, d').
Proof.
  exists (migrate empty_db []).2. split; [vm_compute; reflexivity|].
  apply (migrate_idempotent empty_db []). vm_compute. reflexivity.
Defined.

Definition ex_row : srow := {["pair_token" := "tok"; "public_key" := "pk"]}.

Lemma migrate_preserves_data_witness :
  ∃ d t r', migrate (v1_db {["dev" := ex_row]}) [] = (true, d) ∧ devtab d = Some t ∧
    rows t !! "dev" = Some r' ∧
    r' !! "device_token" = Some "tok" ∧ r' !! "static_key" = Some "pk".
Proof.
  destruct (migrate_preserves_data {["dev" := ex_row]} "dev" ex_row) as
    (d & t & r' & Hm & Ht & _ & Hr & Hd & Hs & _).
  - apply lookup_singleton_eq.
  - set_solver.
  - exists d, t, r'. split_and!; [done..| |].
    + rewrite Hd. reflexivity.
    + rewrite Hs. reflexivity.
Defined.
