(* ===== verification/Pairing.v ===== *)
(** * Tokens and codes (src/internal/pairing/pairing.go)

    Randomness and the UUID generator are inputs: [rand.Read] yields [Some] bytes or
    fails, [uuid.NewString] yields a string.  The loops of [base58Encode] are kept as
    loops: the chunk loop over offsets 0, 8, 16, ..., the digit loop on a 64-bit
    number, and the in-place reversal.  Each takes fuel; the lemmas below show the
    fuel given always suffices. *)

From S2P Require Import Prelude Database.

Definition base58Alphabet : string :=
  "123456789ABCDEFGHJKLMNPQRSTUVWXYZabcdefghijkmnopqrstuvwxyz".

(** [base58Alphabet[i]]. *)
Definition alpha (i : Z) : ascii := default "000"%char (chars base58Alphabet !! Z.to_nat i).

(** ** [base58Encode] *)

Fixpoint leadingZeros (input : list ascii) : nat :=
  match input with
  | [] => 0
  | b :: input => if decide (byte_val b = 0%Z) then S (leadingZeros input) else 0
  end.

(** [binary.BigEndian.Uint64] (and [Uint32]) of a byte slice. *)
Definition BigEndian (l : list ascii) : Z :=
  foldl (λ acc b, (acc * 256 + byte_val b)%Z) 0%Z l.

(** [chunk := make([]byte, 8); copy(chunk[8-(end-i):], input[i:end])]. *)
Definition chunk_at (input : list ascii) (i : nat) : list ascii :=
  let end_ := if decide (length input < i + 8) then length input else i + 8 in
  replicate (8 - (end_ - i)) "000"%char ++ take (end_ - i) (drop i input).

(** [for num > 0 { append(base58Alphabet[num%58]); num /= 58 }]. *)
Fixpoint digit_loop (fuel : nat) (num : Z) (encoded : list ascii) : list ascii :=
  match fuel with
  | O => encoded
  | S fuel =>
      if decide (0 < num)%Z
      then digit_loop fuel (num / 58)%Z (encoded ++ [alpha (num mod 58)])
      else encoded
  end.

(** 58^11 exceeds 2^64, so eleven rounds empty any [uint64]. *)
Definition digit_fuel : nat := 11.

(** [for i := 0; i < len(input); i += 8]. *)
Fixpoint chunk_loop (fuel i : nat) (input encoded : list ascii) : list ascii :=
  match fuel with
  | O => encoded
  | S fuel =>
      if decide (i < length input)
      then chunk_loop fuel (i + 8) input
             (digit_loop digit_fuel (BigEndian (chunk_at input i)) encoded)
      else encoded
  end.

(** [for l, r := 0, len(encoded)-1; l < r; l, r = l+1, r-1 { swap }]. *)
Fixpoint reverse_loop (fuel l r : nat) (e : list ascii) : list ascii :=
  match fuel with
  | O => e
  | S fuel =>
      if decide (l < r) then
        match e !! l, e !! r with
        | Some x, Some y => reverse_loop fuel (l + 1) (r - 1) (<[r := x]> (<[l := y]> e))
        | _, _ => e
        end
      else e
  end.

Definition base58Encode (input : bytes) : string :=
  let l := chars input in
  let encoded := chunk_loop (length l) 0 l [] in
  let encoded := encoded ++ replicate (leadingZeros l) (alpha 0) in
  of_chars (reverse_loop (length encoded) 0 (length encoded - 1) encoded).

(** ** The generators *)

Definition GenerateDeviceToken (random : option bytes) : option string :=
  base58Encode <$> random.

Definition deviceTokenTTL : Z := 5 * Minute.

Definition NewDevice (random : option bytes) (uuid : string) (now : Z) (name : string)
    : option Device :=
  match GenerateDeviceToken random with
  | None => None
  | Some token =>
      Some (MkDevice uuid name "" token "" None now None (Some (now + deviceTokenTTL)%Z))
  end.

Definition PairingCodeTTL : Z := 5 * Minute.

(** [fmt.Sprintf("%06d", n)] for a non-negative [n]. *)
Definition pad6 (s : string) : string := of_chars (replicate (6 - slen s) "0"%char) +:+ s.
Definition Sprintf06d (n : Z) : string := pad6 (pretty (Z.to_N n)).

Definition GeneratePairingCode (random : option bytes) : option string :=
  (λ b, Sprintf06d (BigEndian (chars b) mod 1000000)%Z) <$> random.

(** ** The loops compute what they should *)

Lemma BigEndian_snoc l b : BigEndian (l ++ [b]) = (BigEndian l * 256 + byte_val b)%Z.
Proof. unfold BigEndian. by rewrite foldl_app. Qed.

Lemma BigEndian_range l : (0 ≤ BigEndian l < 256 ^ Z.of_nat (length l))%Z.
Proof.
  induction l as [|b l IH] using rev_ind; [done|].
  rewrite BigEndian_snoc, length_app. simpl.
  replace (Z.of_nat (length l + 1)) with (Z.succ (Z.of_nat (length l))) by lia.
  rewrite Z.pow_succ_r by lia. pose proof (byte_val_range b). lia.
Qed.

Lemma BigEndian_zeros n l : BigEndian (replicate n "000"%char ++ l) = BigEndian l.
Proof.
  unfold BigEndian. rewrite foldl_app. f_equal.
  induction n as [|n IH]; [done|]. simpl. apply IH.
Qed.

Lemma BigEndian_inj l1 l2 :
  length l1 = length l2 → BigEndian l1 = BigEndian l2 → l1 = l2.
Proof.
  revert l2. induction l1 as [|b1 l1 IH] using rev_ind; intros l2 Hl.
  { destruct l2; [done|]. simpl in Hl. lia. }
  destruct l2 as [|b2 l2 _] using rev_ind; rewrite ?length_app in Hl; simpl in Hl; [lia|].
  rewrite !BigEndian_snoc. intros E.
  pose proof (byte_val_range b1). pose proof (byte_val_range b2).
  f_equal; [apply IH; lia|]. f_equal.
  rewrite <- (byte_of_val b1), <- (byte_of_val b2). f_equal. lia.
Qed.

(** Little-endian base-58 digits, by the number of digits. *)
Fixpoint digits (n : nat) (num : Z) : list Z :=
  match n with
  | O => []
  | S n => if decide (0 < num)%Z then (num mod 58)%Z :: digits n (num / 58)%Z else []
  end.

Definition undigits (ds : list Z) : Z := foldr (λ d acc, (d + 58 * acc)%Z) 0%Z ds.

Lemma digit_loop_digits fuel num e :
  digit_loop fuel num e = e ++ (alpha <$> digits fuel num).
Proof.
  revert num e. induction fuel as [|fuel IH]; intros num e; simpl; [by rewrite app_nil_r|].
  case_decide; [|by rewrite app_nil_r]. rewrite IH, <- app_assoc. done.
Qed.

Lemma digit_loop_S fuel num e :
  digit_loop (S fuel) num e =
  if decide (0 < num)%Z then digit_loop fuel (num / 58)%Z (e ++ [alpha (num mod 58)]) else e.
Proof. done. Qed.

#[global] Arguments digit_loop : simpl never.

Lemma digits_bound n num : Forall (λ d, (0 ≤ d < 58)%Z) (digits n num).
Proof.
  revert num. induction n as [|n IH]; intros num; simpl; [done|].
  case_decide; constructor; [|done]. apply Z.mod_pos_bound. lia.
Qed.

Lemma undigits_digits n num :
  (0 ≤ num < 58 ^ Z.of_nat n)%Z → undigits (digits n num) = num.
Proof.
  revert num. induction n as [|n IH]; intros num Hn; simpl in *; [lia|].
  replace (Z.of_nat (S n)) with (Z.succ (Z.of_nat n)) in Hn by lia.
  rewrite Z.pow_succ_r in Hn by lia.
  case_decide; simpl; [|lia]. rewrite IH; [|].
  - pose proof (Z.div_mod num 58). lia.
  - split; [apply Z.div_pos; lia|]. apply Z.div_lt_upper_bound; lia.
Qed.

(** Exchanging the ends of a segment. *)
Lemma swap_ends (a m b : list ascii) x y :
  <[length (a ++ x :: m) := x]> (<[length a := y]> ((a ++ x :: m) ++ y :: b)) =
  (a ++ [y]) ++ m ++ x :: b.
Proof.
  replace ((a ++ x :: m) ++ y :: b) with (a ++ x :: m ++ y :: b) by by simplify_list_eq.
  rewrite (insert_app_r_alt a _ (length a)), Nat.sub_diag by lia. simpl.
  replace (a ++ y :: m ++ y :: b) with ((a ++ y :: m) ++ y :: b) by by simplify_list_eq.
  rewrite insert_app_r_alt by (rewrite !length_app; simpl; lia).
  replace (length (a ++ x :: m) - length (a ++ y :: m)) with 0
    by (rewrite !length_app; simpl; lia).
  simpl. by simplify_list_eq.
Qed.

(** The in-place swap loop reverses. *)
Lemma reverse_loop_spec fuel a m b :
  length m ≤ 2 * fuel →
  reverse_loop fuel (length a) (length a + length m - 1) (a ++ m ++ b) = a ++ rev m ++ b.
Proof.
  revert a m b. induction fuel as [|fuel IH]; intros a m b Hm; simpl.
  { destruct m; simpl in *; [done|lia]. }
  destruct m as [|x m]; simpl; [rewrite decide_False by lia; done|].
  destruct m as [|y m _] using rev_ind; [rewrite decide_False by (simpl; lia); done|].
  rewrite decide_True by (rewrite length_app; simpl; lia).
  rewrite lookup_app_r, Nat.sub_diag by lia. simpl.
  replace (length a + S (length (m ++ [y])) - 1) with (length (a ++ x :: m))
    by (rewrite !length_app; simpl; lia).
  replace (a ++ x :: (m ++ [y]) ++ b) with ((a ++ x :: m) ++ y :: b)
    by by simplify_list_eq.
  rewrite lookup_app_r, Nat.sub_diag by lia. simpl.
  rewrite swap_ends.
  replace (length a + 1) with (length (a ++ [y])) by (rewrite length_app; simpl; lia).
  replace (length (a ++ x :: m) - 1) with (length (a ++ [y]) + length m - 1)
    by (rewrite !length_app; simpl; lia).
  rewrite IH by (simpl in Hm; rewrite length_app in Hm; simpl in Hm; lia).
  rewrite rev_app_distr. simpl. rewrite <- !app_assoc. done.
Qed.

Lemma reverse_loop_rev e : reverse_loop (length e) 0 (length e - 1) e = rev e.
Proof.
  pose proof (reverse_loop_spec (length e) [] e [] ltac:(lia)) as H.
  simpl in H. by rewrite !app_nil_r in H.
Qed.

(** ** Shape of tokens *)

Definition in_alphabet (c : ascii) : Prop := c ∈ chars base58Alphabet.

Lemma alpha_in d : (0 ≤ d < 58)%Z → in_alphabet (alpha d).
Proof.
  intros Hd. unfold in_alphabet, alpha.
  destruct (chars base58Alphabet !! Z.to_nat d) as [c|] eqn:E; simpl.
  - apply list_elem_of_lookup. eauto.
  - apply lookup_ge_None in E. change (length (chars base58Alphabet)) with 58 in E. lia.
Qed.

Lemma digit_loop_in fuel num e :
  Forall in_alphabet e → Forall in_alphabet (digit_loop fuel num e).
Proof.
  intros He. rewrite digit_loop_digits. apply Forall_app. split; [done|].
  apply Forall_fmap. eapply Forall_impl; [apply digits_bound|]. apply alpha_in.
Qed.

Lemma chunk_loop_in fuel i l e :
  Forall in_alphabet e → Forall in_alphabet (chunk_loop fuel i l e).
Proof.
  revert i e. induction fuel as [|fuel IH]; intros i e He; simpl; [done|].
  case_decide; [|done]. apply IH. by apply digit_loop_in.
Qed.

(** [base58Encode] without its in-place reversal. *)
Lemma base58Encode_rev input :
  base58Encode input =
  of_chars (rev (chunk_loop (length (chars input)) 0 (chars input) [] ++
                 replicate (leadingZeros (chars input)) (alpha 0))).
Proof. unfold base58Encode. by rewrite reverse_loop_rev. Qed.

Lemma leadingZeros_zero l : leadingZeros l = 0 → l ≠ [] → BigEndian (take 8 l) ≠ 0%Z.
Proof.
  destruct l as [|b l]; [done|]. simpl. case_decide as Hb; [done|]. intros _ _.
  unfold BigEndian. simpl. pose proof (byte_val_range b).
  assert (∀ acc l', (0 < acc)%Z → (0 < foldl (λ acc b, acc * 256 + byte_val b) acc l')%Z) as H1.
  { intros acc l'. revert acc. induction l' as [|c l' IH]; intros acc Ha; simpl; [done|].
    apply IH. pose proof (byte_val_range c). lia. }
  pose proof (H1 (0 * 256 + byte_val b)%Z (take 7 l) ltac:(lia)). simpl in *. lia.
Qed.

Lemma digit_loop_grow fuel num e : length e ≤ length (digit_loop fuel num e).
Proof. rewrite digit_loop_digits, length_app. lia. Qed.

Lemma digit_loop_progress num :
  (0 < num)%Z → 0 < length (digit_loop digit_fuel num []).
Proof.
  intros Hn. unfold digit_fuel. rewrite digit_loop_S, decide_True by done.
  eapply Nat.lt_le_trans; [|apply digit_loop_grow]. rewrite length_app. simpl. lia.
Qed.

Lemma chunk_loop_grow fuel i l e : length e ≤ length (chunk_loop fuel i l e).
Proof.
  revert i e. induction fuel as [|fuel IH]; intros i e; simpl; [done|].
  case_decide; [|done]. etrans; [|apply IH]. apply digit_loop_grow.
Qed.

Lemma chunk_at_first l : BigEndian (chunk_at l 0) = BigEndian (take 8 l).
Proof.
  unfold chunk_at. rewrite BigEndian_zeros. simpl. rewrite drop_0, Nat.sub_0_r.
  case_decide; [|done]. rewrite !take_ge by lia. done.
Qed.

Lemma base58Encode_nonempty input : input ≠ "" → base58Encode input ≠ "".
Proof.
  intros Hi E. apply (f_equal chars) in E.
  rewrite base58Encode_rev, chars_of_chars in E. simpl in E.
  apply (f_equal (@length _)) in E. rewrite length_rev, length_app, length_replicate in E.
  simpl in E. assert (leadingZeros (chars input) = 0) as Hz by lia.
  assert (chars input ≠ []) as Hne.
  { intros H. apply Hi. by rewrite <- (of_chars_chars input), H. }
  pose proof (leadingZeros_zero _ Hz Hne) as Hb. rewrite <- chunk_at_first in Hb.
  pose proof (BigEndian_range (chunk_at (chars input) 0)) as [Hpos _].
  destruct (chars input) as [|c l] eqn:El; [done|]. cbn [length chunk_loop] in E.
  rewrite decide_True in E by (simpl; lia).
  pose proof (digit_loop_progress (BigEndian (chunk_at (c :: l) 0)) ltac:(lia)) as Hd.
  pose proof (chunk_loop_grow (length l) (0 + 8) (c :: l)
    (digit_loop digit_fuel (BigEndian (chunk_at (c :: l) 0)) [])) as Hg.
  lia.
Qed.

Lemma base58Encode_alphabet input : Forall in_alphabet (chars (base58Encode input)).
Proof.
  rewrite base58Encode_rev, chars_of_chars. apply Forall_rev, Forall_app. split.
  - by apply chunk_loop_in.
  - apply Forall_replicate. by apply alpha_in.
Qed.

(** ** Decoding *)

Definition alpha_index (c : ascii) : Z :=
  match list_find (λ x, x = c) (chars base58Alphabet) with
  | Some (i, _) => Z.of_nat i
  | None => 0
  end.

(** The value a base-58 string denotes, most significant digit first. *)
Definition base58_value (s : string) : Z :=
  foldl (λ acc c, (acc * 58 + alpha_index c)%Z) 0%Z (chars s).

Lemma alpha_index_alpha d : (0 ≤ d < 58)%Z → alpha_index (alpha d) = d.
Proof.
  intros Hd. assert (∃ n, d = Z.of_nat n ∧ n < 58) as (n & -> & Hn)
    by (exists (Z.to_nat d); lia).
  do 58 (destruct n as [|n]; [reflexivity|]). lia.
Qed.

Lemma value_rev_digits acc ds :
  Forall (λ d, (0 ≤ d < 58)%Z) ds →
  foldl (λ acc c, (acc * 58 + alpha_index c)%Z) acc (rev (alpha <$> ds)) =
  (acc * 58 ^ Z.of_nat (length ds) + undigits ds)%Z.
Proof.
  intros Hds. induction Hds as [|d ds Hd _ IH]; [simpl; lia|].
  rewrite fmap_cons. cbn [rev]. rewrite foldl_app, IH. cbn [foldl length].
  rewrite alpha_index_alpha by done. cbn [undigits foldr]. fold (undigits ds).
  rewrite Nat2Z.inj_succ, Z.pow_succ_r by lia. lia.
Qed.

Lemma value_ones n acc :
  acc = 0%Z →
  foldl (λ acc c, (acc * 58 + alpha_index c)%Z) acc (replicate n (alpha 0)) = 0%Z.
Proof.
  revert acc. induction n as [|n IH]; intros acc ->; simpl; [done|]. by apply IH.
Qed.

Lemma rev_replicate {A} n (x : A) : rev (replicate n x) = replicate n x.
Proof.
  induction n as [|n IH]; simpl; [done|]. rewrite IH. by rewrite <- replicate_S_end.
Qed.

(** A chunk's number always fits the fuel of the digit loop. *)
Lemma chunk_at_range l i : (0 ≤ BigEndian (chunk_at l i) < 58 ^ Z.of_nat digit_fuel)%Z.
Proof.
  pose proof (BigEndian_range (chunk_at l i)) as [H1 H2]. split; [done|].
  eapply Z.lt_trans; [exact H2|].
  apply Z.le_lt_trans with (256 ^ 8)%Z; [|by vm_compute].
  apply Z.pow_le_mono_r; [lia|]. unfold chunk_at.
  rewrite length_app, length_replicate, length_take, length_drop. case_decide; lia.
Qed.

Lemma chunk_loop_done fuel i l e : length l ≤ i → chunk_loop fuel i l e = e.
Proof. intros Hl. destruct fuel; simpl; [done|]. by rewrite decide_False by lia. Qed.

Lemma chunk_loop_short l :
  length l ≤ 8 → chunk_loop (length l) 0 l [] = digit_loop digit_fuel (BigEndian l) [].
Proof.
  intros Hl. destruct l as [|c l'] eqn:El; [done|]. rewrite <- El in *.
  replace (length l) with (S (length l')) at 1 by by rewrite El.
  cbn [chunk_loop]. rewrite decide_True by (rewrite El; simpl; lia).
  rewrite chunk_loop_done by (simpl; lia).
  by rewrite chunk_at_first, take_ge by lia.
Qed.

(** ** Properties *)

(** Round trip of [base58Encode] up to one 64-bit chunk: for inputs of at most eight
    bytes the produced string denotes, in base 58 with the alphabet's digit values, the
    big-endian integer the input bytes denote. *)
Theorem base58Encode_value input :
  slen input ≤ 8 → base58_value (base58Encode input) = BigEndian (chars input).
Proof.
  intros Hl. unfold base58_value. rewrite base58Encode_rev, chars_of_chars.
  rewrite rev_app_distr, foldl_app, rev_replicate, value_ones by done.
  rewrite chunk_loop_short by by rewrite slen_chars.
  rewrite digit_loop_digits, app_nil_l, value_rev_digits by apply digits_bound.
  rewrite undigits_digits; [lia|].
  rewrite <- (take_ge (chars input) 8) by by rewrite slen_chars.
  rewrite <- chunk_at_first. apply chunk_at_range.
Qed.

(** Longer inputs are encoded chunk by chunk and the chunk boundaries are lost: two
    different 32-byte random values give the same device token, so the encoding is not
    the base-58 numeral of the input that the code comment describes. *)
Theorem base58Encode_collision :
  ∃ i1 i2, slen i1 = 32 ∧ slen i2 = 32 ∧ i1 ≠ i2 ∧
    GenerateDeviceToken (Some i1) = GenerateDeviceToken (Some i2).
Proof.
  exists (of_chars (replicate 7 "000" ++ ["001"] ++ replicate 7 "000" ++ ["059"] ++
                    replicate 16 "000"))%char,
         (of_chars (replicate 7 "000" ++ ["059"] ++ replicate 7 "000" ++ ["001"] ++
                    replicate 16 "000"))%char.
  split_and!; [done..|by vm_compute|by vm_compute].
Qed.

(** [NewDevice] succeeds whenever the random source does, and the device it builds is
    unlinked, carries the given UUID and name, expires five minutes after creation, and
    has a non-empty token made only of base-58 characters. *)
Theorem NewDevice_spec b uuid now name :
  b ≠ "" →
  ∃ d, NewDevice (Some b) uuid now name = Some d ∧
    ID d = uuid ∧ Name d = name ∧ PairedWith d = None ∧ StaticKey d = "" ∧
    ExpiresAt d = Some (now + 300 * Second)%Z ∧
    DeviceToken d ≠ "" ∧ Forall in_alphabet (chars (DeviceToken d)).
Proof.
  intros Hb. eexists. split; [reflexivity|]. simpl.
  split_and!; [done..|by apply base58Encode_nonempty|apply base58Encode_alphabet].
Qed.

(** A pairing code is always exactly six decimal digits, and the number it denotes is
    the 32-bit random value modulo one million (leading zeros kept). *)
Theorem GeneratePairingCode_six b :
  ∃ code, GeneratePairingCode (Some b) = Some code ∧ slen code = 6 ∧
    Forall is_digit (chars code) ∧
    dec_value (chars code) = (BigEndian (chars b) mod 1000000)%Z.
Proof.
  eexists. split; [reflexivity|].
  set (n := (BigEndian (chars b) mod 1000000)%Z).
  assert (0 ≤ n < 1000000)%Z as Hn by (apply Z.mod_pos_bound; lia).
  unfold Sprintf06d, pad6. destruct (pretty_N_digits (Z.to_N n)) as (Hd & Hv & Hl & _).
  specialize (Hl 6 ltac:(lia) ltac:(simpl; lia)).
  set (s := pretty (Z.to_N n)) in *. split_and!.
  - rewrite <- slen_chars, chars_app, chars_of_chars, length_app, length_replicate, slen_chars.
    lia.
  - rewrite chars_app, chars_of_chars. apply Forall_app. split; [|done].
    by apply Forall_replicate.
  - rewrite chars_app, chars_of_chars, dec_value_app, dec_value_zeros, Hv. lia.
Qed.

(** ** Witnesses *)

Lemma base58Encode_value_witness :
  base58_value (base58Encode "relay") = BigEndian (chars "relay") ∧
  BigEndian (chars "relay") = 491327873401%Z.
Proof. split; [apply base58Encode_value; simpl; lia|vm_compute; reflexivity]. Defined.

Lemma NewDevice_spec_witness :
  ∃ d, NewDevice (Some "random-bytes") "uuid" 7 "phone" = Some d ∧
    ExpiresAt d = Some (7 + 300 * Second)%Z ∧ DeviceToken d ≠ "".
Proof.
  destruct (NewDevice_spec "random-bytes" "uuid" 7 "phone") as
    (d & Hd & _ & _ & _ & _ & He & Ht & _); [discriminate|]. eauto.
Defined.
