(* ===== verification/PairCodes.v ===== *)
(** * Pending pairing codes (src/internal/relay/paircodes.go)

    The registry is a map from codes to entries; [time.Now()] is an argument.  Each
    method holds the registry's mutex for its whole body, so each is one step. *)

From S2P Require Import Prelude.

Record pairCodeEntry := PairCodeEntry { requesterID : string; expiresAt : Z }.

#[export] Instance pairCodeEntry_eq_dec : EqDecision pairCodeEntry.
Proof. solve_decision. Defined.

Abbreviation pairCodeRegistry := (gmap string pairCodeEntry).

Definition newPairCodeRegistry : pairCodeRegistry := ∅.

Definition Put (now : Z) (code requester : string) (ttl : Z) (r : pairCodeRegistry)
    : pairCodeRegistry :=
  <[code := PairCodeEntry requester (now + ttl)]> r.

(** [Take] returns [(requesterID, expired, ok)] and the registry without the code. *)
Definition Take (now : Z) (code : string) (r : pairCodeRegistry)
    : (string * bool * bool) * pairCodeRegistry :=
  match r !! code with
  | None => (("", false, false), r)
  | Some entry =>
      let r' := delete code r in
      if After now (expiresAt entry) then (("", true, false), r')
      else ((requesterID entry, false, true), r')
  end.

(** ** Specification

    At time [now] the registry promises the codes that have not expired, each for its
    requester. *)
Definition live (now : Z) (r : pairCodeRegistry) : gmap string string :=
  omap (λ e, if After now (expiresAt e) then None else Some (requesterID e)) r.

Lemma live_lookup now r code :
  live now r !! code =
  r !! code ≫= λ e, if After now (expiresAt e) then None else Some (requesterID e).
Proof. unfold live. by rewrite lookup_omap. Qed.

Lemma live_delete now r code : live now (delete code r) = delete code (live now r).
Proof.
  apply map_eq; intros c. rewrite live_lookup, !lookup_delete.
  case_decide; [done|]. by rewrite live_lookup.
Qed.

(** ** Properties *)

(** The registry implements its specification.  [Put] adds the code for its requester
    to the live codes; [Take] succeeds exactly on a live code and returns its requester,
    and in every case the code is no longer live afterwards while every other code is
    untouched; [expired] is reported exactly when the code was present but past its
    expiry. *)
Theorem pairCodes_refine now r code :
  (∀ requester ttl, (0 ≤ ttl)%Z →
     live now (Put now code requester ttl r) = <[code := requester]> (live now r)) ∧
  (let '((requester, expired, ok), r') := Take now code r in
   (ok = true ↔ is_Some (live now r !! code)) ∧
   (ok = true → live now r !! code = Some requester) ∧
   (expired = true ↔ is_Some (r !! code) ∧ live now r !! code = None) ∧
   ∀ t, live t r' = delete code (live t r)).
Proof.
  split.
  - intros requester ttl Httl. apply map_eq; intros c. unfold Put. rewrite live_lookup.
    destruct (decide (c = code)) as [->|].
    + rewrite !lookup_insert_eq. simpl. by rewrite (proj2 (After_false _ _)) by lia.
    + by rewrite !lookup_insert_ne, live_lookup.
  - unfold Take. destruct (r !! code) as [e|] eqn:E.
    + destruct (After now (expiresAt e)) eqn:Ea; rewrite !live_lookup, E; simpl; rewrite Ea;
        split_and!; try done; try (intros; apply live_delete); naive_solver.
    + rewrite !live_lookup, E. simpl.
      split_and!; [split; [done|by intros [? ?]]|done|split; [done|by intros [[? ?] ?]]|].
      intros t. rewrite delete_id; [done|]. by rewrite live_lookup, E.
Qed.

(** A code is redeemable for [ttl], at most once, by whoever presents it first: taken
    no later than [now + ttl] it yields its requester, and any second [Take] of the same
    code reports an unknown code; taken later it reports expiry and is also gone. *)
Theorem code_single_use now later later2 code requester ttl r :
  let '(out, r') := Take later code (Put now code requester ttl r) in
  out = (if decide (later ≤ now + ttl)%Z
         then (requester, false, true) else ("", true, false)) ∧
  (Take later2 code r').1 = ("", false, false) ∧ r' = delete code r.
Proof.
  unfold Take, Put. rewrite lookup_insert_eq. simpl.
  case_decide as Hd.
  - rewrite (proj2 (After_false _ _)) by lia.
    rewrite lookup_delete_eq, delete_insert_eq. done.
  - rewrite (proj2 (After_true _ _)) by lia.
    rewrite lookup_delete_eq, delete_insert_eq. done.
Qed.

(** Nothing protects a pending code from a later request that draws the same six
    digits: [Put] replaces the entry, so whoever accepts the first requester's code is
    then linked to the second requester. *)
Theorem Put_displaces now code first second ttl r :
  (0 ≤ ttl)%Z →
  let r1 := Put now code first ttl r in
  (Take now code r1).1 = (first, false, true) ∧
  (Take now code (Put now code second ttl r1)).1 = (second, false, true).
Proof.
  intros Ht. unfold Take, Put. rewrite !lookup_insert_eq. simpl.
  by rewrite (proj2 (After_false _ _)) by lia.
Qed.

(** ** Witnesses *)

Lemma Put_displaces_witness :
  let r1 := Put 5 "048392" "alice" 300 newPairCodeRegistry in
  (Take 5 "048392" r1).1 = ("alice", false, true) ∧
  (Take 5 "048392" (Put 5 "048392" "mallory" 300 r1)).1 = ("mallory", false, true).
Proof. apply (Put_displaces 5 "048392" "alice" "mallory" 300). lia. Defined.
