(* ===== verification/RateLimit.v ===== *)
(** * Per-IP rate limiting (src/internal/relay/ratelimit.go)

    A [tokenBucket] and the limiter's [sync.Map] of buckets as state-passing
    functions.  The clock is an input; the readings [time.Now()] takes inside one call
    of [Allow] are one instant.  The body of [cleanupLoop] runs once per tick of its
    timer and is the function [cleanup].  The environment variables the package reads
    at start-up are arguments of [envRateLimitMax] and [envRateLimitWindow]. *)

From S2P Require Import Prelude.
Local Open Scope Z_scope.

(** ** Standard library: [net.SplitHostPort] *)

Fixpoint IndexByte (l : list ascii) (c : ascii) : option nat :=
  match l with
  | [] => None
  | x :: l => if decide (x = c) then Some 0%nat else S <$> IndexByte l c
  end.

Fixpoint LastIndexByte (l : list ascii) (c : ascii) : option nat :=
  match l with
  | [] => None
  | x :: l =>
      match LastIndexByte l c with
      | Some i => Some (S i)
      | None => if decide (x = c) then Some 0%nat else None
      end
  end.

(** The host part of [net.SplitHostPort]; [None] is an error. *)
Definition SplitHost (l : list ascii) : option (list ascii) :=
  match LastIndexByte l ":"%char with
  | None => None
  | Some i =>
      if decide (head l = Some "["%char) then
        match IndexByte l "]"%char with
        | None => None
        | Some e =>
            if decide (S e = i) then
              if decide ("["%char ∈ drop 1 l ∨ "]"%char ∈ drop (S e) l) then None
              else Some (drop 1 (take e l))
            else None
        end
      else
        let host := take i l in
        if decide (":"%char ∈ host ∨ "["%char ∈ l ∨ "]"%char ∈ l) then None else Some host
  end.

(** ** Buckets *)

Record tokenBucket := TokenBucket {
  tokens : Z;
  b_maxTokens : Z;
  b_window : Z;
  windowStart : Z;
  lastSeen : Z
}.

Definition allow (now : Z) (b : tokenBucket) : bool * tokenBucket :=
  let '(tok, start) :=
    if decide (b_window b ≤ now - windowStart b)
    then (b_maxTokens b, now) else (tokens b, windowStart b) in
  if decide (tok ≤ 0)
  then (false, TokenBucket tok (b_maxTokens b) (b_window b) start now)
  else (true, TokenBucket (tok - 1) (b_maxTokens b) (b_window b) start now).

(** ** The limiter *)

Record IPRateLimiter := Limiter {
  buckets : gmap string tokenBucket;
  maxTokens : Z;
  window : Z
}.

(** [time.NewTicker] panics on a non-positive interval, so the clean-up goroutine a new
    limiter starts needs [window * 2] (in 64-bit arithmetic) to be positive. *)
Definition cleanup_interval (w : Z) : option Z :=
  let d := int64 (w * 2) in if decide (0 < d) then Some d else None.

Definition NewIPRateLimiter (max w : Z) : IPRateLimiter := Limiter ∅ max w.

Definition Allow (now : Z) (ip : string) (rl : IPRateLimiter) : bool * IPRateLimiter :=
  let b := default (TokenBucket (maxTokens rl) (maxTokens rl) (window rl) now now)
                   (buckets rl !! ip) in
  let '(ok, b') := allow now b in
  (ok, Limiter (<[ip := b']> (buckets rl)) (maxTokens rl) (window rl)).

(** One tick of [cleanupLoop]. *)
Definition cleanup (now : Z) (rl : IPRateLimiter) : IPRateLimiter :=
  let cutoff := now - window rl * 2 in
  Limiter (filter (λ kb, Before (lastSeen kb.2) cutoff = false) (buckets rl))
          (maxTokens rl) (window rl).

(** ** Start-up configuration *)

Definition envRateLimitMax (v : string) : Z :=
  if decide (v = "") then 10
  else match Atoi v with
       | Some n => if decide (0 < n) then n else 10
       | None => 10
       end.

Definition envRateLimitWindow (v : string) : Z :=
  if decide (v = "") then Minute
  else match Atoi v with
       | Some n => if decide (0 < n) then int64 (n * Second) else Minute
       | None => Minute
       end.

(** [RateLimitMiddleware]: [true] hands the request to the wrapped handler, [false] is
    the 429 response. *)
Definition RateLimitMiddleware (now : Z) (remoteAddr : string) (rl : IPRateLimiter)
    : bool * IPRateLimiter :=
  let ip := match SplitHost (chars remoteAddr) with
            | Some host => of_chars host
            | None => remoteAddr
            end in
  Allow now ip rl.

(** ** Specification: one fixed window per IP

    The promise made to one IP is a state with at most the current window: the
    requests left in it and when it began. *)

Definition wstate := option (Z * Z).

Definition spec_allow (max w now : Z) (st : wstate) : bool * wstate :=
  let '(tok, start) :=
    match st with
    | Some (k, ws) => if decide (w ≤ now - ws) then (max, now) else (k, ws)
    | None => (max, now)
    end in
  if decide (tok ≤ 0) then (false, Some (tok, start)) else (true, Some (tok - 1, start)).

Fixpoint spec_run (max w : Z) (st : wstate) (ts : list Z) : list (Z * bool) :=
  match ts with
  | [] => []
  | t :: ts => let '(ok, st') := spec_allow max w t st in (t, ok) :: spec_run max w st' ts
  end.

(** The events a limiter sees: requests and ticks of the clean-up timer. *)
Inductive event := Request (ip : string) | Tick.

Fixpoint limiter_run (rl : IPRateLimiter) (evs : list (Z * event))
    : list (Z * string * bool) :=
  match evs with
  | [] => []
  | (t, Request ip) :: evs =>
      let '(ok, rl') := Allow t ip rl in (t, ip, ok) :: limiter_run rl' evs
  | (t, Tick) :: evs => limiter_run (cleanup t rl) evs
  end.

Definition times_of (ip : string) (evs : list (Z * event)) : list Z :=
  omap (λ e, match e.2 with
             | Request ip' => if decide (ip' = ip) then Some e.1 else None
             | Tick => None
             end) evs.

Definition answers_to (ip : string) (out : list (Z * string * bool)) : list (Z * bool) :=
  omap (λ o, let '(t, ip', ok) := o in if decide (ip' = ip) then Some (t, ok) else None) out.

(** ** The limiter follows the specification *)

(** What a bucket means at time [now]: an over-age window is as good as none. *)
Definition eff (now : Z) (ob : option tokenBucket) : wstate :=
  ob ≫= λ b, if decide (b_window b ≤ now - windowStart b) then None
             else Some (tokens b, windowStart b).

Definition eff_st (w now : Z) (st : wstate) : wstate :=
  st ≫= λ p, if decide (w ≤ now - p.2) then None else Some p.

Record limiter_ok (now : Z) (rl : IPRateLimiter) : Prop := {
  lo_bucket : ∀ ip b, buckets rl !! ip = Some b →
    b_maxTokens b = maxTokens rl ∧ b_window b = window rl ∧
    windowStart b ≤ lastSeen b ≤ now;
  lo_window : 0 ≤ window rl
}.

Lemma spec_allow_eff max w now st :
  spec_allow max w now (eff_st w now st) = spec_allow max w now st.
Proof.
  destruct st as [[k ws]|]; simpl; [|done]. unfold spec_allow.
  case_decide; simpl; [done|]. by rewrite decide_False.
Qed.

Lemma eff_later w now now' st : now ≤ now' → eff_st w now' (eff_st w now st) = eff_st w now' st.
Proof.
  intros ?. destruct st as [[k ws]|]; simpl; [|done].
  case_decide; simpl; [|done]. by rewrite decide_True by lia.
Qed.

Lemma eff_ok now rl ip :
  limiter_ok now rl →
  eff now (buckets rl !! ip) =
  eff_st (window rl) now ((λ b, (tokens b, windowStart b)) <$> buckets rl !! ip).
Proof.
  intros [Hb _]. destruct (buckets rl !! ip) as [b|] eqn:E; simpl; [|done].
  destruct (Hb _ _ E) as (_ & -> & _). by case_decide.
Qed.

Lemma Allow_spec now ip rl :
  limiter_ok now rl →
  let '(ok, rl') := Allow now ip rl in
  spec_allow (maxTokens rl) (window rl) now (eff now (buckets rl !! ip)) =
    (ok, (λ b, (tokens b, windowStart b)) <$> buckets rl' !! ip) ∧
  maxTokens rl' = maxTokens rl ∧ window rl' = window rl ∧
  (∀ ip', ip' ≠ ip → buckets rl' !! ip' = buckets rl !! ip') ∧ limiter_ok now rl'.
Proof.
  intros Hok. rewrite eff_ok, spec_allow_eff by done. destruct Hok as [Hb Hw].
  unfold Allow, allow, spec_allow.
  destruct (buckets rl !! ip) as [b|] eqn:E; cbn [default fmap option_fmap option_map from_option id].
  - destruct (Hb _ _ E) as (Hm & Hwd & Hs). cbn [fst snd]. rewrite Hwd, Hm.
    repeat case_decide; simpl; (split_and!; [by rewrite lookup_insert_eq|done..| |]);
      try (intros; by apply lookup_insert_ne);
      (split; [|done]); simpl; intros ip' b' [(<- & <-)|[? H']]%lookup_insert_Some;
      simpl; rewrite ?Hm, ?Hwd; eauto; try (split_and!; [done..|lia|lia]).
  - cbn [b_window b_maxTokens tokens windowStart].
    assert ((if decide (window rl ≤ now - now) then (maxTokens rl, now) else (maxTokens rl, now))
            = (maxTokens rl, now)) as -> by by case_decide.
    repeat case_decide; simpl; (split_and!; [by rewrite lookup_insert_eq|done..| |]);
      try (intros; by apply lookup_insert_ne);
      (split; [|done]); simpl; intros ip' b' [(<- & <-)|[? H']]%lookup_insert_Some;
      simpl; eauto; try (split_and!; [done..|lia|lia]).
Qed.

(** A tick of the clean-up timer forgets only windows that are over. *)
Lemma cleanup_eff now ip rl :
  limiter_ok now rl →
  eff now (buckets (cleanup now rl) !! ip) = eff now (buckets rl !! ip) ∧
  limiter_ok now (cleanup now rl).
Proof.
  intros [Hb Hw]. split.
  - unfold cleanup; simpl. rewrite map_lookup_filter.
    destruct (buckets rl !! ip) as [b|] eqn:E; simpl; [|done].
    destruct (Hb _ _ E) as (_ & Hwd & Hs).
    destruct (Before (lastSeen b) (now - window rl * 2)) eqn:Eb; simpl.
    + apply Before_true in Eb. rewrite Hwd. rewrite decide_True; [done|lia].
    + done.
  - split; [|done]. intros ip' b' [H' _]%map_lookup_filter_Some. eauto.
Qed.

(** The clock does not run backwards. *)
Fixpoint monotone (now : Z) (evs : list (Z * event)) : Prop :=
  match evs with
  | [] => True
  | (t, _) :: evs => now ≤ t ∧ monotone t evs
  end.

Fixpoint ascending (now : Z) (ts : list Z) : Prop :=
  match ts with
  | [] => True
  | t :: ts => now ≤ t ∧ ascending t ts
  end.

Lemma ascending_weaken now now' ts : now ≤ now' → ascending now' ts → ascending now ts.
Proof. destruct ts; simpl; [done|]. intros ? [? ?]. split; [lia|done]. Qed.

Lemma times_of_ascending ip now evs : monotone now evs → ascending now (times_of ip evs).
Proof.
  revert now. induction evs as [|[t e] evs IH]; intros now; simpl; [done|].
  intros [Ht Hm]. apply IH in Hm. unfold times_of in *. destruct e as [ip'|]; simpl.
  - case_decide; simpl; [done|]. by eapply ascending_weaken.
  - by eapply ascending_weaken.
Qed.

Lemma spec_run_later max w t st ts :
  ascending t ts → spec_run max w (eff_st w t st) ts = spec_run max w st ts.
Proof.
  destruct ts as [|t0 ts]; simpl; [done|]. intros [Ht _].
  rewrite <- (spec_allow_eff _ _ t0 (eff_st w t st)), eff_later, spec_allow_eff by done.
  done.
Qed.

Lemma limiter_ok_later now now' rl : now ≤ now' → limiter_ok now rl → limiter_ok now' rl.
Proof.
  intros Hn [Hb Hw]. split; [|done]. intros ip b (? & ? & ?)%Hb. split_and!; [done..|lia|lia].
Qed.

Lemma limiter_run_spec ip now evs rl :
  limiter_ok now rl → monotone now evs →
  answers_to ip (limiter_run rl evs) =
  spec_run (maxTokens rl) (window rl) (eff now (buckets rl !! ip)) (times_of ip evs).
Proof.
  revert now rl. induction evs as [|[t e] evs IH]; intros now rl Hok; [done|].
  intros [Ht Hm]. pose proof (limiter_ok_later _ _ _ Ht Hok) as Hok'.
  pose proof (times_of_ascending ip _ _ Hm) as Hasc.
  assert (∀ ts, ascending t ts →
    spec_run (maxTokens rl) (window rl) (eff now (buckets rl !! ip)) ts =
    spec_run (maxTokens rl) (window rl) (eff t (buckets rl !! ip)) ts) as Hshift.
  { intros ts Hts. rewrite !eff_ok by done.
    rewrite <- (eff_later _ now t) by done. by rewrite !spec_run_later
      by eauto using ascending_weaken. }
  destruct e as [ip'|]; cbn [limiter_run].
  - pose proof (Allow_spec t ip' rl Hok') as Ha.
    destruct (Allow t ip' rl) as [ok rl']. destruct Ha as (Ha & Hmx & Hw & Hoth & Hok2).
    unfold times_of, answers_to; cbn [omap list_omap fst snd].
    destruct (decide (ip' = ip)) as [->|Hne].
    + rewrite Hshift by done. cbn [spec_run]. rewrite Ha. f_equal.
      rewrite <- (spec_run_later _ _ t) by done.
      fold (answers_to ip (limiter_run rl' evs)). fold (times_of ip evs).
      rewrite (IH t rl') by done. rewrite eff_ok, Hmx, Hw by done. done.
    + fold (answers_to ip (limiter_run rl' evs)). fold (times_of ip evs).
      rewrite (IH t rl') by done. rewrite Hmx, Hw, Hoth by done. symmetry. by apply Hshift.
  - destruct (cleanup_eff t ip rl Hok') as [Hc Hok2].
    unfold times_of; cbn [omap list_omap fst snd]. fold (times_of ip evs).
    rewrite (IH t _ Hok2 Hm), Hc. symmetry. by apply Hshift.
Qed.

(** ** Counting *)

(** Requests answered "yes" at times in [[s, s + w)]. *)
Definition allowed_in (s w : Z) (out : list (Z * bool)) : nat :=
  length (filter (λ o, o.2 = true ∧ s ≤ o.1 < s + w) out).

(** What may still be allowed inside [[s, s + w)]. *)
Definition budget (max w s now : Z) (st : wstate) : Z :=
  if decide (now < s) then 2 * max
  else if decide (s + w ≤ now) then 0
  else match st with
       | Some (k, ws) => if decide (s ≤ ws) then Z.max 0 k else Z.max 0 k + max
       | None => max
       end.

Definition wstate_ok (max now : Z) (st : wstate) : Prop :=
  match st with Some (k, ws) => k ≤ max ∧ ws ≤ now | None => True end.

Lemma allowed_in_cons s w t ok out :
  Z.of_nat (allowed_in s w ((t, ok) :: out)) =
  (if decide (ok = true ∧ s ≤ t < s + w) then 1 else 0) + Z.of_nat (allowed_in s w out).
Proof.
  unfold allowed_in. rewrite filter_cons. simpl. case_decide; simpl; lia.
Qed.

Lemma allowed_in_budget max w s now st ts :
  0 ≤ max → 0 < w → wstate_ok max now st → ascending now ts →
  Z.of_nat (allowed_in s w (spec_run max w st ts)) ≤ budget max w s now st.
Proof.
  intros Hmax Hw. revert now st. induction ts as [|t ts IH]; intros now st Hst.
  { intros _. unfold budget, allowed_in. simpl. destruct st as [[k ws]|]; repeat case_decide; lia. }
  intros [Ht Hts]. cbn [spec_run].
  destruct (spec_allow max w t st) as [ok st'] eqn:E. rewrite allowed_in_cons.
  assert (wstate_ok max t st') as Hst'.
  { unfold spec_allow in E. destruct st as [[k ws]|]; repeat case_decide; simplify_eq/=; lia. }
  specialize (IH t st' Hst' Hts). unfold budget in *. unfold spec_allow in E.
  destruct st as [[k ws]|]; simpl in Hst; repeat case_decide; simplify_eq/=;
    repeat case_decide; lia.
Qed.

Lemma LastIndexByte_app l c r :
  c ∉ r → LastIndexByte (l ++ c :: r) c = Some (length l).
Proof.
  intros Hr. assert (LastIndexByte r c = None) as Hn.
  { induction r as [|x r IH]; simpl; [done|].
    rewrite not_elem_of_cons in Hr. destruct Hr as [Hx Hr]. rewrite (IH Hr).
    by rewrite decide_False by congruence. }
  induction l as [|x l IH]; simpl; [rewrite Hn, decide_True; done|]. by rewrite IH.
Qed.

Definition plain (l : list ascii) : Prop :=
  (":"%char ∉ l) ∧ ("["%char ∉ l) ∧ ("]"%char ∉ l).

Lemma SplitHost_plain h p : plain h → plain p → SplitHost (h ++ ":"%char :: p) = Some h.
Proof.
  intros (H1 & H2 & H3) (P1 & P2 & P3). unfold SplitHost.
  rewrite LastIndexByte_app by done. rewrite decide_False.
  - rewrite take_app_length. rewrite decide_False; [done|].
    rewrite !elem_of_app, !elem_of_cons. naive_solver.
  - destruct h as [|x h]; simpl; [done|]. intros [= ->]. apply H2. by left.
Qed.

(** ** Properties *)

(** The limiter implements one independent fixed window per IP.  For any sequence of
    requests and clean-up ticks with a clock that does not run backwards, the answers
    given to an IP are those of the single-window specification run on that IP's own
    requests: neither other IPs nor the eviction of stale buckets can be observed. *)
Theorem limiter_refines_window max w ip now evs :
  0 ≤ w → monotone now evs →
  answers_to ip (limiter_run (NewIPRateLimiter max w) evs) =
  spec_run max w None (times_of ip evs).
Proof.
  intros Hw Hm. rewrite (limiter_run_spec ip now); [done| |done].
  split; [|done]. intros ip' b Hb. simpl in Hb. by rewrite lookup_empty in Hb.
Qed.

(** C37: Whatever the arrival pattern, an IP is never allowed more than twice the
    configured maximum within any interval as long as the window, clean-up included. *)
Theorem rate_limit_bound max w ip now evs s :
  0 ≤ max → 0 < w → monotone now evs →
  Z.of_nat (allowed_in s w (answers_to ip (limiter_run (NewIPRateLimiter max w) evs)))
    ≤ 2 * max.
Proof.
  intros Hmax Hw Hm. rewrite (limiter_run_spec ip now); [|split; [|simpl; lia]|done].
  - simpl. rewrite lookup_empty. etrans; [apply (allowed_in_budget _ _ _ now); [done..|]|].
    + by apply times_of_ascending.
    + unfold budget. simpl. repeat case_decide; lia.
  - intros ip' b Hb. simpl in Hb. by rewrite lookup_empty in Hb.
Qed.

(** The configured window is exact while twice its length fits in 64 bits (up to
    4611686018 seconds); one second more and doubling it overflows, which makes
    [time.NewTicker] panic when the package-level limiter is created. *)
Theorem envRateLimitWindow_range :
  (∀ v n, Atoi v = Some n → 0 < n ≤ 4611686018 →
     envRateLimitWindow v = n * Second ∧
     cleanup_interval (envRateLimitWindow v) = Some (2 * (n * Second))) ∧
  cleanup_interval (envRateLimitWindow "4611686019") = None.
Proof.
  split; [|by vm_compute]. intros v n Hv Hn.
  assert (v ≠ "") as Hne by (intros ->; by vm_compute in Hv).
  assert (envRateLimitWindow v = n * Second) as Hw.
  { unfold envRateLimitWindow. rewrite decide_False, Hv, decide_True by (done || lia).
    apply int64_id. unfold int64_min, int64_max, Second. lia. }
  split; [done|]. rewrite Hw. unfold cleanup_interval.
  rewrite int64_id by (unfold int64_min, int64_max, Second; lia).
  rewrite decide_True by (unfold Second; lia). f_equal. lia.
Qed.

(** The middleware charges a request to the host part of its remote address: all
    connections from one host share one bucket whatever their port. *)
Theorem middleware_per_host now host port rl :
  plain (chars host) → plain (chars port) →
  RateLimitMiddleware now (host +:+ ":" +:+ port) rl = Allow now host rl.
Proof.
  intros Hh Hp. unfold RateLimitMiddleware.
  rewrite !chars_app. simpl. rewrite SplitHost_plain by done. by rewrite of_chars_chars.
Qed.

(** ** Witnesses *)

Definition ex_events : list (Z * event) :=
  [(0, Request "a"); (1, Request "a"); (2, Request "b"); (3, Request "a"); (9, Tick);
   (60, Request "a"); (200, Tick); (201, Request "a")].

Lemma limiter_refines_window_witness :
  answers_to "a" (limiter_run (NewIPRateLimiter 2 60) ex_events) =
    spec_run 2 60 None (times_of "a" ex_events) ∧
  spec_run 2 60 None (times_of "a" ex_events) =
    [(0, true); (1, true); (3, false); (60, true); (201, true)].
Proof.
  split; [apply (limiter_refines_window 2 60 "a" 0); [lia|vm_compute; naive_solver]
         |vm_compute; reflexivity].
Defined.

Lemma rate_limit_bound_witness :
  Z.of_nat (allowed_in 1 60 (answers_to "a" (limiter_run (NewIPRateLimiter 2 60) ex_events)))
    ≤ 2 * 2.
Proof. apply (rate_limit_bound 2 60 "a" 0); [lia|lia|vm_compute; naive_solver]. Defined.

Lemma envRateLimitWindow_range_witness : envRateLimitWindow "120" = 120 * Second.
Proof.
  destruct envRateLimitWindow_range as [H _].
  apply (H "120" 120); [vm_compute; reflexivity|lia].
Defined.

Lemma middleware_per_host_witness :
  RateLimitMiddleware 0 "10.0.0.1:5555" (NewIPRateLimiter 1 60) =
  Allow 0 "10.0.0.1" (NewIPRateLimiter 1 60).
Proof.
  apply (middleware_per_host 0 "10.0.0.1" "5555");
    unfold plain; split_and!; apply (bool_decide_unpack _); vm_compute; exact I.
Defined.
