(* ===== verification/Json.v ===== *)
(** * The part of encoding/json the protocol uses

    Text is a list of bytes.  [jprint] is [json.Marshal] on a value tree and [Parse] is
    the scanner and literal decoder of [json.Unmarshal] (Go 1.22 and later): HTML-safe
    escaping, replacement of invalid UTF-8 by U+FFFD in both directions, UTF-16
    surrogate escapes, the number grammar, and the nesting limit of 10000.  A number is
    kept as its literal, because what it means depends on the Go type it is decoded
    into.  The recursive-descent parser takes fuel; a text never needs more than its
    length plus one ([Parse]). *)

From S2P Require Import Prelude.
Local Open Scope Z_scope.

Unset Elimination Schemes.
Inductive json :=
  | JNull
  | JBool (b : bool)
  | JNum (lit : list ascii)
  | JStr (s : string)
  | JArr (l : list json)
  | JObj (l : list (string * json)).
Set Elimination Schemes.

Section json_ind.
Variable P : json → Prop.
Hypothesis Pnull : P JNull.
Hypothesis Pbool : ∀ b, P (JBool b).
Hypothesis Pnum : ∀ lit, P (JNum lit).
Hypothesis Pstr : ∀ s, P (JStr s).
Hypothesis Parr : ∀ l, Forall P l → P (JArr l).
Hypothesis Pobj : ∀ l, Forall (λ kv, P kv.2) l → P (JObj l).

Fixpoint json_nested_ind (j : json) : P j :=
  match j with
  | JNull => Pnull
  | JBool b => Pbool b
  | JNum lit => Pnum lit
  | JStr s => Pstr s
  | JArr l => Parr l ((fix go l := match l return Forall P l with
                        | [] => Forall_nil_2 _
                        | x :: l => Forall_cons_2 _ _ _ (json_nested_ind x) (go l)
                        end) l)
  | JObj l => Pobj l ((fix go l := match l return Forall (λ kv, P kv.2) l with
                        | [] => Forall_nil_2 _
                        | (k, x) :: l => Forall_cons_2 _ (k, x) _ (json_nested_ind x) (go l)
                        end) l)
  end.
End json_ind.

(** ** UTF-8 *)

Definition cont (c : ascii) : bool := (128 <=? byte_val c) && (byte_val c <=? 191).
Definition in_range (lo hi : Z) (c : ascii) : bool :=
  (lo <=? byte_val c) && (byte_val c <=? hi).

(** The length of the well-formed encoding at the head of [l] ([utf8.DecodeRune]). *)
Definition rune_len (l : list ascii) : option nat :=
  match l with
  | [] => None
  | b0 :: l =>
      let b := byte_val b0 in
      if b <? 128 then Some 1%nat
      else if in_range 194 223 b0 then
        match l with b1 :: _ => if cont b1 then Some 2%nat else None | _ => None end
      else if in_range 224 239 b0 then
        match l with
        | b1 :: b2 :: _ =>
            if (if b =? 224 then in_range 160 191 b1
                else if b =? 237 then in_range 128 159 b1 else cont b1) && cont b2
            then Some 3%nat else None
        | _ => None
        end
      else if in_range 240 244 b0 then
        match l with
        | b1 :: b2 :: b3 :: _ =>
            if (if b =? 240 then in_range 144 191 b1
                else if b =? 244 then in_range 128 143 b1 else cont b1) && cont b2 && cont b3
            then Some 4%nat else None
        | _ => None
        end
      else None
  end.

(** The bytes of U+FFFD. *)
Definition replacement : list ascii := [byte_of 239; byte_of 191; byte_of 189].

Definition encode_rune (cp : Z) : list ascii :=
  if cp <? 128 then [byte_of cp]
  else if cp <? 2048 then [byte_of (192 + cp / 64); byte_of (128 + cp mod 64)]
  else if cp <? 65536 then
    [byte_of (224 + cp / 4096); byte_of (128 + (cp / 64) mod 64); byte_of (128 + cp mod 64)]
  else [byte_of (240 + cp / 262144); byte_of (128 + (cp / 4096) mod 64);
        byte_of (128 + (cp / 64) mod 64); byte_of (128 + cp mod 64)].

(** A byte sequence as runes ([inl]) and stray bytes ([inr]). *)
Fixpoint segs (fuel : nat) (l : list ascii) : list (list ascii + ascii) :=
  match fuel, l with
  | S fuel, c :: l' =>
      match rune_len l with
      | Some n => inl (take n l) :: segs fuel (drop n l)
      | None => inr c :: segs fuel l'
      end
  | _, _ => []
  end.

Definition segments (l : list ascii) := segs (length l) l.

(** What a string looks like after [json.Marshal] and [json.Unmarshal]. *)
Definition san_seg (s : list ascii + ascii) : list ascii :=
  match s with inl r => r | inr _ => replacement end.
Definition sanitize_chars (l : list ascii) : list ascii := mjoin (san_seg <$> segments l).
Definition sanitize (s : string) : string := of_chars (sanitize_chars (chars s)).

Definition valid_utf8 (s : string) : Prop :=
  Forall (λ x, match x with inl _ => True | inr _ => False end) (segments (chars s)).

(** ** Printing *)

Definition quote : ascii := "034"%char.
Definition backslash : ascii := "092"%char.

Definition hex_digit (n : Z) : ascii :=
  if n <? 10 then byte_of (48 + n) else byte_of (87 + n).

(** [\u00XX]. *)
Definition u00 (c : ascii) : list ascii :=
  [backslash; "u"; "0"; "0"; hex_digit (byte_val c / 16); hex_digit (byte_val c mod 16)]%char.

(** [encodeState.string] for one byte below [utf8.RuneSelf]. *)
Definition esc_ascii (c : ascii) : list ascii :=
  let b := byte_val c in
  if (b =? 34) || (b =? 92) then [backslash; c]
  else if b =? 8 then [backslash; "b"%char]
  else if b =? 12 then [backslash; "f"%char]
  else if b =? 10 then [backslash; "n"%char]
  else if b =? 13 then [backslash; "r"%char]
  else if b =? 9 then [backslash; "t"%char]
  else if (b <? 32) || (b =? 60) || (b =? 62) || (b =? 38) then u00 c
  else [c].

Definition esc_seg (s : list ascii + ascii) : list ascii :=
  match s with
  | inl [c] => esc_ascii c
  | inl r =>
      if decide (r = encode_rune 8232) then backslash :: chars "u2028"
      else if decide (r = encode_rune 8233) then backslash :: chars "u2029"
      else r
  | inr _ => backslash :: chars "ufffd"
  end.

Definition print_str (s : string) : list ascii :=
  quote :: mjoin (esc_seg <$> segments (chars s)) ++ [quote].

Fixpoint commas (l : list (list ascii)) : list ascii :=
  match l with
  | [] => []
  | [x] => x
  | x :: l => x ++ ","%char :: commas l
  end.

Fixpoint jprint (j : json) : list ascii :=
  match j with
  | JNull => chars "null"
  | JBool true => chars "true"
  | JBool false => chars "false"
  | JNum lit => lit
  | JStr s => print_str s
  | JArr l => "["%char :: commas (jprint <$> l) ++ ["]"%char]
  | JObj l => "{"%char :: commas ((λ kv, print_str kv.1 ++ ":"%char :: jprint kv.2) <$> l)
              ++ ["}"%char]
  end.

(** ** Parsing *)

Definition is_ws (c : ascii) : bool :=
  let b := byte_val c in (b =? 32) || (b =? 9) || (b =? 10) || (b =? 13).

Fixpoint skip_ws (l : list ascii) : list ascii :=
  match l with
  | c :: l' => if is_ws c then skip_ws l' else l
  | [] => []
  end.

Definition hex_val (c : ascii) : option Z :=
  let b := byte_val c in
  if (48 <=? b) && (b <=? 57) then Some (b - 48)
  else if (97 <=? b) && (b <=? 102) then Some (b - 87)
  else if (65 <=? b) && (b <=? 70) then Some (b - 55)
  else None.

(** [getu4]: the four hexadecimal digits after [\u]. *)
Definition hex4 (l : list ascii) : option (Z * list ascii) :=
  match l with
  | a :: b :: c :: d :: l =>
      match hex_val a, hex_val b, hex_val c, hex_val d with
      | Some x, Some y, Some z, Some w => Some (((x * 16 + y) * 16 + z) * 16 + w, l)
      | _, _, _, _ => None
      end
  | _ => None
  end.

(** The low half of a surrogate pair, if one follows. *)
Definition low_surrogate (l : list ascii) : option (Z * list ascii) :=
  match l with
  | c :: u :: l =>
      if decide (c = backslash ∧ u = "u"%char) then
        match hex4 l with
        | Some (lo, l') => if (56320 <=? lo) && (lo <=? 57343) then Some (lo, l') else None
        | None => None
        end
      else None
  | _ => None
  end.

(** The text after [\u]: the encoded rune and the rest. *)
Definition unescape_u (l : list ascii) : option (list ascii * list ascii) :=
  match hex4 l with
  | None => None
  | Some (r, l') =>
      if (55296 <=? r) && (r <=? 57343) then
        match (if r <=? 56319 then low_surrogate l' else None) with
        | Some (lo, l'') =>
            Some (encode_rune (65536 + (r - 55296) * 1024 + (lo - 56320)), l'')
        | None => Some (replacement, l')
        end
      else Some (encode_rune r, l')
  end.

(** The text after a backslash. *)
Definition unescape (l : list ascii) : option (list ascii * list ascii) :=
  match l with
  | [] => None
  | e :: l =>
      let b := byte_val e in
      if (b =? 34) || (b =? 92) || (b =? 47) then Some ([e], l)
      else if b =? 98 then Some ([byte_of 8], l)
      else if b =? 102 then Some ([byte_of 12], l)
      else if b =? 110 then Some ([byte_of 10], l)
      else if b =? 114 then Some ([byte_of 13], l)
      else if b =? 116 then Some ([byte_of 9], l)
      else if b =? 117 then unescape_u l
      else None
  end.

Definition prepend (s : list ascii) (r : option (list ascii * list ascii)) :=
  match r with Some (t, rest) => Some (s ++ t, rest) | None => None end.

(** The text after an opening quote: the string and what follows its closing quote. *)
Fixpoint parse_body (fuel : nat) (l : list ascii) : option (list ascii * list ascii) :=
  match fuel with
  | O => None
  | S fuel =>
      match l with
      | [] => None
      | c :: l' =>
          let b := byte_val c in
          if b =? 34 then Some ([], l')
          else if b =? 92 then
            match unescape l' with
            | Some (s, l'') => prepend s (parse_body fuel l'')
            | None => None
            end
          else if b <? 32 then None
          else match rune_len l with
               | Some n => prepend (take n l) (parse_body fuel (drop n l))
               | None => prepend replacement (parse_body fuel l')
               end
      end
  end.

Definition parse_str (l : list ascii) : option (string * list ascii) :=
  match l with
  | c :: l' =>
      if decide (c = quote) then
        match parse_body (length l) l' with
        | Some (s, rest) => Some (of_chars s, rest)
        | None => None
        end
      else None
  | [] => None
  end.

(** Digits at the head of a text, and the rest. *)
Fixpoint digits_of (l : list ascii) : list ascii * list ascii :=
  match l with
  | c :: l' => if decide (is_digit c) then let '(d, r) := digits_of l' in (c :: d, r) else ([], l)
  | [] => ([], [])
  end.

(** Optional sign, then a zero or a digit sequence without leading zero. *)
Definition parse_int_part (l : list ascii) : option (list ascii * list ascii) :=
  let '(sign, l) := match l with
                    | "-"%char :: l => (["-"%char], l)
                    | _ => ([], l)
                    end in
  match l with
  | "0"%char :: l => Some (sign ++ ["0"%char], l)
  | _ => match digits_of l with
         | ([], _) => None
         | (ds, l) => Some (sign ++ ds, l)
         end
  end.

Definition parse_frac (l : list ascii) : option (list ascii * list ascii) :=
  match l with
  | "."%char :: l => match digits_of l with
                     | ([], _) => None
                     | (ds, l) => Some ("."%char :: ds, l)
                     end
  | _ => Some ([], l)
  end.

Definition parse_exp (l : list ascii) : option (list ascii * list ascii) :=
  match l with
  | e :: l' =>
      if decide (e = "e"%char ∨ e = "E"%char) then
        let '(sg, l') := match l' with
                         | s :: l'' => if decide (s = "+"%char ∨ s = "-"%char)
                                       then ([s], l'') else ([], l')
                         | [] => ([], l')
                         end in
        match digits_of l' with
        | ([], _) => None
        | (ds, l') => Some (e :: sg ++ ds, l')
        end
      else Some ([], l)
  | [] => Some ([], l)
  end.

Definition parse_num (l : list ascii) : option (list ascii * list ascii) :=
  '(a, l) ← parse_int_part l; '(b, l) ← parse_frac l; '(c, l) ← parse_exp l;
  Some (a ++ b ++ c, l).

Definition parse_lit (lit : string) (v : json) (l : list ascii) : option (json * list ascii) :=
  if decide (take (slen lit) l = chars lit) then Some (v, drop (slen lit) l) else None.

Definition maxNestingDepth : Z := 10000.

Fixpoint parse_value (fuel : nat) (depth : Z) (l : list ascii) : option (json * list ascii) :=
  match fuel with
  | O => None
  | S fuel =>
      match skip_ws l with
      | [] => None
      | c :: l' =>
          let b := byte_val c in
          if b =? 123 then
            if maxNestingDepth <? depth + 1 then None
            else match skip_ws l' with
                 | "}"%char :: l'' => Some (JObj [], l'')
                 | _ => '(ms, r) ← parse_members fuel (depth + 1) l'; Some (JObj ms, r)
                 end
          else if b =? 91 then
            if maxNestingDepth <? depth + 1 then None
            else match skip_ws l' with
                 | "]"%char :: l'' => Some (JArr [], l'')
                 | _ => '(es, r) ← parse_elems fuel (depth + 1) l'; Some (JArr es, r)
                 end
          else if b =? 34 then '(s, r) ← parse_str (c :: l'); Some (JStr s, r)
          else if b =? 110 then parse_lit "null" JNull (c :: l')
          else if b =? 116 then parse_lit "true" (JBool true) (c :: l')
          else if b =? 102 then parse_lit "false" (JBool false) (c :: l')
          else '(n, r) ← parse_num (c :: l'); Some (JNum n, r)
      end
  end
with parse_elems (fuel : nat) (depth : Z) (l : list ascii) : option (list json * list ascii) :=
  match fuel with
  | O => None
  | S fuel =>
      '(v, r) ← parse_value fuel depth l;
      match skip_ws r with
      | ","%char :: r' => '(vs, r'') ← parse_elems fuel depth r'; Some (v :: vs, r'')
      | "]"%char :: r' => Some ([v], r')
      | _ => None
      end
  end
with parse_members (fuel : nat) (depth : Z) (l : list ascii)
    : option (list (string * json) * list ascii) :=
  match fuel with
  | O => None
  | S fuel =>
      '(k, r) ← parse_str (skip_ws l);
      match skip_ws r with
      | ":"%char :: r =>
          '(v, r) ← parse_value fuel depth r;
          match skip_ws r with
          | ","%char :: r' => '(ms, r'') ← parse_members fuel depth r'; Some ((k, v) :: ms, r'')
          | "}"%char :: r' => Some ([(k, v)], r')
          | _ => None
          end
      | _ => None
      end
  end.

(** A whole text: one value with nothing but whitespace around it. *)
Definition Parse (text : bytes) : option json :=
  let l := chars text in
  match parse_value (S (length l)) 0 l with
  | Some (j, r) => match skip_ws r with [] => Some j | _ => None end
  | None => None
  end.

(** ** Reading back what was printed *)

Lemma rune_len_bounds l n : rune_len l = Some n → (1 ≤ n ≤ length l)%nat.
Proof.
  destruct l as [|b0 l]; simpl; [done|].
  repeat (case_match; simplify_eq/=; try done); intros [= <-]; lia.
Qed.

Lemma rune_len_prefix l n rest :
  rune_len l = Some n → rune_len (take n l ++ rest) = Some n.
Proof.
  destruct l as [|b0 l]; simpl; [done|].
  repeat (case_match; simplify_eq/=; try done); intros [= <-]; simpl;
    repeat match goal with H : _ = _ :> bool |- _ => rewrite H end; done.
Qed.

Lemma mjoin_cons {A} (x : list A) l : mjoin (x :: l) = x ++ mjoin l.
Proof. done. Qed.

Definition seg_raw (s : list ascii + ascii) : list ascii :=
  match s with inl r => r | inr c => [c] end.

Definition seg_ok (s : list ascii + ascii) : Prop :=
  match s with
  | inl r => rune_len r = Some (length r)
  | inr c => 128 ≤ byte_val c
  end.

Lemma segs_ok fuel l : Forall seg_ok (segs fuel l).
Proof.
  revert l. induction fuel as [|fuel IH]; intros [|c l]; [constructor..|].
  cbn [segs]. destruct (rune_len (c :: l)) as [n|] eqn:E; constructor; try apply IH; simpl.
  - pose proof (rune_len_bounds _ _ E). pose proof (rune_len_prefix _ _ [] E) as Hp.
    rewrite app_nil_r in Hp. rewrite Hp. f_equal. rewrite length_take. lia.
  - simpl in E. destruct (byte_val c <? 128) eqn:Eb; [done|]. lia.
Qed.

Lemma segs_raw fuel l : (length l ≤ fuel)%nat → mjoin (seg_raw <$> segs fuel l) = l.
Proof.
  revert l. induction fuel as [|fuel IH]; intros [|c l] Hl; [done|simpl in Hl; lia|done|].
  cbn [segs]. destruct (rune_len (c :: l)) as [n|] eqn:E; rewrite fmap_cons, mjoin_cons.
  - pose proof (rune_len_bounds _ _ E).
    rewrite IH by (rewrite length_drop; simpl in *; lia). apply take_drop.
  - rewrite IH by (simpl in Hl; lia). done.
Qed.

Lemma sanitize_valid s : valid_utf8 s → sanitize s = s.
Proof.
  intros Hv. unfold sanitize, sanitize_chars. rewrite <- (of_chars_chars s) at 2. f_equal.
  rewrite <- (segs_raw (length (chars s)) (chars s)) at 2 by done. f_equal.
  apply list_fmap_ext. intros i x Hx.
  unfold valid_utf8 in Hv. rewrite Forall_lookup in Hv. specialize (Hv i x Hx). by destruct x.
Qed.

(** Printing a string takes at most six characters for each of its own. *)
Lemma esc_seg_length l n : rune_len l = Some n → (length (esc_seg (inl (take n l))) ≤ 6 * n)%nat.
Proof.
  intros E. pose proof (rune_len_bounds _ _ E) as [H1 H2].
  assert (length (take n l) = n) as Hl by (rewrite length_take; lia).
  destruct (take n l) as [|c [|c' r]] eqn:Er; cbn in Hl; [lia|..].
  - subst n. cbn [esc_seg]. unfold esc_ascii, u00. repeat case_match; simpl; lia.
  - unfold esc_seg. repeat case_decide; cbn [length chars]; simpl in *; lia.
Qed.

Lemma print_str_length s : (length (print_str s) ≤ 2 + 6 * length (chars s))%nat.
Proof.
  unfold print_str, segments. cbn [length]. rewrite length_app. cbn [length].
  assert (∀ n l, (length (mjoin (esc_seg <$> segs n l)) ≤ 6 * length l)%nat) as Hs.
  { induction n as [|n IH]; intros [|c l]; cbn [segs]; try (simpl; lia).
    destruct (rune_len (c :: l)) as [k|] eqn:E.
    - rewrite fmap_cons, mjoin_cons, length_app. pose proof (esc_seg_length _ _ E).
      pose proof (rune_len_bounds _ _ E). specialize (IH (drop k (c :: l))).
      rewrite length_drop in IH. lia.
    - rewrite fmap_cons, mjoin_cons, length_app. specialize (IH l).
      change (length (esc_seg (inr c))) with 6%nat. cbn [length]. lia. }
  specialize (Hs (length (chars s)) (chars s)). lia.
Qed.

Lemma valid_ascii s : Forall (λ c, byte_val c < 128) (chars s) → valid_utf8 s.
Proof.
  unfold valid_utf8, segments. generalize (length (chars s)). intros n.
  generalize (chars s). induction n as [|n IH]; intros l Hl; destruct l as [|c l]; [constructor..|].
  apply Forall_cons in Hl as [Hc Hl]. cbn [segs rune_len].
  rewrite (proj2 (Z.ltb_lt _ _) Hc). constructor; [done|]. by apply IH.
Qed.

(** [valid_utf8] of a constant. *)
Ltac valid_text := vm_compute; by repeat constructor.

Lemma ascii_forall (P : ascii → Prop) :
  (∀ b0 b1 b2 b3 b4 b5 b6 b7, P (Ascii b0 b1 b2 b3 b4 b5 b6 b7)) → ∀ c, P c.
Proof. intros H [b0 b1 b2 b3 b4 b5 b6 b7]. apply H. Qed.

Lemma parse_esc_ascii f c rest :
  byte_val c < 128 → parse_body (S f) (esc_ascii c ++ rest) = prepend [c] (parse_body f rest).
Proof.
  revert c. apply (ascii_forall (λ c, byte_val c < 128 →
    parse_body (S f) (esc_ascii c ++ rest) = prepend [c] (parse_body f rest))).
  intros [] [] [] [] [] [] [] [] Hc; first [exfalso; vm_compute in Hc; discriminate|reflexivity].
Qed.

Lemma parse_esc_seg f s rest :
  seg_ok s → parse_body (S f) (esc_seg s ++ rest) = prepend (san_seg s) (parse_body f rest).
Proof.
  destruct s as [r|c]; [|reflexivity]. intros Hr. simpl in Hr.
  destruct r as [|c [|c2 r]]; [done| |].
  - apply parse_esc_ascii. simpl in Hr. destruct (byte_val c <? 128) eqn:E; [lia|].
    repeat case_match; done.
  - unfold esc_seg, san_seg. case_decide as H1; [rewrite H1; reflexivity|].
    case_decide as H2; [rewrite H2; reflexivity|]. clear H1 H2.
    assert (128 ≤ byte_val c) as Hc.
    { simpl in Hr. destruct (byte_val c <? 128) eqn:E; [|lia]. simplify_eq. }
    cbn [app]. cbn [parse_body].
    destruct (Z.eqb_spec (byte_val c) 34); [lia|]. destruct (Z.eqb_spec (byte_val c) 92); [lia|].
    destruct (Z.ltb_spec (byte_val c) 32); [lia|].
    pose proof (rune_len_prefix _ _ rest Hr) as Hp.
    rewrite firstn_all in Hp. change (c :: c2 :: r ++ rest) with ((c :: c2 :: r) ++ rest).
    rewrite Hp. by rewrite take_app_length, drop_app_length.
Qed.

Lemma esc_seg_nonempty s : seg_ok s → (1 ≤ length (esc_seg s))%nat.
Proof.
  destruct s as [[|c [|c2 r]]|c]; [done|..|simpl; lia]; intros _; unfold esc_seg.
  - unfold esc_ascii, u00. repeat case_match; cbn [length]; lia.
  - repeat case_decide; cbn [length]; lia.
Qed.

(** A printer of strings that prints rune by rune. *)
Section printer.
Context (pseg : list ascii + ascii → list ascii).
Hypothesis pseg_reads : ∀ f s rest,
  seg_ok s → parse_body (S f) (pseg s ++ rest) = prepend (san_seg s) (parse_body f rest).
Hypothesis pseg_nonempty : ∀ s, seg_ok s → (1 ≤ length (pseg s))%nat.

Definition quoted_with (s : string) : list ascii := quote :: mjoin (pseg <$> segments (chars s)) ++ [quote].

Lemma parse_body_segs f ss rest :
  Forall seg_ok ss → (length ss < f)%nat →
  parse_body f (mjoin (pseg <$> ss) ++ quote :: rest) = Some (mjoin (san_seg <$> ss), rest).
Proof.
  intros Hs. revert f. induction Hs as [|s ss Hs _ IH]; intros f Hf; (destruct f; [simpl in Hf; lia|]); [done|].
  rewrite !fmap_cons, !mjoin_cons, <- app_assoc, pseg_reads by done.
  by rewrite IH by (simpl in Hf; lia).
Qed.

Lemma pseg_length ss : Forall seg_ok ss → (length ss ≤ length (mjoin (pseg <$> ss)))%nat.
Proof.
  induction 1 as [|s ss Hs _ IH]; [done|]. rewrite fmap_cons, mjoin_cons, length_app.
  pose proof (pseg_nonempty _ Hs). cbn [length]. lia.
Qed.

(** A printed string is read back as its sanitized form. *)
Lemma parse_quoted s rest : parse_str (quoted_with s ++ rest) = Some (sanitize s, rest).
Proof.
  unfold quoted_with. cbn [app parse_str]. rewrite decide_True by done.
  rewrite <- app_assoc. cbn [app].
  rewrite parse_body_segs; [done|apply segs_ok|].
  pose proof (pseg_length _ (segs_ok (length (chars s)) (chars s))).
  cbn [length]. rewrite length_app. simpl. fold (segments (chars s)) in *. lia.
Qed.
End printer.

Lemma parse_print_str s rest : parse_str (print_str s ++ rest) = Some (sanitize s, rest).
Proof. exact (parse_quoted esc_seg parse_esc_seg esc_seg_nonempty s rest). Qed.

(** *** Numbers *)

(** What may follow a value inside an array, an object, or at the end of the text. *)
Definition delim (rest : list ascii) : Prop :=
  match rest with
  | [] => True
  | c :: _ => c = ","%char ∨ c = "]"%char ∨ c = "}"%char
  end.

Definition int_lit (z : Z) : list ascii := chars (pretty z).

Lemma digits_of_app ds rest :
  Forall is_digit ds → delim rest → digits_of (ds ++ rest) = (ds, rest).
Proof.
  intros Hd Hr. induction Hd as [|c ds Hc _ IH]; simpl.
  - destruct rest as [|c rest]; simpl; [done|].
    rewrite decide_False; [done|]. destruct Hr as [->|[->| ->]]; vm_compute; naive_solver.
  - by rewrite decide_True, IH by done.
Qed.

Lemma parse_frac_delim rest : delim rest → parse_frac rest = Some ([], rest).
Proof. destruct rest as [|c rest]; [done|]. by intros [->|[->| ->]]. Qed.

Lemma parse_exp_delim rest : delim rest → parse_exp rest = Some ([], rest).
Proof. destruct rest as [|c rest]; [done|]. by intros [->|[->| ->]]. Qed.

Lemma parse_int_part_digits (n : N) rest :
  delim rest → parse_int_part (chars (pretty n) ++ rest) = Some (chars (pretty n), rest) ∧
               parse_int_part ("-"%char :: chars (pretty n) ++ rest) =
                 Some ("-"%char :: chars (pretty n), rest).
Proof.
  intros Hr. destruct (decide (n = 0)%N) as [->|Hn]; [done|].
  destruct (pretty_N_head n) as (c & ds & E & Hc); [lia|].
  destruct (pretty_N_digits n) as (Hd & _). rewrite E in *.
  pose proof (digits_of_app _ _ Hd Hr) as Hds. apply Forall_cons in Hd as [Hd _].
  cbn [app] in *. unfold is_digit in Hd. unfold parse_int_part.
  destruct c as [[] [] [] [] [] [] [] []]; vm_compute in Hd;
    try (exfalso; naive_solver); try done; by rewrite Hds.
Qed.

Lemma parse_num_int z rest :
  delim rest → parse_num (int_lit z ++ rest) = Some (int_lit z, rest).
Proof.
  intros Hr. unfold parse_num, int_lit.
  assert (parse_int_part (chars (pretty z) ++ rest) = Some (chars (pretty z), rest)) as ->.
  { destruct z as [|p|p]; [done|apply (parse_int_part_digits (Npos p)); done|].
    change (chars (pretty (Zneg p))) with ("-"%char :: chars (pretty (Npos p))).
    by apply (parse_int_part_digits (Npos p)). }
  simpl. rewrite parse_frac_delim by done. simpl. rewrite parse_exp_delim by done. simpl.
  by rewrite app_nil_r.
Qed.

(** *** Values *)

Fixpoint jsan (j : json) : json :=
  match j with
  | JStr s => JStr (sanitize s)
  | JArr l => JArr (jsan <$> l)
  | JObj l => JObj ((λ kv, (sanitize kv.1, jsan kv.2)) <$> l)
  | _ => j
  end.

(** Numbers are integers. *)
Fixpoint int_json (j : json) : Prop :=
  match j with
  | JNum lit => ∃ z, lit = int_lit z
  | JArr l => foldr (λ x acc, int_json x ∧ acc) True l
  | JObj l => foldr (λ kv acc, int_json kv.2 ∧ acc) True l
  | _ => True
  end.

Fixpoint jdepth (j : json) : Z :=
  match j with
  | JArr l => 1 + foldr (λ x acc, Z.max (jdepth x) acc) 0 l
  | JObj l => 1 + foldr (λ kv acc, Z.max (jdepth kv.2) acc) 0 l
  | _ => 0
  end.

Fixpoint jsize (j : json) : nat :=
  match j with
  | JArr l => S (foldr (λ x acc, S (Nat.max (jsize x) acc)) 0%nat l)
  | JObj l => S (foldr (λ kv acc, S (Nat.max (jsize kv.2) acc)) 0%nat l)
  | _ => 1
  end.

Lemma int_lit_head z : ∃ c l, int_lit z = c :: l ∧ (c = "-"%char ∨ is_digit c).
Proof.
  unfold int_lit. destruct z as [|p|p]; [eexists _, _; split; [reflexivity|by right; vm_compute]| |
    eexists _, _; split; [reflexivity|by left]].
  destruct (pretty_N_digits (Npos p)) as (Hd & _ & _ & Hne).
  change (pretty (Zpos p)) with (pretty (Npos p)).
  destruct (chars (pretty (Npos p))) as [|c l] eqn:E.
  - destruct Hne. by rewrite <- (of_chars_chars (pretty (Npos p))), E.
  - apply Forall_cons in Hd as [Hd _]. eauto.
Qed.

(** The first byte of a printed value. *)
Lemma jprint_head j :
  int_json j → ∃ c l, jprint j = c :: l ∧ is_ws c = false ∧ c ≠ "]"%char ∧ c ≠ "}"%char.
Proof.
  destruct j as [|[]|lit|s|l|l]; simpl; intros Hj; try (by eexists _, _; split_and!; [reflexivity|..]).
  destruct Hj as [z ->]. destruct (int_lit_head z) as (c & l & -> & Hc).
  exists c, l. split; [done|]. unfold is_digit in Hc.
  destruct Hc as [->|Hc]; [done|].
  destruct c as [[] [] [] [] [] [] [] []]; vm_compute in Hc; try done; naive_solver.
Qed.

Lemma skip_ws_app c l rest : is_ws c = false → skip_ws ((c :: l) ++ rest) = (c :: l) ++ rest.
Proof. intros Hc. simpl. by rewrite Hc. Qed.

Lemma skip_ws_delim rest : delim rest → skip_ws rest = rest.
Proof. destruct rest as [|c rest]; [done|]. by intros [->|[->| ->]]. Qed.

Definition reads_back (j : json) : Prop :=
  ∀ fuel depth rest, int_json j → (jsize j ≤ fuel)%nat →
    depth + jdepth j ≤ maxNestingDepth → delim rest →
    parse_value fuel depth (jprint j ++ rest) = Some (jsan j, rest).

Lemma commas_cons x y (l : list (list ascii)) :
  commas (x :: y :: l) = x ++ ","%char :: commas (y :: l).
Proof. done. Qed.

Lemma parse_elems_print l fuel depth rest :
  Forall reads_back l → l ≠ [] →
  foldr (λ x acc, int_json x ∧ acc) True l →
  (foldr (λ x acc, S (Nat.max (jsize x) acc)) 0 l ≤ fuel)%nat →
  depth + foldr (λ x acc, Z.max (jdepth x) acc) 0 l ≤ maxNestingDepth →
  parse_elems fuel depth (commas (jprint <$> l) ++ "]"%char :: rest) = Some (jsan <$> l, rest).
Proof.
  intros Hl. revert fuel. induction Hl as [|x l Hx Hl IH]; intros fuel Hne Hi Hf Hd; [done|].
  cbn [foldr] in Hi, Hf, Hd. destruct Hi as [Hix Hi].
  destruct fuel as [|fuel]; [lia|]. cbn [parse_elems].
  destruct l as [|y l].
  - cbn [fmap list_fmap commas]. rewrite Hx by (done || lia || (by right; left)). simpl. done.
  - rewrite !fmap_cons, commas_cons, <- app_assoc. cbn [app].
    rewrite Hx by (done || lia || (by left)). cbn [mbind option_bind].
    rewrite skip_ws_delim by by left. rewrite <- fmap_cons.
    rewrite IH by (done || lia). done.
Qed.

Lemma parse_members_print l fuel depth rest :
  Forall (λ kv, reads_back kv.2) l → l ≠ [] →
  foldr (λ kv acc, int_json kv.2 ∧ acc) True l →
  (foldr (λ kv acc, S (Nat.max (jsize kv.2) acc)) 0 l ≤ fuel)%nat →
  depth + foldr (λ kv acc, Z.max (jdepth kv.2) acc) 0 l ≤ maxNestingDepth →
  parse_members fuel depth
    (commas ((λ kv, print_str kv.1 ++ ":"%char :: jprint kv.2) <$> l) ++ "}"%char :: rest) =
  Some ((λ kv, (sanitize kv.1, jsan kv.2)) <$> l, rest).
Proof.
  intros Hl. revert fuel. induction Hl as [|[k x] l Hx Hl IH]; intros fuel Hne Hi Hf Hd; [done|].
  cbn [foldr fst snd] in Hi, Hf, Hd, Hx. destruct Hi as [Hix Hi].
  destruct fuel as [|fuel]; [lia|]. cbn [parse_members].
  assert (∀ r, skip_ws (print_str k ++ r) = print_str k ++ r) as Hk by (intros r; done).
  assert (∀ r, skip_ws (":"%char :: r) = ":"%char :: r) as Hc by (intros r; done).
  destruct l as [|y l].
  - cbn [fmap list_fmap commas fst snd]. rewrite <- app_assoc, Hk, parse_print_str.
    cbn [mbind option_bind app]. rewrite Hc.
    rewrite Hx by (done || lia || (by right; right)). simpl. done.
  - rewrite !fmap_cons, commas_cons, <- !app_assoc. cbn [fst snd]. rewrite Hk, parse_print_str.
    cbn [mbind option_bind app]. rewrite Hc.
    rewrite Hx by (done || lia || (by left)). cbn [mbind option_bind].
    rewrite skip_ws_delim by by left.
    specialize (IH fuel ltac:(done) Hi ltac:(lia) ltac:(lia)).
    rewrite !fmap_cons in IH. cbn [fst snd] in IH. by rewrite IH.
Qed.

Lemma arr_depth_nonneg l : 0 ≤ foldr (λ x acc, Z.max (jdepth x) acc) 0 l.
Proof. induction l; cbn [foldr]; lia. Qed.

Lemma obj_depth_nonneg (l : list (string * json)) :
  0 ≤ foldr (λ kv acc, Z.max (jdepth kv.2) acc) 0 l.
Proof. induction l; cbn [foldr]; lia. Qed.

Lemma parse_value_arr fuel depth c l :
  depth + 1 ≤ maxNestingDepth → is_ws c = false → c ≠ "]"%char →
  parse_value (S fuel) depth ("["%char :: c :: l) =
    '(es, r) ← parse_elems fuel (depth + 1) (c :: l); Some (JArr es, r).
Proof.
  intros Hd Hws Hc. cbn -[maxNestingDepth parse_elems is_ws].
  change (is_ws "[") with false. cbn -[maxNestingDepth parse_elems is_ws].
  rewrite (proj2 (Z.ltb_ge _ _)) by lia. cbn [skip_ws]. rewrite Hws.
  by destruct c as [[] [] [] [] [] [] [] []].
Qed.

Lemma parse_value_obj fuel depth l :
  depth + 1 ≤ maxNestingDepth →
  parse_value (S fuel) depth ("{"%char :: "034"%char :: l) =
    '(ms, r) ← parse_members fuel (depth + 1) ("034"%char :: l); Some (JObj ms, r).
Proof.
  intros Hd. cbn -[maxNestingDepth parse_members is_ws].
  change (is_ws "{") with false. cbn -[maxNestingDepth parse_members is_ws].
  by rewrite (proj2 (Z.ltb_ge _ _)) by lia.
Qed.

Lemma printed_reads_back j : reads_back j.
Proof.
  induction j as [|b|lit|s|l IH|l IH] using json_nested_ind;
    intros fuel depth rest Hi Hf Hd Hr; (destruct fuel as [|fuel]; [simpl in Hf; lia|]).
  - done.
  - by destruct b.
  - destruct Hi as [z ->]. destruct (int_lit_head z) as (c & l & E & Hc).
    pose proof (parse_num_int z rest Hr) as Hp. simpl. rewrite E in *. cbn [app] in *.
    unfold is_digit in Hc. cbn [skip_ws parse_value].
    destruct Hc as [->|Hc]; [by simpl; rewrite Hp|].
    destruct c as [[] [] [] [] [] [] [] []]; vm_compute in Hc;
      try (exfalso; naive_solver); by simpl; rewrite Hp.
  - pose proof (parse_print_str s rest) as Hp. cbn [jprint jsan parse_value].
    unfold print_str in *. cbn [app] in *. simpl in *. by rewrite Hp.
  - cbn [jsize jdepth int_json] in Hf, Hd, Hi. apply le_S_n in Hf. rewrite Z.add_assoc in Hd.
    assert (depth + 1 ≤ maxNestingDepth) as Hd1 by (etrans; [|exact Hd]; pose proof (arr_depth_nonneg l); lia).
    cbn [jprint jsan]. destruct l as [|x l].
    { simpl. by rewrite (proj2 (Z.ltb_ge _ _)) by lia. }
    destruct (jprint_head x) as (c & l' & E & Hws & Hc & _); [by destruct Hi|].
    pose proof (parse_elems_print (x :: l) fuel (depth + 1) rest IH) as Hp.
    specialize (Hp ltac:(done) Hi Hf Hd).
    rewrite fmap_cons in *.
    assert (∃ l'', commas (jprint x :: (jprint <$> l)) = c :: l'') as [l'' E2].
    { rewrite E. destruct l; simpl; eauto. }
    rewrite E2 in *. cbn [app] in *. rewrite <- app_assoc. cbn [app].
    by rewrite parse_value_arr, Hp.
  - cbn [jsize jdepth int_json] in Hf, Hd, Hi. apply le_S_n in Hf. rewrite Z.add_assoc in Hd.
    assert (depth + 1 ≤ maxNestingDepth) as Hd1 by (etrans; [|exact Hd]; pose proof (obj_depth_nonneg l); lia).
    cbn [jprint jsan]. destruct l as [|[k x] l].
    { simpl. by rewrite (proj2 (Z.ltb_ge _ _)) by lia. }
    pose proof (parse_members_print ((k, x) :: l) fuel (depth + 1) rest IH) as Hp.
    specialize (Hp ltac:(done) Hi Hf Hd).
    rewrite fmap_cons in *.
    match type of Hp with context [commas ?L] =>
      assert (∃ l'', commas L = "034"%char :: l'') as [l'' E2]
        by (destruct l; simpl; eauto) end.
    rewrite E2 in *. cbn [app] in *. rewrite <- app_assoc. cbn [app].
    by rewrite parse_value_obj, Hp.
Qed.

(** The fuel [Parse] starts with is enough for every printed value. *)
Lemma jsize_le j : int_json j → (jsize j ≤ length (jprint j))%nat.
Proof.
  induction j as [|b|lit|s|l IH|l IH] using json_nested_ind;
    cbn [int_json jsize jprint length]; intros Hi; try lia.
  - simpl. lia.
  - destruct b; simpl; lia.
  - destruct Hi as [z ->]. destruct (int_lit_head z) as (c & l & -> & _). simpl. lia.
  - unfold print_str. simpl. lia.
  - rewrite length_app. cbn [length]. rewrite Nat.add_1_r. apply le_n_S.
    induction IH as [|x l Hx IH' IHl]; [simpl; lia|]. destruct Hi as [Hi1 Hi2].
    specialize (Hx Hi1). specialize (IHl Hi2). destruct l as [|y l]; [simpl; lia|].
    rewrite !fmap_cons, commas_cons, length_app. rewrite fmap_cons in IHl.
    cbn [foldr length] in *. lia.
  - rewrite length_app. cbn [length]. rewrite Nat.add_1_r. apply le_n_S.
    induction IH as [|x l Hx IH' IHl]; [simpl; lia|]. destruct Hi as [Hi1 Hi2].
    specialize (Hx Hi1). specialize (IHl Hi2).
    destruct l as [|y l]; [cbn [foldr fmap list_fmap commas]; rewrite length_app; simpl; lia|].
    rewrite !fmap_cons, commas_cons, !length_app. rewrite fmap_cons in IHl.
    cbn [foldr length] in *. lia.
Qed.

Lemma Parse_print j :
  int_json j → jdepth j ≤ maxNestingDepth → Parse (of_chars (jprint j)) = Some (jsan j).
Proof.
  intros Hi Hd. unfold Parse. rewrite chars_of_chars.
  pose proof (jsize_le j Hi) as Hs.
  pose proof (printed_reads_back j (S (length (jprint j))) 0 [] Hi) as H.
  rewrite app_nil_r in H. rewrite H by (done || lia). done.
Qed.
