(* ===== verification/AnyJson.v ===== *)
(** * JSON without a schema

    [json.Unmarshal] into [map[string]any] and [json.Marshal] of such a map, as the
    interoperability harness, its proxy and the Go shim use them: objects are maps (the
    last of several equal keys wins, keys are printed in byte order) and numbers are
    [float64]s, printed with the fewest digits that read back as the same number. *)

From S2P Require Import Prelude Json.
Local Open Scope Z_scope.

(** ** Numbers *)

Definition ndigits (z : Z) : Z := Z.of_nat (slen (pretty (Z.to_N z))).

(** Sign, coefficient and decimal exponent of a JSON number. *)
Record decimal := Decimal { d_neg : bool; d_coef : Z; d_exp : Z }.

Fixpoint split_at (f : ascii → bool) (l : list ascii) : list ascii * list ascii :=
  match l with
  | [] => ([], [])
  | c :: l => if f c then ([], c :: l) else let '(a, b) := split_at f l in (c :: a, b)
  end.

Definition is_char (c d : ascii) : bool := bool_decide (c = d).

Definition exp_value (l : list ascii) : Z :=
  match l with
  | _ :: "-"%char :: l => - dec_value l
  | _ :: "+"%char :: l => dec_value l
  | _ :: l => dec_value l
  | [] => 0
  end.

Definition lit_decimal (lit : list ascii) : decimal :=
  let '(neg, l) := match lit with "-"%char :: l => (true, l) | _ => (false, lit) end in
  let '(mant, ex) := split_at (λ c, is_char c "e" || is_char c "E") l in
  let '(int, frac) := split_at (λ c, is_char c ".") mant in
  let frac := tail frac in
  Decimal neg (dec_value (int ++ frac)) (exp_value ex - Z.of_nat (length frac)).

(** A non-negative [float64]: [fl_m * 2 ^ fl_x]. *)
Record float := Float { fl_m : Z; fl_x : Z }.

Definition round_even (num den : Z) : Z :=
  let q := num / den in
  let r := num mod den in
  if 2 * r <? den then q else if den <? 2 * r then q + 1 else if Z.even q then q else q + 1.

(** [strconv.ParseFloat] of [coef * 10 ^ ex]; [None] is out of range. *)
Definition to_float (coef ex : Z) : option float :=
  if coef =? 0 then Some (Float 0 0)
  else if 310 <? ndigits coef + ex then None
  else if ndigits coef + ex <? -330 then Some (Float 0 0)
  else
    let num := coef * 10 ^ Z.max ex 0 in
    let den := 10 ^ Z.max (- ex) 0 in
    let x := Z.log2 num - Z.log2 den - 53 in
    let scaled x := if x <? 0 then (num * 2 ^ (- x), den) else (num, den * 2 ^ x) in
    let x := let '(n, d) := scaled x in if n <? d * 2 ^ 53 then x else x + 1 in
    let x := Z.max x (-1074) in
    let '(n, d) := scaled x in
    let m := round_even n d in
    let '(m, x) := if m =? 2 ^ 53 then (2 ^ 52, x + 1) else (m, x) in
    if 971 <? x then None else Some (Float m x).

(** Is [d * 10 ^ k] read back as [f]?  The interval around [f], its ends included if the
    mantissa is even. *)
Definition reads_as (f : float) (d k : Z) : bool :=
  let '(m, x) := (fl_m f, fl_x f) in
  let lo := if (m =? 2 ^ 52) && (-1074 <? x) then 4 * m - 1 else 4 * m - 2 in
  let hi := 4 * m + 2 in
  (* compare [d * 10 ^ k] with [lo * 2 ^ (x - 2)] and [hi * 2 ^ (x - 2)] *)
  let v := d * 10 ^ Z.max k 0 * 2 ^ Z.max (2 - x) 0 in
  let s := 10 ^ Z.max (- k) 0 * 2 ^ Z.max (x - 2) 0 in
  if Z.even m then (lo * s <=? v) && (v <=? hi * s) else (lo * s <? v) && (v <? hi * s).

(** The decimal exponent [p] with [10 ^ p <= f < 10 ^ (p + 1)]. *)
Definition decimal_exp (f : float) : Z :=
  let num := fl_m f * 2 ^ Z.max (fl_x f) 0 in
  let den := 2 ^ Z.max (- fl_x f) 0 in
  if den <=? num then ndigits (num / den) - 1
  else let s := ndigits (den / num) in
       if den <=? num * 10 ^ (s - 1) then - (s - 1) else - s.

(** The shortest digits: [n] runs from the number of digits tried first. *)
Fixpoint shortest (fuel : nat) (f : float) (p n : Z) : Z * Z :=
  let k := p - n + 1 in
  let num := fl_m f * 2 ^ Z.max (fl_x f) 0 * 10 ^ Z.max (- k) 0 in
  let den := 2 ^ Z.max (- fl_x f) 0 * 10 ^ Z.max k 0 in
  let d := num / den in
  let near := if 2 * (num mod den) <? den then (d, d + 1) else (d + 1, d) in
  if reads_as f near.1 k then (near.1, k)
  else if reads_as f near.2 k then (near.2, k)
  else match fuel with O => (d, k) | S fuel => shortest fuel f p (n + 1) end.

Fixpoint strip_zeros (fuel : nat) (d k : Z) : Z * Z :=
  match fuel with
  | O => (d, k)
  | S fuel => if d mod 10 =? 0 then strip_zeros fuel (d / 10) (k + 1) else (d, k)
  end.

Definition digits (z : Z) : list ascii := chars (pretty (Z.to_N z)).
Definition zeros (n : Z) : list ascii := replicate (Z.to_nat n) "0"%char.

(** [d * 10 ^ k] in positional notation. *)
Definition format_f (d k : Z) : list ascii :=
  let ds := digits d in
  if 0 <=? k then ds ++ zeros k
  else let n := Z.of_nat (length ds) in
       if - k <? n then take (Z.to_nat (n + k)) ds ++ "."%char :: drop (Z.to_nat (n + k)) ds
       else "0"%char :: "."%char :: zeros (- k - n) ++ ds.

(** ... and with an exponent, as [encoding/json] leaves it. *)
Definition format_e (d k : Z) : list ascii :=
  match digits d with
  | [] => []
  | c :: ds =>
      let e := k + Z.of_nat (length ds) in
      let mant := match ds with [] => [c] | _ => c :: "."%char :: ds end in
      mant ++ "e"%char :: (if e <? 0 then "-"%char else "+"%char) :: digits (Z.abs e)
  end.

Definition float_ltb (f g : float) : bool :=
  let x := Z.min (fl_x f) (fl_x g) in fl_m f * 2 ^ (fl_x f - x) <? fl_m g * 2 ^ (fl_x g - x).

(** The bounds of positional notation, as [float64] constants. *)
Definition tiny : float := default (Float 0 0) (to_float 1 (-6)).
Definition huge : float := default (Float 0 0) (to_float 1 21).

(** A number decoded into [any] and printed again; [None] is an error of decoding. *)
Definition renumber (lit : list ascii) : option (list ascii) :=
  let '(Decimal neg coef ex) := lit_decimal lit in
  f ← to_float coef ex;
  let body :=
    if fl_m f =? 0 then ["0"%char]
    else let p := decimal_exp f in
         let '(d, k) := shortest 17 f p 1 in
         let '(d, k) := strip_zeros 20 d k in
         if float_ltb f tiny || negb (float_ltb f huge) then format_e d k else format_f d k in
  Some (if neg then "-"%char :: body else body).

Definition renumbered (s : string) : string := of_chars (default [] (renumber (chars s))).

Lemma renumber_examples :
  renumbered <$> ["300"; "1.50"; "1e3"; "-0"; "0.1"; "1e21"; "123456789012345678901234567890";
                  "5e-324"; "0.0000001"; "0.000001"; "9007199254740993"; "1.7976931348623157e308"] =
  ["300"; "1.5"; "1000"; "-0"; "0.1"; "1e+21"; "1.2345678901234568e+29";
   "5e-324"; "1e-7"; "0.000001"; "9007199254740992"; "1.7976931348623157e+308"] ∧
  renumber (chars "1e400") = None ∧ renumber (chars "2e308") = None.
Proof. vm_compute. done. Qed.

(** ** Objects *)

(** A [map[string]any]: its entries in the order of their keys. *)
Abbreviation anymap := (list (string * json)).

(** [m[k] = v]. *)
Fixpoint put (k : string) (v : json) (m : anymap) : anymap :=
  match m with
  | [] => [(k, v)]
  | (k', v') :: m' =>
      match String.compare k k' with
      | Lt => (k, v) :: m
      | Eq => (k, v) :: m'
      | Gt => (k', v') :: put k v m'
      end
  end.

(** [m[k]]; [None] for a missing key. *)
Fixpoint get (k : string) (m : anymap) : option json :=
  match m with
  | [] => None
  | (k', v) :: m => if decide (k = k') then Some v else get k m
  end.

(** [m[k] == s] for a string [s], and [m[k].(string)], [m[k].(bool)] with the zero value
    for anything else. *)
Definition is_str (k s : string) (m : anymap) : bool :=
  match get k m with Some (JStr x) => bool_decide (x = s) | _ => false end.
Definition get_str (k : string) (m : anymap) : string :=
  match get k m with Some (JStr x) => x | _ => "" end.
Definition get_bool (k : string) (m : anymap) : bool :=
  match get k m with Some (JBool b) => b | _ => false end.

Definition putAll (l : list (string * json)) (m : anymap) : anymap :=
  foldl (λ m kv, put kv.1 kv.2 m) m l.

(** The value a JSON text decodes to. *)
Fixpoint anyval (j : json) : option json :=
  match j with
  | JNum lit => JNum <$> renumber lit
  | JArr l => JArr <$> mapM anyval l
  | JObj l => (λ ms, JObj (putAll ms [])) <$> mapM (λ kv, v ← anyval kv.2; Some (kv.1, v)) l
  | _ => Some j
  end.

(** [json.Unmarshal] into a nil [map[string]any]. *)
Definition UnmarshalMap (text : bytes) : option anymap :=
  j ← Parse text;
  match j with
  | JNull => Some []
  | JObj _ => v ← anyval j; match v with JObj m => Some m | _ => None end
  | _ => None
  end.

Definition MarshalMap (m : anymap) : bytes := of_chars (jprint (JObj m)).

(** A map literal. *)
Definition anymap_of (l : list (string * json)) : anymap := putAll l [].

(** ** Properties *)

Definition slt (a b : string) : Prop := String.compare a b = Lt.

(** Keys strictly increasing. *)
Definition sorted_map (m : anymap) : Prop := StronglySorted (λ x y, slt x.1 y.1) m.

Lemma compare_refl k : String.compare k k = Eq.
Proof. induction k as [|c k IH]; [done|]. simpl. unfold Ascii.compare. by rewrite N.compare_refl. Qed.

Lemma slt_ne a b : slt a b → a ≠ b.
Proof. unfold slt. intros E ->. by rewrite compare_refl in E. Qed.

Lemma get_put k v m k' : get k' (put k v m) = if decide (k' = k) then Some v else get k' m.
Proof.
  induction m as [|[x y] m IH]; cbn [put get]; [done|].
  destruct (String.compare k x) eqn:E; cbn [get]; [apply String.compare_eq_iff in E; subst x|done|].
  - by case_decide.
  - rewrite IH. repeat case_decide; subst; try done. by rewrite compare_refl in E.
Qed.

Lemma put_last k v m : Forall (λ x, slt x.1 k) m → put k v m = m ++ [(k, v)].
Proof.
  induction 1 as [|[x y] m Hx Hm IH]; cbn [put app]; [done|].
  rewrite String.compare_antisym. unfold slt in Hx. cbn [fst] in Hx. rewrite Hx. cbn [CompOpp].
  by rewrite IH.
Qed.

Lemma putAll_app l m : sorted_map (m ++ l) → putAll l m = m ++ l.
Proof.
  unfold putAll. revert m. induction l as [|[k v] l IH]; intros m Hs; cbn [foldl fst snd].
  { by rewrite app_nil_r. }
  rewrite put_last.
  - rewrite IH; by rewrite <- app_assoc.
  - apply Forall_forall. intros x Hx.
    apply (StronglySorted_app_1_elem_of _ m ((k, v) :: l) x (k, v) Hs Hx). by left.
Qed.

(** Entries a shim or the harness sends: strings and booleans. *)
Definition plain (kv : string * json) : Prop :=
  valid_utf8 kv.1 ∧ match kv.2 with JStr s => valid_utf8 s | JBool _ => True | _ => False end.

Lemma anyval_plain m :
  Forall plain m → mapM (λ kv : string * json, v ← anyval kv.2; Some (kv.1, v)) m = Some m.
Proof.
  induction 1 as [|[k v] m [_ Hv] _ IH]; [done|]. cbn [mapM fst snd] in *.
  destruct v; try done; cbn [anyval mbind option_bind]; by rewrite IH.
Qed.

Lemma plain_json m : Forall plain m → int_json (JObj m) ∧ jdepth (JObj m) ≤ 1 ∧ jsan (JObj m) = JObj m.
Proof.
  induction 1 as [|[k v] m [Hk Hv] _ (IH1 & IH2 & IH3)]; [done|]. cbn [int_json jdepth jsan foldr fst snd] in *.
  injection IH3 as IH3. rewrite fmap_cons, IH3. cbn [fst snd]. rewrite sanitize_valid by done.
  destruct v; try done; cbn [int_json jdepth jsan].
  - split_and!; [done..|lia|done].
  - rewrite sanitize_valid by done. split_and!; [done..|lia|done].
Qed.

(** A map of strings and booleans survives being sent. *)
Lemma map_round_trip m :
  sorted_map m → Forall plain m → UnmarshalMap (MarshalMap m) = Some m.
Proof.
  intros Hs Hp. destruct (plain_json m Hp) as (H1 & H2 & H3). unfold UnmarshalMap, MarshalMap.
  rewrite Parse_print, H3; [|done|etrans; [exact H2|done]]. cbn [mbind option_bind anyval].
  rewrite anyval_plain by done. cbn. by rewrite putAll_app.
Qed.

(** *** Maps with integers, and strings that need not be valid *)

Lemma digit_not_mark c : is_digit c → is_char c "e" || is_char c "E" = false ∧ is_char c "." = false ∧ c ≠ "-"%char.
Proof. destruct c as [[] [] [] [] [] [] [] []]; vm_compute; try done; by intros []. Qed.

Lemma split_at_none f l : Forall (λ c, f c = false) l → split_at f l = (l, []).
Proof. induction 1 as [|c l Hc _ IH]; [done|]. cbn [split_at]. by rewrite Hc, IH. Qed.

Lemma lit_decimal_int z : lit_decimal (int_lit z) = Decimal (bool_decide (z < 0)%Z) (Z.abs z) 0.
Proof.
  assert (∀ n : N, let ds := chars (pretty n) in
    split_at (λ c, is_char c "e" || is_char c "E") ds = (ds, []) ∧ split_at (λ c, is_char c ".") ds = (ds, []) ∧
    dec_value (ds ++ []) = Z.of_N n ∧ (∀ l, ds ≠ "-"%char :: l)) as Hn.
  { intros n ds. destruct (pretty_N_digits n) as (Hd & Hv & _). fold ds in Hd, Hv. split_and!.
    - apply split_at_none. eapply Forall_impl; [exact Hd|]. intros c Hc. by destruct (digit_not_mark c Hc).
    - apply split_at_none. eapply Forall_impl; [exact Hd|]. intros c Hc. by destruct (digit_not_mark c Hc) as (_ & ? & _).
    - by rewrite app_nil_r.
    - intros l E. rewrite E in Hd. apply Forall_cons in Hd as [Hc _]. by destruct (digit_not_mark _ Hc) as (_ & _ & ?). }
  unfold lit_decimal, int_lit. destruct z as [|p|p]; [done| |].
  - change (pretty (Zpos p)) with (pretty (Npos p)). destruct (Hn (Npos p)) as (E1 & E2 & E3 & E4).
    set (ds := chars (pretty (Npos p))) in *.
    assert ((match ds with "-"%char :: l => (true, l) | _ => (false, ds) end) = (false, ds)) as ->.
    { destruct ds as [|c l]; [done|]. assert (c ≠ "-"%char) by (intros ->; by eapply E4).
      clear -H. by destruct c as [[] [] [] [] [] [] [] []]. }
    rewrite E1, E2. cbn [tail length exp_value]. by rewrite E3.
  - change (pretty (Zneg p)) with ("-" +:+ pretty (Npos p)). destruct (Hn (Npos p)) as (E1 & E2 & E3 & E4).
    change (chars ("-" +:+ pretty (Npos p))) with ("-"%char :: chars (pretty (Npos p))).
    cbv beta iota. rewrite E1, E2. cbn [tail length exp_value]. by rewrite E3.
Qed.

Lemma to_float_int c : (0 ≤ c ≤ 2 ^ 63)%Z → is_Some (to_float c 0).
Proof.
  intros Hc. unfold to_float. destruct (c =? 0)%Z; [by eexists|].
  assert (ndigits c ≤ 20)%Z.
  { unfold ndigits. destruct (pretty_N_digits (Z.to_N c)) as (_ & _ & Hl & _).
    specialize (Hl 20%nat ltac:(done)).
    assert (Z.to_N c < 10 ^ N.of_nat 20)%N as Hb; [|specialize (Hl Hb); lia].
    apply N2Z.inj_lt. rewrite Z2N.id by lia. eapply Z.le_lt_trans; [apply Hc|]. vm_compute. done. }
  assert (Z.log2 c ≤ 63)%Z as Hlog.
  { change 63%Z with (Z.log2 (2 ^ 63)). apply Z.log2_le_mono. lia. }
  destruct (Z.ltb_spec 310 (ndigits c + 0)); [lia|].
  assert (0 ≤ ndigits c)%Z by (unfold ndigits; lia).
  destruct (Z.ltb_spec (ndigits c + 0) (-330)); [by eexists|].
  change (10 ^ Z.max 0 0)%Z with 1%Z. change (10 ^ Z.max (- 0) 0)%Z with 1%Z.
  change (Z.log2 1) with 0%Z. rewrite Z.mul_1_r. set (x := (Z.log2 c - 0 - 53)%Z).
  assert (x ≤ 10)%Z by (unfold x; lia). clearbody x. cbv zeta.
  destruct (if (x <? 0)%Z then _ else _) as [n d]. set (y := if (n <? _)%Z then x else _).
  assert (y ≤ 11)%Z by (unfold y; destruct (n <? _)%Z; lia). clearbody y.
  destruct (if (Z.max y _ <? 0)%Z then _ else _) as [n' d'].
  destruct (if (round_even n' d' =? _)%Z then _ else _) as [m w] eqn:E.
  assert (w ≤ 12)%Z.
  { destruct (round_even n' d' =? _)%Z; simplify_eq; lia. }
  destruct (Z.ltb_spec 971 w); [lia|]. by eexists.
Qed.

Lemma renumber_int z : (int64_min ≤ z ≤ int64_max)%Z → is_Some (renumber (int_lit z)).
Proof.
  unfold int64_min, int64_max. intros Hz. unfold renumber. rewrite lit_decimal_int.
  destruct (to_float_int (Z.abs z)) as [f ->]; [lia|]. cbn [mbind option_bind].
  by eexists.
Qed.

(** What the other side reads for an entry of strings, booleans and integers. *)
Definition reread (v : json) : json :=
  match v with
  | JStr s => JStr (sanitize s)
  | JNum lit => JNum (default [] (renumber lit))
  | _ => v
  end.

Definition loose (kv : string * json) : Prop :=
  valid_utf8 kv.1 ∧
  match kv.2 with
  | JStr _ | JBool _ => True
  | JNum lit => ∃ z, lit = int_lit z ∧ (int64_min ≤ z ≤ int64_max)%Z
  | _ => False
  end.

Lemma loose_json m : Forall loose m → int_json (JObj m) ∧ (jdepth (JObj m) ≤ 1)%Z ∧
  jsan (JObj m) = JObj (prod_map id (λ v, match v with JStr s => JStr (sanitize s) | _ => v end) <$> m).
Proof.
  induction 1 as [|[k v] m [Hk Hv] _ (IH1 & IH2 & IH3)]; [done|]. cbn [int_json jdepth jsan foldr fst snd] in *.
  injection IH3 as IH3. rewrite !fmap_cons, IH3. cbn [fst snd prod_map]. rewrite sanitize_valid by done.
  destruct v; try done; cbn [int_json jdepth jsan]; split_and!; try done; try lia.
  destruct Hv as (z & -> & _). by exists z.
Qed.

Lemma anyval_loose m : Forall loose m →
  mapM (λ kv : string * json, v ← anyval kv.2; Some (kv.1, v))
    (prod_map id (λ v, match v with JStr s => JStr (sanitize s) | _ => v end) <$> m) =
  Some (prod_map id reread <$> m).
Proof.
  induction 1 as [|[k v] m [_ Hv] _ IH]; [done|]. rewrite !fmap_cons. cbn [mapM prod_map fst snd] in *.
  destruct v as [| |lit| | |]; try done; cbn [anyval reread]; try (cbn [mbind option_bind]; by rewrite IH).
  destruct Hv as (z & -> & Hz). destruct (renumber_int z Hz) as [l ->].
  cbn [fmap option_fmap option_map mbind option_bind default]. by rewrite IH.
Qed.

(** What is read of a map that is sent. *)
Lemma map_reread m : sorted_map m → Forall loose m →
  UnmarshalMap (MarshalMap m) = Some (prod_map id reread <$> m).
Proof.
  intros Hs Hl. destruct (loose_json m Hl) as (H1 & H2 & H3). unfold UnmarshalMap, MarshalMap.
  rewrite Parse_print, H3; [|done|etrans; [exact H2|done]]. cbn [mbind option_bind anyval].
  rewrite anyval_loose by done. cbn [fmap option_fmap option_map mbind option_bind]. rewrite putAll_app; [done|].
  cbn [app]. unfold sorted_map in *. clear -Hs. induction Hs as [|[k v] m _ IH Hf]; [constructor|].
  rewrite fmap_cons. constructor; [done|]. apply Forall_fmap. by eapply Forall_impl.
Qed.

Lemma get_reread k m : get k (prod_map id reread <$> m) = reread <$> get k m.
Proof. induction m as [|[k' v] m IH]; [done|]. rewrite fmap_cons. change (prod_map id reread (k', v)) with (k', reread v). cbn [get]. by case_decide. Qed.

Lemma get_str_reread k m : get_str k (prod_map id reread <$> m) = sanitize (get_str k m).
Proof. unfold get_str. rewrite get_reread. by destruct (get k m) as [[]|]. Qed.

Lemma commas_length l : (length (commas l) ≤ sum_list ((λ x, S (length x)) <$> l))%nat.
Proof.
  induction l as [|x l IH]; [done|]. rewrite fmap_cons. destruct l as [|y l].
  - simpl. lia.
  - change (commas (x :: y :: l)) with (x ++ ","%char :: commas (y :: l)).
    rewrite length_app. cbn [length sum_list]. simpl in *. lia.
Qed.

(** The space a map of strings and booleans takes. *)
Lemma MarshalMap_length m :
  Forall plain m →
  (slen (MarshalMap m) ≤
   2 + sum_list ((λ kv, 10 + 6 * slen kv.1 + match kv.2 with JStr s => 6 * slen s | _ => 0 end) <$> m))%nat.
Proof.
  intros Hp. unfold MarshalMap. rewrite <- slen_chars, chars_of_chars. cbn [jprint length].
  rewrite length_app. cbn [length]. etrans; [apply le_n_S, Nat.add_le_mono_r, commas_length|].
  rewrite <- list_fmap_compose.
  assert (∀ l : anymap, Forall plain l →
    (sum_list ((λ x, S (length x)) ∘ (λ kv, print_str kv.1 ++ ":"%char :: jprint kv.2) <$> l) ≤
     sum_list ((λ kv, 10 + 6 * slen kv.1 + match kv.2 with JStr s => 6 * slen s | _ => 0 end) <$> l))%nat) as Hl.
  { clear. induction 1 as [|[k v] l [_ Hv] _ IH]; [done|]. rewrite !fmap_cons. cbn [sum_list compose fst snd]. unfold id in *.
    rewrite length_app. pose proof (print_str_length k) as Hk. rewrite slen_chars in Hk. cbn [length].
    destruct v as [|b| |s| |]; try done.
    { assert (length (jprint (JBool b)) ≤ 5)%nat by (destruct b; simpl; lia). lia. }
    cbn [jprint].
    pose proof (print_str_length s) as Hs. rewrite slen_chars in Hs. lia. }
  specialize (Hl m Hp). lia.
Qed.
