(* ===== verification/Wire.v ===== *)
(** * Control messages (src/internal/relay/control.go, src/sdk/go/wire.go)

    The server and the Go SDK declare the same JSON message; [controlMessage] is both.
    [Marshal] prints the struct the way [encoding/json] does with the tags of the source
    ([omitempty] included) and [Unmarshal] decodes a text into a fresh struct: unknown
    keys skipped, known keys matched exactly or up to case folding, [null] leaving a
    field alone, the last of several occurrences winning, and any value of the wrong
    type an error. *)

From S2P Require Import Prelude Json.
Local Open Scope Z_scope.

(** [peerInfo] of the server, [wirePeer] of the SDK. *)
Record peerInfo := PeerInfo { pi_ID : string; pi_StaticKey : string }.

Record controlMessage := ControlMessage {
  cm_Type : string;
  cm_ProtocolVersion : Z;
  cm_DeviceID : string;
  cm_Peers : list peerInfo;
  cm_StaticKey : string;
  cm_Code : string;
  cm_ExpiresIn : Z;
  cm_PeerID : string;
  cm_PeerStaticKey : string;
  cm_Online : option bool;
  cm_Message : string
}.

#[global] Instance peerInfo_eq_dec : EqDecision peerInfo.
Proof. solve_decision. Defined.
#[global] Instance controlMessage_eq_dec : EqDecision controlMessage.
Proof. solve_decision. Defined.

(** The zero value with a type, completed by the setters below. *)
Definition message (type : string) : controlMessage :=
  ControlMessage type 0 "" [] "" "" 0 "" "" None "".

Definition ProtocolVersion : Z := 1.

Definition wirePeer := peerInfo.
Definition wireMessage := controlMessage.
Definition protocolVersion : Z := 1.

(** The SDK's names of the message types. *)
Definition msgTypeWelcome := "welcome".
Definition msgTypeAnnounceKey := "announce_key".
Definition msgTypePairRequest := "pair_request".
Definition msgTypePairCode := "pair_code".
Definition msgTypePairAccept := "pair_accept".
Definition msgTypePairComplete := "pair_complete".
Definition msgTypePeerStatus := "peer_status".
Definition msgTypePing := "ping".
Definition msgTypePong := "pong".
Definition msgTypeError := "error".

(** ** Encoding *)

Definition omit_str (k s : string) : list (string * json) :=
  if decide (s = "") then [] else [(k, JStr s)].

Definition omit_int (k : string) (z : Z) : list (string * json) :=
  if decide (z = 0) then [] else [(k, JNum (int_lit z))].

Definition omit_bool (k : string) (b : option bool) : list (string * json) :=
  match b with Some b => [(k, JBool b)] | None => [] end.

Definition peer_json (p : peerInfo) : json :=
  JObj [("id", JStr (pi_ID p)); ("static_key", JStr (pi_StaticKey p))].

Definition omit_peers (k : string) (l : list peerInfo) : list (string * json) :=
  match l with [] => [] | _ => [(k, JArr (peer_json <$> l))] end.

Definition message_fields (m : controlMessage) : list (string * json) :=
  [("type", JStr (cm_Type m))]
  ++ omit_int "protocol_version" (cm_ProtocolVersion m)
  ++ omit_str "device_id" (cm_DeviceID m)
  ++ omit_peers "peers" (cm_Peers m)
  ++ omit_str "static_key" (cm_StaticKey m)
  ++ omit_str "code" (cm_Code m)
  ++ omit_int "expires_in" (cm_ExpiresIn m)
  ++ omit_str "peer_id" (cm_PeerID m)
  ++ omit_str "peer_static_key" (cm_PeerStaticKey m)
  ++ omit_bool "online" (cm_Online m)
  ++ omit_str "message" (cm_Message m).

Definition Marshal (m : controlMessage) : bytes := of_chars (jprint (JObj (message_fields m))).

(** ** Decoding *)

(** The upper-casing [encoding/json] folds keys with: ASCII letters, and the two
    non-ASCII runes whose case orbit contains an ASCII letter (U+017F, U+212A). *)
Fixpoint foldName (l : list ascii) : list ascii :=
  match l with
  | "197"%char :: "191"%char :: l => "S"%char :: foldName l
  | "226"%char :: "132"%char :: "170"%char :: l => "K"%char :: foldName l
  | c :: l =>
      (if decide (97 ≤ byte_val c ≤ 122) then byte_of (byte_val c - 32) else c) :: foldName l
  | [] => []
  end.

Definition find_field {F} (fields : list (string * F)) (k : string) : option F :=
  match list_find (λ e, e.1 = k) fields with
  | Some (_, e) => Some e.2
  | None => (λ e, e.2.2) <$> list_find (λ e, foldName (chars e.1) = foldName (chars k)) fields
  end.

Inductive cfield :=
  | FType | FProtocolVersion | FDeviceID | FPeers | FStaticKey | FCode | FExpiresIn
  | FPeerID | FPeerStaticKey | FOnline | FMessage.

Definition message_tags : list (string * cfield) :=
  [("type", FType); ("protocol_version", FProtocolVersion); ("device_id", FDeviceID);
   ("peers", FPeers); ("static_key", FStaticKey); ("code", FCode);
   ("expires_in", FExpiresIn); ("peer_id", FPeerID); ("peer_static_key", FPeerStaticKey);
   ("online", FOnline); ("message", FMessage)].

Definition peer_tags : list (string * bool) := [("id", false); ("static_key", true)].

Definition dec_string (old : string) (j : json) : option string :=
  match j with JNull => Some old | JStr s => Some s | _ => None end.

Definition dec_int (old : Z) (j : json) : option Z :=
  match j with JNull => Some old | JNum lit => Atoi (of_chars lit) | _ => None end.

Definition dec_bool_ptr (j : json) : option (option bool) :=
  match j with JNull => Some None | JBool b => Some (Some b) | _ => None end.

Definition peer_field (p : peerInfo) (kv : string * json) : option peerInfo :=
  match find_field peer_tags kv.1 with
  | None => Some p
  | Some false => s ← dec_string (pi_ID p) kv.2; Some (PeerInfo s (pi_StaticKey p))
  | Some true => s ← dec_string (pi_StaticKey p) kv.2; Some (PeerInfo (pi_ID p) s)
  end.

(** [foldM step] over the members of an object. *)
Fixpoint fold_fields {S} (step : S → string * json → option S) (s : S)
    (l : list (string * json)) : option S :=
  match l with
  | [] => Some s
  | kv :: l => s' ← step s kv; fold_fields step s' l
  end.

Definition dec_peer (p : peerInfo) (j : json) : option peerInfo :=
  match j with
  | JNull => Some p
  | JObj l => fold_fields peer_field p l
  | _ => None
  end.

(** A slice is decoded in place: element [i] starts from what the backing array holds at
    [i], so a second occurrence of the key sees the elements of the first.  [old] is the
    backing array; the result is the new slice and the rest of the array. *)
Fixpoint dec_elems (old : list peerInfo) (l : list json) : option (list peerInfo * list peerInfo) :=
  match l with
  | [] => Some ([], old)
  | j :: l =>
      p ← dec_peer (default (PeerInfo "" "") (head old)) j;
      '(ps, rest) ← dec_elems (tail old) l;
      Some (p :: ps, rest)
  end.

Definition dec_peers (old : list peerInfo) (j : json) : option (list peerInfo * list peerInfo) :=
  match j with
  | JNull => Some ([], [])
  | JArr [] => Some ([], [])
  | JArr l => dec_elems old l
  | _ => None
  end.

(** A struct being decoded, with the unused rest of its [Peers] array. *)
Definition partial := (controlMessage * list peerInfo)%type.

Definition message_field (st : partial) (kv : string * json) : option partial :=
  let '(ControlMessage ty pv di ps sk co ex pi pk on me, spare) := st in
  let v := kv.2 in
  match find_field message_tags kv.1 with
  | None => Some st
  | Some FType => x ← dec_string ty v; Some (ControlMessage x pv di ps sk co ex pi pk on me, spare)
  | Some FProtocolVersion =>
      x ← dec_int pv v; Some (ControlMessage ty x di ps sk co ex pi pk on me, spare)
  | Some FDeviceID =>
      x ← dec_string di v; Some (ControlMessage ty pv x ps sk co ex pi pk on me, spare)
  | Some FPeers =>
      '(x, spare') ← dec_peers (ps ++ spare) v;
      Some (ControlMessage ty pv di x sk co ex pi pk on me, spare')
  | Some FStaticKey =>
      x ← dec_string sk v; Some (ControlMessage ty pv di ps x co ex pi pk on me, spare)
  | Some FCode => x ← dec_string co v; Some (ControlMessage ty pv di ps sk x ex pi pk on me, spare)
  | Some FExpiresIn =>
      x ← dec_int ex v; Some (ControlMessage ty pv di ps sk co x pi pk on me, spare)
  | Some FPeerID =>
      x ← dec_string pi v; Some (ControlMessage ty pv di ps sk co ex x pk on me, spare)
  | Some FPeerStaticKey =>
      x ← dec_string pk v; Some (ControlMessage ty pv di ps sk co ex pi x on me, spare)
  | Some FOnline =>
      x ← dec_bool_ptr v; Some (ControlMessage ty pv di ps sk co ex pi pk x me, spare)
  | Some FMessage =>
      x ← dec_string me v; Some (ControlMessage ty pv di ps sk co ex pi pk on x, spare)
  end.

Definition decode_message (j : json) : option controlMessage :=
  match j with
  | JNull => Some (message "")
  | JObj l => fst <$> fold_fields message_field (message "", []) l
  | _ => None
  end.

Definition Unmarshal (text : bytes) : option controlMessage := Parse text ≫= decode_message.

(** ** Round trip *)

Definition sanitize_peer (p : peerInfo) : peerInfo :=
  PeerInfo (sanitize (pi_ID p)) (sanitize (pi_StaticKey p)).

(** What the other side reads: every string with invalid UTF-8 replaced. *)
Definition sanitize_message (m : controlMessage) : controlMessage :=
  ControlMessage (sanitize (cm_Type m)) (cm_ProtocolVersion m) (sanitize (cm_DeviceID m))
    (sanitize_peer <$> cm_Peers m) (sanitize (cm_StaticKey m)) (sanitize (cm_Code m))
    (cm_ExpiresIn m) (sanitize (cm_PeerID m)) (sanitize (cm_PeerStaticKey m))
    (cm_Online m) (sanitize (cm_Message m)).

Definition san_fields (l : list (string * json)) : list (string * json) :=
  (λ kv, (sanitize kv.1, jsan kv.2)) <$> l.

Lemma fold_fields_app {S} (step : S → string * json → option S) s s' l1 l2 :
  fold_fields step s l1 = Some s' →
  fold_fields step s (l1 ++ l2) = fold_fields step s' l2.
Proof.
  revert s. induction l1 as [|kv l1 IH]; simpl; intros s; [by intros [= ->]|].
  destruct (step s kv) as [s1|]; simpl; [apply IH|done].
Qed.

Section fields.
Context (st : partial).

Lemma field_str k s (upd : string → partial) :
  upd "" = st → (∀ v, message_field st (sanitize k, JStr v) = Some (upd v)) →
  fold_fields message_field st (san_fields (omit_str k s)) = Some (upd (sanitize s)).
Proof.
  intros H0 Hs. unfold omit_str. case_decide as E; simpl.
  - by subst s; rewrite <- H0.
  - by rewrite Hs.
Qed.

Lemma field_int k z (upd : Z → partial) :
  int64_min ≤ z ≤ int64_max → upd 0 = st →
  (∀ v, Atoi (of_chars (int_lit v)) = Some v →
        message_field st (sanitize k, JNum (int_lit v)) = Some (upd v)) →
  fold_fields message_field st (san_fields (omit_int k z)) = Some (upd z).
Proof.
  intros Hz H0 Hs. unfold omit_int. case_decide as E; simpl.
  - by subst z; rewrite <- H0.
  - rewrite Hs; [done|]. unfold int_lit. by rewrite of_chars_chars, Atoi_pretty.
Qed.

Lemma field_bool k b (upd : option bool → partial) :
  upd None = st → (∀ v, message_field st (sanitize k, JBool v) = Some (upd (Some v))) →
  fold_fields message_field st (san_fields (omit_bool k b)) = Some (upd b).
Proof.
  intros H0 Hs. destruct b; simpl.
  - by rewrite Hs.
  - by rewrite H0.
Qed.
End fields.

Lemma dec_peer_san p : dec_peer (PeerInfo "" "") (jsan (peer_json p)) = Some (sanitize_peer p).
Proof. done. Qed.

Lemma dec_elems_san l : dec_elems [] (jsan <$> (peer_json <$> l)) = Some (sanitize_peer <$> l, []).
Proof.
  induction l as [|p l IH]; [done|]. rewrite !fmap_cons. cbn [dec_elems head tail].
  change (default _ None) with (PeerInfo "" ""). rewrite dec_peer_san.
  cbn [mbind option_bind]. by rewrite IH.
Qed.

Lemma field_peers st k l (upd : list peerInfo → partial) :
  upd [] = st →
  (∀ j v, dec_peers [] j = Some (v, []) → message_field st (sanitize k, j) = Some (upd v)) →
  fold_fields message_field st (san_fields (omit_peers k l)) = Some (upd (sanitize_peer <$> l)).
Proof.
  intros H0 Hs. destruct l as [|p l]; [by rewrite <- H0|].
  unfold omit_peers, san_fields. cbn [fmap list_fmap fold_fields fst snd].
  rewrite (Hs _ (sanitize_peer <$> p :: l)); [done|].
  cbn [jsan fmap list_fmap dec_peers]. exact (dec_elems_san (p :: l)).
Qed.

Lemma int_json_message m : int_json (JObj (message_fields m)).
Proof.
  assert (∀ l1 l2, int_json (JObj l1) → int_json (JObj l2) → int_json (JObj (l1 ++ l2))) as Happ.
  { intros l1 l2. induction l1 as [|kv l1 IH]; simpl in *; [done|]. intros [? ?] ?. auto. }
  unfold message_fields, omit_str, omit_int, omit_bool, omit_peers.
  repeat apply Happ; repeat case_decide; try (by vm_compute).
  1,3: by split; [eexists|].
  - destruct (cm_Peers m) as [|p l]; [done|]. split; [|done]. split; [done|].
    induction l; simpl in *; auto.
  - by destruct (cm_Online m).
Qed.

Lemma jdepth_message m : jdepth (JObj (message_fields m)) ≤ maxNestingDepth.
Proof.
  assert (∀ l, Forall (λ kv, jdepth kv.2 ≤ 2) l → jdepth (JObj l) ≤ 3) as Hd.
  { intros l Hl. cbn [jdepth].
    induction Hl as [|kv l Hkv Hl IH]; cbn [foldr]; lia. }
  transitivity 3; [apply Hd|done].
  unfold message_fields, omit_str, omit_int, omit_bool, omit_peers.
  repeat apply Forall_app_2; repeat case_match; repeat constructor; simpl; try lia.
  clear. induction l as [|q l IH]; simpl in *; lia.
Qed.

Ltac take_field lem upd :=
  erewrite fold_fields_app;
    [|apply (lem _ _ _ (λ x, (upd x, [])));
      first [done | intros; unfold message_field; simpl;
             match goal with H : _ = Some _ |- _ => by rewrite H end]].

Lemma Unmarshal_Marshal m :
  int64_min ≤ cm_ProtocolVersion m ≤ int64_max → int64_min ≤ cm_ExpiresIn m ≤ int64_max →
  Unmarshal (Marshal m) = Some (sanitize_message m).
Proof.
  intros Hpv Hex. unfold Unmarshal, Marshal.
  rewrite Parse_print by (apply int_json_message || apply jdepth_message).
  cbn [mbind option_bind jsan decode_message].
  fold (san_fields (message_fields m)). unfold message_fields, san_fields. rewrite !fmap_app.
  destruct m as [ty pv di ps sk co ex pi pk on me]; cbn [cm_Type cm_ProtocolVersion cm_DeviceID
    cm_Peers cm_StaticKey cm_Code cm_ExpiresIn cm_PeerID cm_PeerStaticKey cm_Online cm_Message] in *.
  erewrite fold_fields_app; [|reflexivity].
  take_field field_int (λ x, ControlMessage (sanitize ty) x "" [] "" "" 0 "" "" None "").
  take_field field_str (λ x, ControlMessage (sanitize ty) pv x [] "" "" 0 "" "" None "").
  take_field field_peers
    (λ x, ControlMessage (sanitize ty) pv (sanitize di) x "" "" 0 "" "" None "").
  set (ps' := sanitize_peer <$> ps).
  take_field field_str
    (λ x, ControlMessage (sanitize ty) pv (sanitize di) ps' x "" 0 "" "" None "").
  take_field field_str
    (λ x, ControlMessage (sanitize ty) pv (sanitize di) ps' (sanitize sk) x 0 "" "" None "").
  set (hd := ControlMessage (sanitize ty) pv (sanitize di) ps' (sanitize sk) (sanitize co)).
  take_field field_int (λ x, hd x "" "" None "").
  take_field field_str (λ x, hd ex x "" None "").
  take_field field_str (λ x, hd ex (sanitize pi) x None "").
  take_field field_bool (λ x, hd ex (sanitize pi) (sanitize pk) x "").
  rewrite (field_str _ _ _ (λ x, (hd ex (sanitize pi) (sanitize pk) on x, []))) by done.
  done.
Qed.

(** C35: The text the one side marshals is the message the other side unmarshals: every
    field arrives, in every combination of present and omitted fields, strings with
    invalid UTF-8 replaced by U+FFFD and nothing else changed.  The integers are Go
    [int]s. *)
Theorem message_round_trip m :
  int64_min ≤ cm_ProtocolVersion m ≤ int64_max → int64_min ≤ cm_ExpiresIn m ≤ int64_max →
  Unmarshal (Marshal m) = Some (sanitize_message m).
Proof. apply Unmarshal_Marshal. Qed.

Definition ex_message : controlMessage :=
  ControlMessage "pair_complete" 1 "dev" [PeerInfo "a" "<k>"; PeerInfo "b" ""] "" "123456" 300
    "p" "" (Some false) (of_chars ["255"%char]).

Lemma message_round_trip_witness :
  Unmarshal (Marshal ex_message) = Some (sanitize_message ex_message) ∧
  sanitize_message ex_message ≠ ex_message.
Proof. split; [apply message_round_trip; by vm_compute|by vm_compute]. Defined.
