(* ===== verification/SendQueue.v ===== *)
(** * The outbound queue of a connection (src/internal/relay/client.go)

    [enqueue] may be called by any number of goroutines while others call [close].  Here
    both run at the grain of their individual actions on [sendMu], [closed], the channel
    and the [sync.Once], so that the order the locks impose is proved and not assumed:
    no interleaving sends on or closes a closed channel ([no_panic]), and every
    interleaving is a run of an atomic bounded queue ([queue_linearizable]).  The other
    files then use [enqueue] and [close] as single actions. *)

From S2P Require Import Prelude.

Inductive msgKind := TextMessage | BinaryMessage.

Record wsFrame := WsFrame { kind : msgKind; data : bytes; closeAfter : bool }.

#[global] Instance msgKind_eq_dec : EqDecision msgKind.
Proof. solve_decision. Defined.
#[global] Instance wsFrame_eq_dec : EqDecision wsFrame.
Proof. solve_decision. Defined.

Definition sendBufferSize : nat := 256.

(** ** The shared variables *)

Inductive once_state := NotStarted | Running | Finished.

Record shared := Shared {
  readers : nat;             (* goroutines inside [sendMu.RLock] *)
  writer : bool;             (* a goroutine inside [sendMu.Lock] *)
  sclosed : bool;            (* [c.closed] *)
  chan_closed : bool;        (* the channel itself *)
  queue : list wsFrame;      (* its buffer *)
  once : once_state;
  conn_closed : bool;
  panicked : bool
}.

Definition fresh_queue : shared := Shared 0 false false false [] NotStarted false false.

(** Where a goroutine stands inside [enqueue] or [close], or the receive of [writePump]. *)
Inductive pc :=
  | ERLock (f : wsFrame) | ECheck (f : wsFrame) | ESend (f : wsFrame) | ERUnlock (b : bool)
  | EReturn (b : bool)
  | COnce | CConn | CLock | CSetClosed | CCloseChan | CUnlock | COnceEnd | CReturn
  | WReceive | WGot (o : option wsFrame).

(** What an outside observer can order: the moment each call takes effect. *)
Inductive event :=
  | EvEnqueue (f : wsFrame) (b : bool)
  | EvClose
  | EvReceive (f : wsFrame)
  | EvReceiveClosed.

Definition with_readers n s :=
  Shared n (writer s) (sclosed s) (chan_closed s) (queue s) (once s) (conn_closed s) (panicked s).
Definition with_writer b s :=
  Shared (readers s) b (sclosed s) (chan_closed s) (queue s) (once s) (conn_closed s) (panicked s).
Definition with_sclosed s :=
  Shared (readers s) (writer s) true (chan_closed s) (queue s) (once s) (conn_closed s) (panicked s).
Definition with_chan_closed s :=
  Shared (readers s) (writer s) (sclosed s) true (queue s) (once s) (conn_closed s) (panicked s).
Definition with_queue q s :=
  Shared (readers s) (writer s) (sclosed s) (chan_closed s) q (once s) (conn_closed s) (panicked s).
Definition with_once o s :=
  Shared (readers s) (writer s) (sclosed s) (chan_closed s) (queue s) o (conn_closed s) (panicked s).
Definition with_conn_closed s :=
  Shared (readers s) (writer s) (sclosed s) (chan_closed s) (queue s) (once s) true (panicked s).
Definition with_panic s :=
  Shared (readers s) (writer s) (sclosed s) (chan_closed s) (queue s) (once s) (conn_closed s) true.

(** One action of a goroutine; [None] when it has to wait. *)
Definition enqueue_action (s : shared) (p : pc) : option (shared * pc * option event) :=
  match p with
  | ERLock f => if writer s then None else Some (with_readers (S (readers s)) s, ECheck f, None)
  | ECheck f =>
      if sclosed s then Some (s, ERUnlock false, Some (EvEnqueue f false))
      else Some (s, ESend f, None)
  | ESend f =>
      if chan_closed s then Some (with_panic s, EReturn false, None)
      else if decide (length (queue s) < sendBufferSize)
      then Some (with_queue (queue s ++ [f]) s, ERUnlock true, Some (EvEnqueue f true))
      else Some (s, ERUnlock false, Some (EvEnqueue f false))
  | ERUnlock b => Some (with_readers (pred (readers s)) s, EReturn b, None)
  | _ => None
  end.

Definition close_action (s : shared) (p : pc) : option (shared * pc * option event) :=
  match p with
  | COnce =>
      match once s with
      | NotStarted => Some (with_once Running s, CConn, None)
      | Running => None
      | Finished => Some (s, CReturn, None)
      end
  | CConn => Some (with_conn_closed s, CLock, None)
  | CLock =>
      if writer s then None
      else if decide (readers s = 0) then Some (with_writer true s, CSetClosed, None) else None
  | CSetClosed => Some (with_sclosed s, CCloseChan, Some EvClose)
  | CCloseChan =>
      if chan_closed s then Some (with_panic s, CReturn, None)
      else Some (with_chan_closed s, CUnlock, None)
  | CUnlock => Some (with_writer false s, COnceEnd, None)
  | COnceEnd => Some (with_once Finished s, CReturn, None)
  | _ => None
  end.

Definition receive_action (s : shared) (p : pc) : option (shared * pc * option event) :=
  match p with
  | WReceive =>
      match queue s with
      | f :: q => Some (with_queue q s, WGot (Some f), Some (EvReceive f))
      | [] => if chan_closed s then Some (s, WGot None, Some EvReceiveClosed) else None
      end
  | _ => None
  end.

Definition action (s : shared) (p : pc) : option (shared * pc * option event) :=
  match p with
  | ERLock _ | ECheck _ | ESend _ | ERUnlock _ | EReturn _ => enqueue_action s p
  | COnce | CConn | CLock | CSetClosed | CCloseChan | CUnlock | COnceEnd | CReturn =>
      close_action s p
  | WReceive | WGot _ => receive_action s p
  end.

(** A goroutine enters one of the calls. *)
Definition entry (p : pc) : Prop := (∃ f, p = ERLock f) ∨ p = COnce ∨ p = WReceive.

(** Any goroutine may act, and a call may begin, at any time. *)
Inductive qstep : shared * list pc → option event → shared * list pc → Prop :=
  | q_begin s ts p : entry p → qstep (s, ts) None (s, p :: ts)
  | q_act s ts i p s' p' e :
      ts !! i = Some p → action s p = Some (s', p', e) → qstep (s, ts) e (s', <[i := p']> ts).

Inductive qrun : list event → shared * list pc → Prop :=
  | qrun_init : qrun [] (fresh_queue, [])
  | qrun_step tr c e c' : qrun tr c → qstep c e c' → qrun (tr ++ option_list e) c'.

(** ** The lock invariant *)

Definition cnt {A} (P : A → bool) (l : list A) : nat := sum_list_with (λ x, Nat.b2n (P x)) l.

Lemma cnt_insert {A} P (ts : list A) i p p' :
  ts !! i = Some p → cnt P (<[i := p']> ts) + Nat.b2n (P p) = cnt P ts + Nat.b2n (P p').
Proof.
  unfold cnt. revert i. induction ts as [|q ts IH]; intros [|i] Hi; simplify_eq/=; [lia|].
  specialize (IH i Hi). lia.
Qed.

Lemma cnt_pos {A} P (ts : list A) i p : ts !! i = Some p → Nat.b2n (P p) ≤ cnt P ts.
Proof.
  unfold cnt. revert i. induction ts as [|q ts IH]; intros [|i] Hi; simplify_eq/=; [lia|].
  specialize (IH i Hi). lia.
Qed.

Lemma cnt_mono {A} (P Q : A → bool) ts : (∀ p, P p = true → Q p = true) → cnt P ts ≤ cnt Q ts.
Proof.
  intros H. unfold cnt. induction ts as [|p ts IH]; simpl; [lia|].
  specialize (H p). destruct (P p), (Q p); simpl in *; naive_solver lia.
Qed.

Definition in_read p := match p with ECheck _ | ESend _ | ERUnlock _ => true | _ => false end.
Definition in_send p := match p with ESend _ => true | _ => false end.
Definition in_write p := match p with CSetClosed | CCloseChan | CUnlock => true | _ => false end.
Definition before_close p := match p with CConn | CLock | CSetClosed => true | _ => false end.
Definition at_close_chan p := match p with CCloseChan => true | _ => false end.
Definition after_close p := match p with CUnlock | COnceEnd => true | _ => false end.
Definition started (o : once_state) := match o with NotStarted => false | _ => true end.

Record lock_inv (s : shared) (ts : list pc) : Prop := {
  inv_readers : readers s = cnt in_read ts;
  inv_writer : Nat.b2n (writer s) = cnt in_write ts;
  inv_excl : writer s = true → readers s = 0;
  inv_once : Nat.b2n (started (once s)) = cnt before_close ts + Nat.b2n (sclosed s);
  inv_chan : Nat.b2n (sclosed s) = cnt at_close_chan ts + Nat.b2n (chan_closed s);
  inv_send : sclosed s = true → cnt in_send ts = 0;
  inv_end : chan_closed s = false → cnt after_close ts = 0;
  inv_queue : length (queue s) ≤ sendBufferSize;
  inv_panic : panicked s = false
}.

Ltac count_step i :=
  repeat match goal with
  | H : ?ts !! i = Some ?p |- context [cnt ?P (<[i := ?p']> ?ts)] =>
      lazymatch goal with
      | _ : cnt P (<[i := p']> ts) + _ = _ |- _ => fail
      | _ => pose proof (cnt_insert P ts i p p' H)
      end
  end.

Ltac settle :=
  intros;
  repeat match goal with
  | b : bool |- _ => destruct b
  | o : once_state |- _ => destruct o
  | H : ?x = ?x → _ |- _ => specialize (H eq_refl)
  end; simpl in *; lia || done.

Lemma lock_inv_action s ts i p s' p' e :
  lock_inv s ts → ts !! i = Some p → action s p = Some (s', p', e) →
  lock_inv s' (<[i := p']> ts).
Proof.
  intros [Hr Hw Hx Ho Hc Hs He Hq Hp] Hi Ha.
  pose proof (cnt_pos in_send ts i p Hi). pose proof (cnt_pos at_close_chan ts i p Hi).
  pose proof (cnt_pos in_read ts i p Hi). pose proof (cnt_pos before_close ts i p Hi).
  pose proof (cnt_pos in_write ts i p Hi). pose proof (cnt_pos after_close ts i p Hi).
  pose proof (cnt_mono in_send in_read ts ltac:(by intros [])).
  destruct s as [r w sc cc q o cn pa]; simpl in *.
  destruct p; simpl in Ha; repeat case_match; simplify_eq/=;
    split; simpl in *; count_step i; simpl in *;
    try rewrite length_app; simpl; settle.
Qed.

Lemma lock_inv_begin s ts p : entry p → lock_inv s ts → lock_inv s (p :: ts).
Proof. intros [[f ->]|[->| ->]] [????????]; by split. Qed.

Lemma lock_inv_run tr s ts : qrun tr (s, ts) → lock_inv s ts.
Proof.
  intros H. remember (s, ts) as c eqn:Ec. revert s ts Ec.
  induction H as [|tr c e c' _ IH Hst]; intros s ts Ec; simplify_eq.
  - split; simpl; (done || lia).
  - inversion Hst; simplify_eq.
    + by apply lock_inv_begin, IH.
    + eapply lock_inv_action; [by apply IH|done..].
Qed.

(** ** Properties *)

(** The atomic queue: a buffer and a closed flag. *)
Definition spec_event (a : list wsFrame * bool) (e : event) : option (list wsFrame * bool) :=
  let '(q, closed) := a in
  match e with
  | EvEnqueue f true =>
      if decide (closed = false ∧ length q < sendBufferSize) then Some (q ++ [f], closed) else None
  | EvEnqueue _ false =>
      if decide (closed = true ∨ sendBufferSize ≤ length q) then Some a else None
  | EvClose => if closed then None else Some (q, true)
  | EvReceive f =>
      match q with
      | f' :: q' => if decide (f = f') then Some (q', closed) else None
      | [] => None
      end
  | EvReceiveClosed => if decide (q = [] ∧ closed = true) then Some a else None
  end.

Fixpoint spec_trace (a : list wsFrame * bool) (tr : list event) : option (list wsFrame * bool) :=
  match tr with
  | [] => Some a
  | e :: tr => a' ← spec_event a e; spec_trace a' tr
  end.

Lemma spec_trace_app a tr1 tr2 :
  spec_trace a (tr1 ++ tr2) = spec_trace a tr1 ≫= λ a', spec_trace a' tr2.
Proof.
  revert a. induction tr1 as [|e tr1 IH]; intros a; [done|]. simpl.
  destruct (spec_event a e); simpl; [apply IH|done].
Qed.

Lemma action_simulates s ts i p s' p' e :
  lock_inv s ts → ts !! i = Some p → action s p = Some (s', p', e) →
  spec_trace (queue s, sclosed s) (option_list e) = Some (queue s', sclosed s').
Proof.
  intros [Hr Hw Hx Ho Hc Hs He Hq Hp] Hi Ha.
  pose proof (cnt_pos in_send ts i p Hi). pose proof (cnt_pos before_close ts i p Hi).
  destruct s as [r w sc cc q o cn pa]; simpl in *.
  destruct p; simpl in Ha; repeat case_match; simplify_eq/=; try done;
    repeat (case_decide || case_match); simplify_eq/=; try done; try settle.
  destruct sc; [naive_solver|simpl in *; lia].
Qed.

(** C17: Whatever the interleaving of [enqueue]s, [close]s and receives, no goroutine ever
    sends on or closes a closed channel, the writer's lock excludes the readers', and
    the buffer never exceeds its 256 frames. *)
Theorem no_panic tr s ts :
  qrun tr (s, ts) →
  panicked s = false ∧ (writer s = true → readers s = 0) ∧ length (queue s) ≤ sendBufferSize.
Proof. intros H%lock_inv_run. by destruct H. Qed.

(** C18: Every interleaving is a run of an atomic bounded queue with one closing: the
    calls can be put in the order of their events such that each [enqueue] returns [true]
    exactly when the queue is open and has room, at most one [close] takes effect, and
    frames are received in the order they were accepted. *)
Theorem queue_linearizable tr s ts :
  qrun tr (s, ts) → spec_trace ([], false) tr = Some (queue s, sclosed s).
Proof.
  intros H. remember (s, ts) as c eqn:Ec. revert s ts Ec.
  induction H as [|tr c e c' Hrun IH Hst]; intros s ts Ec; simplify_eq; [done|].
  rewrite spec_trace_app. destruct c as [s0 ts0]. rewrite (IH s0 ts0 eq_refl).
  apply lock_inv_run in Hrun. inversion Hst; simplify_eq; simpl; [done|].
  by eapply action_simulates.
Qed.

(** *** A concrete interleaving *)

(** A schedule: which goroutine acts, or which call begins. *)
Inductive sched := SBegin (p : pc) | SAct (i : nat).

Definition entryb (p : pc) : bool :=
  match p with ERLock _ | COnce | WReceive => true | _ => false end.

Fixpoint qexec (tr : list event) (s : shared) (ts : list pc) (l : list sched)
    : option (list event * shared * list pc) :=
  match l with
  | [] => Some (tr, s, ts)
  | SBegin p :: l => if entryb p then qexec tr s (p :: ts) l else None
  | SAct i :: l =>
      p ← ts !! i;
      '(s', p', e) ← action s p;
      qexec (tr ++ option_list e) s' (<[i := p']> ts) l
  end.

Lemma qexec_qrun tr s ts l tr' s' ts' :
  qrun tr (s, ts) → qexec tr s ts l = Some (tr', s', ts') → qrun tr' (s', ts').
Proof.
  revert tr s ts. induction l as [|[p|i] l IH]; simpl; intros tr s ts Hr He; [by simplify_eq| |].
  - case_match; [|done]. eapply IH; [|done]. rewrite <- (app_nil_r tr).
    eapply (qrun_step _ _ None); [done|]. apply q_begin. unfold entry.
    destruct p; try done; eauto.
  - apply bind_Some in He as (p & Hp & He).
    apply bind_Some in He as ([[s1 p1] e] & Ha & He).
    eapply IH; [|done]. eapply qrun_step; [done|]. by eapply q_act.
Qed.

Definition ex_frame : wsFrame := WsFrame BinaryMessage "x" false.

(** Two goroutines enqueue while a third closes: the second [enqueue] comes too late. *)
Definition ex_schedule : list sched :=
  [SBegin (ERLock ex_frame); SBegin COnce; SBegin (ERLock ex_frame);
   SAct 0; SAct 1; SAct 1; SAct 0; SAct 0; SAct 0; SAct 1; SAct 1; SAct 1; SAct 1; SAct 1;
   SAct 2; SAct 2; SAct 2].

Definition ex_end : shared := Shared 0 false true true [ex_frame] Finished true false.

Lemma ex_qrun :
  qrun [EvEnqueue ex_frame true; EvClose; EvEnqueue ex_frame false]
    (ex_end, [EReturn true; CReturn; EReturn false]).
Proof. apply (qexec_qrun [] fresh_queue [] ex_schedule); [apply qrun_init|by vm_compute]. Qed.

Lemma no_panic_witness :
  panicked ex_end = false ∧ (writer ex_end = true → readers ex_end = 0) ∧
  length (queue ex_end) ≤ sendBufferSize.
Proof. exact (no_panic _ _ _ ex_qrun). Defined.

Lemma queue_linearizable_witness :
  spec_trace ([], false) [EvEnqueue ex_frame true; EvClose; EvEnqueue ex_frame false] =
    Some ([ex_frame], true).
Proof. exact (queue_linearizable _ _ _ ex_qrun). Defined.
