(* ===== verification/Relay.v ===== *)
(** * The relay server (src/internal/relay: hub.go, client.go, control.go, handler.go)

    The server is a set of goroutines over shared state.  [world] is that state: the
    heap of [Client]s (a hub entry and a goroutine hold the same pointer, so clients are
    referred to by [ref]), the [Hub], the pairing codes and the device store, together
    with the inputs the environment supplies (clock, random source, engine faults,
    incoming frames, outcomes of network calls).

    A method is a [prog]: a sequence of actions [op], each of which one lock section, one
    channel operation, one store call or one socket call performs atomically; that
    [enqueue] and [close] are such units is proved in SendQueue.v.  [run] executes a
    [prog] alone; RelaySystem.v interleaves them.  A goroutine is a [code]: a [prog],
    possibly with a loop. *)

From S2P Require Import Prelude Database Pairing PairCodes Json Wire SendQueue.

(** ** State *)

Abbreviation ref := nat.

Record Client := MkClient {
  DeviceID : string;
  pairedWith : string;
  closed : bool;                       (* [closed] and the closing of [send] *)
  send : list wsFrame;
  conn_open : bool;
  written : list (msgKind * bytes);    (* frames the peer of the socket was sent *)
  maxMessageBytes : Z
}.

Record Hub := MkHub {
  clients : gmap string ref;
  Register : list ref;
  Unregister : list ref;
  pairCodes : pairCodeRegistry;
  startAt : Z
}.

Definition channelSize : nat := 64.

Definition NewHub (now : Z) : Hub := MkHub ∅ [] [] newPairCodeRegistry now.

Inductive goroutine := GTouchLastSeen (id : string) | GWritePump (r : ref).

Record oracle := Oracle {
  o_now : Z;
  o_faults : list bool;                            (* store failures, see Database.v *)
  o_rand : list (option bytes);                    (* [rand.Read] *)
  o_coin : list bool;                              (* socket outcomes, ready channels *)
  o_frames : list (option (msgKind * bytes))       (* [ReadMessage]; [None] is an error *)
}.

Record world := World {
  heap : gmap ref Client;
  hub : Hub;
  db : table;
  spawned : list goroutine;
  env : oracle
}.

Definition set_hub (h : Hub) (w : world) : world := World (heap w) h (db w) (spawned w) (env w).
Definition set_client (r : ref) (c : Client) (w : world) : world :=
  World (<[r := c]> (heap w)) (hub w) (db w) (spawned w) (env w).
Definition set_env (o : oracle) (w : world) : world :=
  World (heap w) (hub w) (db w) (spawned w) o.
Definition set_clients (m : gmap string ref) (h : Hub) : Hub :=
  MkHub m (Register h) (Unregister h) (pairCodes h) (startAt h).
Definition set_register (q : list ref) (h : Hub) : Hub :=
  MkHub (clients h) q (Unregister h) (pairCodes h) (startAt h).
Definition set_unregister (q : list ref) (h : Hub) : Hub :=
  MkHub (clients h) (Register h) q (pairCodes h) (startAt h).
Definition set_pairCodes (p : pairCodeRegistry) (h : Hub) : Hub :=
  MkHub (clients h) (Register h) (Unregister h) p (startAt h).

(** ** The operations of a client *)

Definition NewClient (deviceID pairedDeviceID : string) (maxBytes : Z) : Client :=
  MkClient deviceID pairedDeviceID false [] true [] maxBytes.

Definition Peer (c : Client) : string * bool := (pairedWith c, bool_decide (pairedWith c ≠ "")).

Definition setPeer (id : string) (c : Client) : Client :=
  MkClient (DeviceID c) id (closed c) (send c) (conn_open c) (written c) (maxMessageBytes c).

Definition with_send (q : list wsFrame) (c : Client) : Client :=
  MkClient (DeviceID c) (pairedWith c) (closed c) q (conn_open c) (written c) (maxMessageBytes c).

Definition enqueue (frame : wsFrame) (c : Client) : bool * Client :=
  if closed c then (false, c)
  else if decide (length (send c) < sendBufferSize) then (true, with_send (send c ++ [frame]) c)
  else (false, c).

Definition close_conn (c : Client) : Client :=
  MkClient (DeviceID c) (pairedWith c) (closed c) (send c) false (written c) (maxMessageBytes c).

Definition close (c : Client) : Client :=
  MkClient (DeviceID c) (pairedWith c) true (send c) false (written c) (maxMessageBytes c).

Definition write_frame (k : msgKind) (d : bytes) (c : Client) : Client :=
  MkClient (DeviceID c) (pairedWith c) (closed c) (send c) (conn_open c)
    (written c ++ [(k, d)]) (maxMessageBytes c).

(** ** Atomic actions *)

(** What [writePump] wakes up for. *)
Inductive wakeup := WFrame (f : wsFrame) | WClosed | WPing.

Inductive op : Type → Type :=
  | OGetClient (id : string) : op (option ref)
  | ODeviceID (r : ref) : op string
  | OPeer (r : ref) : op (string * bool)
  | OSetPeer (r : ref) (id : string) : op unit
  | OEnqueue (r : ref) (f : wsFrame) : op bool
  | OClose (r : ref) : op unit
  | ODb {A : Type} (m : DBM A) : op (dberr + A)
  | OPut (code requester : string) (ttl : Z) : op unit
  | OTake (code : string) : op (string * bool * bool)
  | ORand : op (option bytes)
  | OCoin : op bool
  | ONow : op Z
  | ORegister (r : ref) : op unit
  | OUnregister (r : ref) : op unit
  | OSelect : op (bool * ref)
  | OInsert (r : ref) : op unit
  | ORemove (r : ref) : op bool
  | ONewClient (deviceID pairedDeviceID : string) (maxBytes : Z) : op ref
  | ORead (r : ref) : op (option (msgKind * bytes))
  | OWake (r : ref) : op wakeup
  | OWrite (r : ref) (k : msgKind) (d : bytes) : op bool
  | OConnClose (r : ref) : op unit
  | OPing (r : ref) : op bool
  | OGo (g : goroutine) : op unit.

Definition coin (w : world) : bool * world :=
  match o_coin (env w) with
  | [] => (true, w)
  | b :: l => (b, set_env (Oracle (o_now (env w)) (o_faults (env w)) (o_rand (env w)) l
                             (o_frames (env w))) w)
  end.

Definition with_client {B} (r : ref) (w : world) (f : Client → option (B * world))
    : option (B * world) := heap w !! r ≫= f.

(** An unused pointer. *)
Definition alloc (h : gmap ref Client) : ref := S (max_list (map_to_list h).*1).

(** [None]: the action cannot proceed yet (a full or an empty channel, no frame). *)
Definition exec_op {B} (o : op B) (w : world) : option (B * world) :=
  match o in op B return option (B * world) with
  | OGetClient id => Some (clients (hub w) !! id, w)
  | ODeviceID r => with_client r w (λ c, Some (DeviceID c, w))
  | OPeer r => with_client r w (λ c, Some (Peer c, w))
  | OSetPeer r id => with_client r w (λ c, Some (tt, set_client r (setPeer id c) w))
  | OEnqueue r f =>
      with_client r w (λ c, let '(b, c') := enqueue f c in Some (b, set_client r c' w))
  | OClose r => with_client r w (λ c, Some (tt, set_client r (close c) w))
  | ODb m =>
      let '(x, c) := m (Conn (db w) (o_faults (env w))) in
      Some (x, World (heap w) (hub w) (devices c) (spawned w)
                 (Oracle (o_now (env w)) (faults c) (o_rand (env w)) (o_coin (env w))
                    (o_frames (env w))))
  | OPut code requester ttl =>
      Some (tt, set_hub (set_pairCodes
        (Put (o_now (env w)) code requester ttl (pairCodes (hub w))) (hub w)) w)
  | OTake code =>
      let '(x, p) := Take (o_now (env w)) code (pairCodes (hub w)) in
      Some (x, set_hub (set_pairCodes p (hub w)) w)
  | ORand =>
      match o_rand (env w) with
      | [] => Some (None, w)
      | x :: l => Some (x, set_env (Oracle (o_now (env w)) (o_faults (env w)) l
                                      (o_coin (env w)) (o_frames (env w))) w)
      end
  | OCoin => Some (coin w)
  | ONow => Some (o_now (env w), w)
  | ORegister r =>
      if decide (length (Register (hub w)) < channelSize)
      then Some (tt, set_hub (set_register (Register (hub w) ++ [r]) (hub w)) w) else None
  | OUnregister r =>
      if decide (length (Unregister (hub w)) < channelSize)
      then Some (tt, set_hub (set_unregister (Unregister (hub w) ++ [r]) (hub w)) w) else None
  | OSelect =>
      match Register (hub w), Unregister (hub w) with
      | [], [] => None
      | r :: q, [] => Some ((true, r), set_hub (set_register q (hub w)) w)
      | [], r :: q => Some ((false, r), set_hub (set_unregister q (hub w)) w)
      | r :: q, r' :: q' =>
          let '(b, w') := coin w in
          if b then Some ((true, r), set_hub (set_register q (hub w)) w')
          else Some ((false, r'), set_hub (set_unregister q' (hub w)) w')
      end
  | OInsert r =>
      with_client r w (λ c,
        Some (tt, set_hub (set_clients (<[DeviceID c := r]> (clients (hub w))) (hub w)) w))
  | ORemove r =>
      with_client r w (λ c,
        if decide (clients (hub w) !! DeviceID c = Some r)
        then Some (true, set_hub (set_clients (delete (DeviceID c) (clients (hub w))) (hub w)) w)
        else Some (false, w))
  | ONewClient deviceID pairedDeviceID maxBytes =>
      let r := alloc (heap w) in
      Some (r, set_client r (NewClient deviceID pairedDeviceID maxBytes) w)
  | ORead r =>
      with_client r w (λ c,
        if conn_open c then
          match o_frames (env w) with
          | [] => None
          | x :: l =>
              let w' := set_env (Oracle (o_now (env w)) (o_faults (env w)) (o_rand (env w))
                                   (o_coin (env w)) l) w in
              match x with
              | Some (k, d) =>
                  if decide (0 < maxMessageBytes c < Z.of_nat (slen d))%Z
                  then Some (None, w')                     (* [SetReadLimit] exceeded *)
                  else Some (Some (k, d), w')
              | None => Some (None, w')
              end
          end
        else Some (None, w))
  | OWake r =>
      with_client r w (λ c,
        match send c with
        | f :: q =>
            let '(b, w') := coin w in
            if b then Some (WFrame f, set_client r (with_send q c) w') else Some (WPing, w')
        | [] =>
            let '(b, w') := coin w in
            if b then if closed c then Some (WClosed, w') else None else Some (WPing, w')
        end)
  | OWrite r k d =>
      with_client r w (λ c,
        let '(b, w') := coin w in
        if conn_open c && b then Some (true, set_client r (write_frame k d c) w')
        else Some (false, w'))
  | OConnClose r => with_client r w (λ c, Some (tt, set_client r (close_conn c) w))
  | OPing r => with_client r w (λ c, let '(b, w') := coin w in Some (conn_open c && b, w'))
  | OGo g => Some (tt, World (heap w) (hub w) (db w) (spawned w ++ [g]) (env w))
  end.

(** ** Programs *)

Inductive prog (A : Type) : Type :=
  | Ret (x : A)
  | Op {B : Type} (o : op B) (k : B → prog A).
Arguments Ret {A} x.
Arguments Op {A B} o k.

Fixpoint prog_bind {A B} (f : A → prog B) (p : prog A) : prog B :=
  match p with
  | Ret x => f x
  | Op o k => Op o (λ b, prog_bind f (k b))
  end.

#[global] Instance prog_ret : MRet prog := λ A x, Ret x.
#[global] Instance prog_mbind : MBind prog := λ A B f p, prog_bind f p.

Definition call {B} (o : op B) : prog B := Op o Ret.

(** Executes a program alone; [None] if it has to wait for another goroutine. *)
Fixpoint run {A} (p : prog A) (w : world) : option (A * world) :=
  match p with
  | Ret x => Some (x, w)
  | Op o k => '(b, w') ← exec_op o w; run (k b) w'
  end.

Definition skip : prog unit := Ret tt.

(** *** Control channel *)

Definition sendJSON (c : ref) (m : controlMessage) : prog unit :=
  _ ← call (OEnqueue c (WsFrame TextMessage (Marshal m) false)); skip.

Definition error_message (code text : string) : controlMessage :=
  ControlMessage "error" 0 "" [] "" code 0 "" "" None text.

Definition sendError (c : ref) (code text : string) : prog unit :=
  sendJSON c (error_message code text).

Definition sendErrorAndClose (c : ref) (code text : string) : prog unit :=
  ok ← call (OEnqueue c (WsFrame TextMessage (Marshal (error_message code text)) true));
  if ok : bool then skip else call (OClose c).

Definition peer_status (about : string) (online : bool) : controlMessage :=
  ControlMessage "peer_status" 0 "" [] "" "" 0 about "" (Some online) "".

Definition key_of (x : dberr + Device) : string :=
  match x with inl _ => "" | inr d => StaticKey d end.

Definition sendWelcome (c : ref) (device : Device) : prog unit :=
  peers ← match PairedWith device with
          | None => Ret []
          | Some p => x ← call (ODb (GetDeviceByID p)); Ret [PeerInfo p (key_of x)]
          end;
  id ← call (ODeviceID c);
  _ ← sendJSON c (ControlMessage "welcome" ProtocolVersion id peers "" "" 0 "" "" None "");
  match PairedWith device with
  | None => skip
  | Some p =>
      online ← call (OGetClient p);
      sendJSON c (peer_status p (bool_decide (is_Some online)))
  end.

Definition handleAnnounceKey (c : ref) (msg : controlMessage) : prog unit :=
  if decide (cm_StaticKey msg = "") then
    sendError c "malformed" "announce_key requires static_key"
  else
    id ← call (ODeviceID c);
    x ← call (ODb (SetStaticKeyIfUnset id (cm_StaticKey msg)));
    match x with
    | inr _ => skip
    | inl ErrStaticKeyMismatch =>
        sendErrorAndClose c "key_mismatch"
          "announced static key does not match the key locked on first connection"
    | inl _ => sendError c "internal" "internal error"
    end.

Definition pair_code_message (code : string) : controlMessage :=
  ControlMessage "pair_code" 0 "" [] "" code (PairingCodeTTL / Second)%Z "" "" None "".

Definition handlePairRequest (c : ref) : prog unit :=
  b ← call ORand;
  match GeneratePairingCode b with
  | None => sendError c "internal" "internal error"
  | Some code =>
      id ← call (ODeviceID c);
      _ ← call (OPut code id PairingCodeTTL);
      sendJSON c (pair_code_message code)
  end.

Definition pair_complete_message (code peerID peerKey : string) : controlMessage :=
  ControlMessage "pair_complete" 0 "" [] "" code 0 peerID peerKey None "".

(** The two sides of a new link are told, and route to each other from now on. *)
Definition announce_pair (c : ref) (id code requesterID : string) : prog unit :=
  me ← call (ODb (GetDeviceByID id));
  requester ← call (ODb (GetDeviceByID requesterID));
  _ ← call (OSetPeer c requesterID);
  _ ← sendJSON c (pair_complete_message code requesterID (key_of requester));
  o ← call (OGetClient requesterID);
  match o with
  | None => skip
  | Some r =>
      _ ← call (OSetPeer r id);
      sendJSON r (pair_complete_message code id (key_of me))
  end.

Definition pair_error (c : ref) (e : dberr) : prog unit :=
  match e with
  | ErrAlreadyPaired => sendError c "already_paired" "one of the devices is already paired"
  | ErrNotFound => sendError c "invalid_code" "requesting device no longer exists"
  | _ => sendError c "internal" "internal error"
  end.

Definition handlePairAccept (c : ref) (msg : controlMessage) : prog unit :=
  if decide (cm_Code msg = "") then sendError c "malformed" "pair_accept requires code"
  else
    t ← call (OTake (cm_Code msg));
    match t with
    | (_, true, false) => sendError c "code_expired" "pairing code has expired"
    | (_, false, false) => sendError c "invalid_code" "unknown pairing code"
    | (requesterID, _, true) =>
        id ← call (ODeviceID c);
        if decide (requesterID = id) then
          sendError c "invalid_code" "cannot pair with yourself"
        else
          ord ← call OCoin;
          x ← call (ODb (PairDevices ord requesterID id));
          match x with
          | inl e => pair_error c e
          | inr _ => announce_pair c id (cm_Code msg) requesterID
          end
    end.

Definition unpaired_message (peerID : string) : controlMessage :=
  ControlMessage "unpaired" 0 "" [] "" "" 0 peerID "" None "".

Definition handleUnpair (c : ref) : prog unit :=
  '(peerID, wasPaired) ← call (OPeer c);
  id ← call (ODeviceID c);
  x ← call (ODb (UnpairDevice id));
  match x with
  | inl _ => sendError c "internal" "internal error"
  | inr _ =>
      _ ← call (OSetPeer c "");
      _ ← sendJSON c (unpaired_message peerID);
      if wasPaired : bool then
        o ← call (OGetClient peerID);
        match o with
        | None => skip
        | Some r => _ ← call (OSetPeer r ""); sendJSON r (unpaired_message id)
        end
      else skip
  end.

Definition handleControl (c : ref) (raw : bytes) : prog unit :=
  match Unmarshal raw with
  | None => sendError c "malformed" "invalid JSON control frame"
  | Some msg =>
      if decide (cm_Type msg = "announce_key") then handleAnnounceKey c msg
      else if decide (cm_Type msg = "pair_request") then handlePairRequest c
      else if decide (cm_Type msg = "pair_accept") then handlePairAccept c msg
      else if decide (cm_Type msg = "unpair") then handleUnpair c
      else if decide (cm_Type msg = "ping") then sendJSON c (message "pong")
      else skip
  end.

(** *** Hub *)

Definition GetClient (id : string) : prog (option ref) := call (OGetClient id).

Definition notifyPeerStatus (target about : string) (online : bool) : prog unit :=
  o ← GetClient target;
  match o with
  | None => skip
  | Some t => sendJSON t (peer_status about online)
  end.

(** Only [Run] changes [clients], so the read under its lock and the write under the same
    lock are not separated by another writer. *)
Definition run_register (r : ref) : prog unit :=
  id ← call (ODeviceID r);
  old ← call (OGetClient id);
  _ ← match old with None => skip | Some o => call (OClose o) end;
  _ ← call (OInsert r);
  '(peerID, paired) ← call (OPeer r);
  if paired : bool then notifyPeerStatus peerID id true else skip.

Definition run_unregister (r : ref) : prog unit :=
  wasCurrent ← call (ORemove r);
  if wasCurrent : bool then
    '(peerID, paired) ← call (OPeer r);
    if paired : bool then
      id ← call (ODeviceID r);
      notifyPeerStatus peerID id false
    else skip
  else skip.

(** One turn of the [select] loop. *)
Definition Run_body : prog bool :=
  '(is_register, r) ← call OSelect;
  _ ← if is_register : bool then run_register r else run_unregister r;
  Ret true.

Record Message := MkMessage { From : string; Payload : bytes }.

Definition Route (msg : Message) (pairedDeviceID : string) : prog unit :=
  o ← call (OGetClient pairedDeviceID);
  match o with
  | None => skip
  | Some peer =>
      ok ← call (OEnqueue peer (WsFrame BinaryMessage (Payload msg) false));
      if ok : bool then skip
      else _ ← call (OClose peer); call (OUnregister peer)
  end.

Definition ConnectedDevices (h : Hub) : list string := (map_to_list (clients h)).*1.
Definition ConnectedCount (h : Hub) : Z := Z.of_nat (size (clients h)).
Definition Uptime (now : Z) (h : Hub) : Z := now - startAt h.

(** *** Pumps *)

(** One turn of [readPump]; [false] leaves the loop. *)
Definition readPump_body (c : ref) : prog bool :=
  x ← call (ORead c);
  match x with
  | None => Ret false
  | Some (TextMessage, payload) => _ ← handleControl c payload; Ret true
  | Some (BinaryMessage, payload) =>
      '(peerID, ok) ← call (OPeer c);
      if ok : bool then
        id ← call (ODeviceID c);
        _ ← Route (MkMessage id payload) peerID; Ret true
      else Ret true
  end.

Definition writePump_body (c : ref) : prog bool :=
  e ← call (OWake c);
  match e with
  | WClosed => Ret false
  | WFrame f =>
      ok ← call (OWrite c (kind f) (data f));
      if ok : bool then
        if closeAfter f then _ ← call (OConnClose c); Ret false else Ret true
      else Ret false
  | WPing => call (OPing c)
  end.

(** The deferred calls of [Pump]. *)
Definition Pump_end (c : ref) : prog unit :=
  _ ← call (OUnregister c);
  call (OClose c).

(** *** The upgrade handler *)

Inductive outcome := HttpError (status : Z) (body : string) | UpgradeFailed | Connected (c : ref).

(** [deviceID] and [token] are the values of the query parameters; everything up to the
    call of [Pump]. *)
Definition Handler (maxBytes : Z) (deviceID token : string) : prog outcome :=
  if decide (deviceID = "" ∨ token = "") then Ret (HttpError 400 "missing device_id or token")
  else
    x ← call (ODb (GetDeviceByID deviceID));
    match x with
    | inl _ => Ret (HttpError 401 "unauthorized")
    | inr device =>
        if decide (DeviceToken device ≠ token) then Ret (HttpError 401 "unauthorized")
        else
          now ← call ONow;
          if match ExpiresAt device with Some e => After now e | None => false end
          then Ret (HttpError 401 "pairing code expired")
          else
            upgraded ← call OCoin;
            if upgraded : bool then
              c ← call (ONewClient deviceID (default "" (PairedWith device)) maxBytes);
              _ ← call (ORegister c);
              _ ← sendWelcome c device;
              _ ← call (OGo (GTouchLastSeen deviceID));
              Ret (Connected c)
            else Ret UpgradeFailed
    end.

(** ** Goroutines *)

(** A program, possibly looping. *)
Inductive code :=
  | CDone
  | CStep {B : Type} (o : op B) (k : B → code)
  | CLoop (body : prog bool) (after : code).

Fixpoint andThen {A} (p : prog A) (k : A → code) : code :=
  match p with
  | Ret x => k x
  | Op o f => CStep o (λ b, andThen (f b) k)
  end.

Definition Pump (c : ref) : code :=
  CStep (OGo (GWritePump c)) (λ _,
    CLoop (readPump_body c) (andThen (Pump_end c) (λ _, CDone))).

Definition serve (maxBytes : Z) (deviceID token : string) : code :=
  andThen (Handler maxBytes deviceID token) (λ o,
    match o with Connected c => Pump c | _ => CDone end).

Definition Hub_Run : code := CLoop Run_body CDone.

Definition writePump (c : ref) : code := CLoop (writePump_body c) CDone.

Definition touch (id : string) : code :=
  andThen (now ← call ONow; call (ODb (TouchLastSeen now id))) (λ _, CDone).

Definition go_code (g : goroutine) : code :=
  match g with
  | GTouchLastSeen id => touch id
  | GWritePump r => writePump r
  end.
