(* ===== verification/Proxy.v ===== *)
(** * The harness's proxy (src/interop/harness/proxy.go)

    Between the shims and the relay: frames pass unchanged, except that a rule can replace
    the announced key in the next [pair_complete] a device is sent, and a device's
    connection can be severed.  A proxied connection is two sockets, referred to by the
    number of its [proxyConn]; each pump's turn is a function. *)

From S2P Require Import Prelude Json AnyJson Wire SendQueue Relay.

(** ** State *)

(** The two sockets of a connection, with what was written to each. *)
Record proxyConn := ProxyConn {
  client_open : bool;
  upstream_open : bool;
  to_client : list (msgKind * bytes);
  to_upstream : list (msgKind * bytes)
}.

Record Proxy := MkProxy {
  upstream : string;
  address : string;                        (* of the listener *)
  rules : gmap string string;              (* device -> key to put in *)
  conns : gmap string nat;                 (* device -> its connection *)
  sockets : gmap nat proxyConn
}.

Definition with_rules (m : gmap string string) (p : Proxy) : Proxy :=
  MkProxy (upstream p) (address p) m (conns p) (sockets p).
Definition with_conns (m : gmap string nat) (p : Proxy) : Proxy :=
  MkProxy (upstream p) (address p) (rules p) m (sockets p).
Definition with_sockets (m : gmap nat proxyConn) (p : Proxy) : Proxy :=
  MkProxy (upstream p) (address p) (rules p) (conns p) m.

(** [listen] is the listener's address, [None] if listening failed. *)
Definition NewProxy (up : string) (listen : option string) : option Proxy :=
  addr ← listen; Some (MkProxy up addr ∅ ∅ ∅).

Definition URL (p : Proxy) : string := "ws://" +:+ address p +:+ "/ws".

Definition upstreamURL (rawQuery : string) (p : Proxy) : string := upstream p +:+ "?" +:+ rawQuery.

(** ** Operations *)

Definition RewriteNextPairComplete (deviceID fakeStaticKeyB64 : string) (p : Proxy) : Proxy :=
  with_rules (<[deviceID := fakeStaticKeyB64]> (rules p)) p.

Definition is_pair_complete (frame : anymap) : bool :=
  is_str "type" "pair_complete" frame.

Definition maybeRewrite (deviceID : string) (msgType : msgKind) (data : bytes) (p : Proxy)
    : bytes * Proxy :=
  match msgType with
  | BinaryMessage => (data, p)
  | TextMessage =>
      match rules p !! deviceID with
      | None => (data, p)
      | Some fake =>
          match UnmarshalMap data with
          | None => (data, p)
          | Some frame =>
              if is_pair_complete frame then
                (MarshalMap (put "peer_static_key" (JStr fake) frame),
                 with_rules (delete deviceID (rules p)) p)
              else (data, p)
          end
      end
  end.

(** [upgraded] and [dialed] are the outcomes of the upgrade and of dialing the relay; the
    result is the connection whose pumps start. *)
Definition handleWS (deviceID : string) (upgraded dialed : bool) (p : Proxy) : option nat * Proxy :=
  if negb upgraded then (None, p)
  else if negb dialed then (None, p)
  else let n := S (max_list (map_to_list (sockets p)).*1) in
       (Some n, with_conns (<[deviceID := n]> (conns p))
                  (with_sockets (<[n := ProxyConn true true [] []]> (sockets p)) p)).

(** The deferred clean-up, once both pumps have returned. *)
Definition handleWS_end (deviceID : string) (pc : nat) (p : Proxy) : Proxy :=
  if decide (conns p !! deviceID = Some pc) then with_conns (delete deviceID (conns p)) p else p.

Definition close_side (client : bool) (c : proxyConn) : proxyConn :=
  if client then ProxyConn false (upstream_open c) (to_client c) (to_upstream c)
  else ProxyConn (client_open c) false (to_client c) (to_upstream c).

Definition write_side (client : bool) (m : msgKind * bytes) (c : proxyConn) : proxyConn :=
  if client then ProxyConn (client_open c) (upstream_open c) (to_client c ++ [m]) (to_upstream c)
  else ProxyConn (client_open c) (upstream_open c) (to_client c) (to_upstream c ++ [m]).

Definition on_socket (pc : nat) (f : proxyConn → proxyConn) (p : Proxy) : Proxy :=
  with_sockets (alter f pc (sockets p)) p.

(** One turn of [pump]: [read] is what the source's [ReadMessage] returns, [wrote] whether
    the destination takes the frame; [false] ends the loop.  With [fromUpstream] the
    destination is the client. *)
Definition pump_turn (deviceID : string) (pc : nat) (fromUpstream : bool)
    (read : option (msgKind * bytes)) (wrote : bool) (p : Proxy) : bool * Proxy :=
  match read with
  | None => (false, on_socket pc (close_side fromUpstream) p)
  | Some (msgType, data) =>
      let '(data, p) := if fromUpstream then maybeRewrite deviceID msgType data p else (data, p) in
      if wrote then (true, on_socket pc (write_side fromUpstream (msgType, data)) p)
      else (false, on_socket pc (close_side (negb fromUpstream)) p)
  end.

Definition SeverConnection (deviceID : string) (p : Proxy) : Proxy :=
  match conns p !! deviceID with
  | None => p
  | Some pc => on_socket pc (close_side false ∘ close_side true) p
  end.

(** ** Properties *)

(** The frames a device's client is sent for the frames the relay sent. *)
Fixpoint forward (deviceID : string) (fs : list (msgKind * bytes)) (p : Proxy)
    : list (msgKind * bytes) * Proxy :=
  match fs with
  | [] => ([], p)
  | (k, d) :: fs =>
      let '(d', p) := maybeRewrite deviceID k d p in
      let '(out, p) := forward deviceID fs p in
      ((k, d') :: out, p)
  end.

(** The frames a rule is waiting for. *)
Definition matches (f : msgKind * bytes) : bool :=
  match f with
  | (TextMessage, d) => match UnmarshalMap d with Some m => is_pair_complete m | None => false end
  | (BinaryMessage, _) => false
  end.

Definition with_key (fake : string) (d : bytes) : bytes :=
  match UnmarshalMap d with
  | Some m => MarshalMap (put "peer_static_key" (JStr fake) m)
  | None => d
  end.

Lemma maybeRewrite_spec id k d p :
  maybeRewrite id k d p =
    match rules p !! id with
    | Some fake =>
        if matches (k, d) then (with_key fake d, with_rules (delete id (rules p)) p) else (d, p)
    | None => (d, p)
    end.
Proof.
  unfold maybeRewrite, matches, with_key. destruct k; [|by destruct (rules p !! id)].
  destruct (rules p !! id); [|done]. by destruct (UnmarshalMap d) as [m|]; [destruct (is_pair_complete m)|].
Qed.

Lemma forward_no_rule id fs p : rules p !! id = None → forward id fs p = (fs, p).
Proof.
  intros Hr. induction fs as [|[k d] fs IH]; [done|]. cbn [forward].
  by rewrite maybeRewrite_spec, Hr, IH.
Qed.

Lemma UnmarshalMap_plain l :
  Forall plain l → UnmarshalMap (of_chars (jprint (JObj l))) = Some (putAll l []).
Proof.
  intros Hp. destruct (plain_json l Hp) as (H1 & H2 & H3). unfold UnmarshalMap.
  rewrite Parse_print, H3; [|done|etrans; [exact H2|done]]. cbn [mbind option_bind anyval].
  by rewrite anyval_plain.
Qed.

Lemma Unmarshal_plain l :
  Forall plain l → Unmarshal (MarshalMap l) = decode_message (JObj l).
Proof.
  intros Hp. destruct (plain_json l Hp) as (H1 & H2 & H3). unfold Unmarshal, MarshalMap.
  by rewrite Parse_print, H3; [|done|etrans; [exact H2|done]].
Qed.

Lemma plain_omit k s : valid_utf8 k → valid_utf8 s → Forall plain (omit_str k s).
Proof. intros. unfold omit_str. case_decide; [done|]. apply Forall_singleton. by split. Qed.

Lemma plain_str k s : valid_utf8 k → valid_utf8 s → plain (k, JStr s).
Proof. by split. Qed.

(** A [pair_complete] of the relay with another key in it. *)
Lemma rewritten_frame code id key fake :
  valid_utf8 code → valid_utf8 id → valid_utf8 key → valid_utf8 fake →
  let d := Marshal (pair_complete_message code id key) in
  matches (TextMessage, d) = true ∧
  Unmarshal (with_key fake d) = Some (pair_complete_message code id fake).
Proof.
  intros Hc Hi Hk Hf d.
  set (fields := ("type", JStr "pair_complete") ::
    (omit_str "code" code ++ omit_str "peer_id" id ++ omit_str "peer_static_key" key)).
  assert (d = of_chars (jprint (JObj fields))) as Ed.
  { unfold d, Marshal, message_fields, fields. cbn [pair_complete_message cm_Type cm_Code cm_PeerID
      cm_PeerStaticKey cm_ProtocolVersion cm_DeviceID cm_Peers cm_StaticKey cm_ExpiresIn cm_Online
      cm_Message omit_bool omit_peers app]. do 3 f_equal. unfold omit_int, omit_str.
    repeat case_decide; done. }
  assert (Forall plain fields) as Hp.
  { apply Forall_cons_2; [apply plain_str; valid_text|].
    repeat apply Forall_app_2; (apply plain_omit; [valid_text|done]). }
  set (fields' := omit_str "code" code ++ omit_str "peer_id" id ++
    [("peer_static_key", JStr fake); ("type", JStr "pair_complete")]).
  assert (is_pair_complete (putAll fields []) = true ∧
    put "peer_static_key" (JStr fake) (putAll fields []) = fields' ∧
    decode_message (JObj fields') = Some (pair_complete_message code id fake)) as (H1 & H2 & H3).
  { unfold fields, fields', omit_str. repeat case_decide; subst; split_and!; vm_compute; reflexivity. }
  assert (Forall plain fields') as Hp'.
  { repeat apply Forall_app_2; [apply plain_omit; [valid_text|done]..|].
    repeat apply Forall_cons_2; [apply plain_str; [valid_text|done]|apply plain_str; valid_text|done]. }
  unfold matches, with_key. rewrite Ed, UnmarshalMap_plain, H2 by done.
  split; [done|]. by rewrite Unmarshal_plain.
Qed.

(** The proxy is transparent and its rule fires once.  Without a rule for a device, what
    the relay sends reaches the device's client unchanged.  With a rule, everything up to the
    first [pair_complete] passes unchanged, that frame is read by the client as the same
    message with the rule's key in place of the announced one, everything after it passes
    unchanged, and the rule is gone; rules of other devices stay. *)
Theorem proxy_single_shot id fake pre code peer key post p :
  rules p !! id = Some fake → existsb matches pre = false →
  valid_utf8 code → valid_utf8 peer → valid_utf8 key → valid_utf8 fake →
  let d := Marshal (pair_complete_message code peer key) in
  ∃ d' p', forward id (pre ++ (TextMessage, d) :: post) p = (pre ++ (TextMessage, d') :: post, p') ∧
    Unmarshal d' = Some (pair_complete_message code peer fake) ∧
    rules p' = delete id (rules p) ∧ conns p' = conns p ∧ sockets p' = sockets p ∧
    (∀ fs, forward id fs p' = (fs, p')) ∧
    (∀ id' fs, rules p !! id' = None → forward id' fs p = (fs, p)).
Proof.
  intros Hr Hpre Hc Hp Hk Hf d. destruct (rewritten_frame code peer key fake Hc Hp Hk Hf) as [Hm Hu].
  fold d in Hm, Hu. exists (with_key fake d), (with_rules (delete id (rules p)) p).
  assert (∀ fs, existsb matches fs = false → ∀ tl, forward id (fs ++ tl) p =
    (fs ++ (forward id tl p).1, (forward id tl p).2)) as Happ.
  { intros fs Hfs tl. induction fs as [|[k x] fs IH]; [apply surjective_pairing|].
    cbn [existsb] in Hfs. apply orb_false_iff in Hfs as [Hx Hfs]. cbn [app forward].
    rewrite maybeRewrite_spec, Hr, Hx, IH by done. done. }
  split_and!; try done.
  - rewrite Happ by done. cbn [forward]. rewrite maybeRewrite_spec, Hr, Hm.
    rewrite forward_no_rule; [done|]. simpl. by rewrite lookup_delete_eq.
  - intros fs. apply forward_no_rule. simpl. by rewrite lookup_delete_eq.
  - intros id' fs Hn. by apply forward_no_rule.
Qed.

Definition ex_proxy : Proxy :=
  RewriteNextPairComplete "B" "ZmFrZQ==" (MkProxy "ws://127.0.0.1:1/ws" "127.0.0.1:2" ∅ ∅ ∅).

Lemma proxy_single_shot_witness :
  let d := Marshal (pair_complete_message "123456" "A" "a2V5") in
  ∃ d' p', forward "B" [(BinaryMessage, "x"); (TextMessage, d); (TextMessage, d)] ex_proxy =
      ([(BinaryMessage, "x"); (TextMessage, d'); (TextMessage, d)], p') ∧
    Unmarshal d' = Some (pair_complete_message "123456" "A" "ZmFrZQ==").
Proof.
  destruct (proxy_single_shot "B" "ZmFrZQ==" [(BinaryMessage, "x")] "123456" "A" "a2V5"
    [(TextMessage, Marshal (pair_complete_message "123456" "A" "a2V5"))] ex_proxy)
    as (d' & p' & H1 & H2 & _); [reflexivity|reflexivity|valid_text..|].
  exists d', p'. exact (conj H1 H2).
Defined.
