(* ===== verification/RelaySystem.v ===== *)
(** * All interleavings of the relay server

    [sys_step] lets any goroutine of the server perform its next action, any HTTP request
    arrive, the environment change, and any other user of the device store (API, admin
    page, command line) complete an operation.  The invariants below hold in every state
    reached that way.

    What the relay needs of the store is the class [StoreInvariant]: a table property
    that store calls keep.  The system theorem is proved for any such property and
    instantiated with the ones Database.v provides. *)

From S2P Require Import Prelude Database Pairing PairCodes Json Wire SendQueue Relay.

(** ** The interface to the store *)

Class StoreInvariant (ok : dbop → Prop) (I : table → Prop) := {
  si_relay : ∀ o, (∀ id, o ≠ ODelete id) → ok o;
  si_call : ∀ fk t o fs, ok o → interrupted (o, fs) = false → I t → I (db_call fk t (o, fs))
}.

#[export] Instance links_sym_invariant : StoreInvariant (λ _, True) links_sym.
Proof. split; [done|]. intros. by apply links_sym_db_call. Qed.

#[export] Instance table_ok_invariant : StoreInvariant (λ _, True) table_ok.
Proof. split; [done|]. intros. by apply table_ok_db_call. Qed.

(** The key of device [x] is locked to [k]. *)
#[export] Instance locked_key_invariant x k :
  k ≠ "" → StoreInvariant (λ o, o ≠ ODelete x) (λ t, locked_key t x = k).
Proof.
  intros Hk. split; [naive_solver|]. intros fk t o fs Ho _ <-. by apply locked_key_db_call.
Qed.

(** ** The system *)

Definition state := (world * list code)%type.

Definition flush (w : world) : world := World (heap w) (hub w) (db w) [] (env w).

Section system.
Context (foreign_keys : bool) (ok : dbop → Prop).

Inductive sys_step : state → state → Prop :=
  | sys_act w ts i B (o : op B) k b w' :
      ts !! i = Some (CStep o k) → exec_op o w = Some (b, w') →
      sys_step (w, ts) (flush w', <[i := k b]> ts ++ (go_code <$> spawned w'))
  | sys_loop w ts i body after :
      ts !! i = Some (CLoop body after) →
      sys_step (w, ts)
        (w, <[i := andThen body (λ again, if again then CLoop body after else after)]> ts)
  | sys_request w ts maxBytes deviceID token :
      sys_step (w, ts) (w, ts ++ [serve maxBytes deviceID token])
  | sys_env w ts o :
      (o_now (env w) ≤ o_now o)%Z → sys_step (w, ts) (set_env o w, ts)
  | sys_store w ts o fs :
      ok o → interrupted (o, fs) = false →
      sys_step (w, ts) (World (heap w) (hub w) (db_call foreign_keys (db w) (o, fs))
                          (spawned w) (env w), ts).

Definition initial (now : Z) (t : table) (o : oracle) : state :=
  (World ∅ (NewHub now) t [] o, [Hub_Run]).

Inductive reachable (s0 : state) : state → Prop :=
  | reach_init : reachable s0 s0
  | reach_step s s' : reachable s0 s → sys_step s s' → reachable s0 s'.
End system.

(** ** The world invariant *)

Record wf_world (w : world) : Prop := {
  wf_clients : ∀ id r, clients (hub w) !! id = Some r →
                 ∃ c, heap w !! r = Some c ∧ DeviceID c = id;
  wf_queues : ∀ r, r ∈ Register (hub w) ++ Unregister (hub w) → is_Some (heap w !! r);
  wf_capacity : length (Register (hub w)) ≤ channelSize ∧
                length (Unregister (hub w)) ≤ channelSize;
  wf_send : ∀ r c, heap w !! r = Some c → length (send c) ≤ sendBufferSize
}.

Definition allocated (w : world) (r : ref) : Prop := is_Some (heap w !! r).

(** The pointers an action dereferences, and those it returns. *)
Definition op_uses {B} (o : op B) (K : ref → Prop) : Prop :=
  match o with
  | ODeviceID r | OPeer r | OSetPeer r _ | OEnqueue r _ | OClose r | ORegister r
  | OUnregister r | OInsert r | ORemove r | ORead r | OWake r | OWrite r _ _
  | OConnClose r | OPing r => K r
  | OGo (GWritePump r) => K r
  | _ => True
  end.

Definition op_gives {B} (o : op B) : B → ref → Prop :=
  match o in op B return B → ref → Prop with
  | OGetClient _ => λ b r, b = Some r
  | OSelect => λ b r, b.2 = r
  | ONewClient _ _ _ => λ b r, b = r
  | _ => λ _ _, False
  end.

(** A store call of the relay: a query, or one of the operations other than deletion. *)
Definition relay_call {A} (m : DBM A) : Prop :=
  ∀ c, devices (m c).2 = devices c ∨
       ∃ o, (∀ id, o ≠ ODelete id) ∧ devices (m c).2 = db_call true (devices c) (o, faults c).

Definition op_store {B} (o : op B) : Prop :=
  match o with ODb m => relay_call m | _ => True end.

Fixpoint safe {A} (K : ref → Prop) (p : prog A) (Q : (ref → Prop) → A → Prop) : Prop :=
  match p with
  | Ret x => Q K x
  | Op o k =>
      op_uses o K ∧ op_store o ∧ ∀ b, safe (λ r, K r ∨ op_gives o b r) (k b) Q
  end.

Inductive safe_code : (ref → Prop) → code → Prop :=
  | safe_done K : safe_code K CDone
  | safe_step (K : ref → Prop) B (o : op B) k :
      op_uses o K → op_store o →
      (∀ b, safe_code (λ r, K r ∨ op_gives o b r) (k b)) → safe_code K (CStep o k)
  | safe_loop (K : ref → Prop) body after :
      (∀ K' : ref → Prop, (∀ r, K r → K' r) → safe K' body (λ _ _, True)) →
      (∀ K' : ref → Prop, (∀ r, K r → K' r) → safe_code K' after) →
      safe_code K (CLoop body after).

Lemma safe_code_inv K c :
  safe_code K c →
  match c with
  | CDone => True
  | CStep o k => op_uses o K ∧ op_store o ∧ ∀ b, safe_code (λ r, K r ∨ op_gives o b r) (k b)
  | CLoop body after =>
      (∀ K' : ref → Prop, (∀ r, K r → K' r) → safe K' body (λ _ _, True)) ∧
      (∀ K' : ref → Prop, (∀ r, K r → K' r) → safe_code K' after)
  end.
Proof. by destruct 1. Qed.

(** ** Safety of programs is compositional *)

Lemma safe_ext {A} (K : ref → Prop) (p : prog A) (P Q : (ref → Prop) → A → Prop) :
  safe K p P → (∀ K' x, (∀ r, K r → K' r : Prop) → P K' x → Q K' x) → safe K p Q.
Proof.
  revert K. induction p as [x|B o k IH]; simpl; intros K Hp HQ; [by apply HQ|].
  destruct Hp as (Hu & Hs & Hk). split_and!; [done..|]. intros b.
  eapply IH; [apply Hk|]. intros K' x HK. apply HQ. auto.
Qed.

Lemma op_uses_mono {B} (o : op B) (K K' : ref → Prop) :
  (∀ r, K r → K' r) → op_uses o K → op_uses o K'.
Proof. intros HK. destruct o; simpl; auto. destruct g; auto. Qed.

Lemma safe_mono {A} (K K' : ref → Prop) (p : prog A) Q :
  (∀ r, K r → K' r) → safe K p (λ _ _, Q) → safe K' p (λ _ _, Q).
Proof.
  revert K K'. induction p as [x|B o k IH]; simpl; intros K K' HK; [done|].
  intros (Hu & Hs & Hk). split_and!; [by eapply op_uses_mono|done|].
  intros b. eapply IH; [|apply Hk]. naive_solver.
Qed.

Lemma safe_bind {A B} (K : ref → Prop) (p : prog A) (f : A → prog B) Q :
  safe K p (λ K' x, safe K' (f x) Q) → safe K (p ≫= f) Q.
Proof.
  revert K. induction p as [x|C o k IH]; simpl; intros K; [done|].
  intros (Hu & Hs & Hk). split_and!; [done..|]. intros b. apply IH, Hk.
Qed.

Lemma safe_code_mono (K K' : ref → Prop) c :
  (∀ r, K r → K' r) → safe_code K c → safe_code K' c.
Proof.
  intros HK Hc. revert K' HK. induction Hc as [K|K B o k Hu Hs Hk IH|K body after Hb Ha IH];
    intros K' HK; constructor; eauto using op_uses_mono.
  intros b. apply IH. naive_solver.
Qed.

Lemma safe_andThen {A} (K : ref → Prop) (p : prog A) k :
  safe K p (λ K' x, safe_code K' (k x)) → safe_code K (andThen p k).
Proof.
  revert K. induction p as [x|B o f IH]; simpl; intros K; [done|].
  intros (Hu & Hs & Hk). constructor; auto.
Qed.

Lemma safe_unroll (K : ref → Prop) body after :
  safe_code K (CLoop body after) →
  safe_code K (andThen body (λ again, if again then CLoop body after else after)).
Proof.
  intros Hc. destruct (safe_code_inv _ _ Hc) as [Hb Ha]. apply safe_andThen.
  eapply safe_ext; [by apply Hb|]. intros K' [] HK _; [|by apply Ha].
  by eapply safe_code_mono.
Qed.

(** ** Each action keeps the invariant *)

Lemma alloc_fresh h : h !! alloc h = None.
Proof.
  destruct (h !! alloc h) as [c|] eqn:E; [|done]. apply elem_of_map_to_list in E.
  assert (alloc h ∈ (map_to_list h).*1) as Hin by (apply list_elem_of_fmap; eexists (_, _); eauto).
  apply max_list_elem_of_le in Hin. unfold alloc in Hin. lia.
Qed.

Lemma wf_set_client w r c c' :
  wf_world w → heap w !! r = Some c → DeviceID c' = DeviceID c →
  length (send c') ≤ sendBufferSize → wf_world (set_client r c' w).
Proof.
  intros [Hc Hq Hcap Hs] Hr Hd Hl. split; simpl; [| |done|].
  - intros id r' H. destruct (Hc id r' H) as (c1 & H1 & <-).
    destruct (decide (r' = r)) as [->|]; simplify_eq.
    + exists c'. by rewrite lookup_insert_eq.
    + exists c1. by rewrite lookup_insert_ne.
  - intros r' Hr'. apply lookup_insert_is_Some. destruct (decide (r = r')); eauto.
  - intros r' c1. rewrite lookup_insert_Some. intros [[_ <-]|[_ H]]; eauto.
Qed.

Lemma wf_hub w h :
  wf_world w →
  (∀ id r, clients h !! id = Some r → ∃ c, heap w !! r = Some c ∧ DeviceID c = id) →
  (∀ r, r ∈ Register h ++ Unregister h → is_Some (heap w !! r)) →
  length (Register h) ≤ channelSize → length (Unregister h) ≤ channelSize →
  wf_world (set_hub h w).
Proof. intros [_ _ _ Hs] ????. by split. Qed.

(** The invariant depends on the heap and the hub only. *)
Lemma wf_same w w' : heap w' = heap w → hub w' = hub w → wf_world w → wf_world w'.
Proof. intros E1 E2 [????]. split; rewrite ?E1, ?E2; auto. Qed.

Lemma coin_same w b w' : coin w = (b, w') → heap w' = heap w ∧ hub w' = hub w ∧
  db w' = db w ∧ spawned w' = spawned w.
Proof. unfold coin. destruct (o_coin (env w)); naive_solver. Qed.

Lemma wf_new_client w id p mb :
  wf_world w → wf_world (set_client (alloc (heap w)) (NewClient id p mb) w).
Proof.
  intros [Hc Hq Hcap Hs]. pose proof (alloc_fresh (heap w)) as Hf. split; simpl; [| |done|].
  - intros id' r H. destruct (Hc id' r H) as (c & H1 & H2). exists c.
    rewrite lookup_insert_ne; [done|]. congruence.
  - intros r Hr. apply lookup_insert_is_Some. destruct (decide (alloc (heap w) = r)); auto.
  - intros r c. rewrite lookup_insert_Some. intros [[_ <-]|[_ H]]; [simpl; lia|eauto].
Qed.

Definition spawn_ok (w : world) (g : goroutine) : Prop :=
  match g with GWritePump r => allocated w r | _ => True end.

Lemma allocated_set_client w r c r' : allocated w r' → allocated (set_client r c w) r'.
Proof.
  unfold allocated. simpl. intros. apply lookup_insert_is_Some. destruct (decide (r = r')); eauto.
Qed.

Definition preserved {B} (o : op B) (w : world) (b : B) (w' : world) : Prop :=
  wf_world w' ∧ (∀ r, allocated w r → allocated w' r) ∧ (∀ r, op_gives o b r → allocated w' r) ∧
  (∀ g, g ∈ spawned w' → g ∈ spawned w ∨ spawn_ok w' g).

Lemma preserved_client {B} (o : op B) w b w0 r c c' :
  wf_world w → heap w0 = heap w → hub w0 = hub w → spawned w0 = spawned w →
  heap w !! r = Some c → DeviceID c' = DeviceID c → length (send c') ≤ sendBufferSize →
  (∀ r', ¬ op_gives o b r') → preserved o w b (set_client r c' w0).
Proof.
  intros Hwf E1 E2 E3 Hr Hd Hl Hn. split_and!.
  - eapply wf_set_client; [by eapply wf_same|by rewrite E1|done..].
  - intros r' H. apply allocated_set_client. unfold allocated. by rewrite E1.
  - intros r' H. by destruct (Hn r').
  - intros g. simpl. rewrite E3. auto.
Qed.

Lemma preserved_same {B} (o : op B) w b w' :
  wf_world w → heap w' = heap w → hub w' = hub w → spawned w' = spawned w →
  (∀ r, op_gives o b r → allocated w r) → preserved o w b w'.
Proof.
  intros Hwf E1 E2 E3 Hn. split_and!; [by eapply wf_same| | |].
  - intros r. unfold allocated. by rewrite E1.
  - intros r H%Hn. unfold allocated. by rewrite E1.
  - rewrite E3. auto.
Qed.

Lemma preserved_hub {B} (o : op B) w b w0 h :
  wf_world (set_hub h w) → heap w0 = heap w → spawned w0 = spawned w →
  (∀ r, op_gives o b r → allocated w r) → preserved o w b (set_hub h w0).
Proof.
  intros Hwf E1 E3 Hn. split_and!.
  - by eapply (wf_same (set_hub h w)).
  - intros r. unfold allocated. simpl. by rewrite E1.
  - intros r H%Hn. unfold allocated. simpl. by rewrite E1.
  - simpl. rewrite E3. auto.
Qed.

Lemma enqueue_client f c b c' :
  enqueue f c = (b, c') → length (send c) ≤ sendBufferSize →
  DeviceID c' = DeviceID c ∧ length (send c') ≤ sendBufferSize.
Proof.
  unfold enqueue. repeat case_match; intros [= <- <-]; simpl; intros; [done| |done].
  rewrite length_app. simpl. split; [done|lia].
Qed.

Lemma exec_queue_op {B} (o : op B) w b w' :
  match o with ORegister _ | OUnregister _ | OSelect | OInsert _ | ORemove _ => True | _ => False end →
  wf_world w → op_uses o (allocated w) → exec_op o w = Some (b, w') → preserved o w b w'.
Proof.
  intros Ho Hwf Hu He. pose proof Hwf as [Hc Hq [Hr1 Hr2] Hs].
  destruct o; try done; simpl in *; unfold with_client in *.
  - case_decide; simplify_eq. apply preserved_hub; [|done..].
    apply wf_hub; simpl; [done..| | |done].
    + intros r'. rewrite !elem_of_app, list_elem_of_singleton. set_solver.
    + rewrite length_app. simpl. lia.
  - case_decide; simplify_eq. apply preserved_hub; [|done..].
    apply wf_hub; simpl; [done..| |done|].
    + intros r'. rewrite !elem_of_app, list_elem_of_singleton. set_solver.
    + rewrite length_app. simpl. lia.
  - destruct (Register (hub w)) as [|r q] eqn:E1, (Unregister (hub w)) as [|r' q'] eqn:E2;
      simplify_eq/=; [..|destruct (coin w) as [[] w1] eqn:Ec; apply coin_same in Ec; simplify_eq];
      (apply preserved_hub; [|naive_solver..|]);
      try (by intros ? <-; apply Hq; set_solver);
      (apply wf_hub; simpl; rewrite ?E1, ?E2; try done; try (simpl in *; lia); set_solver).
  - apply bind_Some in He as (c & Hr & [= <- <-]). apply preserved_hub; [|done..].
    apply wf_hub; simpl; try done. intros id r'. rewrite lookup_insert_Some. naive_solver.
  - apply bind_Some in He as (c & Hr & He). case_decide; simplify_eq.
    + apply preserved_hub; [|done..]. apply wf_hub; simpl; try done.
      intros id r'. rewrite lookup_delete_Some. naive_solver.
    + by apply preserved_same.
Qed.

Ltac client_kept w0 c :=
  eapply (preserved_client _ _ _ w0 _ c); try done; try (by intros ? []).

Lemma exec_preserved {B} (o : op B) w b w' :
  wf_world w → op_uses o (allocated w) → exec_op o w = Some (b, w') → preserved o w b w'.
Proof.
  intros Hwf Hu He. pose proof (wf_send w Hwf) as Hs. pose proof (wf_clients w Hwf) as Hc.
  destruct o; try (by eapply exec_queue_op); simpl in He; unfold with_client in He;
    try (apply bind_Some in He as (c & Hr & He)); simplify_eq/=;
    try (by apply preserved_same);
    try (by client_kept w c; apply (Hs r c)).
  all: try (by repeat (case_match; simplify_eq/=); apply preserved_same).
  - apply preserved_same; try done. intros r H. destruct (Hc _ _ H) as (c & ? & _). by exists c.
  - destruct (enqueue f c) as [b0 c0] eqn:E. simplify_eq.
    destruct (enqueue_client _ _ _ _ E); [eauto|]. by client_kept w c.
  - apply preserved_hub; try done. destruct Hwf as [? ? []]. by apply wf_hub.
  - destruct (Take _ _ _) as [x p]. simplify_eq. apply preserved_hub; try done.
    destruct Hwf as [? ? []]. by apply wf_hub.
  - destruct (coin w) as [b0 w0] eqn:E. simplify_eq. apply coin_same in E. 
    apply preserved_same; naive_solver.
  - split_and!; [by apply wf_new_client| | |by left].
    + intros r. apply allocated_set_client.
    + intros r <-. unfold allocated. simpl. by rewrite lookup_insert_eq.
  - destruct (coin w) as [b0 w0] eqn:E. apply coin_same in E as (? & ? & ? & ?).
    pose proof (Hs r c Hr) as Hl.
    repeat (case_match; simplify_eq/=); try (by apply preserved_same).
    client_kept w0 c. simpl in *. lia.
  - destruct (coin w) as [b0 w0] eqn:E. apply coin_same in E as (? & ? & ? & ?).
    repeat (case_match; simplify_eq/=); try (by apply preserved_same).
    client_kept w0 c. by apply (Hs r c).
  - destruct (coin w) as [b0 w0] eqn:E. apply coin_same in E as (? & ? & ? & ?).
    simplify_eq. by apply preserved_same.
  - split_and!; [by apply (wf_same w)|done..|]. intros g'. simpl.
    rewrite elem_of_app, list_elem_of_singleton. intros [| ->]; [by left|right]. by destruct g.
Qed.

(** ** Every program of the server is safe *)

Lemma relay_call_query {A} (m : DBM A) : (∀ c, devices (m c).2 = devices c) → relay_call m.
Proof. intros H c. auto. Qed.

Lemma relay_call_op o : (∀ id, o ≠ ODelete id) → relay_call (run_op true o).
Proof. intros Ho c. right. exists o. split; [done|]. by destruct c. Qed.

Lemma GetDeviceByID_call id : relay_call (GetDeviceByID id).
Proof.
  apply relay_call_query. intros [t fs]. rewrite GetDeviceByID_eval.
  by destruct fs as [|[] fs].
Qed.

Lemma PairDevices_call ord a b : relay_call (PairDevices ord a b).
Proof. by apply (relay_call_op (OPair ord a b)). Qed.
Lemma UnpairDevice_call id : relay_call (UnpairDevice id).
Proof. by apply (relay_call_op (OUnpair id)). Qed.
Lemma SetStaticKeyIfUnset_call id k : relay_call (SetStaticKeyIfUnset id k).
Proof. by apply (relay_call_op (OStaticKey id k)). Qed.
Lemma TouchLastSeen_call now id : relay_call (TouchLastSeen now id).
Proof. by apply (relay_call_op (OTouch now id)). Qed.

Create HintDb relay.
#[export] Hint Resolve GetDeviceByID_call PairDevices_call UnpairDevice_call
  SetStaticKeyIfUnset_call TouchLastSeen_call : relay.

(** Splits a program into its actions and checks each. *)
Ltac safe_ops :=
  repeat first
    [ progress intros
    | progress cbn [safe op_uses op_store op_gives call skip prog_bind mbind prog_mbind mret
                    prog_ret snd fst]
    | match goal with
      | |- _ ∧ _ => split
      | |- safe _ (match ?x with _ => _ end) _ => destruct x
      | |- safe _ (prog_bind _ (match ?x with _ => _ end)) _ => destruct x
      | |- safe _ (match ?x with _ => _ end ≫= _) _ => destruct x
      | |- safe _ ((match ?x with _ => _ end ≫= _) ≫= _) _ => destruct x
      end
    | tauto | by eauto with relay ].

Section programs.
Context (K : ref → Prop).

Abbreviation safe_true p := (safe K p (λ _ _, True)).

Lemma safe_sendJSON c m : K c → safe_true (sendJSON c m).
Proof. intros. unfold sendJSON. safe_ops. Qed.

Lemma safe_handleAnnounceKey c m : K c → safe_true (handleAnnounceKey c m).
Proof. intros. unfold handleAnnounceKey, sendErrorAndClose, sendError, sendJSON. safe_ops. Qed.

Lemma safe_handlePairRequest c : K c → safe_true (handlePairRequest c).
Proof. intros. unfold handlePairRequest, sendError, sendJSON. safe_ops. Qed.

Lemma safe_handlePairAccept c m : K c → safe_true (handlePairAccept c m).
Proof.
  intros. unfold handlePairAccept, announce_pair, pair_error, sendError, sendJSON. safe_ops.
Qed.

Lemma safe_handleUnpair c : K c → safe_true (handleUnpair c).
Proof. intros. unfold handleUnpair, sendError, sendJSON. safe_ops. Qed.

Lemma safe_run_register r : K r → safe_true (run_register r).
Proof. intros. unfold run_register, notifyPeerStatus, GetClient, sendJSON. safe_ops. Qed.

Lemma safe_run_unregister r : K r → safe_true (run_unregister r).
Proof. intros. unfold run_unregister, notifyPeerStatus, GetClient, sendJSON. safe_ops. Qed.

Lemma safe_Route m p : safe_true (Route m p).
Proof. unfold Route. safe_ops. Qed.

Lemma safe_writePump_body r : K r → safe_true (writePump_body r).
Proof. intros. unfold writePump_body. safe_ops. Qed.

Lemma safe_Handler mb id tok :
  safe K (Handler mb id tok) (λ K' o, match o with Connected c => K' c | _ => True end).
Proof. unfold Handler, sendWelcome, sendJSON. safe_ops. Qed.
End programs.

Lemma safe_handleControl (K : ref → Prop) c raw : K c → safe K (handleControl c raw) (λ _ _, True).
Proof.
  intros Hc. unfold handleControl, sendError.
  destruct (Unmarshal raw); [|by apply safe_sendJSON].
  repeat case_decide; auto using safe_handleAnnounceKey, safe_handlePairRequest,
    safe_handlePairAccept, safe_handleUnpair, safe_sendJSON.
  done.
Qed.

Lemma safe_readPump_body (K : ref → Prop) c : K c → safe K (readPump_body c) (λ _ _, True).
Proof.
  intros Hc. unfold readPump_body. cbn [call mbind prog_mbind prog_bind safe op_uses op_store].
  split_and!; [done..|]. intros [[[] payload]|]; [| |done].
  - apply (safe_bind _ (handleControl c payload)).
    eapply safe_ext; [by apply safe_handleControl; left|]. done.
  - safe_ops. apply (safe_bind _ (Route _ _)). eapply safe_ext; [by apply safe_Route|]. done.
Qed.

Lemma safe_Run_body (K : ref → Prop) : safe K Run_body (λ _ _, True).
Proof.
  unfold Run_body. cbn [call mbind prog_mbind prog_bind safe op_uses op_store].
  split_and!; [done..|]. intros [[] r].
  - apply (safe_bind _ (run_register r)).
    eapply safe_ext; [by apply safe_run_register; right|]. done.
  - apply (safe_bind _ (run_unregister r)).
    eapply safe_ext; [by apply safe_run_unregister; right|]. done.
Qed.

Lemma safe_Pump (K : ref → Prop) c : K c → safe_code K (Pump c).
Proof.
  intros Hc. unfold Pump. constructor; [done..|]. intros b. constructor.
  - intros K' HK. apply safe_readPump_body. auto.
  - intros K' HK. apply safe_andThen. unfold Pump_end. safe_ops. constructor.
Qed.

Lemma safe_serve (K : ref → Prop) mb id tok : safe_code K (serve mb id tok).
Proof.
  unfold serve. apply safe_andThen. eapply safe_ext; [apply safe_Handler|].
  intros K' x HK. destruct x; simpl; auto using safe_Pump, safe_done.
Qed.

Lemma safe_go (K : ref → Prop) g :
  match g with GWritePump r => K r | _ => True end → safe_code K (go_code g).
Proof.
  destruct g; simpl; intros Hg.
  - unfold touch. apply safe_andThen. safe_ops. constructor.
  - constructor; intros K' HK; [|constructor]. apply safe_writePump_body. auto.
Qed.

Lemma safe_Hub_Run (K : ref → Prop) : safe_code K Hub_Run.
Proof. constructor; intros K' HK; [apply safe_Run_body|constructor]. Qed.

(** ** The invariant of the system *)

Record sys_inv (I : table → Prop) (s : state) : Prop := {
  inv_world : wf_world s.1;
  inv_store : I (db s.1);
  inv_flushed : spawned s.1 = [];
  inv_threads : Forall (safe_code (allocated s.1)) s.2
}.

Section invariant.
Context (fk : bool) (ok : dbop → Prop) (I : table → Prop) {HI : StoreInvariant ok I}.

Lemma exec_store {B} (o : op B) w b w' :
  op_store o → exec_op o w = Some (b, w') → I (db w) → I (db w').
Proof.
  intros Hs He HIw.
  assert (db w' = db w ∨ ∃ o fs, (∀ id, o ≠ ODelete id) ∧ db w' = db_call true (db w) (o, fs))
    as [->|(o' & fs & Ho & ->)]; [|done|].
  - destruct o; simpl in He, Hs; unfold with_client in He;
      try (apply bind_Some in He as (c & Hr & He)).
    7: { destruct (Hs (Conn (db w) (o_faults (env w)))) as [E|(o & Ho & E)];
           destruct (m _) as [x c]; simplify_eq/=; eauto. }
    all: left; simplify_eq/=; repeat (case_match; simplify_eq/=); try done.
    all: match goal with H : coin _ = _ |- _ => apply coin_same in H; naive_solver end.
  - apply si_call; [by apply si_relay| |done]. destruct o'; try done. naive_solver.
Qed.

Lemma sys_inv_step s s' : sys_inv I s → sys_step fk ok s s' → sys_inv I s'.
Proof.
  intros [Hw HIs Hf Ht] Hst. destruct Hst as
    [w ts i B o k b w' Hi He|w ts i body after Hi|w ts mb id tok|w ts o Ho|w ts o fs Ho Hint];
    simpl in *.
  - pose proof (proj1 (Forall_lookup _ _) Ht i _ Hi) as Hc.
    apply safe_code_inv in Hc as (Hu & Hs & Hk).
    destruct (exec_preserved o w b w' Hw Hu He) as (Hw' & Hal & Hg & Hsp).
    split; simpl; [by apply (wf_same w')|by eapply exec_store|done|].
    apply Forall_app; split.
    + apply Forall_insert; [|eapply safe_code_mono; [|apply Hk]; naive_solver].
      eapply Forall_impl; [done|]. intros c. by apply safe_code_mono.
    + apply Forall_fmap, Forall_forall. intros g Hgs. apply safe_go.
      destruct (Hsp g Hgs) as [H|H]; [rewrite Hf in H; by apply not_elem_of_nil in H|done].
  - split; simpl; try done. apply Forall_insert; [done|]. apply safe_unroll.
    by apply (proj1 (Forall_lookup _ _) Ht i).
  - split; simpl; try done. apply Forall_app. split; [done|].
    constructor; [apply safe_serve|done].
  - split; simpl; try done. by apply (wf_same w).
  - split; simpl; try done; [by apply (wf_same w)|]. by apply si_call.
Qed.

Lemma sys_inv_initial now t o : I t → sys_inv I (initial now t o).
Proof.
  intros Ht. split; simpl; [|done..|].
  - split; simpl; [done| |split; lia|done]. intros r. by rewrite elem_of_nil.
  - constructor; [apply safe_Hub_Run|done].
Qed.

Lemma sys_inv_reachable s0 s : sys_inv I s0 → reachable fk ok s0 s → sys_inv I s.
Proof. intros H0. induction 1; eauto using sys_inv_step. Qed.
End invariant.

(** *** What may make a goroutine wait *)

(** The condition under which an action waits for another goroutine or the network. *)
Definition waits {B} (o : op B) (w : world) : Prop :=
  match o with
  | ORegister _ => length (Register (hub w)) = channelSize
  | OUnregister _ => length (Unregister (hub w)) = channelSize
  | OSelect => Register (hub w) = [] ∧ Unregister (hub w) = []
  | ORead r => o_frames (env w) = []
  | OWake r => ∃ c, heap w !! r = Some c ∧ send c = [] ∧ closed c = false
  | _ => False
  end.

Lemma exec_waits {B} (o : op B) w :
  wf_world w → op_uses o (allocated w) → exec_op o w = None → waits o w.
Proof.
  intros Hwf Hu He. destruct (wf_capacity w Hwf) as [H1 H2].
  destruct o; simpl in *; unfold with_client, allocated in *;
    try match type of Hu with is_Some _ =>
          destruct Hu as [c Hc]; rewrite Hc in He; simpl in He end;
    repeat (case_match; simplify_eq/=); try done; eauto; unfold channelSize in *; lia.
Qed.

(** ** Draining the hub *)

Fixpoint hub_turns (n : nat) (w : world) : option world :=
  match n with
  | O => Some w
  | S n => '(_, w') ← run Run_body w; hub_turns n w'
  end.

Definition pending (w : world) : nat :=
  length (Register (hub w)) + length (Unregister (hub w)).

(** Actions that add nothing to the hub's channels and never wait. *)
Fixpoint quiet {A} (p : prog A) : Prop :=
  match p with
  | Ret _ => True
  | Op o k =>
      match o with
      | ORegister _ | OUnregister _ | OSelect | ORead _ | OWake _ => False
      | _ => ∀ b, quiet (k b)
      end
  end.

Definition keeps_queues {B} (o : op B) : Prop :=
  match o with ORegister _ | OUnregister _ | OSelect => False | _ => True end.

Lemma exec_queues {B} (o : op B) w b w' :
  keeps_queues o → exec_op o w = Some (b, w') →
  Register (hub w') = Register (hub w) ∧ Unregister (hub w') = Unregister (hub w).
Proof.
  intros Hq He. destruct o; simpl in Hq, He; try done; unfold with_client in He;
    try (apply bind_Some in He as (c & Hr & He)); simplify_eq/=;
    repeat (case_match; simplify_eq/=); try done.
  all: match goal with H : coin _ = _ |- _ =>
         apply coin_same in H as (_ & H & _ & _); simpl; by rewrite H end.
Qed.

Lemma run_quiet {A} (p : prog A) w :
  wf_world w → quiet p → safe (allocated w) p (λ _ _, True) →
  ∃ x w', run p w = Some (x, w') ∧ wf_world w' ∧
    Register (hub w') = Register (hub w) ∧ Unregister (hub w') = Unregister (hub w).
Proof.
  revert w. induction p as [x|B o k IH]; intros w Hwf Hq Hs; [by exists x, w|].
  cbn [safe run] in *. destruct Hs as (Hu & Hst & Hk).
  destruct (exec_op o w) as [[b w1]|] eqn:He; cycle 1.
  { apply exec_waits in He; [|done..]. by destruct o. }
  destruct (exec_preserved o w b w1 Hwf Hu He) as (Hwf1 & Hal & Hg & _).
  assert (Register (hub w1) = Register (hub w) ∧ Unregister (hub w1) = Unregister (hub w))
    as [E1 E2] by (apply (exec_queues o w b w1); [by destruct o|done]).
  destruct (IH b w1) as (x & w2 & Hrun & Hwf2 & E3 & E4); [done|by destruct o| |].
  { eapply safe_mono; [|apply Hk]. naive_solver. }
  exists x, w2. simpl. rewrite Hrun. split_and!; congruence.
Qed.

Lemma quiet_bind {A B} (p : prog A) (f : A → prog B) :
  quiet p → (∀ x, quiet (f x)) → quiet (p ≫= f).
Proof. induction p as [x|C o k IH]; simpl; [auto|]. intros Hp Hf. destruct o; simpl; auto. Qed.

Ltac quiet_ops :=
  repeat first
    [ progress intros
    | progress cbn [quiet call skip prog_bind mbind prog_mbind mret prog_ret]
    | match goal with
      | |- quiet (match ?x with _ => _ end) => destruct x
      | |- quiet (match ?x with _ => _ end ≫= _) => destruct x
      | |- quiet ((match ?x with _ => _ end ≫= _) ≫= _) => destruct x
      end
    | done ].

Lemma quiet_run_register r : quiet (run_register r).
Proof. unfold run_register, notifyPeerStatus, GetClient, sendJSON. quiet_ops. Qed.

Lemma quiet_run_unregister r : quiet (run_unregister r).
Proof. unfold run_unregister, notifyPeerStatus, GetClient, sendJSON. quiet_ops. Qed.

Lemma quiet_handleControl c raw : quiet (handleControl c raw).
Proof.
  unfold handleControl, handleAnnounceKey, handlePairRequest, handlePairAccept, handleUnpair,
    sendErrorAndClose, pair_error, announce_pair, sendError, sendJSON. quiet_ops.
Qed.

Lemma run_bind {A B} (p : prog A) (f : A → prog B) w :
  run (p ≫= f) w = '(x, w') ← run p w; run (f x) w'.
Proof.
  revert w. induction p as [x|C o k IH]; intros w; [done|].
  simpl. destruct (exec_op o w) as [[b w1]|]; simpl; [apply IH|done].
Qed.

(** One turn of the hub, when something is pending, takes one entry off a channel. *)
Lemma hub_turn w :
  wf_world w → pending w ≠ 0 →
  ∃ w', run Run_body w = Some (true, w') ∧ wf_world w' ∧ pending w' = pred (pending w).
Proof.
  intros Hwf Hp. unfold Run_body. rewrite run_bind. cbn [run call].
  destruct (exec_op OSelect w) as [[[b r] w1]|] eqn:He; cycle 1.
  { apply exec_waits in He as [E1 E2]; [|done..]. unfold pending in Hp. by rewrite E1, E2 in Hp. }
  destruct (exec_preserved OSelect w _ w1 Hwf I He) as (Hwf1 & _ & Hg & _).
  assert (pending w1 = pred (pending w)) as E.
  { unfold pending. simpl in He. repeat (case_match; simplify_eq/=); rewrite ?H, ?H0; simpl; lia. }
  cbn [mbind option_bind]. rewrite run_bind.
  assert (allocated w1 r) as Hr by by apply Hg.
  destruct (run_quiet (if b then run_register r else run_unregister r) w1) as
    ([] & w2 & Hrun & Hwf2 & E1 & E2); [done|..].
  - destruct b; [apply quiet_run_register|apply quiet_run_unregister].
  - destruct b; [by apply safe_run_register|by apply safe_run_unregister].
  - exists w2. rewrite Hrun. split_and!; [done..|]. unfold pending in *. by rewrite E1, E2.
Qed.

#[export] Instance trivial_invariant : StoreInvariant (λ _, True) (λ _, True).
Proof. by split. Qed.

Lemma reachable_inv fk now t o s :
  reachable fk (λ _, True) (initial now t o) s → sys_inv (λ _, True) s.
Proof.
  apply (sys_inv_reachable fk (λ _, True) (λ _, True)). by apply sys_inv_initial.
Qed.

(** ** Executing a schedule *)

Inductive sched :=
  | Act (i : nat)
  | Request (maxBytes : Z) (deviceID token : string)
  | Env (o : oracle).

Definition sys_exec1 (s : state) (e : sched) : option state :=
  let '(w, ts) := s in
  match e with
  | Act i =>
      c ← ts !! i;
      match c with
      | CDone => None
      | CStep o k =>
          '(b, w') ← exec_op o w;
          Some (flush w', <[i := k b]> ts ++ (go_code <$> spawned w'))
      | CLoop body after =>
          Some (w, <[i := andThen body (λ again, if again then CLoop body after else after)]> ts)
      end
  | Request mb id tok => Some (w, ts ++ [serve mb id tok])
  | Env o => if decide (o_now (env w) ≤ o_now o)%Z then Some (set_env o w, ts) else None
  end.

Fixpoint sys_exec (s : state) (l : list sched) : option state :=
  match l with
  | [] => Some s
  | e :: l => s' ← sys_exec1 s e; sys_exec s' l
  end.

Lemma sys_exec1_step fk ok s e s' : sys_exec1 s e = Some s' → sys_step fk ok s s'.
Proof.
  destruct s as [w ts], e as [i|mb id tok|o]; simpl.
  - intros (c & Hi & He)%bind_Some. destruct c as [|B o k|body after]; simplify_eq.
    + apply bind_Some in He as ([b w'] & He & [= <-]). by eapply sys_act.
    + by eapply sys_loop.
  - intros [= <-]. constructor.
  - case_decide; intros [= <-]. by constructor.
Qed.

Lemma sys_exec_reachable fk ok s0 s l s' :
  reachable fk ok s0 s → sys_exec s l = Some s' → reachable fk ok s0 s'.
Proof.
  revert s. induction l as [|e l IH]; simpl; intros s Hr He; [by simplify_eq|].
  apply bind_Some in He as (s1 & H1 & H2). eapply IH; [|done].
  eapply reach_step; [done|]. by eapply sys_exec1_step.
Qed.

(** ** Properties *)

(** C11: In every state any interleaving reaches, the hub maps a device ID to an existing
    connection of that very device, channels and send buffers stay within capacity, links
    are recorded on both ends, tokens are unique and a linked device's token does not
    expire, whatever store operations other processes complete in between. *)
Theorem relay_invariant fk now t o s :
  links_sym t → table_ok t → reachable fk (λ _, True) (initial now t o) s →
  wf_world s.1 ∧ links_sym (db s.1) ∧ table_ok (db s.1).
Proof.
  intros Hl Ht Hr. split_and!.
  - by eapply inv_world, reachable_inv.
  - by eapply (inv_store links_sym), (sys_inv_reachable _ _ _ _ _ (sys_inv_initial _ _ _ _ Hl)).
  - by eapply (inv_store table_ok), (sys_inv_reachable _ _ _ _ _ (sys_inv_initial _ _ _ _ Ht)).
Qed.

(** C14: Once a device's announced static key is stored, no interleaving of relay
    goroutines and store operations changes it, as long as the device is not deleted. *)
Theorem relay_key_locked fk now t o s s' x :
  reachable fk (λ _, True) (initial now t o) s → locked_key (db s.1) x ≠ "" →
  reachable fk (λ o, o ≠ ODelete x) s s' → locked_key (db s'.1) x = locked_key (db s.1) x.
Proof.
  intros [Hw _ Hf Ht]%reachable_inv Hk Hr.
  pose proof (locked_key_invariant x _ Hk).
  set (P := λ t, locked_key t x = locked_key (db s.1) x).
  assert (sys_inv P s) as Hs by by split.
  exact (inv_store P _ (sys_inv_reachable _ _ _ _ _ Hs Hr)).
Qed.


(** Handling a control frame never waits: in every reachable state, whatever text a
    client sends, the handler runs to its end. *)
Theorem handleControl_total fk now t o s c raw :
  reachable fk (λ _, True) (initial now t o) s → allocated s.1 c →
  ∃ w', run (handleControl c raw) s.1 = Some (tt, w').
Proof.
  intros [Hw _ _ _]%reachable_inv Hc.
  destruct (run_quiet (handleControl c raw) s.1) as ([] & w' & H & _); eauto using
    quiet_handleControl, safe_handleControl.
Qed.

(** The hub's event loop alone empties its channels: from every reachable state, as
    many turns as there are pending events run through without waiting and leave none,
    so a goroutine blocked on a full channel is always freed. *)
Theorem hub_drains fk now t o s :
  reachable fk (λ _, True) (initial now t o) s →
  ∃ w', hub_turns (pending s.1) s.1 = Some w' ∧ pending w' = 0.
Proof.
  intros [Hw _ _ _]%reachable_inv. remember (pending s.1) as n eqn:En. symmetry in En.
  generalize dependent (s.1). induction n as [|n IH]; intros w Hw En; [by exists w|].
  destruct (hub_turn w) as (w1 & H1 & Hw1 & E1); [done|lia|].
  destruct (IH w1) as (w2 & H2 & E2); [done|lia|]. exists w2. cbn [hub_turns]. rewrite H1. by split.
Qed.

(** *** Two schedules *)

(** A device table: two devices with tokens, not linked. *)
Definition ex_row (tok : string) : row := Row "n" "" tok None None 0 None None.
Definition ex_db : table := {["A" := ex_row "ta"; "B" := ex_row "tb"]}.

Definition ex_oracle (coins : list bool) (frames : list (option (msgKind * bytes))) : oracle :=
  Oracle 0 [] [Some "abcd"] coins frames.

(** A request is served up to and including the start of its write pump: nine actions of
    its goroutine [i]. *)
Definition ex_connect (i : nat) (id token : string) : list sched :=
  Request 65536 id token :: replicate 9 (Act i).

Definition ex_reg : list sched := replicate 6 (Act 0).

(** The connection drops at once; the hub takes the unregistration first, because both of
    its channels are ready. *)
Definition ghost_schedule : list sched :=
  ex_connect 1 "A" "ta" ++ replicate 4 (Act 1) ++ replicate 3 (Act 0) ++ ex_reg.

(** "A" asks for a code and reconnects; "B" accepts the code after the new connection has
    read "A"'s row and before the hub has registered it. *)
Definition race_schedule : list sched :=
  ex_connect 1 "A" "ta" ++ ex_reg ++ replicate 6 (Act 1)
  ++ ex_connect 4 "B" "tb" ++ ex_reg
  ++ Request 65536 "A" "ta" :: replicate 4 (Act 7)
  ++ replicate 13 (Act 4)
  ++ [Act 7] ++ replicate 7 (Act 0).

Definition control_frame (m : controlMessage) : option (msgKind * bytes) :=
  Some (TextMessage, Marshal m).

Definition race_frames : list (option (msgKind * bytes)) :=
  [control_frame (message "pair_request");
   control_frame (ControlMessage "pair_accept" 0 "" [] "" "837924" 0 "" "" None "")].

Definition ghost_start : state := initial 0 ex_db (ex_oracle [true; false] [None]).
Definition race_start : state := initial 0 ex_db (ex_oracle [] race_frames).

Definition ends (x : option state) (P : state → bool) : bool :=
  match x with Some s => P s | None => false end.

Lemma ends_reachable fk s0 l (P : state → bool) :
  ends (sys_exec s0 l) P = true → ∃ s, reachable fk (λ _, True) s0 s ∧ P s = true.
Proof.
  intros H. unfold ends in H. destruct (sys_exec s0 l) as [s|] eqn:E; [|done].
  exists s. split; [|done]. eapply sys_exec_reachable; [constructor|done].
Qed.

Definition registered (id : string) (s : state) : option Client :=
  clients (hub s.1) !! id ≫= λ r, heap s.1 !! r.

(** The hub's [select] does not order a connection's registration before its
    unregistration: a device that connects and drops while the hub is busy can end up
    registered with its socket closed, both channels empty and its handler gone, and is
    then reported online. *)
Theorem ghost_connection fk :
  ∃ s c, reachable fk (λ _, True) ghost_start s ∧
    registered "A" s = Some c ∧ closed c = true ∧ conn_open c = false ∧ pending s.1 = 0.
Proof.
  destruct (ends_reachable fk ghost_start ghost_schedule (λ s,
    match registered "A" s with
    | Some c => closed c && negb (conn_open c) && bool_decide (pending s.1 = 0)
    | None => false
    end)) as (s & Hr & H); [by vm_compute|].
  exists s. destruct (registered "A" s) as [c|] eqn:E; [|done].
  apply andb_true_iff in H as [[Hc Ho%negb_true_iff]%andb_true_iff Hp%bool_decide_eq_true].
  by exists c.
Qed.

(** A link made between a new connection's look-up of its device and its
    registration is lost on that connection: the store has "A" linked to "B", and the
    open, registered connection of "A" believes itself unpaired, so the frames it sends
    are discarded until it reconnects. *)
Theorem link_lost_on_reconnect fk :
  ∃ s c, reachable fk (λ _, True) race_start s ∧
    partner (db s.1) "A" = Some "B" ∧
    registered "A" s = Some c ∧ conn_open c = true ∧ Peer c = ("", false).
Proof.
  destruct (ends_reachable fk race_start race_schedule (λ s,
    match registered "A" s with
    | Some c => conn_open c && bool_decide (pairedWith c = "")
                && bool_decide (partner (db s.1) "A" = Some "B")
    | None => false
    end)) as (s & Hr & H); [by vm_compute|].
  exists s. destruct (registered "A" s) as [c|] eqn:E; [|done].
  apply andb_true_iff in H as [[Hc Ho%bool_decide_eq_true]%andb_true_iff Hp%bool_decide_eq_true].
  exists c. unfold Peer. by rewrite Ho.
Qed.

(** *** Witnesses *)

Definition race_end : state := default race_start (sys_exec race_start race_schedule).

Lemma race_end_reachable fk : reachable fk (λ _, True) race_start race_end.
Proof.
  apply (sys_exec_reachable _ _ _ race_start race_schedule); [constructor|].
  assert (ends (sys_exec race_start race_schedule) (λ _, true) = true) as H by by vm_compute.
  unfold race_end. by destruct (sys_exec race_start race_schedule).
Qed.

Lemma ex_db_ok : links_sym ex_db ∧ table_ok ex_db.
Proof.
  assert (∀ id r, ex_db !! id = Some r →
    (id = "A" ∧ r = ex_row "ta") ∨ (id = "B" ∧ r = ex_row "tb")) as H.
  { intros id r. unfold ex_db. rewrite lookup_insert_Some, lookup_singleton_Some. naive_solver. }
  split; [|split].
  - intros a b. unfold partner. intros (r & Hr & Hp)%bind_Some. apply H in Hr. naive_solver.
  - intros a b ra rb [[-> ->]|[-> ->]]%H [[-> ->]|[-> ->]]%H; done.
  - intros a r [[-> ->]|[-> ->]]%H [? ?]; done.
Qed.

Lemma relay_invariant_witness : wf_world race_end.1 ∧ links_sym (db race_end.1) ∧
  table_ok (db race_end.1).
Proof.
  destruct ex_db_ok as [Hl Ht].
  exact (relay_invariant true 0 ex_db (ex_oracle [] race_frames) race_end Hl Ht
           (race_end_reachable true)).
Defined.

Lemma handleControl_total_witness :
  ∃ w', run (handleControl 3 "not json") race_end.1 = Some (tt, w').
Proof.
  apply (handleControl_total true 0 ex_db (ex_oracle [] race_frames) race_end);
    [apply race_end_reachable|]. apply (bool_decide_eq_true (is_Some (heap race_end.1 !! 3))). by vm_compute.
Defined.

Lemma hub_drains_witness : ∃ w', hub_turns (pending race_end.1) race_end.1 = Some w' ∧ pending w' = 0.
Proof.
  exact (hub_drains true 0 ex_db (ex_oracle [] race_frames) race_end (race_end_reachable true)).
Defined.


(** "A" announces a key; it is locked in the state reached. *)
Definition key_db : table := {["A" := Row "n" "" "ta" (Some "key") None 0 None None]}.

Lemma relay_key_locked_witness :
  locked_key (db (set_env (ex_oracle [] []) (initial 0 key_db (ex_oracle [] [])).1)) "A" =
  locked_key key_db "A".
Proof.
  apply (relay_key_locked true 0 key_db (ex_oracle [] []) (initial 0 key_db (ex_oracle [] []))
    (set_env (ex_oracle [] []) (initial 0 key_db (ex_oracle [] [])).1, [Hub_Run]) "A").
  - constructor.
  - by vm_compute.
  - eapply reach_step; [constructor|]. by apply sys_env.
Defined.
