(* ===== verification/RelayFacts.v ===== *)
(** * What each handler of the relay does

    The functional behaviour of the programs of Relay.v when they run without
    interference: every branch of the control handlers, of routing, of registration and
    of the upgrade handler, as equations between the world before and after.  [on_client]
    applies a pure operation of Relay.v to one connection. *)

From S2P Require Import Prelude Database Pairing PairCodes Json Wire SendQueue Relay RelaySystem.

(** ** Worlds after an action *)

Definition on_client (r : ref) (f : Client → Client) (w : world) : world :=
  World (alter f r (heap w)) (hub w) (db w) (spawned w) (env w).

Definition on_store (t : table) (w : world) : world :=
  World (heap w) (hub w) t (spawned w) (env w).

Definition on_codes (p : pairCodeRegistry) (w : world) : world :=
  set_hub (set_pairCodes p (hub w)) w.

Definition text (m : controlMessage) : wsFrame := WsFrame TextMessage (Marshal m) false.

(** A connection to which a frame, or a control message, was sent. *)
Definition offer (f : wsFrame) (c : Client) : Client := (enqueue f c).2.
Definition receive (m : controlMessage) : Client → Client := offer (text m).

Lemma alter_insert {A} (f : A → A) (h : gmap ref A) r c :
  h !! r = Some c → <[r := f c]> h = alter f r h.
Proof.
  intros Hr. apply map_eq. intros r'. rewrite lookup_alter.
  destruct (decide (r = r')) as [<-|].
  - by rewrite lookup_insert_eq, Hr.
  - by rewrite lookup_insert_ne.
Qed.

Lemma heap_on_client r f w r' :
  heap (on_client r f w) !! r' = if decide (r = r') then f <$> heap w !! r' else heap w !! r'.
Proof. simpl. rewrite lookup_alter. by case_decide; subst. Qed.

Lemma allocated_on_client r f w r' : allocated (on_client r f w) r' ↔ allocated w r'.
Proof.
  unfold allocated. rewrite heap_on_client. case_decide; [|done]. apply fmap_is_Some.
Qed.

(** ** Running one action *)

Section actions.
Context {A : Type} (w : world).

Lemma run_OSetPeer r id (k : unit → prog A) :
  allocated w r → run (Op (OSetPeer r id) k) w = run (k tt) (on_client r (setPeer id) w).
Proof.
  intros [c Hc]. cbn [run exec_op]. unfold with_client. rewrite Hc. simpl.
  unfold set_client. by rewrite alter_insert.
Qed.

Lemma run_OEnqueue r f (k : bool → prog A) c :
  heap w !! r = Some c →
  run (Op (OEnqueue r f) k) w = run (k (enqueue f c).1) (on_client r (offer f) w).
Proof.
  intros Hc. cbn [run exec_op]. unfold with_client. rewrite Hc. simpl.
  destruct (enqueue f c) as [b c'] eqn:E. simpl. unfold set_client, on_client.
  rewrite <- (alter_insert (offer f) _ _ _ Hc). unfold offer. by rewrite E.
Qed.

Lemma run_OClose r (k : unit → prog A) :
  allocated w r → run (Op (OClose r) k) w = run (k tt) (on_client r close w).
Proof.
  intros [c Hc]. cbn [run exec_op]. unfold with_client. rewrite Hc. simpl.
  unfold set_client. by rewrite alter_insert.
Qed.

Lemma run_ODeviceID r (k : string → prog A) c :
  heap w !! r = Some c → run (Op (ODeviceID r) k) w = run (k (DeviceID c)) w.
Proof. intros Hc. cbn [run exec_op]. unfold with_client. by rewrite Hc. Qed.

Lemma run_OPeer r (k : string * bool → prog A) c :
  heap w !! r = Some c → run (Op (OPeer r) k) w = run (k (Peer c)) w.
Proof. intros Hc. cbn [run exec_op]. unfold with_client. by rewrite Hc. Qed.

Lemma run_OGetClient id (k : option ref → prog A) :
  run (Op (OGetClient id) k) w = run (k (clients (hub w) !! id)) w.
Proof. done. Qed.

Lemma run_OTake code (k : _ → prog A) :
  run (Op (OTake code) k) w =
  run (k (Take (o_now (env w)) code (pairCodes (hub w))).1)
      (on_codes (Take (o_now (env w)) code (pairCodes (hub w))).2 w).
Proof. cbn [run exec_op]. by destruct (Take _ _ _). Qed.

(** A store call in a world whose engine works. *)
Lemma run_ODb {B} (m : DBM B) (k : dberr + B → prog A) x t :
  o_faults (env w) = [] → m (Conn (db w) []) = (x, Conn t []) →
  run (Op (ODb m) k) w = run (k x) (on_store t w).
Proof.
  intros Hf Hm. cbn [run exec_op]. rewrite Hf, Hm. simpl. f_equal.
  unfold on_store. f_equal. destruct (env w). simpl in *. by subst.
Qed.
End actions.

Lemma run_sendJSON w r m : allocated w r → run (sendJSON r m) w = Some (tt, on_client r (receive m) w).
Proof.
  intros [c Hc]. unfold sendJSON, call, skip. cbn [mbind prog_mbind prog_bind].
  by rewrite (run_OEnqueue _ _ _ _ c).
Qed.

(** ** Store calls that meet no fault *)

Lemma GetDeviceByID_ok id t :
  GetDeviceByID id (Conn t []) =
  (match t !! id with None => inl ErrNotFound | Some r => inr (scanDevice id r) end, Conn t []).
Proof. by rewrite GetDeviceByID_eval. Qed.


(** ** Control handlers *)

(** A connection that was told an error and is to be closed after it. *)
Definition offer_closing (code why : string) (c : Client) : Client :=
  let '(ok, c') := enqueue (WsFrame TextMessage (Marshal (error_message code why)) true) c in
  if ok then c' else close c'.

Lemma on_client_on_client r f g w :
  on_client r g (on_client r f w) = on_client r (g ∘ f) w.
Proof.
  unfold on_client. simpl. f_equal. apply map_eq. intros r'. rewrite !lookup_alter.
  case_decide; [|done]. rewrite decide_True by done. by destruct (heap w !! r).
Qed.

Lemma run_sendErrorAndClose w r code why :
  allocated w r →
  run (sendErrorAndClose r code why) w = Some (tt, on_client r (offer_closing code why) w).
Proof.
  intros [c Hc]. unfold sendErrorAndClose, call, skip. cbn [mbind prog_mbind prog_bind].
  rewrite (run_OEnqueue _ _ _ _ c) by done.
  set (f := WsFrame _ _ _).
  destruct (enqueue f c) as [b c'] eqn:E. cbn [fst]. destruct b.
  - cbn [run]. do 2 f_equal. unfold on_client. f_equal.
    rewrite <- !(alter_insert _ _ _ _ Hc). do 2 f_equal. unfold offer, offer_closing.
    fold f. by rewrite E.
  - rewrite run_OClose; cycle 1.
    { apply allocated_on_client. by exists c. }
    cbn [run]. rewrite on_client_on_client. do 2 f_equal. unfold on_client. f_equal.
    rewrite <- !(alter_insert _ _ _ _ Hc). f_equal. unfold offer, offer_closing, compose.
    fold f. by rewrite E.
Qed.

Lemma run_handleAnnounceKey w c cl msg :
  heap w !! c = Some cl → o_faults (env w) = [] →
  let key := cm_StaticKey msg in
  run (handleAnnounceKey c msg) w = Some (tt,
    if decide (key = "") then
      on_client c (receive (error_message "malformed" "announce_key requires static_key")) w
    else match db w !! DeviceID cl with
    | None => on_client c (receive (error_message "internal" "internal error")) w
    | Some row =>
        if decide (default "" (r_static_key row) = "") then
          on_store (alter (set_static_key key) (DeviceID cl) (db w)) w
        else if decide (default "" (r_static_key row) = key) then w
        else on_client c (offer_closing "key_mismatch"
               "announced static key does not match the key locked on first connection") w
    end).
Proof.
  intros Hc Hf key. assert (allocated w c) as Ha by by exists cl.
  assert (on_store (db w) w = w) as Hid by by destruct w.
  unfold handleAnnounceKey, sendError. fold key. case_decide; [by rewrite run_sendJSON|].
  unfold call. cbn [mbind prog_mbind prog_bind]. rewrite (run_ODeviceID _ _ _ cl) by done.
  destruct (SetStaticKeyIfUnset (DeviceID cl) key (Conn (db w) [])) as [x [t fs]] eqn:E.
  pose proof E as E'. rewrite SetStaticKeyIfUnset_ok in E'.
  assert (fs = []) as -> by (repeat (case_match; simplify_eq); done).
  rewrite (run_ODb _ _ _ x t) by done.
  repeat (case_match; simplify_eq); rewrite ?Hid; try done.
  - by rewrite run_sendErrorAndClose.
  - by rewrite run_sendJSON.
Qed.

(** [announce_key] locks the first key a device announces.  An empty key is refused
    as malformed; a first key is stored and nothing is sent; the stored key again changes
    nothing; a different key leaves the store alone, and the device is told
    [key_mismatch] by a frame after which the connection is closed (or closed at once if
    its queue does not take the frame). *)
Theorem handleAnnounceKey_spec w c cl msg :
  heap w !! c = Some cl → o_faults (env w) = [] →
  let key := cm_StaticKey msg in
  run (handleAnnounceKey c msg) w = Some (tt,
    if decide (key = "") then
      on_client c (receive (error_message "malformed" "announce_key requires static_key")) w
    else match db w !! DeviceID cl with
    | None => on_client c (receive (error_message "internal" "internal error")) w
    | Some row =>
        if decide (default "" (r_static_key row) = "") then
          on_store (alter (set_static_key key) (DeviceID cl) (db w)) w
        else if decide (default "" (r_static_key row) = key) then w
        else on_client c (offer_closing "key_mismatch"
               "announced static key does not match the key locked on first connection") w
    end).
Proof. apply run_handleAnnounceKey. Qed.

(** *** Worlds up to the inputs still to come *)

Definition same_env (o o' : oracle) : Prop := o_now o = o_now o' ∧ o_faults o = o_faults o'.

#[export] Instance world_equiv : Equiv world := λ w w',
  heap w = heap w' ∧ hub w = hub w' ∧ db w = db w' ∧ spawned w = spawned w' ∧
  same_env (env w) (env w').

#[export] Instance world_equivalence : Equivalence (≡@{world}).
Proof.
  split.
  - done.
  - intros w w' (?&?&?&?&?&?). done.
  - intros w1 w2 w3 (?&?&?&?&?&?) (?&?&?&?&?&?). split_and!; [..|split]; congruence.
Qed.

#[export] Instance on_client_proper r f : Proper ((≡) ==> (≡)) (on_client r f).
Proof. intros w w' (E1&?&?&?&?). split_and!; simpl; congruence. Qed.
#[export] Instance on_store_proper t : Proper ((≡) ==> (≡)) (on_store t).
Proof. intros w w' (?&?&?&?&?). done. Qed.
#[export] Instance on_codes_proper p : Proper ((≡) ==> (≡)) (on_codes p).
Proof. intros w w' (?&E&?&?&?). unfold on_codes. split_and!; simpl; congruence. Qed.

Lemma coin_equiv w : (coin w).2 ≡ w.
Proof. unfold coin. by destruct (o_coin (env w)). Qed.

Lemma run_OCoin {A} w (k : bool → prog A) : run (Op OCoin k) w = run (k (coin w).1) (coin w).2.
Proof. cbn [run exec_op]. by destruct (coin w). Qed.

(** *** Pairing *)

(** Both ends of a new link, told about it and routing to each other. *)
Definition linked_world (c : ref) (id code requesterID : string) (w : world) : world :=
  let told peer m := receive m ∘ setPeer peer in
  let w1 := on_client c (told requesterID
    (pair_complete_message code requesterID (locked_key (db w) requesterID))) w in
  match clients (hub w) !! requesterID with
  | None => w1
  | Some r => on_client r (told id (pair_complete_message code id (locked_key (db w) id))) w1
  end.

#[export] Instance linked_world_proper c id code req : Proper ((≡) ==> (≡)) (linked_world c id code req).
Proof.
  intros w w' E. unfold linked_world. pose proof E as (_ & -> & -> & _).
  destruct (_ !! req); by rewrite E.
Qed.

Definition found (w : world) (id : string) : dberr + Device :=
  match db w !! id with None => inl ErrNotFound | Some r => inr (scanDevice id r) end.

Lemma key_of_found w id : key_of (found w id) = locked_key (db w) id.
Proof. unfold found, locked_key. by destruct (db w !! id). Qed.

Lemma run_GetDeviceByID {A} w id (k : dberr + Device → prog A) :
  o_faults (env w) = [] → run (Op (ODb (GetDeviceByID id)) k) w = run (k (found w id)) w.
Proof.
  intros Hf. rewrite (run_ODb w _ _ _ (db w) Hf (GetDeviceByID_ok id (db w))). by destruct w.
Qed.

Lemma run_announce_pair w c id code req :
  wf_world w → allocated w c → o_faults (env w) = [] →
  run (announce_pair c id code req) w = Some (tt, linked_world c id code req w).
Proof.
  intros Hwf Hc Hf. unfold announce_pair, call. cbn [mbind prog_mbind prog_bind].
  rewrite !run_GetDeviceByID, !key_of_found by done.
  rewrite run_OSetPeer by done.
  assert (allocated (on_client c (setPeer req) w) c) as Hc1 by by apply allocated_on_client.
  rewrite run_bind, run_sendJSON by done. cbn [mbind option_bind].
  rewrite on_client_on_client, run_OGetClient. unfold linked_world.
  change (hub (on_client _ _ _)) with (hub w).
  destruct (clients (hub w) !! req) as [r|] eqn:Er; [|done].
  destruct (wf_clients w Hwf _ _ Er) as (cr & Hr & _).
  rewrite run_OSetPeer by (apply allocated_on_client; by exists cr).
  rewrite run_sendJSON by (rewrite !allocated_on_client; by exists cr).
  by rewrite on_client_on_client.
Qed.

Lemma wf_on_codes p w : wf_world w → wf_world (on_codes p w).
Proof. intros [? ? [] ?]. by apply wf_hub. Qed.

Lemma run_handlePairAccept w c cl msg :
  wf_world w → heap w !! c = Some cl → o_faults (env w) = [] →
  let id := DeviceID cl in let code := cm_Code msg in let now := o_now (env w) in
  let codes := pairCodes (hub w) in
  let fails e why w := on_client c (receive (error_message e why)) w in
  ∃ w', run (handlePairAccept c msg) w = Some (tt, w') ∧ w' ≡
    if decide (code = "") then fails "malformed" "pair_accept requires code" w
    else
      let w1 := on_codes (delete code codes) w in
      match live now codes !! code with
      | None =>
          if decide (is_Some (codes !! code))
          then fails "code_expired" "pairing code has expired" w1
          else fails "invalid_code" "unknown pairing code" w1
      | Some req =>
          if decide (req = id) then fails "invalid_code" "cannot pair with yourself" w1
          else match pair_spec req id (db w) with
               | inr t => linked_world c id code req (on_store t w1)
               | inl ErrAlreadyPaired =>
                   fails "already_paired" "one of the devices is already paired" w1
               | inl ErrNotFound =>
                   fails "invalid_code" "requesting device no longer exists" w1
               | inl _ => fails "internal" "internal error" w1
               end
      end.
Proof.
  intros Hwf Hc Hf id code now codes fails. assert (allocated w c) as Ha by by exists cl.
  unfold handlePairAccept, sendError. fold code. case_decide; [by rewrite run_sendJSON; eauto|].
  unfold call. cbn [mbind prog_mbind prog_bind]. rewrite run_OTake. fold now codes.
  rewrite live_lookup. unfold Take.
  destruct (codes !! code) as [e|] eqn:Ecode; cbn [fst snd mbind option_bind]; cycle 1.
  { rewrite run_sendJSON by done. eexists. split; [done|].
    rewrite (delete_id codes) by done. done. }
  set (w1 := on_codes (delete code codes) w).
  destruct (After now (expiresAt e)); cbn [fst snd]; [rewrite run_sendJSON by done; by eauto|].
  rewrite (run_ODeviceID w1 c _ cl) by done. fold id.
  case_decide; [rewrite run_sendJSON by done; by eauto|].
  rewrite run_OCoin. pose proof (coin_equiv w1) as E2.
  destruct (coin w1) as [b w2]. cbn [fst snd] in *.
  pose proof E2 as (Hh & Hhub & Hdb & _ & _ & Hf2). cbn in Hh, Hdb.
  assert (allocated w2 c) as Ha2 by (unfold allocated; by rewrite Hh).
  change (env w1) with (env w) in Hf2. rewrite Hf in Hf2.
  pose proof (PairDevices_ok b (requesterID e) id (db w2)) as Hp.
  replace (pair_spec (requesterID e) id (db w2)) with (pair_spec (requesterID e) id (db w))
    in Hp by by rewrite Hdb.
  destruct (pair_spec (requesterID e) id (db w)) as [err|t].
  - rewrite (run_ODb _ _ _ _ (db w2)) by done.
    replace (on_store (db w2) w2) with w2 by by destruct w2.
    unfold pair_error, sendError.
    destruct err; rewrite run_sendJSON by done; eexists; (split; [done|]); unfold fails;
      by rewrite E2.
  - rewrite (run_ODb _ _ _ _ t) by done.
    cbv iota. rewrite run_announce_pair; [|by apply (wf_same w1); [..|apply wf_on_codes]|done..].
    eexists. split; [done|]. by rewrite E2.
Qed.

(** C31: [pair_accept] redeems a code.  With a working store: no code is malformed; an
    unknown code is invalid and an outdated one expired; one's own code is refused; a
    device that is missing or already linked is reported as the store's specification
    [pair_spec] says; and otherwise the link is stored, both connections route to each
    other from then on, and each is sent [pair_complete] with the other's ID and
    announced key.  The code is gone afterwards in every case but the first, and no
    other connection, code or device changes. *)
Theorem handlePairAccept_spec w c cl msg :
  wf_world w → heap w !! c = Some cl → o_faults (env w) = [] →
  let id := DeviceID cl in let code := cm_Code msg in let now := o_now (env w) in
  let codes := pairCodes (hub w) in
  let fails e why w := on_client c (receive (error_message e why)) w in
  ∃ w', run (handlePairAccept c msg) w = Some (tt, w') ∧ w' ≡
    if decide (code = "") then fails "malformed" "pair_accept requires code" w
    else
      let w1 := on_codes (delete code codes) w in
      match live now codes !! code with
      | None =>
          if decide (is_Some (codes !! code))
          then fails "code_expired" "pairing code has expired" w1
          else fails "invalid_code" "unknown pairing code" w1
      | Some req =>
          if decide (req = id) then fails "invalid_code" "cannot pair with yourself" w1
          else match pair_spec req id (db w) with
               | inr t => linked_world c id code req (on_store t w1)
               | inl ErrAlreadyPaired =>
                   fails "already_paired" "one of the devices is already paired" w1
               | inl ErrNotFound =>
                   fails "invalid_code" "requesting device no longer exists" w1
               | inl _ => fails "internal" "internal error" w1
               end
      end.
Proof. apply run_handlePairAccept. Qed.

(** *** Unpairing *)

Definition unlinked_world (c : ref) (id peer : string) (w : world) : world :=
  let told who := receive (unpaired_message who) ∘ setPeer "" in
  let w1 := on_client c (told peer) (on_store (clear_links id (db w)) w) in
  match (if decide (peer = "") then None else clients (hub w) !! peer) with
  | None => w1
  | Some r => on_client r (told id) w1
  end.

Lemma run_handleUnpair w c cl :
  wf_world w → heap w !! c = Some cl → o_faults (env w) = [] →
  run (handleUnpair c) w = Some (tt, unlinked_world c (DeviceID cl) (pairedWith cl) w).
Proof.
  intros Hwf Hc Hf. set (id := DeviceID cl). set (peer := pairedWith cl).
  assert (allocated w c) as Ha by by exists cl.
  unfold handleUnpair, call. cbn [mbind prog_mbind prog_bind].
  rewrite (run_OPeer _ _ _ cl) by done. unfold Peer. fold peer.
  rewrite (run_ODeviceID _ _ _ cl) by done. fold id.
  rewrite (run_ODb _ _ _ _ _ Hf (UnpairDevice_ok id (db w))). cbv iota.
  set (w0 := on_store _ w). rewrite run_OSetPeer by done.
  assert (allocated (on_client c (setPeer "") w0) c) as Ha1 by by apply allocated_on_client.
  rewrite run_bind, run_sendJSON by done. cbn [mbind option_bind].
  rewrite on_client_on_client. unfold unlinked_world.
  destruct (decide (peer = "")) as [Ep|Ep].
  { rewrite bool_decide_eq_false_2 by (intros ?; done). done. }
  rewrite bool_decide_eq_true_2 by done. rewrite run_OGetClient.
  change (hub (on_client _ _ _)) with (hub w).
  destruct (clients (hub w) !! peer) as [r|] eqn:Er; [|done].
  destruct (wf_clients w Hwf _ _ Er) as (cr & Hr & _).
  rewrite run_OSetPeer by (apply allocated_on_client; by exists cr).
  rewrite run_sendJSON by (rewrite !allocated_on_client; by exists cr).
  by rewrite on_client_on_client.
Qed.

(** [unpair] clears the device's link on both ends of the store, stops routing on its
    own connection and tells it who its peer was; if that peer is connected, its
    connection stops routing too and is told.  Nothing else changes, and a device without
    a peer gets the same answer with an empty peer ID. *)
Theorem handleUnpair_spec w c cl :
  wf_world w → heap w !! c = Some cl → o_faults (env w) = [] →
  let id := DeviceID cl in let peer := pairedWith cl in
  let told who := receive (unpaired_message who) ∘ setPeer "" in
  run (handleUnpair c) w = Some (tt,
    let w1 := on_client c (told peer) (on_store (clear_links id (db w)) w) in
    match (if decide (peer = "") then None else clients (hub w) !! peer) with
    | None => w1
    | Some r => on_client r (told id) w1
    end).
Proof. apply run_handleUnpair. Qed.

(** *** Routing *)

Lemma enqueue_room f c :
  closed c = false → length (send c) < sendBufferSize →
  enqueue f c = (true, with_send (send c ++ [f]) c).
Proof. intros Hc Hl. unfold enqueue. by rewrite Hc, decide_True. Qed.

Lemma enqueue_full f c :
  ¬ (closed c = false ∧ length (send c) < sendBufferSize) → enqueue f c = (false, c).
Proof.
  intros Hn. unfold enqueue. destruct (closed c); [done|]. rewrite decide_False; naive_solver.
Qed.

Lemma run_Route w from payload peerID :
  wf_world w →
  let f := WsFrame BinaryMessage payload false in
  match clients (hub w) !! peerID with
  | None => run (Route (MkMessage from payload) peerID) w = Some (tt, w)
  | Some r =>
      ∃ cr, heap w !! r = Some cr ∧ DeviceID cr = peerID ∧
        if decide (closed cr = false ∧ length (send cr) < sendBufferSize)
        then run (Route (MkMessage from payload) peerID) w =
               Some (tt, on_client r (λ c, with_send (send c ++ [f]) c) w)
        else length (Unregister (hub w)) < channelSize →
             run (Route (MkMessage from payload) peerID) w =
               Some (tt, set_hub (set_unregister (Unregister (hub w) ++ [r]) (hub w))
                           (on_client r close w))
  end.
Proof.
  intros Hwf f. unfold Route, call. cbn [mbind prog_mbind prog_bind Payload].
  rewrite run_OGetClient. destruct (clients (hub w) !! peerID) as [r|] eqn:Er; [|done].
  destruct (wf_clients w Hwf _ _ Er) as (cr & Hr & Hid). exists cr. split_and!; [done..|].
  rewrite (run_OEnqueue _ _ _ _ cr) by done. fold f.
  assert (∀ g, offer f cr = g cr → on_client r (offer f) w = on_client r g w) as Hg.
  { intros g E. unfold on_client. f_equal. by rewrite <- !(alter_insert _ _ _ _ Hr), E. }
  destruct (decide (closed cr = false ∧ length (send cr) < sendBufferSize)) as [[Hcl Hlen]|Hn].
  - rewrite enqueue_room by done. cbn [fst]. unfold skip. cbn [run]. do 2 f_equal. apply Hg.
    unfold offer. by rewrite enqueue_room.
  - intros Hun. rewrite enqueue_full by done. cbn [fst].
    rewrite (Hg id) by (unfold offer; by rewrite enqueue_full).
    replace (on_client r id w) with w; cycle 1.
    { unfold on_client. rewrite <- (alter_insert _ _ _ _ Hr). simpl. rewrite insert_id by done.
      by destruct w. }
    rewrite run_OClose by by exists cr. cbn [run exec_op].
    change (hub (on_client _ _ _)) with (hub w). by rewrite decide_True.
Qed.

(** [Route] hands the payload verbatim to the send queue of the peer's registered
    connection and touches nothing else; an offline peer drops it; a peer whose queue is
    full or closed is closed and queued for unregistration (when that channel has room),
    and the payload is dropped. *)
Theorem Route_spec w from payload peerID :
  wf_world w →
  let f := WsFrame BinaryMessage payload false in
  match clients (hub w) !! peerID with
  | None => run (Route (MkMessage from payload) peerID) w = Some (tt, w)
  | Some r =>
      ∃ cr, heap w !! r = Some cr ∧ DeviceID cr = peerID ∧
        if decide (closed cr = false ∧ length (send cr) < sendBufferSize)
        then run (Route (MkMessage from payload) peerID) w =
               Some (tt, on_client r (λ c, with_send (send c ++ [f]) c) w)
        else length (Unregister (hub w)) < channelSize →
             run (Route (MkMessage from payload) peerID) w =
               Some (tt, set_hub (set_unregister (Unregister (hub w) ++ [r]) (hub w))
                           (on_client r close w))
  end.
Proof. apply run_Route. Qed.

(** *** Registration *)

(** A peer's connection, if it has one, is told about a device's state. *)
Definition notified (peer about : string) (online : bool) (w : world) : world :=
  match (if decide (peer = "") then None else clients (hub w) !! peer) with
  | None => w
  | Some t => on_client t (receive (peer_status about online)) w
  end.

Lemma run_notify w c id online :
  wf_world w →
  run (if (Peer c).2 then notifyPeerStatus (Peer c).1 id online else skip) w =
  Some (tt, notified (pairedWith c) id online w).
Proof.
  intros Hwf. unfold Peer, notified. cbn [fst snd]. case_decide as E.
  { by rewrite bool_decide_eq_false_2 by (intros ?; done). }
  rewrite bool_decide_eq_true_2 by done.
  unfold notifyPeerStatus, GetClient, call. cbn [mbind prog_mbind prog_bind].
  rewrite run_OGetClient. destruct (clients (hub w) !! pairedWith c) as [t|] eqn:Et; [|done].
  destruct (wf_clients w Hwf _ _ Et) as (ct & Ht & _). rewrite run_sendJSON; [done|by exists ct].
Qed.

Definition set_entry (id : string) (o : option ref) (w : world) : world :=
  set_hub (set_clients (partial_alter (λ _, o) id (clients (hub w))) (hub w)) w.

Lemma wf_set_entry w id r c :
  wf_world w → heap w !! r = Some c → DeviceID c = id → wf_world (set_entry id (Some r) w).
Proof.
  intros Hwf Hr Hid. pose proof Hwf as [Hc Hq [] Hs]. apply wf_hub; try done. simpl.
  intros id' r'. destruct (decide (id' = id)) as [->|].
  - rewrite lookup_partial_alter_eq. intros [= <-]. eauto.
  - rewrite lookup_partial_alter_ne by done. apply Hc.
Qed.

Lemma wf_del_entry w id : wf_world w → wf_world (set_entry id None w).
Proof.
  intros Hwf. pose proof Hwf as [Hc Hq [] Hs]. apply wf_hub; try done. simpl.
  intros id' r'. destruct (decide (id' = id)) as [->|].
  - by rewrite lookup_partial_alter_eq.
  - rewrite lookup_partial_alter_ne by done. apply Hc.
Qed.

Lemma wf_close w r : wf_world w → wf_world (on_client r close w).
Proof.
  intros Hwf. destruct (heap w !! r) as [c|] eqn:E.
  - unfold on_client. rewrite <- (alter_insert _ _ _ _ E).
    apply (wf_set_client w r c (close c)); try done. exact (wf_send w Hwf r c E).
  - apply (wf_same w); try done. simpl. apply map_eq. intros r'. rewrite lookup_alter.
    case_decide; subst; by rewrite ?E.
Qed.

Definition evicted (old : option ref) (w : world) : world :=
  match old with Some o => on_client o close w | None => w end.

Lemma run_run_register w r c :
  wf_world w → heap w !! r = Some c →
  let id := DeviceID c in
  run (run_register r) w = Some (tt,
    notified (pairedWith c) id true
      (set_entry id (Some r) (evicted (clients (hub w) !! id) w))).
Proof.
  intros Hwf Hr id. unfold run_register, call. cbn [mbind prog_mbind prog_bind].
  rewrite (run_ODeviceID _ _ _ c) by done. fold id. rewrite run_OGetClient.
  set (w1 := evicted (clients (hub w) !! id) w).
  assert (wf_world w1) as Hw1.
  { unfold w1, evicted. case_match; [by apply wf_close|done]. }
  assert (∃ c1, heap w1 !! r = Some c1 ∧ DeviceID c1 = id ∧ pairedWith c1 = pairedWith c)
    as (c1 & Hr1 & Hid1 & Hp1).
  { unfold w1, evicted. case_match; [|by exists c]. rewrite heap_on_client, Hr.
    case_decide; simpl; eauto. }
  assert (∀ k : unit → prog unit,
    run (prog_bind k match clients (hub w) !! id with
                     | Some o => Op (OClose o) Ret | None => skip end) w =
    run (k tt) w1) as ->.
  { intros k. unfold w1, evicted. destruct (clients (hub w) !! id) as [o|] eqn:Eo; [|done].
    destruct (wf_clients w Hwf _ _ Eo) as (co & Ho & _). cbn [prog_bind].
    rewrite run_OClose; [done|by exists co]. }
  cbn [run exec_op]. unfold with_client. rewrite Hr1. cbn [mbind option_bind].
  rewrite Hid1. change (set_hub _ w1) with (set_entry id (Some r) w1).
  change (heap (set_entry id (Some r) w1)) with (heap w1). rewrite Hr1. cbn [mbind option_bind].
  rewrite <- Hp1. assert (wf_world (set_entry id (Some r) w1)) by by eapply wf_set_entry.
  rewrite (surjective_pairing (Peer c1)). by rewrite <- (run_notify _ c1).
Qed.

(** Registering a connection closes the device's previous connection, makes the new
    one the device's only entry, and tells the linked peer, if connected, that the device
    is online. *)
Theorem run_register_spec w r c :
  wf_world w → heap w !! r = Some c →
  let id := DeviceID c in
  run (run_register r) w = Some (tt,
    notified (pairedWith c) id true
      (set_entry id (Some r) (evicted (clients (hub w) !! id) w))).
Proof. apply run_run_register. Qed.

Lemma run_run_unregister w r c :
  wf_world w → heap w !! r = Some c →
  let id := DeviceID c in
  run (run_unregister r) w = Some (tt,
    if decide (clients (hub w) !! id = Some r)
    then notified (pairedWith c) id false (set_entry id None w)
    else w).
Proof.
  intros Hwf Hr id. unfold run_unregister, call. cbn [mbind prog_mbind prog_bind run exec_op].
  unfold with_client. rewrite Hr. cbn [mbind option_bind]. fold id. case_decide; [|done].
  cbn [mbind option_bind].
  change (set_hub _ w) with (set_entry id None w). cbn [run exec_op]. unfold with_client.
  change (heap (set_entry id None w)) with (heap w). rewrite Hr. cbn [mbind option_bind].
  rewrite (surjective_pairing (Peer c)), <- run_notify by by apply wf_del_entry.
  destruct (Peer c).2; [|done]. by rewrite (run_ODeviceID _ _ _ c).
Qed.

(** Unregistering a device's current connection removes the entry and tells the
    linked peer, if connected, that the device is offline; unregistering a connection
    that has been replaced changes nothing, so a reconnect is never reported as going
    offline. *)
Theorem run_unregister_spec w r c :
  wf_world w → heap w !! r = Some c →
  let id := DeviceID c in
  run (run_unregister r) w = Some (tt,
    if decide (clients (hub w) !! id = Some r)
    then notified (pairedWith c) id false (set_entry id None w)
    else w).
Proof. apply run_run_unregister. Qed.

(** *** Admission *)

(** The connection a device gets: its link as stored, and already sent [welcome] with its
    peer and the peer's announced key, followed by the peer's state. *)
Definition welcomed (w : world) (id : string) (peer : option string) (maxBytes : Z) : Client :=
  let infos := match peer with None => [] | Some p => [PeerInfo p (locked_key (db w) p)] end in
  let status := match peer with
                | None => []
                | Some p => [text (peer_status p (bool_decide (is_Some (clients (hub w) !! p))))]
                end in
  with_send
    (text (ControlMessage "welcome" ProtocolVersion id infos "" "" 0 "" "" None "") :: status)
    (NewClient id (default "" peer) maxBytes).

Definition admitted_world (w : world) (id : string) (peer : option string) (maxBytes : Z) : world :=
  let r := alloc (heap w) in
  World (<[r := welcomed w id peer maxBytes]> (heap w))
    (set_register (Register (hub w) ++ [r]) (hub w)) (db w) (spawned w ++ [GTouchLastSeen id])
    (env w).

Lemma run_sendWelcome w r d id peer mb :
  heap w !! r = Some (NewClient id (default "" peer) mb) → o_faults (env w) = [] →
  PairedWith d = peer →
  run (sendWelcome r d) w = Some (tt, on_client r (λ _, welcomed w id peer mb) w).
Proof.
  intros Hr Hf Hp. unfold sendWelcome, call. rewrite Hp.
  assert (∀ c', heap w !! r = Some c' → allocated w r) as Ha by (intros; by eexists).
  destruct peer as [p|]; cbn [mbind prog_mbind prog_bind].
  - rewrite run_GetDeviceByID, key_of_found by done. erewrite run_ODeviceID by done.
    rewrite run_bind, run_sendJSON by eauto. cbn [mbind option_bind]. rewrite run_OGetClient.
    rewrite run_sendJSON by (apply allocated_on_client; eauto).
    rewrite on_client_on_client. do 2 f_equal. unfold on_client. f_equal.
    by rewrite <- !(alter_insert _ _ _ _ Hr).
  - erewrite run_ODeviceID by done. rewrite run_bind, run_sendJSON by eauto.
    cbn [mbind option_bind run skip]. do 2 f_equal. unfold on_client. f_equal.
    by rewrite <- !(alter_insert _ _ _ _ Hr).
Qed.

Definition token_expired (now : Z) (row : row) : bool :=
  match r_expires_at row with Some e => bool_decide (e < now)%Z | None => false end.

Lemma run_Handler w mb id token :
  o_faults (env w) = [] → length (Register (hub w)) < channelSize →
  let reject status why := run (Handler mb id token) w = Some (HttpError status why, w) in
  if decide (id = "" ∨ token = "") then reject 400%Z "missing device_id or token"
  else match db w !! id with
  | None => reject 401%Z "unauthorized"
  | Some row =>
      if decide (r_device_token row = token) then
        if token_expired (o_now (env w)) row
        then reject 401%Z "pairing code expired"
        else ∃ w', run (Handler mb id token) w = Some
               (if (coin w).1 then Connected (alloc (heap w)) else UpgradeFailed, w') ∧
             w' ≡ if (coin w).1 then admitted_world w id (r_paired_with row) mb else w
      else reject 401%Z "unauthorized"
  end.
Proof.
  intros Hf Hreg reject. unfold reject, Handler. clear reject.
  destruct (decide (id = "" ∨ token = "")); [done|].
  unfold call. cbn [mbind prog_mbind prog_bind]. rewrite run_GetDeviceByID by done.
  unfold found. destruct (db w !! id) as [row|] eqn:Erow; [|done]. cbn [DeviceToken scanDevice].
  destruct (decide (r_device_token row = token)); [rewrite decide_False by naive_solver|by rewrite decide_True].
  cbn [run exec_op mbind option_bind ExpiresAt scanDevice].
  replace (match r_expires_at row with Some e => After (o_now (env w)) e | None => false end)
    with (token_expired (o_now (env w)) row) by (unfold token_expired; by destruct (r_expires_at row)).
  destruct (token_expired (o_now (env w)) row); [done|].
  cbn [run exec_op]. pose proof (coin_equiv w) as (E1 & E2 & E3 & E4 & E5 & E6).
  destruct (coin w) as [[] w1]; cbn [fst snd] in *; cbn [mbind option_bind]; [|by exists w1].
  cbn [run exec_op mbind option_bind]. change (hub (set_client _ _ w1)) with (hub w1).
  rewrite E1, E2. rewrite decide_True by done. cbn [mbind option_bind PairedWith scanDevice].
  set (w2 := set_hub _ _). rewrite run_bind.
  rewrite (run_sendWelcome w2 _ (scanDevice id row) id (r_paired_with row) mb);
    [|simpl; by rewrite E1, lookup_insert_eq|by simpl; rewrite E6|done].
  cbn [mbind option_bind run exec_op]. eexists. split; [done|]. split_and!; simpl.
  - rewrite E1. rewrite <- (alter_insert _ _ _ (NewClient id (default "" (r_paired_with row)) mb))
      by by rewrite lookup_insert_eq.
    rewrite insert_insert_eq. f_equal. unfold welcomed. simpl. by rewrite E3.
  - done.
  - done.
  - by rewrite E4.
  - done.
Qed.

(** The upgrade handler admits exactly the requests that name a device, present that
    device's token, and come before the token's expiry.  A missing parameter is a 400;
    an unknown device, a wrong token and an expired one are each a 401 with nothing
    changed; otherwise, if the upgrade succeeds, a new connection with the stored link is
    queued for registration, already holding [welcome] (and the peer's state if linked). *)
Theorem Handler_spec w mb id token :
  o_faults (env w) = [] → length (Register (hub w)) < channelSize →
  let reject status why := run (Handler mb id token) w = Some (HttpError status why, w) in
  if decide (id = "" ∨ token = "") then reject 400%Z "missing device_id or token"
  else match db w !! id with
  | None => reject 401%Z "unauthorized"
  | Some row =>
      if decide (r_device_token row = token) then
        if token_expired (o_now (env w)) row
        then reject 401%Z "pairing code expired"
        else ∃ w', run (Handler mb id token) w = Some
               (if (coin w).1 then Connected (alloc (heap w)) else UpgradeFailed, w') ∧
             w' ≡ if (coin w).1 then admitted_world w id (r_paired_with row) mb else w
      else reject 401%Z "unauthorized"
  end.
Proof. apply run_Handler. Qed.

(** ** Witnesses

    "A" and "B" are connected (as 1 and 2) and "A" holds the code 837924. *)

Definition ready_schedule : list sched :=
  ex_connect 1 "A" "ta" ++ ex_reg ++ replicate 6 (Act 1) ++ ex_connect 4 "B" "tb" ++ ex_reg.

Definition ready : world := (default race_start (sys_exec race_start ready_schedule)).1.
Definition ready_client (r : ref) : Client := default (NewClient "" "" 0) (heap ready !! r).

Lemma ready_wf : wf_world ready.
Proof.
  unfold ready. assert (∀ s, sys_exec race_start ready_schedule = Some s → wf_world s.1) as H.
  { intros s Hs. eapply (inv_world (λ _, True)), (reachable_inv true).
    eapply (sys_exec_reachable _ _ _ race_start); [constructor|exact Hs]. }
  destruct (sys_exec race_start ready_schedule) as [s|]; [by apply H|].
  apply (inv_world (λ _, True) race_start), sys_inv_initial. done.
Qed.

Lemma handleAnnounceKey_spec_witness :
  ∃ w', run (handleAnnounceKey 1 (ControlMessage "announce_key" 0 "" [] "k" "" 0 "" "" None ""))
          ready = Some (tt, w') ∧ locked_key (db w') "A" = "k".
Proof.
  eexists. split.
  - apply (handleAnnounceKey_spec ready 1 (ready_client 1)); by vm_compute.
  - by vm_compute.
Defined.

Lemma handlePairAccept_spec_witness :
  ∃ w', run (handlePairAccept 2 (ControlMessage "pair_accept" 0 "" [] "" "837924" 0 "" "" None ""))
          ready = Some (tt, w') ∧ partner (db w') "A" = Some "B".
Proof.
  destruct (handlePairAccept_spec ready 2 (ready_client 2)
    (ControlMessage "pair_accept" 0 "" [] "" "837924" 0 "" "" None "")) as (w' & H & E);
    [apply ready_wf|by vm_compute..|].
  exists w'. split; [exact H|]. destruct E as (_ & _ & -> & _). by vm_compute.
Defined.

Lemma handleUnpair_spec_witness : ∃ w', run (handleUnpair 2) ready = Some (tt, w').
Proof.
  eexists. apply (handleUnpair_spec ready 2 (ready_client 2)); [apply ready_wf|by vm_compute..].
Defined.

Lemma Route_spec_witness :
  run (Route (MkMessage "A" "payload") "B") ready =
  Some (tt, on_client 2 (λ c, with_send (send c ++ [WsFrame BinaryMessage "payload" false]) c) ready).
Proof.
  pose proof (Route_spec ready "A" "payload" "B" ready_wf) as H.
  assert (clients (hub ready) !! "B" = Some 2) as E by by vm_compute. rewrite E in H.
  destruct H as (cr & Hr & _ & H). rewrite decide_True in H; [exact H|].
  assert (heap ready !! 2 = Some (ready_client 2)) as E2 by by vm_compute.
  rewrite E2 in Hr. apply (inj Some) in Hr. rewrite <- Hr. split; [by vm_compute|]. apply Nat.ltb_lt. by vm_compute.
Defined.

Lemma run_register_spec_witness :
  ∃ w', run (run_register 1) ready = Some (tt, w') ∧ clients (hub w') !! "A" = Some 1.
Proof.
  eexists. split.
  - apply (run_register_spec ready 1 (ready_client 1)); [apply ready_wf|by vm_compute].
  - by vm_compute.
Defined.

Lemma run_unregister_spec_witness :
  ∃ w', run (run_unregister 1) ready = Some (tt, w') ∧ clients (hub w') !! "A" = None.
Proof.
  eexists. split.
  - apply (run_unregister_spec ready 1 (ready_client 1)); [apply ready_wf|by vm_compute].
  - by vm_compute.
Defined.

Lemma Handler_spec_witness :
  ∃ w', run (Handler 65536 "A" "ta") ready = Some (Connected 3, w') ∧ length (Register (hub w')) = 1.
Proof.
  pose proof (Handler_spec ready 65536 "A" "ta") as H. cbv zeta in H.
  rewrite decide_False in H by (intros [?|?]; done).
  assert (db ready !! "A" = Some (ex_row "ta")) as E by by vm_compute. rewrite E in H.
  rewrite decide_True in H by done.
  destruct H as (w' & H & Hw'); [by vm_compute|apply Nat.ltb_lt; by vm_compute|].
  assert ((coin ready).1 = true) as Ec by by vm_compute. rewrite Ec in H, Hw'.
  exists w'. split; [exact H|]. destruct Hw' as (_ & -> & _). by vm_compute.
Defined.
