(* ===== verification/RelaySerial.v ===== *)
(** * Routing follows the stored links

    Between the device store and the connections' in-memory [pairedWith] nothing but the
    handlers' code keeps agreement; RelaySystem.v shows an interleaving that loses it.
    Here each connection's turn runs to completion before the next (with the hub keeping
    up), on a working store, and agreement is an invariant: every registered connection
    routes to the device the store links it to, every open connection is registered, and
    hence a binary frame goes to the stored partner and nowhere else. *)

From S2P Require Import Prelude Database Pairing PairCodes Json Wire SendQueue Relay.
From S2P Require Import RelaySystem RelayFacts.

(** ** Turns *)

Inductive turn :=
  | TConnect (maxBytes : Z) (deviceID token : string)
  | TRead (c : ref)
  | TWrite (c : ref)
  | TTouch (id : string)
  | TEnv (o : oracle).

Definition settle_hub (w : world) : option world := hub_turns (pending w) w.

Definition serial (w : world) (e : turn) : option world :=
  match e with
  | TConnect mb id token => '(_, w1) ← run (Handler mb id token) w; settle_hub w1
  | TRead c =>
      '(again, w1) ← run (readPump_body c) w;
      if again : bool then settle_hub w1
      else '(_, w2) ← run (Pump_end c) w1; settle_hub w2
  | TWrite c => snd <$> run (writePump_body c) w
  | TTouch id => snd <$> run (now ← call ONow; call (ODb (TouchLastSeen now id))) w
  | TEnv o => if decide (o_faults o = []) then Some (set_env o w) else None
  end.

(** ** The invariant *)

Record core (w : world) : Prop := {
  co_faults : o_faults (env w) = [];
  co_links : links_sym (db w);
  co_ids : ∀ r c, heap w !! r = Some c → DeviceID c ≠ "";
  co_open : ∀ r c, heap w !! r = Some c → conn_open c = true →
              clients (hub w) !! DeviceID c = Some r;
  co_agree : ∀ id r c, clients (hub w) !! id = Some r → heap w !! r = Some c →
               pairedWith c = default "" (partner (db w) id)
}.

Record serial_ok (w : world) : Prop := {
  so_wf : wf_world w;
  so_core : core w;
  so_pending : pending w = 0
}.

(** ** Steps that do not touch links, routing or registration *)

Definition similar (c c' : Client) : Prop :=
  DeviceID c' = DeviceID c ∧ pairedWith c' = pairedWith c ∧
  (conn_open c' = true → conn_open c = true).

Record mild (w w' : world) : Prop := {
  mi_faults : o_faults (env w) = [] → o_faults (env w') = [];
  mi_clients : clients (hub w') = clients (hub w);
  mi_partner : ∀ id, partner (db w') id = partner (db w) id;
  mi_heap : ∀ r c', heap w' !! r = Some c' → ∃ c, heap w !! r = Some c ∧ similar c c'
}.

#[export] Instance mild_preorder : PreOrder mild.
Proof.
  split.
  - intros w. split; try done. intros r c H. by exists c.
  - intros w1 w2 w3 [F1 C1 P1 H1] [F2 C2 P2 H2]. split; [auto|congruence|congruence|].
    intros r c3 (c2 & Hc2 & S2)%H2. apply H1 in Hc2 as (c1 & Hc1 & S1).
    exists c1. split; [done|]. destruct S1 as (?&?&?), S2 as (?&?&?). split_and!; auto; congruence.
Qed.

Lemma core_mild w w' : mild w w' → core w → core w'.
Proof.
  intros [F C P H] [Hf Hl Hi Ho Ha]. split; [auto|by eapply links_sym_ext|..].
  - intros r c' (c & Hc & -> & _)%H. eauto.
  - intros r c' (c & Hc & -> & _ & Hopen)%H Ho'. rewrite C. eauto.
  - intros id r c' Hid (c & Hc & _ & -> & _)%H. rewrite C in Hid. rewrite P. eauto.
Qed.

Definition mild_db {A} (m : DBM A) : Prop :=
  ∀ t, faults (m (Conn t [])).2 = [] ∧
       ∀ id, partner (devices (m (Conn t [])).2) id = partner t id.

Definition mild_op {B} (o : op B) : Prop :=
  match o with
  | OSetPeer _ _ | OInsert _ | ORemove _ | ONewClient _ _ _ => False
  | ODb m => mild_db m
  | _ => True
  end.

Lemma mild_on_client r f w : (∀ c, similar c (f c)) → mild w (on_client r f w).
Proof.
  intros Hf. split; try done. intros r' c'. rewrite heap_on_client. case_decide.
  - intros (c & Hc & ->)%fmap_Some. eauto.
  - intros H'. by exists c'.
Qed.

Lemma mild_hub w h : clients h = clients (hub w) → mild w (set_hub h w).
Proof. intros E. split; try done. intros r c H. by exists c. Qed.

Lemma mild_equiv w w' : w' ≡ w → mild w w'.
Proof.
  intros (E1 & E2 & E3 & _ & _ & E5). split; [congruence|congruence|by rewrite E3|].
  rewrite E1. intros r c H. by exists c.
Qed.

Lemma similar_enqueue f c b c' : enqueue f c = (b, c') → similar c c'.
Proof. unfold enqueue. repeat case_match; intros [= <- <-]; done. Qed.

Lemma mild_set_client w0 w r c c' :
  heap w !! r = Some c → similar c c' → w0 ≡ w → mild w (set_client r c' w0).
Proof.
  intros Hr Hs E. etrans; [by apply mild_equiv|]. destruct E as (E & _). split; try done.
  simpl. intros r' c1. rewrite lookup_insert_Some. intros [[<- <-]|[_ H]]; [|by exists c1].
  exists c. by rewrite E.
Qed.

Lemma mild_exec {B} (o : op B) w b w' :
  o_faults (env w) = [] → mild_op o → exec_op o w = Some (b, w') → mild w w'.
Proof.
  intros Hf Hm He. pose proof (coin_equiv w) as Hcoin.
  destruct (coin w) as [b0 w0] eqn:Ec; cbn [snd] in Hcoin.
  destruct o; try done; simpl in Hm, He; unfold with_client in He;
    try (apply bind_Some in He as (c & Hr & He)); simplify_eq/=; try done;
    try (by apply mild_hub); try (by eapply mild_set_client).
  - destruct (enqueue f c) as [b1 c1] eqn:E. simplify_eq.
    eapply mild_set_client; [done|by eapply similar_enqueue|done].
  - rewrite Hf in He. destruct (Hm (db w)) as [Hn Hp]. destruct (m _) as [x cn]. simplify_eq/=.
    split; simpl; try done. intros r c H. by exists c.
  - destruct (Take _ _ _). simplify_eq. by apply mild_hub.
  - repeat case_match; simplify_eq; [done|]. apply mild_equiv. done.
  - rewrite Ec in He. simplify_eq. by apply mild_equiv.
  - case_decide; simplify_eq. by apply mild_hub.
  - case_decide; simplify_eq. by apply mild_hub.
  - rewrite ?Ec in He. repeat (case_match; simplify_eq); try (by apply mild_hub).
    all: etrans; [by apply mild_equiv|]. all: apply mild_hub; destruct Hcoin as (_ & E & _); by rewrite E.
  - repeat (case_match; simplify_eq); try done; by apply mild_equiv.
  - rewrite ?Ec in He. repeat (case_match; simplify_eq); try (by apply mild_equiv).
    by eapply mild_set_client.
  - rewrite ?Ec in He. repeat (case_match; simplify_eq); try (by apply mild_equiv).
    by eapply mild_set_client.
  - rewrite ?Ec in He. simplify_eq. by apply mild_equiv.
  - split; try done. intros r c H. by exists c.
Qed.

Fixpoint mild_prog {A} (p : prog A) : Prop :=
  match p with
  | Ret _ => True
  | Op o k => mild_op o ∧ ∀ b, mild_prog (k b)
  end.

Lemma mild_run {A} (p : prog A) w x w' :
  o_faults (env w) = [] → mild_prog p → run p w = Some (x, w') → mild w w'.
Proof.
  revert w. induction p as [y|B o k IH]; cbn [run mild_prog]; intros w Hf Hm Hr.
  { by simplify_eq. }
  destruct Hm as [Ho Hk]. apply bind_Some in Hr as ([b w1] & He & Hr).
  pose proof (mild_exec o w b w1 Hf Ho He) as M1. etrans; [done|].
  eapply IH; [|apply Hk|done]. by apply (mi_faults _ _ M1).
Qed.

Lemma run_wf {A} (p : prog A) w x w' :
  wf_world w → safe (allocated w) p (λ _ _, True) → run p w = Some (x, w') →
  wf_world w' ∧ (∀ r, allocated w r → allocated w' r).
Proof.
  revert w. induction p as [y|B o k IH]; cbn [run safe]; intros w Hw Hs Hr; [by simplify_eq|].
  destruct Hs as (Hu & _ & Hk). apply bind_Some in Hr as ([b w1] & He & Hr).
  destruct (exec_preserved o w b w1 Hw Hu He) as (Hw1 & Hal & Hg & _).
  destruct (IH b w1) as [H1 H2]; [done| |done|by auto].
  eapply safe_mono; [|apply Hk]. naive_solver.
Qed.

(** ** The mild programs *)

Lemma mild_GetDeviceByID id : mild_db (GetDeviceByID id).
Proof. intros t. by rewrite GetDeviceByID_ok. Qed.

Lemma mild_TouchLastSeen now id : mild_db (TouchLastSeen now id).
Proof. intros t. split; [done|]. intros id'. by apply partner_alter. Qed.

Lemma mild_SetStaticKeyIfUnset id k : mild_db (SetStaticKeyIfUnset id k).
Proof.
  intros t. rewrite SetStaticKeyIfUnset_ok. repeat case_match; try done.
  split; [done|]. intros id'. by apply partner_alter.
Qed.

#[export] Hint Resolve mild_GetDeviceByID mild_TouchLastSeen mild_SetStaticKeyIfUnset : relay.

Ltac mild_ops :=
  repeat first
    [ progress intros
    | progress cbn [mild_prog mild_op call skip prog_bind mbind prog_mbind mret prog_ret]
    | match goal with
      | |- _ ∧ _ => split
      | |- mild_prog (match ?x with _ => _ end) => destruct x
      | |- mild_prog (match ?x with _ => _ end ≫= _) => destruct x
      end
    | done | by eauto with relay ].

Lemma mild_sendJSON c m : mild_prog (sendJSON c m).
Proof. unfold sendJSON. mild_ops. Qed.

Lemma mild_announce c m : mild_prog (handleAnnounceKey c m).
Proof. unfold handleAnnounceKey, sendErrorAndClose, sendError, sendJSON. mild_ops. Qed.

Lemma mild_pair_request c : mild_prog (handlePairRequest c).
Proof. unfold handlePairRequest, sendError, sendJSON. mild_ops. Qed.

Lemma mild_Route m p : mild_prog (Route m p).
Proof. unfold Route. mild_ops. Qed.

Lemma mild_writePump c : mild_prog (writePump_body c).
Proof. unfold writePump_body. mild_ops. Qed.

Lemma mild_Pump_end c : mild_prog (Pump_end c).
Proof. unfold Pump_end. mild_ops. Qed.

Lemma similar_receive m c : similar c (receive m c).
Proof.
  unfold receive, offer. destruct (enqueue (text m) c) as [b c'] eqn:E.
  by eapply similar_enqueue.
Qed.

Lemma mild_receive r m w : mild w (on_client r (receive m) w).
Proof. apply mild_on_client. intros c. apply similar_receive. Qed.

Lemma mild_codes p w : mild w (on_codes p w).
Proof. by apply mild_hub. Qed.

#[export] Hint Resolve mild_receive mild_codes : relay.

(** ** Linking and unlinking *)

(** What happens to a connection that is told a message after its link was set. *)
Lemma told_client peer m c :
  let c' := (receive m ∘ setPeer peer) c in
  DeviceID c' = DeviceID c ∧ pairedWith c' = peer ∧ (conn_open c' = true → conn_open c = true).
Proof.
  unfold compose. cbv zeta. destruct (similar_receive m (setPeer peer c)) as (-> & -> & H).
  split_and!; auto.
Qed.

Lemma heap_on_client_inv a f w r c' :
  heap (on_client a f w) !! r = Some c' →
  ∃ c, heap w !! r = Some c ∧ c' = if decide (r = a) then f c else c.
Proof.
  rewrite heap_on_client. repeat case_decide; subst; try done.
  - intros (c & ? & ->)%fmap_Some. eauto.
  - eauto.
Qed.

(** A world whose links changed for the devices [ids] and whose connections were updated
    to match. *)
Lemma core_relink (upd : string → option string) w w' :
  wf_world w → core w →
  o_faults (env w') = [] → links_sym (db w') → clients (hub w') = clients (hub w) →
  (∀ id, default "" (partner (db w') id) = default (default "" (partner (db w) id)) (upd id)) →
  (∀ r c', heap w' !! r = Some c' → ∃ c, heap w !! r = Some c ∧ DeviceID c' = DeviceID c ∧
     (conn_open c' = true → conn_open c = true) ∧
     (clients (hub w) !! DeviceID c = Some r →
      pairedWith c' = default (pairedWith c) (upd (DeviceID c)))) →
  core w'.
Proof.
  intros Hwf [Hf Hl Hi Ho Ha] F L C P H. split; [done..| | |].
  - intros r c' (c & Hc & -> & _)%H. eauto.
  - intros r c' (c & Hc & -> & Hop & _)%H Ho'. rewrite C. eauto.
  - intros id r c' Hid Hr. rewrite C in Hid. destruct (H r c' Hr) as (c & Hc & _ & _ & Hp).
    destruct (wf_clients w Hwf _ _ Hid) as (c0 & Hc0 & E0).
    assert (c0 = c) as -> by congruence. rewrite E0 in Hp. rewrite (Hp Hid), P.
    destruct (upd id) as [p|]; simpl; eauto.
Qed.

Lemma partner_link_upd a b t t' :
  pair_spec a b t = inr t' →
  a ≠ b → ∀ x, partner t' x = if decide (x = a) then Some b else
                              if decide (x = b) then Some a else partner t x.
Proof.
  unfold pair_spec. destruct (unpaired_err a t) eqn:Ea; [done|].
  destruct (unpaired_err b t) eqn:Eb; [done|]. intros [= <-] Hne x.
  apply unpaired_err_None in Ea as [[ra Ha] Pa], Eb as [[rb Hb] Pb].
  rewrite partner_link. repeat case_decide; subst; rewrite ?Ha, ?Hb; naive_solver.
Qed.

Lemma core_linked w c cl req code t :
  wf_world w → core w → heap w !! c = Some cl → clients (hub w) !! DeviceID cl = Some c →
  req ≠ DeviceID cl → pair_spec req (DeviceID cl) (db w) = inr t →
  core (linked_world c (DeviceID cl) code req (on_store t w)).
Proof.
  intros Hwf Hco Hc Hreg Hne Hpair. set (id := DeviceID cl) in *.
  apply (core_relink (λ x, if decide (x = req) then Some id else
                           if decide (x = id) then Some req else None) w); try done.
  - unfold linked_world. case_match; simpl; by apply co_faults.
  - unfold linked_world. case_match; simpl; eapply links_sym_pair; try done; by apply co_links.
  - unfold linked_world. by case_match.
  - intros x. assert (db (linked_world c id code req (on_store t w)) = t) as ->.
    { unfold linked_world. by case_match. }
    rewrite (partner_link_upd _ _ _ _ Hpair Hne). by repeat case_decide.
  - intros r c' Hr. unfold linked_world in Hr. cbn [hub on_store] in Hr.
    destruct (clients (hub w) !! req) as [q|] eqn:Eq.
    + destruct (wf_clients w Hwf _ _ Eq) as (cq & Hq & Eid).
      apply heap_on_client_inv in Hr as (c1 & Hr & ->).
      apply heap_on_client_inv in Hr as (c2 & Hr & ->). cbn [heap on_store] in Hr.
      exists c2. split; [done|]. 
      destruct (told_client id (pair_complete_message code id (locked_key (db (on_store t w)) id))
        c2) as (T1 & T2 & T3).
      destruct (told_client req (pair_complete_message code req
        (locked_key (db (on_store t w)) req)) c2) as (U1 & U2 & U3).
      repeat (case_decide; subst); simplify_eq; split_and!; auto; intros Hcl;
        rewrite ?T2, ?U2; try done; try congruence.
    + apply heap_on_client_inv in Hr as (c2 & Hr & ->). cbn [heap on_store] in Hr.
      exists c2. split; [done|].
      destruct (told_client req (pair_complete_message code req
        (locked_key (db (on_store t w)) req)) c2) as (U1 & U2 & U3).
      repeat (case_decide; subst); simplify_eq; split_and!; auto; intros Hcl;
        rewrite ?U2; try done; try congruence.
Qed.

(** After [unpair], exactly the connections told about it have no peer. *)
Lemma heap_unlinked c id peer w r c' :
  heap (unlinked_world c id peer w) !! r = Some c' →
  ∃ c0, heap w !! r = Some c0 ∧ DeviceID c' = DeviceID c0 ∧
    (conn_open c' = true → conn_open c0 = true) ∧
    if decide (r = c ∨ (peer ≠ "" ∧ clients (hub w) !! peer = Some r))
    then pairedWith c' = "" else pairedWith c' = pairedWith c0.
Proof.
  pose proof (told_client "" (unpaired_message id)) as T.
  pose proof (told_client "" (unpaired_message peer)) as U.
  unfold unlinked_world. intros Hr.
  destruct (if decide (peer = "") then None else clients (hub w) !! peer) as [q|] eqn:Eq.
  - case_decide; [done|]. apply heap_on_client_inv in Hr as (c1 & Hr & ->).
    apply heap_on_client_inv in Hr as (c2 & Hr & ->). cbn [heap on_store] in Hr.
    exists c2. split; [done|].
    destruct (T c2) as (? & ? & ?), (U c2) as (? & ? & ?),
      (T ((receive (unpaired_message peer) ∘ setPeer "") c2)) as (? & ? & ?).
    clear T U. repeat case_decide; split_and!; first [congruence | by auto | naive_solver].
  - apply heap_on_client_inv in Hr as (c2 & Hr & ->). cbn [heap on_store] in Hr.
    exists c2. split; [done|]. destruct (U c2) as (? & ? & ?).
    clear T U. repeat case_decide; split_and!; first [congruence | by auto | naive_solver].
Qed.

Lemma core_unlinked w c cl :
  wf_world w → core w → heap w !! c = Some cl → clients (hub w) !! DeviceID cl = Some c →
  core (unlinked_world c (DeviceID cl) (pairedWith cl) w).
Proof.
  intros Hwf Hco Hc Hreg. set (id := DeviceID cl) in *.
  pose proof (co_agree w Hco _ _ _ Hreg Hc) as Hpeer.
  set (peer := pairedWith cl) in *. set (w' := unlinked_world c id peer w).
  assert (db w' = clear_links id (db w) ∧ env w' = env w ∧ clients (hub w') = clients (hub w))
    as (Edb & Eenv & Ecl) by (unfold w', unlinked_world; by case_match).
  apply (core_relink (λ x, if decide (x = id ∨ partner (db w) x = Some id) then Some "" else None) w);
    try done.
  - rewrite Eenv. by apply co_faults.
  - rewrite Edb. by apply links_sym_clear_links, co_links.
  - intros x. rewrite Edb, partner_clear_links. by repeat case_decide.
  - intros r c' Hr. apply heap_unlinked in Hr as (c0 & H0 & E0 & Hop & Hp).
    exists c0. split_and!; [done..|]. intros Hcl. pose proof (co_ids w Hco _ _ H0) as Hne.
    destruct (decide (DeviceID c0 = id ∨ _)) as [Hup|Hup]; simpl.
    + rewrite decide_True in Hp; [done|]. destruct Hup as [E|E%(co_links w Hco)].
      * left. congruence.
      * right. rewrite Hpeer, E. simpl. done.
    + rewrite decide_False in Hp; [done|]. intros [->|[Hn Hq]].
      * apply Hup. left. by rewrite Hc in H0; injection H0 as <-.
      * apply Hup. right. apply (co_links w Hco).
        destruct (wf_clients w Hwf _ _ Hq) as (c1 & H1 & E1).
        assert (c1 = c0) as -> by congruence. rewrite E1.
        destruct (partner (db w) id) as [p|]; simpl in Hpeer; congruence.
Qed.

(** ** A control frame keeps the invariant *)

Lemma core_pair_accept w c cl msg w' :
  wf_world w → core w → heap w !! c = Some cl → clients (hub w) !! DeviceID cl = Some c →
  run (handlePairAccept c msg) w = Some (tt, w') → core w'.
Proof.
  intros Hwf Hco Hc Hreg Hrun.
  destruct (run_handlePairAccept w c cl msg Hwf Hc (co_faults w Hco)) as (w2 & H2 & E).
  rewrite Hrun in H2. injection H2 as <-.
  eapply core_mild; [by apply mild_equiv|]. clear E Hrun w'.
  set (w1 := on_codes (delete (cm_Code msg) (pairCodes (hub w))) w).
  assert (core w1) as Hco1 by by eapply core_mild; [apply mild_codes|].
  assert (∀ m, core (on_client c (receive m) w1)) as Htold.
  { intros m. eapply core_mild; [apply mild_receive|done]. }
  repeat case_match; try apply Htold; try (by eapply core_mild; [apply mild_receive|]).
  apply (core_linked w1 c cl); try done. by apply wf_on_codes.
Qed.

Lemma core_control w c cl raw w' :
  wf_world w → core w → heap w !! c = Some cl → clients (hub w) !! DeviceID cl = Some c →
  run (handleControl c raw) w = Some (tt, w') → core w'.
Proof.
  intros Hwf Hco Hc Hreg. pose proof (co_faults w Hco) as Hf.
  assert (∀ p : prog unit, mild_prog p → run p w = Some (tt, w') → core w') as Hm.
  { intros p Hp Hr. by eapply core_mild; [eapply mild_run|]. }
  unfold handleControl. destruct (Unmarshal raw) as [msg|]; [|by apply Hm, mild_sendJSON].
  repeat case_decide.
  - apply Hm, mild_announce.
  - apply Hm, mild_pair_request.
  - by apply core_pair_accept with cl.
  - rewrite (run_handleUnpair w c cl) by done. intros [= <-]. by apply core_unlinked.
  - apply Hm, mild_sendJSON.
  - by apply Hm.
Qed.

(** ** The hub keeps up *)

(** After a turn, before the hub: what is to be unregistered is closed. *)
Record midway (w : world) : Prop := {
  mw_wf : wf_world w;
  mw_core : core w;
  mw_register : Register (hub w) = [];
  mw_closed : ∀ r c, r ∈ Unregister (hub w) → heap w !! r = Some c → conn_open c = false
}.

Lemma mild_notified peer about online w : mild w (notified peer about online w).
Proof. unfold notified. case_match; [apply mild_receive|done]. Qed.

Lemma core_removed w r c :
  core w → heap w !! r = Some c → conn_open c = false → clients (hub w) !! DeviceID c = Some r →
  core (set_entry (DeviceID c) None w).
Proof.
  intros [Hf Hl Hi Ho Ha] Hr Hcl Hreg. split; try done; simpl.
  - intros r' c' Hr' Hop. destruct (decide (DeviceID c' = DeviceID c)) as [E|E].
    + specialize (Ho r' c' Hr' Hop). rewrite E, Hreg in Ho. congruence.
    + rewrite lookup_partial_alter_ne by done. by apply Ho.
  - intros id r' c'. destruct (decide (id = DeviceID c)) as [->|].
    + by rewrite lookup_partial_alter_eq.
    + rewrite lookup_partial_alter_ne by done. apply Ha.
Qed.

Lemma midway_turn w w' :
  midway w → pending w ≠ 0 → run Run_body w = Some (true, w') →
  midway w' ∧ pending w' = pred (pending w).
Proof.
  intros [Hwf Hco Hreg Hun] Hp Hrun.
  destruct (hub_turn w Hwf Hp) as (w2 & H2 & Hwf2 & Hp2). rewrite Hrun in H2. injection H2 as <-.
  split; [|done]. unfold pending in Hp. rewrite Hreg in Hp.
  destruct (Unregister (hub w)) as [|r q] eqn:Eq; [done|].
  destruct (wf_queues w Hwf r) as [c Hr]; [rewrite Hreg, Eq; set_solver|].
  unfold Run_body in Hrun. rewrite run_bind in Hrun. cbn [run call exec_op] in Hrun.
  rewrite Hreg, Eq in Hrun. cbn [mbind option_bind] in Hrun. rewrite run_bind in Hrun.
  set (w1 := set_hub _ w) in Hrun.
  assert (wf_world w1) as Hwf1.
  { apply wf_hub; [done|apply (wf_clients w Hwf)| |simpl; rewrite Hreg; simpl; lia|].
    - intros r' Hr'. apply (wf_queues w Hwf). rewrite Eq. set_solver.
    - destruct (wf_capacity w Hwf) as [_ Hl]. rewrite Eq in Hl. simpl in *. lia. }
  assert (core w1) as Hco1 by by eapply core_mild; [apply mild_hub|].
  rewrite (run_run_unregister w1 r c) in Hrun by done.
  cbn [mbind option_bind run] in Hrun. injection Hrun as <-.
  assert (conn_open c = false) as Hcl by (apply (Hun r c); [set_solver|done]).
  split; [done|..].
  - case_decide; [|done]. eapply core_mild; [apply mild_notified|]. by eapply core_removed.
  - case_decide; [|done]. unfold notified. by case_match.
  - intros r' c' Hin Hr'.
    assert (Unregister (hub w1) = q) as Eq1 by done.
    case_decide as Hd; [|apply (Hun r'); [set_solver|done]].
    assert (r' ∈ q) as Hq by (revert Hin; unfold notified; by case_match).
    destruct (mi_heap _ _ (mild_notified (pairedWith c) (DeviceID c) false
      (set_entry (DeviceID c) None w1)) r' c' Hr') as (c0 & H0 & _ & _ & Hs).
    destruct (conn_open c') eqn:Eo; [|done]. rewrite <- (Hs eq_refl). apply (Hun r' c0); [set_solver|done].
Qed.

Lemma midway_settle w w' : midway w → settle_hub w = Some w' → serial_ok w'.
Proof.
  unfold settle_hub. remember (pending w) as n eqn:En. revert w En.
  induction n as [|n IH]; intros w En Hm; cbn [hub_turns].
  - intros [= <-]. by destruct Hm; split.
  - destruct (hub_turn w) as (w1 & H1 & _); [apply Hm|lia|]. rewrite H1.
    destruct (midway_turn w w1) as [Hm1 Hp1]; [done|lia|done|].
    apply IH; [lia|done].
Qed.

(** ** Every turn keeps the invariant *)

Lemma serial_queues w : pending w = 0 → Register (hub w) = [] ∧ Unregister (hub w) = [].
Proof. unfold pending. destruct (Register (hub w)), (Unregister (hub w)); simpl; by try lia. Qed.

Lemma midway_of w w' :
  serial_ok w → wf_world w' → core w' → Register (hub w') = Register (hub w) →
  Unregister (hub w') = Unregister (hub w) → midway w'.
Proof.
  intros [_ _ [E1 E2]%serial_queues] Hwf Hco H1 H2. rewrite E1 in H1. rewrite E2 in H2.
  split; [done..|]. rewrite H2. set_solver.
Qed.

Lemma midway_quiet {A} (p : prog A) w x w' :
  serial_ok w → quiet p → safe (allocated w) p (λ _ _, True) → run p w = Some (x, w') →
  core w' → midway w'.
Proof.
  intros Hok Hq Hs Hr Hco. destruct (run_quiet p w) as (x2 & w2 & H2 & Hwf2 & E1 & E2);
    [apply Hok|done..|]. rewrite Hr in H2. simplify_eq. by apply (midway_of w).
Qed.

Lemma serial_equiv w w' : w' ≡ w → serial_ok w → serial_ok w'.
Proof.
  intros E [Hwf Hco Hp]. pose proof E as (E1 & E2 & _). split.
  - by apply (wf_same w).
  - by eapply core_mild; [apply mild_equiv|].
  - unfold pending in *. by rewrite E2.
Qed.

Lemma midway_Route w from payload peer w' :
  serial_ok w → run (Route (MkMessage from payload) peer) w = Some (tt, w') → midway w'.
Proof.
  intros Hok Hrun. pose proof (serial_queues w (so_pending w Hok)) as [Q1 Q2].
  pose proof (co_faults w (so_core w Hok)) as Hf.
  destruct (run_wf _ _ _ _ (so_wf w Hok) (safe_Route _ _ _) Hrun) as [Hwf' _].
  assert (core w') as Hco'.
  { eapply core_mild; [by eapply mild_run, Hrun; [|apply mild_Route]|apply Hok]. }
  pose proof (run_Route w from payload peer (so_wf w Hok)) as H. cbv zeta in H.
  destruct (clients (hub w) !! peer) as [r|].
  - destruct H as (cr & Hr & _ & H). case_decide.
    + rewrite Hrun in H. injection H as ->. by apply (midway_of w).
    + rewrite H in Hrun by (rewrite Q2; unfold channelSize; simpl; lia). injection Hrun as <-.
      split; [done..|]. simpl. rewrite Q2. simpl. intros r' c'. rewrite list_elem_of_singleton.
      intros ->. rewrite lookup_alter_eq, Hr. by intros [= <-].
  - rewrite Hrun in H. injection H as ->. by apply (midway_of w).
Qed.

Lemma midway_Pump_end w c w' : serial_ok w → run (Pump_end c) w = Some (tt, w') → midway w'.
Proof.
  intros Hok Hrun. pose proof (serial_queues w (so_pending w Hok)) as [Q1 Q2].
  pose proof (co_faults w (so_core w Hok)) as Hf.
  assert (allocated w c) as Ha.
  { unfold Pump_end, call in Hrun. cbn [mbind prog_mbind prog_bind run exec_op] in Hrun.
    case_decide; [|done]. cbn [mbind option_bind] in Hrun. unfold with_client in Hrun.
    simpl in Hrun. by destruct (heap w !! c) eqn:E; [eexists|]. }
  assert (safe (allocated w) (Pump_end c) (λ _ _, True)) as Hs by (unfold Pump_end; safe_ops).
  destruct (run_wf _ _ _ _ (so_wf w Hok) Hs Hrun) as [Hwf' _].
  assert (core w') as Hco'.
  { eapply core_mild; [by eapply mild_run, Hrun; [|apply mild_Pump_end]|apply Hok]. }
  split; [done..| |]; unfold Pump_end, call in Hrun;
    cbn [mbind prog_mbind prog_bind run exec_op] in Hrun; rewrite decide_True in Hrun
      by (rewrite Q2; unfold channelSize; simpl; lia);
    cbn [mbind option_bind] in Hrun; unfold with_client in Hrun; destruct Ha as [cl Hcl];
    cbn [heap set_hub] in Hrun; rewrite Hcl in Hrun; injection Hrun as <-.
  - done.
  - simpl. rewrite Q2. simpl. intros r' c'. rewrite list_elem_of_singleton. intros ->.
    rewrite lookup_insert_eq. by intros [= <-].
Qed.

Lemma serial_read w c again w1 :
  serial_ok w → run (readPump_body c) w = Some (again, w1) →
  if again then midway w1 else serial_ok w1.
Proof.
  intros Hok. unfold readPump_body, call. cbn [mbind prog_mbind prog_bind run exec_op].
  unfold with_client. destruct (heap w !! c) as [cl|] eqn:Hc; [|done]. cbn [mbind option_bind].
  destruct (conn_open cl) eqn:Ho; [|by intros [= <- <-]].
  destruct (o_frames (env w)) as [|x fs]; [done|]. cbv zeta.
  set (w0 := set_env _ w). assert (serial_ok w0) as Hok0 by by apply (serial_equiv w).
  pose proof (co_open w0 (so_core w0 Hok0) c cl Hc Ho) as Hreg.
  destruct x as [[k d]|]; [|by intros [= <- <-]].
  case_decide; [by intros [= <- <-]|]. cbn [mbind option_bind]. destruct k.
  - change (prog_bind ?f (handleControl c d)) with (handleControl c d ≫= f).
    rewrite run_bind. destruct (run (handleControl c d) w0) as [[[] w2]|] eqn:E; [|done].
    cbn [mbind option_bind run]. intros [= <- <-].
    eapply midway_quiet; [done|apply quiet_handleControl|apply safe_handleControl; by exists cl|done|].
    eapply core_control; [apply Hok0|apply Hok0|done..].
  - cbn [run exec_op]. unfold with_client. change (heap w0) with (heap w). rewrite Hc.
    cbn [mbind option_bind]. unfold Peer. destruct (bool_decide _); [|intros [= <- <-]].
    + cbn [run exec_op]. unfold with_client. change (heap w0) with (heap w). rewrite Hc.
      cbn [mbind option_bind].
      change (prog_bind ?f (Route ?a ?b)) with (Route a b ≫= f). rewrite run_bind.
      destruct (run (Route _ _) w0) as [[[] w2]|] eqn:E; [|done].
      cbn [mbind option_bind run]. intros [= <- <-]. by eapply midway_Route.
    + by apply (midway_of w0); destruct Hok0.
Qed.

(** The hub registers a connection that was just admitted. *)
Lemma core_registered w r c :
  wf_world w → core w → heap w !! r = None → DeviceID c ≠ "" →
  pairedWith c = default "" (partner (db w) (DeviceID c)) →
  let id := DeviceID c in
  ∀ w', env w' = env w → db w' = db w → heap w' = <[r := c]> (heap w) →
  clients (hub w') = clients (hub w) →
  core (set_entry id (Some r) (evicted (clients (hub w) !! id) w')).
Proof.
  intros Hwf [Hf Hl Hi Ho Ha] Hr Hne Hp id w' Ee Ed Eh Ec.
  set (w2 := evicted (clients (hub w) !! id) w').
  assert (env w2 = env w ∧ db w2 = db w ∧ clients (hub w2) = clients (hub w)) as (Ee2 & Ed2 & Ec2)
    by (unfold w2, evicted; case_match; simpl; by rewrite ?Ee, ?Ed, ?Ec).
  assert (∀ r' c', heap w2 !! r' = Some c' →
    ∃ c0, <[r := c]> (heap w) !! r' = Some c0 ∧ DeviceID c' = DeviceID c0 ∧
      pairedWith c' = pairedWith c0 ∧
      (conn_open c' = true → conn_open c0 = true ∧ clients (hub w) !! id ≠ Some r')) as Hh.
  { intros r' c' H'. unfold w2, evicted in H'. destruct (clients (hub w) !! id) as [o|].
    - apply heap_on_client_inv in H' as (c0 & H0 & ->). rewrite Eh in H0. exists c0.
      case_decide; split_and!; try done. intros. split; [done|congruence].
    - rewrite Eh in H'. exists c'. split_and!; try done. }
  split; simpl.
  - by rewrite Ee2.
  - by rewrite Ed2.
  - intros r' c' (c0 & H0 & -> & _)%Hh. apply lookup_insert_Some in H0 as [[_ <-]|[_ H0]]; eauto.
  - intros r' c' (c0 & H0 & -> & _ & Hop)%Hh Hop'. destruct (Hop Hop') as [Hop0 Hn].
    rewrite Ec2. apply lookup_insert_Some in H0 as [[<- <-]|[Hne' H0]].
    + by rewrite lookup_partial_alter_eq.
    + destruct (decide (DeviceID c0 = id)) as [E|E].
      * destruct Hn. rewrite <- E. by apply Ho.
      * rewrite lookup_partial_alter_ne by done. by apply Ho.
  - intros id' r' c'. rewrite Ec2, Ed2. destruct (decide (id' = id)) as [->|E].
    + rewrite lookup_partial_alter_eq. intros [= <-] (c0 & H0 & _ & -> & _)%Hh.
      rewrite lookup_insert_eq in H0. injection H0 as <-. done.
    + rewrite lookup_partial_alter_ne by done. intros Hid (c0 & H0 & _ & -> & _)%Hh.
      apply lookup_insert_Some in H0 as [[<- <-]|[_ H0]]; [|by eapply Ha].
      destruct (wf_clients w Hwf _ _ Hid) as (? & ? & _). congruence.
Qed.

Lemma serial_register w w1 id row mb w' :
  serial_ok w → id ≠ "" → db w !! id = Some row → wf_world w1 →
  w1 ≡ admitted_world w id (r_paired_with row) mb → settle_hub w1 = Some w' → serial_ok w'.
Proof.
  intros [Hwf Hco [Q1 Q2]%serial_queues] Hne Hrow Hwf1 E.
  set (r := alloc (heap w)). set (c := welcomed w id (r_paired_with row) mb).
  destruct E as (E1 & E2 & E3 & _ & E4). fold r c in E1, E2. simpl in E1, E2, E3.
  assert (pending w1 = 1) as Hp by (unfold pending; rewrite E2; simpl; by rewrite Q1, Q2).
  unfold settle_hub. rewrite Hp. cbn [hub_turns].
  destruct (hub_turn w1 Hwf1) as (w2 & H2 & Hwf2 & Hp2); [lia|]. rewrite H2.
  cbn [mbind option_bind]. intros [= <-]. split; [done| |lia].
  unfold Run_body in H2. rewrite run_bind in H2. cbn [run call exec_op] in H2.
  rewrite E2 in H2. simpl Register in H2. simpl Unregister in H2. rewrite Q1, Q2 in H2.
  cbn [mbind option_bind app] in H2. rewrite run_bind in H2.
  set (w0 := set_hub _ w1) in H2.
  assert (heap w0 !! r = Some c) as Hr by (simpl; by rewrite E1, lookup_insert_eq).
  assert (wf_world w0) as Hwf0.
  { apply wf_hub; simpl; [done| | |lia|by rewrite Q2; simpl; lia].
    - intros id' r' H. apply (wf_clients w1 Hwf1). by rewrite E2.
    - rewrite Q2. set_solver. }
  cbv iota in H2. fold r in H2. rewrite (run_run_register w0 r c Hwf0 Hr) in H2. cbn [mbind option_bind run] in H2.
  injection H2 as <-. eapply core_mild; [apply mild_notified|].
  assert (core (set_env (env w1) w)) as Hco'.
  { eapply core_mild; [|done]. apply mild_equiv. by split_and!. }
  apply (core_registered (set_env (env w1) w) r c); try done.
  - by apply (wf_same w).
  - apply alloc_fresh.
  - simpl. unfold partner. by rewrite Hrow.
Qed.

Lemma serial_connect w mb id token o w1 w' :
  serial_ok w → run (Handler mb id token) w = Some (o, w1) → settle_hub w1 = Some w' →
  serial_ok w'.
Proof.
  intros Hok Hrun Hset. pose proof (serial_queues w (so_pending w Hok)) as [Q1 Q2].
  assert (wf_world w1) as Hwf1.
  { eapply run_wf; [apply Hok| |done]. eapply safe_ext; [apply safe_Handler|done]. }
  assert (∀ w2, w2 ≡ w → settle_hub w2 = Some w' → serial_ok w') as Hsame.
  { intros w2 E. pose proof (serial_equiv _ _ E Hok) as H2. unfold settle_hub.
    rewrite (so_pending w2 H2). by intros [= <-]. }
  pose proof (run_Handler w mb id token (co_faults w (so_core w Hok))) as H. cbv zeta in H.
  rewrite Q1 in H. specialize (H ltac:(unfold channelSize; simpl; lia)).
  case_decide as Hne; [rewrite Hrun in H; simplify_eq; by apply (Hsame w)|].
  destruct (db w !! id) as [row|] eqn:Hrow; [|rewrite Hrun in H; simplify_eq; by apply (Hsame w)].
  case_decide; [|rewrite Hrun in H; simplify_eq; by apply (Hsame w)].
  case_match; [rewrite Hrun in H; simplify_eq; by apply (Hsame w)|].
  destruct H as (w2 & H2 & E). rewrite Hrun in H2. injection H2 as _ <-.
  destruct ((coin w).1); [|by apply (Hsame w1)].
  eapply serial_register; [done| |done..]. naive_solver.
Qed.

Fixpoint unqueued {A} (p : prog A) : Prop :=
  match p with
  | Ret _ => True
  | Op o k => keeps_queues o ∧ ∀ b, unqueued (k b)
  end.

Lemma run_queues {A} (p : prog A) w x w' :
  unqueued p → run p w = Some (x, w') → pending w' = pending w.
Proof.
  revert w. induction p as [y|B o k IH]; cbn [run unqueued]; intros w Hq Hr; [by simplify_eq|].
  destruct Hq as [Ho Hk]. apply bind_Some in Hr as ([b w1] & He & Hr).
  rewrite (IH b w1) by done. apply exec_queues in He as [E1 E2]; [|done].
  unfold pending. by rewrite E1, E2.
Qed.

(** A program that is mild and leaves the hub's channels alone. *)
Lemma serial_mild {A} (p : prog A) w x w' :
  serial_ok w → mild_prog p → unqueued p → safe (allocated w) p (λ _ _, True) →
  run p w = Some (x, w') → serial_ok w'.
Proof.
  intros Hok Hm Hq Hs Hr. pose proof (co_faults w (so_core w Hok)) as Hf. split.
  - by eapply run_wf; [apply Hok|..].
  - by eapply core_mild; [eapply mild_run|apply Hok].
  - rewrite (run_queues _ _ _ _ Hq Hr). by apply so_pending.
Qed.

Lemma serial_turn w e w' : serial_ok w → serial w e = Some w' → serial_ok w'.
Proof.
  intros Hok. pose proof (co_faults w (so_core w Hok)) as Hf.
  destruct e as [mb id tok|c|c|id|o]; cbn [serial].
  - intros ([o w1] & H1 & H2)%bind_Some. by eapply serial_connect.
  - intros ([again w1] & H1 & H2)%bind_Some. pose proof (serial_read _ _ _ _ Hok H1) as H.
    destruct again; [by eapply midway_settle|]. apply bind_Some in H2 as ([[] w2] & H2 & H3).
    eapply midway_settle; [|done]. by eapply midway_Pump_end.
  - intros ([again w1] & H1 & ->)%fmap_Some.
    assert (allocated w c) as Ha.
    { unfold writePump_body, call in H1. cbn [mbind prog_mbind prog_bind run exec_op] in H1.
      unfold with_client in H1. by destruct (heap w !! c) eqn:E; [eexists|]. }
    eapply serial_mild; [done|apply mild_writePump| |by apply safe_writePump_body|done].
    unfold writePump_body, call. cbn [mbind prog_mbind prog_bind unqueued]. split; [done|].
    intros [f| |]; cbn; try done. split; [done|]. intros []; [|done]. by destruct (closeAfter f).
  - intros ([x w1] & H1 & ->)%fmap_Some.
    eapply serial_mild, H1; [done|mild_ops|by cbn|safe_ops].
  - case_decide; [|done]. intros [= <-]. destruct Hok as [Hwf [? ? ? ? ?] Hp].
    split; [by apply (wf_same w)|by split|done].
Qed.

(** ** Properties *)

Fixpoint serial_run (w : world) (es : list turn) : option world :=
  match es with
  | [] => Some w
  | e :: es => w' ← serial w e; serial_run w' es
  end.

Lemma serial_run_ok w es w' : serial_ok w → serial_run w es = Some w' → serial_ok w'.
Proof.
  revert w. induction es as [|e es IH]; simpl; intros w Hok; [by intros [= <-]|].
  intros (w1 & H1 & H2)%bind_Some. eapply IH; [|done]. by eapply serial_turn.
Qed.

Definition start (now : Z) (t : table) (o : oracle) : world := (initial now t o).1.

Lemma serial_ok_start now t o : links_sym t → o_faults o = [] → serial_ok (start now t o).
Proof.
  intros Hl Hf. split.
  - by apply (inv_world (λ _, True) (initial now t o)), sys_inv_initial.
  - split; try done; intros *; simpl; by rewrite lookup_empty.
  - done.
Qed.

(** C15: When turns do not overlap and the store works, after any history of connections,
    control and binary frames, disconnections and writes, every registered connection
    routes to exactly the device the store links it to, every open connection is the one
    registered for its device, and links are symmetric. *)
Theorem routing_agrees now t o es w :
  links_sym t → o_faults o = [] → serial_run (start now t o) es = Some w →
  links_sym (db w) ∧
  (∀ r c, heap w !! r = Some c → conn_open c = true → clients (hub w) !! DeviceID c = Some r) ∧
  (∀ id r c, clients (hub w) !! id = Some r → heap w !! r = Some c →
     DeviceID c = id ∧ Peer c = (default "" (partner (db w) id),
                                 bool_decide (default "" (partner (db w) id) ≠ ""))).
Proof.
  intros Hl Hf Hrun.
  destruct (serial_run_ok _ _ _ (serial_ok_start now t o Hl Hf) Hrun) as [Hwf [? ? ? ? Ha] _].
  split_and!; [done..|]. intros id r c Hid Hr.
  destruct (wf_clients w Hwf _ _ Hid) as (c0 & H0 & E0). assert (c0 = c) as -> by congruence.
  split; [done|]. unfold Peer. by rewrite (Ha id r c).
Qed.

Lemma serial_deliver w ra ca rb cb b payload rest :
  serial_ok w → heap w !! ra = Some ca → conn_open ca = true → pairedWith ca = b → b ≠ "" →
  clients (hub w) !! b = Some rb → heap w !! rb = Some cb →
  closed cb = false → length (send cb) < sendBufferSize →
  ¬ (0 < maxMessageBytes ca < Z.of_nat (slen payload))%Z →
  o_frames (env w) = Some (BinaryMessage, payload) :: rest →
  ∃ w1, serial w (TRead ra) = Some w1 ∧
    w1 ≡ on_client rb (λ c, with_send (send c ++ [WsFrame BinaryMessage payload false]) c) w ∧
    o_coin (env w1) = o_coin (env w).
Proof.
  intros Hok Hca Hoa Hp Hb Hrb Hcb Hcl Hlen Hsize Hfr. cbn [serial].
  unfold readPump_body, call. cbn [mbind prog_mbind prog_bind run exec_op].
  unfold with_client. rewrite Hca. cbn [mbind option_bind]. rewrite Hoa, Hfr. cbv zeta.
  rewrite decide_False by done. cbn [mbind option_bind]. set (w0 := set_env _ w).
  cbn [run exec_op]. unfold with_client. change (heap w0) with (heap w). rewrite Hca.
  cbn [mbind option_bind]. unfold Peer. rewrite Hp, bool_decide_eq_true_2 by done.
  cbn [run exec_op]. unfold with_client. change (heap w0) with (heap w). rewrite Hca.
  cbn [mbind option_bind]. change (prog_bind ?f (Route ?x ?y)) with (Route x y ≫= f).
  rewrite run_bind. pose proof (run_Route w0 (DeviceID ca) payload b) as H. cbv zeta in H.
  change (hub w0) with (hub w) in H. rewrite Hrb in H.
  destruct H as (cr & Hcr & _ & H); [by apply (wf_same w), so_wf|].
  assert (cr = cb) as -> by (change (heap w0) with (heap w) in Hcr; congruence).
  rewrite decide_True in H by done. rewrite H. cbn [mbind option_bind run].
  assert (∀ f, settle_hub (on_client rb f w0) = Some (on_client rb f w0)) as ->.
  { intros f. unfold settle_hub. pose proof (so_pending w Hok) as Hpe.
    change (pending (on_client rb f w0)) with (pending w). by rewrite Hpe. }
  by eexists.
Qed.

Lemma serial_write w rb cb f q :
  heap w !! rb = Some cb → send cb = f :: q → conn_open cb = true → o_coin (env w) = [] →
  closeAfter f = false →
  serial w (TWrite rb) = Some
    (on_client rb (λ c, write_frame (kind f) (data f) (with_send q c)) w).
Proof.
  intros Hcb Hs Ho Hcoin Hca. cbn [serial]. unfold writePump_body, call.
  cbn [mbind prog_mbind prog_bind run exec_op]. unfold with_client. rewrite Hcb.
  cbn [mbind option_bind]. rewrite Hs. unfold coin. rewrite Hcoin. cbn [mbind option_bind].
  cbn [run exec_op]. unfold with_client. simpl heap. rewrite lookup_insert_eq.
  cbn [mbind option_bind]. unfold coin. simpl env. rewrite Hcoin. simpl conn_open. rewrite Ho.
  cbn [andb mbind option_bind run]. rewrite Hca. cbn [run fmap option_fmap option_map snd].
  f_equal. unfold set_client, on_client. simpl. f_equal.
  rewrite insert_insert_eq. by rewrite <- (alter_insert _ _ _ _ Hcb).
Qed.

(** End to end through the relay: after any such history, a binary frame read from an
    open connection of "a" whose stored partner "b" is connected with an empty queue is
    written to "b"'s socket unchanged by "b"'s next write; no other connection changes. *)
Theorem relay_end_to_end now t o es w a b ra ca rb cb payload rest :
  links_sym t → o_faults o = [] → serial_run (start now t o) es = Some w →
  clients (hub w) !! a = Some ra → heap w !! ra = Some ca → conn_open ca = true →
  partner (db w) a = Some b → b ≠ "" →
  clients (hub w) !! b = Some rb → heap w !! rb = Some cb →
  conn_open cb = true → closed cb = false → send cb = [] →
  ¬ (0 < maxMessageBytes ca < Z.of_nat (slen payload))%Z →
  o_frames (env w) = Some (BinaryMessage, payload) :: rest → o_coin (env w) = [] →
  ∃ w1 w2, serial w (TRead ra) = Some w1 ∧ serial w1 (TWrite rb) = Some w2 ∧
    heap w2 !! rb = Some (write_frame BinaryMessage payload cb) ∧
    (∀ r, r ≠ rb → heap w2 !! r = heap w !! r).
Proof.
  intros Hl Hf Hrun Ha Hca Hoa Hp Hb Hrb Hcb Hob Hclb Hsb Hsize Hfr Hcoin.
  pose proof (serial_run_ok _ _ _ (serial_ok_start now t o Hl Hf) Hrun) as Hok.
  pose proof (co_agree w (so_core w Hok) a ra ca Ha Hca) as Hpa. rewrite Hp in Hpa.
  destruct (serial_deliver w ra ca rb cb b payload rest) as (w1 & H1 & E & Hc1); try done.
  { rewrite Hsb. unfold sendBufferSize. simpl. lia. }
  destruct E as (Eh & _). set (f := WsFrame BinaryMessage payload false) in *.
  assert (heap w1 !! rb = Some (with_send [f] cb)) as Hb1.
  { rewrite Eh, heap_on_client, decide_True, Hcb by done. simpl. by rewrite Hsb. }
  pose proof (serial_write w1 rb _ f [] Hb1 eq_refl Hob (eq_trans Hc1 Hcoin) eq_refl) as H2.
  eexists w1, _. split_and!; [done|exact H2|..].
  - rewrite heap_on_client, decide_True, Hb1 by done. simpl. f_equal.
    unfold write_frame. simpl. by rewrite Hsb.
  - intros r Hr. by rewrite heap_on_client, decide_False, Eh, heap_on_client, decide_False by done.
Qed.

(** *** Witnesses: "A" and "B" connect and pair; then "A" sends a frame *)

Definition pair_history : list turn :=
  [TConnect 65536 "A" "ta"; TConnect 65536 "B" "tb"; TRead 1; TRead 2; TWrite 2; TWrite 2].

Definition pair_oracle : oracle :=
  ex_oracle [] (race_frames ++ [Some (BinaryMessage, "hello")]).

Definition paired : world := default (start 0 ex_db pair_oracle)
  (serial_run (start 0 ex_db pair_oracle) pair_history).

Definition paired_client (r : ref) : Client := default (NewClient "" "" 0) (heap paired !! r).

Lemma paired_run : serial_run (start 0 ex_db pair_oracle) pair_history = Some paired.
Proof. by vm_compute. Qed.

Lemma routing_agrees_witness :
  links_sym (db paired) ∧ Peer (paired_client 1) = ("B", true).
Proof.
  destruct ex_db_ok as [Hl _].
  destruct (routing_agrees 0 ex_db pair_oracle pair_history paired Hl eq_refl paired_run)
    as (H1 & _ & H3).
  split; [done|]. destruct (H3 "A" 1 (paired_client 1)) as [_ ->]; by vm_compute.
Defined.

Lemma relay_end_to_end_witness :
  ∃ w1 w2, serial paired (TRead 1) = Some w1 ∧ serial w1 (TWrite 2) = Some w2 ∧
    heap w2 !! 2 = Some (write_frame BinaryMessage "hello" (paired_client 2)) ∧
    (∀ r, r ≠ 2 → heap w2 !! r = heap paired !! r).
Proof.
  destruct ex_db_ok as [Hl _].
  apply (relay_end_to_end 0 ex_db pair_oracle pair_history paired "A" "B" 1 (paired_client 1) 2
    (paired_client 2) "hello" []);
    [exact Hl|reflexivity|exact paired_run|..]; first [by vm_compute|vm_compute; by intros [_ ?]].
Defined.
