(* ===== verification/Keys.v ===== *)
(** * Device keys (src/sdk/go/crypto.go)

    Base64 with the standard alphabet and padding ([encoding/base64]'s [StdEncoding],
    whose decoder skips line breaks), home-directory expansion with [filepath.Join], and
    the key files.  The disk is a map from paths to contents, with the sets of paths on
    which reading or writing fails; [curve25519.ScalarBaseMult] is a parameter. *)

From S2P Require Import Prelude.
Local Open Scope Z_scope.

(** ** base64.StdEncoding *)

Definition char64 (i : Z) : ascii :=
  byte_of (if i <? 26 then 65 + i else if i <? 52 then 97 + (i - 26)
           else if i <? 62 then 48 + (i - 52) else if i =? 62 then 43 else 47).

Definition sextet (c : ascii) : option Z :=
  let b := byte_val c in
  if decide (65 ≤ b ≤ 90) then Some (b - 65)
  else if decide (97 ≤ b ≤ 122) then Some (b - 97 + 26)
  else if decide (48 ≤ b ≤ 57) then Some (b - 48 + 52)
  else if decide (b = 43) then Some 62
  else if decide (b = 47) then Some 63
  else None.

Fixpoint encode64 (l : list ascii) : list ascii :=
  match l with
  | [] => []
  | [b0] =>
      let v := byte_val b0 * 65536 in
      [char64 (v / 262144); char64 (v / 4096 mod 64); "="%char; "="%char]
  | [b0; b1] =>
      let v := byte_val b0 * 65536 + byte_val b1 * 256 in
      [char64 (v / 262144); char64 (v / 4096 mod 64); char64 (v / 64 mod 64); "="%char]
  | b0 :: b1 :: b2 :: l =>
      let v := byte_val b0 * 65536 + byte_val b1 * 256 + byte_val b2 in
      char64 (v / 262144) :: char64 (v / 4096 mod 64) :: char64 (v / 64 mod 64)
        :: char64 (v mod 64) :: encode64 l
  end.

Definition quantum (s0 s1 s2 s3 : Z) : Z := s0 * 262144 + s1 * 4096 + s2 * 64 + s3.

Definition is_newline (c : ascii) : bool := bool_decide (byte_val c = 10 ∨ byte_val c = 13).

Fixpoint decode64 (l : list ascii) : option (list ascii) :=
  match l with
  | [] => Some []
  | c0 :: c1 :: c2 :: c3 :: rest =>
      s0 ← sextet c0;
      s1 ← sextet c1;
      match sextet c2, sextet c3 with
      | Some s2, Some s3 =>
          let v := quantum s0 s1 s2 s3 in
          bs ← decode64 rest;
          Some (byte_of (v / 65536) :: byte_of (v / 256) :: byte_of v :: bs)
      | Some s2, None =>
          if decide (c3 = "="%char ∧ rest = []) then
            let v := quantum s0 s1 s2 0 in Some [byte_of (v / 65536); byte_of (v / 256)]
          else None
      | None, _ =>
          if decide (c2 = "="%char ∧ c3 = "="%char ∧ rest = []) then
            let v := quantum s0 s1 0 0 in Some [byte_of (v / 65536)]
          else None
      end
  | _ => None
  end.

Definition encodeBase64 (b : bytes) : string := of_chars (encode64 (chars b)).

Definition decodeBase64 (s : string) : option bytes :=
  of_chars <$> decode64 (filter (λ c, is_newline c = false) (chars s)).

Lemma sextet_char64 i : 0 ≤ i < 64 → sextet (char64 i) = Some i ∧ is_newline (char64 i) = false.
Proof.
  intros Hi.
  assert (Forall (λ n, sextet (char64 (Z.of_nat n)) = Some (Z.of_nat n) ∧
                       is_newline (char64 (Z.of_nat n)) = false) (seq 0 64)) as H.
  { apply Forall_forall. intros n Hn. apply elem_of_seq in Hn.
    do 64 (destruct n as [|n]; [by vm_compute|]). lia. }
  rewrite Forall_forall in H. specialize (H (Z.to_nat i)). rewrite Z2Nat.id in H by lia.
  apply H, elem_of_seq. lia.
Qed.

Ltac sextet_at i := let H := fresh in
  assert (0 ≤ i < 64) as H by (Z.to_euclidean_division_equations; lia);
  destruct (sextet_char64 i H) as [-> _]; clear H.

Lemma list_ind3 {A} (P : list A → Prop) :
  P [] → (∀ x, P [x]) → (∀ x y, P [x; y]) → (∀ x y z l, P l → P (x :: y :: z :: l)) → ∀ l, P l.
Proof.
  intros H0 H1 H2 H3. fix IH 1. intros [|x [|y [|z l]]]; [apply H0|apply H1|apply H2|apply H3, IH].
Qed.

Lemma quantum_sextets v :
  quantum (v / 262144) (v / 4096 mod 64) (v / 64 mod 64) (v mod 64) = v.
Proof. unfold quantum. Z.to_euclidean_division_equations; lia. Qed.

Lemma byte_of_eq z b : z mod 256 = byte_val b → byte_of z = b.
Proof. intros E. unfold byte_of. rewrite E. unfold byte_val. by rewrite N2Z.id, ascii_N_embedding. Qed.

Lemma three_bytes b0 b1 b2 :
  let v := byte_val b0 * 65536 + byte_val b1 * 256 + byte_val b2 in
  byte_of (v / 65536) = b0 ∧ byte_of (v / 256) = b1 ∧ byte_of v = b2 ∧ 0 ≤ v < 16777216.
Proof.
  pose proof (byte_val_range b0). pose proof (byte_val_range b1). pose proof (byte_val_range b2).
  cbv zeta. split_and!; try lia; apply byte_of_eq; Z.to_euclidean_division_equations; lia.
Qed.

Lemma decode64_encode64 l : decode64 (encode64 l) = Some l.
Proof.
  induction l as [|b0|b0 b1|b0 b1 b2 l IH] using list_ind3; [done|..]; cbn [encode64 decode64].
  - destruct (three_bytes b0 "000" "000") as (E0 & _ & _ & Hv).
    change (byte_val "000") with 0 in *. rewrite !Z.add_0_r in *. set (v := byte_val b0 * 65536) in *.
    pose proof (quantum_sextets v) as Q.
    replace (v / 64 mod 64) with 0 in Q by (unfold v; Z.to_euclidean_division_equations; lia).
    replace (v mod 64) with 0 in Q by (unfold v; Z.to_euclidean_division_equations; lia).
    sextet_at (v / 262144). sextet_at (v / 4096 mod 64). simpl. by rewrite Q, E0.
  - destruct (three_bytes b0 b1 "000") as (E0 & E1 & _ & Hv).
    change (byte_val "000") with 0 in *. rewrite !Z.add_0_r in *.
    set (v := byte_val b0 * 65536 + byte_val b1 * 256) in *. pose proof (quantum_sextets v) as Q.
    replace (v mod 64) with 0 in Q by (unfold v; Z.to_euclidean_division_equations; lia).
    sextet_at (v / 262144). sextet_at (v / 4096 mod 64). sextet_at (v / 64 mod 64). simpl.
    by rewrite Q, E0, E1.
  - destruct (three_bytes b0 b1 b2) as (E0 & E1 & E2 & Hv).
    set (v := byte_val b0 * 65536 + byte_val b1 * 256 + byte_val b2) in *.
    sextet_at (v / 262144). sextet_at (v / 4096 mod 64). sextet_at (v / 64 mod 64).
    sextet_at (v mod 64). cbn [mbind option_bind]. rewrite IH, quantum_sextets. cbn [mbind option_bind].
    by rewrite E0, E1, E2.
Qed.

Lemma encode64_no_newline l : Forall (λ c, is_newline c = false) (encode64 l).
Proof.
  induction l as [|b0|b0 b1|b0 b1 b2 l IH] using list_ind3; cbn [encode64]; [done|..];
    pose proof (byte_val_range b0); try pose proof (byte_val_range b1);
    try pose proof (byte_val_range b2);
    repeat constructor; try done; try (apply sextet_char64; Z.to_euclidean_division_equations; lia).
Qed.

Lemma decode_encode_Base64 b : decodeBase64 (encodeBase64 b) = Some b.
Proof.
  unfold decodeBase64, encodeBase64. rewrite chars_of_chars.
  assert (filter (λ c, is_newline c = false) (encode64 (chars b)) = encode64 (chars b)) as ->.
  { induction (encode64_no_newline (chars b)) as [|c l Hc _ IH]; [done|].
    by rewrite filter_cons_True, IH. }
  rewrite decode64_encode64. simpl. by rewrite of_chars_chars.
Qed.

Lemma encodeBase64_inj a b : encodeBase64 a = encodeBase64 b → a = b.
Proof.
  intros E. pose proof (decode_encode_Base64 a) as H. rewrite E, decode_encode_Base64 in H. congruence.
Qed.

(** ** Paths *)

Definition slash : ascii := "/"%char.

Fixpoint split_slash (l : list ascii) : list (list ascii) :=
  match l with
  | [] => [[]]
  | c :: l =>
      if decide (c = slash) then [] :: split_slash l
      else match split_slash l with
           | x :: xs => (c :: x) :: xs
           | [] => [[c]]
           end
  end.

Fixpoint join_slash (l : list (list ascii)) : list ascii :=
  match l with
  | [] => []
  | [x] => x
  | x :: l => x ++ slash :: join_slash l
  end.

(** The components [filepath.Clean] keeps, last one first. *)
Definition clean_step (rooted : bool) (out : list (list ascii)) (c : list ascii) : list (list ascii) :=
  if decide (c = [] ∨ c = chars ".") then out
  else if decide (c = chars "..") then
    match out with
    | x :: out' => if decide (x = chars "..") then c :: out else out'
    | [] => if rooted then [] else [c]
    end
  else c :: out.

Definition Clean (path : list ascii) : list ascii :=
  let rooted := match path with c :: _ => bool_decide (c = slash) | [] => false end in
  let body := join_slash (rev (foldl (clean_step rooted) [] (split_slash path))) in
  if rooted then slash :: body
  else match body with [] => chars "." | _ => body end.

Definition Join (a b : list ascii) : list ascii :=
  match a, b with
  | [], [] => []
  | [], b => Clean b
  | a, b => Clean (a ++ slash :: b)
  end.

(** Everything up to and including the last slash. *)
Fixpoint up_to_slash (l : list ascii) : list ascii :=
  match l with
  | [] => []
  | c :: l =>
      match up_to_slash l with
      | [] => if decide (c = slash) then [c] else []
      | u => c :: u
      end
  end.

Definition Dir (path : string) : string := of_chars (Clean (up_to_slash (chars path))).

(** [home] is [os.UserHomeDir]; [None] is its error. *)
Definition expandHome (home : option string) (path : string) : string :=
  match chars path with
  | "~"%char :: rest =>
      match home with
      | Some h => of_chars (Join (chars h) rest)
      | None => path
      end
  | _ => path
  end.

(** ** Key files *)

Record disk := Disk { files : gmap string bytes; failing : gset string }.

Inductive keyerr := ErrNotExist | ErrIO | ErrInvalidKey | ErrRandom.

Definition ReadFile (path : string) (d : disk) : keyerr + bytes :=
  if decide (path ∈ failing d) then inl ErrIO
  else match files d !! path with Some b => inr b | None => inl ErrNotExist end.

Definition WriteFile (path : string) (b : bytes) (d : disk) : option keyerr * disk :=
  if decide (path ∈ failing d) then (Some ErrIO, d)
  else (None, Disk (<[path := b]> (files d)) (failing d)).

(** Keys are 32 bytes. *)
Definition PrivateKey := bytes.
Definition PublicKey := bytes.

Definition keyFromBase64 (s : string) : option bytes :=
  raw ← decodeBase64 s;
  if decide (slen raw = 32%nat) then Some raw else None.

Definition PrivateKeyFromBase64 (s : string) : option PrivateKey := keyFromBase64 s.
Definition publicKeyFromBase64 (s : string) : option PublicKey := keyFromBase64 s.

(** [io.ReadFull(rand.Reader, raw[:])] of 32 bytes. *)
Definition GenerateKey (random : option bytes) : keyerr + PrivateKey :=
  match random with Some raw => inr raw | None => inl ErrRandom end.

Definition newline : ascii := "010"%char.

Section files.
Context (home : option string).

Definition SaveToFile (pk : PrivateKey) (path : string) (d : disk) : option keyerr * disk :=
  let path := expandHome home path in
  if decide (Dir path ∈ failing d) then (Some ErrIO, d)
  else WriteFile path (encodeBase64 pk +:+ of_chars [newline]) d.

(** Trailing line breaks and blanks are dropped. *)
Fixpoint trim_end (l : list ascii) : list ascii :=
  match l with
  | [] => []
  | c :: l =>
      match trim_end l with
      | [] => if decide (byte_val c = 10 ∨ byte_val c = 13 ∨ byte_val c = 32) then [] else [c]
      | t => c :: t
      end
  end.

Definition LoadKeyFromFile (path : string) (d : disk) : keyerr + PrivateKey :=
  match ReadFile (expandHome home path) d with
  | inl e => inl e
  | inr data =>
      match keyFromBase64 (of_chars (trim_end (chars data))) with
      | Some raw => inr raw
      | None => inl ErrInvalidKey
      end
  end.

Definition LoadOrGenerateKey (random : option bytes) (path : string) (d : disk)
    : (keyerr + PrivateKey) * disk :=
  match LoadKeyFromFile path d with
  | inr key => (inr key, d)
  | inl ErrNotExist =>
      match GenerateKey random with
      | inl e => (inl e, d)
      | inr key =>
          match SaveToFile key path d with
          | (Some e, d') => (inl e, d')
          | (None, d') => (inr key, d')
          end
      end
  | inl e => (inl e, d)
  end.

(** ** Properties *)

Lemma char64_not_blank i : 0 ≤ i < 64 →
  ¬ (byte_val (char64 i) = 10 ∨ byte_val (char64 i) = 13 ∨ byte_val (char64 i) = 32).
Proof.
  intros Hi. destruct (sextet_char64 i Hi) as [Hs _]. unfold sextet in Hs.
  repeat case_decide; simplify_eq; lia.
Qed.

Lemma char64_ascii i : 0 ≤ i < 64 → byte_val (char64 i) < 128.
Proof.
  intros Hi. destruct (sextet_char64 i Hi) as [Hs _]. unfold sextet in Hs.
  repeat case_decide; simplify_eq; lia.
Qed.

Lemma encode64_ascii l : Forall (λ c, byte_val c < 128) (encode64 l).
Proof.
  induction l as [|b0|b0 b1|b0 b1 b2 l IH] using list_ind3; cbn [encode64]; [done|..];
    pose proof (byte_val_range b0); try pose proof (byte_val_range b1);
    try pose proof (byte_val_range b2);
    repeat constructor; try done;
    try (apply char64_ascii; Z.to_euclidean_division_equations; lia).
Qed.

Lemma encode64_length l : (length (encode64 l) ≤ 4 * length l ∧ 3 * length (encode64 l) ≤ 4 * (length l + 2))%nat.
Proof.
  induction l as [|a|a b|a b c l IH] using list_ind3; cbn [encode64 length]; lia.
Qed.

Lemma encodeBase64_nonempty b : b ≠ "" → encodeBase64 b ≠ "".
Proof.
  destruct b as [|c b]; [done|]. intros _. unfold encodeBase64.
  destruct b as [|c1 [|c2 b]]; by cbn.
Qed.

(** The encoding ends in a character that is no blank. *)
Lemma encode64_blank_free l :
  Forall (λ c, ¬ (byte_val c = 10 ∨ byte_val c = 13 ∨ byte_val c = 32)) (encode64 l).
Proof.
  induction l as [|b0|b0 b1|b0 b1 b2 l IH] using list_ind3; cbn [encode64]; [done|..];
    pose proof (byte_val_range b0); try pose proof (byte_val_range b1);
    try pose proof (byte_val_range b2);
    repeat constructor; try done;
    try (apply char64_not_blank; Z.to_euclidean_division_equations; lia);
    vm_compute; naive_solver.
Qed.

Lemma trim_end_newline l :
  Forall (λ c, ¬ (byte_val c = 10 ∨ byte_val c = 13 ∨ byte_val c = 32)) l →
  trim_end (l ++ [newline]) = l.
Proof.
  intros Hl. induction Hl as [|c l Hc _ IH]; [done|]. simpl. rewrite IH.
  destruct l; [|done]. by rewrite decide_False.
Qed.

Lemma load_saved pk path d d' :
  slen pk = 32%nat → SaveToFile pk path d = (None, d') → LoadKeyFromFile path d' = inr pk.
Proof.
  intros Hpk Hs. unfold SaveToFile, WriteFile in Hs. repeat case_decide; simplify_eq.
  unfold LoadKeyFromFile, ReadFile. cbn [files failing].
  rewrite decide_False, lookup_insert_eq by done.
  rewrite chars_app, chars_of_chars. unfold encodeBase64 at 1.
  rewrite chars_of_chars, trim_end_newline by apply encode64_blank_free.
  unfold keyFromBase64. fold (encodeBase64 pk). rewrite decode_encode_Base64. simpl.
  by rewrite decide_True.
Qed.

Lemma generated_key_stable random path d :
  (∀ b, random = Some b → slen b = 32%nat) →
  let '(r, d') := LoadOrGenerateKey random path d in
  (∀ key, r = inr key → slen key = 32%nat ∧ LoadKeyFromFile path d' = inr key) ∧
  (∀ p b, files d !! p = Some b → files d' !! p = Some b).
Proof.
  intros Hr. unfold LoadOrGenerateKey at 1. destruct (LoadKeyFromFile path d) as [e|key] eqn:E.
  - assert (∀ e' : keyerr, (∀ key, inl e' = inr key →
        slen key = 32%nat ∧ LoadKeyFromFile path d = inr key) ∧
        (∀ p b, files d !! p = Some b → files d !! p = Some b)) as Herr by (split; [done|auto]).
    destruct e; try apply Herr. unfold GenerateKey. destruct random as [raw|]; [|apply Herr].
    destruct (SaveToFile raw path d) as [[e|] d'] eqn:Es; cycle 1.
    { split.
      - intros key [= <-]. split; [by apply Hr|]. apply (load_saved raw path d d'); [by apply Hr|done].
      - intros p b Hp. unfold SaveToFile, WriteFile in Es. repeat case_decide; simplify_eq/=.
        rewrite lookup_insert_ne; [done|]. intros <-.
        unfold LoadKeyFromFile, ReadFile in E. rewrite decide_False, Hp in E by done.
        by repeat case_match. }
    unfold SaveToFile, WriteFile in Es. repeat case_decide; simplify_eq; apply Herr.
  - split; [|auto]. intros key' [= <-]. split; [|done].
    unfold LoadKeyFromFile in E. destruct (ReadFile _ d); [done|]. unfold keyFromBase64 in E.
    destruct (decodeBase64 _); simpl in E; [|done]. by case_decide; simplify_eq.
Qed.

(** [LoadOrGenerateKey] is stable: whenever it returns a key, every later call with
    the same path returns the same key and leaves the disk alone, whatever the random
    source does; it never changes a file that exists (an unreadable or invalid key file
    is reported, not replaced), and the keys it returns are 32 bytes. *)
Theorem LoadOrGenerateKey_stable random random' path d :
  (∀ b, random = Some b → slen b = 32%nat) →
  let '(r, d') := LoadOrGenerateKey random path d in
  (∀ key, r = inr key → slen key = 32%nat ∧ LoadOrGenerateKey random' path d' = (inr key, d')) ∧
  (∀ p b, files d !! p = Some b → files d' !! p = Some b).
Proof.
  intros Hr. pose proof (generated_key_stable random path d Hr) as Hk.
  destruct (LoadOrGenerateKey random path d) as [r d']. destruct Hk as [Hk Hf]. split; [|done].
  intros key E. destruct (Hk key E) as [Hl Hk2]. split; [done|]. unfold LoadOrGenerateKey. by rewrite Hk2.
Qed.
End files.

(** What is encoded is decoded: standard base64 with padding, for byte strings of any
    length. *)
Theorem base64_round_trip b : decodeBase64 (encodeBase64 b) = Some b.
Proof. apply decode_encode_Base64. Qed.

Definition ex_key : bytes := of_chars (replicate 32 "k"%char).

Lemma LoadOrGenerateKey_stable_witness :
  let d0 := Disk ∅ ∅ in
  let '(r, d1) := LoadOrGenerateKey (Some "/home/u") (Some ex_key) "~/.relayly/device.key" d0 in
  r = inr ex_key ∧ files d1 !! "/home/u/.relayly/device.key" ≠ None ∧
  LoadOrGenerateKey (Some "/home/u") None "~/.relayly/device.key" d1 = (inr ex_key, d1).
Proof.
  cbv zeta. pose proof (LoadOrGenerateKey_stable (Some "/home/u") (Some ex_key) None
    "~/.relayly/device.key" (Disk ∅ ∅)) as H.
  destruct (LoadOrGenerateKey (Some "/home/u") (Some ex_key) "~/.relayly/device.key" (Disk ∅ ∅))
    as [r d1] eqn:E.
  destruct H as [H _]; [by intros b [= <-]|].
  assert (r = inr ex_key ∧ files d1 !! "/home/u/.relayly/device.key" ≠ None) as [-> Hd].
  { vm_compute in E. injection E as <- <-. split; [reflexivity|by vm_compute]. }
  split_and!; [reflexivity|done|]. by apply (H ex_key).
Defined.
