(* ===== verification/Blake2s.v ===== *)
(** * BLAKE2s (src/sdk/cpp/third_party/blake2/blake2s-ref.c, blake2-impl.h)

    The hash function vendored with the C++ SDK, with its streaming state: 32-bit words and
    bytes are integers with their wrap-around written out, the buffer keeps the bytes that
    [memcpy] leaves in it.  [rfc_blake2s] is RFC 7693's definition of the function on a
    whole message, and [blake2s_rfc] says that the code computes it, however the message is
    cut into updates. *)

From S2P Require Import Prelude.
From stdpp Require Import list.

#[local] Open Scope Z_scope.

(** ** Words (blake2-impl.h) *)

Definition u32 (z : Z) : Z := z mod 2 ^ 32.
Definition u8 (z : Z) : Z := z mod 2 ^ 8.

Definition load32 (p : list Z) : Z :=
  Z.lor (Z.lor (Z.lor (Z.shiftl (p !!! 0%nat) 0) (Z.shiftl (p !!! 1%nat) 8))
    (Z.shiftl (p !!! 2%nat) 16)) (Z.shiftl (p !!! 3%nat) 24).

Definition store32 (w : Z) : list Z :=
  [u8 (Z.shiftr w 0); u8 (Z.shiftr w 8); u8 (Z.shiftr w 16); u8 (Z.shiftr w 24)].

Definition store16 (w : Z) : list Z := [u8 w; u8 (Z.shiftr w 8)].

Definition rotr32 (w : Z) (c : Z) : Z := Z.lor (Z.shiftr w c) (u32 (Z.shiftl w (32 - c))).

(** ** The state *)

Definition BLAKE2S_BLOCKBYTES : nat := 64.
Definition BLAKE2S_OUTBYTES : nat := 32.
Definition BLAKE2S_KEYBYTES : nat := 32.

Record blake2s_state := MkState {
  b_h : list Z;
  b_t : Z * Z;
  b_f : Z * Z;
  b_buf : list Z;
  b_buflen : nat;
  b_outlen : nat;
  b_last_node : Z
}.

Definition blake2s_IV : list Z := [
  0x6A09E667; 0xBB67AE85; 0x3C6EF372; 0xA54FF53A;
  0x510E527F; 0x9B05688C; 0x1F83D9AB; 0x5BE0CD19 ].

Definition blake2s_sigma : list (list nat) := [
  [  0;  1;  2;  3;  4;  5;  6;  7;  8;  9; 10; 11; 12; 13; 14; 15 ];
  [ 14; 10;  4;  8;  9; 15; 13;  6;  1; 12;  0;  2; 11;  7;  5;  3 ];
  [ 11;  8; 12;  0;  5;  2; 15; 13; 10; 14;  3;  6;  7;  1;  9;  4 ];
  [  7;  9;  3;  1; 13; 12; 11; 14;  2;  6;  5; 10;  4;  0; 15;  8 ];
  [  9;  0;  5;  7;  2;  4; 10; 15; 14;  1; 11; 12;  6;  8;  3; 13 ];
  [  2; 12;  6; 10;  0; 11;  8;  3;  4; 13;  7;  5; 15; 14;  1;  9 ];
  [ 12;  5;  1; 15; 14; 13;  4; 10;  0;  7;  6;  3;  9;  2;  8; 11 ];
  [ 13; 11;  7; 14; 12;  1;  3;  9;  5;  0; 15;  4;  8;  6;  2; 10 ];
  [  6; 15; 14;  9; 11;  3;  0;  8; 12;  2; 13;  7;  1;  4; 10;  5 ];
  [ 10;  2;  8;  4;  7;  6;  1;  5; 15; 11;  9; 14;  3; 12; 13;  0 ] ]%nat.

Definition blake2s_set_lastblock (st : blake2s_state) : blake2s_state :=
  let f1 := if bool_decide (b_last_node st ≠ 0) then u32 (-1) else (b_f st).2 in
  MkState (b_h st) (b_t st) (u32 (-1), f1) (b_buf st) (b_buflen st) (b_outlen st) (b_last_node st).

Definition blake2s_is_lastblock (st : blake2s_state) : bool := bool_decide ((b_f st).1 ≠ 0).

Definition increment (inc : Z) (t : Z * Z) : Z * Z :=
  let t0 := u32 (t.1 + inc) in
  (t0, u32 (t.2 + if t0 <? inc then 1 else 0)).

Definition blake2s_increment_counter (st : blake2s_state) (inc : Z) : blake2s_state :=
  MkState (b_h st) (increment inc (b_t st)) (b_f st) (b_buf st) (b_buflen st) (b_outlen st) (b_last_node st).

Definition blake2s_init0 : blake2s_state :=
  MkState blake2s_IV (0, 0) (0, 0) (replicate BLAKE2S_BLOCKBYTES 0) 0 0 0.

(** ** Compression *)

Definition G (m : list Z) (r i a b c d : nat) (v : list Z) : list Z :=
  let s k := m !!! ((blake2s_sigma !!! r) !!! (2 * i + k)%nat) in
  let va := u32 (v !!! a + v !!! b + s 0%nat) in
  let vd := rotr32 (Z.lxor (v !!! d) va) 16 in
  let vc := u32 (v !!! c + vd) in
  let vb := rotr32 (Z.lxor (v !!! b) vc) 12 in
  let va := u32 (va + vb + s 1%nat) in
  let vd := rotr32 (Z.lxor vd va) 8 in
  let vc := u32 (vc + vd) in
  let vb := rotr32 (Z.lxor vb vc) 7 in
  <[b := vb]> (<[c := vc]> (<[d := vd]> (<[a := va]> v))).

Definition ROUND (m : list Z) (r : nat) (v : list Z) : list Z :=
  let v := G m r 0 0 4 8 12 v in
  let v := G m r 1 1 5 9 13 v in
  let v := G m r 2 2 6 10 14 v in
  let v := G m r 3 3 7 11 15 v in
  let v := G m r 4 0 5 10 15 v in
  let v := G m r 5 1 6 11 12 v in
  let v := G m r 6 2 7 8 13 v in
  G m r 7 3 4 9 14 v.

Definition message_words (inp : list Z) : list Z := (λ i, load32 (drop (i * 4) inp)) <$> seq 0 16.

Definition compress (h : list Z) (t f : Z * Z) (inp : list Z) : list Z :=
  let m := message_words inp in
  let v := h ++ [blake2s_IV !!! 0%nat; blake2s_IV !!! 1%nat; blake2s_IV !!! 2%nat; blake2s_IV !!! 3%nat;
    Z.lxor t.1 (blake2s_IV !!! 4%nat); Z.lxor t.2 (blake2s_IV !!! 5%nat);
    Z.lxor f.1 (blake2s_IV !!! 6%nat); Z.lxor f.2 (blake2s_IV !!! 7%nat)] in
  let v := foldl (λ v r, ROUND m r v) v (seq 0 10) in
  (λ i, Z.lxor (Z.lxor (h !!! i) (v !!! i)) (v !!! (i + 8)%nat)) <$> seq 0 8.

Definition blake2s_compress (st : blake2s_state) (inp : list Z) : blake2s_state :=
  MkState (compress (b_h st) (b_t st) (b_f st) inp) (b_t st) (b_f st) (b_buf st) (b_buflen st) (b_outlen st)
    (b_last_node st).

(** ** Streaming *)

(** [memcpy] and [memset] into an array at an offset. *)
Definition memcpy (dst : list Z) (at_ : nat) (src : list Z) : list Z :=
  take at_ dst ++ src ++ drop (at_ + length src) dst.

Definition with_buf (buf : list Z) (buflen : nat) (st : blake2s_state) : blake2s_state :=
  MkState (b_h st) (b_t st) (b_f st) buf buflen (b_outlen st) (b_last_node st).

(** The [while] loop; every turn takes 64 bytes, so the length of the input is fuel enough. *)
Fixpoint update_loop (fuel : nat) (st : blake2s_state) (inp : list Z) : blake2s_state * list Z :=
  match fuel with
  | O => (st, inp)
  | S fuel' =>
      if (BLAKE2S_BLOCKBYTES <? length inp)%nat then
        let st := blake2s_increment_counter st (Z.of_nat BLAKE2S_BLOCKBYTES) in
        let st := blake2s_compress st (take BLAKE2S_BLOCKBYTES inp) in
        update_loop fuel' st (drop BLAKE2S_BLOCKBYTES inp)
      else (st, inp)
  end.

Definition blake2s_update (st : blake2s_state) (inp : list Z) : blake2s_state :=
  if (0 <? length inp)%nat then
    let left := b_buflen st in
    let fill := (BLAKE2S_BLOCKBYTES - left)%nat in
    let '(st, inp) :=
      if (fill <? length inp)%nat then
        let st := with_buf (memcpy (b_buf st) left (take fill inp)) 0 st in
        let st := blake2s_increment_counter st (Z.of_nat BLAKE2S_BLOCKBYTES) in
        let st := blake2s_compress st (b_buf st) in
        update_loop (length inp) st (drop fill inp)
      else (st, inp) in
    with_buf (memcpy (b_buf st) (b_buflen st) inp) (b_buflen st + length inp) st
  else st.

(** [None] is the return value -1.  [outlen] is at most 32: a longer output would be read from
    behind the local buffer. *)
Definition blake2s_final (st : blake2s_state) (outlen : nat) : option (list Z) :=
  if (outlen <? b_outlen st)%nat then None
  else if blake2s_is_lastblock st then None
  else
    let st := blake2s_increment_counter st (u32 (Z.of_nat (b_buflen st))) in
    let st := blake2s_set_lastblock st in
    let st := with_buf (memcpy (b_buf st) (b_buflen st) (replicate (BLAKE2S_BLOCKBYTES - b_buflen st) 0)) (b_buflen st) st in
    let st := blake2s_compress st (b_buf st) in
    Some (take outlen (mjoin (store32 <$> b_h st))).

(** ** Parameters and keys *)

Definition param_block (outlen keylen : nat) : list Z :=
  [u8 (Z.of_nat outlen); u8 (Z.of_nat keylen); 1; 1] ++ store32 0 ++ store32 0 ++ store16 0 ++ [0; 0]
    ++ replicate 8 0 ++ replicate 8 0.

Definition blake2s_init_param (P : list Z) : blake2s_state :=
  let st := blake2s_init0 in
  MkState ((λ i, Z.lxor (b_h st !!! i) (load32 (drop (i * 4) P))) <$> seq 0 8) (b_t st) (b_f st) (b_buf st) (b_buflen st)
    (Z.to_nat (P !!! 0%nat)) (b_last_node st).

Definition blake2s_init (outlen : nat) : option blake2s_state :=
  if (outlen =? 0)%nat || (BLAKE2S_OUTBYTES <? outlen)%nat then None
  else Some (blake2s_init_param (param_block outlen 0)).

Definition blake2s_init_key (outlen : nat) (key : list Z) : option blake2s_state :=
  if (outlen =? 0)%nat || (BLAKE2S_OUTBYTES <? outlen)%nat then None
  else if (length key =? 0)%nat || (BLAKE2S_KEYBYTES <? length key)%nat then None
  else
    let st := blake2s_init_param (param_block outlen (length key)) in
    Some (blake2s_update st (memcpy (replicate BLAKE2S_BLOCKBYTES 0) 0 key)).

Definition blake2s (outlen : nat) (inp key : list Z) : option (list Z) :=
  if (outlen =? 0)%nat || (BLAKE2S_OUTBYTES <? outlen)%nat then None
  else if (BLAKE2S_KEYBYTES <? length key)%nat then None
  else
    st ← (if (0 <? length key)%nat then blake2s_init_key outlen key else blake2s_init outlen);
    blake2s_final (blake2s_update st inp) outlen.

(** ** RFC 7693

    The function on a whole message: [rfc_F] is its compression function, with the byte
    counter as one number and the flag of the last block, and [rfc_blake2s] its section 3.3. *)

Definition assign (i : nat) (f : list Z → Z) (v : list Z) : list Z := <[i := f v]> v.

Definition rfc_G (a b c d : nat) (x y : Z) (v : list Z) : list Z :=
  foldl (λ v s, assign s.1 s.2 v) v [
    (a, λ v, u32 (v !!! a + v !!! b + x));
    (d, λ v, rotr32 (Z.lxor (v !!! d) (v !!! a)) 16);
    (c, λ v, u32 (v !!! c + v !!! d));
    (b, λ v, rotr32 (Z.lxor (v !!! b) (v !!! c)) 12);
    (a, λ v, u32 (v !!! a + v !!! b + y));
    (d, λ v, rotr32 (Z.lxor (v !!! d) (v !!! a)) 8);
    (c, λ v, u32 (v !!! c + v !!! d));
    (b, λ v, rotr32 (Z.lxor (v !!! b) (v !!! c)) 7)].

Definition rfc_round (m : list Z) (v : list Z) (s : list nat) : list Z :=
  let x k := m !!! (s !!! k) in
  let v := rfc_G 0 4 8 12 (x 0%nat) (x 1%nat) v in
  let v := rfc_G 1 5 9 13 (x 2%nat) (x 3%nat) v in
  let v := rfc_G 2 6 10 14 (x 4%nat) (x 5%nat) v in
  let v := rfc_G 3 7 11 15 (x 6%nat) (x 7%nat) v in
  let v := rfc_G 0 5 10 15 (x 8%nat) (x 9%nat) v in
  let v := rfc_G 1 6 11 12 (x 10%nat) (x 11%nat) v in
  let v := rfc_G 2 7 8 13 (x 12%nat) (x 13%nat) v in
  rfc_G 3 4 9 14 (x 14%nat) (x 15%nat) v.

Definition rfc_F (h : list Z) (block : list Z) (t : Z) (last : bool) : list Z :=
  let v := h ++ blake2s_IV in
  let v := <[12%nat := Z.lxor (v !!! 12%nat) (t mod 2 ^ 32)]> v in
  let v := <[13%nat := Z.lxor (v !!! 13%nat) (t / 2 ^ 32 mod 2 ^ 32)]> v in
  let v := if last then <[14%nat := Z.lxor (v !!! 14%nat) 0xFFFFFFFF]> v else v in
  let v := foldl (rfc_round (message_words block)) v blake2s_sigma in
  (λ i, Z.lxor (Z.lxor (h !!! i) (v !!! i)) (v !!! (i + 8)%nat)) <$> seq 0 8.

Definition pad (block : list Z) : list Z := block ++ replicate (64 - length block) 0.

(** The number of blocks before the last one: an empty message still has one block. *)
Definition whole_blocks (n : nat) : nat := ((n - 1) / 64)%nat.
Definition block_at (d : list Z) (i : nat) : list Z := take 64 (drop (64 * i) d).

(** The chain over the first [k] blocks. *)
Definition rfc_chain (h : list Z) (d : list Z) (k : nat) : list Z :=
  foldl (λ h i, rfc_F h (block_at d i) (64 * Z.of_nat (i + 1)) false) h (seq 0 k).

Definition rfc_hash (h : list Z) (d : list Z) : list Z :=
  let k := whole_blocks (length d) in
  rfc_F (rfc_chain h d k) (pad (drop (64 * k) d)) (Z.of_nat (length d)) true.

(** The initial chaining value: the parameters are the lengths of digest and key. *)
Definition rfc_h0 (outlen keylen : nat) : list Z :=
  <[0%nat := Z.lxor (blake2s_IV !!! 0%nat)
    (Z.lxor 0x01010000 (Z.lxor (Z.shiftl (Z.of_nat keylen) 8) (Z.of_nat outlen)))]> blake2s_IV.

Definition rfc_blake2s (outlen : nat) (inp key : list Z) : list Z :=
  let d := if bool_decide (key = []) then inp else pad key ++ inp in
  take outlen (mjoin (store32 <$> rfc_hash (rfc_h0 outlen (length key)) d)).

(** ** The code computes it *)

(** The two counter words hold a number modulo 2^64. *)
Definition counter (n : Z) : Z * Z := (n mod 2 ^ 32, n / 2 ^ 32 mod 2 ^ 32).

Lemma increment_counter n inc : 0 ≤ inc < 2 ^ 32 → increment inc (counter n) = counter (n + inc).
Proof.
  intros Hi. unfold increment, counter, u32. cbn [fst snd].
  assert ((n mod 2 ^ 32 + inc) mod 2 ^ 32 = (n + inc) mod 2 ^ 32) as E by (by rewrite Zplus_mod_idemp_l).
  rewrite E. f_equal. rewrite Zplus_mod_idemp_l. f_equal.
  pose proof (Z.mod_pos_bound n (2 ^ 32)). pose proof (Z.mod_pos_bound (n + inc) (2 ^ 32)).
  pose proof (Z.div_mod n (2 ^ 32)). pose proof (Z.div_mod (n + inc) (2 ^ 32)).
  destruct (Z.ltb_spec ((n + inc) mod 2 ^ 32) inc); nia.
Qed.

Lemma rfc_G_length a b c d x y v : length (rfc_G a b c d x y v) = length v.
Proof. unfold rfc_G, assign. cbn [foldl fst snd]. by rewrite !length_insert. Qed.

Lemma G_length m r i a b c d v : length (G m r i a b c d v) = length v.
Proof. unfold G. by rewrite !length_insert. Qed.

Section quad.
Context (a b c d : nat) (v : list Z).
Hypothesis Hnd : a ≠ b ∧ a ≠ c ∧ a ≠ d ∧ b ≠ c ∧ b ≠ d ∧ c ≠ d.
Hypothesis Hlen : (a < length v ∧ b < length v ∧ c < length v ∧ d < length v)%nat.

(** The working vector with four of its words replaced. *)
Definition put (va vb vc vd : Z) : list Z := <[b := vb]> (<[c := vc]> (<[d := vd]> (<[a := va]> v))).

Lemma put_lookups va vb vc vd :
  put va vb vc vd !!! a = va ∧ put va vb vc vd !!! b = vb ∧
  put va vb vc vd !!! c = vc ∧ put va vb vc vd !!! d = vd.
Proof using Hnd Hlen.
  unfold put. destruct Hnd as (?&?&?&?&?&?), Hlen as (?&?&?&?).
  split_and!; repeat first
    [ rewrite list_lookup_total_insert_eq by (by rewrite ?length_insert)
    | rewrite list_lookup_total_insert_ne by congruence ]; done.
Qed.

Lemma put_same : put (v !!! a) (v !!! b) (v !!! c) (v !!! d) = v.
Proof using Hlen.
  destruct Hlen as (?&?&?&?). unfold put.
  rewrite (list_insert_id v a), (list_insert_id v d), (list_insert_id v c), (list_insert_id v b);
    auto using list_lookup_lookup_total_lt.
Qed.

Lemma assign_put f va vb vc vd :
  assign a f (put va vb vc vd) = put (f (put va vb vc vd)) vb vc vd ∧
  assign b f (put va vb vc vd) = put va (f (put va vb vc vd)) vc vd ∧
  assign c f (put va vb vc vd) = put va vb (f (put va vb vc vd)) vd ∧
  assign d f (put va vb vc vd) = put va vb vc (f (put va vb vc vd)).
Proof using Hnd.
  destruct Hnd as (?&?&?&?&?&?). unfold assign. generalize (f (put va vb vc vd)) as z. intros z. unfold put.
  split_and!.
  - rewrite (list_insert_insert_ne _ a b), (list_insert_insert_ne _ a c), (list_insert_insert_ne _ a d) by congruence.
    by rewrite list_insert_insert_eq.
  - by rewrite list_insert_insert_eq.
  - rewrite (list_insert_insert_ne _ c b) by congruence. by rewrite list_insert_insert_eq.
  - rewrite (list_insert_insert_ne _ d b), (list_insert_insert_ne _ d c) by congruence. by rewrite list_insert_insert_eq.
Qed.

Lemma G_rfc m r i :
  G m r i a b c d v =
  rfc_G a b c d (m !!! ((blake2s_sigma !!! r) !!! (2 * i + 0)%nat)) (m !!! ((blake2s_sigma !!! r) !!! (2 * i + 1)%nat)) v.
Proof using Hnd Hlen.
  unfold G.
  generalize (m !!! ((blake2s_sigma !!! r) !!! (2 * i + 0)%nat)) as x.
  generalize (m !!! ((blake2s_sigma !!! r) !!! (2 * i + 1)%nat)) as y. intros y x.
  set (a0 := v !!! a). set (b0 := v !!! b). set (c0 := v !!! c). set (d0 := v !!! d).
  transitivity (rfc_G a b c d x y (put a0 b0 c0 d0)); [|unfold a0, b0, c0, d0; by rewrite put_same].
  unfold rfc_G. cbn [foldl fst snd].
  repeat match goal with |- context [assign ?k ?f (put ?va ?vb ?vc ?vd)] =>
    destruct (assign_put f va vb vc vd) as (H1 & H2 & H3 & H4);
    first [rewrite H1 | rewrite H2 | rewrite H3 | rewrite H4]; clear H1 H2 H3 H4;
    destruct (put_lookups va vb vc vd) as (H1 & H2 & H3 & H4);
    cbn beta; rewrite ?H1, ?H2, ?H3, ?H4; clear H1 H2 H3 H4
  end. reflexivity.
Qed.
End quad.

Lemma ROUND_rfc m r v : length v = 16%nat → ROUND m r v = rfc_round m v (blake2s_sigma !!! r).
Proof.
  intros Hv. unfold ROUND, rfc_round. cbv zeta.
  rewrite !G_rfc; rewrite ?G_length, ?rfc_G_length, ?Hv; [reflexivity|lia..].
Qed.

Lemma rfc_round_length m v s : length (rfc_round m v s) = length v.
Proof. unfold rfc_round. by rewrite !rfc_G_length. Qed.

Lemma rounds_rfc m v : length v = 16%nat →
  foldl (λ v r, ROUND m r v) v (seq 0 10) = foldl (rfc_round m) v blake2s_sigma.
Proof.
  intros Hv. change blake2s_sigma with ((λ r, blake2s_sigma !!! r) <$> seq 0 10).
  revert v Hv. induction (seq 0 10) as [|r l IH]; intros v Hv; [done|]. cbn [fmap list_fmap foldl].
  rewrite ROUND_rfc by done. apply IH. by rewrite rfc_round_length.
Qed.

Lemma compress_rfc h n (last : bool) inp : length h = 8%nat →
  compress h (counter n) (if last then (u32 (-1), 0) else (0, 0)) inp = rfc_F h inp n last.
Proof.
  intros Hh. unfold compress, rfc_F. cbv zeta. rewrite rounds_rfc by (rewrite length_app, Hh; done).
  assert (∀ a b : list Z, a = b → (λ i, Z.lxor (Z.lxor (h !!! i) (foldl (rfc_round (message_words inp)) a blake2s_sigma !!! i))
    (foldl (rfc_round (message_words inp)) a blake2s_sigma !!! (i + 8)%nat)) <$> seq 0 8 =
    (λ i, Z.lxor (Z.lxor (h !!! i) (foldl (rfc_round (message_words inp)) b blake2s_sigma !!! i))
    (foldl (rfc_round (message_words inp)) b blake2s_sigma !!! (i + 8)%nat)) <$> seq 0 8) as Hcong by (by intros ? ? ->).
  apply Hcong. clear Hcong. unfold counter. cbn [fst snd].
  generalize (n mod 2 ^ 32) as t0, (n / 2 ^ 32 mod 2 ^ 32) as t1. intros t0 t1.
  do 8 (destruct h as [|? h]; [discriminate Hh|]). destruct h; [|discriminate Hh].
  cbn [app]. rewrite (Z.lxor_comm t0), (Z.lxor_comm t1). destruct last; reflexivity.
Qed.

Lemma rfc_F_length h inp n last : length (rfc_F h inp n last) = 8%nat.
Proof. unfold rfc_F. by rewrite length_fmap. Qed.

#[local] Opaque compress rfc_F.

Lemma rfc_chain_S h d k :
  rfc_chain h d (S k) = rfc_F (rfc_chain h d k) (block_at d k) (64 * Z.of_nat (k + 1)) false.
Proof. unfold rfc_chain. by rewrite seq_S, foldl_app. Qed.

Lemma rfc_chain_length h d k : length h = 8%nat → length (rfc_chain h d k) = 8%nat.
Proof. intros Hh. destruct k; [done|]. rewrite rfc_chain_S. apply rfc_F_length. Qed.

Lemma rfc_chain_app h d d' k : (64 * k ≤ length d)%nat → rfc_chain h (d ++ d') k = rfc_chain h d k.
Proof.
  induction k as [|k IH]; intros Hk; [done|]. rewrite !rfc_chain_S, IH by lia.
  assert (block_at (d ++ d') k = block_at d k) as ->; [|done].
  unfold block_at. rewrite drop_app_le, take_app_le by (rewrite ?length_drop; lia). done.
Qed.

Lemma memcpy_length dst n src : (n + length src ≤ length dst)%nat → length (memcpy dst n src) = length dst.
Proof. intros Hn. unfold memcpy. rewrite !length_app, length_take, length_drop. lia. Qed.

Lemma memcpy_take dst n src : (n + length src ≤ length dst)%nat →
  take (n + length src) (memcpy dst n src) = take n dst ++ src.
Proof.
  intros Hn. unfold memcpy. rewrite app_assoc, take_app_length'; [done|].
  rewrite length_app, length_take. lia.
Qed.

Lemma whole_blocks_eq n k : (64 * k < n ≤ 64 * k + 64)%nat → whole_blocks n = k.
Proof.
  intros Hn. unfold whole_blocks. symmetry. apply (Nat.div_unique _ _ _ (n - 1 - 64 * k)); lia.
Qed.

Lemma whole_blocks_range n : (n = 0 ∧ whole_blocks n = 0 ∨ 64 * whole_blocks n < n ≤ 64 * whole_blocks n + 64)%nat.
Proof.
  destruct n as [|n]; [by left|right]. unfold whole_blocks. replace (S n - 1)%nat with n by lia.
  pose proof (Nat.div_mod n 64). pose proof (Nat.mod_upper_bound n 64). lia.
Qed.

(** What the state has taken in: [k] blocks are compressed, the rest is in the buffer. *)
Record holds (h0 d : list Z) (outlen k : nat) (st : blake2s_state) : Prop := {
  holds_h : b_h st = rfc_chain h0 d k;
  holds_t : b_t st = counter (64 * Z.of_nat k);
  holds_f : b_f st = (0, 0);
  holds_node : b_last_node st = 0;
  holds_out : b_outlen st = outlen;
  holds_buf : length (b_buf st) = 64%nat
}.

Definition fed (h0 d : list Z) (outlen : nat) (st : blake2s_state) : Prop :=
  let k := whole_blocks (length d) in
  holds h0 d outlen k st ∧ b_buflen st = (length d - 64 * k)%nat ∧
  take (b_buflen st) (b_buf st) = drop (64 * k) d.

Lemma compress_next h0 d outlen k st : length h0 = 8%nat → holds h0 d outlen k st →
  holds h0 d outlen (S k) (blake2s_compress (blake2s_increment_counter st 64) (block_at d k)).
Proof.
  intros Hh [Eh Et Ef En Eo Eb]. unfold blake2s_compress, blake2s_increment_counter.
  split; cbn [b_h b_t b_f b_last_node b_outlen b_buf]; try done.
  - rewrite Eh, Et, Ef, increment_counter by lia.
    rewrite (compress_rfc _ _ false) by (by apply rfc_chain_length). rewrite rfc_chain_S.
    by replace (64 * Z.of_nat k + 64) with (64 * Z.of_nat (k + 1)) by lia.
  - rewrite Et, increment_counter by lia. f_equal. lia.
Qed.

(** The [while] loop compresses all blocks but the last. *)
Lemma update_loop_holds h0 d outlen fuel k st :
  length h0 = 8%nat → holds h0 d outlen k st → b_buflen st = 0%nat →
  (64 * k < length d)%nat → (length d - 64 * k ≤ fuel)%nat →
  ∃ st', update_loop fuel st (drop (64 * k) d) = (st', drop (64 * whole_blocks (length d)) d) ∧
    holds h0 d outlen (whole_blocks (length d)) st' ∧ b_buflen st' = 0%nat.
Proof.
  intros Hh. revert k st. induction fuel as [|fuel IH]; intros k st Hst Hb Hk Hf; [lia|].
  cbn [update_loop]. rewrite length_drop. change BLAKE2S_BLOCKBYTES with 64%nat.
  destruct (Nat.ltb_spec 64 (length d - 64 * k)) as [Hl|Hl].
  - rewrite drop_drop. replace (64 * k + 64)%nat with (64 * S k)%nat by lia.
    change (Z.of_nat 64) with 64. fold (block_at d k).
    apply IH; [by apply compress_next|done|lia..].
  - rewrite (whole_blocks_eq (length d) k) by lia. eauto.
Qed.

Lemma fed_memcpy h0 d d' outlen st :
  holds h0 (d ++ d') outlen (whole_blocks (length (d ++ d'))) st →
  take (b_buflen st) (b_buf st) = drop (64 * whole_blocks (length (d ++ d'))) d →
  b_buflen st = (length d - 64 * whole_blocks (length (d ++ d')))%nat →
  (64 * whole_blocks (length (d ++ d')) ≤ length d)%nat →
  fed h0 (d ++ d') outlen (with_buf (memcpy (b_buf st) (b_buflen st) d') (b_buflen st + length d') st).
Proof.
  intros [Eh Et Ef En Eo Eb] Ht Hl Hk. pose proof (whole_blocks_range (length (d ++ d'))) as Hr.
  rewrite length_app in Hr, Hl, Hk, Ht, Eh, Et. unfold fed. rewrite length_app.
  assert (b_buflen st + length d' ≤ length (b_buf st))%nat as Hfit by lia.
  split_and!.
  - split; cbn [with_buf b_h b_t b_f b_last_node b_outlen b_buf]; try done. by rewrite memcpy_length.
  - cbn [b_buflen with_buf]. lia.
  - cbn [b_buf b_buflen with_buf]. rewrite memcpy_take by done. rewrite Ht. by rewrite drop_app_le by lia.
Qed.

Lemma update_fed h0 d outlen st inp : length h0 = 8%nat → fed h0 d outlen st →
  fed h0 (d ++ inp) outlen (blake2s_update st inp).
Proof.
  intros Hh (Hst & Hl & Ht). unfold blake2s_update. change BLAKE2S_BLOCKBYTES with 64%nat.
  destruct (Nat.ltb_spec 0 (length inp)) as [Hi|Hi];
    [|rewrite (nil_length_inv inp), app_nil_r by lia; done].
  pose proof (whole_blocks_range (length d)) as Hr. destruct Hst as [Eh Et Ef En Eo Eb].
  destruct (Nat.ltb_spec (64 - b_buflen st) (length inp)) as [Hfill|Hfill].
  - set (D := d ++ inp) in *.
    assert (64 * S (whole_blocks (length d)) < length D)%nat as HD by (unfold D; rewrite length_app; lia).
    assert (64 - b_buflen st + length d = 64 * S (whole_blocks (length d)))%nat as Hd by lia.
    set (st1 := with_buf (memcpy (b_buf st) (b_buflen st) (take (64 - b_buflen st) inp)) 0 st).
    assert (b_buf st1 = block_at D (whole_blocks (length d))) as Hbuf.
    { cbn [b_buf with_buf st1]. unfold memcpy, block_at, D.
      rewrite (drop_ge (b_buf st)), app_nil_r, Ht by (rewrite length_take; lia).
      rewrite drop_app_le, take_app_ge by (rewrite ?length_drop; lia). rewrite length_drop. do 2 f_equal. lia. }
    cbv zeta. change (Z.of_nat 64) with 64. change (b_buf (blake2s_increment_counter st1 64)) with (b_buf st1).
    rewrite Hbuf.
    destruct (update_loop_holds h0 D outlen (length inp) (S (whole_blocks (length d)))
      (blake2s_compress (blake2s_increment_counter st1 64) (block_at D (whole_blocks (length d)))))
      as (st' & Hloop & Hst' & Hb'); [done| |done|done| | ].
    + apply compress_next; [exact Hh|]. split; cbn [b_h b_t b_f b_last_node b_outlen st1 with_buf];
        [|exact Et|exact Ef|exact En|exact Eo|].
      * unfold D. rewrite rfc_chain_app by lia. exact Eh.
      * cbn [b_buf with_buf st1]. rewrite memcpy_length; rewrite ?length_take; lia.
    + unfold D. rewrite length_app. lia.
    + replace (drop (64 - b_buflen st) inp) with (drop (64 * S (whole_blocks (length d))) D).
      2:{ unfold D. rewrite drop_app_ge by lia. f_equal. lia. }
      rewrite Hloop. set (j := whole_blocks (length D)) in *.
      pose proof (whole_blocks_range (length D)) as HrD. fold j in HrD.
      pose proof (fed_memcpy h0 (take (64 * j) D) (drop (64 * j) D) outlen st') as Hfin.
      rewrite take_drop in Hfin. fold j in Hfin. rewrite Hb', length_take in Hfin.
      rewrite Hb'. apply Hfin; [done|by rewrite drop_ge by (rewrite length_take; lia)|lia..].
  - assert (whole_blocks (length (d ++ inp)) = whole_blocks (length d)) as Ek.
    { apply whole_blocks_eq. rewrite length_app. lia. }
    apply fed_memcpy; rewrite Ek; [|exact Ht|exact Hl|lia].
    split; [|exact Et|exact Ef|exact En|exact Eo|exact Eb]. rewrite rfc_chain_app by lia. exact Eh.
Qed.

Lemma updates_fed h0 d outlen st pieces : length h0 = 8%nat → fed h0 d outlen st →
  fed h0 (d ++ mjoin pieces) outlen (foldl blake2s_update st pieces).
Proof.
  intros Hh. revert d st. induction pieces as [|p pieces IH]; intros d st Hst.
  - by rewrite app_nil_r.
  - cbn [foldl mjoin list_join]. rewrite app_assoc. by apply IH, update_fed.
Qed.

Lemma final_fed h0 d outlen st : length h0 = 8%nat → fed h0 d outlen st →
  blake2s_final st outlen = Some (take outlen (mjoin (store32 <$> rfc_hash h0 d))).
Proof.
  intros Hh ([Eh Et Ef En Eo Eb] & Hl & Ht). pose proof (whole_blocks_range (length d)) as Hr.
  unfold blake2s_final, blake2s_is_lastblock. rewrite Eo, Nat.ltb_irrefl, Ef. cbn [fst].
  rewrite bool_decide_eq_false_2 by (by intros []). f_equal. f_equal. f_equal. f_equal.
  unfold blake2s_set_lastblock, blake2s_increment_counter, with_buf, blake2s_compress.
  cbn [b_h b_t b_f b_last_node b_outlen b_buf b_buflen]. rewrite En, Ef, Eh, Et.
  rewrite bool_decide_eq_false_2 by (by intros []). cbn [snd].
  unfold u32 at 1. rewrite Z.mod_small by lia. rewrite increment_counter by lia.
  rewrite (compress_rfc _ _ true) by (by apply rfc_chain_length).
  unfold rfc_hash.
  replace (64 * Z.of_nat (whole_blocks (length d)) + Z.of_nat (b_buflen st)) with (Z.of_nat (length d)) by lia.
  change BLAKE2S_BLOCKBYTES with 64%nat.
  assert (memcpy (b_buf st) (b_buflen st) (replicate (64 - b_buflen st) 0) =
    pad (drop (64 * whole_blocks (length d)) d)) as ->; [|reflexivity].
  unfold memcpy, pad. rewrite Ht, length_replicate, length_drop, (drop_ge (b_buf st)), app_nil_r by lia.
  by rewrite Hl.
Qed.

Lemma init_param_fed outlen keylen : (outlen ≤ 32)%nat → (keylen ≤ 32)%nat →
  fed (rfc_h0 outlen keylen) [] outlen (blake2s_init_param (param_block outlen keylen)).
Proof.
  intros Ho Hk.
  assert (forallb (λ o, forallb (λ k,
    let st := blake2s_init_param (param_block o k) in
    bool_decide (b_h st = rfc_h0 o k) && bool_decide (b_outlen st = o)) (seq 0 33)) (seq 0 33) = true) as Hall
    by (vm_compute; reflexivity).
  rewrite forallb_forall in Hall. specialize (Hall outlen). rewrite in_seq in Hall.
  specialize (Hall ltac:(lia)). rewrite forallb_forall in Hall. specialize (Hall keylen).
  rewrite in_seq in Hall. specialize (Hall ltac:(lia)). cbv zeta in Hall.
  apply andb_prop in Hall as [E1%bool_decide_eq_true E2%bool_decide_eq_true].
  split_and!; [split; [exact E1|reflexivity..|exact E2|reflexivity]|reflexivity|reflexivity].
Qed.

Lemma rfc_h0_length outlen keylen : length (rfc_h0 outlen keylen) = 8%nat.
Proof. reflexivity. Qed.

(** [blake2s_init] or [blake2s_init_key], as the key says. *)
Definition init_any (outlen : nat) (key : list Z) : option blake2s_state :=
  if (0 <? length key)%nat then blake2s_init_key outlen key else blake2s_init outlen.

Lemma init_any_fed outlen key : (0 < outlen ≤ 32)%nat → (length key ≤ 32)%nat →
  ∃ st, init_any outlen key = Some st ∧
    fed (rfc_h0 outlen (length key)) (if bool_decide (key = []) then [] else pad key) outlen st.
Proof.
  intros Ho Hk. unfold init_any, blake2s_init, blake2s_init_key.
  change BLAKE2S_OUTBYTES with 32%nat. change BLAKE2S_KEYBYTES with 32%nat.
  rewrite (proj2 (Nat.eqb_neq outlen 0)), (proj2 (Nat.ltb_ge 32 outlen)) by lia. cbn [orb].
  pose proof (init_param_fed outlen (length key)) as Hinit.
  destruct key as [|b key].
  - eexists. split; [reflexivity|]. apply Hinit; cbn; lia.
  - rewrite (proj2 (Nat.ltb_lt _ _)), (proj2 (Nat.ltb_ge 32 _)) by (cbn in *; lia).
    eexists. split; [reflexivity|]. rewrite bool_decide_eq_false_2 by done.
    assert (memcpy (replicate BLAKE2S_BLOCKBYTES 0) 0 (b :: key) = pad (b :: key)) as ->.
    { unfold memcpy, pad. rewrite drop_replicate. reflexivity. }
    apply (update_fed _ []); [apply rfc_h0_length|]. apply Hinit; [lia|done].
Qed.

Lemma words_length (l : list Z) : length (mjoin (store32 <$> l)) = (4 * length l)%nat.
Proof.
  induction l as [|w l IH]; [done|]. rewrite fmap_cons. change (length (store32 w ++ mjoin (store32 <$> l)) = (4 * length (w :: l))%nat).
  rewrite length_app, IH. cbn [length store32]. lia.
Qed.

Lemma rfc_blake2s_length outlen inp key : (outlen ≤ 32)%nat → length (rfc_blake2s outlen inp key) = outlen.
Proof. intros Ho. unfold rfc_blake2s. rewrite length_take, words_length. unfold rfc_hash. rewrite rfc_F_length. lia. Qed.

Lemma streams outlen key : (0 < outlen ≤ 32)%nat → (length key ≤ 32)%nat →
  ∃ st, init_any outlen key = Some st ∧
    ∀ ps, blake2s_final (foldl blake2s_update st ps) outlen = Some (rfc_blake2s outlen (mjoin ps) key).
Proof.
  intros Ho Hk. destruct (init_any_fed outlen key Ho Hk) as (st & Hst & Hfed).
  exists st. split; [done|]. intros ps.
  rewrite (final_fed _ _ _ _ (rfc_h0_length _ _) (updates_fed _ _ _ _ ps (rfc_h0_length _ _) Hfed)).
  unfold rfc_blake2s. by case_bool_decide.
Qed.

(** C24: The hash of the C++ SDK is BLAKE2s.  For every digest length from 1 to 32 and every key
    of at most 32 bytes, initialising, feeding the message in pieces of whatever sizes and
    finishing returns the value RFC 7693 defines on the whole message, of the length asked
    for; the one-call function returns the same. *)
Theorem blake2s_rfc outlen key pieces :
  (0 < outlen ≤ 32)%nat → (length key ≤ 32)%nat →
  ∃ st, init_any outlen key = Some st ∧
    blake2s_final (foldl blake2s_update st pieces) outlen = Some (rfc_blake2s outlen (mjoin pieces) key) ∧
    blake2s outlen (mjoin pieces) key = Some (rfc_blake2s outlen (mjoin pieces) key) ∧
    length (rfc_blake2s outlen (mjoin pieces) key) = outlen.
Proof.
  intros Ho Hk. destruct (streams outlen key Ho Hk) as (st & Hst & Hall).
  exists st. split_and!; [done|apply Hall| |].
  - unfold blake2s. change BLAKE2S_OUTBYTES with 32%nat. change BLAKE2S_KEYBYTES with 32%nat.
    rewrite (proj2 (Nat.eqb_neq outlen 0)), (proj2 (Nat.ltb_ge 32 outlen)), (proj2 (Nat.ltb_ge 32 _)) by lia.
    cbn [orb]. fold (init_any outlen key). rewrite Hst. cbn [mbind option_bind].
    specialize (Hall [mjoin pieces]). cbn [foldl mjoin list_join] in Hall. by rewrite app_nil_r in Hall.
  - unfold rfc_blake2s. rewrite length_take, words_length. unfold rfc_hash. rewrite rfc_F_length. lia.
Qed.

(** The digest of the three bytes of abc, as RFC 7693 prints it, by the code in two updates. *)
Lemma blake2s_rfc_witness :
  let st := blake2s_init 32 in
  (st ≫= λ st, blake2s_final (blake2s_update (blake2s_update st [97]) [98; 99]) 32) = Some
    [80; 140; 94; 140; 50; 124; 20; 226; 225; 167; 43; 163; 78; 235; 69; 47;
     55; 69; 139; 32; 158; 214; 58; 41; 77; 153; 155; 76; 134; 103; 89; 130] ∧
  rfc_blake2s 32 [97; 98; 99] [] =
    [80; 140; 94; 140; 50; 124; 20; 226; 225; 167; 43; 163; 78; 235; 69; 47;
     55; 69; 139; 32; 158; 214; 58; 41; 77; 153; 155; 76; 134; 103; 89; 130].
Proof.
  destruct (blake2s_rfc 32 [] [[97]; [98; 99]]) as (st & Hst & Hf & _); [lia|cbn; lia|].
  split; [|vm_compute; reflexivity].
  change (blake2s_init 32) with (init_any 32 []). rewrite Hst. cbn [mbind option_bind].
  change (blake2s_update (blake2s_update st [97]) [98; 99]) with (foldl blake2s_update st [[97]; [98; 99]]).
  rewrite Hf. vm_compute. reflexivity.
Defined.
