(* ===== verification/Suite.v ===== *)
(** * The cipher suite of the SDKs written in TypeScript and C++

    Both write out the Noise XX handshake over library functions: X25519 and
    ChaCha20-Poly1305 (noble in TypeScript, libsodium in C++), BLAKE2s and HKDF (noble) or
    the vendored BLAKE2s (C++).  [Suite] lists those functions, [SuiteLaws] what the
    libraries document of them; HMAC and HKDF are defined here as RFC 2104 and RFC 5869
    define them over a hash function. *)

From S2P Require Import Prelude Blake2s.

(** ** Byte strings *)

Definition of_bytes (s : bytes) : list Z := byte_val <$> chars s.
Definition to_bytes (l : list Z) : bytes := of_chars (byte_of <$> l).

Lemma to_of_bytes s : to_bytes (of_bytes s) = s.
Proof.
  unfold to_bytes, of_bytes. rewrite <- (of_chars_chars s) at 2. f_equal.
  induction (chars s) as [|c l IH]; [done|]. rewrite !fmap_cons. by rewrite byte_of_val, IH.
Qed.

Lemma to_bytes_length l : slen (to_bytes l) = length l.
Proof. unfold to_bytes. by rewrite <- slen_chars, chars_of_chars, length_fmap. Qed.

Lemma of_bytes_app s t : of_bytes (s +:+ t) = of_bytes s ++ of_bytes t.
Proof. unfold of_bytes. by rewrite chars_app, fmap_app. Qed.

(** [s.slice(from, to)] of a [Uint8Array], cut at its end. *)
Definition slice (from to : nat) (s : bytes) : bytes := of_chars (take (to - from) (drop from (chars s))).
Definition slice_from (from : nat) (s : bytes) : bytes := of_chars (drop from (chars s)).

Lemma slen_app s t : slen (s +:+ t) = slen s + slen t.
Proof. by rewrite <- !slen_chars, chars_app, length_app. Qed.

Lemma chars_inj s t : chars s = chars t → s = t.
Proof. intros E. by rewrite <- (of_chars_chars s), <- (of_chars_chars t), E. Qed.

Lemma sapp_nil s : s +:+ "" = s.
Proof. apply chars_inj. by rewrite chars_app, app_nil_r. Qed.

Lemma sapp_assoc s t u : (s +:+ t) +:+ u = s +:+ (t +:+ u).
Proof. apply chars_inj. by rewrite !chars_app, app_assoc. Qed.

Lemma slice_all s n : slen s ≤ n → slice 0 n s = s.
Proof.
  intros Hn. unfold slice. rewrite drop_0, take_ge by (rewrite slen_chars; lia). apply of_chars_chars.
Qed.

Lemma slice_app s t n : slen s = n → slice 0 n (s +:+ t) = s.
Proof.
  intros <-. unfold slice. rewrite chars_app, Nat.sub_0_r, drop_0, take_app_length' by by rewrite slen_chars.
  apply of_chars_chars.
Qed.

Lemma slice_from_app s t n : slen s = n → slice_from n (s +:+ t) = t.
Proof. intros <-. unfold slice_from. rewrite chars_app, drop_app_length' by by rewrite slen_chars. apply of_chars_chars. Qed.

Lemma slice_mid s t u n m : slen s = n → n + slen t = m → slice n m (s +:+ (t +:+ u)) = t.
Proof.
  intros <- <-. unfold slice. rewrite !chars_app, drop_app_length' by by rewrite slen_chars.
  replace (slen s + slen t - slen s) with (slen t) by lia.
  rewrite take_app_length' by by rewrite slen_chars. apply of_chars_chars.
Qed.

Lemma slice_from_two s t u n : slen s + slen t = n → slice_from n (s +:+ (t +:+ u)) = u.
Proof.
  intros <-. unfold slice_from. rewrite !chars_app, app_assoc, drop_app_length'; [apply of_chars_chars|].
  by rewrite length_app, !slen_chars.
Qed.

Lemma slice_length a b s : slen (slice a b s) = (b - a) `min` (slen s - a).
Proof. unfold slice. by rewrite <- slen_chars, chars_of_chars, length_take, length_drop, slen_chars. Qed.

(** ** RFC 2104 and RFC 5869 *)

Section hkdf.
(** A hash function with blocks of 64 bytes. *)
Context (H : bytes → bytes).

Definition xor_byte (z : Z) (c : ascii) : ascii := byte_of (Z.lxor (byte_val c) z).
Definition zero : ascii := "000"%char.

(** The key as a block: hashed if it is too long, then padded with zeros. *)
Definition hmac_block (key : bytes) : list ascii :=
  let k := chars (if (64 <? slen key)%nat then H key else key) in
  k ++ replicate (64 - length k) zero.

Definition hmac (key data : bytes) : bytes :=
  let k := hmac_block key in
  H (of_chars (xor_byte 92 <$> k) +:+ H (of_chars (xor_byte 54 <$> k) +:+ data)).

(** [T(1) | T(2) | ...]: the blocks of the expansion, from block [i] on, after block [prev]. *)
Fixpoint hkdf_blocks (n : nat) (i : Z) (prk info prev : bytes) : bytes :=
  match n with
  | O => ""
  | S n =>
      let t := hmac prk (prev +:+ (info +:+ String (byte_of i) "")) in
      t +:+ hkdf_blocks n (i + 1) prk info t
  end.

Definition hkdf (ikm salt info : bytes) (len : nat) : bytes :=
  let prk := hmac salt ikm in
  slice 0 len (hkdf_blocks ((len + 31) / 32) 1 prk info "").
End hkdf.

(** ** The library functions *)

(** A key pair, as both SDKs define it. *)
Record KeyPair := MkKeyPair { privateKey : bytes; publicKey : bytes }.

Class Suite := {
  (** X25519: the public key of a private key, and the shared secret of a private and a
      public key; both refuse keys of the wrong length, and the latter a zero result. *)
  getPublicKey : bytes → option bytes;
  getSharedSecret : bytes → bytes → option bytes;
  (** ChaCha20-Poly1305 with key, nonce, associated data and text; the ciphertext ends in the tag. *)
  chacha_seal : bytes → bytes → bytes → bytes → option bytes;
  chacha_open : bytes → bytes → bytes → bytes → option bytes;
  (** BLAKE2s with 32 bytes, and HKDF over it: input key material, salt and output length. *)
  noble_blake2s : bytes → bytes;
  noble_hkdf : bytes → bytes → nat → bytes
}.

Class SuiteLaws `{Suite} := {
  public_length a A : getPublicKey a = Some A → slen A = 32;
  shared_length a P s : getSharedSecret a P = Some s → slen P = 32;
  (** Diffie and Hellman: both sides get the same secret, or both none. *)
  shared_comm a A b B : getPublicKey a = Some A → getPublicKey b = Some B →
    getSharedSecret a B = getSharedSecret b A;
  open_seal k n ad p c : chacha_seal k n ad p = Some c → chacha_open k n ad c = Some p;
  seal_length k n ad p c : chacha_seal k n ad p = Some c → slen c = slen p + 16;
  open_length k n ad p c : chacha_open k n ad c = Some p → slen c = slen p + 16;
}.

(** BLAKE2s of a byte string, by RFC 7693. *)
Definition blake2s_std (data : bytes) : bytes := to_bytes (rfc_blake2s 32 (of_bytes data) []).

Lemma blake2s_std_length data : slen (blake2s_std data) = 32.
Proof. unfold blake2s_std. by rewrite to_bytes_length, rfc_blake2s_length by lia. Qed.

(** noble computes the functions of the RFCs. *)
Class SuiteStd `{Suite} := {
  blake2s_standard data : noble_blake2s data = blake2s_std data;
  hkdf_standard ikm salt len : noble_hkdf ikm salt len = hkdf blake2s_std ikm salt "" len
}.

(** ** A concrete suite

    BLAKE2s, HMAC and HKDF are the real functions; a public key is its private key, a shared
    secret the exclusive or of the keys, and a ciphertext the text with a tag that depends on
    key, nonce and associated data. *)
Module ToySuite.

Definition xor (a b : bytes) : bytes := to_bytes (zip_with Z.lxor (of_bytes a) (of_bytes b)).
Definition toy_tag (k n ad : bytes) : bytes := slice 0 16 (blake2s_std (k +:+ (n +:+ ad))).

Definition toy_public (a : bytes) : option bytes := if decide (slen a = 32) then Some a else None.
Definition toy_shared (a P : bytes) : option bytes := if decide (slen P = 32) then Some (xor a P) else None.
Definition toy_seal (k n ad p : bytes) : option bytes := Some (p +:+ toy_tag k n ad).
Definition toy_open (k n ad x : bytes) : option bytes :=
  if decide (16 ≤ slen x ∧ slice_from (slen x - 16) x = toy_tag k n ad) then Some (slice 0 (slen x - 16) x) else None.

#[export] Instance toy_suite : Suite := {|
  getPublicKey := toy_public;
  getSharedSecret := toy_shared;
  chacha_seal := toy_seal;
  chacha_open := toy_open;
  noble_blake2s := blake2s_std;
  noble_hkdf ikm salt len := hkdf blake2s_std ikm salt "" len
|}.

Lemma toy_tag_length k n ad : slen (toy_tag k n ad) = 16.
Proof. unfold toy_tag. by rewrite slice_length, blake2s_std_length. Qed.

#[export] Instance toy_suite_laws : SuiteLaws.
Proof.
  split.
  - intros a A. cbn. unfold toy_public. case_decide; [|done]. by intros [= <-].
  - intros a P s. cbn. unfold toy_shared. by case_decide.
  - intros a A b B. cbn. unfold toy_public, toy_shared. do 2 (case_decide; [|done]). intros [= <-] [= <-].
    rewrite !decide_True by done. f_equal. unfold xor. f_equal.
    rewrite <- (zip_with_flip Z.lxor (of_bytes b)). apply zip_with_ext; [|done..]. intros x y. apply Z.lxor_comm.
  - intros k n ad p c [= <-]. change (toy_open k n ad (p +:+ toy_tag k n ad) = Some p). unfold toy_open. pose proof (toy_tag_length k n ad) as Ht.
    rewrite slen_app, Ht. replace (slen p + 16 - 16) with (slen p) by lia.
    rewrite slice_from_app, slice_app by done. rewrite decide_True; [done|]. split; [lia|done].
  - intros k n ad p c [= <-]. rewrite slen_app, toy_tag_length. done.
  - intros k n ad p c. change (toy_open k n ad c = Some p → slen c = slen p + 16). unfold toy_open. case_decide as Hd; [|done]. intros [= <-].
    rewrite slice_length. lia.
Qed.

#[export] Instance toy_suite_std : SuiteStd.
Proof. by split. Qed.
End ToySuite.
