(* ===== verification/Noise.v ===== *)
(** * Noise sessions (src/sdk/go/noise.go)

    github.com/flynn/noise is a parameter: the class [NoiseLib] lists the functions the
    SDK calls, and [NoiseLaws] what their documentation promises of them (the XX pattern
    has three messages and the third returns the two cipher states; two honest ends agree
    on them and learn each other's static key; a ciphertext decrypts, in order, to its
    plaintext).  [noiseSession] is the state machine around it. *)

From S2P Require Import Prelude Keys.

(** ** The library *)

Class NoiseLib := {
  hstate : Type;
  cstate : Type;
  (** [NewHandshakeState] for the XX pattern: random seed, static key, initiator. *)
  NewHandshakeState : bytes → PrivateKey → bool → option hstate;
  (** [hs.WriteMessage(nil, nil)]: the message, and the cipher states if it was the last. *)
  hsWrite : hstate → option (hstate * bytes * option (cstate * cstate));
  (** [hs.ReadMessage(nil, data)]. *)
  hsRead : hstate → bytes → option (hstate * option (cstate * cstate));
  PeerStatic : hstate → bytes;
  csEncrypt : cstate → bytes → option (cstate * bytes);
  csDecrypt : cstate → bytes → option (cstate * bytes);
  ScalarBaseMult : bytes → bytes
}.

Class NoiseLaws `{NoiseLib} := {
  (** How many messages of the pattern have passed. *)
  hs_index : hstate → nat;
  hs_index_new seed k b h : NewHandshakeState seed k b = Some h → hs_index h = 0;
  hs_index_write h h' m cs :
    hsWrite h = Some (h', m, cs) → hs_index h' = S (hs_index h) ∧ (hs_index h' = 3 ↔ is_Some cs);
  hs_index_read h h' d cs :
    hsRead h d = Some (h', cs) → hs_index h' = S (hs_index h) ∧ (hs_index h' = 3 ↔ is_Some cs);
  (** A sending and a receiving cipher state in step. *)
  synced : cstate → cstate → Prop;
  synced_step e d e' p c :
    synced e d → csEncrypt e p = Some (e', c) → ∃ d', csDecrypt d c = Some (d', p) ∧ synced e' d';
  (** An honest run of XX, as far as writing succeeds. *)
  xx_run sa sb a b i0 r0 i1 m1 cs1 :
    NewHandshakeState sa a true = Some i0 → NewHandshakeState sb b false = Some r0 →
    hsWrite i0 = Some (i1, m1, cs1) →
    ∃ r1, hsRead r0 m1 = Some (r1, None) ∧
    ∀ r2 m2 cs2, hsWrite r1 = Some (r2, m2, cs2) →
    ∃ i2, hsRead i1 m2 = Some (i2, None) ∧
    ∀ i3 m3 cs3, hsWrite i2 = Some (i3, m3, cs3) →
    ∃ k1 k2 r3 k1' k2', cs3 = Some (k1, k2) ∧ hsRead r2 m3 = Some (r3, Some (k1', k2')) ∧
      PeerStatic i3 = ScalarBaseMult b ∧ PeerStatic r3 = ScalarBaseMult a ∧
      synced k1 k1' ∧ synced k2' k2
}.

(** [e'] is what [e] becomes by encrypting some messages. *)
Inductive later `{NoiseLib} (e : cstate) : cstate → Prop :=
  | later_refl : later e e
  | later_step e1 e2 p c : later e e1 → csEncrypt e1 p = Some (e2, c) → later e e2.

(** The counter of messages is an input of the cipher: what a sender encrypts after the
    message its receiver expects does not authenticate in its place. *)
Class NoiseOrder `{NoiseLaws} :=
  not_in_turn e d p e1 c e2 q e3 c' :
    synced e d → csEncrypt e p = Some (e1, c) → later e1 e2 → csEncrypt e2 q = Some (e3, c') →
    csDecrypt d c' = None.

(** The authentication tag of ChaChaPoly. *)
Class NoiseSizes `{NoiseLib} :=
  csEncrypt_size k p k' c : csEncrypt k p = Some (k', c) → slen c = slen p + 16.

(** ** Errors of the SDK (src/sdk/go/errors.go) *)

Inductive sdkerr :=
  | ErrInvalidCode | ErrCodeExpired | ErrAlreadyPaired | ErrPeerOffline | ErrRateLimited
  | ErrMalformed | ErrInternal | ErrKeyMismatch
  | ErrNotReady | ErrPeerKeyMismatch
  | ErrNoise (step : string)            (* an error of the Noise library, wrapped *)
  | ErrFinished                         (* a handshake message after the end *)
  | ErrStore                            (* saving the peer store failed *)
  | ErrBadPeerKey
  | WireError (code : sdkerr) (message : string)
  | Wrapped (what : string) (inner : sdkerr).

Definition errForCode (code message : string) : sdkerr :=
  let base :=
    if decide (code = "invalid_code") then ErrInvalidCode
    else if decide (code = "code_expired") then ErrCodeExpired
    else if decide (code = "already_paired") then ErrAlreadyPaired
    else if decide (code = "peer_offline") then ErrPeerOffline
    else if decide (code = "rate_limited") then ErrRateLimited
    else if decide (code = "malformed") then ErrMalformed
    else if decide (code = "key_mismatch") then ErrKeyMismatch
    else ErrInternal in
  if decide (message = "") then base else WireError base message.

(** [Unwrap], repeatedly: what [errors.Is] compares. *)
Fixpoint errors_Is (e target : sdkerr) : Prop :=
  e = target ∨
  match e with
  | WireError c _ => errors_Is c target
  | Wrapped _ c => errors_Is c target
  | _ => False
  end.

(** ** Envelopes *)

Definition envelopeHandshake : ascii := "001"%char.
Definition envelopeTransport : ascii := "002"%char.

Definition encodeEnvelope (kind : ascii) (payload : bytes) : bytes := String kind payload.

Definition decodeEnvelope (frame : bytes) : option (ascii * bytes) :=
  match frame with
  | EmptyString => None
  | String k payload => Some (k, payload)
  end.

(** ** Sessions *)

Inductive sessionStatus := statusHandshaking | statusReady | statusFailed.

#[export] Instance sessionStatus_eq_dec : EqDecision sessionStatus.
Proof. solve_decision. Defined.

Section session.
Context `{NoiseLib}.

Record noiseSession := NoiseSession {
  status : sessionStatus;
  serr : option sdkerr;
  initiator : bool;
  hs : hstate;
  gotMsg1 : bool;
  sendCS : option cstate;
  recvCS : option cstate;
  peerStatic : bytes;
  readyClosed : nat          (* how often [readyCh] was closed *)
}.

Definition newInitiatorSession (seed : bytes) (priv : PrivateKey) : sdkerr + noiseSession * bytes :=
  match NewHandshakeState seed priv true with
  | None => inl (ErrNoise "start")
  | Some h =>
      match hsWrite h with
      | None => inl (ErrNoise "msg1")
      | Some (h', msg1, _) =>
          inr (NoiseSession statusHandshaking None true h' false None None "" 0, msg1)
      end
  end.

Definition newResponderSession (seed : bytes) (priv : PrivateKey) : sdkerr + noiseSession :=
  match NewHandshakeState seed priv false with
  | None => inl (ErrNoise "start")
  | Some h => inr (NoiseSession statusHandshaking None false h false None None "" 0)
  end.

Definition finishLocked (h : hstate) (send recv : option cstate) (s : noiseSession) : noiseSession :=
  NoiseSession statusReady (serr s) (initiator s) h (gotMsg1 s) send recv (PeerStatic h)
    (S (readyClosed s)).

Definition failLocked (e : sdkerr) (s : noiseSession) : noiseSession :=
  if decide (status s = statusFailed) then s
  else NoiseSession statusFailed (Some e) (initiator s) (hs s) (gotMsg1 s) (sendCS s) (recvCS s)
         (peerStatic s) (S (readyClosed s)).

(** What [handleHandshakeMessage] returns: reply, done, error. *)
Definition hsresult := (option bytes * bool * option sdkerr)%type.

Definition handleHandshakeMessage (data : bytes) (s : noiseSession) : hsresult * noiseSession :=
  let fail e := ((None, true, Some e), failLocked e s) in
  if decide (status s ≠ statusHandshaking) then ((None, true, Some ErrFinished), s)
  else if initiator s then
    match hsRead (hs s) data with
    | None => fail (ErrNoise "msg2")
    | Some (h, _) =>
        match hsWrite h with
        | None => fail (ErrNoise "msg3")
        | Some (h', reply, cs) =>
            ((Some reply, true, None), finishLocked h' (fst <$> cs) (snd <$> cs) s)
        end
    end
  else if gotMsg1 s then
    match hsRead (hs s) data with
    | None => fail (ErrNoise "msg3")
    | Some (h, cs) => ((None, true, None), finishLocked h (snd <$> cs) (fst <$> cs) s)
    end
  else
    match hsRead (hs s) data with
    | None => fail (ErrNoise "msg1")
    | Some (h, _) =>
        let s' := NoiseSession (status s) (serr s) (initiator s) h true (sendCS s) (recvCS s)
                    (peerStatic s) (readyClosed s) in
        match hsWrite h with
        | None => ((None, true, Some (ErrNoise "msg2")), failLocked (ErrNoise "msg2") s')
        | Some (h', reply, _) =>
            ((Some reply, false, None),
             NoiseSession (status s) (serr s) (initiator s) h' true (sendCS s) (recvCS s)
               (peerStatic s) (readyClosed s))
        end
    end.

Definition ready (s : noiseSession) : bool := bool_decide (status s = statusReady).

(** [waitReady] once it does not block any more; [None] while it would. *)
Definition waitReady (s : noiseSession) : option (option sdkerr) :=
  match readyClosed s with O => None | _ => Some (serr s) end.

Definition set_send (k : cstate) (s : noiseSession) : noiseSession :=
  NoiseSession (status s) (serr s) (initiator s) (hs s) (gotMsg1 s) (Some k) (recvCS s)
    (peerStatic s) (readyClosed s).
Definition set_recv (k : cstate) (s : noiseSession) : noiseSession :=
  NoiseSession (status s) (serr s) (initiator s) (hs s) (gotMsg1 s) (sendCS s) (Some k)
    (peerStatic s) (readyClosed s).

Definition encrypt (plaintext : bytes) (s : noiseSession) : (sdkerr + bytes) * noiseSession :=
  if decide (status s ≠ statusReady) then (inl ErrNotReady, s)
  else match sendCS s ≫= λ k, csEncrypt k plaintext with
       | Some (k, c) => (inr c, set_send k s)
       | None => (inl (ErrNoise "encrypt"), s)
       end.

Definition decrypt (ciphertext : bytes) (s : noiseSession) : (sdkerr + bytes) * noiseSession :=
  if decide (status s ≠ statusReady) then (inl ErrNotReady, s)
  else match recvCS s ≫= λ k, csDecrypt k ciphertext with
       | Some (k, p) => (inr p, set_recv k s)
       | None => (inl (ErrNoise "decrypt"), s)
       end.
End session.
Arguments noiseSession {_}.

(** ** Properties *)

Section facts.
Context `{NoiseLaws}.

Definition session_ok (s : noiseSession) : Prop :=
  match status s with
  | statusHandshaking =>
      readyClosed s = 0 ∧ serr s = None ∧
      hs_index (hs s) = if initiator s then 1 else if gotMsg1 s then 2 else 0
  | statusReady => readyClosed s = 1 ∧ serr s = None ∧ is_Some (sendCS s) ∧ is_Some (recvCS s)
  | statusFailed => readyClosed s = 1 ∧ is_Some (serr s)
  end.

Lemma initiator_ok seed priv s m : newInitiatorSession seed priv = inr (s, m) → session_ok s.
Proof.
  unfold newInitiatorSession. destruct (NewHandshakeState seed priv true) as [h|] eqn:E; [|done].
  destruct (hsWrite h) as [[[h' m'] cs]|] eqn:Ew; [|done]. intros [= <- <-].
  apply hs_index_write in Ew as [E1 _]. apply hs_index_new in E. unfold session_ok. simpl.
  by rewrite E1, E.
Qed.

Lemma responder_ok seed priv s : newResponderSession seed priv = inr s → session_ok s.
Proof.
  unfold newResponderSession. destruct (NewHandshakeState seed priv false) as [h|] eqn:E; [|done].
  intros [= <-]. apply hs_index_new in E. by unfold session_ok.
Qed.

Lemma initiator_handshaking seed priv s m : newInitiatorSession seed priv = inr (s, m) → status s = statusHandshaking.
Proof. unfold newInitiatorSession. by repeat case_match; intros [= <- <-]. Qed.

Lemma responder_handshaking seed priv s : newResponderSession seed priv = inr s → status s = statusHandshaking.
Proof. unfold newResponderSession. by repeat case_match; intros [= <-]. Qed.

Lemma failLocked_ok e s : status s = statusHandshaking → readyClosed s = 0 → session_ok (failLocked e s).
Proof.
  intros Hs Hr. unfold failLocked. rewrite decide_False by (rewrite Hs; done).
  unfold session_ok. simpl. by rewrite Hr.
Qed.

Lemma finishLocked_ok h cs1 cs2 s :
  readyClosed s = 0 → serr s = None → is_Some cs1 → is_Some cs2 →
  session_ok (finishLocked h cs1 cs2 s).
Proof. intros Hr He H1 H2. unfold session_ok, finishLocked. simpl. by rewrite Hr. Qed.

Lemma handle_ok data s : session_ok s → session_ok (handleHandshakeMessage data s).2.
Proof.
  intros Hok. unfold handleHandshakeMessage. case_decide as Hst; [done|].
  assert (status s = statusHandshaking) as Hs by (destruct (status s); naive_solver).
  unfold session_ok in Hok. rewrite Hs in Hok. destruct Hok as (Hr & He & Hi).
  destruct (initiator s) eqn:Ei; [|destruct (gotMsg1 s) eqn:Eg];
    (destruct (hsRead (hs s) data) as [[h cs]|] eqn:Er; [|by apply failLocked_ok]);
    apply hs_index_read in Er as [E1 E3].
  - destruct (hsWrite h) as [[[h' m] cs']|] eqn:Ew; [|by apply failLocked_ok].
    apply hs_index_write in Ew as [E2 E4]. assert (is_Some cs') as [[k1 k2] ->] by (apply E4; lia).
    by apply finishLocked_ok.
  - assert (is_Some cs) as [[k1 k2] ->] by (apply E3; lia). by apply finishLocked_ok.
  - destruct (hsWrite h) as [[[h' m] cs']|] eqn:Ew; [|by apply failLocked_ok].
    apply hs_index_write in Ew as [E2 _]. unfold session_ok. simpl. rewrite Hs.
    split_and!; try done. lia.
Qed.

Lemma encrypt_ok p s : session_ok s → session_ok (encrypt p s).2.
Proof.
  intros Hok. unfold encrypt. case_decide; [done|]. case_match; [|done]. case_match.
  unfold session_ok in *. simpl. by destruct (status s); naive_solver.
Qed.

Lemma decrypt_ok c s : session_ok s → session_ok (decrypt c s).2.
Proof.
  intros Hok. unfold decrypt. case_decide; [done|]. case_match; [|done]. case_match.
  unfold session_ok in *. simpl. by destruct (status s); naive_solver.
Qed.

(** What can be done to a session from outside. *)
Inductive sop := SMessage (data : bytes) | SEncrypt (p : bytes) | SDecrypt (c : bytes).

Definition session_op (s : noiseSession) (o : sop) : noiseSession :=
  match o with
  | SMessage d => (handleHandshakeMessage d s).2
  | SEncrypt p => (encrypt p s).2
  | SDecrypt c => (decrypt c s).2
  end.

(** C29: Whatever bytes a peer or the relay sends, a session leaves the handshaking state
    at most once and closes its ready channel exactly then; a ready session has both
    cipher states, a failed one an error; and once it has left, no handshake message
    changes it. *)
Theorem session_lifecycle seed priv s0 os :
  (newResponderSession seed priv = inr s0 ∨ ∃ m, newInitiatorSession seed priv = inr (s0, m)) →
  let s := foldl session_op s0 os in
  session_ok s ∧ readyClosed s ≤ 1 ∧
  (status s ≠ statusHandshaking → ∀ d, handleHandshakeMessage d s = ((None, true, Some ErrFinished), s)).
Proof.
  intros Hnew s.
  assert (session_ok s) as Hok.
  { assert (session_ok s0) as Hs0
      by (destruct Hnew as [?|[m ?]]; eauto using responder_ok, initiator_ok).
    unfold s. clear Hnew s. revert s0 Hs0. induction os as [|o os IH]; intros s0 Hs0; [done|].
    simpl. apply IH. destruct o; simpl; auto using handle_ok, encrypt_ok, decrypt_ok. }
  split_and!; [done|..].
  - unfold session_ok in Hok. destruct (status s); naive_solver lia.
  - intros Hs d. unfold handleHandshakeMessage. by rewrite decide_True.
Qed.

(** An honest exchange of the three messages between two sessions. *)
Lemma xx_exchange sa sb a b si m1 sr r1 sr1 r2 si1 :
  newInitiatorSession sa a = inr (si, m1) → newResponderSession sb b = inr sr →
  handleHandshakeMessage m1 sr = (r1, sr1) → r1.2 = None →
  ∃ m2, r1 = (Some m2, false, None) ∧
  (handleHandshakeMessage m2 si = (r2, si1) → r2.2 = None →
   ∃ m3 sr2, r2 = (Some m3, true, None) ∧
     handleHandshakeMessage m3 sr1 = ((None, true, None), sr2) ∧
     status si1 = statusReady ∧ status sr2 = statusReady ∧
     peerStatic si1 = ScalarBaseMult b ∧ peerStatic sr2 = ScalarBaseMult a ∧
     ∃ ki kr li lr, sendCS si1 = Some ki ∧ recvCS si1 = Some li ∧
       sendCS sr2 = Some lr ∧ recvCS sr2 = Some kr ∧ synced ki kr ∧ synced lr li).
Proof.
  unfold newInitiatorSession, newResponderSession.
  destruct (NewHandshakeState sa a true) as [i0|] eqn:Ei; [|done].
  destruct (hsWrite i0) as [[[i1 m1'] c1]|] eqn:Ew; [|done]. intros [= <- <-].
  destruct (NewHandshakeState sb b false) as [r0|] eqn:Er; [|done]. intros [= <-].
  destruct (xx_run _ _ _ _ _ _ _ _ _ Ei Er Ew) as (hr1 & Hr1 & X).
  unfold handleHandshakeMessage at 1. simpl. rewrite Hr1.
  destruct (hsWrite hr1) as [[[hr2 m2] c2]|] eqn:Ew2; intros [= <- <-]; [|done]. intros _.
  destruct (X _ _ _ eq_refl) as (i2 & Hi2 & Y). exists m2. split; [done|].
  unfold handleHandshakeMessage at 1. simpl. rewrite Hi2.
  destruct (hsWrite i2) as [[[i3 m3] c3]|] eqn:Ew3; intros [= <- <-]; [|done]. intros _.
  destruct (Y _ _ _ eq_refl) as (k1 & k2 & r3 & k1' & k2' & -> & Hr3 & P1 & P2 & S1 & S2).
  exists m3. eexists. unfold handleHandshakeMessage. simpl. rewrite Hr3.
  split_and!; try done. simpl. by eexists k1, k1', k2, k2'.
Qed.

(** Sending a list of plaintexts. *)
Fixpoint encrypt_all (ps : list bytes) (s : noiseSession) : option (list bytes * noiseSession) :=
  match ps with
  | [] => Some ([], s)
  | p :: ps =>
      match encrypt p s with
      | (inr c, s') => '(cs, s'') ← encrypt_all ps s'; Some (c :: cs, s'')
      | (inl _, _) => None
      end
  end.

Fixpoint decrypt_all (cs : list bytes) (s : noiseSession) : option (list bytes * noiseSession) :=
  match cs with
  | [] => Some ([], s)
  | c :: cs =>
      match decrypt c s with
      | (inr p, s') => '(ps, s'') ← decrypt_all cs s'; Some (p :: ps, s'')
      | (inl _, _) => None
      end
  end.

(** One end sends what the other receives. *)
Definition channel (s r : noiseSession) : Prop :=
  status s = statusReady ∧ status r = statusReady ∧
  ∃ k l, sendCS s = Some k ∧ recvCS r = Some l ∧ synced k l.

Lemma channel_step p s r c s' :
  channel s r → encrypt p s = (inr c, s') →
  ∃ r', decrypt c r = (inr p, r') ∧ channel s' r' ∧
    sendCS r' = sendCS r ∧ recvCS s' = recvCS s ∧ status r' = status r ∧ status s' = status s ∧
    peerStatic s' = peerStatic s ∧ peerStatic r' = peerStatic r.
Proof.
  intros (Hs & Hr & k & l & Hk & Hl & Hsync). unfold encrypt, decrypt.
  rewrite Hs, Hr, !decide_False by auto. rewrite Hk, Hl. simpl.
  destruct (csEncrypt k p) as [[k' c']|] eqn:E; intros [= <- <-].
  destruct (synced_step _ _ _ _ _ Hsync E) as (l' & -> & Hsync').
  eexists. split; [done|]. simpl. split_and!; try done. unfold channel. simpl. naive_solver.
Qed.

Lemma channel_all ps s r cs s' :
  channel s r → encrypt_all ps s = Some (cs, s') →
  ∃ r', decrypt_all cs r = Some (ps, r') ∧ channel s' r'.
Proof.
  revert s r cs. induction ps as [|p ps IH]; simpl; intros s r cs Hc.
  { intros [= <- <-]. by exists r. }
  destruct (encrypt p s) as [[e|c] s1] eqn:E; [done|].
  intros ([cs1 s2] & H1 & [= <- <-])%bind_Some.
  destruct (channel_step _ _ _ _ _ Hc E) as (r1 & Hd & Hc1 & _).
  destruct (IH _ _ _ Hc1 H1) as (r2 & Hd2 & Hc2). exists r2. simpl. by rewrite Hd, Hd2.
Qed.

(** C28: Two sessions that exchange the three XX messages end ready on both sides, each
    with the other's public key as the authenticated one; afterwards every list of
    messages either side encrypts is decrypted by the other to the same list, in both
    directions. *)
Theorem xx_sessions sa sb a b si m1 sr r1 sr1 r2 si1 r3 sr2 m2 m3 ps cs si2 :
  newInitiatorSession sa a = inr (si, m1) → newResponderSession sb b = inr sr →
  handleHandshakeMessage m1 sr = ((Some m2, r1, None), sr1) →
  handleHandshakeMessage m2 si = ((Some m3, r2, None), si1) →
  handleHandshakeMessage m3 sr1 = (r3, sr2) →
  r1 = false ∧ r2 = true ∧ r3 = (None, true, None) ∧
  ready si1 = true ∧ ready sr2 = true ∧
  peerStatic si1 = ScalarBaseMult b ∧ peerStatic sr2 = ScalarBaseMult a ∧
  (encrypt_all ps si1 = Some (cs, si2) → fst <$> decrypt_all cs sr2 = Some ps) ∧
  (encrypt_all ps sr2 = Some (cs, si2) → fst <$> decrypt_all cs si1 = Some ps).
Proof.
  intros Hi Hr H1 H2 H3.
  destruct (xx_exchange sa sb a b si m1 sr _ sr1 (Some m3, r2, None) si1 Hi Hr H1 eq_refl)
    as (m2' & E & X).
  injection E as <- ->.
  destruct (X H2 eq_refl) as (m3' & sr2' & E & H3' & R1 & R2 & P1 & P2 & ki & kr & li & lr &
    S1 & S2 & S3 & S4 & Y1 & Y2).
  injection E as <- ->. rewrite H3 in H3'. injection H3' as -> ->.
  unfold ready. rewrite R1, R2. split_and!; try done; intros He.
  - destruct (channel_all ps si1 sr2' cs si2) as (r' & -> & _); [|done..]. unfold channel. naive_solver.
  - destruct (channel_all ps sr2' si1 cs si2) as (r' & -> & _); [|done..]. unfold channel. naive_solver.
Qed.
End facts.

(** ** A concrete library

    An (insecure) implementation of the interface that satisfies the laws: static keys
    travel in the clear and a ciphertext is its plaintext after a tag of sixteen bytes
    that holds a sequence number. *)
Module ToyNoise.

Record toy := Toy { t_init : bool; t_priv : bytes; t_peer : bytes; t_index : nat }.

Definition toy_write (h : toy) : option (toy * bytes * option (nat * nat)) :=
  let next := Toy (t_init h) (t_priv h) (t_peer h) (S (t_index h)) in
  match t_init h, t_index h with
  | true, 0 => Some (next, "1", None)
  | false, 1 => Some (next, String "2" (t_priv h), None)
  | true, 2 => Some (next, String "3" (t_priv h), Some (0, 0))
  | _, _ => None
  end.

Definition toy_read (h : toy) (d : bytes) : option (toy * option (nat * nat)) :=
  let next k := Toy (t_init h) (t_priv h) k (S (t_index h)) in
  match t_init h, t_index h, d with
  | false, 0, String "1" EmptyString => Some (next "", None)
  | true, 1, String "2" k => Some (next k, None)
  | false, 2, String "3" k => Some (next k, Some (0, 0))
  | _, _, _ => None
  end.

Definition toy_tag (n : nat) : bytes := String (ascii_of_nat n) "               ".

#[export] Instance toy_lib : NoiseLib := {
  hstate := toy;
  cstate := nat;
  NewHandshakeState _ k i := Some (Toy i k "" 0);
  hsWrite := toy_write;
  hsRead := toy_read;
  PeerStatic := t_peer;
  csEncrypt n p := if decide (n < 256) then Some (S n, toy_tag n +:+ p) else None;
  csDecrypt n c :=
    if decide (take 16 (chars c) = chars (toy_tag n)) then Some (S n, of_chars (drop 16 (chars c)))
    else None;
  ScalarBaseMult k := k
}.

#[export] Instance toy_laws : NoiseLaws.
Proof.
  refine {| hs_index := t_index; synced := λ e d, e = d |}.
  - by intros seed k b h [= <-].
  - intros [i k p n] h' m cs. simpl. unfold toy_write. simpl.
    destruct i, n as [|[|[|n]]]; try done; intros [= <- <- <-]; simpl;
      (split; [done|split; [intros; by eauto || lia|by intros [? ?]]]).
  - intros [i k p n] h' d cs. simpl. unfold toy_read. simpl.
    intros Hr. repeat (case_match; simplify_eq/=);
      (split; [done|split; [intros; by eauto || lia|by intros [? ?]]]).
  - intros e d e' p c <-. unfold csEncrypt, toy_lib. case_decide; [|done]. intros [= <- <-].
    exists (S e). split; [|done]. unfold csDecrypt.
    rewrite chars_app, decide_True by by rewrite take_app_length'. 
    by rewrite drop_app_length', of_chars_chars.
  - intros sa sb a b i0 r0 i1 m1 cs1 [= <-] [= <-] [= <- <- <-].
    eexists. split; [reflexivity|]. intros r2 m2 cs2 [= <- <- <-].
    eexists. split; [reflexivity|]. intros i3 m3 cs3 [= <- <- <-].
    by eexists 0, 0, _, 0, 0.
Defined.

#[export] Instance toy_sizes : NoiseSizes.
Proof.
  intros k p k' c. unfold csEncrypt, toy_lib. case_decide; [|done]. intros [= <- <-]. rewrite <- !slen_chars, chars_app, length_app. simpl. lia.
Qed.

Lemma toy_later (e e' : @cstate toy_lib) : later e e' → e ≤ e'.
Proof.
  induction 1 as [|e1 e2 p c _ IH E]; [done|]. unfold csEncrypt, toy_lib in *. case_decide; simplify_eq/=. lia.
Qed.

#[export] Instance toy_order : NoiseOrder.
Proof.
  intros e d p e1 c e2 q e3 c' <- H1 Hl%toy_later H2. unfold csEncrypt, csDecrypt, toy_lib in *.
  destruct (decide (e < 256)); [|done]. destruct (decide (e2 < 256)); [|done]. simplify_eq.
  rewrite decide_False; [done|]. rewrite chars_app, take_app_length' by done. intros E.
  assert (ascii_of_nat e2 = ascii_of_nat e) as E2%(f_equal nat_of_ascii) by (by injection E).
  rewrite !nat_ascii_embedding in E2 by done. lia.
Qed.
End ToyNoise.

Import ToyNoise.

Lemma session_lifecycle_witness :
  match newResponderSession "seed" "key" with
  | inr s0 =>
      let s := foldl session_op s0 [SMessage "1"; SDecrypt "x"; SMessage "garbage"; SMessage "3a"] in
      session_ok s ∧ readyClosed s ≤ 1
  | inl _ => False
  end.
Proof.
  destruct (session_lifecycle "seed" "key"
    (@NoiseSession toy_lib statusHandshaking None false (Toy false "key" "" 0) false None None "" 0)
    [SMessage "1"; SDecrypt "x"; SMessage "garbage"; SMessage "3a"]) as (H1 & H2 & _); [by left|].
  simpl. split; [exact H1|exact H2].
Defined.

Lemma xx_sessions_witness :
  ∃ si m1 sr sr1 si1 sr2 m2 m3 : _,
    newInitiatorSession "s1" "alice" = inr (si, m1) ∧
    newResponderSession "s2" "bob" = inr sr ∧
    handleHandshakeMessage m1 sr = ((Some m2, false, None), sr1) ∧
    handleHandshakeMessage m2 si = ((Some m3, true, None), si1) ∧
    handleHandshakeMessage m3 sr1 = ((None, true, None), sr2) ∧
    peerStatic si1 = "bob" ∧ peerStatic sr2 = "alice".
Proof.
  do 8 eexists. do 5 (split; [reflexivity|]).
  edestruct (xx_sessions "s1" "s2" "alice" "bob") with (ps := @nil bytes) (cs := @nil bytes)
    as (_ & _ & _ & _ & _ & P1 & P2 & _); [reflexivity..|].
  split; [exact P1|exact P2].
  Unshelve. exact (@NoiseSession toy_lib statusHandshaking None false (Toy false "" "" 0) false None None "" 0).
Defined.
