(* ===== verification/TsNoise.v ===== *)
(** * The Noise handshake of the TypeScript SDK (src/sdk/ts/src/noise)

    primitives.ts, cipherState.ts, symmetricState.ts, handshakeState.ts and session.ts,
    class by class.  A method that throws is [None]: the session it belongs to is failed
    or never made, so the fields it had already written are not looked at again.

    The theorems: an honest run of the handshake ends with the same two cipher states and
    the right static keys on both sides, and the handshake satisfies [NoiseLaws], which the
    rest of the development assumes of the Noise library of the Go SDK. *)

From S2P Require Import Prelude Blake2s Suite Keys Noise.

Module Ts.
Section ts.
Context `{Suite}.

(** ** primitives.ts *)

Definition DHLEN : nat := 32.
Definition HASHLEN : nat := 32.

Definition generateKeypair (randomBytes : nat → bytes) : option KeyPair :=
  let privateKey := randomBytes DHLEN in
  publicKey ← getPublicKey privateKey; Some (MkKeyPair privateKey publicKey).

Definition publicKeyFromPrivate (privateKey : bytes) : option bytes := getPublicKey privateKey.
Definition dh (privateKey publicKey : bytes) : option bytes := getSharedSecret privateKey publicKey.
Definition hash (data : bytes) : bytes := noble_blake2s data.

Definition noiseHKDF (chainingKey inputKeyMaterial : bytes) : bytes * bytes :=
  let okm := noble_hkdf inputKeyMaterial chainingKey (HASHLEN * 2) in
  (slice (0 * HASHLEN) (1 * HASHLEN) okm, slice (1 * HASHLEN) (2 * HASHLEN) okm).

(** [setBigUint64] keeps the low 64 bits of [n]. *)
Definition encodeNonce (n : Z) : bytes :=
  to_bytes (replicate 4 0%Z ++ ((λ i, Z.shiftr (n mod 2 ^ 64) (8 * Z.of_nat i) mod 256)%Z <$> seq 0 8)).

Definition aeadEncrypt (key : bytes) (n : Z) (ad plaintext : bytes) : option bytes :=
  chacha_seal key (encodeNonce n) ad plaintext.

Definition aeadDecrypt (key : bytes) (n : Z) (ad ciphertext : bytes) : option bytes :=
  chacha_open key (encodeNonce n) ad ciphertext.

(** ** cipherState.ts *)

Record CipherState := MkCipher { cs_key : option bytes; cs_n : Z }.

Definition newCipherState : CipherState := MkCipher None 0.
Definition initializeKey (k : bytes) : CipherState := MkCipher (Some k) 0.

Definition encryptWithAd (c : CipherState) (ad plaintext : bytes) : option (CipherState * bytes) :=
  match cs_key c with
  | None => Some (c, plaintext)
  | Some k =>
      ciphertext ← aeadEncrypt k (cs_n c) ad plaintext;
      Some (MkCipher (Some k) (cs_n c + 1), ciphertext)
  end.

Definition decryptWithAd (c : CipherState) (ad ciphertext : bytes) : option (CipherState * bytes) :=
  match cs_key c with
  | None => Some (c, ciphertext)
  | Some k =>
      plaintext ← aeadDecrypt k (cs_n c) ad ciphertext;
      Some (MkCipher (Some k) (cs_n c + 1), plaintext)
  end.

(** ** symmetricState.ts *)

Definition PROTOCOL_NAME : bytes := "Noise_XX_25519_ChaChaPoly_BLAKE2s".

Record SymmetricState := MkSymmetric { ss_ck : bytes; ss_h : bytes; cipherState : CipherState }.

Definition newSymmetricState : SymmetricState :=
  let h :=
    if (slen PROTOCOL_NAME <=? HASHLEN)%nat
    then PROTOCOL_NAME +:+ to_bytes (replicate (HASHLEN - slen PROTOCOL_NAME) 0%Z)
    else hash PROTOCOL_NAME in
  MkSymmetric h h newCipherState.

Definition mixKey (inputKeyMaterial : bytes) (s : SymmetricState) : SymmetricState :=
  let '(ck', tempK) := noiseHKDF (ss_ck s) inputKeyMaterial in
  MkSymmetric ck' (ss_h s) (initializeKey tempK).

Definition mixHash (data : bytes) (s : SymmetricState) : SymmetricState :=
  MkSymmetric (ss_ck s) (hash (ss_h s +:+ data)) (cipherState s).

Definition encryptAndHash (plaintext : bytes) (s : SymmetricState) : option (SymmetricState * bytes) :=
  '(c, ciphertext) ← encryptWithAd (cipherState s) (ss_h s) plaintext;
  Some (mixHash ciphertext (MkSymmetric (ss_ck s) (ss_h s) c), ciphertext).

Definition decryptAndHash (ciphertext : bytes) (s : SymmetricState) : option (SymmetricState * bytes) :=
  '(c, plaintext) ← decryptWithAd (cipherState s) (ss_h s) ciphertext;
  Some (mixHash ciphertext (MkSymmetric (ss_ck s) (ss_h s) c), plaintext).

Definition split (s : SymmetricState) : CipherState * CipherState :=
  let '(k1, k2) := noiseHKDF (ss_ck s) "" in
  (initializeKey k1, initializeKey k2).

(** ** handshakeState.ts *)

Definition TAGLEN : nat := 16.

Record HandshakeState := MkHandshake {
  hs_initiator : bool;
  symmetric : SymmetricState;
  hs_s : KeyPair;
  randomBytes : nat → bytes;
  hs_e : option KeyPair;
  hs_rs : option bytes;
  hs_re : option bytes;
  writeCount : nat;
  readCount : nat
}.

Definition newHandshakeState (initiator : bool) (staticKeyPair : KeyPair) (random : nat → bytes) : HandshakeState :=
  MkHandshake initiator (mixHash "" newSymmetricState) staticKeyPair random None None None 0 0.

Definition writeMessage (hs : HandshakeState) : option (HandshakeState * bytes * option (CipherState * CipherState)) :=
  let '(MkHandshake init sym s rnd e rs re wc rc) := hs in
  if init && (wc =? 0) then
    (* message 1: e *)
    e ← generateKeypair rnd;
    let sym := mixHash (publicKey e) sym in
    '(sym, payload) ← encryptAndHash "" sym;
    Some (MkHandshake init sym s rnd (Some e) rs re (S wc) rc, publicKey e +:+ payload, None)
  else if negb init && (wc =? 0) then
    (* message 2: e, ee, s, es *)
    e ← generateKeypair rnd;
    let sym := mixHash (publicKey e) sym in
    re' ← re;
    ee ← dh (privateKey e) re';
    let sym := mixKey ee sym in
    '(sym, encryptedS) ← encryptAndHash (publicKey s) sym;
    es ← dh (privateKey s) re';
    let sym := mixKey es sym in
    '(sym, payload) ← encryptAndHash "" sym;
    Some (MkHandshake init sym s rnd (Some e) rs re (S wc) rc, publicKey e +:+ (encryptedS +:+ payload), None)
  else if init && (wc =? 1) then
    (* message 3: s, se *)
    '(sym, encryptedS) ← encryptAndHash (publicKey s) sym;
    re' ← re;
    se ← dh (privateKey s) re';
    let sym := mixKey se sym in
    '(sym, payload) ← encryptAndHash "" sym;
    Some (MkHandshake init sym s rnd e rs re (S wc) rc, encryptedS +:+ payload, Some (split sym))
  else None.

Definition readMessage (message : bytes) (hs : HandshakeState)
    : option (HandshakeState * option (CipherState * CipherState)) :=
  let '(MkHandshake init sym s rnd e rs re wc rc) := hs in
  if negb init && (rc =? 0) then
    (* message 1: e *)
    let re' := slice 0 DHLEN message in
    let sym := mixHash re' sym in
    '(sym, _) ← decryptAndHash (slice_from DHLEN message) sym;
    Some (MkHandshake init sym s rnd e rs (Some re') wc (S rc), None)
  else if init && (rc =? 0) then
    (* message 2: e, ee, s, es *)
    let re' := slice 0 DHLEN message in
    let sym := mixHash re' sym in
    e' ← e;
    ee ← dh (privateKey e') re';
    let sym := mixKey ee sym in
    '(sym, rs') ← decryptAndHash (slice DHLEN (DHLEN + DHLEN + TAGLEN) message) sym;
    es ← dh (privateKey e') rs';
    let sym := mixKey es sym in
    '(sym, _) ← decryptAndHash (slice_from (DHLEN + DHLEN + TAGLEN) message) sym;
    Some (MkHandshake init sym s rnd e (Some rs') (Some re') wc (S rc), None)
  else if negb init && (rc =? 1) then
    (* message 3: s, se *)
    '(sym, rs') ← decryptAndHash (slice 0 (DHLEN + TAGLEN) message) sym;
    e' ← e;
    se ← dh (privateKey e') rs';
    let sym := mixKey se sym in
    '(sym, _) ← decryptAndHash (slice_from (DHLEN + TAGLEN) message) sym;
    Some (MkHandshake init sym s rnd e (Some rs') re wc (S rc), Some (split sym))
  else None.

(** ** session.ts *)

Inductive SessionStatus := handshaking | is_ready | is_failed.

(** [settled] is the state of [readyPromise]: pending, resolved or rejected. *)
Record NoiseSession := MkSession {
  s_status : SessionStatus;
  handshake : HandshakeState;
  gotFirstMessage : bool;
  sendCipher : option CipherState;
  recvCipher : option CipherState;
  s_peerStaticKey : option bytes;
  settled : option bool
}.

Definition newSession (initiator : bool) (staticKeyPair : KeyPair) (random : nat → bytes) : NoiseSession :=
  MkSession handshaking (newHandshakeState initiator staticKeyPair random) false None None None None.

Definition startAsInitiator (staticKeyPair : KeyPair) (random : nat → bytes) : option (NoiseSession * bytes) :=
  let session := newSession true staticKeyPair random in
  '(hs, message, _) ← writeMessage (handshake session);
  Some (MkSession handshaking hs false None None None None, message).

Definition startAsResponder (staticKeyPair : KeyPair) (random : nat → bytes) : NoiseSession :=
  newSession false staticKeyPair random.

Definition isReady (s : NoiseSession) : bool := match s_status s with is_ready => true | _ => false end.
Definition isSettled (s : NoiseSession) : bool := match s_status s with handshaking => false | _ => true end.

(** A promise keeps the first of its settlements. *)
Definition settle (b : bool) (p : option bool) : option bool := match p with None => Some b | _ => p end.

Definition finish (send recv : CipherState) (hs : HandshakeState) (s : NoiseSession) : NoiseSession :=
  MkSession is_ready hs (gotFirstMessage s) (Some send) (Some recv) (hs_rs hs) (settle true (settled s)).

Definition fail (s : NoiseSession) : NoiseSession :=
  match s_status s with
  | is_failed => s
  | _ => MkSession is_failed (handshake s) (gotFirstMessage s) (sendCipher s) (recvCipher s) (s_peerStaticKey s)
           (settle false (settled s))
  end.

Definition with_handshake (hs : HandshakeState) (got : bool) (s : NoiseSession) : NoiseSession :=
  MkSession (s_status s) hs got (sendCipher s) (recvCipher s) (s_peerStaticKey s) (settled s).

(** [None] if the method itself throws. *)
Definition handleHandshakeMessage (data : bytes) (s : NoiseSession) : option (option bytes * NoiseSession) :=
  match s_status s with
  | handshaking =>
      Some (if hs_initiator (handshake s) then
        match readMessage data (handshake s) with
        | None => (None, fail s)
        | Some (hs, _) =>
            match writeMessage hs with
            | None => (None, fail s)
            | Some (hs, message, Some (c1, c2)) => (Some message, finish c1 c2 hs s)
            | Some (hs, message, None) => (Some message, with_handshake hs (gotFirstMessage s) s)
            end
        end
      else if gotFirstMessage s then
        match readMessage data (handshake s) with
        | None => (None, fail s)
        | Some (hs, Some (c1, c2)) => (None, finish c2 c1 hs s)
        | Some (hs, None) => (None, with_handshake hs true s)
        end
      else
        match readMessage data (handshake s) with
        | None => (None, fail (with_handshake (handshake s) true s))
        | Some (hs, _) =>
            match writeMessage hs with
            | None => (None, fail (with_handshake hs true s))
            | Some (hs, message, _) => (Some message, with_handshake hs true s)
            end
        end)
  | _ => None
  end.

Definition encrypt (plaintext : bytes) (s : NoiseSession) : option (bytes * NoiseSession) :=
  match s_status s, sendCipher s with
  | is_ready, Some c =>
      '(c, x) ← encryptWithAd c "" plaintext;
      Some (x, MkSession is_ready (handshake s) (gotFirstMessage s) (Some c) (recvCipher s) (s_peerStaticKey s) (settled s))
  | _, _ => None
  end.

Definition decrypt (ciphertext : bytes) (s : NoiseSession) : option (bytes * NoiseSession) :=
  match s_status s, recvCipher s with
  | is_ready, Some c =>
      '(c, x) ← decryptWithAd c "" ciphertext;
      Some (x, MkSession is_ready (handshake s) (gotFirstMessage s) (sendCipher s) (Some c) (s_peerStaticKey s) (settled s))
  | _, _ => None
  end.

(** ** An honest run *)

Context `{!SuiteLaws}.

Lemma decrypt_encrypt c ad p c' x : encryptWithAd c ad p = Some (c', x) → decryptWithAd c ad x = Some (c', p).
Proof.
  unfold encryptWithAd, decryptWithAd, aeadEncrypt, aeadDecrypt. destruct (cs_key c) as [k|]; [|by intros [= <- <-]].
  destruct (chacha_seal _ _ _ _) as [y|] eqn:E; cbn [mbind option_bind]; [|done]. intros [= <- <-].
  by rewrite (open_seal _ _ _ _ _ E).
Qed.

Lemma encrypt_length c ad p c' x k : cs_key c = Some k → encryptWithAd c ad p = Some (c', x) →
  slen x = slen p + 16 ∧ cs_key c' = Some k.
Proof.
  unfold encryptWithAd, aeadEncrypt. intros ->. destruct (chacha_seal _ _ _ _) eqn:E; cbn [mbind option_bind]; [|done].
  intros [= <- <-]. split; [by eapply seal_length|done].
Qed.

Lemma read_written p s s' x : encryptAndHash p s = Some (s', x) → decryptAndHash x s = Some (s', p).
Proof.
  unfold encryptAndHash, decryptAndHash. destruct (encryptWithAd _ _ _) as [[c y]|] eqn:E; cbn [mbind option_bind]; [|done].
  intros [= <- <-]. by rewrite (decrypt_encrypt _ _ _ _ _ E).
Qed.

(** A key is set. *)
Definition keyed (s : SymmetricState) : Prop := is_Some (cs_key (cipherState s)).

Lemma mixKey_keyed ikm s : keyed (mixKey ikm s).
Proof. unfold mixKey, keyed. destruct (noiseHKDF _ _). by eexists. Qed.

Lemma sealed p s s' x : keyed s → encryptAndHash p s = Some (s', x) → slen x = slen p + 16 ∧ keyed s'.
Proof.
  intros [k Hk]. unfold encryptAndHash. destruct (encryptWithAd _ _ _) as [[c y]|] eqn:E; cbn [mbind option_bind]; [|done].
  intros [= <- <-]. destruct (encrypt_length _ _ _ _ _ _ Hk E) as [? Hk']. split; [done|]. by exists k.
Qed.

#[local] Hint Resolve mixKey_keyed : core.

Lemma generated r e : generateKeypair r = Some e → getPublicKey (privateKey e) = Some (publicKey e).
Proof. unfold generateKeypair. destruct (getPublicKey _) eqn:Ep; cbn [mbind option_bind]; [|done]. by intros [= <-]. Qed.

(** The three messages, each with what the side that writes and the side that reads it agree
    on afterwards. *)

Section run.
Context (sa sb : nat → bytes) (a b A B : bytes).
Hypothesis HA : getPublicKey a = Some A.
Hypothesis HB : getPublicKey b = Some B.

Definition i0 : HandshakeState := newHandshakeState true (MkKeyPair a A) sa.
Definition r0 : HandshakeState := newHandshakeState false (MkKeyPair b B) sb.

(** After message 1. *)
Lemma message1 i1 m1 cs : writeMessage i0 = Some (i1, m1, cs) →
  ∃ e sym, generateKeypair sa = Some e ∧ cs = None ∧
    i1 = MkHandshake true sym (MkKeyPair a A) sa (Some e) None None 1 0 ∧
    readMessage m1 r0 = Some (MkHandshake false sym (MkKeyPair b B) sb None None (Some (publicKey e)) 0 1, None).
Proof.
  unfold i0, r0, newHandshakeState, writeMessage, readMessage. cbn [andb negb Nat.eqb].
  destruct (generateKeypair sa) as [e|] eqn:Ee; cbn [mbind option_bind]; [|done].
  destruct (encryptAndHash "" _) as [[sym payload]|] eqn:E1; cbn [mbind option_bind]; [|done].
  intros [= <- <- <-]. exists e, sym. split_and!; [done..|].
  pose proof (public_length _ _ (generated _ _ Ee)) as Hlen. rewrite (slice_app _ _ _ Hlen), (slice_from_app _ _ _ Hlen).
  rewrite (read_written _ _ _ _ E1). done.
Qed.

(** After message 2. *)
Lemma message2 e sym r2 m2 cs : generateKeypair sa = Some e →
  writeMessage (MkHandshake false sym (MkKeyPair b B) sb None None (Some (publicKey e)) 0 1) = Some (r2, m2, cs) →
  ∃ f sym', generateKeypair sb = Some f ∧ cs = None ∧ keyed sym' ∧
    r2 = MkHandshake false sym' (MkKeyPair b B) sb (Some f) None (Some (publicKey e)) 1 1 ∧
    readMessage m2 (MkHandshake true sym (MkKeyPair a A) sa (Some e) None None 1 0) =
      Some (MkHandshake true sym' (MkKeyPair a A) sa (Some e) (Some B) (Some (publicKey f)) 1 1, None).
Proof.
  intros Ee. unfold writeMessage, readMessage. cbn [andb negb Nat.eqb].
  destruct (generateKeypair sb) as [f|] eqn:Ef; cbn [mbind option_bind]; [|done].
  cbn [publicKey privateKey]. unfold dh.
  destruct (getSharedSecret (privateKey f) _) as [ee|] eqn:Eee; cbn [mbind option_bind]; [|done].
  destruct (encryptAndHash B _) as [[sym1 encryptedS]|] eqn:E1; cbn [mbind option_bind]; [|done].
  destruct (getSharedSecret b _) as [es|] eqn:Ees; cbn [mbind option_bind]; [|done].
  destruct (encryptAndHash "" _) as [[sym2 payload]|] eqn:E2; cbn [mbind option_bind]; [|done].
  intros [= <- <- <-]. exists f, sym2. destruct (sealed _ _ _ _ (mixKey_keyed _ _) E2) as [_ Hk].
  split_and!; [done..|].
  pose proof (generated _ _ Ee) as HPe. pose proof (generated _ _ Ef) as HPf.
  pose proof (public_length _ _ HPf) as Hf. pose proof (public_length _ _ HB) as HlB.
  destruct (sealed _ _ _ _ (mixKey_keyed _ _) E1) as [Hs _]. unfold DHLEN, TAGLEN. cbn [Nat.add].
  rewrite (slice_app _ _ _ Hf), (slice_mid _ _ _ _ _ Hf) by lia.
  rewrite (shared_comm _ _ _ _ HPe HPf), Eee. cbn [mbind option_bind].
  rewrite (read_written _ _ _ _ E1). cbn [mbind option_bind].
  rewrite (shared_comm _ _ _ _ HPe HB), Ees. cbn [mbind option_bind].
  rewrite (slice_from_two (publicKey f) encryptedS payload) by lia.
  by rewrite (read_written _ _ _ _ E2).
Qed.

(** After message 3. *)
Lemma message3 e f sym i3 m3 cs : generateKeypair sa = Some e → generateKeypair sb = Some f →
  keyed sym →
  writeMessage (MkHandshake true sym (MkKeyPair a A) sa (Some e) (Some B) (Some (publicKey f)) 1 1) = Some (i3, m3, cs) →
  ∃ sym' k1 k2, cs = Some (k1, k2) ∧
    i3 = MkHandshake true sym' (MkKeyPair a A) sa (Some e) (Some B) (Some (publicKey f)) 2 1 ∧
    readMessage m3 (MkHandshake false sym (MkKeyPair b B) sb (Some f) None (Some (publicKey e)) 1 1) =
      Some (MkHandshake false sym' (MkKeyPair b B) sb (Some f) (Some A) (Some (publicKey e)) 1 2, Some (k1, k2)).
Proof.
  intros Ee Ef Hk. unfold writeMessage, readMessage. cbn [andb negb Nat.eqb publicKey privateKey]. unfold dh.
  destruct (encryptAndHash A _) as [[sym1 encryptedS]|] eqn:E1; cbn [mbind option_bind]; [|done].
  destruct (getSharedSecret a _) as [se|] eqn:Ese; cbn [mbind option_bind]; [|done].
  destruct (encryptAndHash "" _) as [[sym2 payload]|] eqn:E2; cbn [mbind option_bind]; [|done].
  destruct (split sym2) as [k1 k2] eqn:Es. intros [= <- <- <-]. exists sym2, k1, k2. split_and!; [done..|].
  pose proof (generated _ _ Ef) as HPf. pose proof (public_length _ _ HA) as HlA.
  destruct (sealed _ _ _ _ Hk E1) as [Hs _].
  rewrite (slice_app encryptedS), (slice_from_app encryptedS) by (unfold DHLEN, TAGLEN; lia).
  rewrite (read_written _ _ _ _ E1). cbn [mbind option_bind].
  rewrite (shared_comm _ _ _ _ HPf HA), Ese. cbn [mbind option_bind].
  rewrite (read_written _ _ _ _ E2). cbn [mbind option_bind]. by rewrite Es.
Qed.
End run.

(** ** The states a handshake goes through *)

Definition hs_count (hs : HandshakeState) : nat := writeCount hs + readCount hs.

Definition hs_wf (hs : HandshakeState) : Prop :=
  (is_Some (hs_e hs) ↔ writeCount hs ≠ 0) ∧ (is_Some (hs_re hs) ↔ readCount hs ≠ 0) ∧
  if hs_initiator hs then readCount hs ≤ writeCount hs ≤ S (readCount hs) ∧ readCount hs ≤ 1
  else writeCount hs ≤ readCount hs ≤ S (writeCount hs) ∧ writeCount hs ≤ 1.

Lemma new_wf init s rnd : hs_wf (newHandshakeState init s rnd) ∧ hs_count (newHandshakeState init s rnd) = 0.
Proof.
  split; [|done]. split_and!; cbn; [by split; [intros []|]..|]. destruct init; cbn; lia.
Qed.

Lemma write_wf hs hs' m cs : hs_wf hs → writeMessage hs = Some (hs', m, cs) →
  hs_wf hs' ∧ hs_count hs' = S (hs_count hs) ∧ (hs_count hs' = 3 ↔ is_Some cs).
Proof.
  destruct hs as [init sym s rnd e rs re wc rc]. unfold hs_wf, hs_count.
  cbn [writeCount readCount hs_e hs_re hs_initiator writeMessage]. intros (He & Hre & Hin) Hrun.
  rewrite <- not_eq_None_Some in He. rewrite <- not_eq_None_Some in Hre.
  destruct init, wc as [|[|wc]]; cbn [andb negb Nat.eqb] in Hrun; try discriminate Hrun;
    run_binds Hrun; injection Hrun as <- <- <-; cbn [writeCount readCount hs_e hs_re hs_initiator];
    rewrite <- ?not_eq_None_Some; destruct rc as [|[|rc]]; naive_solver lia.
Qed.

Lemma read_wf hs hs' d cs : hs_wf hs → readMessage d hs = Some (hs', cs) →
  hs_wf hs' ∧ hs_count hs' = S (hs_count hs) ∧ (hs_count hs' = 3 ↔ is_Some cs).
Proof.
  destruct hs as [init sym s rnd e rs re wc rc]. unfold hs_wf, hs_count.
  cbn [writeCount readCount hs_e hs_re hs_initiator readMessage]. intros (He & Hre & Hin) Hrun.
  rewrite <- not_eq_None_Some in He. rewrite <- not_eq_None_Some in Hre.
  destruct init, rc as [|[|rc]]; cbn [andb negb Nat.eqb] in Hrun; try discriminate Hrun;
    run_binds Hrun; injection Hrun as <- <-; cbn [writeCount readCount hs_e hs_re hs_initiator];
    rewrite <- ?not_eq_None_Some; destruct wc as [|[|wc]]; naive_solver lia.
Qed.

(** ** The handshake as a Noise library *)

(** A transport cipher state always has its key. *)
Definition of_cipher (c : CipherState) : bytes * Z := (default "" (cs_key c), cs_n c).
Definition to_cipher (c : bytes * Z) : CipherState := MkCipher (Some c.1) c.2.
Definition of_pair (cs : CipherState * CipherState) : (bytes * Z) * (bytes * Z) := (of_cipher cs.1, of_cipher cs.2).

(** A map over a result that may use where the result came from. *)
Definition lift {A B : Type} (r : option A) : (∀ x, r = Some x → B) → option B :=
  match r with
  | Some x => λ f, Some (f x eq_refl)
  | None => λ _, None
  end.

Lemma lift_Some {A B : Type} (r : option A) (f : ∀ x, r = Some x → B) y : lift r f = Some y → ∃ x E, y = f x E.
Proof. destruct r as [x|]; [|done]. intros [= <-]. by eexists x, eq_refl. Qed.

Lemma lift_is {A B : Type} (r : option A) (f : ∀ x, r = Some x → B) x : r = Some x → ∃ E, lift r f = Some (f x E).
Proof. intros E. destruct r as [x'|]; [|done]. injection E as ->. by exists eq_refl. Qed.

Definition lib_write (hs : sig hs_wf) : option (sig hs_wf * bytes * option ((bytes * Z) * (bytes * Z))) :=
  lift (writeMessage (`hs)) (λ x,
    match x with (hs', m, cs) => λ E, (hs' ↾ proj1 (write_wf _ _ _ _ (proj2_sig hs) E), m, of_pair <$> cs) end).

Definition lib_read (hs : sig hs_wf) (d : bytes) : option (sig hs_wf * option ((bytes * Z) * (bytes * Z))) :=
  lift (readMessage d (`hs)) (λ x,
    match x with (hs', cs) => λ E, (hs' ↾ proj1 (read_wf _ _ _ _ (proj2_sig hs) E), of_pair <$> cs) end).

Lemma lib_write_inv hs hs' m cs : lib_write hs = Some (hs', m, cs) →
  ∃ cs', writeMessage (`hs) = Some (`hs', m, cs') ∧ cs = of_pair <$> cs'.
Proof. intros ([[hs1 m1] cs1] & E & Hx)%lift_Some. injection Hx as -> -> ->. by exists cs1. Qed.

Lemma lib_read_inv hs d hs' cs : lib_read hs d = Some (hs', cs) →
  ∃ cs', readMessage d (`hs) = Some (`hs', cs') ∧ cs = of_pair <$> cs'.
Proof. intros ([hs1 cs1] & E & Hx)%lift_Some. injection Hx as -> ->. by exists cs1. Qed.

Lemma lib_read_is hs d hs' cs : readMessage d (`hs) = Some (hs', cs) →
  ∃ wf, lib_read hs d = Some (hs' ↾ wf, of_pair <$> cs).
Proof. intros E. destruct (lift_is _ (λ x,
    match x with (hs', cs) => λ E, (hs' ↾ proj1 (read_wf _ _ _ _ (proj2_sig hs) E), of_pair <$> cs) end) _ E) as [E' Hx].
  by eexists. Qed.

(** The static key pair of a private key, as [publicKeyFromPrivate] makes it; the seed is what
    [randomBytes] returns. *)
Definition lib_new (seed k : bytes) (init : bool) : option (sig hs_wf) :=
  pub ← publicKeyFromPrivate k;
  Some (newHandshakeState init (MkKeyPair k pub) (λ _, seed) ↾ proj1 (new_wf init (MkKeyPair k pub) (λ _, seed))).

Definition ts_lib : NoiseLib := {|
  hstate := sig hs_wf;
  cstate := bytes * Z;
  NewHandshakeState := lib_new;
  hsWrite := lib_write;
  hsRead := lib_read;
  PeerStatic hs := default "" (hs_rs (`hs));
  csEncrypt c p := prod_map of_cipher id <$> encryptWithAd (to_cipher c) "" p;
  csDecrypt c x := prod_map of_cipher id <$> decryptWithAd (to_cipher c) "" x;
  ScalarBaseMult k := default "" (publicKeyFromPrivate k)
|}.

Lemma ts_run sa sb a b i0 r0 i1 m1 cs1 :
  lib_new sa a true = Some i0 → lib_new sb b false = Some r0 → lib_write i0 = Some (i1, m1, cs1) →
  ∃ r1, lib_read r0 m1 = Some (r1, None) ∧
  ∀ r2 m2 cs2, lib_write r1 = Some (r2, m2, cs2) →
  ∃ i2, lib_read i1 m2 = Some (i2, None) ∧
  ∀ i3 m3 cs3, lib_write i2 = Some (i3, m3, cs3) →
  ∃ k1 k2 r3, cs3 = Some (k1, k2) ∧ lib_read r2 m3 = Some (r3, Some (k1, k2)) ∧
    hs_rs (`i3) = publicKeyFromPrivate b ∧ hs_rs (`r3) = publicKeyFromPrivate a.
Proof.
  unfold lib_new, publicKeyFromPrivate.
  destruct (getPublicKey a) as [A|] eqn:HA; cbn [mbind option_bind]; [|done].
  destruct (getPublicKey b) as [B|] eqn:HB; cbn [mbind option_bind]; [|done].
  intros [= <-] [= <-] (cs1' & Hw1 & _)%lib_write_inv. cbn [proj1_sig] in Hw1.
  destruct (message1 (λ _, sa) (λ _, sb) a b A B _ _ _ Hw1) as (e & sym & Ee & _ & Ei1 & Hr1).
  destruct (lib_read_is (newHandshakeState false (MkKeyPair b B) (λ _, sb) ↾ proj1 (new_wf _ _ _)) _ _ _ Hr1)
    as [wf1 Hr1']. eexists. split; [exact Hr1'|].
  intros r2 m2 cs2 (cs2' & Hw2 & _)%lib_write_inv. cbn [proj1_sig] in Hw2.
  destruct (message2 (λ _, sa) (λ _, sb) a b A B HB _ _ _ _ _ Ee Hw2) as (f & sym2 & Ef & _ & Hk & Er2 & Hr2).
  rewrite <- Ei1 in Hr2. destruct (lib_read_is i1 _ _ _ Hr2) as [wf2 Hr2']. eexists. split; [exact Hr2'|].
  intros i3 m3 cs3 (cs3' & Hw3 & ->)%lib_write_inv. cbn [proj1_sig] in Hw3.
  destruct (message3 (λ _, sa) (λ _, sb) a b A B HA _ _ _ _ _ _ Ee Ef Hk Hw3) as (sym3 & k1 & k2 & -> & Ei3 & Hr3).
  rewrite <- Er2 in Hr3. destruct (lib_read_is r2 _ _ _ Hr3) as [wf3 Hr3'].
  do 3 eexists. split_and!; [reflexivity|exact Hr3'|by rewrite Ei3|reflexivity].
Qed.

Definition ts_laws : @NoiseLaws ts_lib.
Proof.
  refine (@Build_NoiseLaws ts_lib (λ hs, hs_count (`hs)) _ _ _ (λ e d, e = d) _ _).
  - intros seed k b hs. cbn. unfold lib_new. destruct (publicKeyFromPrivate k); cbn [mbind option_bind]; [|done].
    by intros [= <-].
  - intros hs hs' m cs (cs' & E & ->)%lib_write_inv. apply write_wf in E as (_ & E1 & E2); [|by destruct hs].
    split; [done|]. rewrite E2. by rewrite fmap_is_Some.
  - intros hs hs' d cs (cs' & E & ->)%lib_read_inv. apply read_wf in E as (_ & E1 & E2); [|by destruct hs].
    split; [done|]. rewrite E2. by rewrite fmap_is_Some.
  - intros e d e' p c <-. cbn [csEncrypt csDecrypt ts_lib]. intros ([c' x] & E & [= -> ->])%fmap_Some_1.
    rewrite (decrypt_encrypt _ _ _ _ _ E). by eexists.
  - intros sa sb a b i0 r0 i1 m1 cs1 Hi Hr Hw.
    destruct (ts_run _ _ _ _ _ _ _ _ _ Hi Hr Hw) as (r1 & H1 & K1). exists r1. split; [exact H1|].
    intros r2 m2 cs2 Hw2. destruct (K1 _ _ _ Hw2) as (i2 & H2 & K2). exists i2. split; [exact H2|].
    intros i3 m3 cs3 Hw3. destruct (K2 _ _ _ Hw3) as (k1 & k2 & r3 & E3 & H3 & P1 & P2).
    exists k1, k2, r3, k1, k2. split_and!; [exact E3|exact H3|cbn; by rewrite P1|cbn; by rewrite P2|done|done].
Qed.

Definition ts_sizes : @NoiseSizes ts_lib.
Proof.
  intros k p k' c ([c' x] & E & [= -> ->])%fmap_Some_1. by destruct (encrypt_length (to_cipher k) _ _ _ _ k.1 eq_refl E).
Qed.
End ts.
End Ts.
