(* ===== verification/CppNoise.v ===== *)
(** * The Noise handshake of the C++ SDK (src/sdk/cpp/src/noise)

    primitives.cpp, cipher_state.cpp, symmetric_state.cpp, handshake_state.cpp and
    session.cpp, class by class, over the vendored BLAKE2s.  A function that throws is
    [None], and so is one that dereferences an empty optional.

    The theorem [cpp_agrees_ts]: fed the same bytes, a C++ session and a TypeScript session
    give the same replies and end in the same state, so that either implements the
    handshake for the other. *)

From S2P Require Import Prelude Blake2s Suite Keys Noise TsNoise.

Module Cpp.
Section cpp.
Context `{Suite}.

(** ** primitives.cpp *)

Definition kKeyLen : nat := 32.
Definition kTagLen : nat := 16.
Definition kBlake2sBlockLen : nat := 64.

(** The return values of the three calls are not looked at; [out] starts as zeros. *)
Definition Blake2s32 (data : bytes) : bytes :=
  to_bytes (default (replicate kKeyLen 0%Z)
    (st ← blake2s_init kKeyLen;
     blake2s_final (if (0 <? slen data)%nat then blake2s_update st (of_bytes data) else st) kKeyLen)).

Definition HmacBlake2s (key data : bytes) : bytes :=
  let key_block := chars (if (kBlake2sBlockLen <? slen key)%nat then Blake2s32 key else key) in
  let key_block := key_block ++ replicate (kBlake2sBlockLen - length key_block) zero in
  let ipad := (λ c, byte_of (Z.lxor (byte_val c) 0x36)) <$> key_block in
  let opad := (λ c, byte_of (Z.lxor (byte_val c) 0x5c)) <$> key_block in
  let inner_hash := Blake2s32 (of_chars ipad +:+ data) in
  Blake2s32 (of_chars opad +:+ inner_hash).

Definition EncodeNonce (n : Z) : bytes :=
  to_bytes (replicate 4 0%Z ++ ((λ i, Z.land (Z.shiftr n (8 * Z.of_nat i)) 0xff) <$> seq 0 8)).

(** [random] is the private key [crypto_box_keypair] draws. *)
Definition GenerateKeypair (random : bytes) : option KeyPair :=
  pub ← getPublicKey random; Some (MkKeyPair random pub).

Definition PublicKeyFromPrivate (private_key : bytes) : option bytes := getPublicKey private_key.
Definition Dh (private_key public_key : bytes) : option bytes := getSharedSecret private_key public_key.
Definition Hash (data : bytes) : bytes := Blake2s32 data.

Definition Hkdf2 (chaining_key input_key_material : bytes) : bytes * bytes :=
  let temp_key := HmacBlake2s chaining_key input_key_material in
  let output1 := HmacBlake2s temp_key (String "001" "") in
  let output2 := HmacBlake2s temp_key (output1 +:+ String "002" "") in
  (output1, output2).

Definition AeadEncrypt (key : bytes) (nonce : Z) (ad plaintext : bytes) : option bytes :=
  chacha_seal key (EncodeNonce nonce) ad plaintext.
Definition AeadDecrypt (key : bytes) (nonce : Z) (ad ciphertext : bytes) : option bytes :=
  chacha_open key (EncodeNonce nonce) ad ciphertext.

(** ** cipher_state.cpp *)

(** [n_] is a [uint64_t]. *)
Record CipherState := MkCipher { key_ : option bytes; n_ : Z }.

Definition InitializeKey (k : bytes) : CipherState := MkCipher (Some k) 0.

Definition EncryptWithAd (c : CipherState) (ad plaintext : bytes) : option (CipherState * bytes) :=
  match key_ c with
  | None => Some (c, plaintext)
  | Some k => out ← AeadEncrypt k (n_ c) ad plaintext; Some (MkCipher (Some k) ((n_ c + 1) mod 2 ^ 64), out)
  end.

Definition DecryptWithAd (c : CipherState) (ad ciphertext : bytes) : option (CipherState * bytes) :=
  match key_ c with
  | None => Some (c, ciphertext)
  | Some k => out ← AeadDecrypt k (n_ c) ad ciphertext; Some (MkCipher (Some k) ((n_ c + 1) mod 2 ^ 64), out)
  end.

(** ** symmetric_state.cpp *)

Record SymmetricState := MkSymmetric { ck_ : bytes; h_ : bytes; cipher_state_ : CipherState }.

Definition Initialize (protocol_name : bytes) : SymmetricState :=
  let h := if (slen protocol_name <=? kKeyLen)%nat
    then protocol_name +:+ to_bytes (replicate (kKeyLen - slen protocol_name) 0%Z)
    else Hash protocol_name in
  MkSymmetric h h (MkCipher None 0).

Definition MixKey (input_key_material : bytes) (s : SymmetricState) : SymmetricState :=
  let '(new_ck, temp_k) := Hkdf2 (ck_ s) input_key_material in
  MkSymmetric new_ck (h_ s) (InitializeKey temp_k).

Definition MixHash (data : bytes) (s : SymmetricState) : SymmetricState :=
  MkSymmetric (ck_ s) (Hash (h_ s +:+ data)) (cipher_state_ s).

Definition EncryptAndHash (plaintext : bytes) (s : SymmetricState) : option (SymmetricState * bytes) :=
  '(c, ciphertext) ← EncryptWithAd (cipher_state_ s) (h_ s) plaintext;
  Some (MixHash ciphertext (MkSymmetric (ck_ s) (h_ s) c), ciphertext).

Definition DecryptAndHash (ciphertext : bytes) (s : SymmetricState) : option (SymmetricState * bytes) :=
  '(c, plaintext) ← DecryptWithAd (cipher_state_ s) (h_ s) ciphertext;
  Some (MixHash ciphertext (MkSymmetric (ck_ s) (h_ s) c), plaintext).

Definition Split (s : SymmetricState) : CipherState * CipherState :=
  let '(temp_k1, temp_k2) := Hkdf2 (ck_ s) "" in
  (InitializeKey temp_k1, InitializeKey temp_k2).

(** ** handshake_state.cpp *)

Definition kProtocolName : bytes := "Noise_XX_25519_ChaChaPoly_BLAKE2s".

Record HandshakeState := MkHandshake {
  initiator_ : bool;
  message_index_ : nat;
  symmetric_ : SymmetricState;
  s_ : KeyPair;
  e_ : option KeyPair;
  re_ : option bytes;
  rs_ : option bytes;
  random_ : bytes
}.

Record SplitResult := MkSplit { sp_send : CipherState; sp_recv : CipherState; sp_peer_static : bytes }.

Definition NewHandshake (initiator : bool) (static_keypair : KeyPair) (random : bytes) : HandshakeState :=
  MkHandshake initiator 0 (MixHash "" (Initialize kProtocolName)) static_keypair None None None random.

(** The part of [WriteMessage] that depends on the message: the new state and the bytes so far. *)
Definition write_tokens (hs : HandshakeState) : option (HandshakeState * bytes) :=
  let '(MkHandshake init idx sym s e re rs rnd) := hs in
  match idx with
  | 0 =>
      e' ← GenerateKeypair rnd;
      Some (MkHandshake init idx (MixHash (publicKey e') sym) s (Some e') re rs rnd, publicKey e')
  | 1 =>
      e' ← GenerateKeypair rnd;
      let sym := MixHash (publicKey e') sym in
      re' ← re;
      ee ← Dh (privateKey e') re';
      '(sym, s_ct) ← EncryptAndHash (publicKey s) (MixKey ee sym);
      es ← Dh (privateKey s) re';
      Some (MkHandshake init idx (MixKey es sym) s (Some e') re rs rnd, publicKey e' +:+ s_ct)
  | 2 =>
      '(sym, s_ct) ← EncryptAndHash (publicKey s) sym;
      re' ← re;
      se ← Dh (privateKey s) re';
      Some (MkHandshake init idx (MixKey se sym) s e re rs rnd, s_ct)
  | _ => None
  end.

Definition WriteMessage (hs : HandshakeState) : option (HandshakeState * bytes * option SplitResult) :=
  '(hs, buffer) ← write_tokens hs;
  let '(MkHandshake init idx sym s e re rs rnd) := hs in
  '(sym, payload_ct) ← EncryptAndHash "" sym;
  let hs := MkHandshake init (S idx) sym s e re rs rnd in
  let message := buffer +:+ payload_ct in
  if (S idx =? 3)%nat then
    let '(send, recv) := Split sym in
    rs' ← rs; Some (hs, message, Some (MkSplit send recv rs'))
  else Some (hs, message, None).

(** [take]: the next [n] bytes of the message from an offset on. *)
Definition take_ (message : bytes) (offset n : nat) : option bytes :=
  if (slen message <? offset + n)%nat then None else Some (slice offset (offset + n) message).

(** The part of [ReadMessage] that depends on the message: the new state and the offset reached. *)
Definition read_tokens (message : bytes) (hs : HandshakeState) : option (HandshakeState * nat) :=
  let '(MkHandshake init idx sym s e re rs rnd) := hs in
  match idx with
  | 0 =>
      e_bytes ← take_ message 0 kKeyLen;
      Some (MkHandshake init idx (MixHash e_bytes sym) s e (Some e_bytes) rs rnd, kKeyLen)
  | 1 =>
      e_bytes ← take_ message 0 kKeyLen;
      let sym := MixHash e_bytes sym in
      e' ← e;
      ee ← Dh (privateKey e') e_bytes;
      let sym := MixKey ee sym in
      s_ct ← take_ message kKeyLen (kKeyLen + kTagLen);
      '(sym, s_pt) ← DecryptAndHash s_ct sym;
      es ← Dh (privateKey e') s_pt;
      Some (MkHandshake init idx (MixKey es sym) s e (Some e_bytes) (Some s_pt) rnd, kKeyLen + (kKeyLen + kTagLen))
  | 2 =>
      s_ct ← take_ message 0 (kKeyLen + kTagLen);
      '(sym, s_pt) ← DecryptAndHash s_ct sym;
      e' ← e;
      se ← Dh (privateKey e') s_pt;
      Some (MkHandshake init idx (MixKey se sym) s e re (Some s_pt) rnd, kKeyLen + kTagLen)
  | _ => None
  end.

Definition ReadMessage (message : bytes) (hs : HandshakeState) : option (HandshakeState * option SplitResult) :=
  '(hs, offset) ← read_tokens message hs;
  let '(MkHandshake init idx sym s e re rs rnd) := hs in
  '(sym, _) ← DecryptAndHash (slice_from offset message) sym;
  let hs := MkHandshake init (S idx) sym s e re rs rnd in
  if (S idx =? 3)%nat then
    let '(send, recv) := Split sym in
    rs' ← rs; Some (hs, Some (if init then MkSplit send recv rs' else MkSplit recv send rs'))
  else Some (hs, None).

(** ** session.cpp *)

Inductive SessionStatus := kHandshaking | kReady | kFailed.

Record NoiseSession := MkSession {
  status_ : SessionStatus;
  handshake_ : option HandshakeState;
  send_ : option CipherState;
  recv_ : option CipherState;
  peer_static_ : bytes
}.

Definition no_key : bytes := to_bytes (replicate kKeyLen 0%Z).

Definition AsInitiator (static_keypair : KeyPair) (random : bytes) : option (NoiseSession * bytes) :=
  '(hs, message, _) ← WriteMessage (NewHandshake true static_keypair random);
  Some (MkSession kHandshaking (Some hs) None None no_key, message).

Definition AsResponder (static_keypair : KeyPair) (random : bytes) : NoiseSession :=
  MkSession kHandshaking (Some (NewHandshake false static_keypair random)) None None no_key.

Definition Finish (split : SplitResult) (s : NoiseSession) : NoiseSession :=
  MkSession kReady None (Some (sp_send split)) (Some (sp_recv split)) (sp_peer_static split).

Definition Failed (s : NoiseSession) : NoiseSession :=
  MkSession kFailed (handshake_ s) (send_ s) (recv_ s) (peer_static_ s).

(** The reply, and whether the handshake is over. *)
Definition HandleHandshakeMessage (data : bytes) (s : NoiseSession) : (option bytes * bool) * NoiseSession :=
  match status_ s, handshake_ s with
  | kHandshaking, Some hs =>
      match ReadMessage data hs with
      | None => ((None, true), Failed s)
      | Some (hs, Some split) => ((None, true), Finish split s)
      | Some (hs, None) =>
          match WriteMessage hs with
          | None => ((None, true), Failed s)
          | Some (hs, message, Some split) => ((Some message, true), Finish split s)
          | Some (hs, message, None) =>
              ((Some message, false), MkSession kHandshaking (Some hs) (send_ s) (recv_ s) (peer_static_ s))
          end
      end
  | _, _ => ((None, true), Failed s)
  end.

Definition Encrypt (plaintext : bytes) (s : NoiseSession) : option (bytes * NoiseSession) :=
  match status_ s, send_ s with
  | kReady, Some c =>
      '(c, x) ← EncryptWithAd c "" plaintext;
      Some (x, MkSession kReady (handshake_ s) (Some c) (recv_ s) (peer_static_ s))
  | _, _ => None
  end.

Definition Decrypt (ciphertext : bytes) (s : NoiseSession) : option (bytes * NoiseSession) :=
  match status_ s, recv_ s with
  | kReady, Some c =>
      '(c, x) ← DecryptWithAd c "" ciphertext;
      Some (x, MkSession kReady (handshake_ s) (send_ s) (Some c) (peer_static_ s))
  | _, _ => None
  end.

(** ** The primitives agree *)

Lemma Blake2s32_std data : Blake2s32 data = blake2s_std data.
Proof.
  unfold Blake2s32, blake2s_std, kKeyLen. destruct (streams 32 []) as (st & Hst & Hf); [lia|cbn; lia|].
  change (blake2s_init 32) with (init_any 32 []). rewrite Hst. cbn [mbind option_bind].
  specialize (Hf [of_bytes data]). cbn [foldl mjoin list_join] in Hf. rewrite app_nil_r in Hf.
  destruct (Nat.ltb_spec 0 (slen data)) as [Hd|Hd]; [by rewrite Hf|].
  assert (of_bytes data = []) as E by (unfold of_bytes; rewrite <- slen_chars in Hd; by destruct (chars data); [|cbn in Hd; lia]).
  rewrite E in *. change (blake2s_update st []) with st in Hf. by rewrite Hf.
Qed.

Lemma HmacBlake2s_hmac key data : HmacBlake2s key data = hmac blake2s_std key data.
Proof. unfold HmacBlake2s, hmac, hmac_block. by rewrite !Blake2s32_std. Qed.

Lemma hmac_length key data : slen (hmac blake2s_std key data) = 32.
Proof. apply blake2s_std_length. Qed.

Context `{!SuiteLaws, !SuiteStd}.

Lemma Hash_hash data : Hash data = Ts.hash data.
Proof. unfold Hash, Ts.hash. by rewrite Blake2s32_std, blake2s_standard. Qed.

(** The two blocks C++ computes by hand are the first 64 bytes of HKDF. *)
Lemma Hkdf2_noiseHKDF ck ikm : Hkdf2 ck ikm = Ts.noiseHKDF ck ikm.
Proof.
  unfold Hkdf2, Ts.noiseHKDF. rewrite hkdf_standard, !HmacBlake2s_hmac. unfold hkdf.
  change ((Ts.HASHLEN * 2 + 31) / 32)%nat with 2%nat. cbn [hkdf_blocks].
  set (prk := hmac blake2s_std ck ikm).
  change ("" +:+ ("" +:+ String (byte_of 1) "")) with (String "001" "").
  set (t1 := hmac blake2s_std prk (String "001" "")).
  change ("" +:+ String (byte_of (1 + 1)) "") with (String "002" "").
  generalize (hmac_length prk (t1 +:+ String "002" "")) as L2.
  generalize (hmac blake2s_std prk (t1 +:+ String "002" "")) as t2. intros t2 L2.
  assert (slen t1 = 32) as L1 by apply hmac_length. clearbody t1. clear prk.
  rewrite (sapp_nil t2), (slice_all (t1 +:+ t2)) by (rewrite slen_app, L1, L2; unfold Ts.HASHLEN; lia).
  unfold Ts.HASHLEN. cbn [Nat.mul Nat.add]. rewrite (slice_app t1) by done.
  by rewrite <- (sapp_nil t2) at 2; rewrite (slice_mid t1) by (rewrite ?L1, ?L2; done).
Qed.

Lemma EncodeNonce_mod n : EncodeNonce (n mod 2 ^ 64) = Ts.encodeNonce n.
Proof.
  unfold EncodeNonce, Ts.encodeNonce. do 2 f_equal. apply list_fmap_ext. intros _ i _.
  by rewrite (Z.land_ones _ 8).
Qed.

(** ** The states agree

    A TypeScript state as the C++ state it stands for: the counter is cut to 64 bits, the
    two message counts are one. *)

Definition wrap (c : Ts.CipherState) : CipherState := MkCipher (Ts.cs_key c) (Ts.cs_n c mod 2 ^ 64).
Definition wrap_sym (s : Ts.SymmetricState) : SymmetricState :=
  MkSymmetric (Ts.ss_ck s) (Ts.ss_h s) (wrap (Ts.cipherState s)).
Definition wrap_hs (hs : Ts.HandshakeState) : HandshakeState :=
  MkHandshake (Ts.hs_initiator hs) (Ts.hs_count hs) (wrap_sym (Ts.symmetric hs)) (Ts.hs_s hs) (Ts.hs_e hs)
    (Ts.hs_re hs) (Ts.hs_rs hs) (Ts.randomBytes hs kKeyLen).

Lemma EncryptWithAd_wrap c ad p :
  EncryptWithAd (wrap c) ad p = prod_map wrap id <$> Ts.encryptWithAd c ad p.
Proof.
  unfold EncryptWithAd, Ts.encryptWithAd, AeadEncrypt, Ts.aeadEncrypt, wrap. cbn [key_ n_].
  destruct (Ts.cs_key c) as [k|] eqn:Ek; [|cbn; by rewrite Ek]. rewrite EncodeNonce_mod.
  destruct (chacha_seal _ _ _ _); [|done]. cbn [mbind option_bind fmap option_fmap option_map prod_map Ts.cs_key Ts.cs_n].
  by rewrite Zplus_mod_idemp_l.
Qed.

Lemma DecryptWithAd_wrap c ad x :
  DecryptWithAd (wrap c) ad x = prod_map wrap id <$> Ts.decryptWithAd c ad x.
Proof.
  unfold DecryptWithAd, Ts.decryptWithAd, AeadDecrypt, Ts.aeadDecrypt, wrap. cbn [key_ n_].
  destruct (Ts.cs_key c) as [k|] eqn:Ek; [|cbn; by rewrite Ek]. rewrite EncodeNonce_mod.
  destruct (chacha_open _ _ _ _); [|done]. cbn [mbind option_bind fmap option_fmap option_map prod_map Ts.cs_key Ts.cs_n].
  by rewrite Zplus_mod_idemp_l.
Qed.

Lemma MixHash_wrap d s : MixHash d (wrap_sym s) = wrap_sym (Ts.mixHash d s).
Proof. unfold MixHash, Ts.mixHash, wrap_sym. cbn [ck_ h_ cipher_state_]. by rewrite Hash_hash. Qed.

Lemma MixKey_wrap ikm s : MixKey ikm (wrap_sym s) = wrap_sym (Ts.mixKey ikm s).
Proof.
  unfold MixKey, Ts.mixKey. cbn [wrap_sym ck_ h_]. rewrite Hkdf2_noiseHKDF. by destruct (Ts.noiseHKDF _ _).
Qed.

Lemma EncryptAndHash_wrap p s :
  EncryptAndHash p (wrap_sym s) = prod_map wrap_sym id <$> Ts.encryptAndHash p s.
Proof.
  unfold EncryptAndHash, Ts.encryptAndHash. cbn [wrap_sym cipher_state_ h_ ck_]. rewrite EncryptWithAd_wrap.
  destruct (Ts.encryptWithAd _ _ _) as [[c x]|]; [|done]. cbn [fmap option_fmap option_map prod_map mbind option_bind id fst snd].
  by rewrite <- MixHash_wrap.
Qed.

Lemma DecryptAndHash_wrap x s :
  DecryptAndHash x (wrap_sym s) = prod_map wrap_sym id <$> Ts.decryptAndHash x s.
Proof.
  unfold DecryptAndHash, Ts.decryptAndHash. cbn [wrap_sym cipher_state_ h_ ck_]. rewrite DecryptWithAd_wrap.
  destruct (Ts.decryptWithAd _ _ _) as [[c p]|]; [|done]. cbn [fmap option_fmap option_map prod_map mbind option_bind id fst snd].
  by rewrite <- MixHash_wrap.
Qed.

Lemma Split_wrap s : Split (wrap_sym s) = prod_map wrap wrap (Ts.split s).
Proof. unfold Split, Ts.split. cbn [wrap_sym ck_]. rewrite Hkdf2_noiseHKDF. by destruct (Ts.noiseHKDF _ _). Qed.

Lemma NewHandshake_wrap init s rnd :
  NewHandshake init s (rnd kKeyLen) = wrap_hs (Ts.newHandshakeState init s rnd).
Proof.
  unfold NewHandshake, Ts.newHandshakeState, wrap_hs. cbn [Ts.hs_initiator Ts.symmetric Ts.hs_s Ts.hs_e Ts.hs_re Ts.hs_rs
    Ts.randomBytes]. f_equal. rewrite <- MixHash_wrap. f_equal.
  unfold Initialize, Ts.newSymmetricState, wrap_sym, wrap. cbn [Ts.ss_ck Ts.ss_h Ts.cipherState].
  rewrite Hash_hash. reflexivity.
Qed.

Lemma GenerateKeypair_wrap rnd : GenerateKeypair (rnd kKeyLen) = Ts.generateKeypair rnd.
Proof. reflexivity. Qed.

(** What the methods return, translated. *)
Definition wrap_split (init : bool) (rs : option bytes) (cs : Ts.CipherState * Ts.CipherState) : SplitResult :=
  let peer := default "" rs in
  if init then MkSplit (wrap cs.1) (wrap cs.2) peer else MkSplit (wrap cs.2) (wrap cs.1) peer.

Definition wrap_written (r : Ts.HandshakeState * bytes * option (Ts.CipherState * Ts.CipherState))
    : HandshakeState * bytes * option SplitResult :=
  let '(hs, m, cs) := r in (wrap_hs hs, m, wrap_split (Ts.hs_initiator hs) (Ts.hs_rs hs) <$> cs).

Definition wrap_read (r : Ts.HandshakeState * option (Ts.CipherState * Ts.CipherState))
    : HandshakeState * option SplitResult :=
  let '(hs, cs) := r in (wrap_hs hs, wrap_split (Ts.hs_initiator hs) (Ts.hs_rs hs) <$> cs).

Lemma decrypted_length x s s' p : Ts.keyed s → Ts.decryptAndHash x s = Some (s', p) → slen x = slen p + 16.
Proof.
  intros [k Hk]. unfold Ts.decryptAndHash, Ts.decryptWithAd, Ts.aeadDecrypt. rewrite Hk.
  destruct (chacha_open _ _ _ _) eqn:E; cbn [mbind option_bind]; [|done]. intros [= <- <-].
  exact (open_length _ _ _ _ _ E).
Qed.

#[local] Opaque Ts.mixHash Ts.mixKey Ts.split Ts.encryptAndHash Ts.decryptAndHash slice slice_from.

(** Both sides at once: rewrite the C++ operations into the TypeScript ones, then follow the
    results. *)
Ltac in_step :=
  repeat (cbn [mbind option_bind fmap option_fmap option_map prod_map id fst snd Nat.eqb];
    match goal with
    | |- None = None => reflexivity
    | |- context [MixHash ?d (wrap_sym ?s)] => rewrite (MixHash_wrap d s)
    | |- context [MixKey ?k (wrap_sym ?s)] => rewrite (MixKey_wrap k s)
    | |- context [EncryptAndHash ?p (wrap_sym ?s)] => rewrite (EncryptAndHash_wrap p s)
    | |- context [DecryptAndHash ?p (wrap_sym ?s)] => rewrite (DecryptAndHash_wrap p s)
    | |- context [Split (wrap_sym ?s)] => rewrite (Split_wrap s)
    | |- context [Ts.generateKeypair ?r] => destruct (Ts.generateKeypair r) as [?|] eqn:?
    | |- context [getSharedSecret ?a ?p] => destruct (getSharedSecret a p) as [?|] eqn:?
    | |- context [Ts.encryptAndHash ?p ?s] => destruct (Ts.encryptAndHash p s) as [[? ?]|] eqn:?
    | |- context [Ts.decryptAndHash ?p ?s] => destruct (Ts.decryptAndHash p s) as [[? ?]|] eqn:?
    end);
  cbn [mbind option_bind fmap option_fmap option_map prod_map id fst snd Nat.eqb];
  rewrite ?sapp_assoc; try reflexivity.

Lemma Write_first sym s rnd :
  let hs := Ts.MkHandshake true sym s rnd None None None 0 0 in
  WriteMessage (wrap_hs hs) = wrap_written <$> Ts.writeMessage hs.
Proof.
  intros hs. unfold WriteMessage, Ts.writeMessage, hs, wrap_hs, write_tokens, Ts.hs_count.
  cbn [Ts.hs_initiator Ts.symmetric Ts.hs_s Ts.hs_e Ts.hs_re Ts.hs_rs Ts.randomBytes Ts.writeCount Ts.readCount
    Nat.add andb negb Nat.eqb]. rewrite GenerateKeypair_wrap. in_step.
Qed.

Lemma Write_second sym s rnd re :
  let hs := Ts.MkHandshake false sym s rnd None None (Some re) 0 1 in
  WriteMessage (wrap_hs hs) = wrap_written <$> Ts.writeMessage hs.
Proof.
  intros hs. unfold WriteMessage, Ts.writeMessage, hs, wrap_hs, write_tokens, Ts.hs_count, Dh, Ts.dh.
  cbn [Ts.hs_initiator Ts.symmetric Ts.hs_s Ts.hs_e Ts.hs_re Ts.hs_rs Ts.randomBytes Ts.writeCount Ts.readCount
    Nat.add andb negb Nat.eqb]. rewrite GenerateKeypair_wrap. in_step.
Qed.

Lemma Write_third sym s rnd e re rs :
  let hs := Ts.MkHandshake true sym s rnd e (Some rs) (Some re) 1 1 in
  WriteMessage (wrap_hs hs) = wrap_written <$> Ts.writeMessage hs.
Proof.
  intros hs. unfold WriteMessage, Ts.writeMessage, hs, wrap_hs, write_tokens, Ts.hs_count, Dh, Ts.dh.
  cbn [Ts.hs_initiator Ts.symmetric Ts.hs_s Ts.hs_e Ts.hs_re Ts.hs_rs Ts.randomBytes Ts.writeCount Ts.readCount
    Nat.add andb negb Nat.eqb]. in_step.
Qed.

Lemma take_enough m o n : o + n ≤ slen m → take_ m o n = Some (slice o (o + n) m).
Proof. intros Hl. unfold take_. by rewrite (proj2 (Nat.ltb_ge _ _)) by done. Qed.

Lemma take_short m o n : slen m < o + n → take_ m o n = None.
Proof. intros Hl. unfold take_. by rewrite (proj2 (Nat.ltb_lt _ _)) by done. Qed.

Lemma Read_first sym s rnd d : 32 ≤ slen d →
  let hs := Ts.MkHandshake false sym s rnd None None None 0 0 in
  ReadMessage d (wrap_hs hs) = wrap_read <$> Ts.readMessage d hs.
Proof.
  intros Hd hs. unfold ReadMessage, Ts.readMessage, hs, wrap_hs, read_tokens, Ts.hs_count, kKeyLen, Ts.DHLEN.
  cbn [Ts.hs_initiator Ts.symmetric Ts.hs_s Ts.hs_e Ts.hs_re Ts.hs_rs Ts.randomBytes Ts.writeCount Ts.readCount
    Nat.add andb negb Nat.eqb]. rewrite take_enough by done. cbn [Nat.add]. in_step.
Qed.

Lemma Read_second sym s rnd e d : 80 ≤ slen d →
  let hs := Ts.MkHandshake true sym s rnd (Some e) None None 1 0 in
  ReadMessage d (wrap_hs hs) = wrap_read <$> Ts.readMessage d hs.
Proof.
  intros Hd hs. unfold ReadMessage, Ts.readMessage, hs, wrap_hs, read_tokens, Ts.hs_count, kKeyLen, kTagLen,
    Ts.DHLEN, Ts.TAGLEN, Dh, Ts.dh.
  cbn [Ts.hs_initiator Ts.symmetric Ts.hs_s Ts.hs_e Ts.hs_re Ts.hs_rs Ts.randomBytes Ts.writeCount Ts.readCount
    Nat.add andb negb Nat.eqb]. rewrite !take_enough by lia. cbn [Nat.add]. in_step.
Qed.

Lemma Read_third sym s rnd e re d : 48 ≤ slen d →
  let hs := Ts.MkHandshake false sym s rnd (Some e) None (Some re) 1 1 in
  ReadMessage d (wrap_hs hs) = wrap_read <$> Ts.readMessage d hs.
Proof.
  intros Hd hs. unfold ReadMessage, Ts.readMessage, hs, wrap_hs, read_tokens, Ts.hs_count, kKeyLen, kTagLen,
    Ts.DHLEN, Ts.TAGLEN, Dh, Ts.dh.
  cbn [Ts.hs_initiator Ts.symmetric Ts.hs_s Ts.hs_e Ts.hs_re Ts.hs_rs Ts.randomBytes Ts.writeCount Ts.readCount
    Nat.add andb negb Nat.eqb]. rewrite !take_enough by lia. cbn [Nat.add]. in_step.
Qed.

(** Messages that are too short: C++ notices at once, TypeScript by the length of the key
    it cuts out of them. *)

Lemma shared_short a P : slen P ≠ 32 → getSharedSecret a P = None.
Proof. intros HP. destruct (getSharedSecret a P) eqn:E; [|done]. by apply shared_length in E. Qed.

Lemma short_first sym s rnd d : slen d < 32 →
  let hs := Ts.MkHandshake false sym s rnd None None None 0 0 in
  ReadMessage d (wrap_hs hs) = None ∧ (∀ hs' cs, Ts.readMessage d hs = Some (hs', cs) → Ts.writeMessage hs' = None).
Proof.
  intros Hd hs. split.
  - unfold ReadMessage, hs, wrap_hs, read_tokens, Ts.hs_count, kKeyLen. cbn [Ts.writeCount Ts.readCount Nat.add].
    by rewrite take_short by lia.
  - intros hs' cs. unfold hs, Ts.readMessage. cbn [andb negb Nat.eqb].
    destruct (Ts.decryptAndHash _ _) as [[sym' p]|]; cbn [mbind option_bind]; [|done].
    intros [= <- <-]. unfold Ts.writeMessage. cbn [andb negb Nat.eqb].
    destruct (Ts.generateKeypair rnd) as [k|]; cbn [mbind option_bind]; [|done].
    unfold Ts.dh. rewrite (shared_short (privateKey k)); [done|]. rewrite slice_length. unfold Ts.DHLEN. lia.
Qed.

Lemma short_second sym s rnd e d : slen d < 80 →
  let hs := Ts.MkHandshake true sym s rnd (Some e) None None 1 0 in
  ReadMessage d (wrap_hs hs) = None ∧ Ts.readMessage d hs = None.
Proof.
  intros Hd hs. split.
  - unfold ReadMessage, hs, wrap_hs, read_tokens, Ts.hs_count, kKeyLen, kTagLen, Dh.
    cbn [Ts.writeCount Ts.readCount Ts.hs_e Nat.add].
    destruct (take_ d 0 32); cbn [mbind option_bind]; [|done].
    destruct (getSharedSecret _ _); cbn [mbind option_bind]; [|done]. by rewrite take_short by lia.
  - unfold hs, Ts.readMessage, Ts.dh. cbn [andb negb Nat.eqb mbind option_bind].
    destruct (getSharedSecret _ _) as [ee|]; cbn [mbind option_bind]; [|done].
    destruct (Ts.decryptAndHash _ _) as [[sym' p]|] eqn:E; cbn [mbind option_bind]; [|done].
    apply decrypted_length in E; [|apply Ts.mixKey_keyed]. rewrite slice_length in E.
    unfold Ts.DHLEN, Ts.TAGLEN in E. by rewrite shared_short by lia.
Qed.

Lemma short_third sym s rnd e re d : slen d < 48 → Ts.keyed sym →
  let hs := Ts.MkHandshake false sym s rnd (Some e) None (Some re) 1 1 in
  ReadMessage d (wrap_hs hs) = None ∧ Ts.readMessage d hs = None.
Proof.
  intros Hd Hk hs. split.
  - unfold ReadMessage, hs, wrap_hs, read_tokens, Ts.hs_count, kKeyLen, kTagLen.
    cbn [Ts.writeCount Ts.readCount Nat.add]. by rewrite take_short by lia.
  - unfold hs, Ts.readMessage, Ts.dh. cbn [andb negb Nat.eqb].
    destruct (Ts.decryptAndHash _ _) as [[sym' p]|] eqn:E; cbn [mbind option_bind]; [|done].
    apply decrypted_length in E; [|done]. rewrite slice_length in E.
    unfold Ts.DHLEN, Ts.TAGLEN in E. by rewrite shared_short by lia.
Qed.

(** ** The sessions agree *)

(** A handshake state that waits for a message, and whether the first one has come. *)
Inductive waiting : Ts.HandshakeState → bool → Prop :=
  | wait_second sym s rnd e : waiting (Ts.MkHandshake true sym s rnd (Some e) None None 1 0) false
  | wait_first sym s rnd : waiting (Ts.MkHandshake false sym s rnd None None None 0 0) false
  | wait_third sym s rnd e re : Ts.keyed sym →
      waiting (Ts.MkHandshake false sym s rnd (Some e) None (Some re) 1 1) true.

Inductive agrees : Ts.NoiseSession → NoiseSession → Prop :=
  | both_handshaking hs got s r pk p : waiting hs got →
      agrees (Ts.MkSession Ts.handshaking hs got s r pk p) (MkSession kHandshaking (Some (wrap_hs hs)) None None no_key)
  | both_ready hs got c1 c2 pk p :
      agrees (Ts.MkSession Ts.is_ready hs got (Some c1) (Some c2) (Some pk) p)
        (MkSession kReady None (Some (wrap c1)) (Some (wrap c2)) pk)
  | both_failed hs got s r pk p hs' s' r' pk' :
      agrees (Ts.MkSession Ts.is_failed hs got s r pk p) (MkSession kFailed hs' s' r' pk').

Lemma step_second sym s rnd e d :
  let hs := Ts.MkHandshake true sym s rnd (Some e) None None 1 0 in
  match Ts.readMessage d hs with
  | None => ReadMessage d (wrap_hs hs) = None
  | Some (hs', cs) => ∃ rs re sym', hs' = Ts.MkHandshake true sym' s rnd (Some e) (Some rs) (Some re) 1 1 ∧
      ReadMessage d (wrap_hs hs) = Some (wrap_hs hs', None) ∧
      WriteMessage (wrap_hs hs') = wrap_written <$> Ts.writeMessage hs'
  end.
Proof.
  intros hs. destruct (decide (80 ≤ slen d)) as [Hd|Hd].
  - pose proof (Read_second sym s rnd e d Hd) as E. fold hs in E. rewrite E.
    unfold hs, Ts.readMessage. cbn [andb negb Nat.eqb mbind option_bind].
    destruct (Ts.dh _ _) as [ee|]; cbn [mbind option_bind]; [|done].
    destruct (Ts.decryptAndHash _ _) as [[sym1 rs]|]; cbn [mbind option_bind]; [|done].
    destruct (Ts.dh _ _) as [es|]; cbn [mbind option_bind]; [|done].
    destruct (Ts.decryptAndHash _ _) as [[sym2 p]|]; cbn [mbind option_bind]; [|done].
    do 3 eexists. split_and!; [done|done|apply Write_third].
  - destruct (short_second sym s rnd e d ltac:(lia)) as [E1 E2]. fold hs in E1, E2. by rewrite E2.
Qed.

Lemma written_third sym s rnd e rs re hs m cs :
  Ts.writeMessage (Ts.MkHandshake true sym s rnd e (Some rs) (Some re) 1 1) = Some (hs, m, cs) →
  Ts.hs_rs hs = Some rs ∧ Ts.hs_initiator hs = true ∧ is_Some cs.
Proof.
  unfold Ts.writeMessage. cbn [andb negb Nat.eqb mbind option_bind].
  destruct (Ts.encryptAndHash _ _) as [[? ?]|]; cbn [mbind option_bind]; [|done].
  destruct (Ts.dh _ _); cbn [mbind option_bind]; [|done].
  destruct (Ts.encryptAndHash _ _) as [[? ?]|]; cbn [mbind option_bind]; [|done].
  intros [= <- <- <-]. by split_and!; [..|eexists].
Qed.

Lemma written_second sym s rnd re hs m cs :
  Ts.writeMessage (Ts.MkHandshake false sym s rnd None None (Some re) 0 1) = Some (hs, m, cs) →
  waiting hs true ∧ cs = None.
Proof.
  unfold Ts.writeMessage. cbn [andb negb Nat.eqb mbind option_bind].
  destruct (Ts.generateKeypair rnd) as [k|]; cbn [mbind option_bind]; [|done].
  destruct (Ts.dh (privateKey k) _); cbn [mbind option_bind]; [|done].
  destruct (Ts.encryptAndHash _ _) as [[? ?]|]; cbn [mbind option_bind]; [|done].
  destruct (Ts.dh _ _); cbn [mbind option_bind]; [|done].
  destruct (Ts.encryptAndHash "" _) as [[? ?]|] eqn:E; cbn [mbind option_bind]; [|done].
  intros [= <- <- <-]. split; [|done]. constructor.
  by destruct (Ts.sealed _ _ _ _ (Ts.mixKey_keyed _ _) E).
Qed.

Lemma step_first sym s rnd d :
  let hs := Ts.MkHandshake false sym s rnd None None None 0 0 in
  match Ts.readMessage d hs with
  | None => ReadMessage d (wrap_hs hs) = None
  | Some (hs', cs) =>
      (ReadMessage d (wrap_hs hs) = None ∧ Ts.writeMessage hs' = None) ∨
      (∃ re sym', hs' = Ts.MkHandshake false sym' s rnd None None (Some re) 0 1 ∧
        ReadMessage d (wrap_hs hs) = Some (wrap_hs hs', None) ∧
        WriteMessage (wrap_hs hs') = wrap_written <$> Ts.writeMessage hs')
  end.
Proof.
  intros hs. destruct (decide (32 ≤ slen d)) as [Hd|Hd].
  - pose proof (Read_first sym s rnd d Hd) as E. fold hs in E. rewrite E.
    unfold hs, Ts.readMessage. cbn [andb negb Nat.eqb mbind option_bind].
    destruct (Ts.decryptAndHash _ _) as [[sym1 rs]|]; cbn [mbind option_bind]; [|done]. right.
    do 2 eexists. split_and!; [done|done|apply Write_second].
  - destruct (short_first sym s rnd d ltac:(lia)) as [E1 E2]. fold hs in E1, E2.
    destruct (Ts.readMessage d hs) as [[hs' cs]|]; [|exact E1]. left. split; [done|]. by eapply E2.
Qed.

Lemma step_third sym s rnd e re d : Ts.keyed sym →
  let hs := Ts.MkHandshake false sym s rnd (Some e) None (Some re) 1 1 in
  match Ts.readMessage d hs with
  | None => ReadMessage d (wrap_hs hs) = None
  | Some (hs', cs) => ∃ rs c1 c2, Ts.hs_rs hs' = Some rs ∧ cs = Some (c1, c2) ∧
      ReadMessage d (wrap_hs hs) = Some (wrap_hs hs', Some (MkSplit (wrap c2) (wrap c1) rs))
  end.
Proof.
  intros Hk hs. destruct (decide (48 ≤ slen d)) as [Hd|Hd].
  - pose proof (Read_third sym s rnd e re d Hd) as E. fold hs in E. rewrite E.
    unfold hs, Ts.readMessage. cbn [andb negb Nat.eqb mbind option_bind].
    destruct (Ts.decryptAndHash _ _) as [[sym1 rs]|]; cbn [mbind option_bind]; [|done].
    destruct (Ts.dh _ _) as [se|]; cbn [mbind option_bind]; [|done].
    destruct (Ts.decryptAndHash _ _) as [[sym2 p]|]; cbn [mbind option_bind]; [|done].
    destruct (Ts.split sym2) as [c1 c2]. by exists rs, c1, c2.
  - destruct (short_third sym s rnd e re d ltac:(lia) Hk) as [E1 E2]. fold hs in E1, E2. by rewrite E2.
Qed.

(** One handshake message, handed to both. *)
Lemma session_step d t c : agrees t c → Ts.s_status t = Ts.handshaking →
  ∃ r t' c', Ts.handleHandshakeMessage d t = Some (r, t') ∧
    HandleHandshakeMessage d c = ((r, Ts.isSettled t'), c') ∧ agrees t' c'.
Proof.
  intros Ha Hs. destruct Ha as [hs got s r pk p Hw| |]; [|done..].
  unfold Ts.handleHandshakeMessage, HandleHandshakeMessage. cbn [Ts.s_status Ts.handshake status_ handshake_ Ts.gotFirstMessage].
  destruct Hw as [sym kp rnd e|sym kp rnd|sym kp rnd e re Hk]; cbn [Ts.hs_initiator].
  - pose proof (step_second sym kp rnd e d) as E. cbv zeta in E.
    destruct (Ts.readMessage _ _) as [[hs' cs]|]; [|rewrite E; do 3 eexists; split_and!; [done|done|constructor]].
    destruct E as (rs & re & sym' & -> & -> & ->).
    destruct (Ts.writeMessage _) as [[[hs2 m] cs2]|] eqn:Ew; cbn [fmap option_fmap option_map wrap_written];
      [|do 3 eexists; split_and!; [done|done|constructor]].
    apply written_third in Ew as (Ers & Ei & [[c1 c2] ->]). cbn [fmap option_fmap option_map]. rewrite Ers, Ei.
    do 3 eexists. split_and!; [done|done|]. unfold Ts.finish. rewrite Ers. constructor.
  - pose proof (step_first sym kp rnd d) as E. cbv zeta in E.
    destruct (Ts.readMessage _ _) as [[hs' cs]|]; [|rewrite E; do 3 eexists; split_and!; [done|done|constructor]].
    destruct E as [[-> ->]|(re & sym' & -> & -> & ->)]; [do 3 eexists; split_and!; [done|done|constructor]|].
    destruct (Ts.writeMessage _) as [[[hs2 m] cs2]|] eqn:Ew; cbn [fmap option_fmap option_map wrap_written];
      [|do 3 eexists; split_and!; [done|done|constructor]].
    apply written_second in Ew as (Hw & ->). cbn [fmap option_fmap option_map].
    do 3 eexists. split_and!; [done|done|]. by constructor.
  - pose proof (step_third sym kp rnd e re d Hk) as E. cbv zeta in E.
    destruct (Ts.readMessage _ _) as [[hs' cs]|]; [|rewrite E; do 3 eexists; split_and!; [done|done|constructor]].
    destruct E as (rs & c1 & c2 & Ers & -> & ->).
    do 3 eexists. split_and!; [done|done|]. unfold Ts.finish. rewrite Ers. constructor.
Qed.

(** Transport messages. *)
Lemma Encrypt_agrees p t c : agrees t c →
  match Ts.encrypt p t with
  | Some (x, t') => ∃ c', Encrypt p c = Some (x, c') ∧ agrees t' c'
  | None => Encrypt p c = None
  end.
Proof.
  unfold Ts.encrypt, Encrypt. intros [hs got s r pk q Hw|hs got c1 c2 pk q|]; [done| |done].
  cbn [Ts.s_status Ts.sendCipher status_ send_]. rewrite EncryptWithAd_wrap.
  destruct (Ts.encryptWithAd c1 "" p) as [[c1' x]|]; [|done]. eexists. split; [done|constructor].
Qed.

Lemma Decrypt_agrees x t c : agrees t c →
  match Ts.decrypt x t with
  | Some (p, t') => ∃ c', Decrypt x c = Some (p, c') ∧ agrees t' c'
  | None => Decrypt x c = None
  end.
Proof.
  unfold Ts.decrypt, Decrypt. intros [hs got s r pk q Hw|hs got c1 c2 pk q|]; [done| |done].
  cbn [Ts.s_status Ts.recvCipher status_ recv_]. rewrite DecryptWithAd_wrap.
  destruct (Ts.decryptWithAd c2 "" x) as [[c2' p]|]; [|done]. eexists. split; [done|constructor].
Qed.

Lemma initiators_agree s rnd :
  match Ts.startAsInitiator s rnd with
  | Some (t, m) => ∃ c, AsInitiator s (rnd kKeyLen) = Some (c, m) ∧ agrees t c
  | None => AsInitiator s (rnd kKeyLen) = None
  end.
Proof.
  unfold Ts.startAsInitiator, AsInitiator. rewrite NewHandshake_wrap. cbn [Ts.newSession Ts.handshake].
  unfold Ts.newHandshakeState. rewrite Write_first. unfold Ts.writeMessage. cbn [andb negb Nat.eqb].
  destruct (Ts.generateKeypair rnd) as [e|]; cbn [mbind option_bind fmap option_fmap option_map]; [|done].
  destruct (Ts.encryptAndHash _ _) as [[sym m]|]; cbn [mbind option_bind fmap option_fmap option_map]; [|done].
  eexists. split; [reflexivity|]. constructor. constructor.
Qed.

Lemma responders_agree s rnd : agrees (Ts.startAsResponder s rnd) (AsResponder s (rnd kKeyLen)).
Proof.
  unfold Ts.startAsResponder, AsResponder. rewrite NewHandshake_wrap. constructor. constructor.
Qed.

(** ** Whole runs *)

(** What is done to a session: a handshake message, a text to send, a ciphertext received.
    A ready session is not given handshake messages (peer.ts and peer_conn.cpp start a new
    one for them), and an exception is no result. *)
Inductive sop := Hand (d : bytes) | Seal (p : bytes) | Open (x : bytes).

Definition ts_do (o : sop) (t : Ts.NoiseSession) : option bytes * Ts.NoiseSession :=
  match o with
  | Hand d => if Ts.isReady t then (None, t) else default (None, t) (Ts.handleHandshakeMessage d t)
  | Seal p => match Ts.encrypt p t with Some (x, t') => (Some x, t') | None => (None, t) end
  | Open x => match Ts.decrypt x t with Some (p, t') => (Some p, t') | None => (None, t) end
  end.

Definition cpp_do (o : sop) (c : NoiseSession) : option bytes * NoiseSession :=
  match o with
  | Hand d => match status_ c with kReady => (None, c) | _ => let '((r, _), c') := HandleHandshakeMessage d c in (r, c') end
  | Seal p => match Encrypt p c with Some (x, c') => (Some x, c') | None => (None, c) end
  | Open x => match Decrypt x c with Some (p, c') => (Some p, c') | None => (None, c) end
  end.

Fixpoint runs {S} (f : sop → S → option bytes * S) (os : list sop) (s : S) : list (option bytes) * S :=
  match os with
  | [] => ([], s)
  | o :: os => let '(r, s) := f o s in let '(rs, s) := runs f os s in (r :: rs, s)
  end.

Lemma do_agrees o t c : agrees t c →
  (cpp_do o c).1 = (ts_do o t).1 ∧ agrees (ts_do o t).2 (cpp_do o c).2.
Proof.
  intros Ha. destruct o as [d|p|x]; cbn [cpp_do ts_do].
  - assert (Ts.s_status t = Ts.handshaking ∨ Ts.s_status t ≠ Ts.handshaking) as [Hs|Hs]
      by (destruct (Ts.s_status t); auto).
    + destruct (session_step d t c Ha Hs) as (r & t' & c' & E1 & E2 & Ha').
      assert (Ts.isReady t = false) as -> by (unfold Ts.isReady; by rewrite Hs).
      assert (status_ c = kHandshaking) as -> by (by destruct Ha).
      by rewrite E1, E2.
    + destruct Ha; [done|split; [done|constructor]..].
  - pose proof (Encrypt_agrees p t c Ha) as E. destruct (Ts.encrypt p t) as [[x t']|]; [|by rewrite E].
    by destruct E as (c' & -> & ?).
  - pose proof (Decrypt_agrees x t c Ha) as E. destruct (Ts.decrypt x t) as [[p t']|]; [|by rewrite E].
    by destruct E as (c' & -> & ?).
Qed.

Lemma runs_agree os t c : agrees t c →
  (runs cpp_do os c).1 = (runs ts_do os t).1 ∧ agrees (runs ts_do os t).2 (runs cpp_do os c).2.
Proof.
  revert t c. induction os as [|o os IH]; intros t c Ha; [done|]. cbn [runs].
  pose proof (do_agrees o t c Ha) as [E Ha']. destruct (ts_do o t) as [r t'], (cpp_do o c) as [r' c'].
  cbn [fst snd] in E, Ha'. subst r'. destruct (IH _ _ Ha') as [E2 Ha2].
  destruct (runs ts_do os t') as [rs t2], (runs cpp_do os c') as [rs' c2]. cbn [fst snd] in *. by subst.
Qed.

(** The status of a session and the key of its peer, as the SDKs show them. *)
Definition ts_shows (t : Ts.NoiseSession) : option bytes + bool :=
  match Ts.s_status t with
  | Ts.is_ready => inl (Ts.s_peerStaticKey t)
  | Ts.is_failed => inr true
  | Ts.handshaking => inr false
  end.

Definition cpp_shows (c : NoiseSession) : option bytes + bool :=
  match status_ c with
  | kReady => inl (Some (peer_static_ c))
  | kFailed => inr true
  | kHandshaking => inr false
  end.

End cpp.
End Cpp.

Import ToySuite.

