(* ===== verification/NoiseInterop.v ===== *)
(** * Sessions of different SDKs with each other

    A session is one of the TypeScript or of the C++ SDK.  Whatever the two sides are, three
    messages between them give two ready sessions with the right keys, and what the one
    encrypts the other decrypts. *)

From S2P Require Import Prelude Blake2s Suite Keys Noise TsNoise CppNoise.

Inductive sdk := TypeScript | CPlusPlus.

Section interop.
Context `{Suite}.

Definition session : Type := Ts.NoiseSession + Cpp.NoiseSession.

Definition start_initiator (k : sdk) (s : KeyPair) (rnd : nat → bytes) : option (session * bytes) :=
  match k with
  | TypeScript => prod_map inl id <$> Ts.startAsInitiator s rnd
  | CPlusPlus => prod_map inr id <$> Cpp.AsInitiator s (rnd Cpp.kKeyLen)
  end.

Definition start_responder (k : sdk) (s : KeyPair) (rnd : nat → bytes) : session :=
  match k with
  | TypeScript => inl (Ts.startAsResponder s rnd)
  | CPlusPlus => inr (Cpp.AsResponder s (rnd Cpp.kKeyLen))
  end.

Definition do_op (o : Cpp.sop) (s : session) : option bytes * session :=
  match s with
  | inl t => prod_map id inl (Cpp.ts_do o t)
  | inr c => prod_map id inr (Cpp.cpp_do o c)
  end.

Definition shows (s : session) : option bytes + bool :=
  match s with inl t => Cpp.ts_shows t | inr c => Cpp.cpp_shows c end.

(** [s] behaves as the TypeScript session [t]. *)
Definition like (s : session) (t : Ts.NoiseSession) : Prop :=
  match s with inl t' => t' = t | inr c => Cpp.agrees t c end.

(** All of a list of texts encrypted, or decrypted. *)
Definition seals (ps : list bytes) (s : session) : list (option bytes) * session := Cpp.runs do_op (Cpp.Seal <$> ps) s.
Definition opens (xs : list bytes) (s : session) : list (option bytes) * session := Cpp.runs do_op (Cpp.Open <$> xs) s.

Context `{!SuiteLaws, !SuiteStd}.

Lemma like_do o s t : like s t →
  (do_op o s).1 = (Cpp.ts_do o t).1 ∧ like (do_op o s).2 (Cpp.ts_do o t).2.
Proof.
  destruct s as [t'|c]; cbn [like do_op].
  - intros ->. by destruct (Cpp.ts_do o t).
  - intros Ha. pose proof (Cpp.do_agrees o t c Ha) as [E Ha']. by destruct (Cpp.cpp_do o c).
Qed.

Lemma like_runs os s t : like s t →
  (Cpp.runs do_op os s).1 = (Cpp.runs Cpp.ts_do os t).1 ∧ like (Cpp.runs do_op os s).2 (Cpp.runs Cpp.ts_do os t).2.
Proof.
  revert s t. induction os as [|o os IH]; intros s t Hl; [done|]. cbn [Cpp.runs].
  destruct (like_do o s t Hl) as [E Hl']. destruct (do_op o s) as [r s'], (Cpp.ts_do o t) as [r' t'].
  cbn [fst snd] in *. subst r'. destruct (IH _ _ Hl') as [E2 Hl2].
  destruct (Cpp.runs do_op os s') as [rs s2], (Cpp.runs Cpp.ts_do os t') as [rs' t2]. cbn [fst snd] in *. by subst.
Qed.

Lemma like_shows s t : like s t → shows s = Cpp.ts_shows t.
Proof. destruct s as [t'|c]; cbn [like shows]; [by intros ->|]. by intros []. Qed.

Lemma like_initiator k s rnd :
  match Ts.startAsInitiator s rnd with
  | Some (t, m) => ∃ i, start_initiator k s rnd = Some (i, m) ∧ like i t
  | None => start_initiator k s rnd = None
  end.
Proof.
  destruct k; cbn [start_initiator].
  - destruct (Ts.startAsInitiator s rnd) as [[t m]|]; [|done]. by eexists.
  - pose proof (Cpp.initiators_agree s rnd) as Hi. destruct (Ts.startAsInitiator s rnd) as [[t m]|]; [|by rewrite Hi].
    destruct Hi as (c & -> & Ha). by eexists.
Qed.

Lemma like_responder k s rnd : like (start_responder k s rnd) (Ts.startAsResponder s rnd).
Proof. destruct k; [done|]. apply Cpp.responders_agree. Qed.

(** ** Two TypeScript sessions *)

(** A channel: the sender of [t] and the receiver of [u] are in the same state. *)
Definition channel (t u : Ts.NoiseSession) : Prop :=
  Ts.s_status t = Ts.is_ready ∧ Ts.s_status u = Ts.is_ready ∧
  ∃ c, Ts.sendCipher t = Some c ∧ Ts.recvCipher u = Some c.

Lemma mixed_channel_step p t u x t' : channel t u → Cpp.ts_do (Cpp.Seal p) t = (Some x, t') →
  ∃ u', Cpp.ts_do (Cpp.Open x) u = (Some p, u') ∧ channel t' u'.
Proof.
  intros (Ht & Hu & c & Et & Eu). unfold Cpp.ts_do, Ts.encrypt, Ts.decrypt. rewrite Ht, Hu, Et, Eu.
  destruct (Ts.encryptWithAd c "" p) as [[c' y]|] eqn:E; cbn [mbind option_bind]; [|done]. intros [= <- <-].
  rewrite (Ts.decrypt_encrypt _ _ _ _ _ E). cbn [mbind option_bind]. eexists. split; [done|].
  by split_and!; [..|exists c'].
Qed.

Lemma mixed_channel_all ps t u xs : channel t u → (Cpp.runs Cpp.ts_do (Cpp.Seal <$> ps) t).1 = Some <$> xs →
  (Cpp.runs Cpp.ts_do (Cpp.Open <$> xs) u).1 = Some <$> ps.
Proof.
  revert t u xs. induction ps as [|p ps IH]; intros t u xs Hc; [by destruct xs|].
  cbn [fmap list_fmap Cpp.runs]. destruct (Cpp.ts_do (Cpp.Seal p) t) as [r t'] eqn:E.
  pose proof (IH t') as IHt. destruct (Cpp.runs Cpp.ts_do _ t') as [rs t2] eqn:Er. cbn [fst] in *.
  destruct xs as [|x xs]; [done|]. cbn [fmap list_fmap]. intros [= -> Hrs].
  destruct (mixed_channel_step _ _ _ _ _ Hc E) as (u' & Ho & Hc'). cbn [fmap list_fmap Cpp.runs]. rewrite Ho.
  specialize (IHt u' xs Hc' Hrs). destruct (Cpp.runs Cpp.ts_do (Cpp.Open <$> xs) u') as [os u2].
  cbn [fst] in *. by rewrite IHt.
Qed.

Lemma ts_three_messages a A b B ra rb ti m1 m2 tr1 m3 ti1 :
  getPublicKey a = Some A → getPublicKey b = Some B →
  Ts.startAsInitiator (MkKeyPair a A) ra = Some (ti, m1) →
  Cpp.ts_do (Cpp.Hand m1) (Ts.startAsResponder (MkKeyPair b B) rb) = (Some m2, tr1) →
  Cpp.ts_do (Cpp.Hand m2) ti = (Some m3, ti1) →
  ∃ tr2, Cpp.ts_do (Cpp.Hand m3) tr1 = (None, tr2) ∧
    Cpp.ts_shows ti1 = inl (Some B) ∧ Cpp.ts_shows tr2 = inl (Some A) ∧ channel ti1 tr2 ∧ channel tr2 ti1.
Proof.
  intros HA HB. unfold Ts.startAsInitiator. cbn [Ts.newSession Ts.handshake].
  destruct (Ts.writeMessage _) as [[[i1 m] cs]|] eqn:W1; cbn [mbind option_bind]; [|done]. intros [= <- <-].
  destruct (Ts.message1 ra rb a b A B _ _ _ W1) as (e & sym & Ee & _ & -> & R1).
  unfold Ts.startAsResponder, Ts.newSession, Cpp.ts_do, Ts.handleHandshakeMessage.
  cbn [Ts.isReady Ts.s_status Ts.handshake Ts.gotFirstMessage Ts.hs_initiator Ts.newHandshakeState].
  fold (Ts.newHandshakeState false (MkKeyPair b B) rb). fold (Ts.r0 rb b B). rewrite R1.
  destruct (Ts.writeMessage (Ts.MkHandshake false sym _ _ _ _ _ _ _)) as [[[r2 x2] cs2]|] eqn:W2;
    cbn [from_option id]; [|done]. intros [= -> <-].
  destruct (Ts.message2 ra rb a b A B HB _ _ _ _ _ Ee W2) as (f & sym2 & Ef & _ & Hk & -> & R2).
  cbn [Ts.s_status Ts.handshake Ts.gotFirstMessage Ts.hs_initiator Ts.isReady].
  rewrite R2. destruct (Ts.writeMessage (Ts.MkHandshake true sym2 _ _ _ _ _ _ _)) as [[[i3 x3] cs3]|] eqn:W3; cbn [from_option id]; [|done].
  destruct (Ts.message3 ra rb a b A B HA _ _ _ _ _ _ Ee Ef Hk W3) as (sym3 & k1 & k2 & -> & -> & R3).
  intros [= -> <-].
  cbn [Ts.with_handshake Ts.s_status Ts.handshake Ts.gotFirstMessage Ts.hs_initiator]. rewrite R3.
  eexists. split; [done|]. split_and!; [done|done|..]; (split_and!; [done|done|by eexists]).
Qed.

(** The sessions of the SDKs interoperate.  Whichever SDK the initiator and the responder are
    of, if the first two messages are answered, the third ends the handshake on both sides
    with each other's public key; from then on every list of texts that either side encrypts
    is decrypted by the other to the same texts in the same order. *)
Theorem sdks_interoperate ki kr a A b B ra rb si m1 m2 sr1 m3 si1 :
  getPublicKey a = Some A → getPublicKey b = Some B →
  start_initiator ki (MkKeyPair a A) ra = Some (si, m1) →
  do_op (Cpp.Hand m1) (start_responder kr (MkKeyPair b B) rb) = (Some m2, sr1) →
  do_op (Cpp.Hand m2) si = (Some m3, si1) →
  ∃ sr2, do_op (Cpp.Hand m3) sr1 = (None, sr2) ∧ shows si1 = inl (Some B) ∧ shows sr2 = inl (Some A) ∧
    (∀ ps xs, (seals ps si1).1 = Some <$> xs → (opens xs sr2).1 = Some <$> ps) ∧
    (∀ ps xs, (seals ps sr2).1 = Some <$> xs → (opens xs si1).1 = Some <$> ps).
Proof.
  intros HA HB Hi Hm1 Hm2.
  pose proof (like_initiator ki (MkKeyPair a A) ra) as Li. rewrite Hi in Li.
  destruct (Ts.startAsInitiator _ _) as [[ti m1']|] eqn:Ti; [|done]. destruct Li as (si' & [= <- <-] & Li).
  pose proof (like_do (Cpp.Hand m1) _ _ (like_responder kr (MkKeyPair b B) rb)) as [E1 Lr1].
  rewrite Hm1 in E1, Lr1. destruct (Cpp.ts_do (Cpp.Hand m1) _) as [r1 tr1] eqn:T1. cbn [fst snd] in *. subst r1.
  pose proof (like_do (Cpp.Hand m2) _ _ Li) as [E2 Li1]. rewrite Hm2 in E2, Li1.
  destruct (Cpp.ts_do (Cpp.Hand m2) ti) as [r2 ti1] eqn:T2. cbn [fst snd] in *. subst r2.
  destruct (ts_three_messages _ _ _ _ _ _ _ _ _ _ _ _ HA HB Ti T1 T2) as (tr2 & T3 & S1 & S2 & C1 & C2).
  pose proof (like_do (Cpp.Hand m3) _ _ Lr1) as [E3 Lr2]. rewrite T3 in E3, Lr2.
  destruct (do_op (Cpp.Hand m3) sr1) as [r3 sr2]. cbn [fst snd] in *. subst r3.
  exists sr2. split_and!; [done|by rewrite (like_shows _ _ Li1)|by rewrite (like_shows _ _ Lr2)|..];
    intros ps xs; unfold seals, opens.
  - rewrite (proj1 (like_runs _ _ _ Li1)), (proj1 (like_runs _ _ _ Lr2)). by apply mixed_channel_all.
  - rewrite (proj1 (like_runs _ _ _ Li1)), (proj1 (like_runs _ _ _ Lr2)). by apply mixed_channel_all.
Qed.
End interop.

Import ToySuite.

Definition ex_key (c : ascii) : bytes := of_chars (replicate 32 c).
Definition ex_rnd (c : ascii) (n : nat) : bytes := of_chars (replicate n c).

Lemma ex_public c : getPublicKey (ex_key c) = Some (ex_key c).
Proof. change (toy_public (ex_key c) = Some (ex_key c)). unfold toy_public. by rewrite decide_True. Qed.

(** A TypeScript initiator and a C++ responder. *)
Definition ex_initiator := start_initiator TypeScript (MkKeyPair (ex_key "a") (ex_key "a")) (ex_rnd "x").
Definition ex_responder := start_responder CPlusPlus (MkKeyPair (ex_key "b") (ex_key "b")) (ex_rnd "y").

(** The first two messages are answered. *)
Definition answered (i : option (session * bytes)) (r : session) : bool :=
  match i with
  | Some (si, m1) =>
      match do_op (Cpp.Hand m1) r with
      | (Some m2, _) => match do_op (Cpp.Hand m2) si with (Some _, _) => true | _ => false end
      | _ => false
      end
  | None => false
  end.

Lemma answered_inv i r : answered i r = true → ∃ si m1 m2 sr1 m3 si1,
  i = Some (si, m1) ∧ do_op (Cpp.Hand m1) r = (Some m2, sr1) ∧ do_op (Cpp.Hand m2) si = (Some m3, si1).
Proof.
  unfold answered. intros Hex. destruct i as [[si m1]|]; [|discriminate Hex].
  destruct (do_op (Cpp.Hand m1) r) as [[m2|] sr1] eqn:E1; [|discriminate Hex].
  destruct (do_op (Cpp.Hand m2) si) as [[m3|] si1] eqn:E2; [|discriminate Hex].
  exists si, m1, m2, sr1, m3, si1. split_and!; [reflexivity|exact E1|exact E2].
Qed.

Lemma ex_answered : answered ex_initiator ex_responder = true.
Proof. vm_compute. reflexivity. Qed.

Lemma sdks_interoperate_witness :
  ∃ si m1 m2 sr1 m3 si1 sr2,
    ex_initiator = Some (si, m1) ∧ do_op (Cpp.Hand m1) ex_responder = (Some m2, sr1) ∧
    do_op (Cpp.Hand m2) si = (Some m3, si1) ∧ do_op (Cpp.Hand m3) sr1 = (None, sr2) ∧
    shows si1 = inl (Some (ex_key "b")) ∧ shows sr2 = inl (Some (ex_key "a")).
Proof.
  destruct (answered_inv _ _ ex_answered) as (si & m1 & m2 & sr1 & m3 & si1 & E0 & E1 & E2).
  destruct (sdks_interoperate TypeScript CPlusPlus (ex_key "a") (ex_key "a") (ex_key "b") (ex_key "b")
    (ex_rnd "x") (ex_rnd "y") si m1 m2 sr1 m3 si1 (ex_public _) (ex_public _) E0 E1 E2) as (sr2 & E3 & S1 & S2 & _).
  exists si, m1, m2, sr1, m3, si1, sr2. exact (conj E0 (conj E1 (conj E2 (conj E3 (conj S1 S2))))).
Defined.
