(* ===== verification/SessionAlike.v ===== *)
(** * A Go session and a TypeScript session

    github.com/flynn/noise, which the Go SDK calls, is here the handshake of the TypeScript
    SDK: both implement the Noise protocol Noise_XX_25519_ChaChaPoly_BLAKE2s.  With it the
    sessions of the two SDKs behave alike, message by message. *)

From S2P Require Import Prelude Keys Suite Noise TsNoise.

#[local] Existing Instance Ts.ts_lib.
#[local] Existing Instance Ts.ts_laws.

Section sessions.
Context `{SuiteLaws}.

Definition has_key (c : Ts.CipherState) : Prop := is_Some (Ts.cs_key c).

(** The state of the handshake a Go session holds. *)
Definition hs_of (g : Noise.noiseSession) : Ts.HandshakeState := proj1_sig (P := Ts.hs_wf) (hs g).

(** What the two sessions have in common, in each state. *)
Definition alike (g : Noise.noiseSession) (t : Ts.NoiseSession) : Prop :=
  match status g, Ts.s_status t with
  | statusHandshaking, Ts.handshaking =>
      hs_of g = Ts.handshake t ∧ initiator g = Ts.hs_initiator (Ts.handshake t) ∧ gotMsg1 g = Ts.gotFirstMessage t ∧
      Ts.hs_count (Ts.handshake t) = if initiator g then 1 else if gotMsg1 g then 2 else 0
  | statusReady, Ts.is_ready =>
      ∃ s r, Ts.sendCipher t = Some s ∧ Ts.recvCipher t = Some r ∧ has_key s ∧ has_key r ∧
        sendCS g = Some (Ts.of_cipher s) ∧ recvCS g = Some (Ts.of_cipher r) ∧
        peerStatic g = default "" (Ts.s_peerStaticKey t)
  | statusFailed, Ts.is_failed => True
  | _, _ => False
  end.

Lemma to_of_cipher c : has_key c → Ts.to_cipher (Ts.of_cipher c) = c.
Proof. destruct c as [[k|] n]; [done|]. by intros []. Qed.

Lemma encrypt_has_key c ad p c' x : has_key c → Ts.encryptWithAd c ad p = Some (c', x) → has_key c'.
Proof. intros [k Hk]. unfold Ts.encryptWithAd. rewrite Hk. destruct (Ts.aeadEncrypt _ _ _ _); [|done]. intros [= <- _]. by eexists. Qed.

Lemma decrypt_has_key c ad p c' x : has_key c → Ts.decryptWithAd c ad p = Some (c', x) → has_key c'.
Proof. intros [k Hk]. unfold Ts.decryptWithAd. rewrite Hk. destruct (Ts.aeadDecrypt _ _ _ _); [|done]. intros [= <- _]. by eexists. Qed.

Lemma write_has_key h h' m c1 c2 : Ts.writeMessage h = Some (h', m, Some (c1, c2)) → has_key c1 ∧ has_key c2.
Proof.
  destruct h as [init sym s rnd e rs re wc rc]. cbn [Ts.writeMessage]. intros Hrun.
  destruct init, wc as [|[|wc]]; cbn [andb negb Nat.eqb] in Hrun; try discriminate Hrun; run_binds Hrun; try discriminate Hrun.
  injection Hrun as _ _ <- <-. split; by eexists.
Qed.

Lemma read_has_key h h' d c1 c2 : Ts.readMessage d h = Some (h', Some (c1, c2)) → has_key c1 ∧ has_key c2.
Proof.
  destruct h as [init sym s rnd e rs re wc rc]. cbn [Ts.readMessage]. intros Hrun.
  destruct init, rc as [|[|rc]]; cbn [andb negb Nat.eqb] in Hrun; try discriminate Hrun; run_binds Hrun; try discriminate Hrun.
  injection Hrun as _ <- <-. split; by eexists.
Qed.

Lemma write_initiator h h' m cs : Ts.writeMessage h = Some (h', m, cs) → Ts.hs_initiator h' = Ts.hs_initiator h.
Proof.
  destruct h as [init sym s rnd e rs re wc rc]. cbn [Ts.writeMessage]. intros Hrun.
  repeat case_match; try discriminate Hrun; run_binds Hrun; by injection Hrun as <- _ _.
Qed.

Lemma read_initiator h h' d cs : Ts.readMessage d h = Some (h', cs) → Ts.hs_initiator h' = Ts.hs_initiator h.
Proof.
  destruct h as [init sym s rnd e rs re wc rc]. cbn [Ts.readMessage]. intros Hrun.
  repeat case_match; try discriminate Hrun; run_binds Hrun; by injection Hrun as <- _.
Qed.

Lemma lib_read_none h d : Ts.lib_read h d = None → Ts.readMessage d (`h) = None.
Proof.
  intros E. destruct (Ts.readMessage d (`h)) as [[h' cs]|] eqn:Er; [|done].
  destruct (Ts.lib_read_is _ _ _ _ Er) as [wf E']. congruence.
Qed.

Lemma lib_write_none h : Ts.lib_write h = None → Ts.writeMessage (`h) = None.
Proof.
  intros E. destruct (Ts.writeMessage (`h)) as [[[h' m] cs]|] eqn:Ew; [|done].
  pose proof (Ts.lift_is (Ts.writeMessage (`h)) (λ x,
    match x with (hs', m, cs) => λ E, (hs' ↾ proj1 (Ts.write_wf _ _ _ _ (proj2_sig h) E), m, Ts.of_pair <$> cs) end) _ Ew) as [E' Hx].
  unfold Ts.lib_write in E. congruence.
Qed.

Lemma alike_fails e g t : status g = statusHandshaking → Ts.s_status t = Ts.handshaking → alike (failLocked e g) (Ts.fail t).
Proof. intros Hg Ht. unfold failLocked, Ts.fail, alike. rewrite Hg, Ht. by rewrite decide_False. Qed.

Lemma alike_finishes h cs hs' send recv g t : has_key send → has_key recv → cs = Some (Ts.of_cipher send, Ts.of_cipher recv) →
  `h = hs' → alike (finishLocked h (fst <$> cs) (snd <$> cs) g) (Ts.finish send recv hs' t).
Proof. intros Hs Hr -> <-. unfold alike, finishLocked, Ts.finish. cbn. by exists send, recv. Qed.

(** A handshake message has the same reply, and leaves sessions that are alike. *)
Lemma alike_handles d g t rep dn e g' : alike g t → status g = statusHandshaking →
  handleHandshakeMessage d g = ((rep, dn, e), g') →
  ∃ t', Ts.handleHandshakeMessage d t = Some (rep, t') ∧ alike g' t' ∧ (e = None → dn = Ts.isReady t').
Proof.
  intros Hal Hst. unfold alike in Hal. rewrite Hst in Hal. unfold handleHandshakeMessage, Ts.handleHandshakeMessage.
  rewrite decide_False by naive_solver. destruct (Ts.s_status t) eqn:Et; [|done..].
  destruct Hal as (Hh & Hi & Hg & Hn). rewrite <- Hi, <- Hg. unfold hs_of in Hh. pose proof (proj2_sig (P := Ts.hs_wf) (hs g)) as Hwf.
  rewrite Hh in Hwf. cbn [hsRead hsWrite Ts.ts_lib].
  destruct (Ts.lib_read (hs g) d) as [[h cs]|] eqn:Er.
  2:{ apply lib_read_none in Er. rewrite Hh in Er. rewrite Er.
      destruct (initiator g), (gotMsg1 g); intros [= <- <- <- <-]; eexists; (split_and!; [done|by apply alike_fails|done]). }
  apply Ts.lib_read_inv in Er as (cs' & Er & ->). rewrite Hh in Er. rewrite Er.
  destruct (Ts.read_wf _ _ _ _ Hwf Er) as (Hwf' & Hn' & Hlast).
  destruct (initiator g) eqn:Ei; [|destruct (gotMsg1 g) eqn:Eg].
  - destruct (Ts.lib_write h) as [[[h' m] cs2]|] eqn:Ew.
    2:{ apply lib_write_none in Ew. rewrite Ew. intros [= <- <- <- <-]. eexists. split_and!; [done|by apply alike_fails|done]. }
    apply Ts.lib_write_inv in Ew as (cs2' & Ew & ->). rewrite Ew. destruct (Ts.write_wf _ _ _ _ Hwf' Ew) as (_ & Hn2 & Hlast2).
    destruct cs2' as [[c1 c2]|]; [|by apply proj1 in Hlast2; destruct Hlast2; [lia|]].
    intros [= <- <- <- <-]. eexists. split_and!; [done| |done].
    destruct (write_has_key _ _ _ _ _ Ew). by apply (alike_finishes h' (Some (Ts.of_cipher c1, Ts.of_cipher c2))).
  - destruct cs' as [[c1 c2]|]; [|by apply proj1 in Hlast; destruct Hlast; [lia|]].
    intros [= <- <- <- <-]. eexists. split_and!; [done| |done].
    destruct (read_has_key _ _ _ _ _ Er). by apply (alike_finishes h (Some (Ts.of_cipher c2, Ts.of_cipher c1))).
  - destruct (Ts.lib_write h) as [[[h' m] cs2]|] eqn:Ew.
    2:{ apply lib_write_none in Ew. rewrite Ew. intros [= <- <- <- <-]. eexists. split_and!; [done|by apply alike_fails|done]. }
    apply Ts.lib_write_inv in Ew as (cs2' & Ew & ->). rewrite Ew. destruct (Ts.write_wf _ _ _ _ Hwf' Ew) as (_ & Hn2 & _).
    intros [= <- <- <- <-]. eexists. split_and!; [done| |by unfold Ts.isReady; cbn; rewrite Et].
    unfold alike. cbn. rewrite Hst, Et. split_and!; [done| |done|lia].
    by rewrite (write_initiator _ _ _ _ Ew), (read_initiator _ _ _ _ Er).
Qed.

Lemma alike_starts seed k A : getPublicKey k = Some A →
  match newInitiatorSession seed k with
  | inr (g, m) => ∃ t, Ts.startAsInitiator (MkKeyPair k A) (λ _, seed) = Some (t, m) ∧ alike g t
  | inl _ => Ts.startAsInitiator (MkKeyPair k A) (λ _, seed) = None
  end.
Proof.
  intros HA. unfold newInitiatorSession, Ts.startAsInitiator, Ts.newSession.
  cbn [NewHandshakeState Ts.ts_lib Ts.handshake hsWrite]. unfold Ts.lib_new, Ts.publicKeyFromPrivate. rewrite HA. cbn [mbind option_bind].
  destruct (Ts.lib_write _) as [[[h m] cs]|] eqn:Ew.
  - apply Ts.lib_write_inv in Ew as (cs' & Ew & ->). cbn [proj1_sig] in Ew. rewrite Ew. eexists. split; [done|].
    destruct (Ts.new_wf true (MkKeyPair k A) (λ _, seed)) as [Hwf Hn].
    destruct (Ts.write_wf _ _ _ _ Hwf Ew) as (_ & Hn' & _). unfold alike, hs_of. cbn. split_and!; [done| |done|lia].
    by rewrite (write_initiator _ _ _ _ Ew).
  - apply lib_write_none in Ew. cbn [proj1_sig] in Ew. by rewrite Ew.
Qed.

Lemma alike_responds seed k A : getPublicKey k = Some A →
  ∃ g, newResponderSession seed k = inr g ∧ status g = statusHandshaking ∧
    alike g (Ts.startAsResponder (MkKeyPair k A) (λ _, seed)).
Proof.
  intros HA. unfold newResponderSession. cbn [NewHandshakeState Ts.ts_lib]. unfold Ts.lib_new, Ts.publicKeyFromPrivate.
  rewrite HA. by eexists.
Qed.

Lemma alike_encrypts m g t : alike g t →
  match Ts.encrypt m t with
  | Some (x, t') => ∃ g', encrypt m g = (inr x, g') ∧ alike g' t'
  | None => ∃ e, encrypt m g = (inl e, g)
  end.
Proof.
  unfold alike, encrypt, Ts.encrypt. destruct (status g) eqn:Eg, (Ts.s_status t) eqn:Et; try done;
    try (intros _; cbn; rewrite decide_True by done; by eexists).
  intros (s & r & Hs & Hr & Ks & Kr & Gs & Gr & Hp). rewrite decide_False by naive_solver. rewrite Hs, Gs.
  cbn [mbind option_bind csEncrypt Ts.ts_lib]. rewrite (to_of_cipher _ Ks).
  destruct (Ts.encryptWithAd s "" m) as [[s' x]|] eqn:E; cbn; [|by eexists].
  eexists. split; [done|]. cbn. rewrite Eg. exists s', r. split_and!; try done. exact (encrypt_has_key _ _ _ _ _ Ks E).
Qed.

Lemma alike_decrypts x g t : alike g t →
  match Ts.decrypt x t with
  | Some (m, t') => ∃ g', decrypt x g = (inr m, g') ∧ alike g' t'
  | None => ∃ e, decrypt x g = (inl e, g)
  end.
Proof.
  unfold alike, decrypt, Ts.decrypt. destruct (status g) eqn:Eg, (Ts.s_status t) eqn:Et; try done;
    try (intros _; cbn; rewrite decide_True by done; by eexists).
  intros (s & r & Hs & Hr & Ks & Kr & Gs & Gr & Hp). rewrite decide_False by naive_solver. rewrite Hr, Gr.
  cbn [mbind option_bind csDecrypt Ts.ts_lib]. rewrite (to_of_cipher _ Kr).
  destruct (Ts.decryptWithAd r "" x) as [[r' m]|] eqn:E; cbn; [|by eexists].
  eexists. split; [done|]. cbn. rewrite Eg. exists s, r'. split_and!; try done. exact (decrypt_has_key _ _ _ _ _ Kr E).
Qed.

Lemma ready_without_error d (g g' : Noise.noiseSession) rep dn e : status g = statusHandshaking → status g' = statusReady →
  handleHandshakeMessage d g = ((rep, dn, e), g') → e = None.
Proof.
  intros Hg Hg'. unfold handleHandshakeMessage, failLocked. rewrite decide_False by naive_solver.
  repeat case_match; intros [= <- <- <- <-]; cbn in Hg'; congruence.
Qed.

Lemma alike_ready g t : alike g t → Ts.isReady t = true →
  status g = statusReady ∧ peerStatic g = default "" (Ts.s_peerStaticKey t).
Proof. unfold alike, Ts.isReady. destruct (status g), (Ts.s_status t); try done. naive_solver. Qed.
End sessions.
