(* ===== verification/SdkSessions.v ===== *)
(** * The Noise sessions of all the SDKs

    [Session] is what a client of any SDK asks of its Noise session: the NoiseSession of
    src/sdk/py/relayly/_noise.py, of src/sdk/rust/src/noise.rs, of the TypeScript and of the
    C++ SDK, and the noiseSession of Go.  [SessionLaws] is what each of them promises: step by
    step it does what the Go session does with the same Noise library.  Sessions of any two
    SDKs then interoperate.

    The Noise libraries of Python (noiseprotocol) and Rust (snow) are third-party code, as
    github.com/flynn/noise is: each is the parameter [NoiseLib], which stands for the library
    as the session calls it, with the buffers the session gives it. *)

From S2P Require Import Prelude Keys Suite Noise TsNoise CppNoise SessionAlike.

(** ** The interface *)

Class Session := {
  session : Type;
  identity : Type;
  private_of : identity → PrivateKey;
  (** With the random bytes of the session; the session and its first message. *)
  as_initiator : bytes → identity → option (session * bytes);
  as_responder : bytes → identity → option session;
  (** The reply, and whether the handshake is over. *)
  handle : bytes → session → (option bytes * bool) * session;
  is_ready : session → bool;
  is_failed : session → bool;
  (** The peer's key, of a session that is ready. *)
  static_key : session → option bytes;
  seal : bytes → session → option (bytes * session);
  unseal : bytes → session → option (bytes * session)
}.

Class SessionLaws `{NoiseLib} (S : Session) := {
  sim : noiseSession → session → Prop;
  sim_initiator seed i :
    match newInitiatorSession seed (private_of i) with
    | inr (g, m) => ∃ s, as_initiator seed i = Some (s, m) ∧ sim g s
    | inl _ => as_initiator seed i = None
    end;
  sim_responder seed i :
    match newResponderSession seed (private_of i) with
    | inr g => ∃ s, as_responder seed i = Some s ∧ sim g s
    | inl _ => as_responder seed i = None
    end;
  sim_handle d g s rep dn e g' : sim g s → status g = statusHandshaking →
    handleHandshakeMessage d g = ((rep, dn, e), g') → ∃ s', handle d s = ((rep, dn), s') ∧ sim g' s';
  sim_ready g s : sim g s → is_ready s = ready g;
  sim_key g s : sim g s → status g = statusReady → static_key s = Some (peerStatic g);
  sim_seal m g s : sim g s →
    match seal m s with
    | Some (x, s') => ∃ g', encrypt m g = (inr x, g') ∧ sim g' s'
    | None => ∃ e, encrypt m g = (inl e, g)
    end;
  sim_unseal x g s : sim g s →
    match unseal x s with
    | Some (m, s') => ∃ g', decrypt x g = (inr m, g') ∧ sim g' s'
    | None => ∃ e, decrypt x g = (inl e, g)
    end
}.

(** What holds of every session, with any library. *)
Class SessionShape (S : Session) := {
  over_ready d s r s' : handle d s = ((r, true), s') → is_failed s' = false → is_ready s' = true;
  ready_unfailed s : is_ready s = true → is_failed s = false;
  seal_keeps m s x s' : seal m s = Some (x, s') → is_ready s' = is_ready s ∧ static_key s' = static_key s;
  unseal_keeps x s m s' : unseal x s = Some (m, s') → is_ready s' = is_ready s ∧ static_key s' = static_key s
}.

(** ** Go *)

Section go.
Context `{NoiseLib}.

Definition go_session : Session := {|
  session := noiseSession;
  identity := PrivateKey;
  private_of i := i;
  as_initiator seed i := match newInitiatorSession seed i with inr x => Some x | inl _ => None end;
  as_responder seed i := match newResponderSession seed i with inr s => Some s | inl _ => None end;
  handle d s := let '((reply, done, _), s') := handleHandshakeMessage d s in ((reply, done), s');
  is_ready := ready;
  is_failed s := bool_decide (status s = statusFailed);
  static_key s := if ready s then Some (peerStatic s) else None;
  seal m s := match encrypt m s with (inr x, s') => Some (x, s') | (inl _, _) => None end;
  unseal x s := match decrypt x s with (inr m, s') => Some (m, s') | (inl _, _) => None end
|}.

Lemma encrypt_err m s e s' : encrypt m s = (inl e, s') → s' = s.
Proof. unfold encrypt. repeat case_match; by intros [= _ <-]. Qed.
Lemma decrypt_err x s e s' : decrypt x s = (inl e, s') → s' = s.
Proof. unfold decrypt. repeat case_match; by intros [= _ <-]. Qed.

#[export] Instance go_laws : SessionLaws go_session.
Proof.
  refine {| sim := (λ g s, g = s) : noiseSession → @session go_session → Prop |}; cbn.
  - intros seed i. destruct (newInitiatorSession seed i) as [|[g m]]; by eauto.
  - intros seed i. destruct (newResponderSession seed i); by eauto.
  - intros d g s rep dn e g' <- _ ->. by eauto.
  - by intros g s <-.
  - intros g s <- Hg. unfold ready. by rewrite bool_decide_true.
  - intros m g s <-. destruct (encrypt m g) as [[e|x] s'] eqn:E; [|by eauto]. by rewrite <- (encrypt_err _ _ _ _ E); eauto.
  - intros x g s <-. destruct (decrypt x g) as [[e|m] s'] eqn:E; [|by eauto]. by rewrite <- (decrypt_err _ _ _ _ E); eauto.
Qed.
End go.

(** ** Python (src/sdk/py/relayly/_noise.py) *)

Section python.
Context `{NoiseLib}.

Inductive py_Status := HANDSHAKING | READY | FAILED.

(** [ps_conn] is the handshake of the NoiseConnection, [ps_ciphers] the cipher states it
    encrypts and decrypts with once the handshake has finished. *)
Record py_session := MkPySession {
  ps_initiator : bool;
  ps_status : py_Status;
  ps_conn : hstate;
  ps_ciphers : option (cstate * cstate);
  ps_peer_static : option bytes
}.

(** The initiator encrypts with the first of the two cipher states, the responder with the second. *)
Definition by_role (initiator : bool) (cs : cstate * cstate) : cstate * cstate := if initiator then cs else (cs.2, cs.1).

Definition py_as_initiator (seed : bytes) (private_key : PrivateKey) : option (py_session * bytes) :=
  h ← NewHandshakeState seed private_key true;
  '(h, msg1, _) ← hsWrite h;
  Some (MkPySession true HANDSHAKING h None None, msg1).

Definition py_as_responder (seed : bytes) (private_key : PrivateKey) : option py_session :=
  h ← NewHandshakeState seed private_key false; Some (MkPySession false HANDSHAKING h None None).

Definition py_finish (h : hstate) (cs : cstate * cstate) (s : py_session) : py_session :=
  MkPySession (ps_initiator s) READY h (Some (by_role (ps_initiator s) cs)) (Some (PeerStatic h)).

Definition py_fail (s : py_session) : py_session :=
  MkPySession (ps_initiator s) FAILED (ps_conn s) (ps_ciphers s) (ps_peer_static s).

(** A write that fails after the read leaves the connection with the message read. *)
Definition py_at (h : hstate) (s : py_session) : py_session :=
  MkPySession (ps_initiator s) (ps_status s) h (ps_ciphers s) (ps_peer_static s).

Definition py_handle_handshake_message (data : bytes) (s : py_session) : (option bytes * bool) * py_session :=
  match ps_status s with
  | HANDSHAKING =>
      match hsRead (ps_conn s) data with
      | None => ((None, true), py_fail s)
      | Some (h, finished) =>
          if ps_initiator s then
            match hsWrite h with
            | None => ((None, true), py_fail (py_at h s))
            | Some (h, reply, Some cs) => ((Some reply, true), py_finish h cs s)
            | Some (h, reply, None) => ((Some reply, false), py_at h s)
            end
          else
            match finished with
            | Some cs => ((None, true), py_finish h cs s)
            | None =>
                match hsWrite h with
                | None => ((None, true), py_fail (py_at h s))
                | Some (h, reply, _) => ((Some reply, false), py_at h s)
                end
            end
      end
  | READY | FAILED => ((None, true), py_fail s)
  end.

Definition py_encrypt (plaintext : bytes) (s : py_session) : option (bytes * py_session) :=
  match ps_status s, ps_ciphers s with
  | READY, Some (e, d) =>
      '(e, x) ← csEncrypt e plaintext; Some (x, MkPySession (ps_initiator s) READY (ps_conn s) (Some (e, d)) (ps_peer_static s))
  | _, _ => None
  end.

Definition py_decrypt (ciphertext : bytes) (s : py_session) : option (bytes * py_session) :=
  match ps_status s, ps_ciphers s with
  | READY, Some (e, d) =>
      '(d, m) ← csDecrypt d ciphertext; Some (m, MkPySession (ps_initiator s) READY (ps_conn s) (Some (e, d)) (ps_peer_static s))
  | _, _ => None
  end.

Definition python_session : Session := {|
  session := py_session;
  identity := PrivateKey;
  private_of i := i;
  as_initiator := py_as_initiator;
  as_responder := py_as_responder;
  handle := py_handle_handshake_message;
  is_ready s := match ps_status s with READY => true | _ => false end;
  is_failed s := match ps_status s with FAILED => true | _ => false end;
  static_key := ps_peer_static;
  seal := py_encrypt;
  unseal := py_decrypt
|}.

#[export] Instance python_shape : SessionShape python_session.
Proof.
  split; cbn.
  - intros d s r s'. unfold py_handle_handshake_message. repeat case_match; intros [= <- <-]; by cbn in *.
  - intros s. by destruct (ps_status s).
  - intros m s x s'. unfold py_encrypt. destruct (ps_status s), (ps_ciphers s) as [[e k]|]; try done.
    destruct (csEncrypt e m) as [[e' y]|]; [|done]. by intros [= <- <-].
  - intros x s m s'. unfold py_decrypt. destruct (ps_status s), (ps_ciphers s) as [[e k]|]; try done.
    destruct (csDecrypt k x) as [[k' y]|]; [|done]. by intros [= <- <-].
Qed.
End python.

(** ** Rust (src/sdk/rust/src/noise.rs) *)

Section rust.
Context `{NoiseLib}.

(** snow's HandshakeState knows its role, and its TransportState which of the two cipher
    states it sends with. *)
Inductive rust_State :=
  | Handshaking (initiator : bool) (h : hstate)
  | Ready (send recv : cstate) (peer_static : bytes)
  | Failed.

Definition rust_as_initiator (seed : bytes) (private_key : PrivateKey) : option (rust_State * bytes) :=
  h ← NewHandshakeState seed private_key true;
  '(h, msg1, _) ← hsWrite h;
  Some (Handshaking true h, msg1).

Definition rust_as_responder (seed : bytes) (private_key : PrivateKey) : option rust_State :=
  h ← NewHandshakeState seed private_key false; Some (Handshaking false h).

Definition rust_finish (initiator : bool) (h : hstate) (cs : cstate * cstate) (reply : option bytes)
    : (option bytes * bool) * rust_State :=
  let '(send, recv) := by_role initiator cs in ((reply, true), Ready send recv (PeerStatic h)).

Definition rust_handle_handshake_message (data : bytes) (s : rust_State) : (option bytes * bool) * rust_State :=
  match s with
  | Handshaking initiator h =>
      match hsRead h data with
      | None => ((None, true), Failed)
      | Some (h, Some cs) => rust_finish initiator h cs None
      | Some (h, None) =>
          match hsWrite h with
          | Some (h, reply, Some cs) => rust_finish initiator h cs (Some reply)
          | Some (h, reply, None) => ((Some reply, false), Handshaking initiator h)
          | None => ((None, true), Failed)
          end
      end
  | Ready _ _ _ | Failed => ((None, true), Failed)
  end.

Definition rust_encrypt (plaintext : bytes) (s : rust_State) : option (bytes * rust_State) :=
  match s with
  | Ready send recv peer_static => '(send, x) ← csEncrypt send plaintext; Some (x, Ready send recv peer_static)
  | _ => None
  end.

Definition rust_decrypt (ciphertext : bytes) (s : rust_State) : option (bytes * rust_State) :=
  match s with
  | Ready send recv peer_static => '(recv, m) ← csDecrypt recv ciphertext; Some (m, Ready send recv peer_static)
  | _ => None
  end.

Definition rust_session : Session := {|
  session := rust_State;
  identity := PrivateKey;
  private_of i := i;
  as_initiator := rust_as_initiator;
  as_responder := rust_as_responder;
  handle := rust_handle_handshake_message;
  is_ready s := match s with Ready _ _ _ => true | _ => false end;
  is_failed s := match s with Failed => true | _ => false end;
  static_key s := match s with Ready _ _ k => Some k | _ => None end;
  seal := rust_encrypt;
  unseal := rust_decrypt
|}.

#[export] Instance rust_shape : SessionShape rust_session.
Proof.
  split; cbn.
  - intros d s r s'. unfold rust_handle_handshake_message, rust_finish. destruct s as [i h| |]; [|by intros [= <- <-]..].
    destruct (hsRead h d) as [[h1 [cs|]]|]; [destruct (by_role i cs); by intros [= <- <-]| |by intros [= <- <-]].
    destruct (hsWrite h1) as [[[h2 m] [cs|]]|]; [destruct (by_role i cs)|..]; by intros [= <- <-].
  - by intros [].
  - intros m [i h|e k p|] x s'; [done| |done]. cbn. destruct (csEncrypt e m) as [[e' y]|]; [|done]. by intros [= <- <-].
  - intros x [i h|e k p|] m s'; [done| |done]. cbn. destruct (csDecrypt k x) as [[k' y]|]; [|done]. by intros [= <- <-].
Qed.
End rust.

Arguments py_session {_}.
Arguments rust_State {_}.

(** ** Python and Rust sessions do what a Go session does *)

Section laws.
Context `{NoiseLaws}.

(** What a Go session does with a message while it handshakes, by the role and by the number of
    messages that have passed. *)
Inductive go_turn (g : noiseSession) (d : bytes) : option bytes * bool → noiseSession → Prop :=
  | TurnUnread g' : hsRead (hs g) d = None → status g' = statusFailed → go_turn g d (None, true) g'
  | TurnUnanswered h g' : hsRead (hs g) d = Some (h, None) → hsWrite h = None → status g' = statusFailed → go_turn g d (None, true) g'
  | TurnAnswers h h' m g' : hsRead (hs g) d = Some (h, None) → hsWrite h = Some (h', m, None) → initiator g = false →
      status g' = statusHandshaking → hs g' = h' → initiator g' = false → go_turn g d (Some m, false) g'
  | TurnInitiator h h' m e k g' : hsRead (hs g) d = Some (h, None) → hsWrite h = Some (h', m, Some (e, k)) → initiator g = true →
      status g' = statusReady → sendCS g' = Some e → recvCS g' = Some k → peerStatic g' = PeerStatic h' → go_turn g d (Some m, true) g'
  | TurnResponder h e k g' : hsRead (hs g) d = Some (h, Some (e, k)) → initiator g = false →
      status g' = statusReady → sendCS g' = Some k → recvCS g' = Some e → peerStatic g' = PeerStatic h → go_turn g d (None, true) g'.

Lemma go_turns d g rep dn e g' : session_ok g → status g = statusHandshaking →
  handleHandshakeMessage d g = ((rep, dn, e), g') → go_turn g d (rep, dn) g'.
Proof.
  intros Hok Hs. unfold session_ok in Hok. rewrite Hs in Hok. destruct Hok as (_ & _ & Hi).
  unfold handleHandshakeMessage, failLocked. rewrite decide_False by naive_solver.
  destruct (hsRead (hs g) d) as [[h cs]|] eqn:Er.
  2:{ repeat case_match; intros [= <- <- <- <-]; first [by apply TurnUnread|cbn in *; congruence]. }
  pose proof (hs_index_read _ _ _ _ Er) as [E1 E3].
  destruct (initiator g) eqn:Ei; [|destruct (gotMsg1 g) eqn:Eg].
  - destruct cs as [p|]; [exfalso; enough (hs_index h = 3) by lia; apply E3; by eexists|].
    destruct (hsWrite h) as [[[h' m] cs']|] eqn:Ew.
    + pose proof (hs_index_write _ _ _ _ Ew) as [E2 E4]. assert (is_Some cs') as [[k1 k2] ->] by (apply E4; lia).
      intros [= <- <- <- <-]. by eapply TurnInitiator.
    + rewrite Hs. intros [= <- <- <- <-]. by eapply TurnUnanswered.
  - assert (is_Some cs) as [[k1 k2] ->] by (apply E3; lia). intros [= <- <- <- <-]. by eapply TurnResponder.
  - destruct cs as [p|]; [exfalso; enough (hs_index h = 3) by lia; apply E3; by eexists|].
    destruct (hsWrite h) as [[[h' m] cs']|] eqn:Ew.
    + pose proof (hs_index_write _ _ _ _ Ew) as [E2 E4].
      destruct cs' as [p|]; [exfalso; enough (hs_index h' = 3) by lia; apply E4; by eexists|].
      intros [= <- <- <- <-]. by eapply TurnAnswers.
    + cbn. rewrite Hs. intros [= <- <- <- <-]. by eapply TurnUnanswered.
Qed.

Definition py_sim (g : noiseSession) (s : py_session) : Prop :=
  session_ok g ∧
  match status g, ps_status s with
  | statusHandshaking, HANDSHAKING => hs g = ps_conn s ∧ initiator g = ps_initiator s
  | statusReady, READY =>
      ∃ e d, sendCS g = Some e ∧ recvCS g = Some d ∧ ps_ciphers s = Some (e, d) ∧ ps_peer_static s = Some (peerStatic g)
  | statusFailed, FAILED => True
  | _, _ => False
  end.

Lemma py_handles d g s rep dn e g' : py_sim g s → status g = statusHandshaking →
  handleHandshakeMessage d g = ((rep, dn, e), g') → ∃ s', py_handle_handshake_message d s = ((rep, dn), s') ∧ py_sim g' s'.
Proof.
  intros [Hok Hsim] Hs Hg. pose proof (handle_ok d g Hok) as Hok'. rewrite Hg in Hok'. cbn [snd] in Hok'.
  rewrite Hs in Hsim. destruct (ps_status s) eqn:Est; [|done..]. destruct Hsim as [Hh Hi].
  unfold py_handle_handshake_message, py_sim. rewrite Est, <- Hh, <- Hi.
  destruct (go_turns _ _ _ _ _ _ Hok Hs Hg) as [g' Er Sg|h g' Er Ew Sg|h h' m g' Er Ew Ei Sg Hg' Hi'|h h' m x y g' Er Ew Ei Sg S1 S2 S3|h x y g' Er Ei Sg S1 S2 S3];
    rewrite Er, ?Ew, ?Ei, Sg; cbn.
  - by eexists.
  - destruct (initiator g); by eexists.
  - eexists. split; [done|]. cbn. rewrite Est. split_and!; [done|done|]. cbn. congruence.
  - eexists. split; [done|]. cbn. split; [done|]. rewrite <- Hi, Ei. cbn. exists x, y. split_and!; [done..|]. congruence.
  - eexists. split; [done|]. cbn. split; [done|]. rewrite <- Hi, Ei. cbn. exists y, x. split_and!; [done..|]. congruence.
Qed.

Lemma py_seals m g s : py_sim g s →
  match py_encrypt m s with
  | Some (x, s') => ∃ g', encrypt m g = (inr x, g') ∧ py_sim g' s'
  | None => ∃ e, encrypt m g = (inl e, g)
  end.
Proof.
  intros [Hok Hsim]. pose proof (encrypt_ok m g Hok) as Hok'. revert Hok' Hsim. unfold py_encrypt, encrypt, py_sim.
  destruct (status g) eqn:Eg, (ps_status s) eqn:Es; try done; try (intros _ _; rewrite decide_True by done; by eexists).
  rewrite decide_False by naive_solver. intros Hok' (e & d & He & Hd & Hc & Hk). rewrite Hc, He in *. cbn [mbind option_bind] in *.
  destruct (csEncrypt e m) as [[e' x]|]; cbn; [|by eexists]. eexists. split; [done|]. split; [done|]. cbn. rewrite Eg. by exists e', d.
Qed.

Lemma py_unseals x g s : py_sim g s →
  match py_decrypt x s with
  | Some (m, s') => ∃ g', decrypt x g = (inr m, g') ∧ py_sim g' s'
  | None => ∃ e, decrypt x g = (inl e, g)
  end.
Proof.
  intros [Hok Hsim]. pose proof (decrypt_ok x g Hok) as Hok'. revert Hok' Hsim. unfold py_decrypt, decrypt, py_sim.
  destruct (status g) eqn:Eg, (ps_status s) eqn:Es; try done; try (intros _ _; rewrite decide_True by done; by eexists).
  rewrite decide_False by naive_solver. intros Hok' (e & d & He & Hd & Hc & Hk). rewrite Hc, Hd in *. cbn [mbind option_bind] in *.
  destruct (csDecrypt d x) as [[d' m]|]; cbn; [|by eexists]. eexists. split; [done|]. split; [done|]. cbn. rewrite Eg. by exists e, d'.
Qed.

#[export] Instance python_laws : SessionLaws python_session.
Proof.
  refine {| sim := py_sim : noiseSession → @session python_session → Prop; sim_handle := py_handles; sim_seal := py_seals; sim_unseal := py_unseals |}; cbn.
  - intros seed i. pose proof (initiator_ok seed i) as Hok. revert Hok. unfold newInitiatorSession, py_as_initiator.
    destruct (NewHandshakeState seed i true) as [h|]; [|done]. cbn. destruct (hsWrite h) as [[[h' m] cs]|]; [|done]. intros Hok. cbn.
    eexists. split; [done|]. split; [by eapply Hok|done].
  - intros seed i. pose proof (responder_ok seed i) as Hok. revert Hok. unfold newResponderSession, py_as_responder.
    destruct (NewHandshakeState seed i false) as [h|]; [|done]. intros Hok. cbn. eexists. split; [done|]. split; [by apply Hok|done].
  - intros g s [_ Hsim]. unfold ready. by destruct (status g), (ps_status s).
  - intros g s [_ Hsim] Hg. rewrite Hg in Hsim. destruct (ps_status s); naive_solver.
Qed.

Definition rust_sim (g : noiseSession) (s : rust_State) : Prop :=
  session_ok g ∧
  match status g, s with
  | statusHandshaking, Handshaking i h => hs g = h ∧ initiator g = i
  | statusReady, Ready e d k => sendCS g = Some e ∧ recvCS g = Some d ∧ peerStatic g = k
  | statusFailed, Failed => True
  | _, _ => False
  end.

Lemma rust_handles d g s rep dn e g' : rust_sim g s → status g = statusHandshaking →
  handleHandshakeMessage d g = ((rep, dn, e), g') → ∃ s', rust_handle_handshake_message d s = ((rep, dn), s') ∧ rust_sim g' s'.
Proof.
  intros [Hok Hsim] Hs Hg. pose proof (handle_ok d g Hok) as Hok'. rewrite Hg in Hok'. cbn [snd] in Hok'.
  rewrite Hs in Hsim. destruct s as [i h0| |]; [|done..]. destruct Hsim as [<- <-]. unfold rust_handle_handshake_message, rust_sim.
  destruct (go_turns _ _ _ _ _ _ Hok Hs Hg) as [g' Er Sg|h g' Er Ew Sg|h h' m g' Er Ew Ei Sg Hg' Hi'|h h' m x y g' Er Ew Ei Sg S1 S2 S3|h x y g' Er Ei Sg S1 S2 S3];
    rewrite Er, ?Ew, ?Ei, Sg; by eexists.
Qed.

Lemma rust_seals m g s : rust_sim g s →
  match rust_encrypt m s with
  | Some (x, s') => ∃ g', encrypt m g = (inr x, g') ∧ rust_sim g' s'
  | None => ∃ e, encrypt m g = (inl e, g)
  end.
Proof.
  intros [Hok Hsim]. pose proof (encrypt_ok m g Hok) as Hok'. revert Hok' Hsim. unfold rust_encrypt, encrypt, rust_sim.
  destruct (status g) eqn:Eg, s; try done; try (intros _ _; rewrite decide_True by done; by eexists).
  rewrite decide_False by naive_solver. intros Hok' (He & Hd & Hk). rewrite He in *. cbn [mbind option_bind] in *.
  destruct (csEncrypt send m) as [[e' x]|]; cbn; [|by eexists]. eexists. split; [done|]. split; [done|]. cbn. by rewrite Eg.
Qed.

Lemma rust_unseals x g s : rust_sim g s →
  match rust_decrypt x s with
  | Some (m, s') => ∃ g', decrypt x g = (inr m, g') ∧ rust_sim g' s'
  | None => ∃ e, decrypt x g = (inl e, g)
  end.
Proof.
  intros [Hok Hsim]. pose proof (decrypt_ok x g Hok) as Hok'. revert Hok' Hsim. unfold rust_decrypt, decrypt, rust_sim.
  destruct (status g) eqn:Eg, s; try done; try (intros _ _; rewrite decide_True by done; by eexists).
  rewrite decide_False by naive_solver. intros Hok' (He & Hd & Hk). rewrite Hd in *. cbn [mbind option_bind] in *.
  destruct (csDecrypt recv x) as [[d' m]|]; cbn; [|by eexists]. eexists. split; [done|]. split; [done|]. cbn. by rewrite Eg.
Qed.

#[export] Instance rust_laws : SessionLaws rust_session.
Proof.
  refine {| sim := rust_sim : noiseSession → @session rust_session → Prop; sim_handle := rust_handles; sim_seal := rust_seals; sim_unseal := rust_unseals |}; cbn.
  - intros seed i. pose proof (initiator_ok seed i) as Hok. revert Hok. unfold newInitiatorSession, rust_as_initiator.
    destruct (NewHandshakeState seed i true) as [h|]; [|done]. cbn. destruct (hsWrite h) as [[[h' m] cs]|]; [|done]. intros Hok. cbn.
    eexists. split; [done|]. split; [by eapply Hok|done].
  - intros seed i. pose proof (responder_ok seed i) as Hok. revert Hok. unfold newResponderSession, rust_as_responder.
    destruct (NewHandshakeState seed i false) as [h|]; [|done]. intros Hok. cbn. eexists. split; [done|]. split; [by apply Hok|done].
  - intros g s [_ Hsim]. unfold ready. by destruct (status g), s.
  - intros g s [_ Hsim] Hg. rewrite Hg in Hsim. destruct s; naive_solver.
Qed.
End laws.

(** ** TypeScript and C++ (src/sdk/ts/src/noise/session.ts, src/sdk/cpp/src/noise/session.cpp) *)

Section hand_written.
Context `{SuiteLaws} `{!SuiteStd}.

#[local] Existing Instance Ts.ts_lib.
#[local] Existing Instance Ts.ts_laws.

(** A key pair whose halves belong together. *)
Definition key_pair : Type := { kp : KeyPair | getPublicKey (privateKey kp) = Some (publicKey kp) }.

(** What the connection of a TypeScript client makes of its session; [true] too if the session
    is fed after its end and throws. *)
Definition ts_handle (d : bytes) (t : Ts.NoiseSession) : (option bytes * bool) * Ts.NoiseSession :=
  match Ts.handleHandshakeMessage d t with Some (r, t') => ((r, Ts.isSettled t'), t') | None => ((None, true), t) end.

Definition typescript_session : Session := {|
  session := Ts.NoiseSession;
  identity := key_pair;
  private_of i := privateKey (`i);
  as_initiator seed i := Ts.startAsInitiator (`i) (λ _, seed);
  as_responder seed i := Some (Ts.startAsResponder (`i) (λ _, seed));
  handle := ts_handle;
  is_ready := Ts.isReady;
  is_failed s := match Ts.s_status s with Ts.is_failed => true | _ => false end;
  static_key := Ts.s_peerStaticKey;
  seal := Ts.encrypt;
  unseal := Ts.decrypt
|}.

(** [ready] and [peer_static_key] of session.hpp and session.cpp. *)
Definition cpp_is_ready (s : Cpp.NoiseSession) : bool := match Cpp.status_ s with Cpp.kReady => true | _ => false end.
Definition cpp_static_key (s : Cpp.NoiseSession) : option bytes :=
  match Cpp.status_ s with Cpp.kReady => Some (Cpp.peer_static_ s) | _ => None end.

Definition cplusplus_session : Session := {|
  session := Cpp.NoiseSession;
  identity := key_pair;
  private_of i := privateKey (`i);
  as_initiator seed i := Cpp.AsInitiator (`i) seed;
  as_responder seed i := Some (Cpp.AsResponder (`i) seed);
  handle := Cpp.HandleHandshakeMessage;
  is_ready := cpp_is_ready;
  is_failed s := match Cpp.status_ s with Cpp.kFailed => true | _ => false end;
  static_key := cpp_static_key;
  seal := Cpp.Encrypt;
  unseal := Cpp.Decrypt
|}.

#[export] Instance cplusplus_shape : SessionShape cplusplus_session.
Proof.
  split; unfold cplusplus_session, handle, is_failed, is_ready, static_key, seal, unseal, cpp_is_ready, cpp_static_key.
  - intros d s r s'. unfold Cpp.HandleHandshakeMessage. repeat case_match; intros [= <- <-]; try done; by cbn in *.
  - intros s. by destruct (Cpp.status_ s).
  - intros m s x s'. unfold Cpp.Encrypt. destruct (Cpp.status_ s), (Cpp.send_ s) as [c|]; try done.
    destruct (Cpp.EncryptWithAd c "" m) as [[c' y]|]; [|done]. by intros [= <- <-].
  - intros x s m s'. unfold Cpp.Decrypt. destruct (Cpp.status_ s), (Cpp.recv_ s) as [c|]; try done.
    destruct (Cpp.DecryptWithAd c "" x) as [[c' y]|]; [|done]. by intros [= <- <-].
Qed.

(** The three sessions side by side. *)
Definition trio (g : noiseSession) (t : Ts.NoiseSession) (c : Cpp.NoiseSession) : Prop := alike g t ∧ Cpp.agrees t c.

Lemma trio_initiator seed (i : key_pair) :
  match newInitiatorSession seed (privateKey (`i)) with
  | inr (g, m) => ∃ t c, Ts.startAsInitiator (`i) (λ _, seed) = Some (t, m) ∧ Cpp.AsInitiator (`i) seed = Some (c, m) ∧ trio g t c
  | inl _ => Ts.startAsInitiator (`i) (λ _, seed) = None ∧ Cpp.AsInitiator (`i) seed = None
  end.
Proof.
  destruct i as [[k A] HA]. cbn [proj1_sig privateKey publicKey] in *. pose proof (alike_starts seed k A HA) as Hs.
  pose proof (Cpp.initiators_agree (MkKeyPair k A) (λ _, seed)) as Hc.
  destruct (newInitiatorSession seed k) as [e|[g m]]; [by rewrite Hs in Hc|]. destruct Hs as (t & Ht & Hal). rewrite Ht in *.
  destruct Hc as (c & Hc & Hag). by exists t, c.
Qed.

Lemma trio_responder seed (i : key_pair) : ∃ g, newResponderSession seed (privateKey (`i)) = inr g ∧
  trio g (Ts.startAsResponder (`i) (λ _, seed)) (Cpp.AsResponder (`i) seed).
Proof.
  destruct i as [[k A] HA]. destruct (alike_responds seed k A HA) as (g & Hg & _ & Hal). exists g. split; [done|].
  split; [done|]. apply (Cpp.responders_agree (MkKeyPair k A) (λ _, seed)).
Qed.

Lemma trio_handles d g t c rep dn e g' : trio g t c → status g = statusHandshaking →
  handleHandshakeMessage d g = ((rep, dn, e), g') →
  ∃ t' c', Ts.handleHandshakeMessage d t = Some (rep, t') ∧ Ts.isSettled t' = dn ∧
    Cpp.HandleHandshakeMessage d c = ((rep, dn), c') ∧ trio g' t' c'.
Proof.
  intros [Hal Hag] Hg Hh. destruct (alike_handles _ _ _ _ _ _ _ Hal Hg Hh) as (t' & Ht & Hal' & Hdn).
  assert (Ts.s_status t = Ts.handshaking) as Hst by (unfold alike in Hal; rewrite Hg in Hal; by destruct (Ts.s_status t)).
  destruct (Cpp.session_step d t c Hag Hst) as (r & t'' & c' & Ht' & Hc & Hag'). rewrite Ht in Ht'. injection Ht' as <- <-.
  assert (Ts.isSettled t' = dn) as Hs.
  { revert Hh Hal' Hdn. unfold alike, Ts.isSettled, Ts.isReady, handleHandshakeMessage, failLocked. rewrite Hg.
    rewrite decide_False by naive_solver. repeat case_match; intros [= <- <- <- <-]; cbn; try rewrite Hg;
    destruct (Ts.s_status t'); naive_solver. }
  rewrite Hs in Hc. by exists t', c'.
Qed.

Lemma trio_ready g t c : trio g t c → Ts.isReady t = ready g ∧ cpp_is_ready c = ready g.
Proof. intros [Hal Hag]. unfold alike, ready, Ts.isReady, cpp_is_ready in *. destruct Hag; cbn in *; by destruct (status g). Qed.

Lemma trio_key g t c : trio g t c → status g = statusReady → Ts.s_peerStaticKey t = Some (peerStatic g) ∧
  cpp_static_key c = Some (peerStatic g).
Proof.
  intros [Hal Hag] Hg. unfold cpp_static_key. unfold alike in Hal. rewrite Hg in Hal. destruct Hag; cbn in *; [done| |done].
  destruct Hal as (? & ? & _ & _ & _ & _ & _ & _ & ->). done.
Qed.

Lemma trio_seals m g t c : trio g t c →
  match Ts.encrypt m t with
  | Some (x, t') => ∃ g' c', encrypt m g = (inr x, g') ∧ Cpp.Encrypt m c = Some (x, c') ∧ trio g' t' c'
  | None => (∃ e, encrypt m g = (inl e, g)) ∧ Cpp.Encrypt m c = None
  end.
Proof.
  intros [Hal Hag]. pose proof (alike_encrypts m g t Hal) as Ea. pose proof (Cpp.Encrypt_agrees m t c Hag) as Eb.
  destruct (Ts.encrypt m t) as [[x t']|]; [|done]. destruct Ea as (g' & -> & Hal'), Eb as (c' & -> & Hag'). by exists g', c'.
Qed.

Lemma trio_unseals x g t c : trio g t c →
  match Ts.decrypt x t with
  | Some (m, t') => ∃ g' c', decrypt x g = (inr m, g') ∧ Cpp.Decrypt x c = Some (m, c') ∧ trio g' t' c'
  | None => (∃ e, decrypt x g = (inl e, g)) ∧ Cpp.Decrypt x c = None
  end.
Proof.
  intros [Hal Hag]. pose proof (alike_decrypts x g t Hal) as Ea. pose proof (Cpp.Decrypt_agrees x t c Hag) as Eb.
  destruct (Ts.decrypt x t) as [[m t']|]; [|done]. destruct Ea as (g' & -> & Hal'), Eb as (c' & -> & Hag'). by exists g', c'.
Qed.

(** What each of the two sessions owes to the others. *)
Definition ts_sim (g : noiseSession) (t : Ts.NoiseSession) : Prop := ∃ c, trio g t c.
Definition cpp_sim (g : noiseSession) (c : Cpp.NoiseSession) : Prop := ∃ t, trio g t c.

Lemma ts_initiates seed (i : key_pair) :
  match newInitiatorSession seed (privateKey (`i)) with
  | inr (g, m) => ∃ t, Ts.startAsInitiator (`i) (λ _, seed) = Some (t, m) ∧ ts_sim g t
  | inl _ => Ts.startAsInitiator (`i) (λ _, seed) = None
  end.
Proof.
  pose proof (trio_initiator seed i) as Hi. destruct (newInitiatorSession _ _) as [|[g m]]; [by destruct Hi|].
  destruct Hi as (t & c & Ht & _ & T). exists t. split; [done|by exists c].
Qed.

Lemma cpp_initiates seed (i : key_pair) :
  match newInitiatorSession seed (privateKey (`i)) with
  | inr (g, m) => ∃ c, Cpp.AsInitiator (`i) seed = Some (c, m) ∧ cpp_sim g c
  | inl _ => Cpp.AsInitiator (`i) seed = None
  end.
Proof.
  pose proof (trio_initiator seed i) as Hi. destruct (newInitiatorSession _ _) as [|[g m]]; [by destruct Hi|].
  destruct Hi as (t & c & _ & Hc & T). exists c. split; [done|by exists t].
Qed.

Lemma ts_responds seed (i : key_pair) :
  match newResponderSession seed (privateKey (`i)) with
  | inr g => ∃ t, Some (Ts.startAsResponder (`i) (λ _, seed)) = Some t ∧ ts_sim g t
  | inl _ => Some (Ts.startAsResponder (`i) (λ _, seed)) = None
  end.
Proof. destruct (trio_responder seed i) as (g & -> & T). eexists. split; [done|by eexists]. Qed.

Lemma cpp_responds seed (i : key_pair) :
  match newResponderSession seed (privateKey (`i)) with
  | inr g => ∃ c, Some (Cpp.AsResponder (`i) seed) = Some c ∧ cpp_sim g c
  | inl _ => Some (Cpp.AsResponder (`i) seed) = None
  end.
Proof. destruct (trio_responder seed i) as (g & -> & T). eexists. split; [done|by eexists]. Qed.

Lemma ts_handles d g t rep dn e g' : ts_sim g t → status g = statusHandshaking →
  handleHandshakeMessage d g = ((rep, dn, e), g') → ∃ t', ts_handle d t = ((rep, dn), t') ∧ ts_sim g' t'.
Proof.
  intros [c T] Hg Hh. destruct (trio_handles _ _ _ _ _ _ _ _ T Hg Hh) as (t' & c' & E & Es & _ & T').
  exists t'. unfold ts_handle. rewrite E, Es. split; [done|by exists c'].
Qed.

Lemma cpp_handles d g c rep dn e g' : cpp_sim g c → status g = statusHandshaking →
  handleHandshakeMessage d g = ((rep, dn, e), g') → ∃ c', Cpp.HandleHandshakeMessage d c = ((rep, dn), c') ∧ cpp_sim g' c'.
Proof.
  intros [t T] Hg Hh. destruct (trio_handles _ _ _ _ _ _ _ _ T Hg Hh) as (t' & c' & _ & _ & E & T').
  exists c'. split; [done|by exists t'].
Qed.

Lemma ts_seals m g t : ts_sim g t →
  match Ts.encrypt m t with
  | Some (x, t') => ∃ g', encrypt m g = (inr x, g') ∧ ts_sim g' t'
  | None => ∃ e, encrypt m g = (inl e, g)
  end.
Proof.
  intros [c T]. pose proof (trio_seals m g t c T) as Hs. destruct (Ts.encrypt m t) as [[x t']|]; [|by destruct Hs].
  destruct Hs as (g' & c' & E & _ & T'). exists g'. split; [done|by exists c'].
Qed.

Lemma cpp_seals m g c : cpp_sim g c →
  match Cpp.Encrypt m c with
  | Some (x, c') => ∃ g', encrypt m g = (inr x, g') ∧ cpp_sim g' c'
  | None => ∃ e, encrypt m g = (inl e, g)
  end.
Proof.
  intros [t T]. pose proof (trio_seals m g t c T) as Hs. destruct (Ts.encrypt m t) as [[x t']|]; [|by destruct Hs as [Hs ->]].
  destruct Hs as (g' & c' & E & -> & T'). exists g'. split; [done|by exists t'].
Qed.

Lemma ts_unseals x g t : ts_sim g t →
  match Ts.decrypt x t with
  | Some (m, t') => ∃ g', decrypt x g = (inr m, g') ∧ ts_sim g' t'
  | None => ∃ e, decrypt x g = (inl e, g)
  end.
Proof.
  intros [c T]. pose proof (trio_unseals x g t c T) as Hs. destruct (Ts.decrypt x t) as [[m t']|]; [|by destruct Hs].
  destruct Hs as (g' & c' & E & _ & T'). exists g'. split; [done|by exists c'].
Qed.

Lemma cpp_unseals x g c : cpp_sim g c →
  match Cpp.Decrypt x c with
  | Some (m, c') => ∃ g', decrypt x g = (inr m, g') ∧ cpp_sim g' c'
  | None => ∃ e, decrypt x g = (inl e, g)
  end.
Proof.
  intros [t T]. pose proof (trio_unseals x g t c T) as Hs. destruct (Ts.decrypt x t) as [[m t']|]; [|by destruct Hs as [Hs ->]].
  destruct Hs as (g' & c' & E & -> & T'). exists g'. split; [done|by exists t'].
Qed.

Lemma ts_readies g t : ts_sim g t → Ts.isReady t = ready g.
Proof. intros [c T]. exact (proj1 (trio_ready _ _ _ T)). Qed.
Lemma cpp_readies g c : cpp_sim g c → cpp_is_ready c = ready g.
Proof. intros [t T]. exact (proj2 (trio_ready _ _ _ T)). Qed.
Lemma ts_keys g t : ts_sim g t → status g = statusReady → Ts.s_peerStaticKey t = Some (peerStatic g).
Proof. intros [c T] Hg. exact (proj1 (trio_key _ _ _ T Hg)). Qed.
Lemma cpp_keys g c : cpp_sim g c → status g = statusReady → cpp_static_key c = Some (peerStatic g).
Proof. intros [t T] Hg. exact (proj2 (trio_key _ _ _ T Hg)). Qed.

#[export] Instance typescript_laws : SessionLaws typescript_session := {|
  sim := ts_sim : noiseSession → @session typescript_session → Prop;
  sim_initiator := ts_initiates; sim_responder := ts_responds; sim_handle := ts_handles;
  sim_ready := ts_readies; sim_key := ts_keys; sim_seal := ts_seals; sim_unseal := ts_unseals |}.

#[export] Instance cplusplus_laws : SessionLaws cplusplus_session := {|
  sim := cpp_sim : noiseSession → @session cplusplus_session → Prop;
  sim_initiator := cpp_initiates; sim_responder := cpp_responds; sim_handle := cpp_handles;
  sim_ready := cpp_readies; sim_key := cpp_keys; sim_seal := cpp_seals; sim_unseal := cpp_unseals |}.
End hand_written.

(** ** Interoperation *)

Section linked.
Context `{NoiseLaws}.

Lemma channel_pair m g h x g' : channel g h → channel h g → encrypt m g = (inr x, g') →
  ∃ h', decrypt x h = (inr m, h') ∧ channel g' h' ∧ channel h' g'.
Proof.
  intros C1 C2 E. destruct (channel_step _ _ _ _ _ C1 E) as (h' & Hd & C1' & Es & Er & St1 & St2 & _). exists h'. split_and!; [done..|].
  destruct C2 as (S1 & S2 & k & l & Hk & Hl & Hs). split_and!; [congruence..|]. exists k, l. split_and!; [congruence..|done].
Qed.

(** The Go sessions behind two sessions, with a channel in each direction. *)
Definition linked (A B : Session) `{!SessionLaws A, !SessionLaws B} (s : @session A) (r : @session B) : Prop :=
  ∃ g h, @sim _ A _ g s ∧ @sim _ B _ h r ∧ channel g h ∧ channel h g.

Lemma linked_sym A B `{!SessionLaws A, !SessionLaws B} s r : linked A B s r → linked B A r s.
Proof. intros (g & h & ? & ? & ? & ?). by exists h, g. Qed.

Lemma linked_says A B `{!SessionLaws A, !SessionLaws B} s r m x s' : linked A B s r → @seal A m s = Some (x, s') →
  ∃ r', @unseal B x r = Some (m, r') ∧ linked A B s' r'.
Proof.
  intros (g & h & Sg & Sh & C1 & C2) E. pose proof (sim_seal m g s Sg) as Hs. rewrite E in Hs. destruct Hs as (g' & Eg & Sg').
  destruct (channel_pair _ _ _ _ _ C1 C2 Eg) as (h' & Hd & C1' & C2').
  pose proof (sim_unseal x h r Sh) as Hr. destruct (@unseal B x r) as [[m' r']|]; [|destruct Hr as [e Hr]; congruence].
  destruct Hr as (h'' & Hd' & Sh'). rewrite Hd in Hd'. injection Hd' as <- <-. exists r'. split; [done|]. by exists g', h'.
Qed.
End linked.

Section interop.
Context `{NoiseLaws}.
Context (A B : Session) `{!SessionLaws A, !SessionLaws B}.

(** A conversation: who speaks ([true] for the first session), and what; the texts the other
    one gets, or [None] if a session refuses to encrypt. *)
Fixpoint talk (l : list (bool * bytes)) (s : @session A) (r : @session B) : option (list (option bytes)) :=
  match l with
  | [] => Some []
  | (true, m) :: l =>
      '(x, s) ← @seal A m s;
      match @unseal B x r with
      | Some (m', r) => (Some m' ::.) <$> talk l s r
      | None => (None ::.) <$> talk l s r
      end
  | (false, m) :: l =>
      '(x, r) ← @seal B m r;
      match @unseal A x s with
      | Some (m', s) => (Some m' ::.) <$> talk l s r
      | None => (None ::.) <$> talk l s r
      end
  end.

Lemma linked_talk l s r ms : linked A B s r → talk l s r = Some ms → ms = Some <$> l.*2.
Proof.
  revert s r ms. induction l as [|[w m] l IH]; intros s r ms Hl; cbn [talk]; [by intros [= <-]|]. destruct w.
  - destruct (@seal A m s) as [[x s']|] eqn:E; cbn [mbind option_bind]; [|done].
    destruct (linked_says _ _ _ _ _ _ _ Hl E) as (r' & -> & Hl'). intros (ms' & Et & ->)%fmap_Some. cbn. f_equal. by eapply IH.
  - destruct (@seal B m r) as [[x r']|] eqn:E; cbn [mbind option_bind]; [|done].
    destruct (linked_says _ _ _ _ _ _ _ (linked_sym _ _ _ _ Hl) E) as (s' & -> & Hl'%linked_sym).
    intros (ms' & Et & ->)%fmap_Some. cbn. f_equal. by eapply IH.
Qed.

Lemma answered_no_error d g rep dn e g' m : handleHandshakeMessage d g = ((rep, dn, e), g') → rep = Some m → e = None.
Proof. unfold handleHandshakeMessage. repeat case_match; by intros [= <- <- <- <-]. Qed.

Lemma handshaking_open d g m e g' : session_ok g → status g = statusHandshaking →
  handleHandshakeMessage d g = ((Some m, false, e), g') → status g' = statusHandshaking.
Proof. intros Hok Hs Hh. pose proof (go_turns _ _ _ _ _ _ Hok Hs Hh) as Ht. by inversion Ht. Qed.

(** The three messages of a handshake. *)
Lemma sessions_meet sa sb a b si m1 sr m2 dr sr1 m3 di si1 :
  @as_initiator A sa a = Some (si, m1) → @as_responder B sb b = Some sr →
  @handle B m1 sr = ((Some m2, dr), sr1) → @handle A m2 si = ((Some m3, di), si1) →
  ∃ sr2, dr = false ∧ di = true ∧ @handle B m3 sr1 = ((None, true), sr2) ∧
    @is_ready B sr = false ∧ @is_ready B sr1 = false ∧ @is_ready A si = false ∧ @is_ready A si1 = true ∧ @is_ready B sr2 = true ∧
    @static_key A si1 = Some (ScalarBaseMult (@private_of B b)) ∧ @static_key B sr2 = Some (ScalarBaseMult (@private_of A a)) ∧
    linked A B si1 sr2.
Proof.
  intros Hi Hr E1 E2. pose proof (@sim_initiator _ A _ sa a) as Si. pose proof (@sim_responder _ B _ sb b) as Sr.
  destruct (newInitiatorSession sa (@private_of A a)) as [?|[g m]] eqn:Gi; [congruence|]. destruct Si as (si' & Hi' & Si).
  rewrite Hi in Hi'. injection Hi' as <- <-.
  destruct (newResponderSession sb (@private_of B b)) as [?|h] eqn:Gr; [congruence|]. destruct Sr as (sr' & Hr' & Sr).
  rewrite Hr in Hr'. injection Hr' as <-.
  assert (status g = statusHandshaking) as Hg by (by eapply initiator_handshaking).
  assert (status h = statusHandshaking) as Hh by (by eapply responder_handshaking).
  destruct (handleHandshakeMessage m1 h) as [[[rep1 d1] e1] h1] eqn:G1.
  destruct (sim_handle _ _ _ _ _ _ _ Sr Hh G1) as (sr1' & E1' & Sr1). rewrite E1 in E1'. injection E1' as <- <- <-.
  pose proof (answered_no_error _ _ _ _ _ _ _ G1 eq_refl) as ->.
  destruct (xx_exchange sa sb _ _ g m1 h _ h1 ((handleHandshakeMessage m2 g).1) ((handleHandshakeMessage m2 g).2) Gi Gr G1 eq_refl) as (m2' & Em & X).
  injection Em as <- ->.
  destruct (handleHandshakeMessage m2 g) as [[[rep2 d2] e2] g1] eqn:G2.
  destruct (sim_handle _ _ _ _ _ _ _ Si Hg G2) as (si1' & E2' & Si1). rewrite E2 in E2'. injection E2' as <- <- <-.
  pose proof (answered_no_error _ _ _ _ _ _ _ G2 eq_refl) as ->.
  destruct (X eq_refl eq_refl) as (m3' & h2 & Em & G3 & R1 & R2 & P1 & P2 & ki & kr & li & lr & S1 & S2 & S3 & S4 & Y1 & Y2).
  injection Em as <- ->. cbn [fst snd] in *.
  assert (status h1 = statusHandshaking) as Hh1 by (eapply handshaking_open; [by eapply responder_ok|done..]).
  destruct (sim_handle _ _ _ _ _ _ _ Sr1 Hh1 G3) as (sr2 & E3 & Sr2). exists sr2.
  rewrite !(sim_ready _ _ Si), !(sim_ready _ _ Sr), !(sim_ready _ _ Sr1), !(sim_ready _ _ Si1), !(sim_ready _ _ Sr2). unfold ready.
  rewrite Hg, Hh, Hh1, R1, R2, (sim_key _ _ Si1 R1), (sim_key _ _ Sr2 R2), P1, P2. split_and!; [done..|].
  exists g1, h2. unfold channel. naive_solver.
Qed.

End interop.

(** The first two messages are answered. *)
Definition meets (A B : Session) (sa sb : bytes) (a : @identity A) (b : @identity B) : bool :=
  match @as_initiator A sa a, @as_responder B sb b with
  | Some (si, m1), Some sr =>
      match @handle B m1 sr with
      | ((Some m2, _), _) => match @handle A m2 si with ((Some _, _), _) => true | _ => false end
      | _ => false
      end
  | _, _ => false
  end.

Lemma meets_inv A B sa sb a b : meets A B sa sb a b = true → ∃ si m1 sr m2 dr sr1 m3 di si1,
  @as_initiator A sa a = Some (si, m1) ∧ @as_responder B sb b = Some sr ∧
  @handle B m1 sr = ((Some m2, dr), sr1) ∧ @handle A m2 si = ((Some m3, di), si1).
Proof.
  unfold meets. intros Hm. destruct (@as_initiator A sa a) as [[si m1]|]; [|discriminate Hm].
  destruct (@as_responder B sb b) as [sr|]; [|discriminate Hm].
  destruct (@handle B m1 sr) as [[[m2|] dr] sr1] eqn:E1; [|discriminate Hm].
  destruct (@handle A m2 si) as [[[m3|] di] si1] eqn:E2; [|discriminate Hm].
  exists si, m1, sr, m2, dr, sr1, m3, di, si1. split_and!; [reflexivity..|exact E1|exact E2].
Qed.

Import ToySuite.

#[local] Existing Instance Ts.ts_lib.
#[local] Existing Instance Ts.ts_laws.

(** A Python initiator and a C++ responder. *)
Definition ex_private (c : ascii) : bytes := of_chars (replicate 32 c).
Definition ex_pair (c : ascii) : key_pair.
Proof.
  refine (MkKeyPair (ex_private c) (ex_private c) ↾ _).
  change (toy_public (ex_private c) = Some (ex_private c)). unfold toy_public. by rewrite decide_True.
Defined.

Lemma ex_meets : meets python_session cplusplus_session (ex_private "x") (ex_private "y") (ex_private "a") (ex_pair "b") = true.
Proof. vm_compute. reflexivity. Qed.

