(* ===== verification/TsWire.v ===== *)
(** * Control frames and transport of the TypeScript SDK (src/sdk/ts/src)

    types.ts and transport.ts: what [JSON.parse] and [JSON.stringify] make of control
    frames, the order of strings, and the WebSocket with its reconnections.  A string of
    JavaScript is modelled as its UTF-8 text.

    The theorems: the relay reads every frame the client sends, and the client reads every
    frame the relay sends, whatever the fields are. *)

From S2P Require Import Prelude Json AnyJson Wire Url.
Local Open Scope Z_scope.

(** ** Strings *)

(** The code point of a rune in UTF-8. *)
Definition code_point (r : list ascii) : Z :=
  match byte_val <$> r with
  | [a] => a
  | [a; b] => (a - 192) * 64 + (b - 128)
  | [a; b; c] => (a - 224) * 4096 + (b - 128) * 64 + (c - 128)
  | [a; b; c; d] => (a - 240) * 262144 + (b - 128) * 4096 + (c - 128) * 64 + (d - 128)
  | _ => 65533
  end.

(** The UTF-16 code units of a text. *)
Definition units (cp : Z) : list Z :=
  if cp <? 65536 then [cp] else [55296 + (cp - 65536) / 1024; 56320 + (cp - 65536) mod 1024].

Definition utf16 (s : string) : list Z :=
  mjoin ((λ x, units match x with inl r => code_point r | inr _ => 65533 end) <$> segments (chars s)).

Fixpoint lex_ge (l l' : list Z) : bool :=
  match l, l' with
  | _, [] => true
  | [], _ :: _ => false
  | x :: l, y :: l' => if x =? y then lex_ge l l' else y <? x
  end.

(** [a >= b] on strings. *)
Definition js_ge (a b : string) : bool := lex_ge (utf16 a) (utf16 b).

(** [encodeURIComponent], and the URL the constructor of the client makes with it. *)
Definition uri_char (c : ascii) : list ascii :=
  if is_alnum c || one_of "-_.!~*'()" c then [c]
  else [percent; upper_hex (byte_val c / 16); upper_hex (byte_val c mod 16)].

Definition encodeURIComponent (s : string) : list ascii := mjoin (uri_char <$> chars s).

Definition auth_query (deviceId deviceToken : string) : list ascii :=
  chars "device_id=" ++ encodeURIComponent deviceId ++ chars "&token=" ++ encodeURIComponent deviceToken.

Definition authedUrl (serverUrl deviceId deviceToken : string) : string :=
  serverUrl +:+ of_chars ("?"%char :: auth_query deviceId deviceToken).

(** ** JSON.stringify *)

Definition js_esc (c : ascii) : list ascii :=
  let b := byte_val c in
  if (b =? 34) || (b =? 92) then [backslash; c]
  else if b =? 8 then [backslash; "b"%char]
  else if b =? 12 then [backslash; "f"%char]
  else if b =? 10 then [backslash; "n"%char]
  else if b =? 13 then [backslash; "r"%char]
  else if b =? 9 then [backslash; "t"%char]
  else if b <? 32 then u00 c
  else [c].

Definition js_seg (s : list ascii + ascii) : list ascii :=
  match s with
  | inl [c] => js_esc c
  | inl r => r
  | inr _ => replacement
  end.

Definition js_str (s : string) : list ascii := quote :: mjoin (js_seg <$> segments (chars s)) ++ [quote].

(** An object whose values are strings, as all the frames the client sends are. *)
Definition stringify (l : list (string * string)) : bytes :=
  of_chars ("{"%char :: commas ((λ kv, js_str kv.1 ++ ":"%char :: js_str kv.2) <$> l) ++ ["}"%char]).

(** ** JSON.parse *)

(** A number; [None] is beyond every [float64]. *)
Record number := MkNumber { num_neg : bool; num_mag : option float }.

Definition of_lit (lit : list ascii) : number :=
  let d := lit_decimal lit in MkNumber (d_neg d) (to_float (d_coef d) (d_exp d)).
Definition of_int (z : Z) : number := MkNumber (z <? 0) (to_float (Z.abs z) 0).

#[global] Instance float_eq_dec : EqDecision float.
Proof. solve_decision. Defined.
#[global] Instance number_eq_dec : EqDecision number.
Proof. solve_decision. Defined.

(** [WirePeer] and [WireMessage]; a field that is absent or null is [None]. *)
Record WirePeer := MkWirePeer { wp_id : string; wp_static_key : option string }.

Record WireMessage := MkWireMessage {
  w_type : string;
  protocol_version : option number;
  device_id : option string;
  w_peers : option (list WirePeer);
  static_key : option string;
  w_code : option string;
  expires_in : option number;
  peer_id : option string;
  peer_static_key : option string;
  w_online : option bool;
  w_message : option string
}.

(** A property of a parsed object: the last of several equal keys. *)
Definition property (k : string) (l : list (string * json)) : option json :=
  snd <$> last (filter (λ kv, kv.1 = k) l).

(** A property read at its declared type; [None] if it has another. *)
Definition read {A} (dec : json → option A) (k : string) (l : list (string * json)) : option (option A) :=
  match property k l with
  | None | Some JNull => Some None
  | Some j => Some <$> dec j
  end.

Definition as_str (j : json) : option string := match j with JStr s => Some s | _ => None end.
Definition as_num (j : json) : option number := match j with JNum lit => Some (of_lit lit) | _ => None end.
Definition as_bool (j : json) : option bool := match j with JBool b => Some b | _ => None end.

Definition as_peer (j : json) : option WirePeer :=
  match j with
  | JObj l => id ← read as_str "id" l; k ← read as_str "static_key" l; id ← id; Some (MkWirePeer id k)
  | _ => None
  end.

Definition as_peers (j : json) : option (list WirePeer) :=
  match j with JArr l => mapM as_peer l | _ => None end.

Definition as_message (type : string) (l : list (string * json)) : option WireMessage :=
  pv ← read as_num "protocol_version" l;
  di ← read as_str "device_id" l;
  ps ← read as_peers "peers" l;
  sk ← read as_str "static_key" l;
  co ← read as_str "code" l;
  ex ← read as_num "expires_in" l;
  pi ← read as_str "peer_id" l;
  pk ← read as_str "peer_static_key" l;
  on ← read as_bool "online" l;
  me ← read as_str "message" l;
  Some (MkWireMessage type pv di ps sk co ex pi pk on me).

(** What [JSON.parse(raw) as WireMessage] gives the handler. *)
Inductive reading :=
  | Malformed                  (* [JSON.parse] throws, and is caught *)
  | NullFrame                  (* [frame.type] throws, and is not *)
  | NoType                     (* [frame.type] is not a string *)
  | Untyped (type : string)    (* a field is not of the type that is declared for it *)
  | Frame (w : WireMessage).

Definition parse_frame (raw : bytes) : reading :=
  match Parse raw with
  | None => Malformed
  | Some JNull => NullFrame
  | Some (JObj l) =>
      match property "type" l with
      | Some (JStr t) => match as_message t l with Some w => Frame w | None => Untyped t end
      | _ => NoType
      end
  | Some _ => NoType
  end.

(** ** The transport (transport.ts) *)

Definition DEFAULT_RECONNECT_DELAY_MS : Z := 1000.
Definition DEFAULT_MAX_RECONNECT_DELAY_MS : Z := 60000.

Inductive readyState := CONNECTING | OPEN | CLOSING | CLOSED.
#[global] Instance readyState_eq_dec : EqDecision readyState.
Proof. solve_decision. Defined.

(** [sockets] are the WebSockets made so far and [ws] the one in use; [armed] the timeouts
    that run, with their delays. *)
Record Transport := MkTransport {
  reconnectDelayMs : Z;
  maxReconnectDelayMs : Z;
  sockets : list readyState;
  ws : option nat;
  armed : list (nat * Z);
  reconnectTimer : option nat;
  timers : nat;
  reconnectAttempt : Z;
  currentDelay : Z;
  t_closed : bool
}.

Definition newTransport (delay maxDelay : Z) : Transport :=
  MkTransport delay maxDelay [] None [] None 0 0 delay false.

Definition t_connect (t : Transport) : Transport :=
  if t_closed t then t
  else MkTransport (reconnectDelayMs t) (maxReconnectDelayMs t) (sockets t ++ [CONNECTING])
         (Some (length (sockets t))) (armed t) (reconnectTimer t) (timers t) (reconnectAttempt t)
         (currentDelay t) false.

Definition with_socket (n : nat) (s : readyState) (t : Transport) : Transport :=
  MkTransport (reconnectDelayMs t) (maxReconnectDelayMs t) (<[n := s]> (sockets t)) (ws t) (armed t)
    (reconnectTimer t) (timers t) (reconnectAttempt t) (currentDelay t) (t_closed t).

(** The [open] event of socket [n]. *)
Definition t_open (n : nat) (t : Transport) : Transport :=
  let t := with_socket n OPEN t in
  MkTransport (reconnectDelayMs t) (maxReconnectDelayMs t) (sockets t) (ws t) (armed t) (reconnectTimer t)
    (timers t) 0 (reconnectDelayMs t) (t_closed t).

(** The attempt that is announced, if one is scheduled. *)
Definition scheduleReconnect (t : Transport) : option Z * Transport :=
  if t_closed t || (reconnectDelayMs t =? 0) then (None, t)
  else
    let attempt := reconnectAttempt t + 1 in
    (Some attempt,
     MkTransport (reconnectDelayMs t) (maxReconnectDelayMs t) (sockets t) (ws t)
       (armed t ++ [(timers t, currentDelay t)]) (Some (timers t)) (S (timers t)) attempt (currentDelay t)
       (t_closed t)).

(** A timeout fires. *)
Definition t_timeout (k : nat) (t : Transport) : Transport :=
  if decide (k ∈ (armed t).*1) then
    t_connect (MkTransport (reconnectDelayMs t) (maxReconnectDelayMs t) (sockets t) (ws t)
      (filter (λ x, x.1 ≠ k) (armed t)) (reconnectTimer t) (timers t) (reconnectAttempt t)
      (Z.min (currentDelay t * 2) (maxReconnectDelayMs t)) (t_closed t))
  else t.

Definition isConnected (t : Transport) : bool :=
  match ws t with Some n => bool_decide (sockets t !! n = Some OPEN) | None => false end.

Definition t_close (t : Transport) : Transport :=
  let sockets := match ws t with
                 | Some n => if decide (sockets t !! n = Some CLOSED) then sockets t else <[n := CLOSING]> (sockets t)
                 | None => sockets t
                 end in
  let armed := match reconnectTimer t with Some k => filter (λ x, x.1 ≠ k) (armed t) | None => armed t end in
  MkTransport (reconnectDelayMs t) (maxReconnectDelayMs t) sockets None armed None (timers t)
    (reconnectAttempt t) (currentDelay t) true.

(** ** What the client sends is what the relay reads *)

Lemma parse_js_esc f c rest :
  byte_val c < 128 → parse_body (S f) (js_esc c ++ rest) = prepend [c] (parse_body f rest).
Proof.
  revert c. apply (ascii_forall (λ c, byte_val c < 128 →
    parse_body (S f) (js_esc c ++ rest) = prepend [c] (parse_body f rest))).
  intros [] [] [] [] [] [] [] [] Hc; first [exfalso; vm_compute in Hc; discriminate|reflexivity].
Qed.

(** A rune of several bytes is read as it stands. *)
Lemma parse_rune f c c2 r rest : seg_ok (inl (c :: c2 :: r)) →
  parse_body (S f) ((c :: c2 :: r) ++ rest) = prepend (c :: c2 :: r) (parse_body f rest).
Proof.
  intros Hr. assert (128 ≤ byte_val c) as Hc.
  { simpl in Hr. destruct (byte_val c <? 128) eqn:E; [simplify_eq|lia]. }
  pose proof (rune_len_prefix _ _ rest Hr) as Hp. rewrite firstn_all in Hp.
  cbn [app parse_body].
  destruct (Z.eqb_spec (byte_val c) 34); [lia|]. destruct (Z.eqb_spec (byte_val c) 92); [lia|].
  destruct (Z.ltb_spec (byte_val c) 32); [lia|].
  change (c :: c2 :: r ++ rest) with ((c :: c2 :: r) ++ rest).
  rewrite Hp. by rewrite take_app_length, drop_app_length.
Qed.

Lemma parse_js_seg f s rest :
  seg_ok s → parse_body (S f) (js_seg s ++ rest) = prepend (san_seg s) (parse_body f rest).
Proof.
  destruct s as [[|c [|c2 r]]|c]; [done| | |reflexivity]; intros Hr.
  - apply parse_js_esc. simpl in Hr. destruct (byte_val c <? 128) eqn:E; [lia|]. repeat case_match; done.
  - by apply parse_rune.
Qed.

Lemma js_seg_nonempty s : seg_ok s → (1 ≤ length (js_seg s))%nat.
Proof.
  destruct s as [[|c [|c2 r]]|c]; [done|..]; intros _; unfold js_seg, js_esc, u00, replacement;
    repeat case_match; cbn [length]; lia.
Qed.

Lemma parse_js_str s rest : parse_str (js_str s ++ rest) = Some (sanitize s, rest).
Proof. exact (parse_quoted js_seg parse_js_seg js_seg_nonempty s rest). Qed.

Lemma parse_js_value f d s rest : (1 ≤ f)%nat → parse_value f d (js_str s ++ rest) = Some (JStr (sanitize s), rest).
Proof.
  destruct f as [|f]; [lia|]. intros _. pose proof (parse_js_str s rest) as Hp. cbn [parse_value]. unfold js_str in *. cbn [app] in *. simpl in *. by rewrite Hp.
Qed.

Definition strings (l : list (string * string)) : list (string * json) :=
  (λ kv, (sanitize kv.1, JStr (sanitize kv.2))) <$> l.

Lemma parse_js_members l f d rest : l ≠ [] → (S (length l) ≤ f)%nat →
  parse_members f d (commas ((λ kv, js_str kv.1 ++ ":"%char :: js_str kv.2) <$> l) ++ "}"%char :: rest) =
  Some (strings l, rest).
Proof.
  revert f. induction l as [|[k s] l IH]; intros f Hne Hf; [done|]. clear Hne.
  cbn [length] in Hf. destruct f as [|f]; [lia|]. cbn [parse_members].
  assert (∀ r, skip_ws (js_str k ++ r) = js_str k ++ r) as Hk by (intros r; done).
  assert (∀ r, skip_ws (":"%char :: r) = ":"%char :: r) as Hc by (intros r; done).
  destruct l as [|y l].
  - cbn [fmap list_fmap commas fst snd]. rewrite <- app_assoc, Hk, parse_js_str. cbn [mbind option_bind app].
    by rewrite Hc, parse_js_value by lia.
  - rewrite !fmap_cons, commas_cons, <- !app_assoc. cbn [fst snd]. rewrite Hk, parse_js_str.
    cbn [mbind option_bind app]. rewrite Hc, parse_js_value by lia. cbn [mbind option_bind].
    rewrite skip_ws_delim by by left. specialize (IH f ltac:(done) ltac:(cbn [length] in *; lia)).
    rewrite fmap_cons in IH. by rewrite IH.
Qed.

Lemma Parse_stringify l : l ≠ [] → Parse (stringify l) = Some (JObj (strings l)).
Proof.
  intros Hne. unfold Parse, stringify. rewrite chars_of_chars.
  assert (∃ r, commas ((λ kv, js_str kv.1 ++ ":"%char :: js_str kv.2) <$> l) = "034"%char :: r) as [r E]
    by (destruct l as [|? []]; [done|by eexists..]).
  assert (∀ l : list (string * string),
    (S (length l) ≤ S (length (commas ((λ kv, js_str kv.1 ++ ":"%char :: js_str kv.2) <$> l))))%nat) as Hlen.
  { clear. induction l as [|x [|y l] IH]; [done|cbn; lia|]. rewrite !fmap_cons, commas_cons.
    rewrite length_app. rewrite fmap_cons in IH. cbn [length] in *. lia. }
  specialize (Hlen l). cbn [length app].
  rewrite length_app. set (n := length (commas _)) in *. pose proof (λ f, parse_js_members l f (0 + 1) [] Hne) as Hp.
  rewrite E in *. cbn [app] in *. rewrite parse_value_obj by done. rewrite Hp by (cbn [length]; lia). done.
Qed.

(** The frames the client sends, as the relay decodes them. *)
Lemma relay_reads t k v :
  Unmarshal (stringify [("type", t)]) = Some (message (sanitize t)) ∧
  Unmarshal (stringify [("type", t); ("code", v)]) =
    Some (ControlMessage (sanitize t) 0 "" [] "" (sanitize v) 0 "" "" None "") ∧
  Unmarshal (stringify [("type", t); ("static_key", k)]) =
    Some (ControlMessage (sanitize t) 0 "" [] (sanitize k) "" 0 "" "" None "").
Proof. unfold Unmarshal. rewrite !Parse_stringify by done. done. Qed.

(** ** What the relay sends is what the client reads *)

Definition present (s : string) : option string := if decide (s = "") then None else Some s.
Definition present_int (z : Z) : option number := if decide (z = 0) then None else Some (of_int z).

(** A message of the relay as the client sees it: fields Go omits are undefined. *)
Definition wire_of (m : controlMessage) : WireMessage :=
  MkWireMessage (cm_Type m) (present_int (cm_ProtocolVersion m)) (present (cm_DeviceID m))
    match cm_Peers m with [] => None | l => Some ((λ p, MkWirePeer (pi_ID p) (Some (pi_StaticKey p))) <$> l) end
    (present (cm_StaticKey m)) (present (cm_Code m)) (present_int (cm_ExpiresIn m)) (present (cm_PeerID m))
    (present (cm_PeerStaticKey m)) (cm_Online m) (present (cm_Message m)).

Lemma of_lit_int z : of_lit (int_lit z) = of_int z.
Proof.
  unfold of_lit, of_int. rewrite lit_decimal_int. cbn [d_neg d_coef d_exp]. f_equal.
  destruct (Z.ltb_spec z 0); [by rewrite bool_decide_true|by rewrite bool_decide_false by lia].
Qed.

Lemma property_app k l l' : property k (l ++ l') = match property k l' with Some j => Some j | None => property k l end.
Proof.
  unfold property. rewrite filter_app, last_app. by destruct (last (filter _ l')).
Qed.

Lemma property_str k k' s : property k (san_fields (omit_str k' s)) =
  if decide (sanitize k' = k) then (λ x, JStr (sanitize x)) <$> present s else None.
Proof.
  unfold property, omit_str, present, san_fields. case_decide; cbn [fmap list_fmap filter list_filter fst snd]; by case_decide.
Qed.

Lemma property_int k k' z : property k (san_fields (omit_int k' z)) =
  if decide (sanitize k' = k) then if decide (z = 0) then None else Some (JNum (int_lit z)) else None.
Proof.
  unfold property, omit_int, san_fields. case_decide; cbn [fmap list_fmap filter list_filter fst snd]; by case_decide.
Qed.

Lemma property_bool k k' b : property k (san_fields (omit_bool k' b)) =
  if decide (sanitize k' = k) then JBool <$> b else None.
Proof. unfold property, omit_bool, san_fields. destruct b; cbn [fmap list_fmap filter list_filter fst snd]; by case_decide. Qed.

Lemma property_peers k k' l : property k (san_fields (omit_peers k' l)) =
  if decide (sanitize k' = k) then
    match l with [] => None | _ => Some (JArr (jsan <$> (peer_json <$> l))) end
  else None.
Proof. unfold property, omit_peers, san_fields. destruct l; cbn [fmap list_fmap filter list_filter fst snd]; by case_decide. Qed.

Lemma sanitize_empty s : sanitize s = "" → s = "".
Proof.
  unfold sanitize, sanitize_chars, segments. intros E%(f_equal chars). rewrite chars_of_chars in E.
  destruct s as [|c s]; [done|]. exfalso. revert E. cbn [chars String.list_ascii_of_string length segs].
  destruct (rune_len _) as [n|] eqn:En; rewrite fmap_cons, mjoin_cons; [|done].
  apply rune_len_bounds in En. destruct n; [lia|]. done.
Qed.

Lemma sanitize_present s : (λ x, JStr (sanitize x)) <$> present s = JStr <$> present (sanitize s).
Proof.
  unfold present. case_decide as E; [by subst s|]. rewrite decide_False; [done|]. intros E'. by apply E, sanitize_empty.
Qed.

Lemma property_one k k' j : property k (san_fields [(k', j)]) = if decide (sanitize k' = k) then Some (jsan j) else None.
Proof. unfold property, san_fields. cbn [fmap list_fmap filter list_filter fst snd]. by case_decide. Qed.

Lemma read_peers l : mapM as_peer (jsan <$> (peer_json <$> l)) =
  Some ((λ p, MkWirePeer (pi_ID p) (Some (pi_StaticKey p))) <$> (sanitize_peer <$> l)).
Proof. induction l as [|p l IH]; [done|]. cbn [fmap list_fmap mapM] in *. by rewrite IH. Qed.

Ltac decide_keys :=
  repeat match goal with
  | |- context [decide (sanitize ?a = ?b)] =>
      first [rewrite (decide_True (P := sanitize a = b)) by reflexivity
            |rewrite (decide_False (P := sanitize a = b)) by (vm_compute; discriminate)]
  end.

Ltac one_property :=
  unfold message_fields, san_fields; rewrite !fmap_app, !property_app, property_one, !property_str, !property_int,
    property_bool, property_peers, !sanitize_present; decide_keys; cbv iota beta.

Lemma read_type m : property "type" (san_fields (message_fields m)) = Some (JStr (sanitize (cm_Type m))).
Proof. by one_property. Qed.

Section read_field.
Context (m : controlMessage).
Local Abbreviation fields := (san_fields (message_fields m)).

Lemma read_int k z : property k fields = (if decide (z = 0) then None else Some (JNum (int_lit z))) →
  read as_num k fields = Some (present_int z).
Proof. unfold read, present_int. intros ->. case_decide; [done|]. cbn. by rewrite of_lit_int. Qed.

Lemma read_str k s : property k fields = JStr <$> present s → read as_str k fields = Some (present s).
Proof. unfold read. intros ->. by destruct (present s). Qed.

Lemma read_bool k b : property k fields = JBool <$> b → read as_bool k fields = Some b.
Proof. unfold read. intros ->. by destruct b. Qed.

Lemma read_list k l : property k fields = match l with [] => None | _ => Some (JArr (jsan <$> (peer_json <$> l))) end →
  read as_peers k fields = Some match sanitize_peer <$> l with
    | [] => None | l => Some ((λ p, MkWirePeer (pi_ID p) (Some (pi_StaticKey p))) <$> l) end.
Proof. unfold read. intros ->. destruct l as [|p l]; [done|]. cbn [as_peers]. by rewrite read_peers. Qed.

Lemma message_read : as_message (sanitize (cm_Type m)) fields = Some (wire_of (sanitize_message m)).
Proof.
  unfold as_message.
  rewrite (read_int "protocol_version" (cm_ProtocolVersion m)), (read_str "device_id" (sanitize (cm_DeviceID m))), (read_list _ (cm_Peers m)),
    (read_str "static_key" (sanitize (cm_StaticKey m))), (read_str "code" (sanitize (cm_Code m))), (read_int "expires_in" (cm_ExpiresIn m)),
    (read_str "peer_id" (sanitize (cm_PeerID m))), (read_str "peer_static_key" (sanitize (cm_PeerStaticKey m))),
    (read_bool _ (cm_Online m)), (read_str "message" (sanitize (cm_Message m))); [done|one_property..].
  all: match goal with |- _ = ?r => by destruct r end.
Qed.
End read_field.

(** Whatever the relay sends, the client reads it as a frame with the same fields. *)
Theorem client_reads m : parse_frame (Marshal m) = Frame (wire_of (sanitize_message m)).
Proof.
  unfold parse_frame, Marshal. rewrite Parse_print by (apply int_json_message || apply jdepth_message).
  cbn [jsan]. fold (san_fields (message_fields m)). by rewrite read_type, message_read.
Qed.

(** ** The order of device IDs *)

Lemma utf16_ascii s : Forall (λ c, byte_val c < 128) (chars s) → utf16 s = byte_val <$> chars s.
Proof.
  unfold utf16, segments. generalize (chars s). intros l Hl.
  assert (∀ n, (length l ≤ n)%nat → mjoin ((λ x, units match x with inl r => code_point r | inr _ => 65533 end) <$> segs n l)
    = byte_val <$> l) as Hn; [|by apply Hn].
  induction Hl as [|c l Hc Hl IH]; intros [|n] Hn; cbn [length] in Hn; [done|done|lia|].
  cbn [segs rune_len]. rewrite (proj2 (Z.ltb_lt _ _) Hc). cbn [take drop].
  rewrite !fmap_cons, mjoin_cons, IH by lia. change (code_point (c :: take 0 l)) with (byte_val c). unfold units.
  by rewrite (proj2 (Z.ltb_lt (byte_val c) 65536)) by lia.
Qed.

(** One of two different device IDs is the greater one. *)
Lemma lex_ge_total l l' : l ≠ l' → lex_ge l l' = negb (lex_ge l' l).
Proof.
  revert l'. induction l as [|x l IH]; intros [|y l'] Hne; [done..|]. cbn [lex_ge].
  rewrite (Z.eqb_sym y x). destruct (Z.eqb_spec x y) as [->|]; [apply IH; congruence|].
  destruct (Z.ltb_spec y x), (Z.ltb_spec x y); first [done|exfalso; lia].
Qed.

(** The order is Go's on ASCII strings, which device IDs are. *)
Lemma js_ge_ascii a b : Forall (λ c, byte_val c < 128) (chars a) → Forall (λ c, byte_val c < 128) (chars b) →
  js_ge a b = negb (String.ltb a b).
Proof.
  intros Ha Hb. unfold js_ge. rewrite !utf16_ascii by done. clear Ha Hb. revert b.
  induction a as [|c a IH]; intros [|d b]; [done..|]. cbn [chars String.list_ascii_of_string fmap list_fmap lex_ge].
  unfold String.ltb. cbn [String.compare]. unfold Ascii.compare.
  fold (chars a). fold (chars b). fold (byte_val <$> chars a). fold (byte_val <$> chars b).
  destruct (N.compare_spec (N_of_ascii c) (N_of_ascii d)) as [E|E|E]; unfold byte_val at 1 2.
  - rewrite E, Z.eqb_refl, IH. done.
  - rewrite (proj2 (Z.eqb_neq _ _)) by lia. unfold byte_val. by rewrite (proj2 (Z.ltb_ge _ _)) by lia.
  - rewrite (proj2 (Z.eqb_neq _ _)) by lia. unfold byte_val. by rewrite (proj2 (Z.ltb_lt _ _)) by lia.
Qed.

(** ** The URL of the socket *)

Lemma unescape_uri_char c rest :
  Url.unescape encodeQueryComponent (uri_char c ++ rest) = (c ::.) <$> Url.unescape encodeQueryComponent rest.
Proof.
  revert c. apply (ascii_forall (λ c, Url.unescape encodeQueryComponent (uri_char c ++ rest) = (c ::.) <$> Url.unescape encodeQueryComponent rest)).
  intros [] [] [] [] [] [] [] []; reflexivity.
Qed.

Lemma QueryUnescape_uri s : QueryUnescape (encodeURIComponent s) = Some s.
Proof.
  unfold QueryUnescape, encodeURIComponent. rewrite <- (of_chars_chars s) at 2.
  assert (∀ l, Url.unescape encodeQueryComponent (mjoin (uri_char <$> l)) = Some l) as ->; [|done].
  induction l as [|c l IH]; [done|]. rewrite fmap_cons, mjoin_cons, unescape_uri_char, IH. done.
Qed.

Lemma uri_char_free c : forallb sep_free (uri_char c) = true.
Proof. destruct c as [[] [] [] [] [] [] [] []]; reflexivity. Qed.

Lemma uri_free c s : sep_free c = false → c ∉ encodeURIComponent s.
Proof.
  intros Hc Hin. unfold encodeURIComponent in Hin. apply list_elem_of_join in Hin as (x & Hx & Hin).
  apply list_elem_of_fmap in Hin as (d & -> & _). pose proof (proj1 (forallb_forall _ _) (uri_char_free d) c) as Hf.
  rewrite Hf in Hc; [done|]. by apply list_elem_of_In.
Qed.

(** A character is not among those of a constant. *)
Ltac not_in H := cbn in H; repeat (apply elem_of_cons in H as [H|H]; [discriminate H|]); by apply not_elem_of_nil in H.

Lemma uri_pair k s : k ∈ ["device_id"; "token"] → query_pair (chars k ++ "="%char :: encodeURIComponent s) = Some (k, s).
Proof.
  intros Hk. assert (("="%char ∉ chars k) ∧ (";"%char ∉ chars k) ∧ QueryUnescape (chars k) = Some k) as (H1 & H2 & H3).
  { apply elem_of_cons in Hk as [->|Hk]; [|apply list_elem_of_singleton in Hk as ->];
      (split_and!; [intros Hx; not_in Hx..|reflexivity]). }
  unfold query_pair. rewrite decide_False.
  - rewrite Cut_app by done. by rewrite H3, QueryUnescape_uri.
  - intros [Hn|Hs]; [by apply app_eq_nil in Hn as [_ ?]|].
    apply elem_of_app in Hs as [Hs|[Hs|Hs]%elem_of_cons]; [done..|]. by apply uri_free in Hs.
Qed.

(** The credentials of the client reach the relay whatever their bytes. *)
Lemma auth_query_read deviceId deviceToken :
  let q := ParseQuery (auth_query deviceId deviceToken) in Get q "device_id" = deviceId ∧ Get q "token" = deviceToken.
Proof.
  unfold ParseQuery, auth_query.
  change (chars "device_id=" ++ ?x) with (chars "device_id" ++ "="%char :: x).
  change (chars "&token=" ++ ?x) with ("&"%char :: (chars "token" ++ "="%char :: x)).
  rewrite app_comm_cons, app_assoc, Split_app, Split_one.
  - cbn [omap list_omap]. rewrite !uri_pair by set_solver. cbn [foldl Add fst snd].
    split; reflexivity.
  - intros [Hin|[Hin|Hin]%elem_of_cons]%elem_of_app; [not_in Hin|done|by apply uri_free in Hin].
  - intros [Hin|[Hin|Hin]%elem_of_cons]%elem_of_app; [not_in Hin|done|by apply uri_free in Hin].
Qed.

(** ** Reconnecting *)

(** The delays: the first is the one that was asked for, each further one is doubled up to
    the greatest. *)
Definition delays_ok (t : Transport) : Prop :=
  0 ≤ reconnectDelayMs t ≤ maxReconnectDelayMs t ∧ reconnectDelayMs t ≤ currentDelay t ≤ maxReconnectDelayMs t ∧
  Forall (λ x, reconnectDelayMs t ≤ x.2 ≤ maxReconnectDelayMs t) (armed t).

Inductive tstep : Transport → Transport → Prop :=
  | step_connect t : tstep t (t_connect t)
  | step_open n t : tstep t (t_open n t)
  | step_close n t : tstep t (scheduleReconnect (with_socket n CLOSED t)).2
  | step_timeout k t : tstep t (t_timeout k t)
  | step_end t : tstep t (t_close t).

Lemma Forall_kept {A} (P Q : A → Prop) `{∀ x, Decision (Q x)} l : Forall P l → Forall P (filter Q l).
Proof. rewrite !Forall_forall. intros Hl x [_ Hx]%list_elem_of_filter. by apply Hl. Qed.

Lemma delays_kept t t' : delays_ok t → tstep t t' → delays_ok t'.
Proof.
  intros (H0 & Hc & Ha) Hs.
  destruct Hs as [t|n t|n t|k t|t]; unfold t_connect, t_open, scheduleReconnect, t_timeout, t_close, delays_ok in *.
  - case_match; done.
  - cbn in *. split_and!; [lia..|done].
  - case_match; [done|]. cbn in *. split_and!; [lia..|]. apply Forall_app. split; [done|]. repeat constructor; cbn; lia.
  - case_decide; [|done]. unfold t_connect. cbn. case_match; cbn; split_and!; try lia; by apply Forall_kept.
  - cbn. split_and!; [lia..|]. case_match; [by apply Forall_kept|done].
Qed.

(** A transport that is closed makes no socket any more. *)
Lemma closed_is_final t t' : t_closed t = true → tstep t t' →
  t_closed t' = true ∧ length (sockets t') = length (sockets t) ∧ (ws t = None → ws t' = None).
Proof.
  intros Hc Hs. destruct Hs as [u|n u|n u|k u|u]; unfold t_connect, t_open, scheduleReconnect, t_timeout, t_close, with_socket; cbn;
    rewrite ?Hc; cbn; rewrite ?length_insert; try done.
  - case_decide; [|done]. unfold t_connect. cbn. by rewrite ?Hc.
  - split_and!; [done| |done]. case_match; [|done]. case_decide; [done|]. by rewrite length_insert.
Qed.

