(* ===== verification/TsClient.v ===== *)
(** * The client of the TypeScript SDK (src/sdk/ts/src)

    errors.ts, peerStore.ts, peer.ts and client.ts, method by method, over the sessions of
    [TsNoise] and the frames and transport of [TsWire].

    Objects that the code shares are in a heap: a [PeerConnection] can still be reached by a
    resolution that waits for the peer store after it has left the map of connections, and a
    [NoiseSession] by a connection and by a resolution.  A method runs in [M], which threads
    the client and stops at a throw, keeping what was done before it.  A promise is a number;
    [settled] has what each was settled with.  [step] is one turn of the event loop: an event
    of a socket, a timer, a call of the public API or the rest of [resolveHandshake] after
    its [await], which may come at any later time. *)

From S2P Require Import Prelude Json AnyJson Wire Blake2s Suite Keys TsNoise TsWire.
Local Open Scope Z_scope.

(** ** errors.ts *)

(** An instance of [RelaylyClientError], or of [Error] only. *)
Inductive tserr := ClientError (code message : string) | PlainError (message : string).

Definition errorForCode (code message : string) : tserr :=
  if decide (code ∈ ["invalid_code"; "code_expired"; "already_paired"; "peer_offline"; "rate_limited"; "malformed";
                     "key_mismatch"])
  then ClientError code message
  else ClientError "internal" (if decide (message = "") then code else message).

Definition KeyMismatchError (message : string) : tserr := ClientError "key_mismatch" message.
Definition NotReadyError (peerId : string) : tserr :=
  ClientError "not_ready" ("relayly: peer " +:+ peerId +:+ "'s session is not ready").
Definition PeerKeyMismatchError (peerId : string) : tserr :=
  ClientError "peer_key_mismatch"
    ("relayly: peer " +:+ peerId +:+ "'s authenticated key does not match the pinned key").

Definition err_message (e : tserr) : string := match e with ClientError _ m | PlainError m => m end.

(** ** peerStore.ts *)

Record PinnedPeer := MkPinned { staticKey : string; pinnedAt : Z }.

(** [InMemoryPeerKeyStore]; the error, if it throws. *)
Definition pinOrVerify (now : Z) (peerId staticKeyBase64 : string) (pins : gmap string PinnedPeer)
    : option tserr * gmap string PinnedPeer :=
  match pins !! peerId with
  | Some existing =>
      (if decide (staticKey existing = staticKeyBase64) then None else Some (PeerKeyMismatchError peerId), pins)
  | None => (None, <[peerId := MkPinned staticKeyBase64 now]> pins)
  end.

(** ** The emitter *)

(** What the client tells its listeners. *)
Inductive tsevent :=
  | Connected
  | Disconnected (reason : string)
  | Reconnecting (attempt : Z)
  | MessageEvent (from : string) (rawPayload : bytes)
  | Paired (id : string) (publicKey : bytes)
  | ReadyEvent (id : string)
  | Unpaired (id : option string)
  | PeerStatus (id : string) (online : bool)
  | ErrorEvent (code message : string).

Inductive EventKey :=
  | on_connected | on_disconnected | on_reconnecting | on_message | on_paired | on_ready | on_unpaired | on_peerStatus
  | on_error.
#[global] Instance EventKey_eq_dec : EqDecision EventKey.
Proof. solve_decision. Defined.

Definition key_of (e : tsevent) : EventKey :=
  match e with
  | Connected => on_connected | Disconnected _ => on_disconnected | Reconnecting _ => on_reconnecting
  | MessageEvent _ _ => on_message | Paired _ _ => on_paired | ReadyEvent _ => on_ready | Unpaired _ => on_unpaired
  | PeerStatus _ _ => on_peerStatus | ErrorEvent _ _ => on_error
  end.

(** A function, by its identity; [l_once] is one that [once] wrapped, [l_promise] the promise
    that it settles if it is one of [waitForPairing]. *)
Record listener := MkListener { l_id : nat; l_once : bool; l_promise : option nat }.

(** [arr.indexOf(listener)] and [arr.splice(idx, 1)]. *)
Definition off (id : nat) (arr : list listener) : list listener :=
  match list_find (λ l, l_id l = id) arr with
  | Some (idx, _) => delete idx arr
  | None => arr
  end.

(** [arr.forEach]: [n] positions are left from position [i] on of an array that the calls
    change. *)
Fixpoint forEach (n i : nat) (arr : list listener) : list listener * list listener :=
  match n with
  | O => ([], arr)
  | S n =>
      match arr !! i with
      | None => forEach n (S i) arr
      | Some l =>
          let '(called, arr) := forEach n (S i) (if l_once l then off (l_id l) arr else arr) in
          (l :: called, arr)
      end
  end.

(** The listeners that are called, in order, and those that remain. *)
Definition emit_to (arr : list listener) : list listener * list listener := forEach (length arr) 0 arr.

(** ** Maps and strings *)

(** [get], [set] and [delete] of a Map. *)
Definition map_get {A} (k : string) (l : list (string * A)) : option A :=
  (λ x, x.2.2) <$> list_find (λ kv, kv.1 = k) l.

Fixpoint map_set {A} (k : string) (v : A) (l : list (string * A)) : list (string * A) :=
  match l with
  | [] => [(k, v)]
  | (k', v') :: l => if decide (k' = k) then (k, v) :: l else (k', v') :: map_set k v l
  end.

Definition map_delete {A} (k : string) (l : list (string * A)) : list (string * A) := filter (λ kv, kv.1 ≠ k) l.

(** A string that counts as true. *)
Definition truthy (s : option string) : option string := s ← s; if decide (s = "") then None else Some s.

Definition starts (p s : string) : bool := String.prefix p s.

(** [s.replace(/^p/, q)]. *)
Definition replace_start (p q s : string) : string :=
  if starts p s then q +:+ of_chars (drop (slen p) (chars s)) else s.

Definition normalizeUrl (url : string) : string :=
  if starts "http://" url then replace_start "http://" "ws://" url
  else if starts "https://" url then replace_start "https://" "wss://" url
  else url.

(** [url] is the text of [new URL(base)] with path [/pair] and the code as its parameter. *)
Definition buildQrUrl (url : string → string → option string) (serverUrl code : string) : string :=
  match url (replace_start "ws" "https" serverUrl) code with
  | Some u => replace_start "https" (if starts "wss" serverUrl then "wss" else "ws") u
  | None => serverUrl +:+ "/pair?code=" +:+ code
  end.

(** ** The objects *)

Definition cref := nat.
Definition sref := nat.
Definition promise := nat.

Record PairWaiter := MkWaiter { pw_peerId : string; pw_promise : promise }.

Record PeerConnection := MkPeer {
  pc_id : string;
  announcedStaticKey : string;
  active : option sref;
  pending : option sref;
  lastUnsolicitedMsg1 : Z;
  firstPairWaiter : option PairWaiter
}.

Definition newPeerConnection (id announced : string) : PeerConnection := MkPeer id announced None None 0 None.

Record PairCode := MkPairCode { shortCode : string; expiresIn : number; qrCodeUrl : string }.

Inductive answer := Done | GotCode (code : PairCode) | GotPeer (id : string) (publicKey : bytes).

(** [resolveHandshake] at its [await]: what it was called with, the key of the session, and
    what the store will answer. *)
Record resolution := MkResolution {
  r_peer : cref;
  r_session : sref;
  r_wasPending : bool;
  r_key : bytes;
  r_answer : option tserr
}.

(** The events of the outside that a turn depends on: the clock in milliseconds, random
    bytes, and what [URL] makes of a base with path [/pair] and a code as its parameter. *)
Record input := MkInput { in_now : Z; in_random : nat → bytes; in_url : string → string → option string }.

(** What goes out, with the socket it goes to. *)
Inductive outgoing := OutText (n : nat) (text : bytes) | OutBinary (n : nat) (data : bytes).

Definition UNSOLICITED_MSG1_MIN_INTERVAL_MS : Z := 2000.
Definition PROTOCOL_VERSION : Z := 1.
Definition ENVELOPE_HANDSHAKE : ascii := "001"%char.
Definition ENVELOPE_TRANSPORT : ascii := "002"%char.

Definition encodeEnvelope (kind : ascii) (payload : bytes) : bytes := String kind payload.
Definition decodeEnvelope (frame : bytes) : option (ascii * bytes) :=
  match frame with String k p => Some (k, p) | EmptyString => None end.

(** The options, the calls that wait for a frame, and what the client has given out. *)
Record Config := MkConfig { serverUrl : string; deviceId : string; keyPair : KeyPair }.

Record Pending := MkPending {
  pendingPairRequest : option promise;
  pendingPairAccepts : list (string * promise); (* a Map, in the order of insertion *)
  pendingUnpair : option promise;
  auth : option promise                         (* [authResolve] and [authReject] *)
}.

Record Output := MkOutput {
  events : list tsevent;
  calls : list (nat * tsevent);
  settled : gmap promise (tserr + answer);
  sent : list outgoing;
  uncaught : list tserr
}.

Section client.
Context `{Suite}.

Record Client := MkClient {
  opts : Config;
  transport : Transport;
  pins : gmap string PinnedPeer;
  conns : gmap cref PeerConnection;
  sessions : gmap sref Ts.NoiseSession;
  peerConns : list (string * cref);             (* a Map, in the order of insertion *)
  pend : Pending;
  pinging : bool;
  resolving : list resolution;
  listeners : EventKey → list listener;
  out : Output
}.

Definition with_transport x c := MkClient (opts c) x (pins c) (conns c) (sessions c) (peerConns c) (pend c) (pinging c) (resolving c) (listeners c) (out c).
Definition with_pins x c := MkClient (opts c) (transport c) x (conns c) (sessions c) (peerConns c) (pend c) (pinging c) (resolving c) (listeners c) (out c).
Definition with_conns x c := MkClient (opts c) (transport c) (pins c) x (sessions c) (peerConns c) (pend c) (pinging c) (resolving c) (listeners c) (out c).
Definition with_sessions x c := MkClient (opts c) (transport c) (pins c) (conns c) x (peerConns c) (pend c) (pinging c) (resolving c) (listeners c) (out c).
Definition with_peerConns x c := MkClient (opts c) (transport c) (pins c) (conns c) (sessions c) x (pend c) (pinging c) (resolving c) (listeners c) (out c).
Definition with_pend x c := MkClient (opts c) (transport c) (pins c) (conns c) (sessions c) (peerConns c) x (pinging c) (resolving c) (listeners c) (out c).
Definition with_pinging x c := MkClient (opts c) (transport c) (pins c) (conns c) (sessions c) (peerConns c) (pend c) x (resolving c) (listeners c) (out c).
Definition with_resolving x c := MkClient (opts c) (transport c) (pins c) (conns c) (sessions c) (peerConns c) (pend c) (pinging c) x (listeners c) (out c).
Definition with_listeners x c := MkClient (opts c) (transport c) (pins c) (conns c) (sessions c) (peerConns c) (pend c) (pinging c) (resolving c) x (out c).
Definition with_out x c := MkClient (opts c) (transport c) (pins c) (conns c) (sessions c) (peerConns c) (pend c) (pinging c) (resolving c) (listeners c) x.

(** A method: it throws or returns, and leaves a client. *)
Definition M (A : Type) : Type := Client → (tserr + A) * Client.

#[global] Instance M_ret : MRet M := λ A x c, (inr x, c).
#[global] Instance M_bind : MBind M := λ A B k m c,
  match m c with (inl e, c) => (inl e, c) | (inr x, c) => k x c end.

Definition throw {A} (e : tserr) : M A := λ c, (inl e, c).
Definition get {A} (f : Client → A) : M A := λ c, (inr (f c), c).
Definition modify (f : Client → Client) : M unit := λ c, (inr tt, f c).

(** [try { m } catch (e) { h(e) }]. *)
Definition try_catch (m : M unit) (h : tserr → M unit) : M unit := λ c,
  match m c with (inl e, c) => h e c | r => r end.

(** *** The heap *)

Definition new_session (s : Ts.NoiseSession) : M sref := λ c,
  let r := fresh (dom (sessions c)) in (inr r, with_sessions (<[r := s]> (sessions c)) c).
Definition new_conn (p : PeerConnection) : M cref := λ c,
  let r := fresh (dom (conns c)) in (inr r, with_conns (<[r := p]> (conns c)) c).

Definition session_of (r : option sref) (c : Client) : option Ts.NoiseSession := r ← r; sessions c !! r.
Definition put_session (r : sref) (s : Ts.NoiseSession) : M unit :=
  modify (λ c, with_sessions (<[r := s]> (sessions c)) c).
Definition update (r : cref) (f : PeerConnection → PeerConnection) : M unit :=
  modify (λ c, with_conns (alter f r (conns c)) c).

Definition set_active (s : option sref) (p : PeerConnection) : PeerConnection :=
  MkPeer (pc_id p) (announcedStaticKey p) s (pending p) (lastUnsolicitedMsg1 p) (firstPairWaiter p).
Definition set_pending (s : option sref) (p : PeerConnection) : PeerConnection :=
  MkPeer (pc_id p) (announcedStaticKey p) (active p) s (lastUnsolicitedMsg1 p) (firstPairWaiter p).
Definition set_last (t : Z) (p : PeerConnection) : PeerConnection :=
  MkPeer (pc_id p) (announcedStaticKey p) (active p) (pending p) t (firstPairWaiter p).
Definition set_announced (k : string) (p : PeerConnection) : PeerConnection :=
  MkPeer (pc_id p) k (active p) (pending p) (lastUnsolicitedMsg1 p) (firstPairWaiter p).
Definition set_waiter (w : option PairWaiter) (p : PeerConnection) : PeerConnection :=
  MkPeer (pc_id p) (announcedStaticKey p) (active p) (pending p) (lastUnsolicitedMsg1 p) w.

(** *** Output *)

Definition with_events x o := MkOutput x (calls o) (settled o) (sent o) (uncaught o).
Definition with_calls x o := MkOutput (events o) x (settled o) (sent o) (uncaught o).
Definition with_settled x o := MkOutput (events o) (calls o) x (sent o) (uncaught o).
Definition with_sent x o := MkOutput (events o) (calls o) (settled o) x (uncaught o).
Definition with_uncaught x o := MkOutput (events o) (calls o) (settled o) (sent o) x.

Definition output (f : Output → Output) : M unit := modify (λ c, with_out (f (out c)) c).

(** A promise keeps the first of its settlements. *)
Definition settle (p : promise) (v : tserr + answer) : M unit :=
  output (λ o, match settled o !! p with Some _ => o | None => with_settled (<[p := v]> (settled o)) o end).

Definition settle_opt (p : option promise) (v : tserr + answer) : M unit :=
  match p with Some p => settle p v | None => mret tt end.

Definition with_listeners_of (k : EventKey) (l : list listener) (f : EventKey → list listener) : EventKey → list listener :=
  λ k', if decide (k' = k) then l else f k'.

Definition on (k : EventKey) (l : listener) : M unit :=
  modify (λ c, with_listeners (with_listeners_of k (listeners c k ++ [l]) (listeners c)) c).

(** What the functions of [waitForPairing] do with an event. *)
Definition notify (e : tsevent) (l : listener) : M unit :=
  match e with
  | Paired id key => settle_opt (l_promise l) (inr (GotPeer id key))
  | ErrorEvent _ message => settle_opt (l_promise l) (inl (PlainError message))
  | _ => mret tt
  end.

Fixpoint notify_all (e : tsevent) (l : list listener) : M unit :=
  match l with [] => mret tt | x :: l => notify e x;; notify_all e l end.

Definition emit (e : tsevent) : M unit :=
  output (λ o, with_events (events o ++ [e]) o);;
  arr ← get (λ c, listeners c (key_of e));
  modify (λ c, with_listeners (with_listeners_of (key_of e) (emit_to arr).2 (listeners c)) c);;
  output (λ o, with_calls (calls o ++ ((λ l, (l_id l, e)) <$> (emit_to arr).1)) o);;
  notify_all e (emit_to arr).1.

Definition not_connected : tserr := PlainError "relayly: WebSocket is not connected".

(** [transport.send]. *)
Definition transport_send (f : nat → outgoing) : M unit :=
  t ← get transport;
  match ws t with
  | Some n => if isConnected t then output (λ o, with_sent (sent o ++ [f n]) o) else throw not_connected
  | None => throw not_connected
  end.

Definition sendControl (frame : list (string * string)) : M unit := transport_send (λ n, OutText n (stringify frame)).
Definition sendBinary (data : bytes) : M unit := transport_send (λ n, OutBinary n data).

(** ** peer.ts *)

Definition no_entropy : tserr := PlainError "no key pair".

(** A fresh initiator session and its first message. *)
Definition initiate (i : input) : M (sref * bytes) :=
  kp ← get (λ c, keyPair (opts c));
  match Ts.startAsInitiator kp (in_random i) with
  | None => throw no_entropy
  | Some (s, msg1) => r ← new_session s; mret (r, msg1)
  end.

Definition startAsInitiator (i : input) (p : cref) : M bytes :=
  '(r, msg1) ← initiate i; update p (set_active (Some r));; mret msg1.

Definition startRekeyAsInitiator (i : input) (p : cref) : M bytes :=
  '(r, msg1) ← initiate i; update p (set_pending (Some r));; mret msg1.

Definition respond (i : input) : M sref :=
  kp ← get (λ c, keyPair (opts c)); new_session (Ts.startAsResponder kp (in_random i)).

Record HandshakeOutcome := MkOutcome { reply : option bytes; completed : option sref; wasPending : bool }.

Definition is_ready (s : option Ts.NoiseSession) : bool := match s with Some s => Ts.isReady s | None => false end.

Definition after_finish : tserr := PlainError "relayly: handshake message received after handshake finished".

(** The message to session [r]. *)
Definition feed (r : sref) (wasPending : bool) (data : bytes) : M HandshakeOutcome :=
  s ← get (session_of (Some r));
  match s ≫= Ts.handleHandshakeMessage data with
  | None => throw after_finish
  | Some (reply, s) => put_session r s;; mret (MkOutcome reply (if Ts.isSettled s then Some r else None) wasPending)
  end.

Definition peer_handleHandshakeEnvelope (i : input) (p : cref) (pc : PeerConnection) (data : bytes) : M HandshakeOutcome :=
  ready ← get (λ c, is_ready (session_of (active pc) c));
  match pending pc, active pc with
  | Some r, _ => feed r true data
  | None, None => r ← respond i; update p (set_active (Some r));; feed r false data
  | None, Some r =>
      if negb ready then feed r false data
      else if in_now i - lastUnsolicitedMsg1 pc <? UNSOLICITED_MSG1_MIN_INTERVAL_MS then mret (MkOutcome None None false)
      else
        update p (set_last (in_now i));;
        r ← respond i; update p (set_pending (Some r));; feed r true data
  end.

Definition promote (r : sref) (p : PeerConnection) : PeerConnection :=
  if decide (pending p = Some r) then set_pending None (set_active (Some r) p) else p.

Definition abandon (r : sref) (p : PeerConnection) : PeerConnection :=
  if decide (pending p = Some r) then set_pending None p else p.

(** [publicKey] of a connection. *)
Definition conn_publicKey (pc : PeerConnection) (c : Client) : option bytes :=
  s ← session_of (active pc) c; if Ts.isReady s then Ts.s_peerStaticKey s else None.

Definition peer_send (pc : PeerConnection) (payload : bytes) : M bytes :=
  s ← get (session_of (active pc));
  match active pc, s ≫= Ts.encrypt payload with
  | Some r, Some (x, s) => put_session r s;; mret x
  | _, _ => throw (if is_ready s then PlainError "encryption failed" else NotReadyError (pc_id pc))
  end.

Definition peer_recv (pc : PeerConnection) (ciphertext : bytes) : M bytes :=
  s ← get (session_of (active pc));
  match active pc, s ≫= Ts.decrypt ciphertext with
  | Some r, Some (x, s) => put_session r s;; mret x
  | _, _ => throw (if is_ready s then PlainError "decryption failed" else NotReadyError (pc_id pc))
  end.

(** ** client.ts *)

Definition with_request x p := MkPending x (pendingPairAccepts p) (pendingUnpair p) (auth p).
Definition with_accepts x p := MkPending (pendingPairRequest p) x (pendingUnpair p) (auth p).
Definition with_unpair x p := MkPending (pendingPairRequest p) (pendingPairAccepts p) x (auth p).
Definition with_auth x p := MkPending (pendingPairRequest p) (pendingPairAccepts p) (pendingUnpair p) x.

Definition wait (f : Pending → Pending) : M unit := modify (λ c, with_pend (f (pend c)) c).

Definition startPingLoop : M unit := modify (with_pinging true).

Definition handleClose (reason : string) : M unit :=
  modify (with_pinging false);;
  a ← get (λ c, auth (pend c));
  settle_opt a (inl (PlainError ("relayly: connection closed before welcome (" +:+ reason +:+ ")")));;
  wait (with_auth None);;
  emit (Disconnected reason).

(** The peers of [welcome] that are not known yet. *)
Fixpoint register_peers (l : list WirePeer) : M unit :=
  match l with
  | [] => mret tt
  | p :: l =>
      known ← get (λ c, map_get (wp_id p) (peerConns c));
      (if known is None then
         r ← new_conn (newPeerConnection (wp_id p) (default "" (wp_static_key p)));
         modify (λ c, with_peerConns (map_set (wp_id p) r (peerConns c)) c)
       else mret tt);;
      register_peers l
  end.

Definition handleWelcome (frame : WireMessage) : M unit :=
  a ← get (λ c, auth (pend c));
  if decide (protocol_version frame = Some (of_int PROTOCOL_VERSION)) then
    register_peers (default [] (w_peers frame));;
    key ← get (λ c, publicKey (keyPair (opts c)));
    sendControl [("type", "announce_key"); ("static_key", encodeBase64 key)];;
    startPingLoop;;
    emit Connected;;
    settle_opt a (inr Done);;
    wait (with_auth None)
  else
    settle_opt a (inl (PlainError "relayly: unsupported protocol_version"));;
    wait (with_auth None).

Definition handlePairCode (i : input) (frame : WireMessage) : M unit :=
  pending ← get (λ c, pendingPairRequest (pend c));
  url ← get (λ c, serverUrl (opts c));
  match pending, truthy (w_code frame) with
  | Some p, Some code =>
      wait (with_request None);;
      settle p (inr (GotCode (MkPairCode code (default (of_int 300) (expires_in frame)) (buildQrUrl (in_url i) url code))))
  | _, _ => mret tt
  end.

(** The connection of a peer that is being linked, with the key that is announced for it. *)
Definition link_peer (id announced : string) : M cref :=
  known ← get (λ c, map_get id (peerConns c));
  match known with
  | Some r => update r (set_announced announced);; mret r
  | None =>
      r ← new_conn (newPeerConnection id announced);
      modify (λ c, with_peerConns (map_set id r (peerConns c)) c);;
      mret r
  end.

Definition handlePairComplete (i : input) (frame : WireMessage) : M unit :=
  match truthy (peer_id frame) with
  | None => mret tt
  | Some id =>
      accepts ← get (λ c, pendingPairAccepts (pend c));
      let pendingAccept : option promise := code ← truthy (w_code frame); map_get code accepts in
      (if pendingAccept is Some _ then wait (with_accepts (map_delete (default "" (w_code frame)) accepts)) else mret tt);;
      peer ← link_peer id (default "" (peer_static_key frame));
      match pendingAccept with
      | Some p =>
          update peer (set_waiter (Some (MkWaiter id p)));;
          msg1 ← startAsInitiator i peer;
          sendBinary (encodeEnvelope ENVELOPE_HANDSHAKE msg1)
      | None => mret tt
      end
  end.

Definition handleUnpaired (frame : WireMessage) : M unit :=
  (if truthy (peer_id frame) is Some id
   then modify (λ c, with_peerConns (map_delete id (peerConns c)) c) else mret tt);;
  u ← get (λ c, pendingUnpair (pend c));
  settle_opt u (inr Done);;
  wait (with_unpair None);;
  emit (Unpaired (peer_id frame)).

Definition handlePeerStatus (i : input) (frame : WireMessage) : M unit :=
  let online := bool_decide (w_online frame = Some true) in
  match truthy (peer_id frame) with
  | None => mret tt
  | Some id =>
      emit (PeerStatus id online);;
      peer ← get (λ c, map_get id (peerConns c));
      me ← get (λ c, deviceId (opts c));
      match online, peer with
      | true, Some peer =>
          if js_ge me id then mret tt
          else try_catch (msg1 ← startRekeyAsInitiator i peer; sendBinary (encodeEnvelope ENVELOPE_HANDSHAKE msg1))
                 (λ _, mret tt)
      | _, _ => mret tt
      end
  end.

Fixpoint reject_all (l : list (string * promise)) (e : tserr) : M unit :=
  match l with [] => mret tt | (_, p) :: l => settle p (inl e);; reject_all l e end.

Definition err_code (e : tserr) : string := match e with ClientError c _ => c | PlainError _ => "handshake_failed" end.

Definition handleError (frame : WireMessage) : M unit :=
  let code := default "" (w_code frame) in
  let typedErr := errorForCode code
    match w_message frame, w_code frame with Some m, _ => m | None, Some c => c | None, None => "unknown error" end in
  emit (ErrorEvent (err_code typedErr) (err_message typedErr));;
  w ← get pend;
  settle_opt (auth w) (inl typedErr);;
  settle_opt (pendingPairRequest w) (inl typedErr);;
  reject_all (pendingPairAccepts w) typedErr;;
  settle_opt (pendingUnpair w) (inl typedErr);;
  wait (λ _, MkPending None [] None None).

Definition getSolePeer (c : Client) : option cref := snd <$> head (peerConns c).

(** [resolveHandshake] from the verdict on. *)
Definition resolve_end (p : cref) (r : sref) (wasPending : bool) (verdict : tserr + bytes) : M unit :=
  match verdict, wasPending with
  | inl _, true => update p (abandon r)
  | _, _ =>
      (if wasPending then update p (promote r) else mret tt);;
      pc ← get (λ c, conns c !! p);
      update p (set_waiter None);;
      let waiter := pc ≫= firstPairWaiter in
      let id := from_option pc_id "" pc in
      match verdict with
      | inl e =>
          settle_opt (pw_promise <$> waiter) (inl e);;
          emit (ErrorEvent (err_code e) (err_message e))
      | inr key =>
          (if waiter is Some w then settle (pw_promise w) (inr (GotPeer (pw_peerId w) key)) else mret tt);;
          emit (ReadyEvent id);;
          (if wasPending then mret tt else emit (Paired id key))
      end
  end.

Definition resolveHandshake (i : input) (p : cref) (r : sref) (wasPending : bool) : M unit :=
  pc ← get (λ c, conns c !! p);
  s ← get (session_of (Some r));
  let id := from_option pc_id "" pc in
  if is_ready s then
    let authenticated := default "" (s ≫= Ts.s_peerStaticKey) in
    store ← get pins;
    let '(err, store) := pinOrVerify (in_now i) id (encodeBase64 authenticated) store in
    modify (with_pins store);;
    modify (λ c, with_resolving (resolving c ++ [MkResolution p r wasPending authenticated err]) c)
  else resolve_end p r wasPending (inl (PlainError ("relayly: handshake with " +:+ id +:+ " failed"))).

Definition verdict_of (announced : string) (r : resolution) (id : string) : tserr + bytes :=
  match r_answer r with
  | Some e => inl e
  | None =>
      if decide (announced ≠ "" ∧ announced ≠ encodeBase64 (r_key r))
      then inl (KeyMismatchError ("server-announced key for peer " +:+ id +:+ " does not match the authenticated handshake"))
      else inr (r_key r)
  end.

(** The rest of the [j]th resolution, after its [await]. *)
Definition resume (j : nat) : M unit :=
  l ← get resolving;
  match l !! j with
  | None => mret tt
  | Some r =>
      modify (with_resolving (delete j l));;
      pc ← get (λ c, conns c !! r_peer r);
      resolve_end (r_peer r) (r_session r) (r_wasPending r)
        (verdict_of (from_option announcedStaticKey "" pc) r (from_option pc_id "" pc))
  end.

Definition handleHandshakeEnvelope (i : input) (payload : bytes) : M unit :=
  peer ← get (λ c, p ← getSolePeer c; pc ← conns c !! p; Some (p, pc));
  match peer with
  | None => mret tt
  | Some (p, pc) =>
      o ← peer_handleHandshakeEnvelope i p pc payload;
      (if reply o is Some m then sendBinary (encodeEnvelope ENVELOPE_HANDSHAKE m) else mret tt);;
      (if completed o is Some r then resolveHandshake i p r (wasPending o) else mret tt)
  end.

Definition handleTransportEnvelope (ciphertext : bytes) : M unit :=
  peer ← get (λ c, p ← getSolePeer c; conns c !! p);
  match peer with
  | None => mret tt
  | Some pc =>
      try_catch (plaintext ← peer_recv pc ciphertext; emit (MessageEvent (pc_id pc) plaintext)) (λ _, mret tt)
  end.

(** [None]: a field of a type that is not declared for it. *)
Definition handleControlMessage (i : input) (raw : bytes) : option (M unit) :=
  match parse_frame raw with
  | Malformed | NoType => Some (mret tt)
  | NullFrame => Some (throw (PlainError "null has no properties"))
  | Untyped type =>
      if decide (type ∈ ["welcome"; "pair_code"; "pair_complete"; "unpaired"; "peer_status"; "error"])
      then None else Some (mret tt)
  | Frame frame => Some (
      if decide (w_type frame = "welcome") then handleWelcome frame
      else if decide (w_type frame = "pair_code") then handlePairCode i frame
      else if decide (w_type frame = "pair_complete") then handlePairComplete i frame
      else if decide (w_type frame = "unpaired") then handleUnpaired frame
      else if decide (w_type frame = "peer_status") then handlePeerStatus i frame
      else if decide (w_type frame = "error") then handleError frame
      else mret tt)
  end.

Definition handleBinary (i : input) (data : bytes) : M unit :=
  match decodeEnvelope data with
  | None => mret tt
  | Some (kind, payload) =>
      if decide (kind = ENVELOPE_HANDSHAKE) then handleHandshakeEnvelope i payload
      else if decide (kind = ENVELOPE_TRANSPORT) then handleTransportEnvelope payload
      else mret tt
  end.

(** *** The public API *)

(** The body of a promise: a throw rejects it. *)
Definition executor (p : promise) (m : M unit) : M unit := try_catch m (λ e, settle p (inl e)).

Definition connect (p : promise) : M unit :=
  executor p (wait (with_auth (Some p));; modify (λ c, with_transport (t_connect (transport c)) c)).

Definition requestPairCode (p : promise) : M unit :=
  executor p (wait (with_request (Some p));; sendControl [("type", "pair_request")]).

Definition acceptPair (p : promise) (code : string) : M unit :=
  executor p (wait (λ w, with_accepts (map_set code p (pendingPairAccepts w)) w);;
              sendControl [("type", "pair_accept"); ("code", code)]).

Definition unpair (p : promise) : M unit :=
  executor p (wait (with_unpair (Some p));; sendControl [("type", "unpair")]).

(** The two functions it makes have the identities [l] and [l']. *)
Definition waitForPairing (p : promise) (l l' : nat) : M unit :=
  on on_paired (MkListener l true (Some p));; on on_error (MkListener l' true (Some p)).

Definition send (p : promise) (peerId : string) (message : bytes) : M unit :=
  executor p (
    peer ← get (λ c, r ← map_get peerId (peerConns c); conns c !! r);
    match peer with
    | None => throw (PlainError "relayly: no paired peer")
    | Some pc =>
        ciphertext ← peer_send pc message;
        sendBinary (encodeEnvelope ENVELOPE_TRANSPORT ciphertext);;
        settle p (inr Done)
    end).

Definition getPeers (c : Client) : list (string * bytes) :=
  omap (λ x, pc ← conns c !! x.2; k ← conn_publicKey pc c; Some (x.1, k)) (peerConns c).

Definition disconnect : M unit :=
  modify (with_pinging false);; modify (λ c, with_transport (t_close (transport c)) c).

(** ** Turns of the event loop *)

Inductive call :=
  | Connect (p : promise)
  | RequestPairCode (p : promise)
  | AcceptPair (p : promise) (code : string)
  | Unpair (p : promise)
  | WaitForPairing (p : promise) (l l' : nat)
  | Send (p : promise) (peerId : string) (message : bytes)
  | Disconnect
  | On (k : EventKey) (l : listener)
  | Off (k : EventKey) (l : nat).

Definition run_call (x : call) : M unit :=
  match x with
  | Connect p => connect p
  | RequestPairCode p => requestPairCode p
  | AcceptPair p code => acceptPair p code
  | Unpair p => unpair p
  | WaitForPairing p l l' => waitForPairing p l l'
  | Send p id m => send p id m
  | Disconnect => disconnect
  | On k l => on k l
  | Off k l => modify (λ c, with_listeners (with_listeners_of k (off l (listeners c k)) (listeners c)) c)
  end.

Inductive happening :=
  | SocketOpen (n : nat)
  | SocketClose (n : nat) (reason : string)
  | SocketText (n : nat) (raw : bytes)
  | SocketBinary (n : nat) (data : bytes)
  | Timeout (k : nat)
  | PingTick
  | Resume (j : nat)
  | Call (x : call).

(** The [close] event of socket [n]. *)
Definition socket_closed (n : nat) (reason : string) : M unit :=
  modify (λ c, with_transport (with_socket n CLOSED (transport c)) c);;
  t ← get transport;
  if t_closed t then mret tt
  else
    handleClose reason;;
    t ← get transport;
    modify (with_transport (scheduleReconnect t).2);;
    (if (scheduleReconnect t).1 is Some attempt then emit (Reconnecting attempt) else mret tt).

Definition turn (i : input) (h : happening) : option (M unit) :=
  match h with
  | SocketOpen n => Some (modify (λ c, with_transport (t_open n (transport c)) c))
  | SocketClose n reason => Some (socket_closed n reason)
  | SocketText _ raw => handleControlMessage i raw
  | SocketBinary _ data => Some (handleBinary i data)
  | Timeout k => Some (modify (λ c, with_transport (t_timeout k (transport c)) c))
  | PingTick => Some (
      p ← get pinging;
      if p : bool then try_catch (sendControl [("type", "ping")]) (λ _, mret tt) else mret tt)
  | Resume j => Some (resume j)
  | Call x => Some (run_call x)
  end.

(** A throw that nobody catches ends the turn. *)
Definition step (i : input) (h : happening) (c : Client) : option Client :=
  m ← turn i h;
  Some match m c with
       | (inl e, c) => with_out (with_uncaught (uncaught (out c) ++ [e]) (out c)) c
       | (inr _, c) => c
       end.

Fixpoint run (l : list (input * happening)) (c : Client) : option Client :=
  match l with
  | [] => Some c
  | (i, h) :: l => c ← step i h c; run l c
  end.

(** The constructor; [delay] and [maxDelay] are the options of the transport. *)
Definition newClient (url device : string) (kp : KeyPair) (delay maxDelay : Z) (store : gmap string PinnedPeer) : Client :=
  MkClient (MkConfig (normalizeUrl url) device kp) (newTransport delay maxDelay) store ∅ ∅ []
    (MkPending None [] None None) false [] (λ _, []) (MkOutput [] [] ∅ [] []).
End client.
