(* ===== verification/TsFacts.v ===== *)
(** * What the TypeScript client guarantees, and what it does not

    Against any relay and in any order of the turns, the peers a client reports are peers
    whose key is pinned, a ready session is only replaced by one whose key is pinned, and a
    listener that is not called once hears every event.

    The first session of a connection is not checked in this way: when its key is refused the
    client reports the error and goes on using the session. *)

From S2P Require Import Prelude Json AnyJson Wire Blake2s Suite Keys TsNoise TsWire TsClient.

(** ** The emitter *)

(** [off] of the listener at a position takes that position out. *)
Lemma off_at i arr l : NoDup (l_id <$> arr) → arr !! i = Some l → off (l_id l) arr = delete i arr.
Proof.
  intros Hnd Hl. unfold off. destruct (list_find _ arr) as [[k y]|] eqn:E.
  - apply list_find_Some in E as (Hk & Hid & _). f_equal.
    eapply (NoDup_lookup _ _ _ (l_id l) Hnd); rewrite list_lookup_fmap_Some; eauto.
  - apply list_find_None in E. eapply Forall_lookup_1 in E; [|exact Hl]. by destruct E.
Qed.

Lemma forEach_drop n i arr x : NoDup (l_id <$> arr) → x ∈ (forEach n i arr).1 → x ∈ drop i arr.
Proof.
  revert i arr. induction n as [|n IH]; intros i arr Hnd; cbn [forEach]; [by intros ?%not_elem_of_nil|].
  destruct (arr !! i) as [l|] eqn:El.
  2:{ intros Hx%IH; [|done]. rewrite drop_ge in Hx; [by apply not_elem_of_nil in Hx|]. apply lookup_ge_None in El. lia. }
  assert (∀ arr', NoDup (l_id <$> arr') → (∀ y, y ∈ drop (S i) arr' → y ∈ drop (S i) arr) →
    x ∈ (let '(called, arr) := forEach n (S i) arr' in (l :: called, arr)).1 → x ∈ drop i arr) as Hgo.
  { intros arr' Hnd' Hsub. pose proof (IH (S i) arr' Hnd') as IH'. destruct (forEach n (S i) arr') as [called a].
    cbn [fst] in *. rewrite (drop_S _ _ _ El). intros [->|Hx]%elem_of_cons; [by left|]. right. auto. }
  destruct (l_once l); [|by apply Hgo]. rewrite (off_at i) by done. apply Hgo.
  - eapply sublist_NoDup; [exact Hnd|]. apply fmap_sublist, sublist_delete.
  - intros y. assert (i < length arr) by (by eapply lookup_lt_Some).
    rewrite delete_take_drop, drop_app, length_take, drop_ge by (rewrite length_take; lia).
    replace (S i - i `min` length arr) with 1 by lia. rewrite drop_drop. cbn [app].
    intros [j Hj]%list_elem_of_lookup. rewrite lookup_drop in Hj. apply list_elem_of_lookup. exists (S j).
    rewrite lookup_drop, <- Hj. f_equal. lia.
Qed.

(** A listener that comes right after one that [once] has registered is not called: the
    removal of the first moves it to a position that has been passed. *)
Theorem once_skips_next x y arr : NoDup (l_id <$> x :: y :: arr) → l_once x = true → y ∉ (emit_to (x :: y :: arr)).1.
Proof.
  intros Hnd Hx. unfold emit_to. cbn [length]. generalize (S (length arr)). intros n. cbn [forEach lookup list_lookup].
  rewrite Hx, (off_at 0 _ x Hnd eq_refl). change (delete 0 (x :: y :: arr)) with (y :: arr).
  rewrite !fmap_cons, !NoDup_cons in Hnd. destruct Hnd as (Hn & Hy & Hnd).
  pose proof (forEach_drop n 1 (y :: arr) y) as Hd. destruct (forEach n 1 (y :: arr)) as [called a]. cbn [fst drop] in *.
  rewrite elem_of_cons. intros [->|Hc]; [apply Hn; by left|].
  apply Hy, list_elem_of_fmap. exists y. split; [done|]. apply Hd; [by constructor|done].
Qed.

(** Listeners that stay all hear the event, in the order they were registered. *)
Theorem emit_calls_all arr : Forall (λ l, l_once l = false) arr → emit_to arr = (arr, arr).
Proof.
  intros Hall. unfold emit_to.
  assert (∀ n i, i + n = length arr → forEach n i arr = (drop i arr, arr)) as Hn; [|by apply (Hn _ 0)].
  induction n as [|n IH]; intros i Hi; cbn [forEach].
  - by rewrite drop_ge by lia.
  - destruct (lookup_lt_is_Some_2 arr i) as [l Hl]; [lia|]. rewrite Hl.
    rewrite (Forall_lookup_1 _ _ _ _ Hall Hl), IH by lia. by rewrite (drop_S _ _ _ Hl).
Qed.

(** ** The link for the QR code *)

(** A server whose URL starts with wss: the code makes httpss of it, and then wsss. *)
Lemma wss_qr_url url rest rest' code : url ("httpss://" +:+ rest) code = Some ("httpss://" +:+ rest') →
  buildQrUrl url ("wss://" +:+ rest) code = "wsss://" +:+ rest'.
Proof.
  intros E. unfold buildQrUrl. change (replace_start "ws" "https" ("wss://" +:+ rest)) with ("https" +:+ of_chars (chars ("s://" +:+ rest))).
  rewrite of_chars_chars. change ("https" +:+ ("s://" +:+ rest)) with ("httpss://" +:+ rest). rewrite E.
  change (replace_start "https" _ ("httpss://" +:+ rest')) with ("wss" +:+ of_chars (chars ("s://" +:+ rest'))). by rewrite of_chars_chars.
Qed.

(** ** The invariant *)

Section facts.
Context `{Suite}.

(** [key] is the pinned key of peer [id]; session [r] is ready with peer key [key]. *)
Definition pinned (c : Client) (id : string) (key : bytes) : Prop :=
  staticKey <$> pins c !! id = Some (encodeBase64 key).
Definition live (c : Client) (r : sref) (key : bytes) : Prop :=
  ∃ s, sessions c !! r = Some s ∧ Ts.isReady s = true ∧ default "" (Ts.s_peerStaticKey s) = key.

Record ok (c : Client) : Prop := {
  ok_map : ∀ id p, (id, p) ∈ peerConns c → ∃ pc, conns c !! p = Some pc ∧ pc_id pc = id;
  ok_waiters : ∀ p pc w, conns c !! p = Some pc → firstPairWaiter pc = Some w → pw_peerId w = pc_id pc;
  ok_resolving : ∀ x, x ∈ resolving c → ∃ pc, conns c !! r_peer x = Some pc ∧ live c (r_session x) (r_key x) ∧
                   (r_answer x = None → pinned c (pc_id pc) (r_key x));
  ok_paired : ∀ id key, Paired id key ∈ events (out c) → pinned c id key;
  ok_settled : ∀ p id key, settled (out c) !! p = Some (inr (GotPeer id key)) → pinned c id key
}.

(** Pins stay, connections keep their peer, a ready session stays ready. *)
Record ext (c c' : Client) : Prop := {
  ext_pins : ∀ id pin, pins c !! id = Some pin → pins c' !! id = Some pin;
  ext_conns : ∀ p pc, conns c !! p = Some pc → ∃ pc', conns c' !! p = Some pc' ∧ pc_id pc' = pc_id pc;
  ext_live : ∀ r key, live c r key → live c' r key
}.

(** No pairing has been accepted. *)
Definition calm (c : Client) : Prop := pendingPairAccepts (pend c) = [].

(** A ready session in use stays in use, or one with the pinned key takes its place. *)
Definition keeps (c c' : Client) : Prop := ∀ p pc r key,
  conns c !! p = Some pc → active pc = Some r → live c r key →
  ∃ pc' r' key', conns c' !! p = Some pc' ∧ active pc' = Some r' ∧ live c' r' key' ∧
    (r' = r ∧ key' = key ∨ pinned c' (pc_id pc) key').

(** [a]: nothing is accepted during the turns looked at. *)
Context (a : bool).

Definition rel (c c' : Client) : Prop := ext c c' ∧ (a = true → keeps c c' ∧ (calm c → calm c')).

Lemma pinned_ext c c' id key : ext c c' → pinned c id key → pinned c' id key.
Proof. intros [Hp _ _]. unfold pinned. intros (pin & E & Ek)%fmap_Some_1. by rewrite (Hp _ _ E), Ek. Qed.

Lemma ext_trans c1 c2 c3 : ext c1 c2 → ext c2 c3 → ext c1 c3.
Proof.
  intros [P1 C1 L1] [P2 C2 L2]. split; [by auto| |by auto].
  intros p pc (pc2 & E2 & I2)%C1. destruct (C2 _ _ E2) as (pc3 & E3 & I3). exists pc3. split; [done|congruence].
Qed.

Lemma keeps_trans c1 c2 c3 : ext c1 c2 → ext c2 c3 → keeps c1 c2 → keeps c2 c3 → keeps c1 c3.
Proof.
  intros E12 E23 K1 K2 p pc r key Hp Ha Hl. destruct (K1 p pc r key Hp Ha Hl) as (pc2 & r2 & k2 & Hp2 & Ha2 & Hl2 & Hor2).
  destruct (K2 p pc2 r2 k2 Hp2 Ha2 Hl2) as (pc3 & r3 & k3 & Hp3 & Ha3 & Hl3 & Hor3).
  exists pc3, r3, k3. split_and!; try done.
  destruct (ext_conns _ _ E12 p pc Hp) as (pc2' & Hp2' & Hid). assert (pc2' = pc2) as -> by congruence.
  destruct Hor3 as [[-> ->]|Hor3]; [|right; by rewrite <- Hid]. destruct Hor2 as [?|Hor2]; [by left|]. right.
  by eapply pinned_ext.
Qed.

Lemma rel_trans c1 c2 c3 : rel c1 c2 → rel c2 c3 → rel c1 c3.
Proof.
  intros [E1 K1] [E2 K2]. split; [by eapply ext_trans|]. intros Ht. destruct (K1 Ht), (K2 Ht). split; [|auto].
  by eapply keeps_trans.
Qed.

(** Changes that touch neither pins nor connections nor sessions. *)
Lemma rel_quiet c c' : pins c' = pins c → conns c' = conns c → sessions c' = sessions c →
  (a = true → calm c → calm c') → rel c c'.
Proof.
  intros Ep Ec Es Hc. assert (∀ r key, live c r key → live c' r key) as Hl by (unfold live; by rewrite Es).
  split; [split; rewrite ?Ep, ?Ec; eauto|]. intros Ht. split; [|auto].
  intros p pc r key Hp Ha Hr. exists pc, r, key. rewrite Ec. split_and!; auto.
Qed.

Lemma rel_refl c : rel c c.
Proof. by apply rel_quiet. Qed.

(** ** Methods *)

(** [m] keeps the invariant; if it returns, [Q] holds. *)
Definition wp {A} (m : M A) (Q : A → Client → Prop) (c : Client) : Prop :=
  ok (m c).2 ∧ rel c (m c).2 ∧ ∀ x, (m c).1 = inr x → Q x (m c).2.

Lemma wp_bind {A B} (m : M A) (k : A → M B) Q c :
  wp m (λ x c', ok c' → rel c c' → wp (k x) Q c') c → wp (m ≫= k) Q c.
Proof.
  unfold wp, mbind, M_bind. intros (Hok & Hr & Hk). destruct (m c) as [[e|x] c1]; cbn [fst snd] in *; [done|].
  destruct (Hk x eq_refl Hok Hr) as (Hok2 & Hr2 & Hq). split_and!; [done|by eapply rel_trans|done].
Qed.

Lemma wp_mono {A} (m : M A) (Q Q' : A → Client → Prop) c :
  wp m Q c → (∀ x c', ok c' → rel c c' → Q x c' → Q' x c') → wp m Q' c.
Proof. intros (Hok & Hr & Hq) HQ. split_and!; auto. Qed.

Lemma wp_ret {A} (x : A) Q c : ok c → Q x c → wp (mret x) Q c.
Proof. intros Hok Hq. split_and!; [done|apply rel_refl|]. by intros y [= <-]. Qed.

Lemma wp_throw {A} e (Q : A → Client → Prop) c : ok c → wp (throw e) Q c.
Proof. intros Hok. split_and!; [done|apply rel_refl|done]. Qed.

Lemma wp_get {A} (f : Client → A) Q c : ok c → Q (f c) c → wp (get f) Q c.
Proof. intros Hok Hq. split_and!; [done|apply rel_refl|]. by intros y [= <-]. Qed.

Lemma wp_modify f (Q : unit → Client → Prop) c : ok (f c) → rel c (f c) → Q tt (f c) → wp (modify f) Q c.
Proof. intros Hok Hr Hq. split_and!; [done..|]. by intros [] _. Qed.

Lemma wp_try m h (Q : unit → Client → Prop) c :
  wp m Q c → (∀ e c', ok c' → rel c c' → wp (h e) Q c') → wp (try_catch m h) Q c.
Proof.
  unfold wp, try_catch. intros (Hok & Hr & Hq) Hh. destruct (m c) as [[e|x] c1]; cbn [fst snd] in *; [|done].
  destruct (Hh e c1 Hok Hr) as (Hok2 & Hr2 & Hq2). split_and!; [done|by eapply rel_trans|done].
Qed.

(** *** Output *)

(** Only output and listeners differ. *)
Definition quiet (c c' : Client) : Prop :=
  opts c' = opts c ∧ transport c' = transport c ∧ pins c' = pins c ∧ conns c' = conns c ∧ sessions c' = sessions c ∧
  peerConns c' = peerConns c ∧ pend c' = pend c ∧ resolving c' = resolving c.

Lemma ok_quiet c c' : ok c → quiet c c' →
  (∀ id key, Paired id key ∈ events (out c') → pinned c id key) →
  (∀ p id key, settled (out c') !! p = Some (inr (GotPeer id key)) → pinned c id key) → ok c'.
Proof.
  intros [H1 H2 H3 _ _] (_ & _ & Ep & Ec & Es & Em & _ & Er) He Hs. split; unfold pinned, live in *; rewrite ?Ep, ?Ec, ?Es, ?Em, ?Er; done.
Qed.

Lemma quiet_rel c c' : quiet c c' → rel c c'.
Proof. intros (_ & _ & Ep & Ec & Es & _ & Ew & _). apply rel_quiet; [done..|]. unfold calm. by rewrite Ew. Qed.

Lemma quiet_then c1 c2 c3 : quiet c1 c2 → quiet c2 c3 → quiet c1 c3.
Proof. unfold quiet. intros (-> & -> & -> & -> & -> & -> & -> & ->). done. Qed.

Lemma quiet_pinned c c' id key : quiet c c' → pinned c id key → pinned c' id key.
Proof. unfold pinned. intros (_ & _ & E & _). by rewrite E. Qed.

Lemma wp_quiet m c : quiet c (m c).2 → ok (m c).2 → wp m (λ (_ : unit) c', quiet c c') c.
Proof. intros Hq Hok. split_and!; [done|by apply quiet_rel|done]. Qed.

Lemma wp_settle p v c : ok c → (∀ id key, v = inr (GotPeer id key) → pinned c id key) →
  wp (settle p v) (λ _ c', quiet c c') c.
Proof.
  intros Hok Hv. apply wp_quiet; [done|]. eapply ok_quiet; [done|done|..]; cbn.
  - intros id key He. apply (ok_paired _ Hok). by destruct (settled (out c) !! p).
  - intros q id key Hq. destruct (settled (out c) !! p) eqn:E; [by eapply ok_settled|].
    cbn in Hq. apply lookup_insert_Some in Hq as [[_ ->]|[_ Hq]]; [by apply Hv|by eapply ok_settled].
Qed.

Lemma wp_settle_opt p v c : ok c → (∀ id key, v = inr (GotPeer id key) → pinned c id key) →
  wp (settle_opt p v) (λ _ c', quiet c c') c.
Proof. destruct p; [apply wp_settle|]. intros Hok _. by apply wp_ret. Qed.

Lemma wp_notify_all e l c : ok c → (∀ id key, e = Paired id key → pinned c id key) →
  wp (notify_all e l) (λ _ c', quiet c c') c.
Proof.
  revert c. induction l as [|x l IH]; intros c Hok He; cbn [notify_all]; [by apply wp_ret|]. apply wp_bind.
  assert (wp (notify e x) (λ _ c', quiet c c') c) as Hx.
  { destruct e; try (by apply wp_ret); apply wp_settle_opt; try done. intros ?? [= <- <-]. by apply He. }
  eapply wp_mono; [exact Hx|]. intros [] c' _ _ Hq Hok' _.
  eapply wp_mono; [apply IH; [done|]|intros [] c2 _ _; by apply quiet_then].
  intros id key E. eapply quiet_pinned; [done|]. by apply He.
Qed.

Lemma wp_emit e c : ok c → (∀ id key, e = Paired id key → pinned c id key) → wp (emit e) (λ _ c', quiet c c') c.
Proof.
  intros Hok He. unfold emit. apply wp_bind. eapply wp_mono.
  { apply wp_quiet; [done|]. eapply ok_quiet; [done|done|..]; cbn; [|exact (ok_settled _ Hok)].
    intros id key [Hin|Hin]%elem_of_app; [by apply ok_paired in Hin|]. apply list_elem_of_singleton in Hin. by apply He. }
  intros [] c1 Hok1 _ Hq1 _ _. apply wp_bind, wp_get; [done|]. intros _ _.
  apply wp_bind. eapply wp_mono; [apply wp_quiet; [done|]|].
  { eapply ok_quiet; [exact Hok1|done|exact (ok_paired _ Hok1)|exact (ok_settled _ Hok1)]. }
  intros [] c2 Hok2 _ Hq2 _ _. apply wp_bind. eapply wp_mono; [apply wp_quiet; [done|]|].
  { eapply ok_quiet; [exact Hok2|done|exact (ok_paired _ Hok2)|exact (ok_settled _ Hok2)]. }
  intros [] c3 Hok3 _ Hq3 _ _. eapply wp_mono; [apply wp_notify_all; [done|]|].
  - intros id key E. eapply quiet_pinned; [exact (quiet_then _ _ _ (quiet_then _ _ _ Hq1 Hq2) Hq3)|]. by apply He.
  - intros [] c4 _ _ Hq4. eauto using quiet_then.
Qed.

(** Changes of the pending calls, the transport, the timer: nothing that the invariant reads. *)
Lemma wp_aside f (Q : unit → Client → Prop) c :
  ok c → pins (f c) = pins c → conns (f c) = conns c → sessions (f c) = sessions c → peerConns (f c) = peerConns c →
  resolving (f c) = resolving c → out (f c) = out c → (a = true → calm c → calm (f c)) → Q tt (f c) → wp (modify f) Q c.
Proof.
  intros [H1 H2 H3 H4 H5] Ep Ec Es Em Er Eo Hc Hq. apply wp_modify; [|by apply rel_quiet|done].
  split; unfold pinned, live in *; rewrite ?Ep, ?Ec, ?Es, ?Em, ?Er, ?Eo; done.
Qed.

Lemma wp_transport_send f c : ok c → wp (transport_send f) (λ _ c', quiet c c') c.
Proof.
  intros Hok. unfold transport_send. apply wp_bind, wp_get; [done|]. intros _ _.
  destruct (ws (transport c)); [|by apply wp_throw]. destruct (isConnected _); [|by apply wp_throw].
  apply wp_quiet; [done|]. eapply ok_quiet; [done|done|exact (ok_paired _ Hok)|exact (ok_settled _ Hok)].
Qed.

(** *** The heap *)

Lemma live_det c r key key' : live c r key → live c r key' → key = key'.
Proof. intros (s & E & _ & <-) (s' & E' & _ & <-). congruence. Qed.

(** A session is added, or one that is not ready changes, or one keeps its key. *)
Lemma wp_session f r s (Q : unit → Client → Prop) c :
  f c = with_sessions (<[r := s]> (sessions c)) c → ok c →
  (∀ key, live c r key → Ts.isReady s = true ∧ default "" (Ts.s_peerStaticKey s) = key) → Q tt (f c) → wp (modify f) Q c.
Proof.
  intros Ef Hok Hs Hq. assert (∀ x key, live c x key → live (f c) x key) as Hl.
  { intros x key Hx. rewrite Ef. unfold live. cbn. destruct (decide (x = r)) as [->|Hne].
    - exists s. rewrite lookup_insert_eq. destruct (Hs key Hx). done.
    - rewrite lookup_insert_ne by done. exact Hx. }
  destruct Hok as [H1 H2 H3 H4 H5]. apply wp_modify; [| |done].
  - rewrite Ef. split; cbn; try done. intros x Hx. destruct (H3 x Hx) as (pc & ? & Hlx & ?). exists pc. split_and!; [done| |done].
    apply Hl in Hlx. by rewrite Ef in Hlx.
  - split.
    + split; [by rewrite Ef|rewrite Ef; eauto|done].
    + intros _. split; [|by rewrite Ef]. intros p pc x key Hp Hx Hlx. exists pc, x, key.
      split_and!; [by rewrite Ef|done|by apply Hl|by left].
Qed.

(** A connection changes. *)
Lemma wp_update p f (Q : unit → Client → Prop) c : ok c →
  (∀ pc, conns c !! p = Some pc → pc_id (f pc) = pc_id pc ∧
     (∀ w, firstPairWaiter (f pc) = Some w → pw_peerId w = pc_id pc) ∧
     (a = true → active (f pc) = active pc ∨
        (∃ r key, active (f pc) = Some r ∧ live c r key ∧ pinned c (pc_id pc) key) ∨
        (∀ r key, active pc = Some r → ¬ live c r key))) →
  (let c' := with_conns (alter f p (conns c)) c in ok c' → Q tt c') → wp (update p f) Q c.
Proof.
  intros [H1 H2 H3 H4 H5] Hf Hq. set (c' := with_conns (alter f p (conns c)) c) in *.
  assert (∀ q pc, conns c !! q = Some pc → ∃ pc', conns c' !! q = Some pc' ∧ pc_id pc' = pc_id pc) as Hc.
  { intros q pc Hpc. destruct (decide (q = p)) as [->|Hne]; cbn.
    - exists (f pc). rewrite lookup_alter_eq, Hpc. split; [done|]. by apply Hf.
    - exists pc. by rewrite lookup_alter_ne. }
  assert (ok c') as Hok'.
  { split; try done.
    - intros id q (pc & Hpc & <-)%H1. destruct (Hc q pc Hpc) as (pc' & ? & ?). eauto.
    - intros q pc w. cbn. rewrite lookup_alter_Some. intros [(<- & pc0 & Hpc & ->)|[_ Hpc]] Hw; [|by eapply H2].
      destruct (Hf pc0 Hpc) as (-> & Hw' & _). by apply Hw'.
    - intros x Hx. destruct (H3 x Hx) as (pc & Hpc & Hl & Hp). destruct (Hc _ _ Hpc) as (pc' & Hpc' & Hid). exists pc'.
      split_and!; [done|exact Hl|]. rewrite Hid. exact Hp. }
  apply wp_modify; [done| |by apply Hq]. split; [split; [done|exact Hc|done]|]. intros Ht. split; [|done].
  intros q pc r key Hpc Ha Hl. destruct (decide (q = p)) as [->|Hne].
  - destruct (Hf pc Hpc) as (_ & _ & Hor). destruct (Hor Ht) as [E|[(r' & k' & E & Hl' & Hp')|Hn]].
    + exists (f pc), r, key. cbn. rewrite lookup_alter_eq, Hpc. split_and!; [done|congruence|done|by left].
    + exists (f pc), r', k'. cbn. rewrite lookup_alter_eq, Hpc. split_and!; [done..|by right].
    + by destruct (Hn _ _ Ha Hl).
  - exists pc, r, key. cbn. rewrite lookup_alter_ne by done. split_and!; [done..|by left].
Qed.

Lemma wp_new_session s (Q : sref → Client → Prop) c : ok c →
  (∀ r, sessions c !! r = None → ok (with_sessions (<[r := s]> (sessions c)) c) →
     Q r (with_sessions (<[r := s]> (sessions c)) c)) → wp (new_session s) Q c.
Proof.
  intros Hok Hq. set (r := fresh (dom (sessions c))). assert (sessions c !! r = None) as Hr.
  { apply not_elem_of_dom, is_fresh. }
  destruct (wp_session (with_sessions (<[r := s]> (sessions c))) r s (λ _ _, True) c) as (Hok' & Hrel & _); [done..| |done|].
  { intros key (s' & E & _). congruence. }
  split_and!; [done..|]. intros x [= <-]. by apply Hq.
Qed.

Lemma wp_new_conn pc (Q : cref → Client → Prop) c : ok c → firstPairWaiter pc = None →
  (∀ p, conns c !! p = None → ok (with_conns (<[p := pc]> (conns c)) c) → Q p (with_conns (<[p := pc]> (conns c)) c)) →
  wp (new_conn pc) Q c.
Proof.
  intros [H1 H2 H3 H4 H5] Hw Hq. set (p := fresh (dom (conns c))). assert (conns c !! p = None) as Hp.
  { apply not_elem_of_dom, is_fresh. }
  set (c' := with_conns (<[p := pc]> (conns c)) c). assert (∀ q pc, conns c !! q = Some pc → conns c' !! q = Some pc) as Hc.
  { intros q pc' E. cbn. rewrite lookup_insert_ne; [done|congruence]. }
  assert (ok c') as Hok'.
  { split; try done.
    - intros id q (pc' & Hpc & <-)%H1. eauto.
    - intros q pc' w. cbn. rewrite lookup_insert_Some. intros [[_ <-]|[_ E]]; [congruence|by eapply H2].
    - intros x Hx. destruct (H3 x Hx) as (pc' & Hpc & Hl & Hpi). exists pc'. split_and!; auto. }
  split_and!; [exact Hok'| |intros x [= <-]; by apply Hq]. split; [split; [done| |done]|].
  - intros q pc' E. eauto.
  - intros _. split; [|done]. intros q pc' r key E Ha Hl. exists pc', r, key. split_and!; auto.
Qed.

Local Abbreviation any := (λ _ _, True).

Lemma wp_any {A} (m : M A) Q c : wp m Q c → wp m any c.
Proof. intros Hm. by eapply wp_mono. Qed.

(** One step of a method after another. *)
Ltac get_step := apply wp_bind, wp_get; [done|]; intros _ _.
Ltac quiet_step lem := apply wp_bind; eapply wp_mono; [apply lem; try done|]; cbv beta; intros [] ?c ?Hok _ ?Hq _ _.

(** *** peer.ts *)

(** Sessions apart, nothing has changed that a connection refers to. *)
Definition same_conns (c c' : Client) : Prop :=
  conns c' = conns c ∧ peerConns c' = peerConns c ∧ pend c' = pend c ∧ pins c' = pins c.

Lemma wp_initiate i c : ok c → wp (initiate i) (λ _ c', same_conns c c') c.
Proof.
  intros Hok. unfold initiate. get_step. destruct (Ts.startAsInitiator _ _) as [[s msg1]|]; [|by apply wp_throw].
  apply wp_bind, wp_new_session; [done|]. intros r _ Hok' _ _. by apply wp_ret.
Qed.

Lemma wp_startRekey i p c : ok c → wp (startRekeyAsInitiator i p) any c.
Proof.
  intros Hok. unfold startRekeyAsInitiator. apply wp_bind. eapply wp_mono; [by apply wp_initiate|].
  intros [r msg1] c1 Hok1 _ _ _ _. apply wp_bind, wp_update; [done| |by intros; apply wp_ret].
  intros pc Hpc. split_and!; [done|exact (λ w, ok_waiters _ Hok1 p _ w Hpc)|by left].
Qed.

Lemma wp_startAsInitiator i p c : a ≠ true → ok c → wp (startAsInitiator i p) any c.
Proof.
  intros Hna Hok. unfold startAsInitiator. apply wp_bind. eapply wp_mono; [by apply wp_initiate|].
  intros [r msg1] c1 Hok1 _ _ _ _. apply wp_bind, wp_update; [done| |by intros; apply wp_ret].
  intros pc Hpc. split_and!; [done|exact (λ w, ok_waiters _ Hok1 p _ w Hpc)|done].
Qed.

Lemma handled_not_ready data s reply s' : Ts.handleHandshakeMessage data s = Some (reply, s') → Ts.isReady s = false.
Proof. unfold Ts.handleHandshakeMessage, Ts.isReady. by destruct (Ts.s_status s). Qed.

Lemma wp_feed r b data c : ok c →
  wp (feed r b data) (λ o c', conns c' = conns c ∧ wasPending o = b ∧ ∀ r', completed o = Some r' → r' = r) c.
Proof.
  intros Hok. unfold feed. get_step. destruct (_ ≫= _) as [[reply s']|] eqn:E; [|by apply wp_throw].
  cbn in E. destruct (sessions c !! r) as [s|] eqn:Es; cbn in E; [|done]. apply handled_not_ready in E.
  apply wp_bind. eapply (wp_session _ r s'); [done|done|..].
  - intros key (t & Et & Ht & _). congruence.
  - intros Hok' _. apply wp_ret; [done|]. split_and!; [done..|]. intros r'. cbn. by destruct (Ts.isSettled s'); intros [= <-].
Qed.

Lemma wp_respond i c : ok c → wp (respond i) (λ r c', conns c' = conns c ∧ sessions c !! r = None ∧
  ∀ x key, live c' x key → live c x key) c.
Proof.
  intros Hok. unfold respond. get_step. apply wp_new_session; [done|]. intros r Hr _. split_and!; [done..|].
  intros x key (s & Es & Hs & Hk). cbn in Es. apply lookup_insert_Some in Es as [[_ <-]|[_ Es]]; [done|]. by exists s.
Qed.

Lemma wp_peer_handle i p pc data c : ok c → conns c !! p = Some pc →
  wp (peer_handleHandshakeEnvelope i p pc data) (λ o c', is_Some (conns c' !! p)) c.
Proof.
  intros Hok Hp. unfold peer_handleHandshakeEnvelope. get_step.
  assert (∀ r b c1, ok c1 → is_Some (conns c1 !! p) → wp (feed r b data) (λ o c', is_Some (conns c' !! p)) c1) as Hfeed.
  { intros r b c1 Hok1 Hs. eapply wp_mono; [by apply wp_feed|]. intros o c2 _ _ (-> & _). done. }
  destruct (pending pc) as [r|] eqn:Epd; [by eapply Hfeed|]. destruct (active pc) as [r|] eqn:Ea.
  - destruct (is_ready _); cbn [negb]; [|by eapply Hfeed]. case_match; [by apply wp_ret|].
    apply wp_bind, wp_update; [done|..].
    { intros pc' Hpc. split_and!; [done|exact (λ w, ok_waiters _ Hok p _ w Hpc)|by left]. }
    intros c1 Hok1 _ _. apply wp_bind. eapply wp_mono; [by apply wp_respond|]. intros r' c2 Hok2 _ (Ec2 & _) _ _.
    apply wp_bind, wp_update; [done|..].
    { intros pc' Hpc. split_and!; [done|exact (λ w, ok_waiters _ Hok2 p _ w Hpc)|by left]. }
    intros c3 Hok3 _ _. apply Hfeed; [done|]. cbn. rewrite Ec2. cbn. by rewrite !lookup_alter_eq, Hp.
  - apply wp_bind. eapply wp_mono; [by apply wp_respond|]. intros r' c2 Hok2 _ (Ec2 & _) _ _.
    apply wp_bind, wp_update; [done|..].
    { intros pc' Hpc. assert (pc' = pc) as -> by congruence. split_and!; [done|exact (λ w, ok_waiters _ Hok2 p _ w Hpc)|].
      intros _. right; right. congruence. }
    intros c3 Hok3 _ _. apply Hfeed; [done|]. cbn. rewrite Ec2. by rewrite lookup_alter_eq, Hp.
Qed.

Lemma encrypt_same p s x s' : Ts.encrypt p s = Some (x, s') →
  Ts.isReady s' = Ts.isReady s ∧ Ts.s_peerStaticKey s' = Ts.s_peerStaticKey s.
Proof.
  unfold Ts.encrypt, Ts.isReady. destruct (Ts.s_status s) eqn:E, (Ts.sendCipher s); try done.
  destruct (Ts.encryptWithAd _ _ _) as [[? y]|]; cbn [mbind option_bind]; [|done]. by intros [= <- <-].
Qed.

Lemma decrypt_same p s x s' : Ts.decrypt p s = Some (x, s') →
  Ts.isReady s' = Ts.isReady s ∧ Ts.s_peerStaticKey s' = Ts.s_peerStaticKey s.
Proof.
  unfold Ts.decrypt, Ts.isReady. destruct (Ts.s_status s) eqn:E, (Ts.recvCipher s); try done.
  destruct (Ts.decryptWithAd _ _ _) as [[? y]|]; cbn [mbind option_bind]; [|done]. by intros [= <- <-].
Qed.

(** A session moves on and keeps its peer. *)
Lemma wp_move (f : bytes → Ts.NoiseSession → option (bytes * Ts.NoiseSession)) pc x (e : option Ts.NoiseSession → tserr) c :
  (∀ p s x s', f p s = Some (x, s') → Ts.isReady s' = Ts.isReady s ∧ Ts.s_peerStaticKey s' = Ts.s_peerStaticKey s) → ok c →
  wp (s ← get (session_of (active pc));
      match active pc, s ≫= f x with
      | Some r, Some (y, s') => put_session r s';; mret y
      | _, _ => throw (e s)
      end) any c.
Proof.
  intros Hf Hok. get_step. destruct (active pc) as [r|]; [|by apply wp_throw]. cbn [session_of mbind option_bind].
  destruct (sessions c !! r) as [s|] eqn:Es; cbn [mbind option_bind]; [|by apply wp_throw].
  destruct (f x s) as [[y s']|] eqn:Ef; [|by apply wp_throw]. destruct (Hf _ _ _ _ Ef) as [E1 E2].
  apply wp_bind. eapply (wp_session _ r s'); [done|done|..].
  - intros key (t & Et & Ht & <-). rewrite E1, E2. by simplify_eq.
  - intros Hok' _. by apply wp_ret.
Qed.

(** *** client.ts *)

Lemma wp_sendControl l c : ok c → wp (sendControl l) (λ _ c', quiet c c') c.
Proof. apply wp_transport_send. Qed.
Lemma wp_sendBinary d c : ok c → wp (sendBinary d) (λ _ c', quiet c c') c.
Proof. apply wp_transport_send. Qed.

Lemma wp_wait f (Q : unit → Client → Prop) c : ok c → (a = true → calm c → calm (with_pend (f (pend c)) c)) →
  (ok (with_pend (f (pend c)) c) → Q tt (with_pend (f (pend c)) c)) → wp (wait f) Q c.
Proof.
  intros Hok Hc Hq. eapply wp_mono; [apply (wp_aside _ (λ _ c', c' = with_pend (f (pend c)) c)); done|].
  intros [] c' Hok' _ ->. auto.
Qed.

Lemma wp_handleClose reason c : ok c → wp (handleClose reason) any c.
Proof.
  intros Hok. unfold handleClose. apply wp_bind, wp_aside; [done..|]. intros Hok1 _. get_step.
  quiet_step wp_settle_opt. apply wp_bind, wp_wait; [done..|]. intros Hok2 _ _. by eapply wp_any, wp_emit.
Qed.

Lemma wp_set_conn id p c : ok c → (∃ pc, conns c !! p = Some pc ∧ pc_id pc = id) →
  (let c' := with_peerConns (map_set id p (peerConns c)) c in
   wp (modify (λ c, with_peerConns (map_set id p (peerConns c)) c)) (λ _ c'', c'' = c') c).
Proof.
  intros Hok Hp c'. apply wp_modify; [|by apply rel_quiet|done]. destruct Hok as [H1 H2 H3 H4 H5]. split; try done.
  cbn. clear -H1 Hp. induction (peerConns c) as [|[k q] l IH]; cbn [map_set].
  - intros x y Hin. apply list_elem_of_singleton in Hin. injection Hin as -> ->. done.
  - case_decide; intros x y [E|Hin]%elem_of_cons; try (injection E as -> ->); try done.
    + apply H1. by right.
    + apply H1. by left.
    + apply IH; [|done]. intros x' y' Hin'. apply H1. by right.
Qed.

Lemma wp_register l c : ok c → wp (register_peers l) any c.
Proof.
  revert c. induction l as [|x l IH]; intros c Hok; cbn [register_peers]; [by apply wp_ret|]. get_step.
  apply wp_bind. destruct (map_get _ _).
  { apply wp_ret; [done|]. intros _ _. by apply IH. }
  apply wp_bind, wp_new_conn; [done..|]. intros p _ Hok1 _ _. eapply wp_mono.
  { apply wp_set_conn; [done|]. eexists. cbn. by rewrite lookup_insert_eq. }
  intros [] c2 Hok2 _ _ _ _. by apply IH.
Qed.

Lemma wp_handleWelcome w c : ok c → wp (handleWelcome w) any c.
Proof.
  intros Hok. unfold handleWelcome. get_step. case_decide.
  - apply wp_bind. eapply wp_mono; [by apply wp_register|]. intros [] c1 Hok1 _ _ _ _. get_step.
    quiet_step wp_sendControl. apply wp_bind, wp_aside; [done..|]. intros Hok2 _. quiet_step wp_emit.
    quiet_step wp_settle_opt. by apply wp_wait.
  - quiet_step wp_settle_opt. by apply wp_wait.
Qed.

Lemma wp_handlePairCode i w c : ok c → wp (handlePairCode i w) any c.
Proof.
  intros Hok. unfold handlePairCode. get_step. get_step.
  destruct (pendingPairRequest _); [|by apply wp_ret]. destruct (truthy _); [|by apply wp_ret].
  apply wp_bind, wp_wait; [done..|]. intros Hok1 _ _. by eapply wp_any, wp_settle.
Qed.

Lemma map_get_in {A} k (l : list (string * A)) v : map_get k l = Some v → (k, v) ∈ l.
Proof.
  unfold map_get. intros ([j [k' v']] & E & [= ->])%fmap_Some_1. apply list_find_Some in E as (E & <- & _).
  by eapply list_elem_of_lookup_2.
Qed.

Lemma wp_link_peer id k c : ok c →
  wp (link_peer id k) (λ p c', (∃ pc, conns c' !! p = Some pc ∧ pc_id pc = id) ∧ pend c' = pend c) c.
Proof.
  intros Hok. unfold link_peer. get_step. destruct (map_get id (peerConns c)) as [p|] eqn:Em.
  - apply map_get_in in Em. destruct (ok_map _ Hok _ _ Em) as (pc & Hp & Hid).
    apply wp_bind, wp_update; [done|..].
    { intros pc' Hpc. split_and!; [done|exact (λ w, ok_waiters _ Hok p _ w Hpc)|by left]. }
    intros c1 Hok1 _ _. apply wp_ret; [done|]. split; [|done]. eexists. cbn. by rewrite lookup_alter_eq, Hp.
  - apply wp_bind, wp_new_conn; [done..|]. intros p _ Hok1 _ _. apply wp_bind. eapply wp_mono.
    { apply wp_set_conn; [done|]. eexists. cbn. by rewrite lookup_insert_eq. }
    intros [] c2 Hok2 _ -> _ _. apply wp_ret; [done|]. split; [|done]. eexists. cbn. by rewrite lookup_insert_eq.
Qed.

Lemma calm_delete k (l : list (string * promise)) : l = [] → map_delete k l = [].
Proof. by intros ->. Qed.

Lemma wp_handlePairComplete i w c : ok c → (a = true → calm c) → wp (handlePairComplete i w) any c.
Proof.
  intros Hok Hcalm. unfold handlePairComplete. destruct (truthy (peer_id w)) as [id|]; [|by apply wp_ret]. get_step.
  destruct (truthy (w_code w) ≫= λ code, map_get code (pendingPairAccepts (pend c))) as [q|] eqn:Eq; cbv zeta.
  - assert (a ≠ true) as Hna.
    { intros Ht. rewrite (Hcalm Ht) in Eq. by destruct (truthy (w_code w)). }
    apply wp_bind, wp_wait; [done|done|]. intros Hok1 _ _. apply wp_bind. eapply wp_mono; [by apply wp_link_peer|].
    intros p c2 Hok2 _ ((pc & Hp & Hid) & _) _ _. apply wp_bind, wp_update; [done|..].
    { intros pc' Hpc. assert (pc' = pc) as -> by congruence. split_and!; [done| |done].
      cbn. intros w' [= <-]. done. }
    intros c3 Hok3 _ _. apply wp_bind. eapply wp_mono; [by apply wp_startAsInitiator|]. intros msg1 c4 Hok4 _ _ _ _.
    by eapply wp_any, wp_sendBinary.
  - apply wp_bind, wp_ret; [done|]. intros _ _. apply wp_bind. eapply wp_mono; [by apply wp_link_peer|].
    intros p c2 Hok2 _ _ _ _. by apply wp_ret.
Qed.

Lemma wp_handleUnpaired w c : ok c → wp (handleUnpaired w) any c.
Proof.
  intros Hok. unfold handleUnpaired. apply wp_bind.
  assert (wp (if truthy (peer_id w) is Some id then modify (λ c, with_peerConns (map_delete id (peerConns c)) c) else mret tt) any c) as Hd.
  { destruct (truthy _) as [id|]; [|by apply wp_ret]. apply wp_modify; [|by apply rel_quiet|done].
    destruct Hok as [H1 H2 H3 H4 H5]. split; try done. intros x p [_ Hin]%list_elem_of_filter. by apply H1. }
  eapply wp_mono; [exact Hd|]. intros [] c1 Hok1 _ _ _ _. get_step. quiet_step wp_settle_opt.
  apply wp_bind, wp_wait; [done..|]. intros Hok2 _ _. by eapply wp_any, wp_emit.
Qed.

Lemma wp_handlePeerStatus i w c : ok c → wp (handlePeerStatus i w) any c.
Proof.
  intros Hok. unfold handlePeerStatus. destruct (truthy _) as [id|]; [|by apply wp_ret]. quiet_step wp_emit.
  get_step. get_step. destruct (bool_decide _); [|by apply wp_ret]. destruct (map_get _ _) as [p|]; [|by apply wp_ret].
  destruct (js_ge _ _); [by apply wp_ret|]. apply wp_try; [|by intros; apply wp_ret].
  apply wp_bind. eapply wp_mono; [by apply wp_startRekey|]. intros msg1 c2 Hok2 _ _ _ _. by eapply wp_any, wp_sendBinary.
Qed.

Lemma wp_reject_all l e c : ok c → wp (reject_all l e) (λ _ c', quiet c c') c.
Proof.
  revert c. induction l as [|[k p] l IH]; intros c Hok; cbn [reject_all]; [by apply wp_ret|].
  quiet_step wp_settle. eapply wp_mono; [by apply IH|]. intros [] c2 _ _. by apply quiet_then.
Qed.

Lemma wp_handleError w c : ok c → wp (handleError w) any c.
Proof.
  intros Hok. unfold handleError. quiet_step wp_emit. get_step. quiet_step wp_settle_opt. quiet_step wp_settle_opt.
  quiet_step wp_reject_all. quiet_step wp_settle_opt. by apply wp_wait.
Qed.

Lemma wp_resolve_end p r b v c : ok c →
  (∀ key, v = inr key → live c r key ∧ ∃ pc, conns c !! p = Some pc ∧ pinned c (pc_id pc) key) →
  wp (resolve_end p r b v) any c.
Proof.
  intros Hok Hv. unfold resolve_end. destruct v as [e|key].
  - destruct b.
    + apply wp_update; [done| |done]. intros pc Hpc. unfold abandon. case_decide; cbn;
        (split_and!; [done|exact (λ w, ok_waiters _ Hok p _ w Hpc)|by left]).
    + apply wp_bind, wp_ret; [done|]. intros _ _. get_step. apply wp_bind, wp_update; [done|..].
      { intros pc Hpc. by split_and!; [..|left]. }
      intros c1 Hok1 _ _. quiet_step wp_settle_opt. by eapply wp_any, wp_emit.
  - destruct (Hv key eq_refl) as (Hl & pc & Hp & Hpin). apply wp_bind.
    assert (wp (if b then update p (promote r) else mret tt)
      (λ _ c', pins c' = pins c ∧ ∃ pc', conns c' !! p = Some pc' ∧ pc_id pc' = pc_id pc) c) as Hpr.
    { destruct b; [|by apply wp_ret; eauto]. apply wp_update; [done|..].
      - intros pc' Hpc. assert (pc' = pc) as -> by congruence. unfold promote. case_decide; cbn;
          (split_and!; [done|exact (λ w, ok_waiters _ Hok p _ w Hpc)|]); intros _; [right; left|left]; eauto.
      - intros c1 Hok1. split; [done|]. exists (promote r pc). cbn. rewrite lookup_alter_eq, Hp.
        split; [done|]. unfold promote. by case_decide. }
    eapply wp_mono; [exact Hpr|]. intros [] c1 Hok1 _ (E1 & pc1 & Hp1 & Hid1) _ _. get_step. rewrite Hp1.
    assert (∀ w, firstPairWaiter pc1 = Some w → pw_peerId w = pc_id pc) as Hw.
    { intros w Hw. rewrite <- Hid1. by eapply ok_waiters. }
    cbn [mbind option_bind from_option]. rewrite Hid1.
    apply wp_bind, wp_update; [done|..].
    { intros pc2 Hpc. by split_and!; [..|left]. }
    intros c2 Hok2 _ _. assert (pinned c2 (pc_id pc) key) as Hpin2 by (unfold pinned; cbn; by rewrite E1).
    apply wp_bind. assert (wp (if firstPairWaiter pc1 is Some w then settle (pw_promise w) (inr (GotPeer (pw_peerId w) key))
      else mret tt) (λ _ c', quiet c2 c') c2) as Hs.
    { destruct (firstPairWaiter pc1) as [w|] eqn:Ew; [|by apply wp_ret]. apply wp_settle; [done|].
      intros ?? [= <- <-]. by rewrite (Hw w). }
    eapply wp_mono; [exact Hs|]. intros [] c3 Hok3 _ Hq3 _ _. quiet_step wp_emit.
    destruct b; [by apply wp_ret|]. eapply wp_any, wp_emit; [done|]. intros ?? [= <- <-].
    eapply quiet_pinned; [exact (quiet_then _ _ _ Hq3 Hq)|done].
Qed.

Lemma pin_answer now id k store err store' : pinOrVerify now id k store = (err, store') →
  (∀ x pin, store !! x = Some pin → store' !! x = Some pin) ∧ (err = None → staticKey <$> store' !! id = Some k).
Proof.
  unfold pinOrVerify. destruct (store !! id) as [pin|] eqn:E; intros [= <- <-].
  - split; [done|]. case_decide as Hk; [|done]. intros _. by rewrite E, <- Hk.
  - split; [|by rewrite lookup_insert_eq]. intros x pin Hx. rewrite lookup_insert_ne; [done|congruence].
Qed.

(** The store grows. *)
Lemma wp_with_pins store' (Q : unit → Client → Prop) c : ok c → (∀ x pin, pins c !! x = Some pin → store' !! x = Some pin) →
  (ok (with_pins store' c) → Q tt (with_pins store' c)) → wp (modify (with_pins store')) Q c.
Proof.
  intros [H1 H2 H3 H4 H5] Hgrow Hq. assert (ext c (with_pins store' c)) as He by (split; cbn; eauto).
  assert (∀ id key, pinned c id key → pinned (with_pins store' c) id key) as Hp by (intros; by eapply pinned_ext).
  assert (ok (with_pins store' c)) as Hok'.
  { split; cbn; eauto. intros x Hx. destruct (H3 x Hx) as (pc & ? & ? & ?). exists pc. split_and!; auto. }
  apply wp_modify; [done| |by apply Hq]. split; [done|]. intros _. split; [|done].
  intros p pc r key Hpc Ha Hl. exists pc, r, key. split_and!; [done..|by left].
Qed.

Lemma wp_resolveHandshake i p r b c : ok c → is_Some (conns c !! p) → wp (resolveHandshake i p r b) any c.
Proof.
  intros Hok [pc Hp]. unfold resolveHandshake. get_step. get_step. rewrite Hp. cbn [from_option session_of mbind option_bind].
  destruct (sessions c !! r) as [s|] eqn:Es; [|by apply wp_resolve_end]. cbn [is_ready].
  destruct (Ts.isReady s) eqn:Er; [|by apply wp_resolve_end]. cbn [mbind option_bind].
  set (key := default "" _). get_step. destruct (pinOrVerify _ _ _ _) as [err store'] eqn:Epin.
  apply pin_answer in Epin as [Hgrow Hpin]. apply wp_bind, wp_with_pins; [done..|]. intros Hok1 _ _.
  apply wp_modify; [|by apply rel_quiet|done]. destruct Hok1 as [H1 H2 H3 H4 H5]. split; try done.
  intros x [Hx|Hx]%elem_of_app; [by apply H3|]. apply list_elem_of_singleton in Hx as ->. exists pc. cbn.
  split_and!; [done|by exists s|exact Hpin].
Qed.

Lemma wp_resume j c : ok c → wp (resume j) any c.
Proof.
  intros Hok. unfold resume. get_step. destruct (resolving c !! j) as [x|] eqn:Ex; [|by apply wp_ret].
  destruct (ok_resolving _ Hok x) as (pc & Hp & Hl & Hpin); [by eapply list_elem_of_lookup_2|].
  apply wp_bind, wp_modify.
  { destruct Hok as [H1 H2 H3 H4 H5]. split; try done. cbn. intros y Hy. apply H3. revert y Hy.
    apply sublist_subseteq, sublist_delete. }
  { by apply rel_quiet. }
  intros Hok1 _. get_step. cbn [conns with_resolving]. rewrite Hp. apply wp_resolve_end; [done|]. intros key Hv.
  unfold verdict_of in Hv. destruct (r_answer x); [done|]. case_decide; [done|]. injection Hv as <-. eauto.
Qed.

Lemma wp_handleHandshake i d c : ok c → wp (handleHandshakeEnvelope i d) any c.
Proof.
  intros Hok. unfold handleHandshakeEnvelope. get_step. destruct (getSolePeer c) as [p|]; [|by apply wp_ret].
  cbn [mbind option_bind]. destruct (conns c !! p) as [pc|] eqn:Hp; cbn [mbind option_bind]; [|by apply wp_ret].
  apply wp_bind. eapply wp_mono; [by apply wp_peer_handle|]. intros o c1 Hok1 _ Hc1 _ _.
  apply wp_bind. assert (wp (if reply o is Some m then sendBinary (encodeEnvelope ENVELOPE_HANDSHAKE m) else mret tt)
    (λ _ c', quiet c1 c') c1) as Hs by (destruct (reply o); [by apply wp_sendBinary|by apply wp_ret]).
  eapply wp_mono; [exact Hs|]. intros [] c2 Hok2 _ (_ & _ & _ & Ec & _) _ _.
  destruct (completed o); [|by apply wp_ret]. apply wp_resolveHandshake; [done|]. by rewrite Ec.
Qed.

Lemma wp_handleTransport d c : ok c → wp (handleTransportEnvelope d) any c.
Proof.
  intros Hok. unfold handleTransportEnvelope. get_step. destruct (getSolePeer c ≫= _) as [pc|]; [|by apply wp_ret].
  apply wp_try; [|by intros; apply wp_ret]. apply wp_bind. eapply wp_mono.
  { apply (wp_move Ts.decrypt pc d (λ s, if is_ready s then _ else _)); [apply decrypt_same|done]. }
  intros x c1 Hok1 _ _ _ _. by eapply wp_any, wp_emit.
Qed.

Lemma wp_send q id m c : ok c → wp (send q id m) any c.
Proof.
  intros Hok. unfold send, executor. apply wp_try; [|by intros; eapply wp_any, wp_settle]. get_step.
  destruct (map_get id (peerConns c) ≫= _) as [pc|]; [|by apply wp_throw]. apply wp_bind. eapply wp_mono.
  { apply (wp_move Ts.encrypt pc m (λ s, if is_ready s then _ else _)); [apply encrypt_same|done]. }
  intros x c1 Hok1 _ _ _ _. quiet_step wp_sendBinary. by eapply wp_any, wp_settle.
Qed.

(** *** Turns *)

(** A call that accepts no pairing. *)
Definition accepts_none (h : happening) : Prop := match h with Call (AcceptPair _ _) => False | _ => True end.

Lemma wp_executor q m c : ok c → wp m any c → wp (executor q m) any c.
Proof. intros Hok Hm. apply wp_try; [done|]. intros. by eapply wp_any, wp_settle. Qed.

Lemma wp_call x c : ok c → (a = true → accepts_none (Call x)) → wp (run_call x) any c.
Proof.
  intros Hok Hx. destruct x; cbn [run_call]; unfold connect, requestPairCode, acceptPair, unpair, waitForPairing, disconnect, on.
  - apply wp_executor; [done|]. apply wp_bind, wp_wait; [done..|]. intros Hok1 _ _. by apply wp_aside.
  - apply wp_executor; [done|]. apply wp_bind, wp_wait; [done..|]. intros Hok1 _ _. by eapply wp_any, wp_sendControl.
  - apply wp_executor; [done|]. apply wp_bind, wp_wait; [done|by intros Ht; destruct (Hx Ht)|].
    intros Hok1 _ _. by eapply wp_any, wp_sendControl.
  - apply wp_executor; [done|]. apply wp_bind, wp_wait; [done..|]. intros Hok1 _ _. by eapply wp_any, wp_sendControl.
  - apply wp_bind, wp_aside; [done..|]. intros Hok1 _. by apply wp_aside.
  - by apply wp_send.
  - apply wp_bind, wp_aside; [done..|]. intros Hok1 _. by apply wp_aside.
  - by apply wp_aside.
  - by apply wp_aside.
Qed.

Lemma wp_closed n reason c : ok c → wp (socket_closed n reason) any c.
Proof.
  intros Hok. unfold socket_closed. apply wp_bind, wp_aside; [done..|]. intros Hok1 _. get_step. case_match; [by apply wp_ret|].
  apply wp_bind. eapply wp_mono; [by apply wp_handleClose|]. intros [] c2 Hok2 _ _ _ _. get_step.
  apply wp_bind, wp_aside; [done..|]. intros Hok3 _. case_match; [by eapply wp_any, wp_emit|by apply wp_ret].
Qed.

Lemma wp_control i raw m c : handleControlMessage i raw = Some m → ok c → (a = true → calm c) → wp m any c.
Proof.
  unfold handleControlMessage. intros E Hok Hcalm. destruct (parse_frame raw) as [| | |t|w].
  - injection E as <-. by apply wp_ret.
  - injection E as <-. by apply wp_throw.
  - injection E as <-. by apply wp_ret.
  - case_decide; [done|]. injection E as <-. by apply wp_ret.
  - injection E as <-. repeat case_decide; auto using wp_handleWelcome, wp_handlePairCode, wp_handlePairComplete,
      wp_handleUnpaired, wp_handlePeerStatus, wp_handleError. by apply wp_ret.
Qed.

Lemma wp_turn i h m c : turn i h = Some m → ok c → (a = true → calm c ∧ accepts_none h) → wp m any c.
Proof.
  intros E Hok Ha. destruct h; cbn [turn] in E; try (injection E as <-).
  - by apply wp_aside.
  - by apply wp_closed.
  - eapply wp_control; [done|done|]. intros Ht. by destruct (Ha Ht).
  - unfold handleBinary. destruct (decodeEnvelope data) as [[k d]|]; [|by apply wp_ret].
    repeat case_decide; [by apply wp_handleHandshake|by apply wp_handleTransport|by apply wp_ret].
  - by apply wp_aside.
  - get_step. destruct (pinging c); [|by apply wp_ret]. apply wp_try; [by eapply wp_any, wp_sendControl|by intros; apply wp_ret].
  - by apply wp_resume.
  - apply wp_call; [done|]. intros Ht. by destruct (Ha Ht).
Qed.

Lemma step_rel i h c c' : step i h c = Some c' → ok c → (a = true → calm c ∧ accepts_none h) → ok c' ∧ rel c c'.
Proof.
  unfold step. intros E Hok Ha. destruct (turn i h) as [m|] eqn:Em; cbn [mbind option_bind] in E; [|done]. injection E as <-.
  destruct (wp_turn i h m c Em Hok Ha) as (Hok' & Hr & _). destruct (m c) as [[e|x] c1]; cbn [snd] in *; [|done].
  set (c2 := with_out _ c1). assert (quiet c1 c2) as Hq by done. split.
  - eapply ok_quiet; [done|done|exact (ok_paired _ Hok')|exact (ok_settled _ Hok')].
  - eapply rel_trans; [done|]. by apply quiet_rel.
Qed.

Lemma run_rel l c c' : run l c = Some c' → ok c → (a = true → calm c ∧ Forall (λ x, accepts_none x.2) l) → ok c' ∧ rel c c'.
Proof.
  revert c. induction l as [|[i h] l IH]; intros c E Hok Ha; cbn [run] in E.
  - injection E as <-. split; [done|apply rel_refl].
  - destruct (step i h c) as [c1|] eqn:Es; cbn [mbind option_bind] in E; [|done].
    destruct (step_rel i h c c1 Es Hok) as [Hok1 Hr1].
    { intros [Hc Hl]%Ha. apply Forall_cons in Hl as [Hl _]. done. }
    destruct (IH c1 E Hok1) as [Hok2 Hr2].
    { intros Ht. destruct (Ha Ht) as [Hc Hl]. apply Forall_cons in Hl as [_ Hl]. split; [|done]. by apply Hr1. }
    split; [done|]. by eapply rel_trans.
Qed.
End facts.

Lemma new_ok `{Suite} url dev kp d m store : ok (newClient url dev kp d m store).
Proof. by split; [intros ?? ?%not_elem_of_nil|intros|intros ? ?%not_elem_of_nil|intros ?? ?%not_elem_of_nil|intros]. Qed.
