(* ===== verification/TsPair.v ===== *)
(** * Pairing between TypeScript clients

    The turns of two clients that pair through a relay, one after the other: at the end each
    has the key of the other, and what the one sends the other reports.

    With the same turns, what a refused key means: the application is told, and the session
    stays in use. *)

From S2P Require Import Prelude Json AnyJson Wire Blake2s Suite Keys TsNoise CppNoise TsWire NoiseInterop TsClient TsFacts.

Section turns.
Context `{Suite}.

(** The connection to the only peer, on an open socket. *)
Definition stands (c : Client) (id : string) (p : cref) (pc : PeerConnection) (n : nat) : Prop :=
  peerConns c = [(id, p)] ∧ conns c !! p = Some pc ∧ pc_id pc = id ∧
  ws (transport c) = Some n ∧ isConnected (transport c) = true.

Definition handshake_frame (m : bytes) : bytes := encodeEnvelope ENVELOPE_HANDSHAKE m.
Definition transport_frame (m : bytes) : bytes := encodeEnvelope ENVELOPE_TRANSPORT m.

Lemma bind_ok {A B} (m : M A) (k : A → M B) c x c' : m c = (inr x, c') → (m ≫= k) c = k x c'.
Proof. unfold mbind, M_bind. by intros ->. Qed.

Lemma send_ok f n c : ws (transport c) = Some n → isConnected (transport c) = true →
  transport_send f c = (inr tt, with_out (with_sent (sent (out c) ++ [f n]) (out c)) c).
Proof. intros Hw Hc. unfold transport_send, mbind, M_bind, get. by rewrite Hw, Hc. Qed.

Lemma feed_ok r b d c s rep s' : sessions c !! r = Some s → Ts.handleHandshakeMessage d s = Some (rep, s') →
  feed r b d c = (inr (MkOutcome rep (if Ts.isSettled s' then Some r else None) b),
                  with_sessions (<[r := s']> (sessions c)) c).
Proof.
  intros Es Eh. unfold feed. erewrite bind_ok; [|reflexivity]. unfold session_of. cbn [mbind option_bind].
  rewrite Es. cbn [mbind option_bind]. by rewrite Eh.
Qed.

Lemma only_peer c id p pc n : stands c id p pc n →
  get (λ c, p ← getSolePeer c; pc ← conns c !! p; Some (p, pc)) c = (inr (Some (p, pc)), c).
Proof.
  intros (Hm & Hp & _). unfold get, getSolePeer. rewrite Hm. cbn [head fmap option_fmap option_map snd mbind option_bind].
  by rewrite Hp.
Qed.

(** The first message reaches a connection without a session. *)
Lemma turn_first i k c id p pc n m1 m2 s1 :
  stands c id p pc n → active pc = None → pending pc = None →
  Ts.handleHandshakeMessage m1 (Ts.startAsResponder (keyPair (opts c)) (in_random i)) = Some (Some m2, s1) →
  Ts.isSettled s1 = false →
  ∃ c' r, step i (SocketBinary k (handshake_frame m1)) c = Some c' ∧
    stands c' id p (set_active (Some r) pc) n ∧ sessions c' !! r = Some s1 ∧
    opts c' = opts c ∧ pins c' = pins c ∧ resolving c' = resolving c ∧
    out c' = with_sent (sent (out c) ++ [OutBinary n (handshake_frame m2)]) (out c).
Proof.
  intros Hst Ha Hpd Hh Hs. pose proof Hst as (Hm & Hp & Hid & Hw & Hc).
  set (r := fresh (dom (sessions c))). set (s0 := Ts.startAsResponder (keyPair (opts c)) (in_random i)) in *.
  set (c1 := with_sessions (<[r := s0]> (sessions c)) c).
  set (c2 := with_conns (alter (set_active (Some r)) p (conns c)) c1).
  set (c3 := with_sessions (<[r := s1]> (sessions c2)) c2).
  assert (handleBinary i (handshake_frame m1) c =
    (inr tt, with_out (with_sent (sent (out c) ++ [OutBinary n (handshake_frame m2)]) (out c)) c3)) as E.
  { change (handleBinary i (handshake_frame m1) c) with (handleHandshakeEnvelope i m1 c).
    unfold handleHandshakeEnvelope. rewrite (bind_ok _ _ _ _ _ (only_peer _ _ _ _ _ Hst)).
    assert (peer_handleHandshakeEnvelope i p pc m1 c = (inr (MkOutcome (Some m2) None false), c3)) as Ep.
    { unfold peer_handleHandshakeEnvelope. erewrite bind_ok; [|reflexivity]. rewrite Hpd, Ha.
      rewrite (bind_ok (respond i) _ c r c1) by done. rewrite (bind_ok (update p _) _ c1 tt c2) by done.
      rewrite (feed_ok r false m1 c2 s0 _ _ ltac:(by apply lookup_insert_eq) Hh). by rewrite Hs. }
    rewrite (bind_ok _ _ _ _ _ Ep). cbn [reply completed].
    rewrite (bind_ok _ _ _ _ _ (send_ok (λ n, OutBinary n (encodeEnvelope ENVELOPE_HANDSHAKE m2)) n c3 Hw Hc)). done. }
  eexists _, r. split; [unfold step; cbn [turn mbind option_bind]; rewrite E; reflexivity|].
  split_and!; try done.
  - split_and!; try done. cbn. by rewrite lookup_alter_eq, Hp.
  - cbn. by rewrite lookup_insert_eq.
Qed.

(** The message that completes the handshake reaches its session. *)
Lemma turn_finish i k c id p pc n r s d rep s' key :
  stands c id p pc n → active pc = Some r → pending pc = None → sessions c !! r = Some s →
  Ts.handleHandshakeMessage d s = Some (rep, s') → Ts.isReady s' = true → Ts.s_peerStaticKey s' = Some key →
  let '(err, store) := pinOrVerify (in_now i) id (encodeBase64 key) (pins c) in
  ∃ c', step i (SocketBinary k (handshake_frame d)) c = Some c' ∧
    stands c' id p pc n ∧ sessions c' !! r = Some s' ∧ opts c' = opts c ∧ pins c' = store ∧
    resolving c' = resolving c ++ [MkResolution p r false key err] ∧ pend c' = pend c ∧
    out c' = match rep with
             | Some m => with_sent (sent (out c) ++ [OutBinary n (handshake_frame m)]) (out c)
             | None => out c
             end.
Proof.
  intros Hst Ha Hpd Hs Hh Hr Hk. pose proof Hst as (Hm & Hp & Hid & Hw & Hc).
  destruct (pinOrVerify _ _ _ _) as [err store] eqn:Epin.
  set (o := match rep with Some m => _ | None => _ end).
  set (c1 := with_sessions (<[r := s']> (sessions c)) c). set (c2 := with_out o c1).
  assert (peer_handleHandshakeEnvelope i p pc d c = (inr (MkOutcome rep (Some r) false), c1)) as Ep.
  { unfold peer_handleHandshakeEnvelope. erewrite bind_ok; [|reflexivity]. rewrite Hpd, Ha.
    cbn [session_of mbind option_bind]. rewrite Hs. cbn [is_ready]. rewrite (handled_not_ready _ _ _ _ Hh). cbn [negb].
    rewrite (feed_ok r false d c s _ _ Hs Hh).
    assert (Ts.isSettled s' = true) as -> by (revert Hr; unfold Ts.isReady, Ts.isSettled; by destruct (Ts.s_status s')).
    done. }
  assert ((if rep is Some m then sendBinary (encodeEnvelope ENVELOPE_HANDSHAKE m) else mret tt) c1 = (inr tt, c2)) as Esend.
  { unfold c2, o. destruct rep as [m|]; [|by destruct c].
    exact (send_ok (λ n, OutBinary n (encodeEnvelope ENVELOPE_HANDSHAKE m)) n c1 Hw Hc). }
  assert (handleBinary i (handshake_frame d) c =
    (inr tt, with_resolving (resolving c ++ [MkResolution p r false key err]) (with_pins store c2))) as E.
  { change (handleBinary i (handshake_frame d) c) with (handleHandshakeEnvelope i d c).
    unfold handleHandshakeEnvelope. rewrite (bind_ok _ _ _ _ _ (only_peer _ _ _ _ _ Hst)), (bind_ok _ _ _ _ _ Ep).
    cbn [reply completed wasPending]. rewrite (bind_ok _ _ _ _ _ Esend). unfold resolveHandshake.
    do 2 (erewrite bind_ok; [|reflexivity]). cbn [session_of mbind option_bind]. change (conns c2) with (conns c). change (sessions c2) with (<[r := s']> (sessions c)).
    rewrite Hp, lookup_insert_eq. cbn [from_option is_ready mbind option_bind]. rewrite Hr, Hk, Hid. cbn [default].
    erewrite bind_ok; [|reflexivity]. change (pins c2) with (pins c). change (Datatypes.id key) with key. rewrite Epin. done. }
  eexists. split; [unfold step; cbn [turn mbind option_bind]; rewrite E; reflexivity|].
  split_and!; try done. cbn. by rewrite lookup_insert_eq.
Qed.

(** *** What the application is told *)

Definition tells (es : list tsevent) (c c' : Client) : Prop :=
  quiet c c' ∧ sent (out c') = sent (out c) ∧ events (out c') = events (out c) ++ es ∧
  ∀ q v, settled (out c) !! q = Some v → settled (out c') !! q = Some v.

Lemma tells_trans es es' c1 c2 c3 : tells es c1 c2 → tells es' c2 c3 → tells (es ++ es') c1 c3.
Proof.
  intros (Q1 & S1 & E1 & M1) (Q2 & S2 & E2 & M2). split_and!; [by eapply quiet_then|congruence| |by auto].
  by rewrite E2, E1, app_assoc.
Qed.

Lemma tells_nil c : tells [] c c.
Proof. split_and!; [done..| |done]. by rewrite app_nil_r. Qed.

Lemma settle_ok p v c : ∃ c', settle p v c = (inr tt, c') ∧ tells [] c c' ∧
  (settled (out c) !! p = None → settled (out c') !! p = Some v).
Proof.
  eexists. split; [reflexivity|]. unfold tells. destruct (settled (out c) !! p) as [x|] eqn:E; cbn; rewrite ?E, app_nil_r.
  - by destruct c.
  - split_and!; try done; cbn; [|by rewrite lookup_insert_eq]. intros q w Hq. rewrite lookup_insert_ne; [done|congruence].
Qed.

Lemma settle_opt_ok p v c : ∃ c', settle_opt p v c = (inr tt, c') ∧ tells [] c c'.
Proof. destruct p as [p|]; [|by eexists; split; [reflexivity|apply tells_nil]]. destruct (settle_ok p v c) as (c' & ? & ? & _). eauto. Qed.

Lemma notify_all_ok e l c : ∃ c', notify_all e l c = (inr tt, c') ∧ tells [] c c'.
Proof.
  revert c. induction l as [|x l IH]; intros c; cbn [notify_all]; [by eexists; split; [reflexivity|apply tells_nil]|].
  assert (∃ c1, notify e x c = (inr tt, c1) ∧ tells [] c c1) as (c1 & E1 & T1).
  { destruct e; try apply settle_opt_ok; by eexists; split; [reflexivity|apply tells_nil]. }
  destruct (IH c1) as (c2 & E2 & T2). exists c2. rewrite (bind_ok _ _ _ _ _ E1). split; [done|]. exact (tells_trans _ _ _ _ _ T1 T2).
Qed.

Lemma emit_ok e c : ∃ c', emit e c = (inr tt, c') ∧ tells [e] c c'.
Proof.
  unfold emit. erewrite bind_ok; [|reflexivity]. set (c1 := with_out _ c). erewrite bind_ok; [|reflexivity].
  erewrite bind_ok; [|reflexivity]. set (c2 := with_listeners _ c1). erewrite bind_ok; [|reflexivity].
  set (c3 := with_out _ c2). destruct (notify_all_ok e (emit_to (listeners c1 (key_of e))).1 c3) as (c4 & E4 & T4).
  exists c4. split; [done|]. assert (tells [e] c c3) as T3 by done. exact (tells_trans _ _ _ _ _ T3 T4).
Qed.

Lemma tells_stands es c c' id p pc n : tells es c c' → stands c id p pc n → stands c' id p pc n.
Proof. intros ((_ & Et & _ & Ec & _ & Em & _) & _). unfold stands. by rewrite Et, Ec, Em. Qed.

(** [resolveHandshake] goes on with a key that is refused: the only thing that changes is
    that the application is told. *)
Lemma turn_refused i c id p pc n r key e :
  stands c id p pc n → resolving c = [MkResolution p r false key (Some e)] →
  ∃ c', step i (Resume 0) c = Some c' ∧ stands c' id p (set_waiter None pc) n ∧ sessions c' = sessions c ∧
    sent (out c') = sent (out c) ∧ events (out c') = events (out c) ++ [ErrorEvent (err_code e) (err_message e)].
Proof.
  intros Hst Hr. pose proof Hst as (Hm & Hp & Hid & Hw & Hc).
  set (c1 := with_resolving [] c). set (c2 := with_conns (alter (set_waiter None) p (conns c)) c1).
  destruct (settle_opt_ok (pw_promise <$> firstPairWaiter pc) (inl e) c2) as (c3 & E3 & T3).
  destruct (emit_ok (ErrorEvent (err_code e) (err_message e)) c3) as (c4 & E4 & T4).
  pose proof (tells_trans _ _ _ _ _ T3 T4) as T. exists c4.
  assert (resume 0 c = (inr tt, c4)) as E.
  { unfold resume. erewrite bind_ok; [|reflexivity]. rewrite Hr. cbn [lookup list_lookup].
    rewrite (bind_ok _ _ _ tt c1) by (unfold modify, c1; done). erewrite bind_ok; [|reflexivity].
    cbn [r_peer r_session r_wasPending]. change (conns c1) with (conns c). rewrite Hp. unfold verdict_of, resolve_end.
    cbn [r_answer]. do 2 (erewrite bind_ok; [|reflexivity]). change (conns c1) with (conns c). rewrite Hp.
    rewrite (bind_ok (update p _) _ c1 tt c2) by done. cbn [mbind option_bind]. by rewrite (bind_ok _ _ _ _ _ E3). }
  split; [unfold step; cbn [turn mbind option_bind]; by rewrite E|].
  assert (stands c2 id p (set_waiter None pc) n) as Hst2.
  { split_and!; try done. cbn. by rewrite lookup_alter_eq, Hp. }
  split; [by eapply tells_stands|]. destruct T as ((_ & _ & _ & _ & Es & _) & Et & Ee & _). by split_and!.
Qed.

(** ... and with a key that is not. *)
Lemma turn_accepted i c id p pc n r key :
  stands c id p pc n → resolving c = [MkResolution p r false key None] →
  announcedStaticKey pc = "" ∨ announcedStaticKey pc = encodeBase64 key →
  ∃ c', step i (Resume 0) c = Some c' ∧ stands c' id p (set_waiter None pc) n ∧ sessions c' = sessions c ∧
    pend c' = pend c ∧
    sent (out c') = sent (out c) ∧ events (out c') = events (out c) ++ [ReadyEvent id; Paired id key] ∧
    (∀ q, firstPairWaiter pc = Some (MkWaiter id q) → settled (out c) !! q = None →
       settled (out c') !! q = Some (inr (GotPeer id key))).
Proof.
  intros Hst Hr Hann. pose proof Hst as (Hm & Hp & Hid & Hw & Hc).
  set (c1 := with_resolving [] c). set (c2 := with_conns (alter (set_waiter None) p (conns c)) c1).
  assert (∃ c3, (if firstPairWaiter pc is Some w then settle (pw_promise w) (inr (GotPeer (pw_peerId w) key)) else mret tt) c2
    = (inr tt, c3) ∧ tells [] c2 c3 ∧ (∀ q, firstPairWaiter pc = Some (MkWaiter id q) → settled (out c2) !! q = None →
       settled (out c3) !! q = Some (inr (GotPeer id key)))) as (c3 & E3 & T3 & W3).
  { destruct (firstPairWaiter pc) as [[w q]|]; [|by exists c2; split_and!; [done|apply tells_nil|]].
    destruct (settle_ok q (inr (GotPeer w key)) c2) as (c3 & ? & ? & Hset). exists c3. split_and!; [done..|].
    intros q' [= -> ->]. exact Hset. }
  destruct (emit_ok (ReadyEvent id) c3) as (c4 & E4 & T4). destruct (emit_ok (Paired id key) c4) as (c5 & E5 & T5).
  pose proof (tells_trans _ _ _ _ _ T4 T5) as T45. pose proof (tells_trans _ _ _ _ _ T3 T45) as T. exists c5.
  assert (resume 0 c = (inr tt, c5)) as E.
  { unfold resume. erewrite bind_ok; [|reflexivity]. rewrite Hr. cbn [lookup list_lookup].
    rewrite (bind_ok _ _ _ tt c1) by (unfold modify, c1; done). erewrite bind_ok; [|reflexivity].
    cbn [r_peer r_session r_wasPending]. change (conns c1) with (conns c). rewrite Hp. unfold verdict_of, resolve_end.
    cbn [r_answer r_key from_option]. rewrite decide_False by naive_solver.
    do 2 (erewrite bind_ok; [|reflexivity]). change (conns c1) with (conns c). rewrite Hp.
    rewrite (bind_ok (update p _) _ c1 tt c2) by done. cbn [mbind option_bind from_option]. rewrite Hid.
    by rewrite (bind_ok _ _ _ _ _ E3), (bind_ok _ _ _ _ _ E4). }
  split; [unfold step; cbn [turn mbind option_bind]; by rewrite E|].
  assert (stands c2 id p (set_waiter None pc) n) as Hst2.
  { split_and!; try done. cbn. by rewrite lookup_alter_eq, Hp. }
  split; [by eapply tells_stands|]. pose proof T as ((_ & _ & _ & _ & Es & _ & Ew & _) & Et & Ee & _).
  split_and!; [done..|]. intros q Hq Hn. apply T45. by apply W3.
Qed.

(** A message is sent, and one is read. *)
Lemma turn_send i c id p pc n r s q m x s' :
  stands c id p pc n → active pc = Some r → sessions c !! r = Some s → Ts.encrypt m s = Some (x, s') →
  ∃ c', step i (Call (Send q id m)) c = Some c' ∧ stands c' id p pc n ∧ sessions c' = <[r := s']> (sessions c) ∧
    sent (out c') = sent (out c) ++ [OutBinary n (transport_frame x)] ∧ events (out c') = events (out c) ∧
    (settled (out c) !! q = None → settled (out c') !! q = Some (inr Done)).
Proof.
  intros Hst Ha Hs He. pose proof Hst as (Hm & Hp & Hid & Hw & Hc).
  set (c1 := with_sessions (<[r := s']> (sessions c)) c).
  set (c2 := with_out (with_sent (sent (out c) ++ [OutBinary n (transport_frame x)]) (out c)) c1).
  destruct (settle_ok q (inr Done) c2) as (c3 & E3 & T3 & W3). exists c3.
  assert (send q id m c = (inr tt, c3)) as E.
  { unfold send, executor, try_catch. erewrite bind_ok; [|reflexivity]. rewrite Hm. unfold map_get. cbn [list_find fst snd].
    rewrite decide_True by done. cbn [fmap option_fmap option_map mbind option_bind snd]. rewrite Hp.
    unfold peer_send. assert ((s ← get (session_of (active pc));
      match active pc, s ≫= Ts.encrypt m with
      | Some r, Some (x, s) => put_session r s;; mret x
      | _, _ => throw (if is_ready s then PlainError "encryption failed" else NotReadyError (pc_id pc))
      end) c = (inr x, c1)) as Ep.
    { erewrite bind_ok; [|reflexivity]. rewrite Ha. cbn [session_of mbind option_bind]. rewrite Hs. cbn [mbind option_bind].
      by rewrite He. }
    rewrite (bind_ok _ _ _ _ _ Ep).
    rewrite (bind_ok (sendBinary (encodeEnvelope ENVELOPE_TRANSPORT x)) _ c1 tt c2 (send_ok (λ n, OutBinary n _) n c1 Hw Hc)).
    by rewrite E3. }
  split; [unfold step; cbn [turn run_call mbind option_bind]; by rewrite E|].
  split; [by eapply tells_stands|]. destruct T3 as ((_ & _ & _ & _ & Es & _) & Et & Ee & _). rewrite app_nil_r in Ee.
  split_and!; done.
Qed.

(** ... or refused. *)
Lemma turn_send_fails i c id p pc n r s q m :
  stands c id p pc n → active pc = Some r → sessions c !! r = Some s → Ts.encrypt m s = None →
  ∃ c', step i (Call (Send q id m)) c = Some c' ∧ sent (out c') = sent (out c).
Proof.
  intros Hst Ha Hs He. pose proof Hst as (Hm & Hp & Hid & Hw & Hc).
  set (e := if is_ready (Some s) then PlainError "encryption failed" else NotReadyError (pc_id pc)).
  destruct (settle_ok q (inl e) c) as (c1 & E1 & T1 & _). exists c1.
  assert (send q id m c = (inr tt, c1)) as E.
  { unfold send, executor, try_catch. erewrite bind_ok; [|reflexivity]. rewrite Hm. unfold map_get. cbn [list_find fst snd].
    rewrite decide_True by done. cbn [fmap option_fmap option_map mbind option_bind snd]. rewrite Hp.
    assert (peer_send pc m c = (inl e, c)) as Ep.
    { unfold peer_send. erewrite bind_ok; [|reflexivity]. rewrite Ha. cbn [session_of mbind option_bind]. rewrite Hs.
      cbn [mbind option_bind]. by rewrite He. }
    unfold mbind, M_bind. by rewrite Ep. }
  split; [unfold step; cbn [turn run_call mbind option_bind]; by rewrite E|]. by destruct T1 as (_ & Et & _).
Qed.

Lemma turn_recv i k c id p pc n r s x m s' :
  stands c id p pc n → active pc = Some r → sessions c !! r = Some s → Ts.decrypt x s = Some (m, s') →
  ∃ c', step i (SocketBinary k (transport_frame x)) c = Some c' ∧ stands c' id p pc n ∧
    sessions c' = <[r := s']> (sessions c) ∧ sent (out c') = sent (out c) ∧
    events (out c') = events (out c) ++ [MessageEvent id m].
Proof.
  intros Hst Ha Hs He. pose proof Hst as (Hm & Hp & Hid & Hw & Hc).
  set (c1 := with_sessions (<[r := s']> (sessions c)) c).
  destruct (emit_ok (MessageEvent id m) c1) as (c2 & E2 & T2). exists c2.
  assert (handleBinary i (transport_frame x) c = (inr tt, c2)) as E.
  { change (handleBinary i (transport_frame x) c) with (handleTransportEnvelope x c). unfold handleTransportEnvelope.
    erewrite bind_ok; [|reflexivity]. unfold getSolePeer. rewrite Hm.
    cbn [head fmap option_fmap option_map snd mbind option_bind]. rewrite Hp. unfold try_catch.
    assert (peer_recv pc x c = (inr m, c1)) as Ep.
    { unfold peer_recv. erewrite bind_ok; [|reflexivity]. rewrite Ha. cbn [session_of mbind option_bind]. rewrite Hs.
      cbn [mbind option_bind]. by rewrite He. }
    rewrite (bind_ok _ _ _ _ _ Ep), Hid, E2. done. }
  split; [unfold step; cbn [turn mbind option_bind]; by rewrite E|].
  split; [by eapply tells_stands|]. destruct T2 as ((_ & _ & _ & _ & Es & _) & Et & Ee & _). by split_and!.
Qed.

(** *** Linking *)

(** The frame that links two devices. *)
Definition pair_complete (code id key : string) : bytes :=
  Marshal (ControlMessage "pair_complete" 0 "" [] "" code 0 id key None "").

Definition linked_frame (code id key : string) : WireMessage :=
  MkWireMessage "pair_complete" None None None None (present code) None (present id) (present key) None None.

Lemma read_pair_complete code id key : valid_utf8 code → valid_utf8 id → valid_utf8 key →
  parse_frame (pair_complete code id key) = Frame (linked_frame code id key).
Proof.
  intros Hc Hi Hk. unfold pair_complete. rewrite client_reads. unfold wire_of, sanitize_message.
  cbn [cm_Type cm_ProtocolVersion cm_DeviceID cm_Peers cm_StaticKey cm_Code cm_ExpiresIn cm_PeerID cm_PeerStaticKey
       cm_Online cm_Message]. by rewrite !(sanitize_valid code), !(sanitize_valid id), !(sanitize_valid key).
Qed.

Lemma truthy_present s : s ≠ "" → truthy (present s) = Some s.
Proof. intros Hs. unfold truthy, present. rewrite decide_False by done. cbn. by rewrite decide_False. Qed.

Lemma default_present s : default "" (present s) = s.
Proof. unfold present. by case_decide. Qed.

(** The side that asked for the code. *)
Lemma turn_linked i k c code id key n :
  valid_utf8 code → valid_utf8 id → valid_utf8 key → id ≠ "" → peerConns c = [] → pendingPairAccepts (pend c) = [] →
  ws (transport c) = Some n → isConnected (transport c) = true →
  ∃ c' p, step i (SocketText k (pair_complete code id key)) c = Some c' ∧
    stands c' id p (newPeerConnection id key) n ∧ opts c' = opts c ∧ pins c' = pins c ∧ resolving c' = resolving c ∧
    out c' = out c.
Proof.
  intros Hvc Hvi Hvk Hid Hm Hacc Hw Hc. set (p := fresh (dom (conns c))).
  set (c1 := with_conns (<[p := newPeerConnection id key]> (conns c)) c). set (c2 := with_peerConns [(id, p)] c1).
  assert (handlePairComplete i (linked_frame code id key) c = (inr tt, c2)) as E.
  { unfold handlePairComplete. cbn [peer_id linked_frame]. rewrite truthy_present by done.
    erewrite bind_ok; [|reflexivity]. rewrite Hacc. cbn [w_code linked_frame peer_static_key]. rewrite default_present.
    assert ((code0 ← truthy (present code); @map_get promise code0 []) = None) as -> by by destruct (truthy (present code)).
    erewrite bind_ok; [|reflexivity]. unfold link_peer. rewrite (bind_ok _ _ c p c2); [done|].
    erewrite bind_ok; [|reflexivity]. rewrite Hm. cbn [map_get list_find fmap option_fmap option_map].
    rewrite (bind_ok (new_conn _) _ c p c1) by done. erewrite bind_ok; [|reflexivity].
    change (peerConns c1) with (peerConns c). rewrite Hm. done. }
  exists c2, p. split.
  { unfold step, turn, handleControlMessage. rewrite read_pair_complete by done. cbn [linked_frame w_type mbind option_bind].
    repeat first [rewrite decide_True by done|rewrite decide_False by done]. fold (linked_frame code id key). by rewrite E. }
  split_and!; try done. split_and!; try done. cbn. by rewrite lookup_insert_eq.
Qed.

(** The side that accepts it: the call, and the frame that answers it. *)
Lemma turn_call_accept i c q code n : pendingPairAccepts (pend c) = [] →
  ws (transport c) = Some n → isConnected (transport c) = true →
  ∃ c', step i (Call (AcceptPair q code)) c = Some c' ∧ pendingPairAccepts (pend c') = [(code, q)] ∧
    opts c' = opts c ∧ transport c' = transport c ∧ pins c' = pins c ∧ peerConns c' = peerConns c ∧
    resolving c' = resolving c ∧
    out c' = with_sent (sent (out c) ++ [OutText n (stringify [("type", "pair_accept"); ("code", code)])]) (out c).
Proof.
  intros Hacc Hw Hc. set (c1 := with_pend (with_accepts [(code, q)] (pend c)) c).
  set (c2 := with_out (with_sent (sent (out c) ++ [OutText n (stringify [("type", "pair_accept"); ("code", code)])]) (out c)) c1).
  assert (acceptPair q code c = (inr tt, c2)) as E.
  { unfold acceptPair, executor, try_catch. rewrite (bind_ok _ _ c tt c1).
    - unfold sendControl. by rewrite (send_ok _ n c1 Hw Hc).
    - unfold wait, modify, c1. by rewrite Hacc. }
  exists c2. split; [unfold step; cbn [turn run_call mbind option_bind]; by rewrite E|]. by split_and!.
Qed.

Lemma turn_initiates i k c q code id key n s m1 :
  valid_utf8 code → valid_utf8 id → valid_utf8 key → code ≠ "" → id ≠ "" → peerConns c = [] →
  pendingPairAccepts (pend c) = [(code, q)] → ws (transport c) = Some n → isConnected (transport c) = true →
  Ts.startAsInitiator (keyPair (opts c)) (in_random i) = Some (s, m1) →
  ∃ c' p r, step i (SocketText k (pair_complete code id key)) c = Some c' ∧
    stands c' id p (MkPeer id key (Some r) None 0 (Some (MkWaiter id q))) n ∧ sessions c' !! r = Some s ∧
    opts c' = opts c ∧ pins c' = pins c ∧ resolving c' = resolving c ∧ pendingPairAccepts (pend c') = [] ∧
    out c' = with_sent (sent (out c) ++ [OutBinary n (handshake_frame m1)]) (out c).
Proof.
  intros Hvc Hvi Hvk Hcode Hid Hm Hacc Hw Hc Hstart. set (p := fresh (dom (conns c))). set (r := fresh (dom (sessions c))).
  set (c0 := with_pend (with_accepts [] (pend c)) c).
  set (c1 := with_conns (<[p := newPeerConnection id key]> (conns c)) c0). set (c2 := with_peerConns [(id, p)] c1).
  set (c3 := with_conns (alter (set_waiter (Some (MkWaiter id q))) p (conns c2)) c2).
  set (c4 := with_sessions (<[r := s]> (sessions c)) c3). set (c5 := with_conns (alter (set_active (Some r)) p (conns c4)) c4).
  assert (link_peer id key c0 = (inr p, c2)) as Elink.
  { unfold link_peer. erewrite bind_ok; [|reflexivity]. change (peerConns c0) with (peerConns c). rewrite Hm.
    cbn [map_get list_find fmap option_fmap option_map]. rewrite (bind_ok (new_conn _) _ c0 p c1) by done.
    erewrite bind_ok; [|reflexivity]. change (peerConns c1) with (peerConns c). rewrite Hm. done. }
  assert (startAsInitiator i p c3 = (inr m1, c5)) as Einit.
  { unfold startAsInitiator. rewrite (bind_ok _ _ c3 (r, m1) c4); [done|]. unfold initiate.
    erewrite bind_ok; [|reflexivity]. change (opts c3) with (opts c). rewrite Hstart. done. }
  assert (handlePairComplete i (linked_frame code id key) c =
    (inr tt, with_out (with_sent (sent (out c) ++ [OutBinary n (handshake_frame m1)]) (out c)) c5)) as E.
  { unfold handlePairComplete. cbn [peer_id linked_frame]. rewrite truthy_present by done.
    erewrite bind_ok; [|reflexivity]. rewrite Hacc. cbn [w_code linked_frame peer_static_key]. rewrite !default_present.
    rewrite truthy_present by done. cbn [mbind option_bind]. unfold map_get at 1 2. cbn [list_find fst snd].
    rewrite decide_True by done. cbn [fmap option_fmap option_map fst snd].
    rewrite (bind_ok (wait _) _ c tt c0).
    2:{ unfold wait, modify, c0, map_delete. cbn [filter list_filter fst]. by rewrite decide_False by naive_solver. }
    rewrite (bind_ok _ _ _ _ _ Elink). rewrite (bind_ok (update p _) _ c2 tt c3) by done.
    rewrite (bind_ok _ _ _ _ _ Einit). exact (send_ok (λ n, OutBinary n (handshake_frame m1)) n c5 Hw Hc). }
  eexists _, p, r. split.
  { unfold step, turn, handleControlMessage. rewrite read_pair_complete by done. cbn [linked_frame w_type mbind option_bind].
    repeat first [rewrite decide_True by done|rewrite decide_False by done]. fold (linked_frame code id key). by rewrite E. }
  split_and!; try done.
  - split_and!; try done. cbn. by rewrite !lookup_alter_eq, lookup_insert_eq.
  - cbn. by rewrite lookup_insert_eq.
Qed.
End turns.

Section pairing.
Context `{SuiteLaws}.

(** The three messages between an initiator and a responder. *)
Lemma first_reply kp rnd m1 m2 t : Ts.handleHandshakeMessage m1 (Ts.startAsResponder kp rnd) = Some (Some m2, t) →
  Ts.s_status t = Ts.handshaking.
Proof.
  unfold Ts.handleHandshakeMessage, Ts.startAsResponder, Ts.newSession. cbn [Ts.s_status Ts.handshake Ts.gotFirstMessage Ts.hs_initiator Ts.newHandshakeState].
  destruct (Ts.readMessage _ _) as [[hs ?]|]; [|done]. destruct (Ts.writeMessage hs) as [[[hs' m] ?]|]; [|done].
  by intros [= _ <-].
Qed.

Lemma three_messages a A b B ra rb ti m1 m2 tr1 m3 ti1 :
  getPublicKey a = Some A → getPublicKey b = Some B →
  Ts.startAsInitiator (MkKeyPair a A) ra = Some (ti, m1) →
  Ts.handleHandshakeMessage m1 (Ts.startAsResponder (MkKeyPair b B) rb) = Some (Some m2, tr1) →
  Ts.handleHandshakeMessage m2 ti = Some (Some m3, ti1) →
  ∃ tr2, Ts.handleHandshakeMessage m3 tr1 = Some (None, tr2) ∧ Ts.isSettled tr1 = false ∧
    Ts.isReady ti1 = true ∧ Ts.s_peerStaticKey ti1 = Some B ∧ Ts.isReady tr2 = true ∧ Ts.s_peerStaticKey tr2 = Some A ∧
    channel ti1 tr2 ∧ channel tr2 ti1.
Proof.
  intros HA HB Hi H1 H2. pose proof (first_reply _ _ _ _ _ H1) as Hst.
  assert (∀ d t rep t', Ts.handleHandshakeMessage d t = Some (rep, t') → Cpp.ts_do (Cpp.Hand d) t = (rep, t')) as Hdo.
  { intros d t rep t' E. unfold Cpp.ts_do. by rewrite (handled_not_ready _ _ _ _ E), E. }
  destruct (ts_three_messages a A b B ra rb ti m1 m2 tr1 m3 ti1 HA HB Hi (Hdo _ _ _ _ H1) (Hdo _ _ _ _ H2))
    as (tr2 & H3 & S1 & S2 & C1 & C2). exists tr2.
  assert (∃ rep t', Ts.handleHandshakeMessage m3 tr1 = Some (rep, t')) as (rep & t' & E3).
  { unfold Ts.handleHandshakeMessage. rewrite Hst. match goal with |- ∃ _ _, Some ?x = _ => destruct x end. eauto. }
  rewrite (Hdo _ _ _ _ E3) in H3. injection H3 as -> ->. unfold Cpp.ts_shows in S1, S2. unfold Ts.isSettled, Ts.isReady.
  rewrite Hst. split_and!; try done; destruct (Ts.s_status ti1), (Ts.s_status tr2); congruence.
Qed.

(** What the one side of a channel encrypts the other decrypts. *)
Lemma channel_carries t u m x t' : channel t u → Ts.encrypt m t = Some (x, t') → ∃ u', Ts.decrypt x u = Some (m, u').
Proof.
  intros Hc He. destruct (mixed_channel_step m t u x t' Hc) as (u' & E & _); [by cbn; rewrite He|].
  cbn in E. destruct (Ts.decrypt x u) as [[y u2]|]; [|done]. injection E as -> _. by eexists.
Qed.

Lemma channel_both t u m x t' : channel t u → channel u t → Ts.encrypt m t = Some (x, t') →
  ∃ u', Ts.decrypt x u = Some (m, u') ∧ channel t' u' ∧ channel u' t'.
Proof.
  intros (Ht & Hu & k & Hk & Hk') (_ & _ & l & Hl & Hl'). unfold Ts.encrypt, Ts.decrypt. rewrite Ht, Hu, Hk, Hk'.
  destruct (Ts.encryptWithAd k "" m) as [[k' y]|] eqn:E; cbn [mbind option_bind]; [|done]. intros [= <- <-].
  rewrite (Ts.decrypt_encrypt _ _ _ _ _ E). cbn [mbind option_bind]. eexists. split; [done|].
  split; (split_and!; [done|done|by eexists]).
Qed.

(** A key that does not match the pinned one is refused only in name.  A client that has
    pinned a key for its peer, and holds no session with it yet, is led through a handshake
    by somebody else with another key.  The client tells the application that the key does
    not match; the session stays: the peer is still listed, under the wrong key, and what
    the application sends to the peer is encrypted for the other one, who can read it. *)
Theorem refused_key_in_use c id p pc n pin a A b B rb i1 i2 i3 k ti m1 m2 tr1 m3 ti1 :
  stands c id p pc n → active pc = None → pending pc = None → resolving c = [] →
  keyPair (opts c) = MkKeyPair a A → getPublicKey a = Some A → getPublicKey b = Some B →
  pins c !! id = Some pin → staticKey pin ≠ encodeBase64 B →
  Ts.startAsInitiator (MkKeyPair b B) rb = Some (ti, m1) →
  Ts.handleHandshakeMessage m1 (Ts.startAsResponder (MkKeyPair a A) (in_random i1)) = Some (Some m2, tr1) →
  Ts.handleHandshakeMessage m2 ti = Some (Some m3, ti1) →
  ∃ c' s, run [(i1, SocketBinary k (handshake_frame m1)); (i2, SocketBinary k (handshake_frame m3)); (i3, Resume 0)] c = Some c' ∧
    events (out c') = events (out c) ++ [ErrorEvent "peer_key_mismatch" (err_message (PeerKeyMismatchError id))] ∧
    getPeers c' = [(id, B)] ∧
    ∀ i4 q text x s', Ts.encrypt text s = Some (x, s') →
      ∃ c'', step i4 (Call (Send q id text)) c' = Some c'' ∧
        sent (out c'') = sent (out c') ++ [OutBinary n (transport_frame x)] ∧
        ∃ ti2, Ts.decrypt x ti1 = Some (text, ti2).
Proof.
  intros Hst Ha Hpd Hres Hkp HA HB Hpin Hne Hi H1 H2.
  destruct (three_messages b B a A rb (in_random i1) ti m1 m2 tr1 m3 ti1 HB HA Hi H1 H2)
    as (tr2 & H3 & Hset & _ & _ & Hr2 & Hk2 & C1 & C2).
  rewrite <- Hkp in H1. destruct (turn_first i1 k c id p pc n m1 m2 tr1 Hst Ha Hpd H1 Hset)
    as (c1 & r & E1 & Hst1 & Hs1 & _ & Hp1 & Hres1 & Ho1).
  pose proof (turn_finish i2 k c1 id p _ n r tr1 m3 None tr2 B Hst1 eq_refl Hpd Hs1 H3 Hr2 Hk2) as Hfin.
  rewrite Hp1 in Hfin. unfold pinOrVerify in Hfin. rewrite Hpin, decide_False in Hfin by done.
  destruct Hfin as (c2 & E2 & Hst2 & Hs2 & _ & _ & Hres2 & _ & Ho2). rewrite Hres1, Hres in Hres2. cbn [app] in Hres2.
  destruct (turn_refused i3 c2 id p _ n r B _ Hst2 Hres2) as (c3 & E3 & Hst3 & Hs3 & _ & He3).
  rewrite <- Hs3 in Hs2. exists c3, tr2. split_and!.
  - cbn [run]. rewrite E1. cbn [mbind option_bind]. rewrite E2. cbn [mbind option_bind]. by rewrite E3.
  - by rewrite He3, Ho2, Ho1.
  - destruct Hst3 as (Hm3 & Hc3 & _). unfold getPeers. rewrite Hm3. cbn [omap list_omap fst snd]. rewrite Hc3.
    cbn [mbind option_bind]. unfold conn_publicKey, session_of. cbn [active set_waiter set_active mbind option_bind].
    rewrite Hs2. cbn [mbind option_bind]. by rewrite Hr2, Hk2.
  - intros i4 q text x s' Henc. destruct (turn_send i4 c3 id p _ n r tr2 q text x s' Hst3 eq_refl Hs2 Henc)
      as (c4 & E4 & _ & _ & Hsent & _). exists c4. split_and!; [done..|]. exact (channel_carries _ _ _ _ _ C2 Henc).
Qed.

(** A client that is connected and has neither peers nor calls that wait. *)
Definition idle (c : Client) (n : nat) : Prop :=
  peerConns c = [] ∧ pendingPairAccepts (pend c) = [] ∧ resolving c = [] ∧
  ws (transport c) = Some n ∧ isConnected (transport c) = true.

(** No other key is pinned for [id]. *)
Definition may_pin (c : Client) (id : string) (key : bytes) : Prop :=
  ∀ pin, pins c !! id = Some pin → staticKey pin = encodeBase64 key.

Lemma pin_accepted now c id key : may_pin c id key → (pinOrVerify now id (encodeBase64 key) (pins c)).1 = None.
Proof. unfold may_pin, pinOrVerify. intros Hp. destruct (pins c !! id); [|done]. cbn. by rewrite decide_True by auto. Qed.

Lemma base64_valid b : valid_utf8 (encodeBase64 b).
Proof. apply valid_ascii. unfold encodeBase64. rewrite chars_of_chars. apply encode64_ascii. Qed.

(** The turns of the device that accepts: the call, the frame that links, the second message,
    and the answer of the store. *)
Lemma acceptor_turns c n q code id A' b B iq i1 i2 i3 k ti m1 m2 m3 ti1 key :
  idle c n → valid_utf8 code → valid_utf8 id → code ≠ "" → id ≠ "" → keyPair (opts c) = MkKeyPair b B →
  may_pin c id key → settled (out c) !! q = None → A' = encodeBase64 key →
  Ts.startAsInitiator (MkKeyPair b B) (in_random i1) = Some (ti, m1) →
  Ts.handleHandshakeMessage m2 ti = Some (Some m3, ti1) → Ts.isReady ti1 = true → Ts.s_peerStaticKey ti1 = Some key →
  ∃ c' p pc r, run [(iq, Call (AcceptPair q code)); (i1, SocketText k (pair_complete code id A'));
                    (i2, SocketBinary k (handshake_frame m2)); (i3, Resume 0)] c = Some c' ∧
    stands c' id p pc n ∧ active pc = Some r ∧ sessions c' !! r = Some ti1 ∧
    sent (out c') = sent (out c) ++ [OutText n (stringify [("type", "pair_accept"); ("code", code)]);
      OutBinary n (handshake_frame m1); OutBinary n (handshake_frame m3)] ∧
    settled (out c') !! q = Some (inr (GotPeer id key)) ∧ pendingPairAccepts (pend c') = [].
Proof.
  intros (Hm & Hacc & Hres & Hw & Hc) Hvc Hvi Hcode Hid Hkp Hpin Hq -> Hi H2 Hr Hk.
  destruct (turn_call_accept iq c q code n Hacc Hw Hc) as (c1 & E1 & Hacc1 & Hop1 & Htr1 & Hp1 & Hm1 & Hres1 & Ho1).
  rewrite <- Htr1 in Hw, Hc. rewrite Hm in Hm1. rewrite <- Hkp, <- Hop1 in Hi.
  destruct (turn_initiates i1 k c1 q code id (encodeBase64 key) n ti m1 Hvc Hvi (base64_valid _) Hcode Hid Hm1 Hacc1 Hw Hc Hi)
    as (c2 & p & r & E2 & Hst2 & Hs2 & _ & Hp2 & Hres2 & Hw2 & Ho2).
  pose proof (turn_finish i2 k c2 id p _ n r ti m2 (Some m3) ti1 key Hst2 eq_refl eq_refl Hs2 H2 Hr Hk) as Hfin.
  rewrite Hp2, Hp1 in Hfin. pose proof (pin_accepted (in_now i2) c id key Hpin) as Herr.
  destruct (pinOrVerify _ _ _ _) as [err store]. cbn [fst] in Herr. subst err.
  destruct Hfin as (c3 & E3 & Hst3 & Hs3 & _ & _ & Hres3 & Hw3 & Ho3). rewrite Hres2, Hres1, Hres in Hres3. cbn [app] in Hres3.
  destruct (turn_accepted i3 c3 id p _ n r key Hst3 Hres3) as (c4 & E4 & Hst4 & Hs4 & Hw4 & Hsent4 & _ & Hset4); [by right|].
  eexists c4, p, _, r. split.
  { cbn [run]. rewrite E1. cbn [mbind option_bind]. rewrite E2. cbn [mbind option_bind]. rewrite E3. cbn [mbind option_bind].
    by rewrite E4. }
  split_and!; [exact Hst4|done|by rewrite Hs4| | |by rewrite Hw4, Hw3].
  - rewrite Hsent4, Ho3, Ho2, Ho1. cbn [with_sent sent]. by rewrite <- !app_assoc.
  - apply Hset4; [done|]. by rewrite Ho3, Ho2, Ho1.
Qed.

(** The turns of the device that has asked for the code. *)
Lemma requester_turns c n code id A' a A i1 i2 i3 i4 k m1 m2 tr1 m3 tr2 key :
  idle c n → valid_utf8 code → valid_utf8 id → id ≠ "" → keyPair (opts c) = MkKeyPair a A →
  may_pin c id key → A' = encodeBase64 key →
  Ts.handleHandshakeMessage m1 (Ts.startAsResponder (MkKeyPair a A) (in_random i2)) = Some (Some m2, tr1) →
  Ts.isSettled tr1 = false → Ts.handleHandshakeMessage m3 tr1 = Some (None, tr2) → Ts.isReady tr2 = true →
  Ts.s_peerStaticKey tr2 = Some key →
  ∃ c' p pc r, run [(i1, SocketText k (pair_complete code id A')); (i2, SocketBinary k (handshake_frame m1));
                    (i3, SocketBinary k (handshake_frame m3)); (i4, Resume 0)] c = Some c' ∧
    stands c' id p pc n ∧ active pc = Some r ∧ sessions c' !! r = Some tr2 ∧
    sent (out c') = sent (out c) ++ [OutBinary n (handshake_frame m2)] ∧
    events (out c') = events (out c) ++ [ReadyEvent id; Paired id key].
Proof.
  intros (Hm & Hacc & Hres & Hw & Hc) Hvc Hvi Hid Hkp Hpin -> H1 Hset H3 Hr Hk.
  destruct (turn_linked i1 k c code id (encodeBase64 key) n Hvc Hvi (base64_valid _) Hid Hm Hacc Hw Hc)
    as (c1 & p & E1 & Hst1 & Hop1 & Hp1 & Hres1 & Ho1).
  rewrite <- Hkp, <- Hop1 in H1. destruct (turn_first i2 k c1 id p _ n m1 m2 tr1 Hst1 eq_refl eq_refl H1 Hset)
    as (c2 & r & E2 & Hst2 & Hs2 & _ & Hp2 & Hres2 & Ho2).
  pose proof (turn_finish i3 k c2 id p _ n r tr1 m3 None tr2 key Hst2 eq_refl eq_refl Hs2 H3 Hr Hk) as Hfin.
  rewrite Hp2, Hp1 in Hfin. pose proof (pin_accepted (in_now i3) c id key Hpin) as Herr.
  destruct (pinOrVerify _ _ _ _) as [err store]. cbn [fst] in Herr. subst err.
  destruct Hfin as (c3 & E3 & Hst3 & Hs3 & _ & _ & Hres3 & Hw3 & Ho3). rewrite Hres2, Hres1, Hres in Hres3. cbn [app] in Hres3.
  destruct (turn_accepted i4 c3 id p _ n r key Hst3 Hres3) as (c4 & E4 & Hst4 & Hs4 & _ & Hsent4 & He4 & _); [by right|].
  eexists c4, p, _, r. split.
  { cbn [run]. rewrite E1. cbn [mbind option_bind]. rewrite E2. cbn [mbind option_bind]. rewrite E3. cbn [mbind option_bind].
    by rewrite E4. }
  split_and!; [exact Hst4|done|by rewrite Hs4|by rewrite Hsent4, Ho3, Ho2, Ho1|by rewrite He4, Ho3, Ho2, Ho1].
Qed.

(** The session of [t] with [id'] is such that [u] reports, as a message of [id], whatever [t]
    sends with it. *)
Definition talks (t u : Client) (id id' : string) : Prop :=
  ∃ n r s, sessions t !! r = Some s ∧ Ts.isReady s = true ∧ ∀ i i' k q text x s', Ts.encrypt text s = Some (x, s') →
    ∃ t' u', step i (Call (Send q id' text)) t = Some t' ∧ sent (out t') = sent (out t) ++ [OutBinary n (transport_frame x)] ∧
      step i' (SocketBinary k (transport_frame x)) u = Some u' ∧ events (out u') = events (out u) ++ [MessageEvent id text].

Lemma channel_talks t u id id' p pc n r s p' pc' n' r' s' :
  stands t id' p pc n → active pc = Some r → sessions t !! r = Some s →
  stands u id p' pc' n' → active pc' = Some r' → sessions u !! r' = Some s' → channel s s' → talks t u id id'.
Proof.
  intros Ht Ha Hs Hu Ha' Hs' Hch. exists n, r, s. split; [done|]. split.
  { destruct Hch as (Hr & _). unfold Ts.isReady. by rewrite Hr. }
  intros i i' k q text x s2 He.
  destruct (turn_send i t id' p pc n r s q text x s2 Ht Ha Hs He) as (t' & Et & _ & _ & Hsent & _).
  destruct (channel_carries _ _ _ _ _ Hch He) as [s3 Hd].
  destruct (turn_recv i' k u id p' pc' n' r' s' x text s3 Hu Ha' Hs' Hd) as (u' & Eu & _ & _ & _ & Hev).
  exists t', u'. by split_and!.
Qed.

End pairing.

(** ** Against any relay *)

Section safety.
Context `{Suite}.

(** C20: Whatever the relay sends and in whatever order the turns happen, every peer the client
    reports, in the event [paired] or as the result of [acceptPair] or [waitForPairing], has
    the key that is pinned for it at the end; and no pin that there was at the start has
    changed. *)
Theorem reported_peers_pinned url dev kp d m store l c : run l (newClient url dev kp d m store) = Some c →
  (∀ id key, Paired id key ∈ events (out c) ∨ (∃ p, settled (out c) !! p = Some (inr (GotPeer id key))) →
     staticKey <$> pins c !! id = Some (encodeBase64 key)) ∧
  (∀ id pin, store !! id = Some pin → pins c !! id = Some pin).
Proof.
  intros Hr. destruct (run_rel false l _ c Hr (new_ok _ _ _ _ _ _)) as [Hok [He _]]; [done|]. split.
  - intros id key [Hp|[p Hp]]; [by apply (ok_paired _ Hok)|by apply (ok_settled _ Hok p)].
  - exact (ext_pins _ _ He).
Qed.

End safety.

Lemma run_app `{Suite} l l' c : run (l ++ l') c = run l c ≫= run l'.
Proof.
  revert c. induction l as [|[i h] l IH]; intros c; [done|]. cbn [app run].
  destruct (step i h c) as [c1|]; cbn [mbind option_bind]; [apply IH|done].
Qed.

Import ToySuite.

Definition ex_input (c : ascii) : TsClient.input := MkInput 5000 (ex_rnd c) (λ _ _, None).

(** A client with device ID [me] and a socket that is open. *)
Definition ex_online (me : string) (key : ascii) (store : gmap string PinnedPeer) : Client :=
  let c := newClient "ws://relay" me (MkKeyPair (ex_key key) (ex_key key)) 1000 60000 store in
  with_pend (with_auth (Some 1) (pend c)) (with_transport (t_open 0 (t_connect (transport c))) c).

Lemma ex_online_reached me key store :
  run [(ex_input "y", Call (Connect 1)); (ex_input "y", SocketOpen 0)]
    (newClient "ws://relay" me (MkKeyPair (ex_key key) (ex_key key)) 1000 60000 store) = Some (ex_online me key store).
Proof. reflexivity. Qed.

(** ... and one that the relay has told of a peer. *)
Definition ex_told (me peer : string) (key : ascii) (store : gmap string PinnedPeer) : Client :=
  with_peerConns [(peer, 0)] (with_conns {[0 := newPeerConnection peer ""]} (ex_online me key store)).

(** The three messages between a device with key [x], which starts, and one with key [y]. *)
Definition ex_exchange (x y : ascii) (rx ry : nat → bytes) : option unit :=
  '(ti, m1) ← Ts.startAsInitiator (MkKeyPair (ex_key x) (ex_key x)) rx;
  '(m2, tr1) ← Ts.handleHandshakeMessage m1 (Ts.startAsResponder (MkKeyPair (ex_key y) (ex_key y)) ry);
  m2 ← m2; '(m3, ti1) ← Ts.handleHandshakeMessage m2 ti; _ ← m3; Some tt.

Lemma exchange_inv x y rx ry : ex_exchange x y rx ry = Some tt → ∃ ti m1 m2 tr1 m3 ti1,
  Ts.startAsInitiator (MkKeyPair (ex_key x) (ex_key x)) rx = Some (ti, m1) ∧
  Ts.handleHandshakeMessage m1 (Ts.startAsResponder (MkKeyPair (ex_key y) (ex_key y)) ry) = Some (Some m2, tr1) ∧
  Ts.handleHandshakeMessage m2 ti = Some (Some m3, ti1).
Proof.
  unfold ex_exchange. intros E.
  destruct (Ts.startAsInitiator _ _) as [[ti m1]|] eqn:E1; cbn [mbind option_bind] in E; [|discriminate E].
  destruct (Ts.handleHandshakeMessage m1 _) as [[[m2|] tr1]|] eqn:E2; cbn [mbind option_bind] in E; [|discriminate E..].
  destruct (Ts.handleHandshakeMessage m2 ti) as [[[m3|] ti1]|] eqn:E3; cbn [mbind option_bind] in E; [|discriminate E..].
  exists ti, m1, m2, tr1, m3, ti1. split_and!; [reflexivity|exact E2|exact E3].
Qed.

Lemma ex_exchanged : ex_exchange "m" "a" (ex_rnd "x") (ex_rnd "y") = Some tt.
Proof. vm_compute. reflexivity. Qed.

(** Device [a] has pinned key [b] for its peer; device [m] takes the peer's place. *)
Definition ex_pin : PinnedPeer := MkPinned (encodeBase64 (ex_key "b")) 0.

Lemma ex_other_key : staticKey ex_pin ≠ encodeBase64 (ex_key "m").
Proof. vm_compute. discriminate. Qed.

Lemma ex_told_stands : stands (ex_told "a" "b" "a" {["b" := ex_pin]}) "b" 0 (newPeerConnection "b" "") 0.
Proof. split_and!; reflexivity. Qed.

Lemma refused_key_in_use_witness :
  ∃ m1 m3 c', run [(ex_input "y", SocketBinary 0 (handshake_frame m1)); (ex_input "y", SocketBinary 0 (handshake_frame m3));
                   (ex_input "y", Resume 0)] (ex_told "a" "b" "a" {["b" := ex_pin]}) = Some c' ∧
    events (out c') = [ErrorEvent "peer_key_mismatch" (err_message (PeerKeyMismatchError "b"))] ∧
    getPeers c' = [("b", ex_key "m")].
Proof.
  destruct (exchange_inv _ _ _ _ ex_exchanged) as (ti & m1 & m2 & tr1 & m3 & ti1 & E1 & E2 & E3).
  destruct (refused_key_in_use (ex_told "a" "b" "a" {["b" := ex_pin]}) "b" 0 (newPeerConnection "b" "") 0 ex_pin
    (ex_key "a") (ex_key "a") (ex_key "m") (ex_key "m") (ex_rnd "x") (ex_input "y") (ex_input "y") (ex_input "y") 0
    ti m1 m2 tr1 m3 ti1 ex_told_stands eq_refl eq_refl eq_refl eq_refl (ex_public _) (ex_public _) eq_refl ex_other_key
    E1 E2 E3) as (c' & s & Hr & He & Hp & _).
  exists m1, m3, c'. exact (conj Hr (conj He Hp)).
Defined.

Lemma ex_idle me key : idle (ex_online me key ∅) 0.
Proof. split_and!; reflexivity. Qed.

Lemma ex_may_pin me key id k : may_pin (ex_online me key ∅) id k.
Proof. intros pin Hp. change (pins (ex_online me key ∅)) with (∅ : gmap string PinnedPeer) in Hp. by rewrite lookup_empty in Hp. Qed.

Lemma ex_texts : valid_utf8 "483921" ∧ valid_utf8 "a" ∧ valid_utf8 "m".
Proof. split_and!; valid_text. Qed.


(** Device [m] after it has accepted the code, from its start on. *)
Definition ex_new : Client := newClient "ws://relay" "m" (MkKeyPair (ex_key "m") (ex_key "m")) 1000 60000 ∅.

Lemma ex_paired : ∃ l c p pc r s, run l ex_new = Some c ∧
  settled (out c) !! 7 = Some (inr (GotPeer "a" (ex_key "a"))) ∧ pendingPairAccepts (pend c) = [] ∧
  conns c !! p = Some pc ∧ pc_id pc = "a" ∧ active pc = Some r ∧ sessions c !! r = Some s ∧ Ts.isReady s = true.
Proof.
  destruct (exchange_inv _ _ _ _ ex_exchanged) as (ti & m1 & m2 & tr1 & m3 & ti1 & E1 & E2 & E3).
  destruct ex_texts as (V1 & V2 & _).
  destruct (three_messages _ _ _ _ _ _ _ _ _ _ _ _ (ex_public "m") (ex_public "a") E1 E2 E3) as (_ & _ & _ & R & K & _).
  destruct (acceptor_turns (ex_online "m" "m" ∅) 0 7 "483921" "a" _ (ex_key "m") (ex_key "m") (ex_input "x") (ex_input "x")
    (ex_input "x") (ex_input "x") 0 ti m1 m2 m3 ti1 (ex_key "a") (ex_idle _ _) V1 V2 ltac:(discriminate) ltac:(discriminate)
    eq_refl (ex_may_pin _ _ _ _) eq_refl eq_refl E1 E3 R K) as (c & p & pc & r & Hrun & (_ & Hc & Hid & _) & Ha & Hs & _ & Hset & Hw).
  eexists _, c, p, pc, r, ti1. split; [|by split_and!].
  erewrite (run_app [(ex_input "y", Call (Connect 1)); (ex_input "y", SocketOpen 0)]).
  unfold ex_new. rewrite ex_online_reached. exact Hrun.
Qed.

Lemma reported_peers_pinned_witness : ∃ l c, run l ex_new = Some c ∧
  settled (out c) !! 7 = Some (inr (GotPeer "a" (ex_key "a"))) ∧
  staticKey <$> pins c !! "a" = Some (encodeBase64 (ex_key "a")).
Proof.
  destruct ex_paired as (l & c & p & pc & r & s & Hrun & Hset & _).
  exists l, c. split; [exact Hrun|]. split; [exact Hset|].
  apply (reported_peers_pinned _ _ _ _ _ _ l c Hrun). right. exists 7. exact Hset.
Defined.

