(* ===== verification/PeerStore.v ===== *)
(** * Pinned peer keys (src/sdk/go/peerstore.go)

    The store is the in-memory map together with the map the file on disk encodes.
    Saving writes a temporary file and renames it, so the file is replaced whole or not
    at all; [saved] says whether the three file operations succeeded. *)

From S2P Require Import Prelude Keys Noise.

Record pinnedPeer := PinnedPeer { StaticKey : string; PinnedAt : string }.

Record PeerStore := MkPeerStore {
  pins : gmap string pinnedPeer;
  on_disk : option (gmap string pinnedPeer)      (* [None]: no file *)
}.

(** [LoadPeerStore] of a file that is absent, or encodes a map. *)
Definition LoadPeerStore (file : option (gmap string pinnedPeer)) : PeerStore :=
  MkPeerStore (default ∅ file) file.

Definition saveLocked (saved : bool) (ps : PeerStore) : option sdkerr * PeerStore :=
  if saved then (None, MkPeerStore (pins ps) (Some (pins ps))) else (Some ErrStore, ps).

Definition PinOrVerify (saved : bool) (stamp peerID staticKeyB64 : string) (ps : PeerStore)
    : option sdkerr * PeerStore :=
  match pins ps !! peerID with
  | Some existing =>
      if decide (StaticKey existing ≠ staticKeyB64) then (Some ErrPeerKeyMismatch, ps)
      else (None, ps)
  | None =>
      saveLocked saved
        (MkPeerStore (<[peerID := PinnedPeer staticKeyB64 stamp]> (pins ps)) (on_disk ps))
  end.

Definition Get (peerID : string) (ps : PeerStore) : string * bool :=
  match pins ps !! peerID with Some p => (StaticKey p, true) | None => ("", false) end.

(** ** Properties *)

Lemma PinOrVerify_pins saved stamp id k ps e ps' :
  PinOrVerify saved stamp id k ps = (e, ps') →
  (∀ x p, pins ps !! x = Some p → pins ps' !! x = Some p) ∧
  (∃ p, pins ps' !! id = Some p ∧ (e ≠ Some ErrPeerKeyMismatch → StaticKey p = k)) ∧
  (∀ x, x ≠ id → pins ps' !! x = pins ps !! x) ∧
  (e = Some ErrPeerKeyMismatch ↔ ∃ p, pins ps !! id = Some p ∧ StaticKey p ≠ k).
Proof.
  unfold PinOrVerify. destruct (pins ps !! id) as [p|] eqn:E.
  - case_decide; intros [= <- <-]; naive_solver.
  - unfold saveLocked. destruct saved; intros [= <- <-]; simpl;
      (split_and!;
       [intros x p Hx; rewrite lookup_insert_ne; congruence
       |rewrite lookup_insert_eq; by eexists
       |intros x Hx; by rewrite lookup_insert_ne
       |naive_solver]).
Qed.

(** One call, with the outcome of its save. *)
Definition pin_call (ps : PeerStore) (c : bool * string * string * string) : PeerStore :=
  let '(saved, stamp, id, k) := c in (PinOrVerify saved stamp id k ps).2.

(** Trust on first use: the first key pinned for a peer stays pinned through any
    sequence of calls for any peers, saving failures included; a call for that peer
    succeeds or reports a mismatch exactly according to that key; and when every save
    works, reloading the file gives the pins in memory. *)
Theorem pins_immutable ps calls id p :
  pins ps !! id = Some p →
  let ps' := foldl pin_call ps calls in
  pins ps' !! id = Some p ∧
  (∀ saved stamp k, (PinOrVerify saved stamp id k ps').1 =
     if decide (k = StaticKey p) then None else Some ErrPeerKeyMismatch) ∧
  (Forall (λ c, c.1.1.1 = true) calls → on_disk ps = Some (pins ps) →
   pins (LoadPeerStore (on_disk ps')) = pins ps').
Proof.
  intros Hp ps'.
  assert (pins ps' !! id = Some p) as Hp'.
  { unfold ps'. clear ps'. revert ps Hp. induction calls as [|[[[b st] i] k] cs IH]; intros ps Hp; [done|].
    apply IH. simpl. destruct (PinOrVerify b st i k ps) as [e ps1] eqn:E.
    by apply PinOrVerify_pins in E as [E _]; apply E. }
  split_and!; [done|..].
  - intros saved stamp k. unfold PinOrVerify. rewrite Hp'. repeat case_decide; naive_solver.
  - unfold ps'. clear ps' Hp Hp'. revert ps. induction calls as [|[[[b st] i] k] cs IH];
      intros ps Hall Hd; simpl in *; [by rewrite Hd|].
    apply Forall_cons in Hall as [Hb Hall]. simpl in Hb. subst b. apply IH; [done|].
    unfold PinOrVerify. repeat case_match; done.
Qed.

Lemma pins_immutable_witness :
  let ps := LoadPeerStore (Some {["bob" := PinnedPeer "k1" "t"]}) in
  let ps' := foldl pin_call ps [(true, "t", "bob", "k2"); (true, "t", "eve", "k3")] in
  pins ps' !! "bob" = Some (PinnedPeer "k1" "t") ∧
  (PinOrVerify true "t" "bob" "k2" ps').1 = Some ErrPeerKeyMismatch.
Proof.
  destruct (pins_immutable (LoadPeerStore (Some {["bob" := PinnedPeer "k1" "t"]}))
    [(true, "t", "bob", "k2"); (true, "t", "eve", "k3")] "bob" (PinnedPeer "k1" "t"))
    as (H1 & H2 & _); [by vm_compute|].
  split; [exact H1|]. exact (H2 true "t" "k2").
Defined.
