(* ===== verification/IndentJson.v ===== *)
(** * Indented JSON

    Objects and strings printed over several lines, as [json.Indent] of Go, [JSON.stringify]
    with an indentation and [json.dumps] of Python print them.  They differ in how they
    print a string, which is a parameter: any text that reads back as the string will do. *)

From S2P Require Import Prelude Keys Json.

Definition nl (n : nat) : list ascii := newline :: replicate (2 * n) " "%char.

Fixpoint lines (n : nat) (l : list (list ascii)) : list ascii :=
  match l with
  | [] => []
  | [x] => x
  | x :: l => x ++ ","%char :: nl n ++ lines n l
  end.

Section indent.
Context (pstr : string → list ascii).

(** An indentation of two blanks, at depth [n]. *)
Fixpoint indent_with (n : nat) (j : json) : list ascii :=
  match j with
  | JObj [] => chars "{}"
  | JArr [] => chars "[]"
  | JObj l =>
      "{"%char :: nl (S n) ++
        lines (S n) ((λ kv, pstr kv.1 ++ ":"%char :: " "%char :: indent_with (S n) kv.2) <$> l) ++
        nl n ++ ["}"%char]
  | JArr l => "["%char :: nl (S n) ++ lines (S n) (indent_with (S n) <$> l) ++ nl n ++ ["]"%char]
  | JStr s => pstr s
  | _ => jprint j
  end.

(** Values built from strings and objects. *)
Fixpoint obj_json (j : json) : Prop :=
  match j with
  | JStr _ => True
  | JObj l => foldr (λ kv acc, obj_json kv.2 ∧ acc) True l
  | _ => False
  end.

Hypothesis pstr_reads : ∀ s rest, parse_str (pstr s ++ rest) = Some (sanitize s, rest).
Hypothesis pstr_quoted : ∀ s, ∃ l, pstr s = quote :: l.

Lemma skip_pstr s rest : skip_ws (pstr s ++ rest) = pstr s ++ rest.
Proof. by destruct (pstr_quoted s) as [l ->]. Qed.

Lemma parse_pstr fuel depth s rest : parse_value (S fuel) depth (pstr s ++ rest) = Some (JStr (sanitize s), rest).
Proof.
  pose proof (pstr_reads s rest) as E. destruct (pstr_quoted s) as [l El]. rewrite El in *. cbn [parse_value]. simpl in *. by rewrite E.
Qed.

Lemma skip_ws_nl n l : skip_ws (nl n ++ l) = skip_ws l.
Proof. unfold nl. simpl. generalize (n + (n + 0)). intros k. by induction k. Qed.

Lemma parse_value_skip fuel depth l l' :
  skip_ws l = skip_ws l' → parse_value fuel depth l = parse_value fuel depth l'.
Proof. intros E. destruct fuel as [|fuel]; [done|]. cbn [parse_value]. by rewrite E. Qed.

Lemma parse_members_skip fuel depth l l' :
  skip_ws l = skip_ws l' → parse_members fuel depth l = parse_members fuel depth l'.
Proof. intros E. destruct fuel as [|fuel]; [done|]. cbn [parse_members]. by rewrite E. Qed.

Lemma parse_value_members fuel depth l l' :
  (depth + 1 ≤ maxNestingDepth)%Z → skip_ws l = "034"%char :: l' →
  parse_value (S fuel) depth ("{"%char :: l) =
    '(ms, r) ← parse_members fuel (depth + 1) l; Some (JObj ms, r).
Proof.
  intros Hd E. cbn -[maxNestingDepth parse_members is_ws skip_ws].
  change (skip_ws ("{"%char :: l)) with ("{"%char :: l).
  cbn -[maxNestingDepth parse_members is_ws skip_ws].
  rewrite (proj2 (Z.ltb_ge _ _)) by lia. by rewrite E.
Qed.

Definition indent_reads_back (j : json) : Prop :=
  ∀ n fuel depth rest, obj_json j → jsize j ≤ fuel →
    (depth + jdepth j ≤ maxNestingDepth)%Z →
    parse_value fuel depth (indent_with n j ++ rest) = Some (jsan j, rest).

Lemma lines_cons n x y (l : list (list ascii)) :
  lines n (x :: y :: l) = x ++ ","%char :: nl n ++ lines n (y :: l).
Proof. done. Qed.

Lemma parse_members_indent l n m fuel depth rest :
  Forall (λ kv, indent_reads_back kv.2) l → l ≠ [] →
  foldr (λ kv acc, obj_json kv.2 ∧ acc) True l →
  foldr (λ kv acc, S (Nat.max (jsize kv.2) acc)) 0 l ≤ fuel →
  (depth + foldr (λ kv acc, Z.max (jdepth kv.2) acc) 0 l ≤ maxNestingDepth)%Z →
  parse_members fuel depth
    (lines n ((λ kv, pstr kv.1 ++ ":"%char :: " "%char :: indent_with n kv.2) <$> l) ++
     nl m ++ "}"%char :: rest) =
  Some ((λ kv, (sanitize kv.1, jsan kv.2)) <$> l, rest).
Proof.
  intros Hl. revert fuel. induction Hl as [|[k x] l Hx Hl IH]; intros fuel Hne Hi Hf Hd; [done|].
  cbn [foldr fst snd] in Hi, Hf, Hd, Hx. destruct Hi as [Hix Hi].
  destruct fuel as [|fuel]; [lia|]. cbn [parse_members].
  pose proof (skip_pstr k) as Hk.
  assert (∀ r, skip_ws (":"%char :: r) = ":"%char :: r) as Hc by (intros r; done).
  assert (∀ r, parse_value fuel depth (" "%char :: indent_with n x ++ r) = Some (jsan x, r)) as Hv.
  { intros r. rewrite (parse_value_skip _ _ _ (indent_with n x ++ r)) by done.
    apply Hx; [done|lia|lia]. }
  destruct l as [|y l].
  - cbn [fmap list_fmap lines fst snd]. rewrite <- app_assoc, Hk, pstr_reads.
    cbn [mbind option_bind app]. rewrite Hc, Hv. cbn [mbind option_bind].
    by rewrite skip_ws_nl.
  - rewrite !fmap_cons, lines_cons, <- !app_assoc. cbn [fst snd]. rewrite Hk, pstr_reads.
    cbn [mbind option_bind app]. rewrite Hc, <- app_assoc, Hv. cbn [mbind option_bind app].
    cbn [skip_ws is_ws]. change (is_ws ",") with false. cbv iota.
    specialize (IH fuel ltac:(done) Hi ltac:(lia) ltac:(lia)).
    rewrite !fmap_cons in IH. cbn [fst snd] in IH. rewrite <- ?app_assoc.
    rewrite (parse_members_skip _ _ _ _ (skip_ws_nl _ _)).
    cbn [fst snd] in *. by rewrite IH.
Qed.

Lemma indented_reads_back j : indent_reads_back j.
Proof.
  induction j as [|b|lit|s|l IH|l IH] using json_nested_ind;
    intros n fuel depth rest Hi Hf Hd; try done; (destruct fuel as [|fuel]; [simpl in Hf; lia|]).
  - apply parse_pstr.
  - cbn [jsize jdepth obj_json] in Hf, Hd, Hi. apply le_S_n in Hf. rewrite Z.add_assoc in Hd.
    assert (depth + 1 ≤ maxNestingDepth)%Z as Hd1
      by (etrans; [|exact Hd]; pose proof (obj_depth_nonneg l); lia).
    cbn [jsan]. destruct l as [|[k x] l].
    { simpl. by rewrite (proj2 (Z.ltb_ge _ _)) by lia. }
    pose proof (parse_members_indent ((k, x) :: l) (S n) n fuel (depth + 1) rest IH) as Hp.
    specialize (Hp ltac:(done) Hi Hf Hd).
    rewrite fmap_cons in *. cbn [indent_with]. rewrite fmap_cons.
    match type of Hp with context [lines (S n) ?L] =>
      set (text := lines (S n) L) in Hp;
      match goal with |- context [lines (S n) ?L'] => change (lines (S n) L') with text end;
      assert (∃ l'', text = "034"%char :: l'') as [l'' E2]
        by (unfold text; destruct (pstr_quoted k) as [q Eq]; destruct l; simpl; rewrite Eq; simpl; eauto) end.
    clearbody text. subst text. cbn [app] in *. rewrite <- !app_assoc. cbn [app].
    erewrite parse_value_members; [|done|rewrite skip_ws_nl; reflexivity].
    rewrite (parse_members_skip _ _ _ _ (skip_ws_nl _ _)).
    rewrite <- !app_assoc. cbn [app]. by rewrite Hp.
Qed.

Lemma indent_size j n : obj_json j → jsize j ≤ length (indent_with n j).
Proof.
  revert n. induction j as [|b|lit|s|l IH|l IH] using json_nested_ind; intros n Hi; try done.
  - cbn [indent_with jsize]. destruct (pstr_quoted s) as [q ->]. simpl. lia.
  - cbn [obj_json] in Hi. cbn [jsize].
    destruct l as [|kv l]; [simpl; lia|]. cbn [indent_with length]. rewrite !length_app.
    apply le_n_S. etrans; [|apply Nat.le_add_l]. etrans; [|apply Nat.le_add_r].
    remember (kv :: l) as l0 eqn:E. clear E kv l.
    induction IH as [|x l Hx IH' IHl]; [simpl; lia|]. destruct Hi as [Hi1 Hi2].
    specialize (Hx (S n) Hi1). specialize (IHl Hi2).
    destruct l as [|y l]; [cbn [foldr fmap list_fmap lines]; rewrite length_app; simpl; lia|].
    rewrite !fmap_cons, lines_cons, !length_app. rewrite fmap_cons in IHl.
    cbn [foldr length] in *. rewrite length_app. lia.
Qed.

Lemma Parse_indent j :
  obj_json j → (jdepth j ≤ maxNestingDepth)%Z → Parse (of_chars (indent_with 0 j)) = Some (jsan j).
Proof.
  intros Hi Hd. unfold Parse. rewrite chars_of_chars.
  pose proof (indent_size j 0 Hi) as Hs.
  pose proof (indented_reads_back j 0 (S (length (indent_with 0 j))) 0%Z [] Hi) as E.
  rewrite app_nil_r in E. rewrite E by (done || lia). done.
Qed.
End indent.
