(* ===== verification/PeerFile.v ===== *)
(** * The peer store's file (src/sdk/go/peerstore.go)

    [PeerStore] keeps the pins and the pins on disk as maps.  Here the disk holds text:
    the JSON that [json.MarshalIndent] writes for the map, with its keys sorted, and what
    [json.Unmarshal] reads from any text.  A store survives a restart, and a save that is
    cut off anywhere leaves the old file or the new one. *)

From S2P Require Import Prelude Keys Json IndentJson Wire Noise PeerStore.

(** ** The file's text *)

(** [json.Indent] with an empty prefix and an indentation of two blanks. *)
Definition jindent : nat → json → list ascii := indent_with print_str.

Lemma Parse_jindent j :
  obj_json j → (jdepth j ≤ maxNestingDepth)%Z → Parse (of_chars (jindent 0 j)) = Some (jsan j).
Proof. apply Parse_indent; [exact parse_print_str|by eexists]. Qed.

Lemma encodeBase64_valid b : valid_utf8 (encodeBase64 b).
Proof. apply valid_ascii. unfold encodeBase64. rewrite chars_of_chars. apply encode64_ascii. Qed.

Definition pin_json (p : pinnedPeer) : json :=
  JObj [("static_key", JStr (StaticKey p)); ("pinned_at", JStr (PinnedAt p))].

Definition key_le (x y : string * pinnedPeer) : Prop := String.leb x.1 y.1 = true.
#[global] Instance key_le_dec x y : Decision (key_le x y).
Proof. unfold key_le. apply _. Defined.

(** [json.MarshalIndent] of the map: its keys in byte order. *)
Definition MarshalIndent (m : gmap string pinnedPeer) : bytes :=
  of_chars (jindent 0
    (JObj ((λ kv, (kv.1, pin_json kv.2)) <$> merge_sort key_le (map_to_list m)))).

Definition pin_tags : list (string * bool) := [("static_key", false); ("pinned_at", true)].

Definition pin_field (p : pinnedPeer) (kv : string * json) : option pinnedPeer :=
  match find_field pin_tags kv.1 with
  | None => Some p
  | Some false => s ← dec_string (StaticKey p) kv.2; Some (PinnedPeer s (PinnedAt p))
  | Some true => s ← dec_string (PinnedAt p) kv.2; Some (PinnedPeer (StaticKey p) s)
  end.

(** Every value of the map starts from the zero struct. *)
Definition dec_pin (j : json) : option pinnedPeer :=
  match j with
  | JNull => Some (PinnedPeer "" "")
  | JObj l => fold_fields pin_field (PinnedPeer "" "") l
  | _ => None
  end.

Definition pin_entry (m : gmap string pinnedPeer) (kv : string * json)
    : option (gmap string pinnedPeer) :=
  p ← dec_pin kv.2; Some (<[kv.1 := p]> m).

(** [json.Unmarshal] into the empty map: [None] is an error, [Some None] the nil map
    that the text [null] stores. *)
Definition UnmarshalPins (text : bytes) : option (option (gmap string pinnedPeer)) :=
  match Parse text with
  | Some JNull => Some None
  | Some (JObj l) => Some <$> fold_fields pin_entry ∅ l
  | _ => None
  end.

(** Strings that survive JSON. *)
Definition clean_pins (m : gmap string pinnedPeer) : Prop :=
  map_Forall (λ id p, valid_utf8 id ∧ valid_utf8 (StaticKey p) ∧ valid_utf8 (PinnedAt p)) m.

Lemma dec_pin_san p :
  valid_utf8 (StaticKey p) → valid_utf8 (PinnedAt p) → dec_pin (jsan (pin_json p)) = Some p.
Proof.
  destruct p as [k t]. cbn [StaticKey PinnedAt]. intros H1 H2.
  change (dec_pin _) with (Some (PinnedPeer (sanitize k) (sanitize t))).
  by rewrite !sanitize_valid.
Qed.

Lemma fold_pins l m :
  Forall (λ kv : string * pinnedPeer,
            valid_utf8 kv.1 ∧ valid_utf8 (StaticKey kv.2) ∧ valid_utf8 (PinnedAt kv.2)) l →
  fold_fields pin_entry m
    ((λ kv, (sanitize kv.1, jsan kv.2)) <$> ((λ kv, (kv.1, pin_json kv.2)) <$> l)) =
  Some (list_to_map (reverse l) ∪ m).
Proof.
  intros Hl. revert m. induction Hl as [|[k p] l (H1 & H2 & H3) Hl IH]; intros m.
  - simpl. by rewrite (left_id_L ∅ (∪)).
  - rewrite !fmap_cons. cbn [fold_fields fst snd] in *. 
    assert (pin_entry m (sanitize k, jsan (pin_json p)) = Some (<[sanitize k := p]> m)) as ->
      by (unfold pin_entry; cbn [fst snd]; by rewrite dec_pin_san).
    cbn [mbind option_bind]. rewrite sanitize_valid, IH by done.
    rewrite reverse_cons, list_to_map_app. cbn [list_to_map foldr].
    rewrite <- (assoc_L (∪)). f_equal. f_equal.
    cbn [fst snd]. rewrite insert_empty. by rewrite insert_union_singleton_l.
Qed.

Lemma obj_json_pins (l : list (string * pinnedPeer)) :
  obj_json (JObj ((λ kv, (kv.1, pin_json kv.2)) <$> l)).
Proof. cbn [obj_json]. induction l as [|kv l IH]; [done|]. rewrite fmap_cons. by repeat split. Qed.

Lemma jdepth_pins (l : list (string * pinnedPeer)) :
  (jdepth (JObj ((λ kv, (kv.1, pin_json kv.2)) <$> l)) ≤ 2)%Z.
Proof.
  cbn [jdepth]. induction l as [|kv l IH]; [simpl; lia|]. rewrite fmap_cons.
  cbn [foldr fst snd]. change (jdepth (pin_json _)) with 1%Z. lia.
Qed.

Lemma pins_round_trip m : clean_pins m → UnmarshalPins (MarshalIndent m) = Some (Some m).
Proof.
  intros Hm. unfold UnmarshalPins, MarshalIndent.
  set (l := merge_sort key_le (map_to_list m)).
  assert (l ≡ₚ map_to_list m) as Hp by apply merge_sort_Permutation.
  rewrite Parse_jindent; [|apply obj_json_pins|etrans; [apply jdepth_pins|done]].
  cbn [jsan]. rewrite fold_pins.
  - rewrite (right_id_L ∅ (∪)). cbn. do 2 f_equal.
    rewrite <- (list_to_map_to_list m). apply list_to_map_proper.
    + rewrite fmap_reverse, reverse_Permutation, Hp. apply NoDup_fst_map_to_list.
    + by rewrite reverse_Permutation, Hp.
  - rewrite Hp. apply Forall_forall. intros [k p] Hin. apply elem_of_map_to_list in Hin.
    exact (Hm k p Hin).
Qed.

(** ** The store and its file *)

(** [fs_peers] is [None] for the nil map. *)
Record FileStore := MkFileStore { fs_path : string; fs_peers : option (gmap string pinnedPeer) }.

Definition LoadPeerFile (home : option string) (path : string) (d : disk) : sdkerr + FileStore :=
  let path := expandHome home path in
  match ReadFile path d with
  | inl ErrNotExist => inr (MkFileStore path (Some ∅))
  | inl _ => inl ErrStore
  | inr data =>
      if decide (data = "") then inr (MkFileStore path (Some ∅))
      else match UnmarshalPins data with
           | None => inl ErrStore
           | Some m => inr (MkFileStore path m)
           end
  end.

Definition tmp_path (path : string) : string := path +:+ ".tmp".

(** How the file operations of one save end: the first that fails, or none. *)
Inductive save_end :=
  | NoDirectory | NotOpened | WroteOnly (n : nat) | NotRenamed | Completed.

(** A save through a temporary file: whether it succeeds, and what it leaves on the disk. *)
Definition save_text (o : save_end) (tmp path : string) (data : bytes) (d : gmap string bytes) : bool * gmap string bytes :=
  match o with
  | NoDirectory | NotOpened => (false, d)
  | WroteOnly n => (false, <[tmp := of_chars (take n (chars data))]> d)
  | NotRenamed => (false, <[tmp := data]> d)
  | Completed => (true, <[path := data]> (delete tmp d))
  end.

Definition saveFile (o : save_end) (path : string) (m : gmap string pinnedPeer)
    (d : gmap string bytes) : option sdkerr * gmap string bytes :=
  let '(ok, d') := save_text o (tmp_path path) path (MarshalIndent m) d in
  (if ok then None else Some ErrStore, d').

Inductive pin_outcome (A : Type) := Panics | Returns (a : A).
Arguments Panics {A}.
Arguments Returns {A} a.

(** Assigning to the nil map panics. *)
Definition PinOrVerifyFile (o : save_end) (stamp peerID staticKeyB64 : string) (fs : FileStore)
    (d : gmap string bytes) : pin_outcome (option sdkerr) * FileStore * gmap string bytes :=
  match fs_peers fs ≫= (λ m, m !! peerID), fs_peers fs with
  | Some existing, _ =>
      (Returns (if decide (StaticKey existing ≠ staticKeyB64) then Some ErrPeerKeyMismatch else None),
       fs, d)
  | None, None => (Panics, fs, d)
  | None, Some m =>
      let m' := <[peerID := PinnedPeer staticKeyB64 stamp]> m in
      let '(e, d') := saveFile o (fs_path fs) m' d in
      (Returns e, MkFileStore (fs_path fs) (Some m'), d')
  end.

Definition GetFile (peerID : string) (fs : FileStore) : string * bool :=
  match fs_peers fs ≫= (λ m, m !! peerID) with
  | Some p => (StaticKey p, true)
  | None => ("", false)
  end.

(** What the file holds: the pins it decodes to, none when it is absent or empty. *)
Definition file_pins (path : string) (d : gmap string bytes) : option (gmap string pinnedPeer) :=
  match d !! path with
  | None => Some ∅
  | Some data => if decide (data = "") then Some ∅ else UnmarshalPins data ≫= id
  end.

Lemma tmp_path_ne path : tmp_path path ≠ path.
Proof.
  unfold tmp_path. intros E. apply (f_equal (λ s, length (chars s))) in E.
  rewrite chars_app, length_app in E. simpl in E. lia.
Qed.

Lemma MarshalIndent_nonempty m : MarshalIndent m ≠ "".
Proof.
  unfold MarshalIndent. cbn [jindent indent_with]. by destruct ((λ kv, _) <$> merge_sort _ _).
Qed.

Lemma file_pins_written path m d : clean_pins m → file_pins path (<[path := MarshalIndent m]> d) = Some m.
Proof.
  intros Hm. unfold file_pins. rewrite lookup_insert_eq, decide_False by apply MarshalIndent_nonempty.
  by rewrite pins_round_trip.
Qed.

Lemma LoadPeerFile_pins path d failing m :
  path ∉ failing → file_pins path d = Some m →
  LoadPeerFile None path (Disk d failing) = inr (MkFileStore path (Some m)).
Proof.
  unfold LoadPeerFile, ReadFile, file_pins. cbn [expandHome files Keys.failing].
  intros Hf Hm. assert (expandHome None path = path) as -> by (unfold expandHome; by repeat case_match).
  rewrite decide_False by done. destruct (d !! path) as [data|]; [|by simplify_eq].
  case_decide; [by simplify_eq|]. by destruct (UnmarshalPins data) as [[m'|]|]; simplify_eq/=.
Qed.

(** ** Refinement of the abstract store *)

Definition store_rel (fs : FileStore) (d : gmap string bytes) (ps : PeerStore) : Prop :=
  fs_peers fs = Some (pins ps) ∧ clean_pins (pins ps) ∧
  file_pins (fs_path fs) d = Some (default ∅ (on_disk ps)).

Lemma clean_insert id k stamp m :
  valid_utf8 id → valid_utf8 k → valid_utf8 stamp → clean_pins m →
  clean_pins (<[id := PinnedPeer k stamp]> m).
Proof. intros ???. by apply map_Forall_insert_2. Qed.

Lemma file_pins_same path d d' : d' !! path = d !! path → file_pins path d' = file_pins path d.
Proof. unfold file_pins. by intros ->. Qed.

Lemma saveFile_file o path m d e d' :
  saveFile o path m d = (e, d') → clean_pins m →
  match o with
  | Completed => e = None ∧ file_pins path d' = Some m
  | _ => e = Some ErrStore ∧ d' !! path = d !! path
  end.
Proof.
  intros E Hm. unfold saveFile in E. destruct o; simplify_eq/=; split; try done;
    try by rewrite lookup_insert_ne by apply tmp_path_ne.
  by apply file_pins_written.
Qed.

(** The store that keeps its pins as indented JSON in a file implements the abstract
    store of pins in memory and pins on disk, for every way the file operations of a save
    can end: the same result, the same pins in memory, and a file that decodes to the
    pins on disk (the old ones unless every operation succeeded). *)
Theorem peer_file_refines o stamp id k fs d ps :
  store_rel fs d ps → valid_utf8 id → valid_utf8 k → valid_utf8 stamp →
  let saved := match o with Completed => true | _ => false end in
  let '(r, fs', d') := PinOrVerifyFile o stamp id k fs d in
  let '(e, ps') := PinOrVerify saved stamp id k ps in
  r = Returns e ∧ store_rel fs' d' ps' ∧ GetFile id fs' = Get id ps'.
Proof.
  intros (Hp & Hc & Hd) H1 H2 H3 saved. unfold PinOrVerifyFile, PinOrVerify, GetFile, Get.
  rewrite Hp. cbn [mbind option_bind]. destruct (pins ps !! id) as [p|] eqn:E.
  - case_decide; rewrite Hp; cbn [mbind option_bind]; by rewrite E.
  - destruct (saveFile _ _ _ d) as [e d'] eqn:Es. apply saveFile_file in Es; [|by apply clean_insert].
    unfold store_rel, saveLocked. cbn [fs_peers mbind option_bind].
    destruct o; destruct Es as [-> Es]; subst saved; cbn [pins on_disk fs_peers fs_path];
      rewrite lookup_insert_eq; (split_and!; [done|done|by apply clean_insert| |done]);
      first [done | by rewrite (file_pins_same _ _ _ Es)].
Qed.

Definition ex_pins : gmap string pinnedPeer := {["bob" := PinnedPeer "a2V5" "2025-01-01T00:00:00Z"]}.

Lemma clean_ex_pins : clean_pins ex_pins.
Proof. apply map_Forall_singleton. split_and!; valid_text. Qed.

Lemma peer_file_refines_witness :
  let fs := MkFileStore "peers.json" (Some ex_pins) in
  let d := <["peers.json" := MarshalIndent ex_pins]> ∅ in
  let '(r, fs', d') := PinOrVerifyFile Completed "2025-01-02T00:00:00Z" "eve" "b3RoZXI=" fs d in
  r = Returns None ∧ GetFile "eve" fs' = ("b3RoZXI=", true).
Proof.
  intros fs d.
  assert (store_rel fs d (MkPeerStore ex_pins (Some ex_pins))) as Hr.
  { split_and!; [done|exact clean_ex_pins|exact (file_pins_written _ _ _ clean_ex_pins)]. }
  pose proof (peer_file_refines Completed "2025-01-02T00:00:00Z" "eve" "b3RoZXI=" fs d
    (MkPeerStore ex_pins (Some ex_pins)) Hr ltac:(valid_text)
    ltac:(valid_text) ltac:(valid_text)) as R.
  cbv zeta in R. destruct (PinOrVerifyFile _ _ _ _ _ _) as [[r fs'] d'].
  destruct (PinOrVerify _ _ _ _ _) as [e ps'] eqn:E.
  destruct R as (-> & _ & ->). unfold PinOrVerify in E.
  change (pins _ !! "eve") with (@None pinnedPeer) in E. unfold saveLocked in E. cbv iota in E.
  injection E as <- <-. done.
Defined.

(** A file that holds the text [null] loads without an error, and pinning then panics. *)
Lemma null_file_panics o stamp id k path failing :
  path ∉ failing → expandHome None path = path →
  ∃ fs, LoadPeerFile None path (Disk {[path := "null"]} failing) = inr fs ∧
    PinOrVerifyFile o stamp id k fs {[path := "null"]} = (Panics, fs, {[path := "null"]}).
Proof.
  intros Hf Hp. exists (MkFileStore path None). split; [|done].
  unfold LoadPeerFile, ReadFile. rewrite Hp. cbn [files Keys.failing]. rewrite decide_False by done.
  by rewrite lookup_singleton_eq.
Qed.

(** ** Crashes and restarts *)

(** Where a save is: before [MkdirAll], before [WriteFile], with [k] bytes of the
    temporary file written, before [Rename], or ended. *)
Inductive save_pc := AtMkdir | AtWrite | Writing (k : nat) | AtRename | SaveDone | SaveFailed.

(** A process with a peer store: not running, idle, or inside a save of [data]. *)
Inductive process :=
  | Down
  | Idle (m : gmap string pinnedPeer)
  | Saving (m : gmap string pinnedPeer) (pc : save_pc).

Record machine := Machine { proc : process; fdisk : gmap string bytes }.

Section machine.
Context (path : string).

(** One file operation of [saveLocked] on the disk; every one of them can fail. *)
Inductive save_step (data : bytes) : save_pc * gmap string bytes → save_pc * gmap string bytes → Prop :=
  | SMkdir d : save_step data (AtMkdir, d) (AtWrite, d)
  | SOpen d : save_step data (AtWrite, d) (Writing 0, <[tmp_path path := ""]> d)
  | SWrite k k' d :
      k < k' ≤ slen data →
      save_step data (Writing k, d)
        (Writing k', <[tmp_path path := of_chars (take k' (chars data))]> d)
  | SClose d : save_step data (Writing (slen data), d) (AtRename, d)
  | SRename b d :
      d !! tmp_path path = Some b →
      save_step data (AtRename, d) (SaveDone, <[path := b]> (delete (tmp_path path) d))
  | SFail pc d : pc ≠ SaveDone → save_step data (pc, d) (SaveFailed, d).

(** The process loads the store, pins, saves, and can be killed at any moment. *)
Inductive machine_step : machine → machine → Prop :=
  | WLoad d m :
      LoadPeerFile None path (Disk d ∅) = inr (MkFileStore path (Some m)) →
      machine_step (Machine Down d) (Machine (Idle m) d)
  | WPin m d id k stamp :
      m !! id = None → valid_utf8 id → valid_utf8 k → valid_utf8 stamp →
      machine_step (Machine (Idle m) d) (Machine (Saving (<[id := PinnedPeer k stamp]> m) AtMkdir) d)
  | WSave m pc pc' d d' :
      save_step (MarshalIndent m) (pc, d) (pc', d') →
      machine_step (Machine (Saving m pc) d) (Machine (Saving m pc') d')
  | WReturn m pc d :
      pc = SaveDone ∨ pc = SaveFailed →
      machine_step (Machine (Saving m pc) d) (Machine (Idle m) d)
  | WKill p d : machine_step (Machine p d) (Machine Down d).

(** The temporary file holds what a save has written so far. *)
Definition tmp_ok (m : gmap string pinnedPeer) (pc : save_pc) (d : gmap string bytes) : Prop :=
  match pc with
  | Writing k => d !! tmp_path path = Some (of_chars (take k (chars (MarshalIndent m))))
  | AtRename => d !! tmp_path path = Some (MarshalIndent m)
  | SaveDone => file_pins path d = Some m
  | _ => True
  end.

(** The file always decodes, to pins the running process has. *)
Definition machine_ok (w : machine) : Prop :=
  ∃ f, file_pins path (fdisk w) = Some f ∧ clean_pins f ∧
    match proc w with
    | Down => True
    | Idle m => clean_pins m ∧ f ⊆ m
    | Saving m pc => clean_pins m ∧ f ⊆ m ∧ tmp_ok m pc (fdisk w)
    end.

Lemma save_step_file m pc d pc' d' :
  save_step (MarshalIndent m) (pc, d) (pc', d') → clean_pins m → tmp_ok m pc d →
  tmp_ok m pc' d' ∧ (file_pins path d' = file_pins path d ∨ file_pins path d' = Some m).
Proof.
  intros Hs Hm Ht. inversion Hs; subst; cbn [tmp_ok] in *.
  - auto.
  - rewrite lookup_insert_eq. split; [done|left].
    apply file_pins_same. by rewrite lookup_insert_ne by apply tmp_path_ne.
  - rewrite lookup_insert_eq. split; [done|left].
    apply file_pins_same. by rewrite lookup_insert_ne by apply tmp_path_ne.
  - split; [|by left]. rewrite Ht. f_equal.
    rewrite take_ge by (by rewrite slen_chars). apply of_chars_chars.
  - assert (b = MarshalIndent m) as -> by congruence.
    assert (∀ d, file_pins path (<[path := MarshalIndent m]> d) = Some m) as Hw
      by (intros; by apply file_pins_written).
    rewrite Hw. auto.
  - auto.
Qed.

(** What is on disk stays on disk. *)
Definition disk_extends (w w' : machine) : Prop :=
  ∀ f, file_pins path (fdisk w) = Some f → ∃ f', file_pins path (fdisk w') = Some f' ∧ f ⊆ f'.

Lemma machine_step_ok w w' :
  machine_step w w' → machine_ok w → machine_ok w' ∧ disk_extends w w'.
Proof.
  intros Hs (f & Hf & Hc & Hp). destruct Hs; cbn [proc fdisk] in *.
  - split; [|by intros g Hg; exists g]. exists f. split_and!; try done. cbn [proc].
    rewrite (LoadPeerFile_pins _ _ _ f) in H by set_solver. by simplify_eq.
  - split; [|by intros g Hg; exists g]. exists f. destruct Hp as [Hm Hfm]. split_and!; try done.
    cbn [proc]. split_and!; [by apply clean_insert| |done]. apply insert_subseteq_r; [|done].
    by eapply lookup_weaken_None.
  - destruct Hp as (Hm & Hfm & Ht). apply save_step_file in H as [Ht' Hd]; [|done..].
    assert (∃ f', file_pins path d' = Some f' ∧ f ⊆ f' ∧ f' ⊆ m ∧ clean_pins f')
      as (f' & H1 & H2 & H3 & H4).
    { destruct Hd as [->| ->]; [by exists f|by exists m]. }
    split; [by exists f'|]. intros g Hg. exists f'. split; [done|]. cbn [fdisk] in Hg. by simplify_eq.
  - split; [|by intros g Hg; exists g]. exists f. destruct Hp as (? & ? & ?). by split_and!.
  - split; [|by intros g Hg; exists g]. by exists f.
Qed.

Lemma machine_steps_ok w w' :
  rtc (machine_step) w w' → machine_ok w → machine_ok w' ∧ disk_extends w w'.
Proof.
  induction 1 as [w|w w1 w' Hs _ IH]; intros Hw; [split; [done|intros f Hf; eauto]|].
  destruct (machine_step_ok w w1 Hs Hw) as [Hw1 H1]. destruct (IH Hw1) as [Hw' H2].
  split; [done|]. intros f Hf. destruct (H1 f Hf) as (f1 & Hf1 & ?).
  destruct (H2 f1 Hf1) as (f' & ? & ?). exists f'. split; [done|]. by etrans.
Qed.

Definition process_pins (p : process) : option (gmap string pinnedPeer) :=
  match p with Down => None | Idle m | Saving m _ => Some m end.

(** What [saveFile] does is a run of the file operations. *)
Lemma saveFile_runs o m d :
  ∃ pc, rtc (save_step (MarshalIndent m)) (AtMkdir, d) (pc, (saveFile o path m d).2) ∧
    pc = match o with Completed => SaveDone | _ => SaveFailed end.
Proof.
  set (data := MarshalIndent m).
  assert (∀ n, n ≤ slen data → rtc (save_step data) (AtMkdir, d)
    (Writing n, <[tmp_path path := of_chars (take n (chars data))]> d)) as Hw.
  { intros n Hn. eapply rtc_l; [constructor|]. eapply rtc_l; [constructor|].
    destruct n as [|n]; [done|]. eapply rtc_l; [apply (SWrite data 0 (S n)); lia|].
    by rewrite insert_insert_eq. }
  assert (∀ n, slen data ≤ n → of_chars (take n (chars data)) = data) as Hall.
  { intros n Hn. rewrite take_ge by (by rewrite slen_chars). apply of_chars_chars. }
  assert (rtc (save_step data) (AtMkdir, d) (AtRename, <[tmp_path path := data]> d)) as Hr.
  { eapply rtc_r; [apply (Hw (slen data)); lia|]. rewrite Hall by lia. constructor. }
  eexists. split; [|reflexivity]. destruct o as [| |n| |]; cbn [saveFile save_text snd].
  - by apply rtc_once; constructor.
  - eapply rtc_l; [constructor|]. by apply rtc_once; constructor.
  - fold data. replace (take n (chars data)) with (take (n `min` slen data) (chars data)).
    + eapply rtc_r; [apply (Hw (n `min` slen data)); lia|by constructor].
    + by rewrite <- (slen_chars data), <- take_take, (take_ge (chars data)) by lia.
  - by eapply rtc_r; [exact Hr|constructor].
  - eapply rtc_r; [exact Hr|]. fold data.
    rewrite <- (delete_insert_eq d (tmp_path path) data). constructor. by rewrite lookup_insert_eq.
Qed.

Lemma machine_save m pc pc' d d' :
  rtc (save_step (MarshalIndent m)) (pc, d) (pc', d') →
  rtc machine_step (Machine (Saving m pc) d) (Machine (Saving m pc') d').
Proof.
  remember (pc, d) as x eqn:Ex. remember (pc', d') as y eqn:Ey. intros Hr. revert pc d Ex.
  induction Hr as [x|x [pc1 d1] y Hs _ IH]; intros pc d ->; simplify_eq; [done|].
  eapply rtc_l; [by constructor|]. by apply IH.
Qed.
End machine.

(** C9: A pin outlives the process.  However a client that starts without a peer file is
    run, killed at any moment (in the middle of a write included) and started again, the
    file can always be loaded; once a save has returned successfully the file has all the
    pins the process had; and a pin that is in the file is in every later file and in
    every later process, which therefore refuses any other key for that peer. *)
Theorem pins_durable path w w' :
  rtc (machine_step path) (Machine Down ∅) w → rtc (machine_step path) w w' →
  (∃ f', LoadPeerFile None path (Disk (fdisk w') ∅) = inr (MkFileStore path (Some f'))) ∧
  (∀ m, proc w = Saving m SaveDone → file_pins path (fdisk w) = Some m) ∧
  (∀ f id p, file_pins path (fdisk w) = Some f → f !! id = Some p →
     (∃ f', file_pins path (fdisk w') = Some f' ∧ f' !! id = Some p) ∧
     ∀ m', process_pins (proc w') = Some m' →
       ∀ o stamp k, StaticKey p ≠ k →
         PinOrVerifyFile o stamp id k (MkFileStore path (Some m')) (fdisk w') =
         (Returns (Some ErrPeerKeyMismatch), MkFileStore path (Some m'), fdisk w')).
Proof.
  intros H1 H2.
  assert (machine_ok path w) as Hw.
  { eapply (machine_steps_ok path _ w); [exact H1|]. exists ∅. split_and!; [done| |done].
    apply map_Forall_empty. }
  destruct (machine_steps_ok path w w' H2 Hw) as [Hw' Hx].
  pose proof Hw' as (f' & Hf' & Hc' & Hp'). split_and!.
  - exists f'. apply LoadPeerFile_pins; [set_solver|done].
  - intros m E. destruct Hw as (f & Hf & _ & Hp). rewrite E in Hp. by destruct Hp as (_ & _ & Ht).
  - intros f id p Hf Hid. destruct (Hx f Hf) as (f1 & Hf1 & Hsub). simplify_eq.
    assert (f' !! id = Some p) as Hid' by by eapply lookup_weaken.
    split; [eauto|]. intros m' Em o stamp k Hk.
    assert (m' !! id = Some p) as Hm.
    { destruct (proc w'); simplify_eq/=; destruct_and?; by eapply lookup_weaken. }
    unfold PinOrVerifyFile. cbn [fs_peers mbind option_bind]. by rewrite Hm, decide_True.
Qed.

(** A client pins bob, is killed, starts again, and is killed in the middle of the next
    save. *)
Lemma pins_durable_witness :
  let path := "peers.json" in
  let d1 := (saveFile Completed path ex_pins ∅).2 in
  let p2 := <["eve" := PinnedPeer "b3RoZXI=" "2025-01-02T00:00:00Z"]> ex_pins in
  let d2 := (saveFile (WroteOnly 7) path p2 d1).2 in
  ∃ f', file_pins path d2 = Some f' ∧ f' !! "bob" = Some (PinnedPeer "a2V5" "2025-01-01T00:00:00Z").
Proof.
  intros path d1 p2 d2.
  assert (file_pins path d1 = Some ex_pins) as Hd1
    by (apply (saveFile_file Completed path ex_pins ∅ None d1); [done|exact clean_ex_pins]).
  assert (rtc (machine_step path) (Machine Down ∅) (Machine (Saving ex_pins SaveDone) d1)) as H1.
  { eapply rtc_l; [apply (WLoad path ∅ ∅); by vm_compute|].
    eapply rtc_l; [apply (WPin path ∅ ∅ "bob" "a2V5" "2025-01-01T00:00:00Z"); [done|valid_text..]|].
    destruct (saveFile_runs path Completed ex_pins ∅) as (pc & Hr & ->).
    exact (machine_save path _ _ _ _ _ Hr). }
  assert (rtc (machine_step path) (Machine (Saving ex_pins SaveDone) d1) (Machine Down d2)) as H2.
  { eapply rtc_l; [apply WKill|]. eapply rtc_l; [apply (WLoad path d1 ex_pins)|].
    { exact (LoadPeerFile_pins path d1 ∅ ex_pins (not_elem_of_empty _) Hd1). }
    eapply rtc_l; [apply (WPin path ex_pins d1 "eve" "b3RoZXI=" "2025-01-02T00:00:00Z");
      [done|valid_text..]|].
    destruct (saveFile_runs path (WroteOnly 7) p2 d1) as (pc & Hr & ->).
    eapply rtc_r; [exact (machine_save path _ _ _ _ _ Hr)|]. apply WKill. }
  destruct (pins_durable path _ _ H1 H2) as (_ & _ & H3).
  destruct (H3 ex_pins "bob" (PinnedPeer "a2V5" "2025-01-01T00:00:00Z")) as [H4 _]; [exact Hd1|done|].
  exact H4.
Defined.
