(* ===== verification/StoreText.v ===== *)
(** * The text of the shared peer file

    Every SDK keeps its pinned peers in the same file, as one JSON object.  Here: what such a
    text denotes, how TypeScript and Python print strings, and that the text of each printer
    denotes the pins it was made from. *)

From S2P Require Import Prelude Keys Json IndentJson Wire Noise PeerStore PeerFile TsWire.

(** ** Text in UTF-8 *)

Inductive utf8 : list ascii → Prop :=
  | utf8_nil : utf8 []
  | utf8_rune r l : rune_len r = Some (length r) → utf8 l → utf8 (r ++ l).

Lemma utf8_app l l' : utf8 l → utf8 l' → utf8 (l ++ l').
Proof. induction 1; intros Hl'; [done|]. rewrite <- app_assoc. constructor; auto. Qed.

Lemma utf8_one r : rune_len r = Some (length r) → utf8 r.
Proof. intros Hr. rewrite <- (app_nil_r r). by constructor; [|constructor]. Qed.

Lemma utf8_ascii l : Forall (λ c, byte_val c < 128)%Z l → utf8 l.
Proof.
  induction 1 as [|c l Hc _ IH]; [constructor|]. apply (utf8_rune [c]); [|done]. cbn.
  by rewrite (proj2 (Z.ltb_lt _ _)).
Qed.

Lemma utf8_mjoin ls : Forall utf8 ls → utf8 (mjoin ls).
Proof. induction 1; [constructor|]. rewrite mjoin_cons. by apply utf8_app. Qed.

Lemma utf8_valid s : valid_utf8 s ↔ utf8 (chars s).
Proof.
  unfold valid_utf8, segments. split.
  - intros Hv. rewrite <- (segs_raw (length (chars s)) (chars s)) by done.
    pose proof (segs_ok (length (chars s)) (chars s)) as Hok. apply utf8_mjoin.
    apply Forall_fmap. eapply Forall_impl; [exact (proj2 (Forall_and _ _) (conj Hv Hok))|].
    intros [r|c] [H1 H2]; [|done]. by apply utf8_one.
  - generalize (chars s). intros l Hl. assert (∀ n, length l ≤ n →
      Forall (λ x : list ascii + ascii, match x with inl _ => True | inr _ => False end) (segs n l)) as Hn.
    { induction Hl as [|r l Hr _ IH]; intros n Hn; [by destruct n|].
      pose proof (rune_len_bounds _ _ Hr) as Hb. pose proof (rune_len_prefix _ _ l Hr) as Hp. rewrite take_ge in Hp by done.
      destruct r as [|c r]; [cbn in Hb; lia|]. rewrite length_app in Hn. destruct n as [|n]; [cbn in Hn; lia|].
      cbn [app segs]. cbn [app] in Hp. rewrite Hp. constructor; [done|].
      change (c :: r ++ l) with ((c :: r) ++ l). rewrite drop_app_length. apply IH. cbn in Hn. lia. }
    by apply Hn.
Qed.

(** ** How Python prints a string ([json.dumps] with its default [ensure_ascii]) *)

Local Open Scope Z_scope.

Definition u4 (n : Z) : list ascii :=
  backslash :: "u"%char :: [hex_digit (n / 4096 mod 16); hex_digit (n / 256 mod 16); hex_digit (n / 16 mod 16); hex_digit (n mod 16)].

Definition py_esc (c : ascii) : list ascii :=
  let b := byte_val c in
  if b =? 34 then [backslash; quote] else if b =? 92 then [backslash; backslash]
  else if b =? 10 then [backslash; "n"%char] else if b =? 13 then [backslash; "r"%char]
  else if b =? 9 then [backslash; "t"%char] else if b =? 12 then [backslash; "f"%char]
  else if b =? 8 then [backslash; "b"%char]
  else if (32 <=? b) && (b <=? 126) then [c] else u4 b.

(** A rune outside the BMP is a surrogate pair; a Python string has no stray bytes. *)
Definition py_seg (s : list ascii + ascii) : list ascii :=
  match s with
  | inl [c] => py_esc c
  | inl r => mjoin (u4 <$> units (code_point r))
  | inr _ => u4 65533
  end.

Definition py_str (s : string) : list ascii := quoted_with py_seg s.

Lemma hex_digit_val n : (0 ≤ n < 16)%Z → hex_val (hex_digit n) = Some n ∧ (byte_val (hex_digit n) < 128)%Z.
Proof.
  intros Hn. assert (∃ k, n = Z.of_nat k ∧ (k < 16)%nat) as (k & -> & Hk) by (exists (Z.to_nat n); lia).
  do 16 (destruct k as [|k]; [by vm_compute|]). lia.
Qed.

Lemma hex_digit_mod n : hex_val (hex_digit (n mod 16)) = Some (n mod 16).
Proof. apply hex_digit_val. apply Z.mod_pos_bound. lia. Qed.

Lemma hex4_u4 n rest : (0 ≤ n < 65536)%Z → hex4 (drop 2 (u4 n) ++ rest) = Some (n, rest).
Proof.
  intros Hn. cbn [u4 drop app hex4].
  rewrite !hex_digit_mod. do 2 f_equal.
  assert (n / 16 / 16 = n / 256 ∧ n / 256 / 16 = n / 4096 ∧ n / 4096 / 16 = 0) as (E1 & E2 & E3)
    by (rewrite !Z.div_div by lia; split_and!; [done..|apply Z.div_small; lia]).
  pose proof (Z.div_mod n 16 ltac:(lia)). pose proof (Z.div_mod (n / 16) 16 ltac:(lia)).
  pose proof (Z.div_mod (n / 256) 16 ltac:(lia)). pose proof (Z.div_mod (n / 4096) 16 ltac:(lia)). lia.
Qed.

Lemma parse_u4 f n rest : (0 ≤ n < 65536)%Z → ¬ (55296 ≤ n ≤ 57343)%Z →
  parse_body (S f) (u4 n ++ rest) = prepend (encode_rune n) (parse_body f rest).
Proof.
  intros Hn Hs. change (parse_body (S f) (u4 n ++ rest)) with
    (match unescape_u (drop 2 (u4 n) ++ rest) with Some (s, l) => prepend s (parse_body f l) | None => None end).
  unfold unescape_u. rewrite hex4_u4 by done.
  destruct ((55296 <=? n) && (n <=? 57343)) eqn:E; [|done]. apply andb_true_iff in E. lia.
Qed.

Lemma parse_u4_pair f hi lo rest : (55296 ≤ hi ≤ 56319)%Z → (56320 ≤ lo ≤ 57343)%Z →
  parse_body (S f) (u4 hi ++ u4 lo ++ rest) =
    prepend (encode_rune (65536 + (hi - 55296) * 1024 + (lo - 56320))) (parse_body f rest).
Proof.
  intros Hh Hl. change (parse_body (S f) (u4 hi ++ u4 lo ++ rest)) with
    (match unescape_u (drop 2 (u4 hi) ++ u4 lo ++ rest) with Some (s, l) => prepend s (parse_body f l) | None => None end).
  unfold unescape_u. rewrite hex4_u4 by lia.
  assert ((55296 <=? hi) && (hi <=? 57343) = true)%Z as -> by (apply andb_true_iff; lia).
  rewrite (proj2 (Z.leb_le hi 56319)) by lia.
  assert (low_surrogate (u4 lo ++ rest) = Some (lo, rest)) as ->; [|done].
  change (low_surrogate (u4 lo ++ rest)) with
    (match hex4 (drop 2 (u4 lo) ++ rest) with
     | Some (lo, l') => if (56320 <=? lo) && (lo <=? 57343) then Some (lo, l') else None | None => None end).
  rewrite hex4_u4 by lia. assert ((56320 <=? lo) && (lo <=? 57343) = true)%Z as -> by (apply andb_true_iff; lia). done.
Qed.

(** The bytes of a rune that is not ASCII. *)
Inductive rune_bytes : list ascii → Prop :=
  | two_bytes a b : 194 ≤ byte_val a ≤ 223 → 128 ≤ byte_val b ≤ 191 → rune_bytes [a; b]
  | three_bytes a b c : 224 ≤ byte_val a ≤ 239 → 128 ≤ byte_val b ≤ 191 → 128 ≤ byte_val c ≤ 191 →
      (byte_val a = 224 → 160 ≤ byte_val b) → (byte_val a = 237 → byte_val b ≤ 159) → rune_bytes [a; b; c]
  | four_bytes a b c d : 240 ≤ byte_val a ≤ 244 → 128 ≤ byte_val b ≤ 191 → 128 ≤ byte_val c ≤ 191 → 128 ≤ byte_val d ≤ 191 →
      (byte_val a = 240 → 144 ≤ byte_val b) → (byte_val a = 244 → byte_val b ≤ 143) → rune_bytes [a; b; c; d].

Lemma rune_shape r : rune_len r = Some (length r) → length r ≠ 1%nat → rune_bytes r.
Proof.
  intros Hr Hl. destruct r as [|a [|b [|c [|d [|e r]]]]]; [done|done|..];
    cbn [rune_len length] in Hr; unfold in_range, cont in Hr;
    repeat (match type of Hr with context [if ?x then _ else _] =>
      lazymatch x with
      | context [if ?y then _ else _] => let E := fresh "E" in destruct y eqn:E
      | _ => let E := fresh "E" in destruct x eqn:E
      end end; try discriminate Hr);
    repeat match goal with H : _ && _ = true |- _ => apply andb_true_iff in H as [? ?] end;
    constructor; lia.
Qed.

(** The code point of a rune, and the rune of the code point. *)
Lemma code_point_rune r : rune_bytes r →
  encode_rune (code_point r) = r ∧ 128 ≤ code_point r ≤ 1114111 ∧ ¬ (55296 ≤ code_point r ≤ 57343).
Proof.
  assert (∀ q k x, 0 ≤ x < k → (q * k + x) / k = q ∧ (q * k + x) mod k = x) as Hd.
  { intros q k x Hx. split; [rewrite Z.div_add_l, Z.div_small; lia|rewrite Z.add_comm, Z_mod_plus_full, Z.mod_small; lia]. }
  destruct 1 as [a b Ha Hb|a b c Ha Hb Hc H1 H2|a b c d Ha Hb Hc Hd' H1 H2]; unfold code_point; cbn [fmap list_fmap];
    (split_and!; [|lia..]); unfold encode_rune.
  - rewrite (proj2 (Z.ltb_ge _ _)), (proj2 (Z.ltb_lt _ _)) by lia.
    destruct (Hd (byte_val a - 192) 64 (byte_val b - 128)) as [-> ->]; [lia|]. by rewrite !Zplus_minus, !byte_of_val.
  - rewrite !(proj2 (Z.ltb_ge _ _)), (proj2 (Z.ltb_lt _ _)) by lia.
    assert ((byte_val a - 224) * 4096 + (byte_val b - 128) * 64 + (byte_val c - 128) =
      ((byte_val a - 224) * 64 + (byte_val b - 128)) * 64 + (byte_val c - 128)) as -> by lia.
    rewrite <- (Z.div_div _ 64 64) by lia.
    destruct (Hd ((byte_val a - 224) * 64 + (byte_val b - 128)) 64 (byte_val c - 128)) as [-> ->]; [lia|].
    destruct (Hd (byte_val a - 224) 64 (byte_val b - 128)) as [-> ->]; [lia|]. by rewrite !Zplus_minus, !byte_of_val.
  - rewrite !(proj2 (Z.ltb_ge _ _)) by lia.
    assert ((byte_val a - 240) * 262144 + (byte_val b - 128) * 4096 + (byte_val c - 128) * 64 + (byte_val d - 128) =
      (((byte_val a - 240) * 64 + (byte_val b - 128)) * 64 + (byte_val c - 128)) * 64 + (byte_val d - 128)) as -> by lia.
    change 262144 with (64 * (64 * 64)). change 4096 with (64 * 64). rewrite <- !Z.div_div by lia.
    destruct (Hd (((byte_val a - 240) * 64 + (byte_val b - 128)) * 64 + (byte_val c - 128)) 64 (byte_val d - 128)) as [-> ->]; [lia|].
    destruct (Hd ((byte_val a - 240) * 64 + (byte_val b - 128)) 64 (byte_val c - 128)) as [-> ->]; [lia|].
    destruct (Hd (byte_val a - 240) 64 (byte_val b - 128)) as [-> ->]; [lia|]. by rewrite !Zplus_minus, !byte_of_val.
Qed.

Lemma parse_py_esc f c rest : byte_val c < 128 → parse_body (S f) (py_esc c ++ rest) = prepend [c] (parse_body f rest).
Proof.
  revert c. apply (ascii_forall (λ c, byte_val c < 128 →
    parse_body (S f) (py_esc c ++ rest) = prepend [c] (parse_body f rest))).
  intros [] [] [] [] [] [] [] [] Hc; first [exfalso; vm_compute in Hc; discriminate|reflexivity].
Qed.

Lemma parse_py_seg f s rest :
  seg_ok s → parse_body (S f) (py_seg s ++ rest) = prepend (san_seg s) (parse_body f rest).
Proof.
  destruct s as [r|c]; [|reflexivity]. cbn [seg_ok san_seg]. intros Hr.
  destruct (decide (length r = 1%nat)) as [Hl|Hl].
  { destruct r as [|c [|? ?]]; [done| |done]. apply parse_py_esc. cbn in Hr. destruct (byte_val c <? 128) eqn:E; [lia|].
    repeat case_match; done. }
  pose proof (rune_shape r Hr Hl) as Hb. destruct (code_point_rune r Hb) as (E & Hr1 & Hr2).
  assert (py_seg (inl r) = mjoin (u4 <$> units (code_point r))) as -> by by destruct Hb.
  rewrite <- E at 2. unfold units. destruct (Z.ltb_spec (code_point r) 65536).
  - cbn [fmap list_fmap]. rewrite mjoin_cons. cbn [mjoin list_join]. rewrite app_nil_r. by apply parse_u4; [lia|].
  - cbn [fmap list_fmap]. rewrite !mjoin_cons. cbn [mjoin list_join]. rewrite app_nil_r, <- app_assoc.
    set (x := code_point r - 65536). assert (0 ≤ x < 1048576) as Hx by (unfold x; lia).
    pose proof (Z.mod_pos_bound x 1024 ltac:(lia)). pose proof (Z.div_mod x 1024 ltac:(lia)).
    assert (0 ≤ x / 1024 < 1024) by (split; [apply Z.div_pos|apply Z.div_lt_upper_bound]; lia).
    rewrite parse_u4_pair by lia. do 2 f_equal. unfold x in *. lia.
Qed.

Lemma py_seg_nonempty s : seg_ok s → (1 ≤ length (py_seg s))%nat.
Proof.
  destruct s as [[|c [|c2 r]]|c]; [done|..|cbn; lia]; intros _; unfold py_seg.
  - unfold py_esc, u4. repeat case_match; cbn [length]; lia.
  - unfold units. case_match; cbn; lia.
Qed.

Lemma parse_py_str s rest : parse_str (py_str s ++ rest) = Some (sanitize s, rest).
Proof. exact (parse_quoted py_seg parse_py_seg py_seg_nonempty s rest). Qed.

(** ** The printers write UTF-8 *)

Lemma utf8_cons c l : byte_val c < 128 → utf8 l → utf8 (c :: l).
Proof. intros Hc Hl. apply (utf8_app [c]); [|done]. apply utf8_ascii. by constructor. Qed.

Lemma quoted_utf8 pseg s : (∀ x, seg_ok x → utf8 (pseg x)) → utf8 (quoted_with pseg s).
Proof.
  intros Hp. apply utf8_cons; [done|]. apply utf8_app; [|by apply utf8_ascii; repeat constructor].
  apply utf8_mjoin, Forall_fmap. eapply Forall_impl; [apply segs_ok|]. exact Hp.
Qed.

(** A character that is printed by itself or escaped. *)
Ltac ascii_printed :=
  match goal with Hc : byte_val ?c < 128 |- utf8 (?f ?c) => revert c Hc; apply (ascii_forall (λ c, byte_val c < 128 → utf8 (f c))) end;
  intros [] [] [] [] [] [] [] [] Hc;
  first [exfalso; vm_compute in Hc; discriminate|apply utf8_ascii; vm_compute; by repeat constructor].

Lemma seg_cases (x : list ascii + ascii) : seg_ok x →
  (∃ c, x = inl [c] ∧ byte_val c < 128) ∨ (∃ a b r, x = inl (a :: b :: r) ∧ rune_len (a :: b :: r) = Some (length (a :: b :: r))) ∨
  ∃ c, x = inr c.
Proof.
  destruct x as [[|c [|b r]]|c]; [done|..|by eauto]; intros Hx; cbn [seg_ok] in Hx; [left|right; left; by eauto 6].
  exists c. split; [done|]. cbn in Hx. destruct (byte_val c <? 128) eqn:E; [lia|]. repeat case_match; done.
Qed.

Lemma print_str_utf8 s : utf8 (print_str s).
Proof.
  apply (quoted_utf8 esc_seg). intros x [(c & -> & Hc)|[(a & b & r & -> & Hr)|[c ->]]]%seg_cases; cbn [esc_seg].
  - ascii_printed.
  - repeat case_decide; [apply utf8_ascii; vm_compute; by repeat constructor..|]. by apply utf8_one.
  - apply utf8_ascii. vm_compute. by repeat constructor.
Qed.

Lemma js_str_utf8 s : utf8 (js_str s).
Proof.
  apply (quoted_utf8 js_seg). intros x [(c & -> & Hc)|[(a & b & r & -> & Hr)|[c ->]]]%seg_cases; cbn [js_seg].
  - ascii_printed.
  - by apply utf8_one.
  - by apply utf8_one.
Qed.

Lemma u4_ascii n : Forall (λ c, byte_val c < 128) (u4 n).
Proof.
  unfold u4. repeat constructor; try done; by apply hex_digit_val, Z.mod_pos_bound.
Qed.

Lemma py_str_utf8 s : utf8 (py_str s).
Proof.
  apply (quoted_utf8 py_seg). intros x [(c & -> & Hc)|[(a & b & r & -> & Hr)|[c ->]]]%seg_cases; cbn [py_seg].
  - ascii_printed.
  - apply utf8_mjoin, Forall_fmap, Forall_true. intros n. apply utf8_ascii, u4_ascii.
  - apply utf8_ascii, u4_ascii.
Qed.

Lemma nl_utf8 n : utf8 (nl n).
Proof. unfold nl. apply utf8_cons; [done|]. apply utf8_ascii, Forall_replicate. done. Qed.

Lemma lines_utf8 n ls : Forall utf8 ls → utf8 (lines n ls).
Proof.
  induction 1 as [|x ls Hx Hls IH]; [constructor|]. destruct ls as [|y ls]; [done|]. rewrite lines_cons.
  apply utf8_app; [done|]. apply utf8_cons; [done|]. apply utf8_app; [apply nl_utf8|done].
Qed.

Lemma indent_utf8 pstr j n : (∀ s, utf8 (pstr s)) → obj_json j → utf8 (indent_with pstr n j).
Proof.
  intros Hp. revert n. induction j as [|b|lit|s|l IH|l IH] using json_nested_ind; intros n Hj; try done; [apply Hp|].
  destruct l as [|kv l]; [by apply utf8_ascii; vm_compute; repeat constructor|]. cbn [indent_with].
  apply utf8_cons; [done|]. apply utf8_app; [apply nl_utf8|]. apply utf8_app; [|apply utf8_app; [apply nl_utf8|by apply utf8_ascii; repeat constructor]].
  apply lines_utf8, Forall_fmap. cbn [obj_json] in Hj. revert Hj. generalize (kv :: l) as l', IH. clear IH kv l.
  induction 1 as [|x l Hx _ IH]; intros Hj; constructor; [|by apply IH, Hj].
  cbn. apply utf8_app; [apply Hp|]. do 2 (apply utf8_cons; [done|]). by apply Hx, Hj.
Qed.
Local Close Scope Z_scope.

(** ** What a text denotes *)

(** The pins of a file as a document: an object of objects of strings. *)
Definition fields : Type := list (string * string).
Definition doc : Type := list (string * fields).

Definition fields_json (l : fields) : json := JObj ((λ kv, (kv.1, JStr kv.2)) <$> l).
Definition doc_json (d : doc) : json := JObj ((λ kv, (kv.1, fields_json kv.2)) <$> d).

(** The members of a pin, in either order. *)
Definition pin_fields (p : pinnedPeer) : fields := [("static_key", StaticKey p); ("pinned_at", PinnedAt p)].
Definition pin_members (l : fields) (p : pinnedPeer) : Prop := l = pin_fields p ∨ l = reverse (pin_fields p).

(** The entries of a list are those of a map, in any order. *)
Definition holds {V} (R : V → pinnedPeer → Prop) (l : list (string * V)) (m : gmap string pinnedPeer) : Prop :=
  NoDup l.*1 ∧ (∀ id v, (id, v) ∈ l → ∃ p, m !! id = Some p ∧ R v p) ∧ (∀ id, is_Some (m !! id) → id ∈ l.*1).

Definition denotes (text : bytes) (m : gmap string pinnedPeer) : Prop :=
  valid_utf8 text ∧ clean_pins m ∧ ∃ d, Parse text = Some (doc_json d) ∧ holds pin_members d m.

Fixpoint assoc {V} (k : string) (l : list (string * V)) : option V :=
  match l with
  | [] => None
  | (k', v) :: l => if decide (k = k') then Some v else assoc k l
  end.

Lemma assoc_in {V} k (v : V) l : assoc k l = Some v → (k, v) ∈ l.
Proof.
  induction l as [|[k' v'] l IH]; [done|]. cbn. case_decide; [intros [= ->]; subst; left|intros ?; right; auto].
Qed.

Lemma assoc_none {V} k (l : list (string * V)) : assoc k l = None ↔ k ∉ l.*1.
Proof.
  induction l as [|[k' v'] l IH]; [by split; [intros _ H; inversion H|]|]. cbn. rewrite not_elem_of_cons. case_decide; naive_solver.
Qed.

Section holds.
Context {V : Type} (R : V → pinnedPeer → Prop).

Lemma holds_assoc l m id : holds R l m →
  match assoc id l with
  | Some v => ∃ p, m !! id = Some p ∧ R v p
  | None => m !! id = None
  end.
Proof.
  intros (_ & H1 & H2). destruct (assoc id l) as [v|] eqn:E; [by apply H1, assoc_in|].
  apply assoc_none in E. apply eq_None_not_Some. auto.
Qed.

Lemma holds_empty : holds R [] ∅.
Proof. split_and!; [constructor|by intros id v H; inversion H|]. intros id [p Hp]. by rewrite lookup_empty in Hp. Qed.

Lemma holds_perm l l' m : l ≡ₚ l' → holds R l m → holds R l' m.
Proof.
  intros Hp (H1 & H2 & H3). split_and!; [by rewrite <- Hp|intros id v; rewrite <- Hp; auto|intros id; rewrite <- Hp; auto].
Qed.

Lemma holds_insert l m id v p : holds R l m → m !! id = None → R v p → holds R ((id, v) :: l) (<[id := p]> m).
Proof.
  intros (H1 & H2 & H3) Hid HR. split_and!; cbn.
  - constructor; [|done]. intros ([id' v'] & -> & Hin)%list_elem_of_fmap. destruct (H2 _ _ Hin) as (q & Hq & _). cbn in *. congruence.
  - intros id' v' [[= -> ->]|Hin]%elem_of_cons; [exists p; by rewrite lookup_insert_eq|].
    destruct (H2 _ _ Hin) as (q & Hq & ?). exists q. rewrite lookup_insert_ne by congruence. done.
  - intros id' Hs. destruct (decide (id' = id)) as [->|Hne]; [left|]. rewrite lookup_insert_ne in Hs by done. right. auto.
Qed.

(** A map as a list of its entries. *)
Lemma holds_entries (f : pinnedPeer → V) l m : (∀ p, R (f p) p) → l ≡ₚ map_to_list m → holds R (prod_map id f <$> l) m.
Proof.
  intros Hf Hl. apply (holds_perm (prod_map id f <$> map_to_list m)); [by rewrite Hl|]. clear l Hl.
  assert ((prod_map id f <$> map_to_list m).*1 = (map_to_list m).*1) as E.
  { rewrite <- list_fmap_compose. by apply list_fmap_ext. }
  split_and!; [rewrite E; apply NoDup_fst_map_to_list|..].
  - intros id v ([id' p] & [= -> ->] & Hin)%list_elem_of_fmap. apply elem_of_map_to_list in Hin. eauto.
  - intros id [p Hp]. rewrite E. apply list_elem_of_fmap. exists (id, p). by rewrite elem_of_map_to_list.
Qed.
End holds.

Lemma doc_obj d : obj_json (doc_json d).
Proof.
  cbn [doc_json obj_json]. induction d as [|kv d IH]; [done|]. rewrite fmap_cons. cbn [foldr snd]. split; [|done].
  unfold fields_json. cbn [obj_json]. induction kv.2 as [|x l IHl]; [done|]. by rewrite fmap_cons.
Qed.

Lemma doc_depth d : (jdepth (doc_json d) ≤ 2)%Z.
Proof.
  assert (∀ l, jdepth (fields_json l) ≤ 1)%Z as Hf.
  { intros l. unfold fields_json. cbn [jdepth]. induction l as [|x l IH]; [done|]. rewrite fmap_cons. cbn [foldr snd jdepth]. lia. }
  unfold doc_json. cbn [jdepth]. induction d as [|[k l] d IH]; [done|]. rewrite fmap_cons. cbn [foldr snd]. specialize (Hf l). lia.
Qed.

Lemma doc_clean d m : clean_pins m → holds pin_members d m → jsan (doc_json d) = doc_json d.
Proof.
  intros Hc (_ & Hin & _). unfold doc_json. cbn [jsan]. f_equal. rewrite <- list_fmap_compose. apply list_fmap_ext.
  intros i [id l] Hl. apply list_elem_of_lookup_2 in Hl. destruct (Hin _ _ Hl) as (p & Hp & Hm). destruct (Hc id p Hp) as (V1 & V2 & V3).
  unfold compose. cbn [fst snd]. rewrite (sanitize_valid id) by done. f_equal.
  destruct Hm as [-> | ->]; unfold fields_json, pin_fields; rewrite ?reverse_cons; cbn [reverse rev_append app fmap list_fmap jsan fst snd];
    change (sanitize "static_key") with "static_key"; change (sanitize "pinned_at") with "pinned_at"; by rewrite !(sanitize_valid (StaticKey p)), !(sanitize_valid (PinnedAt p)) by done.
Qed.

(** Every printer's text denotes the pins. *)
Lemma denotes_text pstr d m :
  (∀ s rest, parse_str (pstr s ++ rest) = Some (sanitize s, rest)) → (∀ s, ∃ l, pstr s = quote :: l) → (∀ s, utf8 (pstr s)) →
  clean_pins m → holds pin_members d m → denotes (of_chars (indent_with pstr 0 (doc_json d))) m.
Proof.
  intros Hr Hq Hu Hc Hd. split_and!; [|done|exists d; split; [|done]].
  - apply utf8_valid. rewrite chars_of_chars. apply indent_utf8; [done|apply doc_obj].
  - rewrite Parse_indent; [|done|done|apply doc_obj|etrans; [apply doc_depth|done]]. by rewrite (doc_clean d m).
Qed.

Lemma fields_json_inj l l' : fields_json l = fields_json l' → l = l'.
Proof.
  unfold fields_json. intros [= E]. revert l' E. induction l as [|[x y] l IH]; intros [|[x' y'] l'] E; try done.
  rewrite !fmap_cons in E. injection E as -> -> E. by rewrite (IH _ E).
Qed.

Lemma doc_json_inj d d' : doc_json d = doc_json d' → d = d'.
Proof.
  unfold doc_json. intros [= E]. revert d' E. induction d as [|[k l] d IH]; intros [|[k' l'] d'] E; try done.
  rewrite !fmap_cons in E. injection E as -> E1 E2. rewrite (IH _ E2). do 2 f_equal. apply fields_json_inj. unfold fields_json. by rewrite E1.
Qed.

Lemma denotes_fun text m m' : denotes text m → denotes text m' → m = m'.
Proof.
  intros (_ & _ & d & E & H1) (_ & _ & d' & E' & H2). rewrite E in E'. injection E' as E'.
  assert (d = d') as <- by (apply doc_json_inj; unfold doc_json; by rewrite E').
  apply map_eq. intros id. pose proof (holds_assoc _ _ _ id H1) as A1. pose proof (holds_assoc _ _ _ id H2) as A2.
  destruct (assoc id d) as [l|]; [|congruence]. destruct A1 as (p & -> & P1), A2 as (p' & -> & P2). f_equal.
  destruct p, p', P1 as [-> | ->], P2 as [P2|P2]; unfold pin_fields, reverse in P2; cbn in P2; by simplify_eq.
Qed.

(** ** Blank texts

    [trim] of JavaScript and Rust and [strip] of Python, each with its own white space. *)

Local Open Scope Z_scope.

Definition js_spaces : list (Z * Z) :=
  [(9, 13); (32, 32); (160, 160); (5760, 5760); (8192, 8202); (8232, 8233); (8239, 8239); (8287, 8287); (12288, 12288); (65279, 65279)].
Definition py_spaces : list (Z * Z) :=
  [(9, 13); (28, 32); (133, 133); (160, 160); (5760, 5760); (8192, 8202); (8232, 8233); (8239, 8239); (8287, 8287); (12288, 12288)].
Definition rust_spaces : list (Z * Z) :=
  [(9, 13); (32, 32); (133, 133); (160, 160); (5760, 5760); (8192, 8202); (8232, 8233); (8239, 8239); (8287, 8287); (12288, 12288)].

Definition in_ranges (rs : list (Z * Z)) (c : Z) : bool := existsb (λ r, (r.1 <=? c) && (c <=? r.2)) rs.

Definition blank (spaces : list (Z * Z)) (s : string) : bool :=
  forallb (λ x, in_ranges spaces match x with inl r => code_point r | inr _ => 65533 end) (segments (chars s)).

Lemma skip_ws_in c l l' : skip_ws l = c :: l' → c ∈ l.
Proof. induction l as [|x l IH]; [done|]. cbn. destruct (is_ws x); [right; auto|]. intros [= -> _]. left. Qed.

Lemma object_brace text l : Parse text = Some (JObj l) → "{"%char ∈ chars text.
Proof.
  unfold Parse. destruct (parse_value _ _ _) as [[j r]|] eqn:E; [|done]. destruct (skip_ws r); [|done]. intros [= ->].
  cbn [parse_value] in E. destruct (skip_ws (chars text)) as [|c l'] eqn:Es; [done|].
  apply skip_ws_in in Es. destruct (Z.eqb_spec (byte_val c) 123) as [Hc|_].
  { assert (c = "{"%char) as ->; [|done]. rewrite <- (byte_of_val c), Hc. done. }
  exfalso. unfold parse_lit, mbind, option_bind in E. repeat case_match; by simplify_eq.
Qed.

Lemma ascii_segment l c : utf8 l → c ∈ l → byte_val c < 128 → inl [c] ∈ segments l.
Proof.
  intros Hl Hc Hb. unfold segments. assert (∀ n, (length l ≤ n)%nat → inl [c] ∈ segs n l) as Hn; [|by apply Hn].
  induction Hl as [|r l Hr _ IH]; intros n Hn; [inversion Hc|].
  pose proof (rune_len_bounds _ _ Hr) as Hb'. pose proof (rune_len_prefix _ _ l Hr) as Hp. rewrite take_ge in Hp by done.
  destruct r as [|x r]; [cbn in Hb'; lia|]. rewrite length_app in Hn. destruct n as [|n]; [cbn in Hn; lia|].
  cbn [app segs]. cbn [app] in Hp. rewrite Hp. change (x :: r ++ l) with ((x :: r) ++ l). rewrite take_app_length, drop_app_length.
  apply elem_of_app in Hc as [Hc|Hc]; [|right; apply IH; [done|cbn in Hn; lia]].
  destruct (decide (length (x :: r) = 1%nat)) as [Hl1|Hl1].
  { destruct r; [|done]. apply list_elem_of_singleton in Hc as ->. left. }
  exfalso. destruct (rune_shape _ Hr Hl1); repeat (apply elem_of_cons in Hc as [->|Hc]; [lia|]); inversion Hc.
Qed.

Lemma denotes_not_blank spaces text m : in_ranges spaces 123 = false → denotes text m → blank spaces text = false.
Proof.
  intros Hs (Hv & _ & d & E & _). apply object_brace in E. apply utf8_valid in Hv. apply not_true_is_false. intros Hb.
  unfold blank in Hb. rewrite forallb_forall in Hb. specialize (Hb (inl ["{"%char])).
  rewrite <- list_elem_of_In in Hb. specialize (Hb (ascii_segment _ _ Hv E ltac:(done))). change (in_ranges spaces 123 = true) in Hb. congruence.
Qed.
