(* ===== verification/SdkStores.v ===== *)
(** * The peer stores of the SDKs on one file

    src/sdk/go/peerstore.go (with [PeerFile]), src/sdk/ts/src/node.ts,
    src/sdk/py/relayly/_peerstore.py, src/sdk/rust/src/peerstore.rs and
    src/sdk/cpp/src/peer_store.cpp.  Each SDK keeps its pins in ~/.relayly/peers.json, in
    the same schema.  The class [Visitor] says what they promise each other about the file;
    every store is an instance, and clients of any SDKs that use the file one after the other
    together behave as one store. *)

From S2P Require Import Prelude Keys Json IndentJson Wire Noise PeerStore PeerFile TsWire StoreText.

(** ** Dictionaries

    A JavaScript object lists the properties that are array indices first, in ascending
    order, and the others in the order they were made; a Python dict lists all of them in the
    order they were made.  [rank] is smaller for what comes first. *)

Section dict.
Context {V : Type} (rank : string → Z).

(** Assigning to a key: in its place if it is there, after those of the same rank if not. *)
Fixpoint put (k : string) (v : V) (l : list (string * V)) : list (string * V) :=
  match l with
  | [] => [(k, v)]
  | (k', v') :: l' =>
      if decide (k = k') then (k, v) :: l'
      else if (rank k <? rank k')%Z then (k, v) :: l
      else (k', v') :: put k v l'
  end.

Definition put_all (l : list (string * V)) : list (string * V) := foldl (λ d kv, put kv.1 kv.2 d) [] l.

Lemma put_fresh k v l : k ∉ l.*1 → put k v l ≡ₚ (k, v) :: l.
Proof.
  induction l as [|[k' v'] l IH]; [done|]. cbn. rewrite not_elem_of_cons. intros [Hne Hk]. rewrite decide_False by done.
  destruct (rank k <? rank k')%Z; [done|]. rewrite IH by done. apply Permutation_swap.
Qed.

Lemma put_all_perm l : NoDup l.*1 → put_all l ≡ₚ l.
Proof.
  unfold put_all. assert (∀ l d, NoDup (l ++ d).*1 → foldl (λ d kv, put kv.1 kv.2 d) d l ≡ₚ l ++ d) as Hf.
  { clear l. induction l as [|[k v] l IH]; intros d Hd; [done|]. cbn in *. apply NoDup_cons in Hd as [Hk Hd].
    assert (put k v d ≡ₚ (k, v) :: d) as Hp.
    { apply put_fresh. rewrite fmap_app, not_elem_of_app in Hk. tauto. }
    rewrite IH; [by rewrite Hp, Permutation_middle|]. rewrite Hp, <- Permutation_middle. by constructor. }
  intros Hl. rewrite Hf by by rewrite app_nil_r. by rewrite app_nil_r.
Qed.
End dict.

(** A document from JSON whose values have the types declared for them. *)
Definition as_fields (rank : string → Z) (j : json) : option fields :=
  match j with
  | JObj l => put_all rank <$> mapM (λ kv, s ← as_str kv.2; Some (kv.1, s)) l
  | _ => None
  end.

Definition as_doc (rank : string → Z) (j : json) : option doc :=
  match j with
  | JObj l => put_all rank <$> mapM (λ kv, f ← as_fields rank kv.2; Some (kv.1, f)) l
  | _ => None
  end.

Lemma as_fields_json rank l : as_fields rank (fields_json l) = Some (put_all rank l).
Proof.
  unfold as_fields, fields_json. assert (mapM (λ kv : string * json, s ← as_str kv.2; Some (kv.1, s))
    ((λ kv : string * string, (kv.1, JStr kv.2)) <$> l) = Some l) as ->; [|done].
  induction l as [|[k v] l IH]; [done|]. rewrite fmap_cons. cbn [mapM fst snd as_str mbind option_bind]. by rewrite IH.
Qed.

Lemma put_all_pin rank l p : pin_members l p → pin_members (put_all rank l) p.
Proof.
  assert (∀ k v k' v' : string, k ≠ k' → put_all rank [(k, v); (k', v')] = [(k, v); (k', v')] ∨
    put_all rank [(k, v); (k', v')] = [(k', v'); (k, v)]) as Hp.
  { intros k v k' v' Hne. cbn. rewrite decide_False by done. destruct (rank k' <? rank k)%Z; auto. }
  intros [-> | ->]; [destruct (Hp "static_key" (StaticKey p) "pinned_at" (PinnedAt p)) as [E|E]
    |destruct (Hp "pinned_at" (PinnedAt p) "static_key" (StaticKey p)) as [E|E]]; try done; unfold pin_fields, reverse in *; cbn [rev_append];
    rewrite E; [by left|by right|by right|by left].
Qed.

(** Reading a text that denotes pins. *)
Lemma as_doc_holds rank d m : holds pin_members d m → ∃ d', as_doc rank (doc_json d) = Some d' ∧ holds pin_members d' m.
Proof.
  intros Hd. exists (put_all rank (prod_map id (put_all rank) <$> d)). unfold as_doc, doc_json.
  assert (mapM (λ kv : string * json, f ← as_fields rank kv.2; Some (kv.1, f))
    ((λ kv : string * fields, (kv.1, fields_json kv.2)) <$> d) = Some (prod_map id (put_all rank) <$> d)) as ->.
  { clear Hd. induction d as [|[k l] d IH]; [done|]. rewrite !fmap_cons. cbn [mapM fst snd]. rewrite as_fields_json.
    cbn [mbind option_bind]. by rewrite IH. }
  split; [done|]. destruct Hd as (H1 & H2 & H3).
  assert ((prod_map id (put_all rank) <$> d).*1 = d.*1) as E by (rewrite <- list_fmap_compose; by apply list_fmap_ext).
  apply (holds_perm _ (prod_map id (put_all rank) <$> d)); [symmetry; apply put_all_perm; by rewrite E|].
  split_and!; [by rewrite E| |by rewrite E]. intros id v ([id' l] & [= -> ->] & Hin)%list_elem_of_fmap.
  destruct (H2 _ _ Hin) as (p & Hp & Hm). exists p. split; [done|]. by apply put_all_pin.
Qed.

(** A new pin. *)
Lemma put_pin rank id key stamp d m : holds pin_members d m → m !! id = None →
  holds pin_members (put rank id [("static_key", key); ("pinned_at", stamp)] d) (<[id := PinnedPeer key stamp]> m).
Proof.
  intros Hd Hid. pose proof Hd as (_ & Hin & _). eapply holds_perm; [symmetry; apply put_fresh|].
  - intros ([id' l] & -> & Hl)%list_elem_of_fmap. destruct (Hin _ _ Hl) as (p & Hp & _). cbn in *. congruence.
  - apply holds_insert; [done..|]. by left.
Qed.

Lemma pin_key l p : pin_members l p → assoc "static_key" l = Some (StaticKey p).
Proof. by intros [-> | ->]. Qed.

(** ** What the stores promise each other *)

Inductive verdict := Accepted | Refused | Failed.

Definition completed (o : save_end) : bool := match o with Completed => true | _ => false end.

(** The pins in the file at [path]; no file holds none. *)
Definition file_holds (path : string) (d : gmap string bytes) (m : gmap string pinnedPeer) : Prop :=
  match d !! path with None => m = ∅ | Some text => denotes text m end.

(** The properties every JavaScript object inherits. *)
Definition object_prototype : list string :=
  ["constructor"; "__defineGetter__"; "__defineSetter__"; "hasOwnProperty"; "__lookupGetter__"; "__lookupSetter__";
   "isPrototypeOf"; "propertyIsEnumerable"; "toString"; "valueOf"; "__proto__"; "toLocaleString"].

(** The file name at the end of a path, and what it is made of. *)
Fixpoint split_last (c : ascii) (l : list ascii) : option (list ascii * list ascii) :=
  match l with
  | [] => None
  | x :: l =>
      match split_last c l with
      | Some (a, b) => Some (x :: a, b)
      | None => if decide (x = c) then Some ([], l) else None
      end
  end.

Definition file_name (l : list ascii) : list ascii := match split_last "/" l with Some (_, n) => n | None => l end.
Definition file_dir (l : list ascii) : list ascii := match split_last "/" l with Some (a, _) => a ++ ["/"%char] | None => [] end.
Definition file_stem (name : list ascii) : list ascii :=
  match split_last "." name with Some (s, _) => if decide (s = []) then name else s | None => name end.

(** A path that ends in the name of a file. *)
Definition named (path : string) : Prop := file_name (chars path) ∉ [[]; chars ".."].

(** A device ID and what is pinned for it, as text. *)
Definition ordinary (id key stamp : string) : Prop :=
  valid_utf8 id ∧ valid_utf8 key ∧ valid_utf8 stamp ∧ id ∉ object_prototype.

(** A client that starts, opens its peer store, and has it pin or verify one key.  It
    [notices] a save that ends in a certain way if it does not take it for another one. *)
Class Visitor := {
  notices : save_end → bool;
  notices_completed : notices Completed = true;
  visit : save_end → string → string → string → string → gmap string bytes → verdict * gmap string bytes;
  visit_known o stamp id key path d m p : file_holds path d m → ordinary id key stamp → m !! id = Some p →
    visit o stamp id key path d = (if decide (StaticKey p = key) then Accepted else Refused, d);
  visit_new o stamp id key path d m : notices o = true →
    file_holds path d m → named path → ordinary id key stamp → m !! id = None →
    ∃ d', visit o stamp id key path d = (if completed o then Accepted else Failed, d') ∧
      file_holds path d' (if completed o then <[id := PinnedPeer key stamp]> m else m)
}.

Lemma split_last_app c l a b : split_last c l = Some (a, b) → l = a ++ c :: b ∧ c ∉ b.
Proof.
  revert a b. induction l as [|x l IH]; intros a b; [done|]. cbn. destruct (split_last c l) as [[a' b']|] eqn:E.
  - intros [= <- <-]. destruct (IH _ _ eq_refl) as [-> ?]. done.
  - case_decide as Hx; [|done]. intros [= <- <-]. subst. split; [done|]. clear IH. induction l as [|y l IHl]; [set_solver|].
    cbn in E. destruct (split_last c l) as [[? ?]|]; [done|]. case_decide; [done|]. set_solver.
Qed.

Lemma file_parts l : l = file_dir l ++ file_name l.
Proof.
  unfold file_dir, file_name. destruct (split_last "/" l) as [[a b]|] eqn:E; [|done].
  apply split_last_app in E as [-> _]. by rewrite <- app_assoc.
Qed.

Lemma file_absent path : file_holds path ∅ ∅.
Proof. unfold file_holds. by rewrite lookup_empty. Qed.

Lemma file_clean path d m : file_holds path d m → clean_pins m.
Proof. unfold file_holds. destruct (d !! path); [by intros (_ & ? & _)|]. intros ->. apply map_Forall_empty. Qed.

(** What a save leaves in the file. *)
Lemma save_text_file o tmp path data d m m' : tmp ≠ path → file_holds path d m → denotes data m' →
  save_text o tmp path data d = (completed o, (save_text o tmp path data d).2) ∧
  file_holds path (save_text o tmp path data d).2 (if completed o then m' else m).
Proof.
  intros Hne Hf Hd. unfold file_holds in *. destruct o; cbn; (split; [done|]);
    rewrite ?lookup_insert_eq, ?(lookup_insert_ne _ tmp path) by done; done.
Qed.

Lemma pin_members_fun l p p' : pin_members l p → pin_members l p' → p = p'.
Proof. destruct p, p'; intros [-> | ->] [E|E]; unfold pin_fields, reverse in E; cbn in E; by simplify_eq. Qed.

(** A loop that enters one pin after the other in a map reads the map. *)
Lemma fold_doc (enter : gmap string pinnedPeer → string * json → option (gmap string pinnedPeer)) d m :
  (∀ m0 k l p, m0 !! k = None → pin_members l p → enter m0 (k, fields_json l) = Some (<[k := p]> m0)) →
  holds pin_members d m → fold_fields enter ∅ ((λ kv, (kv.1, fields_json kv.2)) <$> d) = Some m.
Proof.
  intros Hent Hd. assert (∀ d m0, NoDup d.*1 → (∀ id l, (id, l) ∈ d → m0 !! id = None ∧ ∃ p, pin_members l p) →
    ∃ m1, fold_fields enter m0 ((λ kv, (kv.1, fields_json kv.2)) <$> d) = Some m1 ∧
      ∀ id, match assoc id d with Some l => ∃ p, m1 !! id = Some p ∧ pin_members l p | None => m1 !! id = m0 !! id end) as Hf.
  { clear d m Hd. induction d as [|[k l] d IH]; intros m0 Hnd Hin; [by exists m0|]. apply NoDup_cons in Hnd as [Hk Hnd].
    destruct (Hin k l ltac:(left)) as (Hm0 & p & Hp). rewrite fmap_cons. cbn [fold_fields fst snd] in *.
    rewrite (Hent _ _ _ _ Hm0 Hp). cbn [mbind option_bind].
    destruct (IH (<[k := p]> m0) Hnd) as (m1 & E & Hm1).
    { intros id l' Hl'. rewrite lookup_insert_ne; [by eapply Hin; right|]. intros <-. apply Hk, list_elem_of_fmap. by exists (k, l'). }
    exists m1. split; [done|]. intros id. cbn [assoc]. specialize (Hm1 id). case_decide as Hid.
    - subst id. apply assoc_none in Hk. rewrite Hk in Hm1. rewrite lookup_insert_eq in Hm1. eauto.
    - destruct (assoc id d); [done|]. by rewrite lookup_insert_ne in Hm1. }
  pose proof Hd as (Hnd & Hin & _). destruct (Hf d ∅ Hnd) as (m1 & -> & Hm1).
  { intros id l Hl. destruct (Hin _ _ Hl) as (p & _ & ?). eauto using lookup_empty. }
  f_equal. apply map_eq. intros id. specialize (Hm1 id). pose proof (holds_assoc _ _ _ id Hd) as A.
  destruct (assoc id d) as [l|]; [|by rewrite Hm1, A, lookup_empty]. destruct Hm1 as (p & -> & P1), A as (p' & -> & P2).
  f_equal. by eapply pin_members_fun.
Qed.

(** *** Go *)

Lemma go_dec_members l p : pin_members l p → dec_pin (fields_json l) = Some p.
Proof. destruct p as [k t]. by intros [-> | ->]. Qed.

Lemma go_reads text m : denotes text m → UnmarshalPins text = Some (Some m).
Proof.
  intros (_ & _ & d & E & Hd). unfold UnmarshalPins. rewrite E. cbn [doc_json]. rewrite (fold_doc pin_entry d m); [done| |done].
  intros m0 k l p _ Hp. unfold pin_entry. cbn [fst snd]. by rewrite (go_dec_members _ _ Hp).
Qed.

Lemma go_writes m : clean_pins m → denotes (MarshalIndent m) m.
Proof.
  intros Hm. unfold MarshalIndent. set (l := merge_sort key_le (map_to_list m)).
  assert (JObj ((λ kv : string * pinnedPeer, (kv.1, pin_json kv.2)) <$> l) = doc_json (prod_map id pin_fields <$> l)) as ->.
  { unfold doc_json. rewrite <- list_fmap_compose. done. }
  apply denotes_text; [exact parse_print_str|by eexists|exact print_str_utf8|done|].
  apply holds_entries; [by left|]. apply merge_sort_Permutation.
Qed.

(** [LoadPeerStore], and [PinOrVerify] of the store. *)
Definition go_visit (o : save_end) (stamp id key path : string) (d : gmap string bytes) : verdict * gmap string bytes :=
  match LoadPeerFile None path (Disk d ∅) with
  | inl _ => (Failed, d)
  | inr fs =>
      match PinOrVerifyFile o stamp id key fs d with
      | (Returns None, _, d') => (Accepted, d')
      | (Returns (Some ErrPeerKeyMismatch), _, d') => (Refused, d')
      | (_, _, d') => (Failed, d')
      end
  end.

Lemma file_holds_pins path d m : file_holds path d m → file_pins path d = Some m.
Proof.
  unfold file_holds, file_pins. destruct (d !! path) as [text|]; [|by intros ->]. intros Hd.
  destruct (decide (text = "")) as [->|Hne]; [|by rewrite (go_reads _ _ Hd)].
  exfalso. destruct Hd as (_ & _ & l & E & _). vm_compute in E. discriminate E.
Qed.

Lemma go_loads path d m : file_holds path d m → LoadPeerFile None path (Disk d ∅) = inr (MkFileStore path (Some m)).
Proof. intros Hf. apply LoadPeerFile_pins; [set_solver|]. by apply file_holds_pins. Qed.

Lemma go_known o stamp id key path d m p : file_holds path d m → ordinary id key stamp → m !! id = Some p →
  go_visit o stamp id key path d = (if decide (StaticKey p = key) then Accepted else Refused, d).
Proof.
  intros Hf _ Hp. unfold go_visit. rewrite (go_loads _ _ _ Hf).
  unfold PinOrVerifyFile. cbn [fs_peers mbind option_bind]. rewrite Hp. repeat case_decide; congruence.
Qed.

Lemma go_new o stamp id key path d m : file_holds path d m → named path → ordinary id key stamp → m !! id = None →
  ∃ d', go_visit o stamp id key path d = (if completed o then Accepted else Failed, d') ∧
    file_holds path d' (if completed o then <[id := PinnedPeer key stamp]> m else m).
Proof.
  intros Hf _ (V1 & V2 & V3 & _) Hp. unfold go_visit. rewrite (go_loads _ _ _ Hf).
  unfold PinOrVerifyFile. cbn [fs_peers fs_path mbind option_bind]. rewrite Hp. unfold saveFile.
  destruct (save_text_file o (tmp_path path) path (MarshalIndent (<[id := PinnedPeer key stamp]> m)) d m (<[id := PinnedPeer key stamp]> m))
    as [-> Hs]; [apply tmp_path_ne|done|apply go_writes; apply clean_insert; by eauto using file_clean|].
  eexists. split; [|exact Hs]. by destruct o.
Qed.

#[export] Instance go_visitor : Visitor :=
  {| notices _ := true; notices_completed := eq_refl; visit := go_visit; visit_known := go_known; visit_new o stamp id key path d m _ := go_new o stamp id key path d m |}.

(** *** TypeScript (src/sdk/ts/src/node.ts) *)

(** An array index, as the text of a property. *)
Definition js_rank (k : string) : Z :=
  match chars k with
  | [] => 2 ^ 32
  | c :: l =>
      let n := foldl (λ n c, n * 10 + (byte_val c - 48))%Z 0%Z (c :: l) in
      if forallb (in_range 48 57) (c :: l) && (bool_decide (l = []) || negb (byte_val c =? 48))%Z && (n <? 2 ^ 32 - 1)%Z then n else 2 ^ 32
  end.

(** What [load] resolves to: the pins, an error, or a value not of the declared type. *)
Inductive ts_loaded := TsPins (pins : doc) | TsThrown | TsUntyped.

Definition ts_load (path : string) (d : gmap string bytes) : ts_loaded :=
  match d !! path with
  | None => TsPins []
  | Some data =>
      if blank js_spaces data then TsPins []
      else match Parse data with
           | None => TsThrown
           | Some j => match as_doc js_rank j with Some pins => TsPins pins | None => TsUntyped end
           end
  end.

(** [pins[peerId]]. *)
Inductive property_of := Own (v : fields) | Inherited | Undefined.

Definition js_property (k : string) (pins : doc) : property_of :=
  match assoc k pins with
  | Some v => Own v
  | None => if decide (k ∈ object_prototype) then Inherited else Undefined
  end.

Inductive ts_got := TsPinned (staticKey pinnedAt : option string) | TsNoPin | TsGetThrown | TsGetUntyped.

Definition ts_get (peerId path : string) (d : gmap string bytes) : ts_got :=
  match ts_load path d with
  | TsThrown => TsGetThrown
  | TsUntyped => TsGetUntyped
  | TsPins pins =>
      match js_property peerId pins with
      | Own v => TsPinned (assoc "static_key" v) (assoc "pinned_at" v)
      | Inherited => TsPinned None None
      | Undefined => TsNoPin
      end
  end.

(** [JSON.stringify(pins, null, 2)]. *)
Definition ts_text (pins : doc) : bytes := of_chars (indent_with js_str 0 (doc_json pins)).

(** A call of [pinOrVerify], up to the next file operation it awaits. *)
Inductive ts_call :=
  | TsLoading (peerId staticKeyBase64 : string)
  | TsMkdir (pins : doc) | TsWriting (pins : doc) | TsRenaming
  | TsReturned | TsMismatch | TsFailed | TsOutside.

(** How a file operation ends; a write that fails may have written some bytes. *)
Inductive op_end := OpDone | OpFails (written : option nat).

Definition ts_step (e : op_end) (now path : string) (c : ts_call) (d : gmap string bytes) : ts_call * gmap string bytes :=
  match c, e with
  | TsLoading peerId staticKeyBase64, OpDone =>
      (match ts_load path d with
       | TsThrown => TsFailed
       | TsUntyped => TsOutside
       | TsPins pins =>
           match js_property peerId pins with
           | Own existing => if decide (assoc "static_key" existing = Some staticKeyBase64) then TsReturned else TsMismatch
           | Inherited => TsMismatch
           | Undefined => TsMkdir (put js_rank peerId [("static_key", staticKeyBase64); ("pinned_at", now)] pins)
           end
       end, d)
  | TsMkdir pins, OpDone => (TsWriting pins, d)
  | TsWriting pins, OpDone => (TsRenaming, <[tmp_path path := ts_text pins]> d)
  | TsWriting pins, OpFails (Some n) => (TsFailed, <[tmp_path path := of_chars (take n (chars (ts_text pins)))]> d)
  | TsRenaming, OpDone =>
      match d !! tmp_path path with
      | Some data => (TsReturned, <[path := data]> (delete (tmp_path path) d))
      | None => (TsFailed, d)
      end
  | TsReturned, _ | TsMismatch, _ | TsFailed, _ | TsOutside, _ => (c, d)
  | _, OpFails _ => (TsFailed, d)
  end.

(** The operations of a call that nothing interrupts. *)
Definition ts_ops (o : save_end) : list op_end :=
  match o with
  | NoDirectory => [OpDone; OpFails None]
  | NotOpened => [OpDone; OpDone; OpFails None]
  | WroteOnly n => [OpDone; OpDone; OpFails (Some n)]
  | NotRenamed => [OpDone; OpDone; OpDone; OpFails None]
  | Completed => [OpDone; OpDone; OpDone; OpDone]
  end.

Definition ts_run (es : list op_end) (now path : string) (s : ts_call * gmap string bytes) : ts_call * gmap string bytes :=
  foldl (λ s e, ts_step e now path s.1 s.2) s es.

Definition ts_visit (o : save_end) (stamp id key path : string) (d : gmap string bytes) : verdict * gmap string bytes :=
  match ts_run (ts_ops o) stamp path (TsLoading id key, d) with
  | (TsReturned, d') => (Accepted, d')
  | (TsMismatch, d') => (Refused, d')
  | (_, d') => (Failed, d')
  end.

Lemma ts_loads path d m : file_holds path d m → ∃ pins, ts_load path d = TsPins pins ∧ holds pin_members pins m.
Proof.
  unfold file_holds, ts_load. destruct (d !! path) as [text|]; [|intros ->; eexists; split; [done|apply holds_empty]].
  intros Hd. rewrite (denotes_not_blank js_spaces text m) by done. destruct Hd as (_ & _ & l & -> & Hl).
  destruct (as_doc_holds js_rank l m Hl) as (pins & -> & Hp). by exists pins.
Qed.

Lemma ts_writes pins m : clean_pins m → holds pin_members pins m → denotes (ts_text pins) m.
Proof. apply denotes_text; [exact parse_js_str|by eexists|exact js_str_utf8]. Qed.

(** The first step of a call. *)
Lemma ts_decides now id key path d m : file_holds path d m → ordinary id key now →
  match m !! id with
  | Some p => ts_step OpDone now path (TsLoading id key) d = (if decide (StaticKey p = key) then TsReturned else TsMismatch, d)
  | None => ∃ pins, ts_step OpDone now path (TsLoading id key) d = (TsMkdir pins, d) ∧
      denotes (ts_text pins) (<[id := PinnedPeer key now]> m)
  end.
Proof.
  intros Hf (V1 & V2 & V3 & Hn). destruct (ts_loads _ _ _ Hf) as (pins & E & Hp). cbn [ts_step]. rewrite E. unfold js_property.
  pose proof (holds_assoc _ _ _ id Hp) as A. destruct (assoc id pins) as [l|].
  - destruct A as (p & -> & Hl). rewrite (pin_key _ _ Hl). repeat case_decide; congruence.
  - rewrite A, decide_False by done. eexists. split; [done|]. apply ts_writes; [apply clean_insert; by eauto using file_clean|].
    by apply put_pin.
Qed.

Lemma ts_ended es now path c d : c ∈ [TsReturned; TsMismatch; TsFailed; TsOutside] → ts_run es now path (c, d) = (c, d).
Proof.
  intros Hc. induction es as [|e es IH]; [done|]. cbn. replace (ts_step e now path c d) with (c, d); [done|].
  set_unfold. by destruct Hc as [-> |[-> |[-> |[-> |[]]]]], e.
Qed.

Lemma ts_known o stamp id key path d m p : file_holds path d m → ordinary id key stamp → m !! id = Some p →
  ts_visit o stamp id key path d = (if decide (StaticKey p = key) then Accepted else Refused, d).
Proof.
  intros Hf Ho Hp. pose proof (ts_decides stamp id key path d m Hf Ho) as E. rewrite Hp in E. unfold ts_visit.
  assert (∃ es, ts_ops o = OpDone :: es) as [es ->] by (destruct o; by eexists).
  unfold ts_run. cbn [foldl fst snd]. rewrite E. fold (ts_run es stamp path).
  change (foldl _ ?s es) with (ts_run es stamp path s). case_decide; rewrite ts_ended by set_solver; done.
Qed.

Lemma ts_new o stamp id key path d m : file_holds path d m → named path → ordinary id key stamp → m !! id = None →
  ∃ d', ts_visit o stamp id key path d = (if completed o then Accepted else Failed, d') ∧
    file_holds path d' (if completed o then <[id := PinnedPeer key stamp]> m else m).
Proof.
  intros Hf _ Ho Hp. pose proof (ts_decides stamp id key path d m Hf Ho) as E. rewrite Hp in E. destruct E as (pins & E & Hd).
  destruct (save_text_file o (tmp_path path) path _ d m _ (tmp_path_ne path) Hf Hd) as [_ Hs].
  eexists. split; [|exact Hs]. unfold ts_visit, ts_run.
  destruct o; cbn [ts_ops foldl fst snd]; rewrite E; cbn [ts_step fst snd]; try done.
  rewrite lookup_insert_eq. cbn. by rewrite delete_insert_eq.
Qed.

#[export] Instance ts_visitor : Visitor :=
  {| notices _ := true; notices_completed := eq_refl; visit := ts_visit; visit_known := ts_known; visit_new o stamp id key path d m _ := ts_new o stamp id key path d m |}.

(** *** Python (src/sdk/py/relayly/_peerstore.py) *)

Definition is_utf8 (s : string) : bool := forallb (λ x : list ascii + ascii, match x with inl _ => true | inr _ => false end) (segments (chars s)).

Inductive py_loaded := PyPeers (peers : doc) | PyRaises | PyUntyped.

(** [PeerStore.load]; a dict keeps the order in which its keys were first assigned. *)
Definition py_rank (k : string) : Z := 0.

Definition py_load (path : string) (d : gmap string bytes) : py_loaded :=
  match d !! path with
  | None => PyPeers []
  | Some data =>
      if negb (is_utf8 data) then PyRaises
      else if blank py_spaces data then PyPeers []
      else match Parse data with
           | None => PyRaises
           | Some j => match as_doc py_rank j with Some peers => PyPeers peers | None => PyUntyped end
           end
  end.

(** [json.dumps(self._peers, indent=2)]. *)
Definition py_text (peers : doc) : bytes := of_chars (indent_with py_str 0 (doc_json peers)).

Inductive py_end := PyReturns | PyMismatch | PyKeyError | PyOSError.

Definition py_save (o : save_end) (path : string) (peers : doc) (d : gmap string bytes) : py_end * gmap string bytes :=
  let '(ok, d') := save_text o (path +:+ ".tmp") path (py_text peers) d in (if ok then PyReturns else PyOSError, d').

Definition py_pin_or_verify (o : save_end) (now peer_id static_key_b64 path : string) (peers : doc) (d : gmap string bytes)
    : py_end * doc * gmap string bytes :=
  match assoc peer_id peers with
  | Some existing =>
      (match assoc "static_key" existing with
       | None => PyKeyError
       | Some k => if decide (k ≠ static_key_b64) then PyMismatch else PyReturns
       end, peers, d)
  | None =>
      let peers := put py_rank peer_id [("static_key", static_key_b64); ("pinned_at", now)] peers in
      let '(r, d') := py_save o path peers d in (r, peers, d')
  end.

(** [get]: a pin without its key is a [KeyError]. *)
Definition py_get (peer_id : string) (peers : doc) : option (option string) :=
  match assoc peer_id peers with
  | None => Some None
  | Some entry => match assoc "static_key" entry with Some k => Some (Some k) | None => None end
  end.

Definition py_visit (o : save_end) (stamp id key path : string) (d : gmap string bytes) : verdict * gmap string bytes :=
  match py_load path d with
  | PyPeers peers =>
      match py_pin_or_verify o stamp id key path peers d with
      | (PyReturns, _, d') => (Accepted, d')
      | (PyMismatch, _, d') => (Refused, d')
      | (_, _, d') => (Failed, d')
      end
  | _ => (Failed, d)
  end.

Lemma is_utf8_valid s : valid_utf8 s → is_utf8 s = true.
Proof.
  unfold valid_utf8, is_utf8. intros Hv. apply forallb_forall. intros x Hx%list_elem_of_In. rewrite Forall_forall in Hv.
  specialize (Hv x Hx). by destruct x.
Qed.

Lemma py_loads path d m : file_holds path d m → ∃ peers, py_load path d = PyPeers peers ∧ holds pin_members peers m.
Proof.
  unfold file_holds, py_load. destruct (d !! path) as [text|]; [|intros ->; eexists; split; [done|apply holds_empty]].
  intros Hd. rewrite (denotes_not_blank py_spaces text m) by done. destruct Hd as (Hv & _ & l & -> & Hl).
  rewrite is_utf8_valid by done. destruct (as_doc_holds py_rank l m Hl) as (peers & -> & Hp). by exists peers.
Qed.

Lemma py_writes peers m : clean_pins m → holds pin_members peers m → denotes (py_text peers) m.
Proof. apply denotes_text; [exact parse_py_str|by eexists|exact py_str_utf8]. Qed.

Lemma py_known o stamp id key path d m p : file_holds path d m → ordinary id key stamp → m !! id = Some p →
  py_visit o stamp id key path d = (if decide (StaticKey p = key) then Accepted else Refused, d).
Proof.
  intros Hf _ Hp. destruct (py_loads _ _ _ Hf) as (peers & E & Hh). unfold py_visit, py_pin_or_verify. rewrite E.
  pose proof (holds_assoc _ _ _ id Hh) as A. destruct (assoc id peers) as [l|]; [|congruence].
  destruct A as (p' & Hp' & Hl). rewrite (pin_key _ _ Hl). repeat case_decide; congruence.
Qed.

Lemma py_new o stamp id key path d m : file_holds path d m → named path → ordinary id key stamp → m !! id = None →
  ∃ d', py_visit o stamp id key path d = (if completed o then Accepted else Failed, d') ∧
    file_holds path d' (if completed o then <[id := PinnedPeer key stamp]> m else m).
Proof.
  intros Hf _ (V1 & V2 & V3 & _) Hp. destruct (py_loads _ _ _ Hf) as (peers & E & Hh). unfold py_visit, py_pin_or_verify, py_save.
  rewrite E. pose proof (holds_assoc _ _ _ id Hh) as A. destruct (assoc id peers) as [l|]; [destruct A as (? & ? & _); congruence|].
  destruct (save_text_file o (path +:+ ".tmp") path (py_text (put py_rank id [("static_key", key); ("pinned_at", stamp)] peers)) d m
    (<[id := PinnedPeer key stamp]> m)) as [-> Hs];
    [apply tmp_path_ne|done|apply py_writes; [apply clean_insert; by eauto using file_clean|by apply put_pin]|].
  eexists. split; [|exact Hs]. by destruct o.
Qed.

#[export] Instance py_visitor : Visitor :=
  {| notices _ := true; notices_completed := eq_refl; visit := py_visit; visit_known := py_known; visit_new o stamp id key path d m _ := py_new o stamp id key path d m |}.

(** *** Rust and C++

    serde_json and nlohmann::json are outside the repository.  What the stores rely on: they
    read the values JSON texts stand for, and write texts that stand for the values; the order
    of an object's members may change on the way. *)

Inductive reordered : json → json → Prop :=
  | reordered_str s : reordered (JStr s) (JStr s)
  | reordered_obj l l1 l2 : Forall2 (λ x y, x.1 = y.1 ∧ reordered x.2 y.2) l l1 → l1 ≡ₚ l2 → reordered (JObj l) (JObj l2).

Class JsonLib := {
  json_read : bytes → option json;
  json_write : json → bytes
}.

Class JsonLaws `{JsonLib} := {
  read_standard text j : valid_utf8 text → Parse text = Some j → obj_json j → (jdepth j ≤ 128)%Z →
    ∃ j', json_read text = Some j' ∧ reordered j j';
  write_standard j : obj_json j → jsan j = j → (jdepth j ≤ 128)%Z →
    valid_utf8 (json_write j) ∧ ∃ j', Parse (json_write j) = Some j' ∧ reordered j j'
}.

(** The order in which a hash map lists its entries. *)
Class HashOrder := {
  iteration : gmap string pinnedPeer → list (string * pinnedPeer);
  iteration_perm m : iteration m ≡ₚ map_to_list m
}.

Lemma reordered_fields l j : reordered (fields_json l) j → ∃ l', j = fields_json l' ∧ l ≡ₚ l'.
Proof.
  unfold fields_json. inversion 1 as [|? l1 l2 Hf Hp]; subst.
  assert (l1 = (λ kv : string * string, (kv.1, JStr kv.2)) <$> l) as ->.
  { clear Hp H. revert l1 Hf. induction l as [|[k v] l IH]; intros l1 Hf; inversion Hf as [|? [k' j'] ? l1' [E1 E2] Hf']; subst; [done|].
    cbn in E1, E2. inversion E2; subst. rewrite fmap_cons. by rewrite <- (IH _ Hf'). }
  symmetry in Hp. apply Permutation_map_inv in Hp as (l' & -> & Hp). by exists l'.
Qed.

Lemma pin_members_perm l l' p : l ≡ₚ l' → pin_members l p → pin_members l' p.
Proof.
  intros Hp Hl. assert (l' ≡ₚ pin_fields p) as Hl'.
  { rewrite <- Hp. destruct Hl as [-> | ->]; [done|]. apply reverse_Permutation. }
  symmetry in Hl'. unfold pin_fields in Hl'. by apply Permutation_length_2_inv in Hl'.
Qed.

Lemma reordered_doc d j m : holds pin_members d m → reordered (doc_json d) j → ∃ d', j = doc_json d' ∧ holds pin_members d' m.
Proof.
  intros Hd. unfold doc_json at 1. inversion 1 as [|? l1 l2 Hf Hp]; subst.
  assert (∃ d1, l1 = (λ kv : string * fields, (kv.1, fields_json kv.2)) <$> d1 ∧ Forall2 (λ x y, x.1 = y.1 ∧ x.2 ≡ₚ y.2) d d1)
    as (d1 & -> & Hf1).
  { clear Hp Hd H. revert l1 Hf. induction d as [|[k l] d IH]; intros l1 Hf; inversion Hf as [|? [k' j'] ? l1' [E1 E2] Hf']; subst.
    { exists []. by split. }
    cbn in E1, E2. subst. destruct (reordered_fields _ _ E2) as (l' & -> & Hl'). destruct (IH _ Hf') as (d1 & -> & Hd1).
    exists ((k', l') :: d1). split; [done|]. by constructor. }
  symmetry in Hp. apply Permutation_map_inv in Hp as (d' & -> & Hp). exists d'. split; [done|].
  apply (holds_perm _ d1); [done|]. destruct Hd as (H1 & H2 & H3).
  assert (d1.*1 = d.*1) as E.
  { clear -Hf1. induction Hf1 as [|x y d d1 [Hx _] _ IH]; [done|]. cbn. by f_equal. }
  split_and!; [by rewrite E| |by rewrite E].
  intros id l Hin. apply list_elem_of_lookup_1 in Hin as [i Hi]. destruct (Forall2_lookup_r _ _ _ _ _ Hf1 Hi) as ([k l0] & H0 & E1 & E2).
  cbn in E1, E2. subst k. apply list_elem_of_lookup_2 in H0. destruct (H2 _ _ H0) as (p & Hp' & Hm). exists p. split; [done|].
  by eapply pin_members_perm.
Qed.

Section rust.
Context `{JsonLaws} `{HashOrder}.

(** [#[derive(Deserialize)]] of [PinnedPeer]: each field once, others ignored; or a sequence of the two. *)
Definition rust_field (k : string) (l : list (string * json)) : option string :=
  match filter (λ kv, kv.1 = k) l with [(_, JStr s)] => Some s | _ => None end.

Definition rust_peer (j : json) : option pinnedPeer :=
  match j with
  | JObj l => k ← rust_field "static_key" l; t ← rust_field "pinned_at" l; Some (PinnedPeer k t)
  | JArr [JStr k; JStr t] => Some (PinnedPeer k t)
  | _ => None
  end.

Definition rust_enter (m : gmap string pinnedPeer) (kv : string * json) : option (gmap string pinnedPeer) :=
  p ← rust_peer kv.2; Some (<[kv.1 := p]> m).

Definition rust_peers (j : json) : option (gmap string pinnedPeer) :=
  match j with JObj l => fold_fields rust_enter ∅ l | _ => None end.

(** [None] is an error. *)
Definition rust_load (path : string) (d : gmap string bytes) : option (gmap string pinnedPeer) :=
  match d !! path with
  | None => Some ∅
  | Some data =>
      if negb (is_utf8 data) then None
      else if blank rust_spaces data then Some ∅
      else json_read data ≫= rust_peers
  end.

(** [Path::with_extension], for a path that ends in a file name. *)
Definition with_extension (ext : list ascii) (path : list ascii) : list ascii :=
  file_dir path ++ file_stem (file_name path) ++ "."%char :: ext.

Definition rust_tmp (path : string) : string := of_chars (with_extension (chars "json.tmp") (chars path)).

(** [serde_json::to_string_pretty(&self.peers)]. *)
Definition rust_text (m : gmap string pinnedPeer) : bytes := json_write (doc_json (prod_map id pin_fields <$> iteration m)).

Inductive rust_end := RustOk | RustPeerKeyMismatch | RustErr.

Definition rust_save (o : save_end) (path : string) (m : gmap string pinnedPeer) (d : gmap string bytes) : rust_end * gmap string bytes :=
  let '(ok, d') := save_text o (rust_tmp path) path (rust_text m) d in (if ok then RustOk else RustErr, d').

Definition rust_pin_or_verify (o : save_end) (now peer_id static_key_b64 path : string) (m : gmap string pinnedPeer)
    (d : gmap string bytes) : rust_end * gmap string pinnedPeer * gmap string bytes :=
  match m !! peer_id with
  | Some existing => (if decide (StaticKey existing ≠ static_key_b64) then RustPeerKeyMismatch else RustOk, m, d)
  | None =>
      let m := <[peer_id := PinnedPeer static_key_b64 now]> m in
      let '(r, d') := rust_save o path m d in (r, m, d')
  end.

Definition rust_get (peer_id : string) (m : gmap string pinnedPeer) : option string := StaticKey <$> m !! peer_id.

Definition rust_visit (o : save_end) (stamp id key path : string) (d : gmap string bytes) : verdict * gmap string bytes :=
  match rust_load path d with
  | None => (Failed, d)
  | Some m =>
      match rust_pin_or_verify o stamp id key path m d with
      | (RustOk, _, d') => (Accepted, d')
      | (RustPeerKeyMismatch, _, d') => (Refused, d')
      | (RustErr, _, d') => (Failed, d')
      end
  end.

Lemma rust_tmp_ne path : rust_tmp path ≠ path.
Proof.
  intros E. apply (f_equal chars) in E. unfold rust_tmp, with_extension in E. rewrite chars_of_chars in E.
  rewrite (file_parts (chars path)) in E at 3. apply app_inv_head in E. revert E. generalize (file_name (chars path)) as n. intros n.
  unfold file_stem. destruct (split_last "." n) as [[s e]|] eqn:Es.
  - apply split_last_app in Es as [-> Hd]. case_decide as Hs; intros E; apply (f_equal length) in E as El;
      rewrite ?length_app in El; cbn in El; [lia|]. apply app_inv_head in E. injection E as E. subst e. set_solver.
  - intros E. apply (f_equal length) in E. rewrite length_app in E. cbn in E. lia.
Qed.

Lemma rust_peer_members l p : pin_members l p → rust_peer (fields_json l) = Some p.
Proof. destruct p as [k t]. by intros [-> | ->]. Qed.

Lemma lib_reads text m : denotes text m → ∃ d, json_read text = Some (doc_json d) ∧ holds pin_members d m.
Proof.
  intros (Hv & _ & d & E & Hd). destruct (read_standard _ _ Hv E (doc_obj d)) as (j & Hr & Hj).
  { etrans; [apply doc_depth|done]. }
  destruct (reordered_doc d j m Hd Hj) as (d' & -> & Hd'). by exists d'.
Qed.

Lemma lib_writes d m : clean_pins m → holds pin_members d m → denotes (json_write (doc_json d)) m.
Proof.
  intros Hm Hd. destruct (write_standard (doc_json d) (doc_obj d) (doc_clean d m Hm Hd)) as (Hv & j & E & Hj).
  { etrans; [apply doc_depth|done]. }
  destruct (reordered_doc d j m Hd Hj) as (d' & -> & Hd'). split_and!; [done..|]. by exists d'.
Qed.

Lemma rust_loads path d m : file_holds path d m → rust_load path d = Some m.
Proof.
  unfold file_holds, rust_load. destruct (d !! path) as [text|]; [|by intros ->]. intros Hd.
  rewrite (denotes_not_blank rust_spaces text m) by done. rewrite is_utf8_valid by apply Hd.
  destruct (lib_reads _ _ Hd) as (l & -> & Hl). cbn. apply fold_doc; [|done].
  intros m0 k f p _ Hp. unfold rust_enter. cbn [fst snd]. by rewrite (rust_peer_members _ _ Hp).
Qed.

Lemma rust_known o stamp id key path d m p : file_holds path d m → ordinary id key stamp → m !! id = Some p →
  rust_visit o stamp id key path d = (if decide (StaticKey p = key) then Accepted else Refused, d).
Proof.
  intros Hf _ Hp. unfold rust_visit, rust_pin_or_verify. rewrite (rust_loads _ _ _ Hf), Hp. repeat case_decide; congruence.
Qed.

Lemma rust_new o stamp id key path d m : file_holds path d m → named path → ordinary id key stamp → m !! id = None →
  ∃ d', rust_visit o stamp id key path d = (if completed o then Accepted else Failed, d') ∧
    file_holds path d' (if completed o then <[id := PinnedPeer key stamp]> m else m).
Proof.
  intros Hf _ (V1 & V2 & V3 & _) Hp. unfold rust_visit, rust_pin_or_verify, rust_save. rewrite (rust_loads _ _ _ Hf), Hp.
  destruct (save_text_file o (rust_tmp path) path (rust_text (<[id := PinnedPeer key stamp]> m)) d m (<[id := PinnedPeer key stamp]> m))
    as [-> Hs]; [apply rust_tmp_ne|done| |eexists; split; [|exact Hs]; by destruct o].
  apply lib_writes; [apply clean_insert; by eauto using file_clean|]. apply holds_entries; [by left|apply iteration_perm].
Qed.

#[export] Instance rust_visitor : Visitor :=
  {| notices _ := true; notices_completed := eq_refl; visit := rust_visit; visit_known := rust_known; visit_new o stamp id key path d m _ := rust_new o stamp id key path d m |}.
End rust.

Section cpp.
Context `{JsonLaws} `{HashOrder}.

(** [value.value(key, "")] of an object: an absent member is the default; one that is not a
    string throws. *)
Definition cpp_value (k : string) (l : list (string * json)) : option string :=
  match assoc k l with
  | None => Some ""
  | Some (JStr s) => Some s
  | Some _ => None
  end.

Definition cpp_entry (j : json) : option pinnedPeer :=
  match j with
  | JObj l => k ← cpp_value "static_key" l; t ← cpp_value "pinned_at" l; Some (PinnedPeer k t)
  | _ => None
  end.

(** [emplace] keeps the entry that is there. *)
Definition cpp_emplace (id : string) (p : pinnedPeer) (m : gmap string pinnedPeer) : gmap string pinnedPeer :=
  if decide (is_Some (m !! id)) then m else <[id := p]> m.

Definition cpp_enter (m : gmap string pinnedPeer) (kv : string * json) : option (gmap string pinnedPeer) :=
  p ← cpp_entry kv.2; Some (cpp_emplace kv.1 p m).

(** What [Load] makes of the file: a store, an exception, or a document that is no object. *)
Inductive cpp_loaded := CppStore (peers : gmap string pinnedPeer) | CppThrows | CppNoObject.

(** [readable] says whether the stream can be opened. *)
Definition cpp_Load (readable : bool) (path : string) (d : gmap string bytes) : cpp_loaded :=
  match (if readable then d !! path else None) with
  | None => CppStore ∅
  | Some data =>
      match json_read data with
      | None => CppThrows
      | Some (JObj l) => match fold_fields cpp_enter ∅ l with Some m => CppStore m | None => CppThrows end
      | Some _ => CppNoObject
      end
  end.

(** [doc.dump(2)] of the object that [Save] builds. *)
Definition cpp_text (m : gmap string pinnedPeer) : bytes := json_write (doc_json (prod_map id pin_fields <$> iteration m)).

Inductive cpp_end := CppReturns | CppPeerKeyMismatch | CppFilesystemError.

(** The stream is not asked whether it was opened and took all the text: whatever is at the
    temporary name then replaces the file. *)
Definition cpp_Save (o : save_end) (path : string) (m : gmap string pinnedPeer) (d : gmap string bytes) : cpp_end * gmap string bytes :=
  let tmp := path +:+ ".tmp" in
  let data := cpp_text m in
  let written :=
    match o with
    | NoDirectory | NotOpened => d
    | WroteOnly n => <[tmp := of_chars (take n (chars data))]> d
    | NotRenamed | Completed => <[tmp := data]> d
    end in
  match o, written !! tmp with
  | NoDirectory, _ | NotRenamed, _ | _, None => (CppFilesystemError, written)
  | _, Some text => (CppReturns, <[path := text]> (delete tmp written))
  end.

Definition cpp_notices (o : save_end) : bool := match o with NotOpened | WroteOnly _ => false | _ => true end.

Definition cpp_PinOrVerify (o : save_end) (now peer_id static_key_b64 path : string) (m : gmap string pinnedPeer)
    (d : gmap string bytes) : cpp_end * gmap string pinnedPeer * gmap string bytes :=
  match m !! peer_id with
  | Some existing => (if decide (StaticKey existing ≠ static_key_b64) then CppPeerKeyMismatch else CppReturns, m, d)
  | None =>
      let m := cpp_emplace peer_id (PinnedPeer static_key_b64 now) m in
      let '(r, d') := cpp_Save o path m d in (r, m, d')
  end.

Definition cpp_Get (peer_id : string) (m : gmap string pinnedPeer) : option string := StaticKey <$> m !! peer_id.

Definition cpp_visit (o : save_end) (stamp id key path : string) (d : gmap string bytes) : verdict * gmap string bytes :=
  match cpp_Load true path d with
  | CppStore m =>
      match cpp_PinOrVerify o stamp id key path m d with
      | (CppReturns, _, d') => (Accepted, d')
      | (CppPeerKeyMismatch, _, d') => (Refused, d')
      | (CppFilesystemError, _, d') => (Failed, d')
      end
  | _ => (Failed, d)
  end.

Lemma cpp_entry_members l p : pin_members l p → cpp_entry (fields_json l) = Some p.
Proof. destruct p as [k t]. by intros [-> | ->]. Qed.

Lemma cpp_emplace_new id p m : m !! id = None → cpp_emplace id p m = <[id := p]> m.
Proof. intros Hm. unfold cpp_emplace. by rewrite decide_False by (rewrite Hm; by intros []). Qed.

Lemma cpp_loads path d m : file_holds path d m → cpp_Load true path d = CppStore m.
Proof.
  unfold file_holds, cpp_Load. destruct (d !! path) as [text|]; [|by intros ->]. intros Hd.
  destruct (lib_reads _ _ Hd) as (l & -> & Hl). cbn [doc_json]. rewrite (fold_doc _ l m); [done| |done].
  intros m0 k f p Hm Hp. unfold cpp_enter. cbn [fst snd]. rewrite (cpp_entry_members _ _ Hp). cbn [mbind option_bind].
  by rewrite cpp_emplace_new.
Qed.

Lemma cpp_known o stamp id key path d m p : file_holds path d m → ordinary id key stamp → m !! id = Some p →
  cpp_visit o stamp id key path d = (if decide (StaticKey p = key) then Accepted else Refused, d).
Proof.
  intros Hf _ Hp. unfold cpp_visit, cpp_PinOrVerify. rewrite (cpp_loads _ _ _ Hf), Hp. repeat case_decide; congruence.
Qed.

Lemma cpp_Save_text o path m d : cpp_notices o = true →
  cpp_Save o path m d = let '(ok, d') := save_text o (path +:+ ".tmp") path (cpp_text m) d in
    (if ok then CppReturns else CppFilesystemError, d').
Proof. destruct o; intros [=]; cbn; [done|done|]. by rewrite lookup_insert_eq, delete_insert_eq. Qed.

Lemma cpp_new o stamp id key path d m : cpp_notices o = true →
  file_holds path d m → named path → ordinary id key stamp → m !! id = None →
  ∃ d', cpp_visit o stamp id key path d = (if completed o then Accepted else Failed, d') ∧
    file_holds path d' (if completed o then <[id := PinnedPeer key stamp]> m else m).
Proof.
  intros Ho Hf _ (V1 & V2 & V3 & _) Hp. unfold cpp_visit, cpp_PinOrVerify.
  rewrite (cpp_loads _ _ _ Hf), Hp, cpp_emplace_new, cpp_Save_text by done.
  destruct (save_text_file o (path +:+ ".tmp") path (cpp_text (<[id := PinnedPeer key stamp]> m)) d m (<[id := PinnedPeer key stamp]> m))
    as [-> Hs]; [apply tmp_path_ne|done| |eexists; split; [|exact Hs]; by destruct o].
  apply lib_writes; [apply clean_insert; by eauto using file_clean|]. apply holds_entries; [by left|apply iteration_perm].
Qed.

#[export] Instance cpp_visitor : Visitor :=
  {| notices := cpp_notices; notices_completed := eq_refl; visit := cpp_visit; visit_known := cpp_known; visit_new := cpp_new |}.
End cpp.

(** A library and an order to check the assumptions with. *)
#[export] Instance plain_json_lib : JsonLib := {| json_read := Parse; json_write j := of_chars (jindent 0 j) |}.

Lemma reordered_refl j : obj_json j → reordered j j.
Proof.
  induction j as [|b|lit|s|l IH|l IH] using json_nested_ind; intros Hj; try done; [constructor|].
  apply (reordered_obj l l l); [|done]. cbn [obj_json] in Hj. induction IH as [|x l Hx _ IHl]; [done|]. destruct Hj as [Hj1 Hj2].
  constructor; [by split; [|apply Hx]|by apply IHl].
Qed.

#[export] Instance plain_json_laws : JsonLaws.
Proof.
  split.
  - intros text j _ E Hj _. exists j. split; [done|]. by apply reordered_refl.
  - intros j Hj Hs Hd. split; [apply utf8_valid; cbn; rewrite chars_of_chars; apply indent_utf8; [exact print_str_utf8|done]|].
    exists j. split; [|by apply reordered_refl]. cbn. rewrite Parse_jindent, Hs; [done..|]. etrans; [exact Hd|done].
Qed.

#[export] Instance plain_order : HashOrder := {| iteration := map_to_list; iteration_perm m := reflexivity _ |}.

(** ** One store for all *)

Record pin_request := MkRequest { rq_end : save_end; rq_stamp : string; rq_id : string; rq_key : string }.

(** Clients of any SDKs, one after the other. *)
Fixpoint visits (path : string) (l : list (Visitor * pin_request)) (d : gmap string bytes) : list verdict * gmap string bytes :=
  match l with
  | [] => ([], d)
  | (V, r) :: l =>
      let '(v, d) := @visit V (rq_end r) (rq_stamp r) (rq_id r) (rq_key r) path d in
      let '(vs, d) := visits path l d in (v :: vs, d)
  end.

(** The same on the abstract store of [PeerStore], opened with the pins on disk. *)
Definition verdict_of (e : option sdkerr) : verdict :=
  match e with None => Accepted | Some ErrPeerKeyMismatch => Refused | Some _ => Failed end.

Definition abstract_visit (r : pin_request) (m : gmap string pinnedPeer) : verdict * gmap string pinnedPeer :=
  let '(e, ps) := PinOrVerify (completed (rq_end r)) (rq_stamp r) (rq_id r) (rq_key r) (LoadPeerStore (Some m)) in
  (verdict_of e, default ∅ (on_disk ps)).

Fixpoint abstract_visits (rs : list pin_request) (m : gmap string pinnedPeer) : list verdict * gmap string pinnedPeer :=
  match rs with
  | [] => ([], m)
  | r :: rs => let '(v, m) := abstract_visit r m in let '(vs, m) := abstract_visits rs m in (v :: vs, m)
  end.

Definition ordinary_request (r : pin_request) : Prop := ordinary (rq_id r) (rq_key r) (rq_stamp r).

Lemma abstract_known r m p : m !! rq_id r = Some p →
  abstract_visit r m = (if decide (StaticKey p = rq_key r) then Accepted else Refused, m).
Proof.
  intros Em. unfold abstract_visit, PinOrVerify, LoadPeerStore. cbn [pins on_disk default]. change (Datatypes.id m) with m.
  rewrite Em. repeat case_decide; done.
Qed.

Lemma abstract_new r m : m !! rq_id r = None → abstract_visit r m =
  if completed (rq_end r) then (Accepted, <[rq_id r := PinnedPeer (rq_key r) (rq_stamp r)]> m) else (Failed, m).
Proof.
  intros Em. unfold abstract_visit, PinOrVerify, LoadPeerStore, saveLocked. cbn [pins on_disk default].
  change (Datatypes.id m) with m. rewrite Em. by destruct (completed _).
Qed.

Lemma visit_refines `{V : Visitor} r path d m : file_holds path d m → named path → ordinary_request r → notices (rq_end r) = true →
  ∃ d', visit (rq_end r) (rq_stamp r) (rq_id r) (rq_key r) path d = ((abstract_visit r m).1, d') ∧
    file_holds path d' (abstract_visit r m).2.
Proof.
  intros Hf Hn Hr Ho. destruct (m !! rq_id r) as [p|] eqn:Em.
  - exists d. by rewrite (abstract_known _ _ _ Em), (visit_known _ _ _ _ _ _ _ _ Hf Hr Em).
  - rewrite (abstract_new _ _ Em). destruct (visit_new (rq_end r) _ _ _ _ _ _ Ho Hf Hn Hr Em) as (d' & -> & Hd').
    exists d'. by destruct (completed (rq_end r)).
Qed.

(** A pin on disk stays as it is. *)
Lemma abstract_keeps rs m id p : m !! id = Some p → (abstract_visits rs m).2 !! id = Some p.
Proof.
  revert m. induction rs as [|r rs IH]; intros m Hm; [done|]. cbn [abstract_visits].
  assert ((abstract_visit r m).2 !! id = Some p) as Hm'.
  { destruct (m !! rq_id r) as [q|] eqn:E; [by rewrite (abstract_known _ _ _ E)|]. rewrite (abstract_new _ _ E).
    destruct (completed _); [|done]. cbn. rewrite lookup_insert_ne; congruence. }
  destruct (abstract_visit r m) as [v m1]. specialize (IH m1 Hm'). by destruct (abstract_visits rs m1).
Qed.

(** C10: The SDKs share one peer store.  Clients of the five SDKs that use the same file one after
    the other, each opening its store and pinning or verifying a key, whatever becomes of
    their saves (but for the failures that the C++ store does not notice), answer as one
    abstract store would, and leave the pins of that store in the file: a key one of them has
    pinned all of them hold on to. *)
Theorem stores_share_file path l d m : file_holds path d m → named path →
  Forall (λ x : Visitor * pin_request, ordinary_request x.2 ∧ @notices x.1 (rq_end x.2) = true) l →
  let '(vs, m') := abstract_visits l.*2 m in
  (∃ d', visits path l d = (vs, d') ∧ file_holds path d' m') ∧ (∀ id p, m !! id = Some p → m' !! id = Some p).
Proof.
  intros Hf Hn Hl. destruct (abstract_visits l.*2 m) as [vs m'] eqn:E. split.
  - revert d m vs m' Hf E. induction l as [|[V r] l IH]; intros d m vs m' Hf E.
    { injection E as <- <-. by exists d. }
    apply Forall_cons in Hl as [[Hr Ho] Hl]. cbn in E. destruct (visit_refines (V := V) r path d m Hf Hn Hr Ho) as (d1 & E1 & Hf1).
    destruct (abstract_visit r m) as [v m1]. destruct (abstract_visits l.*2 m1) as [vs1 m2] eqn:E2. injection E as <- <-.
    destruct (IH Hl d1 m1 vs1 m2 Hf1 E2) as (d2 & E3 & Hf2). exists d2. split; [|done]. cbn. by rewrite E1, E3.
  - intros id p Hp. by rewrite <- (abstract_keeps l.*2 m id p Hp), E.
Qed.

Definition ex_request (id key : string) : pin_request := MkRequest Completed "2025-01-01T00:00:00Z" id key.

Lemma ex_ordinary id key : valid_utf8 id → valid_utf8 key → bool_decide (id ∉ object_prototype) = true → ordinary_request (ex_request id key).
Proof. intros H1 H2 H3%bool_decide_eq_true_1. split_and!; [done|done|cbn; valid_text|done]. Qed.

Lemma ex_named : named "peers.json".
Proof. apply (bool_decide_eq_true_1 (file_name (chars "peers.json") ∉ [[]; chars ".."])). vm_compute. reflexivity. Qed.

Definition ex_visits : list (Visitor * pin_request) :=
  [(go_visitor, ex_request "bob" "a2V5"); (ts_visitor, ex_request "bob" "b3RoZXI="); (py_visitor, ex_request "eve" "b3RoZXI=");
   (rust_visitor, ex_request "eve" "a2V5"); (cpp_visitor, ex_request "bob" "a2V5"); (ts_visitor, ex_request "7" "a2V5")].

Lemma stores_share_file_witness : ∃ d m, visits "peers.json" ex_visits ∅ = ([Accepted; Refused; Accepted; Refused; Accepted; Accepted], d) ∧
  file_holds "peers.json" d m ∧ StaticKey <$> m !! "eve" = Some "b3RoZXI=".
Proof.
  assert (Forall (λ x : Visitor * pin_request, ordinary_request x.2 ∧ @notices x.1 (rq_end x.2) = true) ex_visits) as Hl.
  { repeat (apply Forall_cons; split; [split; [apply ex_ordinary; [valid_text|valid_text|by vm_compute]|done]|]). apply Forall_nil. done. }
  pose proof (stores_share_file "peers.json" ex_visits ∅ ∅ (file_absent _) ex_named Hl) as T.
  change ex_visits.*2 with [ex_request "bob" "a2V5"; ex_request "bob" "b3RoZXI="; ex_request "eve" "b3RoZXI=";
    ex_request "eve" "a2V5"; ex_request "bob" "a2V5"; ex_request "7" "a2V5"] in T. cbn [abstract_visits] in T.
  repeat first
    [rewrite abstract_new in T by (by repeat (rewrite lookup_insert_ne by done)); cbn [completed rq_end ex_request rq_id rq_key rq_stamp] in T
    |erewrite abstract_known in T by (cbn [rq_id ex_request]; repeat (rewrite lookup_insert_ne by done); apply lookup_insert_eq);
     cbn [StaticKey rq_key ex_request] in T].
  repeat first [rewrite decide_True in T by done|rewrite decide_False in T by done].
  destruct T as [(d & E2 & Hf) _]. eexists d, _. split; [exact E2|]. split; [exact Hf|].
  rewrite lookup_insert_ne by done. by rewrite lookup_insert_eq.
Defined.

(** ** At the same time *)

(** Calls of [pinOrVerify] that are under way on one file, each with its time; [who] says
    whose file operation comes next. *)
Definition ts_turn (path : string) (s : list (string * ts_call) * gmap string bytes) (who : nat)
    : list (string * ts_call) * gmap string bytes :=
  let '(cs, d) := s in
  match cs !! who with
  | Some (now, c) => let '(c', d') := ts_step OpDone now path c d in (<[who := (now, c')]> cs, d')
  | None => s
  end.

Definition ts_turns (path : string) (sched : list nat) (s : list (string * ts_call) * gmap string bytes)
    : list (string * ts_call) * gmap string bytes := foldl (ts_turn path) s sched.

(** Two calls that both find no pin for their peer. *)
Lemma ts_two_writers path d m t1 t2 id1 id2 k1 k2 :
  file_holds path d m → ordinary id1 k1 t1 → ordinary id2 k2 t2 → m !! id1 = None → m !! id2 = None →
  ∃ p1 p2, denotes (ts_text p1) (<[id1 := PinnedPeer k1 t1]> m) ∧ denotes (ts_text p2) (<[id2 := PinnedPeer k2 t2]> m) ∧
    ts_turns path [0; 1; 0; 1] ([(t1, TsLoading id1 k1); (t2, TsLoading id2 k2)], d) =
      ([(t1, TsWriting p1); (t2, TsWriting p2)], d).
Proof.
  intros Hf H1 H2 E1 E2. pose proof (ts_decides t1 id1 k1 path d m Hf H1) as D1. pose proof (ts_decides t2 id2 k2 path d m Hf H2) as D2.
  rewrite E1 in D1. rewrite E2 in D2. destruct D1 as (p1 & D1 & P1), D2 as (p2 & D2 & P2). exists p1, p2. split_and!; [done..|].
  unfold ts_turns. cbn [foldl ts_turn lookup list_lookup]. rewrite D1. cbn [foldl ts_turn lookup list_lookup insert list_insert].
  rewrite D2. done.
Qed.

(** Two TypeScript clients on one file lose a pin.  Two calls of [pinOrVerify] for different
    peers, neither of them pinned, can both return as if they had pinned their key, and yet
    the file holds the pin of only one of them.  The next call for the other peer, with
    whatever key, accepts it. *)
Theorem concurrent_pin_lost path d m t1 t2 t3 id1 id2 k1 k2 k3 :
  file_holds path d m → named path → ordinary id1 k1 t1 → ordinary id2 k2 t2 → ordinary id1 k3 t3 →
  m !! id1 = None → m !! id2 = None → id1 ≠ id2 →
  ∃ sched d', ts_turns path sched ([(t1, TsLoading id1 k1); (t2, TsLoading id2 k2)], d) = ([(t1, TsReturned); (t2, TsReturned)], d') ∧
    file_holds path d' (<[id2 := PinnedPeer k2 t2]> m) ∧
    (ts_visit Completed t3 id1 k3 path d').1 = Accepted.
Proof.
  intros Hf Hn H1 H2 H3 E1 E2 Hne. destruct (ts_two_writers path d m t1 t2 id1 id2 k1 k2 Hf H1 H2 E1 E2) as (p1 & p2 & P1 & P2 & Ht).
  set (d1 := <[path := ts_text p1]> (delete (tmp_path path) (<[tmp_path path := ts_text p1]> d))).
  set (d2 := <[path := ts_text p2]> (delete (tmp_path path) (<[tmp_path path := ts_text p2]> d1))).
  assert (file_holds path d2 (<[id2 := PinnedPeer k2 t2]> m)) as Hf2 by (unfold file_holds, d2; by rewrite lookup_insert_eq).
  exists ([0; 1; 0; 1] ++ [0; 0; 1; 1]), d2. split_and!; [|done|].
  - unfold ts_turns in *. rewrite foldl_app, Ht. cbn [foldl ts_turn lookup list_lookup ts_step insert list_insert].
    rewrite lookup_insert_eq. fold d1. cbn [foldl ts_turn lookup list_lookup ts_step insert list_insert]. rewrite lookup_insert_eq. done.
  - destruct (ts_new Completed t3 id1 k3 path d2 _ Hf2 Hn H3) as (d3 & -> & _); [by rewrite lookup_insert_ne|done].
Qed.

Lemma ex_stamp_ordinary id key : valid_utf8 id → valid_utf8 key → bool_decide (id ∉ object_prototype) = true →
  ordinary id key "2025-01-01T00:00:00Z".
Proof. exact (ex_ordinary id key). Qed.

Lemma concurrent_pin_lost_witness : ∃ sched d',
  ts_turns "peers.json" sched ([("2025-01-01T00:00:00Z", TsLoading "bob" "a2V5"); ("2025-01-01T00:00:00Z", TsLoading "eve" "b3RoZXI=")], ∅) =
    ([("2025-01-01T00:00:00Z", TsReturned); ("2025-01-01T00:00:00Z", TsReturned)], d') ∧
  (ts_visit Completed "2025-01-01T00:00:00Z" "bob" "b3RoZXI=" "peers.json" d').1 = Accepted.
Proof.
  destruct (concurrent_pin_lost "peers.json" ∅ ∅ _ _ _ "bob" "eve" "a2V5" "b3RoZXI=" "b3RoZXI=" (file_absent _) ex_named
    (ex_stamp_ordinary "bob" "a2V5" ltac:(valid_text) ltac:(valid_text) eq_refl)
    (ex_stamp_ordinary "eve" "b3RoZXI=" ltac:(valid_text) ltac:(valid_text) eq_refl)
    (ex_stamp_ordinary "bob" "b3RoZXI=" ltac:(valid_text) ltac:(valid_text) eq_refl) (lookup_empty _) (lookup_empty _) ltac:(discriminate))
    as (sched & d' & H1 & _ & H2).
  exists sched, d'. exact (conj H1 H2).
Defined.

(** A process with an open store drops the pins of others.  A Go client opens its store, then
    a client of any SDK pins a key in the same file, then the Go client pins another peer:
    every call succeeds, the first pin is gone, and the next client accepts any other key. *)
Theorem stale_store_drops_pin `{V : Visitor} `{W : Visitor} path d m t1 t2 t3 id1 id2 k1 k2 k3 :
  file_holds path d m → named path → ordinary id1 k1 t1 → ordinary id2 k2 t2 → ordinary id1 k3 t3 →
  m !! id1 = None → m !! id2 = None → id1 ≠ id2 →
  ∃ fs d1 fs' d2 d3, LoadPeerFile None path (Disk d ∅) = inr fs ∧
    @visit V Completed t1 id1 k1 path d = (Accepted, d1) ∧ file_holds path d1 (<[id1 := PinnedPeer k1 t1]> m) ∧
    PinOrVerifyFile Completed t2 id2 k2 fs d1 = (Returns None, fs', d2) ∧ file_holds path d2 (<[id2 := PinnedPeer k2 t2]> m) ∧
    @visit W Completed t3 id1 k3 path d2 = (Accepted, d3).
Proof.
  intros Hf Hn H1 H2 H3 E1 E2 Hne. destruct (visit_new (Visitor := V) Completed _ _ _ _ _ _ notices_completed Hf Hn H1 E1) as (d1 & V1 & Hf1).
  assert (denotes (MarshalIndent (<[id2 := PinnedPeer k2 t2]> m)) (<[id2 := PinnedPeer k2 t2]> m)) as Hd.
  { apply go_writes, clean_insert; [apply H2..|by eapply file_clean]. }
  set (d2 := <[path := MarshalIndent (<[id2 := PinnedPeer k2 t2]> m)]> (delete (tmp_path path) d1)).
  assert (file_holds path d2 (<[id2 := PinnedPeer k2 t2]> m)) as Hf2 by (unfold file_holds, d2; by rewrite lookup_insert_eq).
  destruct (visit_new (Visitor := W) Completed _ _ _ _ _ _ notices_completed Hf2 Hn H3) as (d3 & V3 & _); [by rewrite lookup_insert_ne|].
  exists (MkFileStore path (Some m)), d1, (MkFileStore path (Some (<[id2 := PinnedPeer k2 t2]> m))), d2, d3.
  split_and!; [by apply go_loads|done|done| |done|done].
  unfold PinOrVerifyFile. cbn [fs_peers fs_path mbind option_bind]. rewrite E2. done.
Qed.

Lemma stale_store_drops_pin_witness : ∃ d1 fs' d2 d3,
  ts_visit Completed "2025-01-01T00:00:00Z" "bob" "a2V5" "peers.json" ∅ = (Accepted, d1) ∧
  PinOrVerifyFile Completed "2025-01-01T00:00:00Z" "eve" "b3RoZXI=" (MkFileStore "peers.json" (Some ∅)) d1 = (Returns None, fs', d2) ∧
  py_visit Completed "2025-01-01T00:00:00Z" "bob" "b3RoZXI=" "peers.json" d2 = (Accepted, d3).
Proof.
  destruct (stale_store_drops_pin (V := ts_visitor) (W := py_visitor) "peers.json" ∅ ∅ _ _ _ "bob" "eve" "a2V5" "b3RoZXI=" "b3RoZXI="
    (file_absent _) ex_named (ex_stamp_ordinary "bob" "a2V5" ltac:(valid_text) ltac:(valid_text) eq_refl)
    (ex_stamp_ordinary "eve" "b3RoZXI=" ltac:(valid_text) ltac:(valid_text) eq_refl)
    (ex_stamp_ordinary "bob" "b3RoZXI=" ltac:(valid_text) ltac:(valid_text) eq_refl) (lookup_empty _) (lookup_empty _) ltac:(discriminate))
    as (fs & d1 & fs' & d2 & d3 & H1 & H2 & _ & H4 & _ & H6).
  injection H1 as <-. exists d1, fs', d2, d3. exact (conj H2 (conj H4 H6)).
Defined.

(** A peer whose ID is a property of every object is never pinned by a TypeScript client: its
    key is refused though nobody has pinned one. *)
Lemma inherited_id_refused now id key path d pins :
  ts_load path d = TsPins pins → assoc id pins = None → id ∈ object_prototype →
  ts_step OpDone now path (TsLoading id key) d = (TsMismatch, d).
Proof. intros El Ea Hid. cbn [ts_step]. rewrite El. unfold js_property. by rewrite Ea, decide_True. Qed.

(** A C++ client that cannot open the file starts with no pins. *)
Lemma cpp_unreadable_forgets `{JsonLib} path d : cpp_Load false path d = CppStore ∅.
Proof. done. Qed.

(** An empty file is a store without pins for the others, and an error for C++. *)
Lemma empty_file path d : d !! path = Some "" →
  LoadPeerFile None path (Disk d ∅) = inr (MkFileStore path (Some ∅)) ∧
  ts_load path d = TsPins [] ∧ py_load path d = PyPeers [] ∧
  rust_load path d = Some ∅ ∧ cpp_Load true path d = CppThrows.
Proof.
  intros Hd. unfold ts_load, py_load, rust_load, cpp_Load, LoadPeerFile, ReadFile. cbn [files Keys.failing].
  assert (expandHome None path = path) as -> by (unfold expandHome; by repeat case_match).
  rewrite decide_False by set_solver. by rewrite !Hd.
Qed.

(** On an empty file every key is a new one for the four SDKs. *)
Lemma empty_file_accepts path d t id k : d !! path = Some "" → id ∉ object_prototype →
  (go_visit Completed t id k path d).1 = Accepted ∧ (ts_visit Completed t id k path d).1 = Accepted ∧
  (py_visit Completed t id k path d).1 = Accepted ∧ (rust_visit Completed t id k path d).1 = Accepted.
Proof.
  intros Hd Hid. destruct (empty_file path d Hd) as (Eg & Et & Ep & Er & _).
  unfold go_visit, ts_visit, py_visit, rust_visit. rewrite Eg, Ep, Er. split_and!; [done| |done|done].
  unfold ts_run. cbn [ts_ops foldl fst snd ts_step]. rewrite Et. unfold js_property. cbn [assoc]. rewrite decide_False by done.
  cbn [foldl fst snd ts_step]. by rewrite lookup_insert_eq.
Qed.

(** C38: A full disk makes the C++ store forget.  [Save] does not ask its stream whether the text
    was written and renames the temporary file all the same: if nothing fits on the disk, the
    call that pins a new peer returns as if it had, the file that held the pins is empty, and
    the next client of another SDK accepts any key of any peer, pinned before or not. *)
Theorem cpp_full_disk_forgets path d m t1 id1 k1 t2 id2 k2 :
  file_holds path d m → m !! id1 = None → id2 ∉ object_prototype →
  ∃ d', cpp_visit (WroteOnly 0) t1 id1 k1 path d = (Accepted, d') ∧ d' !! path = Some "" ∧
    (go_visit Completed t2 id2 k2 path d').1 = Accepted ∧ (ts_visit Completed t2 id2 k2 path d').1 = Accepted ∧
    (py_visit Completed t2 id2 k2 path d').1 = Accepted ∧ (rust_visit Completed t2 id2 k2 path d').1 = Accepted.
Proof.
  intros Hf Hm Hid. set (d' := <[path := ""]> (delete (path +:+ ".tmp") (<[path +:+ ".tmp" := ""]> d))).
  assert (d' !! path = Some "") as Hd by apply lookup_insert_eq. exists d'. split_and!; [|done|by apply empty_file_accepts..].
  unfold cpp_visit, cpp_PinOrVerify. rewrite (cpp_loads _ _ _ Hf), Hm. unfold cpp_Save. by rewrite take_0, lookup_insert_eq.
Qed.

Lemma cpp_full_disk_forgets_witness : ∃ d d',
  go_visit Completed "2025-01-01T00:00:00Z" "bob" "a2V5" "peers.json" ∅ = (Accepted, d) ∧
  cpp_visit (WroteOnly 0) "2025-01-01T00:00:00Z" "eve" "b3RoZXI=" "peers.json" d = (Accepted, d') ∧
  (go_visit Completed "2025-01-01T00:00:00Z" "bob" "b3RoZXI=" "peers.json" d').1 = Accepted.
Proof.
  destruct (go_new Completed "2025-01-01T00:00:00Z" "bob" "a2V5" "peers.json" ∅ ∅ (file_absent _) ex_named
    (ex_stamp_ordinary "bob" "a2V5" ltac:(valid_text) ltac:(valid_text) eq_refl) (lookup_empty _)) as (d & E & Hf).
  destruct (cpp_full_disk_forgets "peers.json" d _ "2025-01-01T00:00:00Z" "eve" "b3RoZXI=" "2025-01-01T00:00:00Z" "bob" "b3RoZXI=" Hf
    ltac:(by rewrite lookup_insert_ne) ltac:(by apply (bool_decide_eq_true_1 _))) as (d' & E1 & _ & E2 & _).
  exists d, d'. exact (conj E (conj E1 E2)).
Defined.
