(* ===== verification/RustTime.v ===== *)
(** * The time stamps of the Rust SDK (src/sdk/rust/src/peerstore.rs)

    [civil_from_days] converts a count of days to a date without tables.  Its days follow each
    other as in the Gregorian calendar, and the text [now_rfc3339] makes of them is a date and
    time of RFC 3339. *)

From S2P Require Import Prelude Json.

Local Open Scope Z_scope.

(** Division of [i64] rounds towards zero; that of [u64] is between numbers that are not
    negative. *)
Definition civil_from_days (z : Z) : Z * Z * Z :=
  let z := z + 719468 in
  let era := Z.quot (if 0 <=? z then z else z - 146096) 146097 in
  let doe := z - era * 146097 in
  let yoe := (doe - doe / 1460 + doe / 36524 - doe / 146096) / 365 in
  let y := yoe + era * 400 in
  let doy := doe - (365 * yoe + yoe / 4 - yoe / 100) in
  let mp := (5 * doy + 2) / 153 in
  let d := doy - (153 * mp + 2) / 5 + 1 in
  let m := if mp <? 10 then mp + 3 else mp - 9 in
  (if m <=? 2 then y + 1 else y, m, d).

(** [{:0n}] of a number that is not negative. *)
Definition padded (n : nat) (z : Z) : list ascii :=
  let t := chars (pretty (Z.to_N z)) in replicate (n - length t) "0"%char ++ t.

Definition rfc3339 (date : Z * Z * Z) (hour minute second : Z) : string :=
  let '(year, month, day) := date in
  of_chars (padded 4 year ++ "-"%char :: padded 2 month ++ "-"%char :: padded 2 day ++ "T"%char :: padded 2 hour ++
            ":"%char :: padded 2 minute ++ ":"%char :: padded 2 second ++ ["Z"%char]).

Definition now_rfc3339 (secs : Z) : string :=
  let days := secs / 86400 in
  let time_of_day := secs mod 86400 in
  rfc3339 (civil_from_days days) (time_of_day / 3600) (time_of_day mod 3600 / 60) (time_of_day mod 60).

(** ** The Gregorian calendar *)

Definition leap (y : Z) : bool := (y mod 4 =? 0) && (negb (y mod 100 =? 0) || (y mod 400 =? 0)).

Definition month_length (y m : Z) : Z :=
  if m =? 2 then (if leap y then 29 else 28)
  else if (m =? 4) || (m =? 6) || (m =? 9) || (m =? 11) then 30 else 31.

Definition next_day (date : Z * Z * Z) : Z * Z * Z :=
  let '(y, m, d) := date in
  if d <? month_length y m then (y, m, d + 1)
  else if m <? 12 then (y, m + 1, 1) else (y + 1, 1, 1).

Definition valid_date (date : Z * Z * Z) : Prop :=
  let '(y, m, d) := date in 1 ≤ m ≤ 12 ∧ 1 ≤ d ≤ month_length y m.

(** ** Years that begin in March *)

(** The first day of year [y] of an era, and the year of a day. *)
Definition year_start (y : Z) : Z := 365 * y + y / 4 - y / 100 + y / 400.
Definition year_of (doe : Z) : Z := (doe - doe / 1460 + doe / 36524 - doe / 146096) / 365.
(** A day of such a year, as month and day. *)
Definition month_day (doy : Z) : Z * Z :=
  let mp := (5 * doy + 2) / 153 in
  (if mp <? 10 then mp + 3 else mp - 9, doy - (153 * mp + 2) / 5 + 1).

Definition date_in (era yoe doy : Z) : Z * Z * Z :=
  let '(m, d) := month_day doy in (if m <=? 2 then yoe + era * 400 + 1 else yoe + era * 400, m, d).

Lemma civil_era z : let z' := z + 719468 in
  civil_from_days z = date_in (z' / 146097) (year_of (z' mod 146097))
    (z' mod 146097 - (365 * year_of (z' mod 146097) + year_of (z' mod 146097) / 4 - year_of (z' mod 146097) / 100)).
Proof.
  unfold civil_from_days. set (z' := z + 719468). cbv zeta.
  assert (Z.quot (if 0 <=? z' then z' else z' - 146096) 146097 = z' / 146097) as ->.
  { destruct (Z.leb_spec 0 z'); [by apply Z.quot_div_nonneg|]. Z.to_euclidean_division_equations. lia. }
  assert (z' - z' / 146097 * 146097 = z' mod 146097) as -> by (pose proof (Z.div_mod z' 146097 ltac:(lia)); lia).
  done.
Qed.

Lemma year_of_mono x y : 0 ≤ x ≤ y → year_of x ≤ year_of y.
Proof.
  assert (∀ x, 0 ≤ x → year_of x ≤ year_of (x + 1)) as Hs.
  { clear. intros x Hx. unfold year_of. apply Z.div_le_mono; [lia|]. Z.to_euclidean_division_equations. lia. }
  intros [Hx Hy]. replace y with (x + Z.of_nat (Z.to_nat (y - x))) by lia. generalize (Z.to_nat (y - x)). intros n.
  induction n as [|n IH]; [by rewrite Z.add_0_r|]. etrans; [exact IH|].
  replace (x + Z.of_nat (S n)) with (x + Z.of_nat n + 1) by lia. apply Hs. lia.
Qed.

(** Facts about the years of an era, and about the days of a year, that are checked one by one. *)
Definition year_check (y : Z) : bool :=
  (year_of (year_start y) =? y) && (year_of (year_start (y + 1) - 1) =? y) &&
  (year_start (y + 1) - year_start y =? if leap (y + 1) then 366 else 365) && (365 * y + y / 4 - y / 100 =? year_start y).

Definition day_check (doy : Z) : bool :=
  let '(m, d) := month_day doy in
  let '(m', d') := month_day (doy + 1) in
  (1 <=? m) && (m <=? 12) && (1 <=? d) &&
  (if m =? 2 then (d <? 28) && (m' =? 2) && (d' =? d + 1)
   else if d <? month_length 1 m then (m' =? m) && (d' =? d + 1)
   else (d =? month_length 1 m) && (if m <? 12 then (m' =? m + 1) && (d' =? 1) else (m' =? 1) && (d' =? 1))).

Lemma range_check (f : Z → bool) n z : forallb f (seqZ 0 n) = true → 0 ≤ z < n → f z = true.
Proof.
  intros Hf Hz. rewrite forallb_forall in Hf. apply Hf. apply list_elem_of_In, elem_of_seqZ. lia.
Qed.

Lemma years_checked y : 0 ≤ y < 400 →
  year_of (year_start y) = y ∧ year_of (year_start (y + 1) - 1) = y ∧
  year_start (y + 1) - year_start y = (if leap (y + 1) then 366 else 365) ∧ 365 * y + y / 4 - y / 100 = year_start y.
Proof.
  intros Hy. assert (year_check y = true) as Hc by (apply (range_check year_check 400); [vm_compute; reflexivity|done]).
  unfold year_check in Hc. rewrite !andb_true_iff, !Z.eqb_eq in Hc. tauto.
Qed.

Lemma year_bounds x : 0 ≤ x < 146097 → 0 ≤ year_of x < 400 ∧ year_start (year_of x) ≤ x < year_start (year_of x + 1).
Proof.
  intros Hx. pose proof (year_of_mono 0 x ltac:(lia)) as H0. pose proof (year_of_mono x 146096 ltac:(lia)) as H1.
  change (year_of 0) with 0 in H0. change (year_of 146096) with 399 in H1. split; [lia|].
  set (y := year_of x) in *. split; apply Z.nlt_ge || apply Z.nle_gt; intros Hc.
  - assert (y ≠ 0) by (intros ->; change (year_start 0) with 0 in Hc; lia).
    destruct (years_checked (y - 1) ltac:(lia)) as (_ & E & _). rewrite Z.sub_add in E.
    pose proof (year_of_mono x (year_start y - 1) ltac:(lia)). unfold y in *. lia.
  - destruct (decide (y = 399)) as [E|Hne]; [rewrite E in Hc; change (year_start (399 + 1)) with 146097 in Hc; lia|].
    destruct (years_checked (y + 1) ltac:(lia)) as (E & _).
    assert (0 ≤ year_start (y + 1)) by (unfold year_start; Z.to_euclidean_division_equations; lia).
    pose proof (year_of_mono (year_start (y + 1)) x ltac:(lia)). unfold y in *. lia.
Qed.

Lemma year_unique x y : 0 ≤ y < 400 → year_start y ≤ x < year_start (y + 1) → year_of x = y.
Proof.
  intros Hy Hx. destruct (years_checked y Hy) as (E1 & E2 & _).
  assert (0 ≤ year_start y) by (unfold year_start; Z.to_euclidean_division_equations; lia).
  pose proof (year_of_mono (year_start y) x ltac:(lia)). pose proof (year_of_mono x (year_start (y + 1) - 1) ltac:(lia)). lia.
Qed.

Lemma leap_era y era : leap (y + era * 400) = leap y.
Proof.
  unfold leap. assert (∀ k q, 400 = q * k → k ≠ 0 → (y + era * 400) mod k = y mod k) as Hm.
  { intros k q Hq Hk. rewrite Hq, Z.mul_assoc, Z_mod_plus_full. done. }
  by rewrite (Hm 4 100), (Hm 100 4), (Hm 400 1).
Qed.

Lemma next_in_year era yoe doy : 0 ≤ doy < 364 → next_day (date_in era yoe doy) = date_in era yoe (doy + 1).
Proof.
  intros Hd. assert (day_check doy = true) as Hc by (apply (range_check day_check 364); [vm_compute; reflexivity|done]).
  unfold day_check in Hc. unfold date_in. destruct (month_day doy) as [m d], (month_day (doy + 1)) as [m' d'].
  rewrite !andb_true_iff, !Z.leb_le in Hc. destruct Hc as [[[H1 H2] H3] Hc]. unfold next_day, month_length in *.
  destruct (Z.eqb_spec m 2) as [->|Hm].
  - rewrite !andb_true_iff, Z.ltb_lt, !Z.eqb_eq in Hc. destruct Hc as [[Hd' ->] ->].
    rewrite (proj2 (Z.ltb_lt _ _)) by (case_match; lia). done.
  - destruct (d <? _) eqn:Ed.
    + rewrite andb_true_iff, !Z.eqb_eq in Hc. by destruct Hc as [-> ->].
    + rewrite andb_true_iff in Hc. destruct Hc as [_ Hc]. destruct (Z.ltb_spec m 12); rewrite andb_true_iff, !Z.eqb_eq in Hc; destruct Hc as [-> ->].
      * destruct (Z.leb_spec m 2), (Z.leb_spec (m + 1) 2); try lia; [done..|]. done.
      * destruct (Z.leb_spec m 2); [lia|done].
Qed.

(** The last days of a year, at the end of February. *)
Lemma next_at_end era yoe doy : 0 ≤ yoe < 400 → 364 ≤ doy → doy < (if leap (yoe + 1) then 366 else 365) →
  next_day (date_in era yoe doy) =
    if doy + 1 <? (if leap (yoe + 1) then 366 else 365) then date_in era yoe (doy + 1) else date_in era (yoe + 1) 0.
Proof.
  intros Hy H1 H2. assert (leap (yoe + era * 400 + 1) = leap (yoe + 1)) as El.
  { replace (yoe + era * 400 + 1) with (yoe + 1 + era * 400) by lia. apply leap_era. }
  assert (∀ k, date_in era k 0 = (k + era * 400, 3, 1)) as E0 by done.
  assert (date_in era yoe 364 = (yoe + era * 400 + 1, 2, 28) ∧ date_in era yoe 365 = (yoe + era * 400 + 1, 2, 29)) as [E1 E2] by done.
  revert H2. destruct (leap (yoe + 1)) eqn:Ely; intros H2.
  - assert (doy = 364 ∨ doy = 365) as [-> | ->] by lia; [rewrite E1|rewrite E2]; cbn [Z.add Z.ltb Z.compare Pos.compare];
      unfold next_day, month_length; cbn [Z.eqb Pos.eqb]; rewrite El; [done|].
    rewrite E0. by replace (yoe + 1 + era * 400) with (yoe + era * 400 + 1) by lia.
  - assert (doy = 364) as -> by lia. rewrite E1. unfold next_day, month_length. cbn [Z.eqb Pos.eqb]. rewrite El, E0.
    by replace (yoe + 1 + era * 400) with (yoe + era * 400 + 1) by lia.
Qed.

(** The day after a day, within an era. *)
Lemma civil_next z : civil_from_days (z + 1) = next_day (civil_from_days z).
Proof.
  rewrite !civil_era. cbv zeta. set (z' := z + 719468). replace (z + 1 + 719468) with (z' + 1) by (unfold z'; lia).
  set (era := z' / 146097). set (x := z' mod 146097). pose proof (Z.mod_pos_bound z' 146097 ltac:(lia)) as Hx. fold x in Hx.
  pose proof (Z.div_mod z' 146097 ltac:(lia)) as Hz. fold era x in Hz.
  destruct (year_bounds x Hx) as (Hy & Hs). destruct (years_checked _ Hy) as (_ & _ & Hlen & Est). rewrite Est.
  set (y := year_of x) in *. set (doy := x - year_start y) in *.
  assert (next_day (date_in era y doy) =
    if doy + 1 <? (if leap (y + 1) then 366 else 365) then date_in era y (doy + 1) else date_in era (y + 1) 0) as ->.
  { destruct (decide (doy < 364)); [|apply next_at_end; [done|lia|unfold doy; lia]].
    rewrite next_in_year by (unfold doy in *; lia). rewrite (proj2 (Z.ltb_lt _ _)); [done|]. case_match; lia. }
  rewrite <- Hlen. destruct (decide (x = 146096)) as [Ex|Hne].
  { assert ((z' + 1) / 146097 = era + 1 ∧ (z' + 1) mod 146097 = 0) as [-> ->].
    { rewrite Hz, Ex. replace (146097 * era + 146096 + 1) with (0 + (era + 1) * 146097) by lia.
      rewrite Z.div_add, Z_mod_plus_full by lia. done. }
    assert (y = 399) as -> by (unfold y; by rewrite Ex). unfold doy. rewrite Ex.
    change (_ <? _) with false at 1. cbv iota. change (year_of 0) with 0. change (0 - _) with 0.
    assert (∀ e k, date_in e k 0 = (k + e * 400, 3, 1)) as E0 by done. rewrite !E0.
    by replace (0 + (era + 1) * 400) with (399 + 1 + era * 400) by lia. }
  assert ((z' + 1) / 146097 = era ∧ (z' + 1) mod 146097 = x + 1) as [-> ->].
  { rewrite Hz. replace (146097 * era + x + 1) with (x + 1 + era * 146097) by lia.
    rewrite Z.div_add, Z_mod_plus_full, Z.div_small, Z.mod_small by lia. lia. }
  destruct (Z.ltb_spec (doy + 1) (year_start (y + 1) - year_start y)).
  - rewrite (year_unique (x + 1) y) by (unfold doy in *; lia). rewrite Est. do 2 f_equal. unfold doy. lia.
  - assert (x + 1 = year_start (y + 1)) as Ex by (unfold doy in *; lia).
    assert (y + 1 < 400) by (destruct (decide (y = 399)) as [E|]; [rewrite E in Ex; change (year_start (399 + 1)) with 146097 in Ex; lia|lia]).
    destruct (years_checked (y + 1) ltac:(lia)) as (Eu & _ & _ & Est'). rewrite Ex, Eu, Est'. f_equal. lia.
Qed.

(** ** Dates and texts *)

Lemma next_valid date : valid_date date → valid_date (next_day date) ∧ date.1.1 ≤ (next_day date).1.1.
Proof.
  destruct date as [[y m] d]. cbn [valid_date next_day fst]. intros [Hm Hd].
  assert (∀ y m, 28 ≤ month_length y m) as Hl by (intros; unfold month_length; repeat case_match; lia).
  destruct (Z.ltb_spec d (month_length y m)); [cbn; lia|]. destruct (Z.ltb_spec m 12); cbn [valid_date fst].
  - specialize (Hl y (m + 1)). lia.
  - specialize (Hl (y + 1) 1). lia.
Qed.

Definition calendar (n : nat) : Z * Z * Z := Nat.iter n next_day (1970, 1, 1).

Lemma civil_calendar n : civil_from_days (Z.of_nat n) = calendar n.
Proof.
  induction n as [|n IH]; [reflexivity|]. rewrite Nat2Z.inj_succ, <- Z.add_1_r, civil_next, IH. done.
Qed.

Lemma calendar_valid n : valid_date (calendar n).
Proof. induction n as [|n IH]; [vm_compute; by repeat split|]. by apply next_valid. Qed.

Lemma calendar_years n k : (n ≤ k)%nat → (calendar n).1.1 ≤ (calendar k).1.1.
Proof.
  induction 1 as [|k _ IH]; [done|]. etrans; [exact IH|]. apply (next_valid (calendar k)), calendar_valid.
Qed.

(** Through the year 9999. *)
Lemma calendar_range n : Z.of_nat n < 2932897 → 1970 ≤ (calendar n).1.1 ≤ 9999.
Proof.
  intros Hn. split; [apply (calendar_years 0 n); lia|]. etrans; [apply (calendar_years n (Z.to_nat 2932896)); lia|].
  rewrite <- civil_calendar, Z2Nat.id by lia. vm_compute. discriminate.
Qed.

Lemma padded_digits n z : (n ≠ 0)%nat → 0 ≤ z < 10 ^ Z.of_nat n → length (padded n z) = n ∧ Forall is_digit (padded n z).
Proof.
  intros Hn Hz. destruct (pretty_N_digits (Z.to_N z)) as (Hd & _ & Hl & _). unfold padded.
  assert (slen (pretty (Z.to_N z)) ≤ n)%nat as Hl' by (apply Hl; [done|lia]). rewrite <- slen_chars in Hl'. split.
  - rewrite length_app, length_replicate. lia.
  - apply Forall_app. split; [|done]. by apply Forall_replicate.
Qed.

Lemma rfc3339_text y m d hour minute second : 0 ≤ y ≤ 9999 → valid_date (y, m, d) →
  0 ≤ hour < 24 → 0 ≤ minute < 60 → 0 ≤ second < 60 →
  slen (rfc3339 (y, m, d) hour minute second) = 20%nat ∧ valid_utf8 (rfc3339 (y, m, d) hour minute second).
Proof.
  intros Hy [Hm Hd] H1 H2 H3. assert (d ≤ 31) by (etrans; [apply Hd|]; unfold month_length; repeat case_match; lia).
  destruct (padded_digits 4 y ltac:(done) ltac:(lia)) as [L1 D1], (padded_digits 2 m ltac:(done) ltac:(lia)) as [L2 D2],
    (padded_digits 2 d ltac:(done) ltac:(lia)) as [L3 D3], (padded_digits 2 hour ltac:(done) ltac:(lia)) as [L4 D4],
    (padded_digits 2 minute ltac:(done) ltac:(lia)) as [L5 D5], (padded_digits 2 second ltac:(done) ltac:(lia)) as [L6 D6].
  unfold rfc3339. split.
  - rewrite <- slen_chars, chars_of_chars. repeat (rewrite length_app || cbn [length]). lia.
  - apply valid_ascii. rewrite chars_of_chars. assert (∀ l, Forall is_digit l → Forall (λ c, byte_val c < 128) l) as Ha.
    { intros l Hl. eapply Forall_impl; [exact Hl|]. intros c Hc. unfold is_digit in Hc. lia. }
    repeat first [apply Forall_app; split; [by apply Ha|]|apply Forall_cons; split; [done|]]. by constructor.
Qed.

(** C25: The time stamps of the Rust SDK.  For every second up to the end of the year 9999, the text
    is that of the date that many whole days after 1970-01-01 in the Gregorian calendar, and
    of the hour, minute and second that make up the rest; each field is within its range, and
    the text has the 20 characters of RFC 3339. *)
Theorem rust_stamps secs : 0 ≤ secs < 253402300800 → ∃ hour minute second,
  let date := calendar (Z.to_nat (secs / 86400)) in
  now_rfc3339 secs = rfc3339 date hour minute second ∧ valid_date date ∧ 1970 ≤ date.1.1 ≤ 9999 ∧
  0 ≤ hour < 24 ∧ 0 ≤ minute < 60 ∧ 0 ≤ second < 60 ∧
  secs = secs / 86400 * 86400 + hour * 3600 + minute * 60 + second ∧
  slen (now_rfc3339 secs) = 20%nat ∧ valid_utf8 (now_rfc3339 secs).
Proof.
  intros Hs. assert (0 ≤ secs / 86400 < 2932897) as Hd by (Z.to_euclidean_division_equations; lia).
  set (t := secs mod 86400). exists (t / 3600), (t mod 3600 / 60), (t mod 60).
  assert (0 ≤ t / 3600 < 24 ∧ 0 ≤ t mod 3600 / 60 < 60 ∧ 0 ≤ t mod 60 < 60 ∧
    secs = secs / 86400 * 86400 + t / 3600 * 3600 + t mod 3600 / 60 * 60 + t mod 60) as (Hh & Hm & Hse & Ht).
  { unfold t. Z.to_euclidean_division_equations. lia. }
  assert (now_rfc3339 secs = rfc3339 (calendar (Z.to_nat (secs / 86400))) (t / 3600) (t mod 3600 / 60) (t mod 60)) as E.
  { unfold now_rfc3339. by rewrite <- civil_calendar, Z2Nat.id by lia. }
  pose proof (calendar_valid (Z.to_nat (secs / 86400))) as Hv. pose proof (calendar_range (Z.to_nat (secs / 86400)) ltac:(lia)) as Hy.
  cbv zeta. rewrite E. destruct (calendar _) as [[y m] d]. cbn [fst] in Hy.
  destruct (rfc3339_text y m d (t / 3600) (t mod 3600 / 60) (t mod 60) ltac:(lia) Hv Hh Hm Hse). pose proof Hv as [??]. split_and!; cbn [fst]; first [done|lia].
Qed.

Lemma rust_stamps_witness : now_rfc3339 951782400 = "2000-02-29T00:00:00Z" ∧ slen (now_rfc3339 951782400) = 20%nat.
Proof.
  split; [vm_compute; reflexivity|].
  destruct (rust_stamps 951782400 ltac:(lia)) as (h & mi & s & _ & _ & _ & _ & _ & _ & _ & L & _). exact L.
Defined.
