(* ===== verification/SdkPeers.v ===== *)
(** * The Python, the Rust and the C++ client and their peer

    PeerConn (src/sdk/py/relayly/_peer.py, src/sdk/rust/src/peer.rs,
    src/sdk/cpp/src/peer_conn.cpp) and the handlers of the clients that drive it
    (_client.py, client.rs, client.cpp): frames of the peer, its pairing and its status, and
    what becomes of a handshake that is over, with the peer stores of [SdkStores] and over any
    [Session].  A client has at most one peer, [cfg_peer]; the relay decides what arrives.

    [PeerClient] is what the three clients promise.  Two clients of any of the three SDKs pair
    and converse; no relay takes away a session that is usable; and a key that was refused in
    the first handshake of a process is used all the same. *)

From S2P Require Import Prelude Keys Suite Noise TsNoise PeerStore PeerFile StoreText SdkStores SdkSessions.

(** ** State and inputs *)

Definition UNSOLICITED_MSG1_MIN_INTERVAL : Z := 2 * Second.

Section state.
Context {S : Session}.

(** What a client does that others can see: frames it sends, the result of a pairing call
    ([None] for an error), its callback, messages it hands out, exceptions that leave a handler. *)
Inductive note := Sent (frame : bytes) | PairResult (peer_public_key : option bytes) | OnReady | Received (payload : bytes) | Raised.

(** [T]: what is known of the last unsolicited handshake.  [first_waiter] says whether a call
    waits for the first handshake. *)
Record conn (T : Type) := MkConn {
  announced_static_key : string;
  active : option session;
  pending : option session;
  last_unsolicited_msg1 : T;
  first_waiter : bool
}.

Record client (T D : Type) := MkClient { peer : option (conn T); store : D; disk : gmap string bytes; out : list note }.

Record config := MkConfig { cfg_device : string; cfg_peer : string; cfg_key : identity; cfg_store : string }.

(** Randomness, the monotonic clock, the time stamp and the end of a save, and whether the
    queue of received messages has room. *)
Record input := MkInput { in_seed : bytes; in_now : Z; in_stamp : string; in_save : save_end; in_room : bool }.

(** A binary frame; a peer_status and a pair_complete frame for the peer, the latter with the
    peer's announced key and with the call that waits for its code, if any ([true]: accept_pair);
    a call of send. *)
Inductive event :=
  | Binary (i : input) (frame : bytes)
  | PeerStatus (i : input) (online : bool)
  | PairComplete (i : input) (peer_static_key : option string) (we_are_acceptor : option bool)
  | Send (payload : bytes).

(** What PeerConn makes of a handshake message: the reply, whether the session is over, and
    whether it was the pending one. *)
Inductive outcome := Raises | Dropped | Fed (reply : option bytes) (done was_pending : bool).

(** What the client makes of a session that is over. *)
Inductive checked := Escapes | Bad | Good (key : bytes).
End state.

Arguments MkConn {S T} _ _ _ _ _.
Arguments announced_static_key {S T} _.
Arguments active {S T} _.
Arguments pending {S T} _.
Arguments last_unsolicited_msg1 {S T} _.
Arguments first_waiter {S T} _.
Arguments MkClient {S T D} _ _ _ _.
Arguments peer {S T D} _.
Arguments store {S T D} _.
Arguments disk {S T D} _.
Arguments out {S T D} _.
Arguments conn : clear implicits.
Arguments client : clear implicits.
Arguments config : clear implicits.

Section common.
Context {S : Session} {T D : Type}.

Definition slot (was_pending : bool) (c : conn S T) : option session := if was_pending then pending c else active c.

Definition put_slot (was_pending : bool) (s : session) (c : conn S T) : conn S T :=
  if was_pending then MkConn (announced_static_key c) (active c) (Some s) (last_unsolicited_msg1 c) (first_waiter c)
  else MkConn (announced_static_key c) (Some s) (pending c) (last_unsolicited_msg1 c) (first_waiter c).

Definition set_last (t : T) (c : conn S T) : conn S T := MkConn (announced_static_key c) (active c) (pending c) t (first_waiter c).
Definition set_waiter (w : bool) (c : conn S T) : conn S T :=
  MkConn (announced_static_key c) (active c) (pending c) (last_unsolicited_msg1 c) w.
Definition set_announced (key : string) (c : conn S T) : conn S T :=
  MkConn key (active c) (pending c) (last_unsolicited_msg1 c) (first_waiter c).

(** promote and abandon; the session that is over is the pending one. *)
Definition promote (c : conn S T) : conn S T :=
  match pending c with
  | Some s => MkConn (announced_static_key c) (Some s) None (last_unsolicited_msg1 c) (first_waiter c)
  | None => c
  end.
Definition abandon (c : conn S T) : conn S T :=
  MkConn (announced_static_key c) (active c) None (last_unsolicited_msg1 c) (first_waiter c).

(** The end of handle_handshake_envelope. *)
Definition feed (was_pending : bool) (data : bytes) (s : session) (c : conn S T) : outcome * conn S T :=
  let '((reply, done), s') := handle data s in (Fed reply done was_pending, put_slot was_pending s' c).

Definition with_peer (c : conn S T) (k : client S T D) : client S T D := MkClient (Some c) (store k) (disk k) (out k).
Definition with_store (st : D) (d : gmap string bytes) (k : client S T D) : client S T D := MkClient (peer k) st d (out k).
Definition notes (l : list note) (k : client S T D) : client S T D := MkClient (peer k) (store k) (disk k) (out k ++ l).

Definition handshake_frame (m : bytes) : bytes := encodeEnvelope envelopeHandshake m.
Definition transport_frame (x : bytes) : bytes := encodeEnvelope envelopeTransport x.

Definition replies (r : option bytes) : list note := match r with Some m => [Sent (handshake_frame m)] | None => [] end.

(** take_first_pair_waiter, and telling it. *)
Definition tells (c : conn S T) (r : option bytes) : list note := if first_waiter c then [PairResult r] else [].

(** The first half of resolving a handshake that is over: the client-side pin, given the store's
    [pin_or_verify], and the cross-check with the key the relay announced.  [failure] is what
    becomes of errors of the store other than a mismatch.  The key of a session that is over
    and has not failed is there. *)
Definition verify (failure : checked) (pin : string → verdict * D * gmap string bytes) (s : session) (announced : string)
    (st : D) (d : gmap string bytes) : checked * D * gmap string bytes :=
  if is_failed s then (Bad, st, d)
  else
    match static_key s with
    | None => (Escapes, st, d)
    | Some authenticated =>
        let authenticated_b64 := encodeBase64 authenticated in
        let '(v, st, d) := pin authenticated_b64 in
        (match v with
         | Accepted => if decide (announced ≠ "" ∧ announced ≠ authenticated_b64) then Bad else Good authenticated
         | Refused => Bad
         | SdkStores.Failed => failure
         end, st, d)
    end.

(** A connection's send and recv, in the clients' send and handle_transport_envelope. *)
Definition client_send (payload : bytes) (k : client S T D) : client S T D :=
  match peer k with
  | Some c =>
      match active c ≫= seal payload with
      | Some (x, s) => notes [Sent (transport_frame x)] (with_peer (put_slot false s c) k)
      | None => k
      end
  | None => k
  end.

Definition client_recv (room : bool) (ciphertext : bytes) (k : client S T D) : client S T D :=
  match peer k with
  | Some c =>
      match active c ≫= unseal ciphertext with
      | Some (m, s) => notes (if room then [Received m] else []) (with_peer (put_slot false s c) k)
      | None => k
      end
  | None => k
  end.
End common.

(** ** Python *)

Section python.
Context {S : Session}.
Local Abbreviation pconn := (conn S Z).
Local Abbreviation pclient := (client S Z doc).

Definition py_PeerConn (announced : string) : pconn := MkConn announced None None 0%Z false.

Definition py_start_as_initiator (cfg : config S) (i : input) (c : pconn) : option (bytes * pconn) :=
  '(s, msg1) ← as_initiator (in_seed i) (cfg_key cfg); Some (msg1, put_slot false s c).

Definition py_start_rekey_as_initiator (cfg : config S) (i : input) (c : pconn) : option (bytes * pconn) :=
  '(s, msg1) ← as_initiator (in_seed i) (cfg_key cfg); Some (msg1, put_slot true s c).

Definition py_handle_handshake_envelope (cfg : config S) (i : input) (data : bytes) (c : pconn) : outcome * pconn :=
  match pending c, active c with
  | Some s, _ => feed true data s c
  | None, Some s =>
      if negb (is_ready s) then feed false data s c
      else if bool_decide (in_now i - last_unsolicited_msg1 c < UNSOLICITED_MSG1_MIN_INTERVAL)%Z then (Dropped, c)
      else
        let c := set_last (in_now i) c in
        match as_responder (in_seed i) (cfg_key cfg) with
        | Some s => feed true data s c
        | None => (Raises, c)
        end
  | None, None =>
      match as_responder (in_seed i) (cfg_key cfg) with
      | Some s => feed false data s c
      | None => (Raises, c)
      end
  end.

(** Of the exceptions of the store only a mismatch is caught. *)
Definition py_pin (cfg : config S) (i : input) (peers : doc) (d : gmap string bytes) (key : string) : verdict * doc * gmap string bytes :=
  let '(r, peers, d) := py_pin_or_verify (in_save i) (in_stamp i) (cfg_peer cfg) key (cfg_store cfg) peers d in
  (match r with PyReturns => Accepted | PyMismatch => Refused | PyKeyError | PyOSError => SdkStores.Failed end, peers, d).

Definition py_check (cfg : config S) (i : input) (s : session) (announced : string) (peers : doc) (d : gmap string bytes)
    : checked * doc * gmap string bytes := verify Escapes (py_pin cfg i peers d) s announced peers d.

Definition py_resolve_handshake (cfg : config S) (i : input) (was_pending : bool) (c : pconn) (k : pclient) : pclient :=
  match slot was_pending c with
  | None => with_peer c k
  | Some s =>
      let '(r, peers, d) := py_check cfg i s (announced_static_key c) (store k) (disk k) in
      let k := with_store peers d k in
      match r with
      | Escapes => notes [Raised] (with_peer c k)
      | Bad =>
          if was_pending then with_peer (abandon c) k
          else notes (tells c None) (with_peer (set_waiter false c) k)
      | Good key =>
          let c := if was_pending then promote c else c in
          notes (tells c (Some key) ++ [OnReady]) (with_peer (set_waiter false c) k)
      end
  end.

Definition py_client_handshake (cfg : config S) (i : input) (payload : bytes) (k : pclient) : pclient :=
  match peer k with
  | None => k
  | Some c =>
      match py_handle_handshake_envelope cfg i payload c with
      | (Raises, c) => notes [Raised] (with_peer c k)
      | (Dropped, c) => with_peer c k
      | (Fed reply done was_pending, c) =>
          let k := notes (replies reply) k in
          if done then py_resolve_handshake cfg i was_pending c k else with_peer c k
      end
  end.

Definition py_handle_peer_status (cfg : config S) (i : input) (online : bool) (k : pclient) : pclient :=
  match online, peer k with
  | true, Some c =>
      if String.ltb (cfg_device cfg) (cfg_peer cfg) then
        match py_start_rekey_as_initiator cfg i c with
        | Some (msg1, c) => notes (replies (Some msg1)) (with_peer c k)
        | None => k
        end
      else k
  | _, _ => k
  end.

Definition py_handle_pair_complete (cfg : config S) (i : input) (peer_static_key : option string) (w : option bool) (k : pclient) : pclient :=
  let key := default "" peer_static_key in
  let c := match peer k with None => py_PeerConn key | Some c => set_announced key c end in
  match w with
  | None => with_peer c k
  | Some we_are_acceptor =>
      let c := set_waiter true c in
      if we_are_acceptor then
        match py_start_as_initiator cfg i c with
        | Some (msg1, c) => notes (replies (Some msg1)) (with_peer c k)
        | None => notes [PairResult None] (with_peer (set_waiter false c) k)
        end
      else with_peer c k
  end.

Definition py_handle_binary_frame (cfg : config S) (i : input) (raw : bytes) (k : pclient) : pclient :=
  match decodeEnvelope raw with
  | None => k
  | Some (kind, payload) =>
      if decide (kind = envelopeHandshake) then py_client_handshake cfg i payload k
      else if decide (kind = envelopeTransport) then client_recv (in_room i) payload k
      else k
  end.

Definition py_turn (cfg : config S) (e : event) (k : pclient) : pclient :=
  match e with
  | Binary i frame => py_handle_binary_frame cfg i frame k
  | PeerStatus i online => py_handle_peer_status cfg i online k
  | PairComplete i key w => py_handle_pair_complete cfg i key w k
  | Send payload => client_send payload k
  end.
End python.

(** ** Rust *)

Section rust.
Context {S : Session} `{JsonLib} `{HashOrder}.
Local Abbreviation pconn := (conn S (option Z)).
Local Abbreviation pclient := (client S (option Z) (gmap string pinnedPeer)).

Definition rust_PeerConn (announced : string) : pconn := MkConn announced None None None false.

Definition rust_start_as_initiator (cfg : config S) (i : input) (c : pconn) : option (bytes * pconn) :=
  '(s, msg1) ← as_initiator (in_seed i) (cfg_key cfg); Some (msg1, put_slot false s c).

Definition rust_start_rekey_as_initiator (cfg : config S) (i : input) (c : pconn) : option (bytes * pconn) :=
  '(s, msg1) ← as_initiator (in_seed i) (cfg_key cfg); Some (msg1, put_slot true s c).

(** A session that cannot be made drops the message. *)
Definition rust_handle_handshake_envelope (cfg : config S) (i : input) (data : bytes) (c : pconn) : outcome * pconn :=
  match pending c, active c with
  | Some s, _ => feed true data s c
  | None, Some s =>
      if negb (is_ready s) then feed false data s c
      else
        let limited := match last_unsolicited_msg1 c with
                       | Some last => bool_decide (in_now i - last < UNSOLICITED_MSG1_MIN_INTERVAL)%Z
                       | None => false
                       end in
        if limited then (Dropped, c)
        else
          let c := set_last (Some (in_now i)) c in
          match as_responder (in_seed i) (cfg_key cfg) with
          | Some s => feed true data s c
          | None => (Dropped, c)
          end
  | None, None =>
      match as_responder (in_seed i) (cfg_key cfg) with
      | Some s => feed false data s c
      | None => (Dropped, c)
      end
  end.

Definition rust_pin (cfg : config S) (i : input) (peers : gmap string pinnedPeer) (d : gmap string bytes) (key : string)
    : verdict * gmap string pinnedPeer * gmap string bytes :=
  let '(r, peers, d) := rust_pin_or_verify (in_save i) (in_stamp i) (cfg_peer cfg) key (cfg_store cfg) peers d in
  (match r with RustOk => Accepted | RustPeerKeyMismatch => Refused | RustErr => SdkStores.Failed end, peers, d).

Definition rust_check (cfg : config S) (i : input) (s : session) (announced : string) (peers : gmap string pinnedPeer)
    (d : gmap string bytes) : checked * gmap string pinnedPeer * gmap string bytes := verify Bad (rust_pin cfg i peers d) s announced peers d.

Definition rust_resolve_handshake (cfg : config S) (i : input) (was_pending : bool) (c : pconn) (k : pclient) : pclient :=
  match slot was_pending c with
  | None => with_peer c k
  | Some s =>
      let '(r, peers, d) := rust_check cfg i s (announced_static_key c) (store k) (disk k) in
      let k := with_store peers d k in
      match r with
      | Escapes => notes [Raised] (with_peer c k)
      | Bad =>
          if was_pending then with_peer (abandon c) k
          else notes (tells c None) (with_peer (set_waiter false c) k)
      | Good key =>
          let c := if was_pending then promote c else c in
          notes (tells c (Some key) ++ [OnReady]) (with_peer (set_waiter false c) k)
      end
  end.

Definition rust_client_handshake (cfg : config S) (i : input) (payload : bytes) (k : pclient) : pclient :=
  match peer k with
  | None => k
  | Some c =>
      match rust_handle_handshake_envelope cfg i payload c with
      | (Raises, c) | (Dropped, c) => with_peer c k
      | (Fed reply done was_pending, c) =>
          let k := notes (replies reply) k in
          if done then rust_resolve_handshake cfg i was_pending c k else with_peer c k
      end
  end.

Definition rust_handle_peer_status (cfg : config S) (i : input) (online : bool) (k : pclient) : pclient :=
  if negb online then k
  else if negb (String.ltb (cfg_device cfg) (cfg_peer cfg)) then k
  else
    match peer k with
    | None => k
    | Some c =>
        match rust_start_rekey_as_initiator cfg i c with
        | Some (msg1, c) => notes (replies (Some msg1)) (with_peer c k)
        | None => k
        end
    end.

Definition rust_handle_pair_complete (cfg : config S) (i : input) (peer_static_key : option string) (w : option bool) (k : pclient) : pclient :=
  let c := default (rust_PeerConn (default "" peer_static_key)) (peer k) in
  let c := match peer_static_key with Some key => set_announced key c | None => c end in
  match w with
  | None => with_peer c k
  | Some we_are_acceptor =>
      let c := set_waiter true c in
      if we_are_acceptor then
        match rust_start_as_initiator cfg i c with
        | Some (msg1, c) => notes (replies (Some msg1)) (with_peer c k)
        | None => notes [PairResult None] (with_peer (set_waiter false c) k)
        end
      else with_peer c k
  end.

Definition rust_read_binary (cfg : config S) (i : input) (data : bytes) (k : pclient) : pclient :=
  match decodeEnvelope data with
  | None => k
  | Some (kind, payload) =>
      if decide (kind = envelopeHandshake) then rust_client_handshake cfg i payload k
      else if decide (kind = envelopeTransport) then client_recv (in_room i) payload k
      else k
  end.

Definition rust_turn (cfg : config S) (e : event) (k : pclient) : pclient :=
  match e with
  | Binary i frame => rust_read_binary cfg i frame k
  | PeerStatus i online => rust_handle_peer_status cfg i online k
  | PairComplete i key w => rust_handle_pair_complete cfg i key w k
  | Send payload => client_send payload k
  end.
End rust.

(** ** C++ *)

Section cpp.
Context {S : Session} `{JsonLib} `{HashOrder}.
Local Abbreviation pconn := (conn S (option Z)).
Local Abbreviation pclient := (client S (option Z) (gmap string pinnedPeer)).

Definition cpp_PeerConn (announced : string) : pconn := MkConn announced None None None false.

Definition cpp_StartAsInitiator (cfg : config S) (i : input) (c : pconn) : option (bytes * pconn) :=
  '(s, msg1) ← as_initiator (in_seed i) (cfg_key cfg); Some (msg1, put_slot false s c).

Definition cpp_StartRekeyAsInitiator (cfg : config S) (i : input) (c : pconn) : option (bytes * pconn) :=
  '(s, msg1) ← as_initiator (in_seed i) (cfg_key cfg); Some (msg1, put_slot true s c).

Definition cpp_HandleHandshakeEnvelope (cfg : config S) (i : input) (data : bytes) (c : pconn) : outcome * pconn :=
  match pending c, active c with
  | Some s, _ => feed true data s c
  | None, Some s =>
      if negb (is_ready s) then feed false data s c
      else
        let limited := match last_unsolicited_msg1 c with
                       | Some last => bool_decide (in_now i - last < UNSOLICITED_MSG1_MIN_INTERVAL)%Z
                       | None => false
                       end in
        if limited then (Dropped, c)
        else
          let c := set_last (Some (in_now i)) c in
          match as_responder (in_seed i) (cfg_key cfg) with
          | Some s => feed true data s c
          | None => (Raises, c)
          end
  | None, None =>
      match as_responder (in_seed i) (cfg_key cfg) with
      | Some s => feed false data s c
      | None => (Raises, c)
      end
  end.

(** Whatever the store throws is caught. *)
Definition cpp_pin (cfg : config S) (i : input) (peers : gmap string pinnedPeer) (d : gmap string bytes) (key : string)
    : verdict * gmap string pinnedPeer * gmap string bytes :=
  let '(r, peers, d) := cpp_PinOrVerify (in_save i) (in_stamp i) (cfg_peer cfg) key (cfg_store cfg) peers d in
  (match r with CppReturns => Accepted | CppPeerKeyMismatch => Refused | CppFilesystemError => SdkStores.Failed end, peers, d).

Definition cpp_check (cfg : config S) (i : input) (s : session) (announced_key : string) (peers : gmap string pinnedPeer)
    (d : gmap string bytes) : checked * gmap string pinnedPeer * gmap string bytes := verify Bad (cpp_pin cfg i peers d) s announced_key peers d.

Definition cpp_ResolveHandshake (cfg : config S) (i : input) (was_pending : bool) (c : pconn) (k : pclient) : pclient :=
  match slot was_pending c with
  | None => with_peer c k
  | Some s =>
      let '(r, peers, d) := cpp_check cfg i s (announced_static_key c) (store k) (disk k) in
      let k := with_store peers d k in
      match r with
      | Escapes => notes [Raised] (with_peer c k)
      | Bad =>
          let c := if was_pending then abandon c else c in
          notes (tells c None) (with_peer (set_waiter false c) k)
      | Good key =>
          let c := if was_pending then promote c else c in
          notes (tells c (Some key) ++ [OnReady]) (with_peer (set_waiter false c) k)
      end
  end.

Definition cpp_HandleHandshake (cfg : config S) (i : input) (payload : bytes) (k : pclient) : pclient :=
  match peer k with
  | None => k
  | Some c =>
      match cpp_HandleHandshakeEnvelope cfg i payload c with
      | (Raises, c) => notes [Raised] (with_peer c k)
      | (Dropped, c) => with_peer c k
      | (Fed reply done was_pending, c) =>
          let k := notes (replies reply) k in
          if done then cpp_ResolveHandshake cfg i was_pending c k else with_peer c k
      end
  end.

Definition cpp_HandlePeerStatus (cfg : config S) (i : input) (online : bool) (k : pclient) : pclient :=
  match online, peer k with
  | true, Some c =>
      if String.ltb (cfg_device cfg) (cfg_peer cfg) then
        match cpp_StartRekeyAsInitiator cfg i c with
        | Some (msg1, c) => notes (replies (Some msg1)) (with_peer c k)
        | None => notes [Raised] k
        end
      else k
  | _, _ => k
  end.

(** Without a call that waits for the code nothing happens; [emplace] keeps a connection that is there. *)
Definition cpp_HandlePairComplete (cfg : config S) (i : input) (peer_static_key : option string) (w : option bool) (k : pclient) : pclient :=
  match w with
  | None => k
  | Some we_are_acceptor =>
      let c := set_waiter true (default (cpp_PeerConn (default "" peer_static_key)) (peer k)) in
      if we_are_acceptor then
        match cpp_StartAsInitiator cfg i c with
        | Some (msg1, c) => notes (replies (Some msg1)) (with_peer c k)
        | None => notes [Raised] (with_peer c k)
        end
      else with_peer c k
  end.

(** A message is handed to the callback. *)
Definition cpp_OnBinary (cfg : config S) (i : input) (data : bytes) (k : pclient) : pclient :=
  match decodeEnvelope data with
  | None => k
  | Some (kind, payload) =>
      if decide (kind = envelopeHandshake) then cpp_HandleHandshake cfg i payload k
      else if decide (kind = envelopeTransport) then client_recv true payload k
      else k
  end.

Definition cpp_turn (cfg : config S) (e : event) (k : pclient) : pclient :=
  match e with
  | Binary i frame => cpp_OnBinary cfg i frame k
  | PeerStatus i online => cpp_HandlePeerStatus cfg i online k
  | PairComplete i key w => cpp_HandlePairComplete cfg i key w k
  | Send payload => client_send payload k
  end.
End cpp.

(** ** What the clients promise *)

Section promises.
Context {S : Session} {T D : Type}.

(** The key of the session a client sends with. *)
Definition usable (k : client S T D) : option bytes :=
  c ← peer k; s ← active c; if is_ready s then static_key s else None.

(** A pairing that this client has accepted starts afresh. *)
Definition accepts (e : event) : bool := match e with PairComplete _ _ (Some true) => true | _ => false end.
End promises.

(** The three clients are one machine that speaks three dialects: how they remember the last
    unsolicited handshake, what they do when a session cannot be made, what they make of the
    end of a handshake, and whether a pair_complete frame for a known peer renews its key. *)
Class Dialect (S : Session) := {
  last_type : Type;
  store_type : Type;
  never : last_type;
  limited : Z → last_type → bool;
  mark : Z → last_type;
  responder_raises : bool;
  start_raises : bool;
  failure : checked;
  pin : config S → input → store_type → gmap string bytes → string → verdict * store_type * gmap string bytes;
  tells_pending : bool;
  completes : option string → option bool → option (conn S last_type) → option (conn S last_type);
  takes : bool → bool;
  (** What the store holds of the peer: [Some None] is an entry without a key. *)
  entry_of : config S → store_type → option (option string)
}.

Class DialectLaws {S : Session} {Dl : Dialect S} := {
  pin_accepts cfg i st d key st' d' : pin cfg i st d key = (Accepted, st', d') → entry_of cfg st' = Some (Some key);
  pin_known cfg i st d key key0 : entry_of cfg st = Some (Some key0) →
    pin cfg i st d key = (if decide (key0 ≠ key) then Refused else Accepted, st, d);
  pin_new cfg i st d key : entry_of cfg st = None → in_save i = Completed → ∃ st' d', pin cfg i st d key = (Accepted, st', d');
  failure_bad key : failure ≠ Good key;
  completes_new key w : completes (Some key) (Some w) None = Some (MkConn key None None never false);
  completes_keeps key w c c' : completes key w (Some c) = Some c' → active c' = active c ∧ pending c' = pending c;
  takes_room : takes true = true
}.

Section machine.
Context {S : Session} {Dl : Dialect S}.
Local Abbreviation dconn := (conn S last_type).
Local Abbreviation dclient := (client S last_type store_type).

Definition envelope (cfg : config S) (i : input) (data : bytes) (c : dconn) : outcome * dconn :=
  match pending c, active c with
  | Some s, _ => feed true data s c
  | None, Some s =>
      if negb (is_ready s) then feed false data s c
      else if limited (in_now i) (last_unsolicited_msg1 c) then (Dropped, c)
      else
        let c := set_last (mark (in_now i)) c in
        match as_responder (in_seed i) (cfg_key cfg) with
        | Some s => feed true data s c
        | None => (if responder_raises then Raises else Dropped, c)
        end
  | None, None =>
      match as_responder (in_seed i) (cfg_key cfg) with
      | Some s => feed false data s c
      | None => (if responder_raises then Raises else Dropped, c)
      end
  end.

Definition resolve (cfg : config S) (i : input) (was_pending : bool) (c : dconn) (k : dclient) : dclient :=
  match slot was_pending c with
  | None => with_peer c k
  | Some s =>
      let '(r, st, d) := verify failure (pin cfg i (store k) (disk k)) s (announced_static_key c) (store k) (disk k) in
      let k := with_store st d k in
      match r with
      | Escapes => notes [Raised] (with_peer c k)
      | Bad =>
          let c' := if was_pending then abandon c else c in
          if was_pending && negb tells_pending then with_peer c' k
          else notes (tells c' None) (with_peer (set_waiter false c') k)
      | Good key =>
          let c' := if was_pending then promote c else c in
          notes (tells c' (Some key) ++ [OnReady]) (with_peer (set_waiter false c') k)
      end
  end.

Definition handshake (cfg : config S) (i : input) (payload : bytes) (k : dclient) : dclient :=
  match peer k with
  | None => k
  | Some c =>
      match envelope cfg i payload c with
      | (Raises, c) => notes [Raised] (with_peer c k)
      | (Dropped, c) => with_peer c k
      | (Fed reply done was_pending, c) =>
          let k := notes (replies reply) k in
          if done then resolve cfg i was_pending c k else with_peer c k
      end
  end.

Definition peer_status (cfg : config S) (i : input) (online : bool) (k : dclient) : dclient :=
  match online && String.ltb (cfg_device cfg) (cfg_peer cfg), peer k with
  | true, Some c =>
      match as_initiator (in_seed i) (cfg_key cfg) with
      | Some (s, msg1) => notes (replies (Some msg1)) (with_peer (put_slot true s c) k)
      | None => if start_raises then notes [Raised] k else k
      end
  | _, _ => k
  end.

Definition pair_complete (cfg : config S) (i : input) (key : option string) (w : option bool) (k : dclient) : dclient :=
  match completes key w (peer k), w with
  | None, _ => k
  | Some c, None => with_peer c k
  | Some c, Some false => with_peer (set_waiter true c) k
  | Some c, Some true =>
      match as_initiator (in_seed i) (cfg_key cfg) with
      | Some (s, msg1) => notes (replies (Some msg1)) (with_peer (put_slot false s (set_waiter true c)) k)
      | None =>
          if start_raises then notes [Raised] (with_peer (set_waiter true c) k)
          else notes [PairResult None] (with_peer (set_waiter false c) k)
      end
  end.

Definition binary (cfg : config S) (i : input) (frame : bytes) (k : dclient) : dclient :=
  match decodeEnvelope frame with
  | None => k
  | Some (kind, payload) =>
      if decide (kind = envelopeHandshake) then handshake cfg i payload k
      else if decide (kind = envelopeTransport) then client_recv (takes (in_room i)) payload k
      else k
  end.

Definition turn (cfg : config S) (e : event) (k : dclient) : dclient :=
  match e with
  | Binary i frame => binary cfg i frame k
  | PeerStatus i online => peer_status cfg i online k
  | PairComplete i key w => pair_complete cfg i key w k
  | Send payload => client_send payload k
  end.
End machine.

(** *** Python *)

Section python_dialect.
Context {S : Session}.

Definition python_dialect : Dialect S := {|
  last_type := Z;
  store_type := doc;
  never := 0%Z;
  limited now last := bool_decide (now - last < UNSOLICITED_MSG1_MIN_INTERVAL)%Z;
  mark now := now;
  responder_raises := true;
  start_raises := false;
  failure := Escapes;
  pin := py_pin;
  tells_pending := false;
  completes key w p := Some (match p with None => py_PeerConn (default "" key) | Some c => set_announced (default "" key) c end);
  takes room := room;
  entry_of cfg peers := (λ l, assoc "static_key" l) <$> assoc (cfg_peer cfg) peers
|}.

Lemma py_turn_is cfg e k : py_turn cfg e k = turn (Dl := python_dialect) cfg e k.
Proof.
  destruct e as [i f|i on|i key w|m]; [| | |done].
  - cbn. unfold py_handle_binary_frame, binary, py_client_handshake, handshake. destruct (decodeEnvelope f) as [[kd p]|]; [|done].
    destruct (decide (kd = envelopeHandshake)); [|done]. destruct k as [[c|] st0 d0 o]; [|done]. cbn [peer].
    change (py_handle_handshake_envelope cfg i p c) with (envelope (Dl := python_dialect) cfg i p c).
    destruct (envelope (Dl := python_dialect) cfg i p c) as [[| |r dn wp] c']; [done|done|]. destruct dn; [|done].
    unfold py_resolve_handshake, resolve, py_check. destruct wp, c' as [a [s|] [s'|] l w]; try done; cbn;
      by destruct (verify _ _ _ _ _ _) as [[[| |key] st] d].
  - cbn. unfold py_handle_peer_status, peer_status, py_start_rekey_as_initiator. destruct on; [|done]. cbn [andb].
    destruct k as [[c|] st0 d0 o]; cbn [peer]; destruct (String.ltb _ _); try done. by destruct (as_initiator _ _) as [[s m]|].
  - cbn. unfold py_handle_pair_complete, pair_complete, py_start_as_initiator. cbn.
    destruct w as [[]|]; [|done|done]. by destruct (as_initiator _ _) as [[s m]|].
Qed.
End python_dialect.

(** *** Rust *)

Section rust_dialect.
Context {S : Session} `{JsonLib} `{HashOrder}.

(** Both remember an optional time, and hold the pins in a map. *)
Definition limited_since (now : Z) (last : option Z) : bool :=
  match last with Some last => bool_decide (now - last < UNSOLICITED_MSG1_MIN_INTERVAL)%Z | None => false end.
Definition map_entry (cfg : config S) (peers : gmap string pinnedPeer) : option (option string) :=
  (λ p, Some (StaticKey p)) <$> peers !! cfg_peer cfg.

Definition rust_dialect : Dialect S := {|
  last_type := option Z;
  store_type := gmap string pinnedPeer;
  never := None;
  limited := limited_since;
  mark now := Some now;
  responder_raises := false;
  start_raises := false;
  failure := Bad;
  pin := rust_pin;
  tells_pending := false;
  completes key w p :=
    let c := default (rust_PeerConn (default "" key)) p in
    Some (match key with Some key => set_announced key c | None => c end);
  takes room := room;
  entry_of := map_entry
|}.

Definition cpp_dialect : Dialect S := {|
  last_type := option Z;
  store_type := gmap string pinnedPeer;
  never := None;
  limited := limited_since;
  mark now := Some now;
  responder_raises := true;
  start_raises := true;
  failure := Bad;
  pin := cpp_pin;
  tells_pending := true;
  completes key w p := match w with None => None | Some _ => Some (default (cpp_PeerConn (default "" key)) p) end;
  takes room := true;
  entry_of := map_entry
|}.

Lemma rust_turn_is cfg e k : rust_turn cfg e k = turn (Dl := rust_dialect) cfg e k.
Proof.
  destruct e as [i f|i on|i key w|m]; [| | |done].
  - cbn. unfold rust_read_binary, binary, rust_client_handshake, handshake. destruct (decodeEnvelope f) as [[kd p]|]; [|done].
    destruct (decide (kd = envelopeHandshake)); [|done]. destruct k as [[c|] st0 d0 o]; [|done]. cbn [peer].
    change (rust_handle_handshake_envelope cfg i p c) with (envelope (Dl := rust_dialect) cfg i p c).
    destruct (envelope (Dl := rust_dialect) cfg i p c) as [[| |r dn wp] c'] eqn:E; [|done|].
    { exfalso. revert E. unfold envelope, feed. cbn. repeat case_match; by intros [= ]. }
    destruct dn; [|done]. unfold rust_resolve_handshake, resolve, rust_check. destruct wp, c' as [a [s|] [s'|] l w]; try done; cbn;
      by destruct (verify _ _ _ _ _ _) as [[[| |key] st] d].
  - cbn. unfold rust_handle_peer_status, peer_status, rust_start_rekey_as_initiator. destruct on; [|done]. cbn [andb negb].
    destruct k as [[c|] st0 d0 o]; cbn [peer]; destruct (String.ltb _ _); try done. cbn. by destruct (as_initiator _ _) as [[s m]|].
  - cbn. unfold rust_handle_pair_complete, pair_complete, rust_start_as_initiator. cbn.
    destruct w as [[]|]; [|done|done]. by destruct (as_initiator _ _) as [[s m]|].
Qed.

Lemma cpp_turn_is cfg e k : cpp_turn cfg e k = turn (Dl := cpp_dialect) cfg e k.
Proof.
  destruct e as [i f|i on|i key w|m]; [| | |done].
  - cbn. unfold cpp_OnBinary, binary, cpp_HandleHandshake, handshake. destruct (decodeEnvelope f) as [[kd p]|]; [|done].
    destruct (decide (kd = envelopeHandshake)); [|done]. destruct k as [[c|] st0 d0 o]; [|done]. cbn [peer].
    change (cpp_HandleHandshakeEnvelope cfg i p c) with (envelope (Dl := cpp_dialect) cfg i p c).
    destruct (envelope (Dl := cpp_dialect) cfg i p c) as [[| |r dn wp] c']; [done|done|]. destruct dn; [|done].
    unfold cpp_ResolveHandshake, resolve, cpp_check. destruct wp, c' as [a [s|] [s'|] l w]; try done; cbn;
      by destruct (verify _ _ _ _ _ _) as [[[| |key] st] d].
  - cbn. unfold cpp_HandlePeerStatus, peer_status, cpp_StartRekeyAsInitiator. destruct on; [|done]. cbn [andb].
    destruct k as [[c|] st0 d0 o]; cbn [peer]; destruct (String.ltb _ _); try done. by destruct (as_initiator _ _) as [[s m]|].
  - cbn. unfold cpp_HandlePairComplete, pair_complete, cpp_StartAsInitiator. cbn.
    destruct w as [[]|]; [|done|done]. by destruct (as_initiator _ _) as [[s m]|].
Qed.
End rust_dialect.

(** *** The dialects keep to the laws *)

Lemma assoc_put {V} rank k (v : V) l : assoc k (put rank k v l) = Some v.
Proof.
  induction l as [|[k' v'] l IH]; cbn; [by rewrite decide_True|]. destruct (decide (k = k')) as [->|Hk]; cbn; [by rewrite decide_True|].
  destruct (rank k <? rank k')%Z; cbn; [by rewrite decide_True|]. by rewrite decide_False.
Qed.

Section laws.
Context {S : Session}.

#[export] Instance python_dialect_laws : DialectLaws (Dl := python_dialect (S := S)).
Proof.
  split; cbn.
  - intros cfg i st d key st' d'. unfold py_pin, py_pin_or_verify, py_save. destruct (assoc (cfg_peer cfg) st) as [l|] eqn:E.
    + destruct (assoc "static_key" l) as [k|] eqn:Ek; [|done]. case_decide as Hk; [done|]. intros [= <- <-]. rewrite E. cbn.
      by rewrite Ek, Hk.
    + destruct (save_text _ _ _ _ _) as [[] d1]; [|done]. intros [= <- <-]. by rewrite assoc_put.
  - intros cfg i st d key key0. unfold py_pin, py_pin_or_verify. destruct (assoc (cfg_peer cfg) st) as [l|]; [|done].
    intros [= ->]. by case_decide.
  - intros cfg i st d key He Ho. unfold py_pin, py_pin_or_verify, py_save. rewrite Ho. apply fmap_None in He. rewrite He. by eexists _, _.
  - done.
  - done.
  - by intros key w c c' [= <-].
  - done.
Qed.

Context `{JsonLib} `{HashOrder}.

Lemma map_entry_key (cfg : config S) peers key : map_entry cfg peers = Some (Some key) ↔ StaticKey <$> peers !! cfg_peer cfg = Some key.
Proof. unfold map_entry. destruct (peers !! cfg_peer cfg); naive_solver. Qed.

#[export] Instance rust_dialect_laws : DialectLaws (Dl := rust_dialect (S := S)).
Proof.
  split; cbn.
  - intros cfg i st d key st' d'. rewrite map_entry_key. unfold rust_pin, rust_pin_or_verify, rust_save.
    destruct (st !! cfg_peer cfg) as [p|] eqn:E.
    + case_decide as Hk; [done|]. intros [= <- <-]. rewrite E. cbn. by rewrite Hk.
    + destruct (save_text _ _ _ _ _) as [[] d1]; [|done]. intros [= <- <-]. by rewrite lookup_insert_eq.
  - intros cfg i st d key key0. rewrite map_entry_key. unfold rust_pin, rust_pin_or_verify. destruct (st !! cfg_peer cfg) as [p|]; [|done].
    intros [= ->]. by case_decide.
  - intros cfg i st d key He Ho. unfold rust_pin, rust_pin_or_verify, rust_save. rewrite Ho. apply fmap_None in He. rewrite He. by eexists _, _.
  - done.
  - done.
  - intros [key|] w c c' [= <-]; done.
  - done.
Qed.

#[export] Instance cpp_dialect_laws : DialectLaws (Dl := cpp_dialect (S := S)).
Proof.
  split; cbn.
  - intros cfg i st d key st' d'. rewrite map_entry_key. unfold cpp_pin, cpp_PinOrVerify.
    destruct (st !! cfg_peer cfg) as [p|] eqn:E.
    + case_decide as Hk; [done|]. intros [= <- <-]. rewrite E. cbn. by rewrite Hk.
    + rewrite cpp_emplace_new by done. destruct (cpp_Save _ _ _ _) as [[] d1]; try done. intros [= <- <-]. by rewrite lookup_insert_eq.
  - intros cfg i st d key key0. rewrite map_entry_key. unfold cpp_pin, cpp_PinOrVerify. destruct (st !! cfg_peer cfg) as [p|]; [|done].
    intros [= ->]. by case_decide.
  - intros cfg i st d key He Ho. unfold cpp_pin, cpp_PinOrVerify, cpp_Save. rewrite Ho. apply fmap_None in He. rewrite He, lookup_insert_eq.
    by eexists _, _.
  - done.
  - done.
  - intros key [w|] c c' [= <-]; done.
  - done.
Qed.
End laws.

(** ** Against any relay *)

Section kept.
Context {S : Session} `{!SessionShape S} {Dl : Dialect S} `{!DialectLaws}.
Implicit Types (k : client S last_type store_type) (c : conn S last_type).

Lemma verify_good cfg i s a st d key st' d' : verify failure (pin cfg i st d) s a st d = (Good key, st', d') →
  is_failed s = false ∧ static_key s = Some key ∧ entry_of cfg st' = Some (Some (encodeBase64 key)).
Proof.
  unfold verify. destruct (is_failed s); [done|]. destruct (static_key s) as [key0|]; [|done].
  destruct (pin cfg i st d (encodeBase64 key0)) as [[v st1] d1] eqn:Ep. intros E. destruct v; [|done|].
  - case_decide; [done|]. injection E as <- <- <-. split_and!; [done..|]. by eapply pin_accepts.
  - injection E as E _ _. by destruct (failure_bad key).
Qed.

Lemma verify_keeps cfg i s a st d r st' d' key : verify failure (pin cfg i st d) s a st d = (r, st', d') →
  entry_of cfg st = Some (Some key) → entry_of cfg st' = Some (Some key).
Proof.
  unfold verify. intros E He. destruct (is_failed s); [by injection E as _ <- _|].
  destruct (static_key s) as [key0|]; [|by injection E as _ <- _]. rewrite (pin_known _ _ _ _ _ _ He) in E. by injection E as _ <- _.
Qed.

(** The session a client sends with. *)
Definition uses (k : client S last_type store_type) (key : bytes) : Prop :=
  ∃ c s, peer k = Some c ∧ active c = Some s ∧ is_ready s = true ∧ static_key s = Some key.

Lemma usable_uses k key : usable k = Some key ↔ uses k key.
Proof.
  unfold usable, uses. split.
  - intros (c & Hc & (s & Hs & Hr)%bind_Some)%bind_Some. exists c, s. by destruct (is_ready s).
  - intros (c & s & -> & Hs & Hr & Hk). cbn. rewrite Hs. cbn. by rewrite Hr.
Qed.

(** A handshake message does not touch a session that is ready. *)
Lemma envelope_spares cfg i data c s o c' : active c = Some s → is_ready s = true → envelope cfg i data c = (o, c') →
  active c' = Some s ∧
  match o with
  | Fed _ done wp => wp = true ∧ ∃ s', pending c' = Some s' ∧ (done = true → is_failed s' = false → is_ready s' = true)
  | _ => True
  end.
Proof.
  intros Ha Hr. assert (∀ x c0, active c0 = Some s → feed true data x c0 = (o, c') →
    active c' = Some s ∧ match o with
    | Fed _ done wp => wp = true ∧ ∃ s', pending c' = Some s' ∧ (done = true → is_failed s' = false → is_ready s' = true)
    | _ => True end) as Hf.
  { intros x c0 Hc0. unfold feed. destruct (handle data x) as [[r dn] x'] eqn:Eh. intros [= <- <-]. split; [done|]. split; [done|].
    exists x'. split; [done|]. intros ->. by eapply over_ready. }
  unfold envelope. rewrite Ha. destruct (pending c) as [p|]; [by apply Hf|]. rewrite Hr. cbn [negb].
  destruct (limited _ _); [by intros [= <- <-]|]. destruct (as_responder _ _) as [p|]; [by apply Hf|].
  intros [= <- <-]. split; [done|]. by destruct responder_raises.
Qed.

Lemma resolve_spares cfg i c k s key s' : active c = Some s → is_ready s = true → static_key s = Some key →
  pending c = Some s' → (is_failed s' = false → is_ready s' = true) →
  ∃ key', uses (resolve cfg i true c k) key' ∧
    (key' = key ∨ entry_of cfg (store (resolve cfg i true c k)) = Some (Some (encodeBase64 key'))).
Proof.
  intros Ha Hr Hk Hp Hready. unfold resolve. cbn [slot]. rewrite Hp.
  destruct (verify _ _ _ _ _ _) as [[r st] d] eqn:Ev. destruct r as [| |key'].
  - exists key. split; [|by left]. by exists c, s.
  - exists key. split; [|by left]. destruct tells_pending; by eexists _, s.
  - destruct (verify_good _ _ _ _ _ _ _ _ _ Ev) as (Hf & Hs & He). exists key'. split; [|by right].
    unfold promote. rewrite Hp. by eexists _, s'; split_and!; [| |apply Hready|].
Qed.

Lemma active_spared k key c s : peer k = Some c → active c = Some s → uses k key →
  is_ready s = true ∧ static_key s = Some key.
Proof. intros Hc Hs (c' & s' & Hc' & Hs' & ?). by simplify_eq. Qed.

Lemma handshake_keeps cfg i data k key : uses k key → ∃ key', uses (handshake cfg i data k) key' ∧
  (key' = key ∨ entry_of cfg (store (handshake cfg i data k)) = Some (Some (encodeBase64 key'))).
Proof.
  intros (c & s & Hc & Ha & Hr & Hk). unfold handshake. rewrite Hc. destruct (envelope cfg i data c) as [o c'] eqn:E.
  destruct (envelope_spares _ _ _ _ _ _ _ Ha Hr E) as [Ha' Ho].
  destruct o as [| |reply dn wp]; [exists key; split; [by exists c', s|by left]..|].
  destruct Ho as [-> (s' & Hp & Hready)]. destruct dn; [|exists key; split; [by exists c', s|by left]].
  eapply resolve_spares; [done..|by apply Hready].
Qed.

Lemma turn_keeps cfg e k key : accepts e = false → uses k key → ∃ key', uses (turn cfg e k) key' ∧
  (key' = key ∨ entry_of cfg (store (turn cfg e k)) = Some (Some (encodeBase64 key'))).
Proof.
  intros He Hu. pose proof Hu as (c & s & Hc & Ha & Hr & Hk).
  assert (∀ k' c' s', peer k' = Some c' → active c' = Some s' → is_ready s' = is_ready s → static_key s' = static_key s →
    ∃ key', uses k' key' ∧ (key' = key ∨ entry_of cfg (store k') = Some (Some (encodeBase64 key')))) as Hsame.
  { intros k' c' s' Hc' Ha' Hr' Hk'. exists key. split; [|by left]. exists c', s'. by rewrite Hr', Hk'. }
  destruct e as [i f|i on|i pk w|m]; cbn [turn].
  - unfold binary. destruct (decodeEnvelope f) as [[kd p]|]; [|by eapply Hsame]. case_decide; [by apply handshake_keeps|].
    case_decide; [|by eapply Hsame]. unfold client_recv. rewrite Hc, Ha. cbn.
    destruct (unseal p s) as [[m s']|] eqn:E; [|by eapply Hsame]. destruct (unseal_keeps _ _ _ _ E). by eapply Hsame.
  - unfold peer_status. rewrite Hc. destruct (on && _); [|by eapply Hsame].
    destruct (as_initiator _ _) as [[p m]|]; [by eapply Hsame|]. destruct start_raises; by eapply Hsame.
  - unfold pair_complete. rewrite Hc. destruct (completes pk w (Some c)) as [c'|] eqn:E; [|by eapply Hsame].
    destruct (completes_keeps _ _ _ _ E) as [Ha' _]. destruct w as [[]|]; [done|..]; eapply Hsame; try done; cbn; congruence.
  - unfold client_send. rewrite Hc, Ha. cbn. destruct (seal m s) as [[x s']|] eqn:E; [|by eapply Hsame].
    destruct (seal_keeps _ _ _ _ E). by eapply Hsame.
Qed.

(** Pins stay. *)
Lemma turn_pins cfg e k key : entry_of cfg (store k) = Some (Some key) → entry_of cfg (store (turn cfg e k)) = Some (Some key).
Proof.
  intros He. destruct e as [i f|i on|i pk w|m]; cbn [turn].
  - unfold binary. destruct (decodeEnvelope f) as [[kd p]|]; [|done]. case_decide.
    + unfold handshake. destruct (peer k) as [c|]; [|done]. destruct (envelope _ _ _ _) as [[| |r dn wp] c']; [done|done|].
      destruct dn; [|done]. unfold resolve. destruct (slot wp c') as [s|]; [|done].
      destruct (verify _ _ _ _ _ _) as [[v st] d] eqn:Ev. pose proof (verify_keeps _ _ _ _ _ _ _ _ _ _ Ev He) as He'.
      destruct v; [done| |done]. by destruct (wp && _).
    + case_decide; [|done]. unfold client_recv. repeat case_match; done.
  - unfold peer_status. repeat case_match; done.
  - unfold pair_complete. repeat case_match; done.
  - unfold client_send. repeat case_match; done.
Qed.
End kept.

(** ** The clients *)

(** What a client of an SDK with the sessions [S] promises: its turns are those of the machine. *)
Class PeerClient (S : Session) := {
  pc_shape :: SessionShape S;
  pc_dialect :: Dialect S;
  pc_laws :: DialectLaws;
  step : config S → event → client S last_type store_type → client S last_type store_type;
  step_is cfg e k : step cfg e k = turn cfg e k
}.

#[export] Instance python_client `{NoiseLib} : PeerClient python_session :=
  {| pc_dialect := python_dialect; step := py_turn; step_is := py_turn_is |}.
#[export] Instance rust_client `{NoiseLib} `{JsonLib} `{HashOrder} : PeerClient rust_session :=
  {| pc_dialect := rust_dialect; step := rust_turn; step_is := rust_turn_is |}.
#[export] Instance cplusplus_client `{Suite} `{JsonLib} `{HashOrder} : PeerClient cplusplus_session :=
  {| pc_dialect := cpp_dialect; step := cpp_turn; step_is := cpp_turn_is |}.

Section one_client.
Context {S : Session} `{P : !PeerClient S}.
Implicit Types (k : client S last_type store_type) (c : conn S last_type).

Definition run (cfg : config S) (es : list event) k : client S last_type store_type := foldl (λ k e, step cfg e k) k es.

Lemma run_pins cfg es k pk : entry_of cfg (store k) = Some (Some pk) → entry_of cfg (store (run cfg es k)) = Some (Some pk).
Proof. revert k. induction es as [|e es IH]; intros k Hk; [done|]. cbn. apply IH. rewrite step_is. by apply turn_pins. Qed.


(** *** First handshakes *)

(** A store that takes the key for the peer. *)
Definition trusts (cfg : config S) (i : input) (key : bytes) (st : store_type) : Prop :=
  entry_of cfg st = Some (Some (encodeBase64 key)) ∨ entry_of cfg st = None ∧ in_save i = Completed.

Lemma binary_handshake cfg i m k : step cfg (Binary i (handshake_frame m)) k = handshake cfg i m k.
Proof. rewrite step_is. done. Qed.

Lemma first_answer cfg i d k c s m s' : peer k = Some c → active c = None → pending c = None →
  as_responder (in_seed i) (cfg_key cfg) = Some s → handle d s = ((Some m, false), s') →
  step cfg (Binary i (handshake_frame d)) k = notes [Sent (handshake_frame m)] (with_peer (put_slot false s' c) k).
Proof.
  intros Hc Ha Hp Hs Hh. rewrite binary_handshake. unfold handshake, envelope. rewrite Hc, Ha, Hp, Hs. unfold feed. by rewrite Hh.
Qed.

(** The end of a first handshake: [r] is what the client makes of it. *)
Lemma first_end cfg i d k c s rep s' r st dk : peer k = Some c → active c = Some s → pending c = None → is_ready s = false →
  handle d s = ((rep, true), s') →
  verify failure (pin cfg i (store k) (disk k)) s' (announced_static_key c) (store k) (disk k) = (r, st, dk) →
  let k' := step cfg (Binary i (handshake_frame d)) k in
  match r with
  | Good key => k' = MkClient (Some (set_waiter false (put_slot false s' c))) st dk (out k ++ replies rep ++ tells c (Some key) ++ [OnReady])
  | Bad => k' = MkClient (Some (set_waiter false (put_slot false s' c))) st dk (out k ++ replies rep ++ tells c None)
  | Escapes => True
  end.
Proof.
  intros Hc Ha Hp Hr Hh Hv k'. unfold k'. rewrite binary_handshake. unfold handshake, envelope. rewrite Hc, Ha, Hp, Hr. cbn [negb].
  unfold feed. rewrite Hh. unfold resolve. cbn [slot put_slot active]. cbn [announced_static_key store disk notes]. rewrite Hv.
  destruct r; [done|..]; unfold with_peer, with_store, notes; cbn; by rewrite <- app_assoc.
Qed.

Lemma verify_trusts cfg i s key st d : is_ready s = true → static_key s = Some key → trusts cfg i key st →
  ∃ st' d', verify failure (pin cfg i st d) s (encodeBase64 key) st d = (Good key, st', d') ∧ entry_of cfg st' = Some (Some (encodeBase64 key)).
Proof.
  intros Hr Hk Ht. assert (∃ st' d', pin cfg i st d (encodeBase64 key) = (Accepted, st', d')) as (st' & d' & Hp).
  { destruct Ht as [He|[He Ho]]; [|by apply pin_new]. exists st, d. rewrite (pin_known _ _ _ _ _ _ He). by rewrite decide_False by tauto. }
  exists st', d'. split; [|by eapply pin_accepts]. unfold verify. rewrite (ready_unfailed _ Hr), Hk, Hp. by rewrite decide_False by tauto.
Qed.

(** A client that has accepted a code. *)
Lemma acceptor_pairs cfg i1 i2 k key s m1 m2 s' m3 : peer k = None →
  as_initiator (in_seed i1) (cfg_key cfg) = Some (s, m1) → is_ready s = false → handle m2 s = ((Some m3, true), s') →
  is_ready s' = true → static_key s' = Some key → trusts cfg i2 key (store k) →
  let k1 := step cfg (PairComplete i1 (Some (encodeBase64 key)) (Some true)) k in
  let k2 := step cfg (Binary i2 (handshake_frame m2)) k1 in
  out k1 = out k ++ [Sent (handshake_frame m1)] ∧
  out k2 = out k1 ++ [Sent (handshake_frame m3); PairResult (Some key); OnReady] ∧
  entry_of cfg (store k2) = Some (Some (encodeBase64 key)) ∧ ∃ c, peer k2 = Some c ∧ active c = Some s'.
Proof.
  intros Hp Hs Hr Hh Hr' Hk Ht k1 k2.
  assert (k1 = MkClient (Some (MkConn (encodeBase64 key) (Some s) None never true)) (store k) (disk k) (out k ++ [Sent (handshake_frame m1)])) as E1.
  { unfold k1. rewrite step_is. cbn. unfold pair_complete. rewrite Hp, completes_new, Hs. done. }
  destruct (verify_trusts cfg i2 s' key (store k) (disk k) Hr' Hk Ht) as (st' & d' & Hv & He).
  pose proof (first_end cfg i2 m2 (MkClient (Some (MkConn (encodeBase64 key) (Some s) None never true)) (store k) (disk k)
    (out k ++ [Sent (handshake_frame m1)])) _ s (Some m3) s' (Good key) st' d' eq_refl eq_refl eq_refl Hr Hh Hv) as E2.
  cbv zeta in E2. unfold k2. rewrite E1, E2. cbn. by split_and!; [..|eexists].
Qed.

(** ... and one that has asked for it. *)
Lemma requester_pairs cfg i1 i2 i3 k key s m1 m2 s1 m3 s2 : peer k = None →
  as_responder (in_seed i2) (cfg_key cfg) = Some s → handle m1 s = ((Some m2, false), s1) → is_ready s1 = false →
  handle m3 s1 = ((None, true), s2) → is_ready s2 = true → static_key s2 = Some key → trusts cfg i3 key (store k) →
  let k1 := step cfg (PairComplete i1 (Some (encodeBase64 key)) (Some false)) k in
  let k2 := step cfg (Binary i2 (handshake_frame m1)) k1 in
  let k3 := step cfg (Binary i3 (handshake_frame m3)) k2 in
  out k1 = out k ∧ out k2 = out k1 ++ [Sent (handshake_frame m2)] ∧ out k3 = out k2 ++ [PairResult (Some key); OnReady] ∧
  entry_of cfg (store k3) = Some (Some (encodeBase64 key)) ∧ ∃ c, peer k3 = Some c ∧ active c = Some s2.
Proof.
  intros Hp Hs Hh Hr Hh' Hr' Hk Ht k1 k2 k3.
  assert (k1 = MkClient (Some (MkConn (encodeBase64 key) None None never true)) (store k) (disk k) (out k)) as E1.
  { unfold k1. rewrite step_is. cbn. unfold pair_complete. by rewrite Hp, completes_new. }
  assert (k2 = MkClient (Some (MkConn (encodeBase64 key) (Some s1) None never true)) (store k) (disk k) (out k ++ [Sent (handshake_frame m2)])) as E2.
  { unfold k2. rewrite E1. by rewrite (first_answer cfg i2 m1 _ (MkConn (encodeBase64 key) None None never true) s m2 s1). }
  destruct (verify_trusts cfg i3 s2 key (store k) (disk k) Hr' Hk Ht) as (st' & d' & Hv & He).
  pose proof (first_end cfg i3 m3 (MkClient (Some (MkConn (encodeBase64 key) (Some s1) None never true)) (store k) (disk k)
    (out k ++ [Sent (handshake_frame m2)])) _ s1 None s2 (Good key) st' d' eq_refl eq_refl eq_refl Hr Hh' Hv) as E3.
  cbv zeta in E3. unfold k3. rewrite E2, E1, E3. cbn. by split_and!; [..|eexists].
Qed.

(** *** Messages *)

Lemma step_send cfg k c s m : peer k = Some c → active c = Some s →
  step cfg (Send m) k =
    match seal m s with
    | Some (x, s') => notes [Sent (transport_frame x)] (with_peer (put_slot false s' c) k)
    | None => k
    end.
Proof. intros Hc Hs. rewrite step_is. cbn. unfold client_send. by rewrite Hc, Hs. Qed.

Lemma step_recv cfg i k c s m x s' : peer k = Some c → active c = Some s → unseal x s = Some (m, s') → in_room i = true →
  step cfg (Binary i (transport_frame x)) k = notes [Received m] (with_peer (put_slot false s' c) k).
Proof. intros Hc Hs Hx Hi. rewrite step_is. cbn. unfold binary, client_recv. cbn. by rewrite Hc, Hs, Hi, takes_room; cbn; rewrite Hx. Qed.
End one_client.

(** ** Two clients *)

(** The frame that a call has sent. *)
Definition new_frame (before after : list note) : option bytes :=
  match drop (length before) after with [Sent f] => Some f | _ => None end.

(** What a client has handed out. *)
Definition heard (l : list note) : list bytes := omap (λ n, match n with Received m => Some m | _ => None end) l.

Local Abbreviation state S P := (client S (@last_type S (@pc_dialect S P)) (@store_type S (@pc_dialect S P))).

Section says.
Context `{NoiseLaws} {A B : Session} `{!SessionLaws A, !SessionLaws B} `{P : !PeerClient A, Q : !PeerClient B}.

(** A client sends, and the relay passes the frame on; [None] if the client refuses to send. *)
Definition says (cfg : config A) (cfg' : config B) (i : input) (m : bytes) (k : state A P) (k' : state B Q) : option (state A P * state B Q) :=
  let k1 := step cfg (Send m) k in
  f ← new_frame (out k) (out k1); Some (k1, step cfg' (Binary i f) k').

(** Clients whose sessions belong together. *)
Definition joined (k : state A P) (k' : state B Q) : Prop :=
  ∃ c s c' s', peer k = Some c ∧ active c = Some s ∧ peer k' = Some c' ∧ active c' = Some s' ∧ linked A B s s'.

Lemma says_heard cfg cfg' i m k k' r : joined k k' → in_room i = true → says cfg cfg' i m k k' = Some r →
  joined r.1 r.2 ∧ heard (out r.1) = heard (out k) ∧ heard (out r.2) = heard (out k') ++ [m].
Proof.
  intros (c & s & c' & s' & Hc & Hs & Hc' & Hs' & Hl) Hi. unfold says. rewrite (step_send _ _ _ _ _ Hc Hs).
  destruct (seal m s) as [[x s1]|] eqn:E; [|by unfold new_frame; rewrite drop_all]. cbn [notes with_peer out].
  unfold new_frame. rewrite drop_app_length. cbn. destruct (linked_says _ _ _ _ _ _ _ Hl E) as (s2 & Hx & Hl').
  rewrite (step_recv cfg' i k' c' s' m x s2 Hc' Hs' Hx Hi). intros [= <-]. cbn. unfold heard. rewrite !omap_app. cbn.
  rewrite app_nil_r. split_and!; [|done..]. by eexists _, s1, _, s2.
Qed.
End says.

Lemma joined_sym `{NoiseLaws} {A B : Session} `{!SessionLaws A, !SessionLaws B} `{P : !PeerClient A, Q : !PeerClient B}
    (k : state A P) (k' : state B Q) : joined k k' → joined k' k.
Proof. intros (c & s & c' & s' & ? & ? & ? & ? & Hl%linked_sym). by exists c', s', c, s. Qed.

Section pair.
Context `{NoiseLaws} (A B : Session) `{!SessionLaws A, !SessionLaws B} `{P : !PeerClient A, Q : !PeerClient B}.

(** A conversation: who speaks ([true]: the first), what, and the input of the turn that hears it. *)
Fixpoint converse (cfg : config A) (cfg' : config B) (l : list (bool * bytes * input)) (k : state A P) (k' : state B Q)
    : option (state A P * state B Q) :=
  match l with
  | [] => Some (k, k')
  | (true, m, i) :: l => '(k, k') ← says cfg cfg' i m k k'; converse cfg cfg' l k k'
  | (false, m, i) :: l => '(k', k) ← says cfg' cfg i m k' k; converse cfg cfg' l k k'
  end.

(** What one side says. *)
Definition said (who : bool) (l : list (bool * bytes * input)) : list bytes :=
  omap (λ x, if Bool.eqb x.1.1 who then Some x.1.2 else None) l.

Lemma clients_converse cfg cfg' l k k' r : joined k k' → Forall (λ x, in_room x.2 = true) l → converse cfg cfg' l k k' = Some r →
  heard (out r.2) = heard (out k') ++ said true l ∧ heard (out r.1) = heard (out k) ++ said false l.
Proof.
  revert k k'. induction l as [|[[w m] i] l IH]; intros k k' Hj Hl; cbn [converse].
  { intros [= <-]. by rewrite !app_nil_r. }
  apply Forall_cons in Hl as [Hi Hl]. destruct w.
  - destruct (says cfg cfg' i m k k') as [[k1 k2]|] eqn:E; cbn [mbind option_bind]; [|done].
    destruct (says_heard _ _ _ _ _ _ _ Hj Hi E) as (Hj' & E1 & E2). cbn [fst snd] in *. intros Hr.
    destruct (IH _ _ Hj' Hl Hr) as [-> ->]. rewrite E1, E2, <- app_assoc. done.
  - destruct (says cfg' cfg i m k' k) as [[k2 k1]|] eqn:E; cbn [mbind option_bind]; [|done].
    destruct (says_heard _ _ _ _ _ _ _ (joined_sym _ _ Hj) Hi E) as (Hj' & E1 & E2). cbn [fst snd] in *. intros Hr.
    destruct (IH _ _ (joined_sym _ _ Hj') Hl Hr) as [-> ->]. rewrite E1, E2, <- app_assoc. done.
Qed.

Lemma active_usable {S : Session} {T D} (k : client S T D) c s key : peer k = Some c → active c = Some s → is_ready s = true →
  static_key s = Some key → usable k = Some key.
Proof. intros Hc Hs Hr Hk. unfold usable. rewrite Hc. cbn. rewrite Hs. cbn. by rewrite Hr. Qed.


(** C39: A key refused in the first handshake of a process is used.  A client of any of the three
    SDKs has pinned a key for its peer, and holds no session yet; somebody else with another
    key runs the handshake with it.  The pin stays and the user is told of an error, but the
    session remains in place: whatever the client sends next is encrypted for the other key,
    and its holder reads it. *)
Theorem clients_use_refused_key seed a cfg j1 j2 k c si m1 sr m2 dr sr1 m3 di si1 pinned :
  peer k = Some c → active c = None → pending c = None →
  @as_initiator A seed a = Some (si, m1) → @as_responder B (in_seed j1) (cfg_key cfg) = Some sr →
  @handle B m1 sr = ((Some m2, dr), sr1) → @handle A m2 si = ((Some m3, di), si1) →
  let key := ScalarBaseMult (private_of a) in
  entry_of cfg (store k) = Some (Some pinned) → pinned ≠ encodeBase64 key →
  let k1 : state B Q := step cfg (Binary j1 (handshake_frame m1)) k in
  let k2 := step cfg (Binary j2 (handshake_frame m3)) k1 in
  out k1 = out k ++ [Sent (handshake_frame m2)] ∧ out k2 = out k1 ++ tells c None ∧
  entry_of cfg (store k2) = Some (Some pinned) ∧ usable k2 = Some key ∧
  ∀ m f, new_frame (out k2) (out (step cfg (Send m) k2)) = Some f →
    ∃ x si2, f = transport_frame x ∧ @unseal A x si1 = Some (m, si2).
Proof.
  intros Hc Ha Hp Hi Hr E1 E2 key He Hne.
  destruct (sessions_meet A B _ _ _ _ _ _ _ _ _ _ _ _ _ Hi Hr E1 E2) as (sr2 & -> & -> & E3 & R0 & R1 & R2 & R3 & R4 & K1 & K2 & Hl).
  intros k1 k2. assert (k1 = notes [Sent (handshake_frame m2)] (with_peer (put_slot false sr1 c) k)) as F1 by (by eapply first_answer).
  assert (verify failure (pin cfg j2 (store k) (disk k)) sr2 (announced_static_key c) (store k) (disk k) = (Bad, store k, disk k)) as Hv.
  { unfold verify. rewrite (ready_unfailed _ R4), K2. rewrite (pin_known _ _ _ _ _ _ He). by rewrite decide_True. }
  pose proof (first_end cfg j2 m3 (notes [Sent (handshake_frame m2)] (with_peer (put_slot false sr1 c) k)) _ sr1 None sr2 Bad (store k) (disk k)
    eq_refl eq_refl Hp R1 E3 Hv) as F2. cbv zeta in F2. rewrite <- F1 in F2. fold k2 in F2.
  assert (∃ c2, peer k2 = Some c2 ∧ active c2 = Some sr2) as (c2 & C2 & A2) by (rewrite F2; by eexists).
  split_and!; [by rewrite F1|rewrite F2, F1; done|by rewrite F2|by eapply active_usable|].
  intros m f. rewrite (step_send _ _ _ _ _ C2 A2). destruct (@seal B m sr2) as [[x s]|] eqn:E; [|by unfold new_frame; rewrite drop_all].
  cbn [notes with_peer out]. unfold new_frame. rewrite drop_app_length. intros [= <-].
  destruct (linked_says _ _ _ _ _ _ _ (linked_sym _ _ _ _ Hl) E) as (si2 & Hx & _). by exists x, si2.
Qed.
End pair.

(** ** Examples *)

Import ToySuite.

#[local] Existing Instance Ts.ts_lib.
#[local] Existing Instance Ts.ts_laws.

Definition ex_input (c : ascii) : input := MkInput (ex_private c) 0 "2025-01-01T00:00:00Z" Completed true.
Definition ex_py_config : config python_session := @MkConfig python_session "alice" "bob" (ex_private "a") "alice.json".
Definition ex_cpp_config : config cplusplus_session := @MkConfig cplusplus_session "bob" "alice" (ex_pair "b") "bob.json".
Definition ex_py : client python_session Z doc := MkClient None [] ∅ [].
Definition ex_cpp : client cplusplus_session (option Z) (gmap string pinnedPeer) := MkClient None ∅ ∅ [].


(** The C++ client has pinned another key for its peer. *)
Lemma clients_use_refused_key_witness : ∃ k2 : client cplusplus_session (option Z) (gmap string pinnedPeer),
  usable k2 = Some (ScalarBaseMult (ex_private "a")) ∧ @entry_of _ cpp_dialect ex_cpp_config (store k2) = Some (Some "a2V5").
Proof.
  destruct (meets_inv _ _ _ _ _ _ ex_meets) as (si & m1 & sr & m2 & dr & sr1 & m3 & di & si1 & E0 & E1 & E2 & E3).
  destruct (clients_use_refused_key python_session cplusplus_session (Q := cplusplus_client) (ex_private "x") (ex_private "a") ex_cpp_config
    (ex_input "y") (ex_input "y") (MkClient (Some (cpp_PeerConn "")) {["alice" := PinnedPeer "a2V5" ""]} ∅ []) (cpp_PeerConn "")
    si m1 sr m2 dr sr1 m3 di si1 "a2V5" eq_refl eq_refl eq_refl E0 E1 E2 E3 ltac:(by unfold entry_of; cbn; unfold map_entry; rewrite lookup_singleton_eq)
    ltac:(vm_compute; discriminate)) as (_ & _ & P1 & U1 & _).
  eexists. exact (conj U1 P1).
Defined.

(** A Python client with a session survives a forged handshake, a transport frame that does not
    decrypt, and its peer coming online. *)
Local Abbreviation toy_session := (@python_session ToyNoise.toy_lib).
Definition ex_ready : client toy_session Z doc :=
  MkClient (Some (@MkConn toy_session Z ""
    (Some (@MkPySession ToyNoise.toy_lib true READY (ToyNoise.Toy true "a" "b" 3) (Some (0, 0)) (Some "b"))) None 0%Z false)) [] ∅ [].

