(* ===== verification/Harness.v ===== *)
(** * The interoperability harness: driving shims (src/interop/harness/instance.go,
      server.go)

    The harness starts SDK shims as processes, writes commands to them and waits for the
    events they print.  What it works on (processes, files, the relay's REST interface,
    the proxy) is the class [Driver], over a type [W] of states; a harness function is a
    computation of the monad [H] over that state and the harness's own memory.  [heard]
    records, for the statements below, the events waits have returned. *)

From S2P Require Import Prelude Keys Json AnyJson Wire.

(** ** What the harness works on *)

Class Driver (W : Type) := {
  (** [exec.Command(...).Start] with both pipes; the process, or [None]. *)
  d_start : string → list string → W → option nat * W;
  d_stdin : nat → bytes → W → bool * W;
  (** The lines a process prints before a timeout, and whether its output then ends. *)
  d_lines : nat → Z → W → list bytes * bool;
  (** ... of which the first ones are consumed. *)
  d_take : nat → nat → W → W;
  (** [Wait] in the background returns within the time. *)
  d_exits : nat → Z → W → bool;
  d_kill : nat → W → W;
  d_reap : nat → W → W;
  (** [http.Post]: status and body. *)
  d_post : string → string → bytes → W → option (Z * bytes) * W;
  d_read : string → W → option bytes;
  d_write : string → bytes → W → bool * W;
  d_mkdirTemp : string → string → W → option string * W;
  d_rewrite : string → string → W → W;
  d_sever : string → W → W
}.

(** An error, with the contexts it was wrapped in. *)
Inductive herr := Failed (what : string) | Because (what : string) (e : herr).

Abbreviation Event := anymap.

Definition Type_ (e : Event) : string := get_str "event" e.
Definition Str (e : Event) (key : string) : string := get_str key e.
Definition Bool (e : Event) (key : string) : bool := get_bool key e.

Record SDKDef := MkSDKDef { sdk_Name : string; Command : string; Args : list string }.

Record Instance_ := MkInstance { inst_Name : string; cmd : nat }.

Section harness.
Context {W : Type} {D : Driver W}.

Record hstate := HState {
  hw : W;
  backlogs : gmap nat (list Event);
  heard : list (nat * Event)
}.

Definition H A := hstate → (herr + A) * hstate.

#[global] Instance H_ret : MRet H := λ A x s, (inr x, s).
#[global] Instance H_bind : MBind H := λ A B f m s,
  match m s with (inl e, s) => (inl e, s) | (inr x, s) => f x s end.

Definition fail {A} (e : herr) : H A := λ s, (inl e, s).

(** [if err != nil { return fmt.Errorf("...: %w", err) }]. *)
Definition wrap {A} (what : string) (m : H A) : H A := λ s,
  match m s with (inl e, s) => (inl (Because what e), s) | r => r end.

(** [if cond { return fmt.Errorf(...) }]. *)
Definition refuse (cond : bool) (what : string) : H unit :=
  if cond then fail (Failed what) else mret tt.

(** [defer]: whatever the body's outcome. *)
Definition deferring {A} (cleanup : hstate → hstate) (body : H A) : H A := λ s,
  let '(r, s) := body s in (r, cleanup s).

Definition lift {A} (f : W → A * W) : H A := λ s,
  let '(x, w) := f (hw s) in (inr x, HState w (backlogs s) (heard s)).

Definition on_world (f : W → W) (s : hstate) : hstate := HState (f (hw s)) (backlogs s) (heard s).

Definition backlog (h : nat) (s : hstate) : list Event := default [] (backlogs s !! h).

Definition set_backlog (h : nat) (l : list Event) (s : hstate) : hstate :=
  HState (hw s) (<[h := l]> (backlogs s)) (heard s).

Definition hear (h : nat) (e : Event) (s : hstate) : hstate :=
  HState (hw s) (backlogs s) (heard s ++ [(h, e)]).

(** *** Events *)

Definition maxLine : Z := 4 * 1024 * 1024.

(** [readLoop]: the events of the printed lines; a line that is not an object is skipped,
    one that does not fit the scanner's buffer ends the stream. *)
Fixpoint readLoop (lines : list bytes) (ends : bool) : list (option Event) * bool :=
  match lines with
  | [] => ([], ends)
  | l :: ls =>
      if decide (Z.of_nat (slen l) < maxLine)%Z then
        let '(evs, b) := readLoop ls ends in (UnmarshalMap l :: evs, b)
      else ([], true)
  end.

(** The loop of [WaitFor] over what arrives in time: the matching event, how many lines
    were read, and the events to keep. *)
Fixpoint await (pred : Event → bool) (evs : list (option Event)) : option Event * nat * list Event :=
  match evs with
  | [] => (None, 0, [])
  | None :: evs => let '(r, n, keep) := await pred evs in (r, S n, keep)
  | Some ev :: evs =>
      if pred ev then (Some ev, 1, [])
      else let '(r, n, keep) := await pred evs in (r, S n, ev :: keep)
  end.

(** The position of the first match in the backlog. *)
Fixpoint find_event (pred : Event → bool) (l : list Event) : option (nat * Event) :=
  match l with
  | [] => None
  | ev :: l => if pred ev then Some (0, ev) else prod_map S id <$> find_event pred l
  end.

Definition WaitFor (i : Instance_) (timeout : Z) (pred : Event → bool) : H Event := λ s,
  let h := cmd i in
  let log := backlog h s in
  match find_event pred log with
  | Some (idx, ev) => (inr ev, hear h ev (set_backlog h (take idx log ++ drop (S idx) log) s))
  | None =>
      if decide (timeout ≤ 0)%Z then (inl (Failed "timed out waiting for event"), s)
      else
        let '(lines, ends) := d_lines h timeout (hw s) in
        let '(evs, closed) := readLoop lines ends in
        let '(r, n, keep) := await pred evs in
        let s := set_backlog h (log ++ keep) (on_world (d_take h n) s) in
        match r with
        | Some ev => (inr ev, hear h ev s)
        | None =>
            (inl (Failed (if closed then "event stream closed before matching event"
                          else "timed out waiting for event")), s)
        end
  end.

(** *** Commands *)

Definition Send_ (i : Instance_) (c : list (string * json)) : H unit :=
  ok ← lift (d_stdin (cmd i) (MarshalMap (anymap_of c) +:+ String newline ""));
  if ok : bool then mret tt else fail (Failed "write").

Definition Close (i : Instance_) (s : hstate) : hstate :=
  let s := (Send_ i [("cmd", JStr "close")] s).2 in
  let h := cmd i in
  if d_exits h (3 * Second) (hw s) then on_world (d_reap h) s
  else on_world (d_reap h ∘ d_kill h) s.

Definition event_is (t : string) (e : Event) : bool := bool_decide (Type_ e = t).

(** The end of [StartInstance]: the process is killed unless it reports [ready]. *)
Definition await_ready (inst : Instance_) : H Instance_ := λ s,
  let kill s := on_world (d_kill (cmd inst)) s in
  match WaitFor inst (15 * Second) (λ e, event_is "ready" e || event_is "connect_error" e) s with
  | (inl e, s) => (inl (Because (inst_Name inst) e), kill s)
  | (inr ev, s) =>
      if event_is "connect_error" ev
      then (inl (Because (inst_Name inst) (Because "connect_error" (Failed (Str ev "message")))), kill s)
      else (inr inst, s)
  end.

Definition StartInstance (def : SDKDef) (serverURL deviceID deviceToken peerStorePath : string)
    : H Instance_ :=
  let args := Args def ++ ["--server"; serverURL; "--device-id"; deviceID; "--device-token"; deviceToken]
              ++ (if decide (peerStorePath ≠ "") then ["--peer-store-path"; peerStorePath] else []) in
  p ← lift (d_start (Command def) args);
  match p with
  | None => fail (Because (sdk_Name def) (Failed "start"))
  | Some h => await_ready (MkInstance (sdk_Name def) h)
  end.

(** *** Devices (server.go) *)

Record deviceCreds := MkCreds { cr_DeviceID : string; cr_DeviceToken : string }.

(** [%q] of an ASCII string. *)
Definition quote_char (c : ascii) : list ascii :=
  let esc x := [backslash; x] in
  let hex := let n := byte_val c in
             [backslash; "x"%char; hex_digit (n / 16)%Z; hex_digit (n mod 16)%Z] in
  match c with
  | "034" => esc quote
  | "092" => esc backslash
  | "007" => esc "a" | "008" => esc "b" | "012" => esc "f" | "010" => esc "n"
  | "013" => esc "r" | "009" => esc "t" | "011" => esc "v"
  | _ => if decide (byte_val c < 32 ∨ byte_val c = 127)%Z then hex else [c]
  end%char.

Definition quote_go (s : string) : string :=
  of_chars (quote :: mjoin (quote_char <$> chars s) ++ [quote]).

Definition creds_tags : list (string * bool) := [("device_id", false); ("device_token", true)].

Definition creds_field (c : deviceCreds) (kv : string * json) : option deviceCreds :=
  match find_field creds_tags kv.1 with
  | None => Some c
  | Some false => s ← dec_string (cr_DeviceID c) kv.2; Some (MkCreds s (cr_DeviceToken c))
  | Some true => s ← dec_string (cr_DeviceToken c) kv.2; Some (MkCreds (cr_DeviceID c) s)
  end.

Definition decode_creds (j : json) : option deviceCreds :=
  match j with
  | JNull => Some (MkCreds "" "")
  | JObj l => fold_fields creds_field (MkCreds "" "") l
  | _ => None
  end.

(** [json.NewDecoder(body).Decode]: the first value of the body. *)
Definition first_value (body : bytes) : option json :=
  let l := chars body in fst <$> parse_value (S (length l)) 0 l.

Definition name_body (name : string) : bytes :=
  of_chars (chars "{" ++ quote :: chars "name" ++ quote :: chars ":" ++ chars (quote_go name) ++ chars "}").

Definition registerDevice (baseURL name : string) : H deviceCreds :=
  r ← lift (d_post (baseURL +:+ "/api/v1/devices") "application/json" (name_body name));
  match r with
  | None => fail (Failed "post")
  | Some (status, body) =>
      if decide (status ≠ 200)%Z then fail (Failed ("registering device " +:+ name))
      else match first_value body ≫= decode_creds with
           | None => fail (Failed "decode")
           | Some creds => mret creds
           end
  end.
End harness.

(** ** Properties *)

(** What the operating system promises about the output of a process: reading consumes
    lines in order (more may have arrived meanwhile) and does not concern other
    processes. *)
Class DriverLaws (W : Type) {D : Driver W} := {
  d_take_lines h n t w :
    drop n (d_lines h t w).1 `prefix_of` (d_lines h t (d_take h n w)).1;
  d_take_other h h' n t w : h' ≠ h → d_lines h' t (d_take h n w) = d_lines h' t w
}.

(** The first element with a property, and the others. *)
Fixpoint first_match {A} (pred : A → bool) (l : list A) : option (A * list A) :=
  match l with
  | [] => None
  | x :: l => if pred x then Some (x, l) else prod_map id (cons x) <$> first_match pred l
  end.

Lemma first_match_app {A} (pred : A → bool) l1 l2 :
  first_match pred (l1 ++ l2) =
  match first_match pred l1 with
  | Some (x, l) => Some (x, l ++ l2)
  | None => prod_map id (app l1) <$> first_match pred l2
  end.
Proof.
  induction l1 as [|x l1 IH]; cbn [app first_match].
  { by destruct (first_match pred l2) as [[y l]|]. }
  destruct (pred x); [done|]. rewrite IH.
  destruct (first_match pred l1) as [[y l]|]; [done|]. by destruct (first_match pred l2) as [[y l]|].
Qed.

Lemma find_event_first pred l :
  match find_event pred l with
  | Some (idx, ev) => first_match pred l = Some (ev, take idx l ++ drop (S idx) l)
  | None => first_match pred l = None
  end.
Proof.
  induction l as [|x l IH]; cbn [find_event first_match]; [done|].
  destruct (pred x); [done|]. destruct (find_event pred l) as [[idx ev]|]; cbn; by rewrite IH.
Qed.

Lemma await_first pred evs :
  let '(r, n, keep) := await pred evs in
  n ≤ length evs ∧
  match r with
  | Some ev => first_match pred (omap id evs) = Some (ev, keep ++ omap id (drop n evs))
  | None => first_match pred (omap id evs) = None ∧ keep = omap id evs ∧ n = length evs
  end.
Proof.
  induction evs as [|[ev|] evs IH]; cbn [await]; [done|..].
  - destruct (pred ev) eqn:E.
    { cbn. rewrite E. split; [lia|done]. }
    destruct (await pred evs) as [[[r|] n] keep]; cbn; rewrite E; destruct IH as [Hn IH].
    + rewrite IH. split; [lia|done].
    + destruct IH as (-> & -> & ->). split_and!; [lia|done..].
  - destruct (await pred evs) as [[[r|] n] keep]; cbn; destruct IH as [Hn IH].
    + split; [lia|done].
    + destruct IH as (-> & -> & ->). split_and!; [lia|done..].
Qed.

Lemma readLoop_drop n lines ends :
  n ≤ length (readLoop lines ends).1 →
  (readLoop (drop n lines) ends).1 = drop n (readLoop lines ends).1.
Proof.
  revert n. induction lines as [|l ls IH]; intros [|n] Hn; [done|by simpl in Hn; lia|done|].
  cbn [drop readLoop] in *. case_decide; [|simpl in Hn; lia].
  destruct (readLoop ls ends) as [evs b] eqn:E. cbn in *. apply IH. lia.
Qed.

Lemma readLoop_prefix l1 l2 b1 b2 :
  l1 `prefix_of` l2 → (readLoop l1 b1).1 `prefix_of` (readLoop l2 b2).1.
Proof.
  intros [l ->]. induction l1 as [|x l1 IH]; [apply prefix_nil|]. cbn [app readLoop].
  case_decide; [|done]. destruct (readLoop l1 b1), (readLoop (l1 ++ l) b2). cbn in *.
  by apply prefix_cons.
Qed.

Lemma omap_prefix {A B} (f : A → option B) l1 l2 : l1 `prefix_of` l2 → omap f l1 `prefix_of` omap f l2.
Proof. intros [l ->]. rewrite omap_app. by apply prefix_app_r. Qed.

Section waiting.
Context {W : Type} {D : Driver W} {L : DriverLaws W}.

(** The events of an instance no wait has returned: those set aside, then those that
    arrive in time. *)
Definition unread (i : Instance_) (t : Z) (s : hstate) : list Event :=
  backlog (cmd i) s ++
  omap id (let '(lines, ends) := d_lines (cmd i) t (hw s) in (readLoop lines ends).1).

Lemma unread_taken i t n s :
  let evs := let '(lines, ends) := d_lines (cmd i) t (hw s) in (readLoop lines ends).1 in
  n ≤ length evs →
  omap id (drop n evs) `prefix_of`
  omap id (let '(lines, ends) := d_lines (cmd i) t (d_take (cmd i) n (hw s)) in (readLoop lines ends).1).
Proof.
  intros evs Hn. pose proof (d_take_lines (cmd i) n t (hw s)) as Hp. unfold evs in *.
  destruct (d_lines (cmd i) t (hw s)) as [ls e], (d_lines (cmd i) t (d_take _ n (hw s))) as [ls' e'].
  cbn in Hp. rewrite <- readLoop_drop by done. by apply omap_prefix, readLoop_prefix.
Qed.

(** Waiting is the search for the first match.  [WaitFor], with its backlog and its
    stream, returns exactly the first unread event that matches, and fails exactly if
    none does; every other event stays unread in its order (what has arrived meanwhile
    comes after it), so waits for different events can be made in any order without
    losing any; other instances are not affected. *)
Theorem WaitFor_first_match i t pred s :
  (0 < t)%Z →
  let '(r, s') := WaitFor i t pred s in
  match r with
  | inr ev => ∃ rest, first_match pred (unread i t s) = Some (ev, rest) ∧
                rest `prefix_of` unread i t s'
  | inl _ => first_match pred (unread i t s) = None ∧ unread i t s `prefix_of` unread i t s'
  end ∧
  ∀ i' t', cmd i' ≠ cmd i → unread i' t' s' = unread i' t' s.
Proof.
  intros Ht. unfold WaitFor. set (h := cmd i). pose proof (find_event_first pred (backlog h s)) as Hf.
  destruct (find_event pred (backlog h s)) as [[idx ev]|].
  - split.
    + eexists. unfold unread at 1. fold h. rewrite first_match_app, Hf. split; [done|].
      unfold unread, backlog, hear, set_backlog. fold h. cbn. by rewrite lookup_insert_eq.
    + intros i' t' Hi. unfold unread, backlog. cbn. by rewrite lookup_insert_ne.
  - rewrite decide_False by lia.
    pose proof (unread_taken i t) as Hu. fold h in Hu. unfold unread. fold h.
    destruct (d_lines h t (hw s)) as [lines ends] eqn:El.
    pose proof (await_first pred (readLoop lines ends).1) as Ha.
    destruct (readLoop lines ends) as [evs closed] eqn:Er. cbn [fst] in Ha |- *.
    destruct (await pred evs) as [[r n] keep]. destruct Ha as [Hn Ha].
    specialize (Hu n s). rewrite El, Er in Hu. cbn [fst] in Hu. specialize (Hu Hn).
    assert (∀ s'' : hstate, hw s'' = d_take h n (hw s) → backlogs s'' = <[h := backlog h s ++ keep]> (backlogs s) →
      backlog h s ++ keep ++ omap id (drop n evs) `prefix_of` backlog h s'' ++
        omap id (let '(lines, ends) := d_lines h t (hw s'') in (readLoop lines ends).1)) as Hall.
    { intros s'' -> Eb. unfold backlog at 2. rewrite Eb, lookup_insert_eq. cbn [default].
      rewrite app_assoc. by apply prefix_app. }
    assert (∀ s'' : hstate, hw s'' = d_take h n (hw s) → backlogs s'' = <[h := backlog h s ++ keep]> (backlogs s) →
      ∀ i' t', cmd i' ≠ h → unread i' t' s'' = unread i' t' s) as Hother.
    { intros s'' Ew Eb i' t' Hi. unfold unread, backlog. rewrite Ew, Eb, lookup_insert_ne by done.
      by rewrite d_take_other. }
    destruct r as [ev|]; (split; [|by apply Hother]).
    + eexists. rewrite first_match_app, Hf, Ha. split; [done|]. by apply Hall.
    + destruct Ha as (Ha & -> & ->). rewrite first_match_app, Hf, Ha. split; [done|].
      etrans; [|by apply Hall]. by rewrite drop_all, app_nil_r.
Qed.
End waiting.

(** ** A driver that follows a script

    Processes print the lines they are given, the relay answers with the bodies it is
    given; used to show that what is assumed of drivers can hold. *)

Record script := Script {
  next : nat;
  out : nat → list bytes;
  alive : gset nat;
  replies : list bytes;
  disk_files : gmap string bytes
}.

#[export] Instance script_driver : Driver script := {
  d_start c args w :=
    (Some (next w), Script (S (next w)) (out w) ({[next w]} ∪ alive w) (replies w) (disk_files w));
  d_stdin h b w := (true, w);
  d_lines h t w := (out w h, false);
  d_take h n w := Script (next w) (λ x, if decide (x = h) then drop n (out w x) else out w x) (alive w) (replies w) (disk_files w);
  d_exits h t w := false;
  d_kill h w := Script (next w) (out w) (alive w ∖ {[h]}) (replies w) (disk_files w);
  d_reap h w := w;
  d_post u c b w :=
    match replies w with
    | [] => (None, w)
    | r :: rs => (Some (200%Z, r), Script (next w) (out w) (alive w) rs (disk_files w))
    end;
  d_read p w := disk_files w !! p;
  d_write p b w := (true, Script (next w) (out w) (alive w) (replies w) (<[p := b]> (disk_files w)));
  d_mkdirTemp d p w := (Some (d +:+ "/" +:+ p), w);
  d_rewrite i k w := w;
  d_sever i w := w
}.

#[export] Instance script_laws : DriverLaws script.
Proof.
  split; cbn.
  - intros h n t w. by rewrite decide_True.
  - intros h h' n t w Hh. by rewrite decide_False.
Qed.

(** A line a shim prints. *)
Definition line (l : list (string * json)) : bytes := MarshalMap (anymap_of l).

Definition ex_script : script :=
  Script 1 (λ _, [line [("event", JStr "ready")]; line [("event", JStr "sent")];
                  line [("event", JStr "pair_code"); ("code", JStr "123456")]]) ∅ [] ∅.

Lemma WaitFor_first_match_witness :
  let i := MkInstance "go" 0 in
  let s := HState ex_script ∅ [] in
  let '(r, s') := WaitFor i (15 * Second) (event_is "pair_code") s in
  (0 < 15 * Second)%Z ∧ r = inr (anymap_of [("event", JStr "pair_code"); ("code", JStr "123456")]) ∧
  Type_ <$> unread i (15 * Second) s' = ["ready"; "sent"] ∧
  ∃ rest, first_match (event_is "pair_code") (unread i (15 * Second) s) =
            Some (anymap_of [("event", JStr "pair_code"); ("code", JStr "123456")], rest) ∧
    rest `prefix_of` unread i (15 * Second) s'.
Proof.
  intros i s. assert (0 < 15 * Second)%Z as Ht by done.
  pose proof (WaitFor_first_match i (15 * Second) (event_is "pair_code") s Ht) as Hw.
  assert (WaitFor i (15 * Second) (event_is "pair_code") s =
    (inr (anymap_of [("event", JStr "pair_code"); ("code", JStr "123456")]),
     (WaitFor i (15 * Second) (event_is "pair_code") s).2)) as E by (vm_compute; reflexivity).
  assert (Type_ <$> unread i (15 * Second) (WaitFor i (15 * Second) (event_is "pair_code") s).2 =
    ["ready"; "sent"]) as Hu by (vm_compute; reflexivity).
  rewrite E in Hw |- *. destruct Hw as [Hw _]. split_and!; [exact Ht|reflexivity|exact Hu|exact Hw].
Defined.
