(* ===== verification/Examples.v ===== *)
(** * The example programs (src/examples/go)

    The device registration the examples share (device.go, the same file in each), the
    configuration of the basic one, and the loops each program runs once it is paired. *)

From S2P Require Import Prelude Json Wire Keys Url PeerStore PeerFile Harness.

(** ** Registering once (device.go) *)

Definition devicesEndpoint (serverURL : string) : option string :=
  u ← ParseURL serverURL;
  let u := if decide (Scheme u = chars "ws") then with_scheme "http" u
           else if decide (Scheme u = chars "wss") then with_scheme "https" u else u in
  let u := with_path "/api/v1/devices" u in
  Some (URL_String (MkURL (Scheme u) (Opaque u) (User u) (Host u) (Path u) (RawPath u) (OmitHost u)
                      (ForceQuery u) [] (Fragment u) (RawFragment u))).

Inductive regerr := ErrServerURL | ErrPost | ErrStatus (code : Z) | ErrResponse | ErrCredsDir | ErrCredsFile.

(** The credentials file's text and what is read from it. *)
Definition creds_text (c : deviceCreds) : bytes :=
  of_chars (jindent 0 (JObj [("device_id", JStr (cr_DeviceID c)); ("device_token", JStr (cr_DeviceToken c))])).

Definition saved_creds (data : bytes) : option deviceCreds :=
  c ← Parse data ≫= decode_creds;
  if decide (cr_DeviceID c ≠ "" ∧ cr_DeviceToken c ≠ "") then Some c else None.

Definition name_json (name : string) : bytes := of_chars (jprint (JObj [("name", JStr name)])).

Section device.
Context (home : option string).

(** [answer] is the server's answer to the request, if there is one. *)
Definition registerOrLoadDevice (answer : string → bytes → option (Z * bytes))
    (serverURL credsPath name : string) (d : disk) : (regerr + string * string) * disk :=
  let path := expandHome home credsPath in
  match (match ReadFile path d with inr data => saved_creds data | inl _ => None end) with
  | Some c => (inr (cr_DeviceID c, cr_DeviceToken c), d)
  | None =>
      match devicesEndpoint serverURL with
      | None => (inl ErrServerURL, d)
      | Some apiURL =>
          match answer apiURL (name_json name) with
          | None => (inl ErrPost, d)
          | Some (status, body) =>
              if decide (status ≠ 200)%Z then (inl (ErrStatus status), d)
              else match first_value body ≫= decode_creds with
                   | None => (inl ErrResponse, d)
                   | Some c =>
                       if decide (Dir path ∈ failing d) then (inl ErrCredsDir, d)
                       else match WriteFile path (creds_text c) d with
                            | (Some _, d) => (inl ErrCredsFile, d)
                            | (None, d) => (inr (cr_DeviceID c, cr_DeviceToken c), d)
                            end
                   end
          end
      end
  end.

Lemma creds_read_back c :
  cr_DeviceID c ≠ "" → cr_DeviceToken c ≠ "" → valid_utf8 (cr_DeviceID c) → valid_utf8 (cr_DeviceToken c) →
  saved_creds (creds_text c) = Some c.
Proof.
  intros H1 H2 V1 V2. unfold saved_creds, creds_text. rewrite Parse_jindent by (vm_compute; done).
  cbn [jsan fmap list_fmap fst snd]. rewrite (sanitize_valid _ V1), (sanitize_valid _ V2).
  destruct c as [id tok]. cbn [cr_DeviceID cr_DeviceToken] in *.
  change (Some (JObj [(sanitize "device_id", JStr id); (sanitize "device_token", JStr tok)]) ≫= decode_creds)
    with (Some (MkCreds id tok)). cbn [mbind option_bind]. by rewrite decide_True.
Qed.

(** A device registers once.  Whenever [registerOrLoadDevice] returns an ID and a token
    (neither empty, as the server issues them), every later call with the same path returns
    the same two and leaves the disk alone, whatever server it is given and whatever that
    server would answer; no other file is ever touched. *)
Theorem registration_stable answer answer' url url' path name name' d id token :
  let '(r, d') := registerOrLoadDevice answer url path name d in
  (r = inr (id, token) → id ≠ "" → token ≠ "" → valid_utf8 id → valid_utf8 token →
   registerOrLoadDevice answer' url' path name' d' = (inr (id, token), d')) ∧
  failing d' = failing d ∧
  ∀ p, p ≠ expandHome home path → files d' !! p = files d !! p.
Proof.
  destruct (registerOrLoadDevice answer url path name d) as [r d'] eqn:E. revert E.
  unfold registerOrLoadDevice at 1. set (p := expandHome home path).
  destruct (match ReadFile p d with inr data => saved_creds data | inl _ => None end) as [c|] eqn:El.
  { intros [= <- <-]. split; [|done]. intros [= <- <-] _ _ _ _. unfold registerOrLoadDevice. fold p. by rewrite El. }
  destruct (devicesEndpoint url) as [api|]; [|by intros [= <- <-]].
  destruct (answer api (name_json name)) as [[st body]|]; [|by intros [= <- <-]].
  case_decide; [by intros [= <- <-]|]. destruct (first_value body ≫= decode_creds) as [c|]; [|by intros [= <- <-]].
  case_decide; [by intros [= <- <-]|]. unfold WriteFile. case_decide; [by intros [= <- <-]|].
  intros [= <- <-]. split; [|split; [done|]].
  - intros [= <- <-] N1 N2 V1 V2. unfold registerOrLoadDevice. fold p. unfold ReadFile. cbn [files failing].
    rewrite decide_False, lookup_insert_eq by done. by rewrite creds_read_back.
  - intros q Hq. cbn. by rewrite lookup_insert_ne.
Qed.
End device.

Definition ex_answer (url : string) (body : bytes) : option (Z * bytes) :=
  if decide (url = "http://localhost:8080/api/v1/devices")
  then Some (200%Z, creds_text (MkCreds "d1" "t1")) else None.

Lemma registration_stable_witness :
  let home := Some "/home/u" in
  let r := registerOrLoadDevice home ex_answer "ws://localhost:8080/ws" "~/.relayly/chat-device.json" "chat" (Disk ∅ ∅) in
  r.1 = inr ("d1", "t1") ∧
  registerOrLoadDevice home (λ _ _, None) "bad" "~/.relayly/chat-device.json" "other" r.2 = (inr ("d1", "t1"), r.2).
Proof.
  intros home r. assert (r.1 = inr ("d1", "t1")) as E by (vm_compute; reflexivity). split; [exact E|].
  pose proof (registration_stable home ex_answer (λ _ _, None) "ws://localhost:8080/ws" "bad"
    "~/.relayly/chat-device.json" "chat" "other" (Disk ∅ ∅) "d1" "t1") as H.
  fold r in H. destruct r as [r1 d']. destruct H as [H _]. apply H; [exact E|done|done|valid_text|valid_text].
Defined.

(** ** The basic example's configuration (basic/config.go) *)

Record Config := MkConfig { ServerURL : string; Name : string; KeyPath : string; CredsPath : string }.

(** [flags] are the values after [flag.Parse], defaults included. *)
Definition LoadConfig (flags : Config) (Getenv : string → string) : Config :=
  let override name flag := if decide (Getenv name ≠ "") then Getenv name else flag in
  MkConfig (override "RELAYLY_SERVER" (ServerURL flags))
           (override "RELAYLY_DEVICE_NAME" (Name flags))
           (override "RELAYLY_KEY_PATH" (KeyPath flags))
           (override "RELAYLY_CREDS_PATH" (CredsPath flags)).

Definition default_flags : Config :=
  MkConfig "wss://relay.example.com/ws" "my-laptop" "~/.relayly/device.key" "~/.relayly/basic-device.json".

(** The echo loop's answer to a message (basic/main.go). *)
Definition echo (from : string) (payload : bytes) : string * bytes := (from, "echo: " +:+ payload).

(** ** Clipboard synchronisation (clipboard-sync/main.go)

    Each device polls its clipboard and sends what is new; what it receives it puts into
    the clipboard.  Two devices, with the messages under way between them. *)

Record clipboard := Clipboard { clip : string; last_seen : string; arriving : list string }.

(** A turn of the polling goroutine: the text it sends, if any. *)
Definition poll (current last : string) : option string * string :=
  if decide (current ≠ last ∧ current ≠ "") then (Some current, current) else (None, last).

(** [pbpaste] is the output of the command, if it succeeds. *)
Definition readClipboard (GOOS : string) (pbpaste : option string) : string :=
  if decide (GOOS ≠ "darwin") then "" else default "" pbpaste.

(** [pbcopy], if it starts, makes a new clipboard of the old one and what it is given; elsewhere
    than on macOS, and when it does not start, the clipboard stays as it is. *)
Definition writeClipboard (GOOS : string) (pbcopy : option (string → string → string)) (text old : string) : string :=
  if decide (GOOS ≠ "darwin") then old
  else match pbcopy with None => old | Some run => run old text end.

(** On macOS, with both commands working. *)
Definition reads (c : clipboard) : string := readClipboard "darwin" (Some (clip c)).
Definition writes (text : string) (c : clipboard) : clipboard :=
  Clipboard (writeClipboard "darwin" (Some (λ _ t, t)) text (clip c)) (last_seen c) (arriving c).

Lemma reads_eq c : reads c = clip c.
Proof. reflexivity. Qed.

Lemma writes_eq text c : writes text c = Clipboard text (last_seen c) (arriving c).
Proof. reflexivity. Qed.

#[local] Arguments reads : simpl never.
#[local] Arguments writes : simpl never.

(** The user copies a text; a turn of the polling goroutine; a turn of the receiving loop. *)
Inductive clip_turn := Copies (who : bool) (text : string) | Polls (who : bool) | Receives (who : bool).

Definition of_who (who : bool) (s : clipboard * clipboard) : clipboard := if who then s.1 else s.2.
Definition on_who (who : bool) (f : clipboard → clipboard) (s : clipboard * clipboard) : clipboard * clipboard :=
  if who then (f s.1, s.2) else (s.1, f s.2).

Definition clip_step (t : clip_turn) (s : clipboard * clipboard) : clipboard * clipboard :=
  match t with
  | Copies who text => on_who who (λ c, Clipboard text (last_seen c) (arriving c)) s
  | Polls who =>
      let c := of_who who s in
      let '(sent, last) := poll (reads c) (last_seen c) in
      let s := on_who who (λ c, Clipboard (clip c) last (arriving c)) s in
      match sent with
      | Some text => on_who (negb who) (λ c, Clipboard (clip c) (last_seen c) (arriving c ++ [text])) s
      | None => s
      end
  | Receives who =>
      match arriving (of_who who s) with
      | [] => s
      | text :: rest => on_who who (λ c, writes text (Clipboard (clip c) (last_seen c) rest)) s
      end
  end.

Definition clip_run (ts : list clip_turn) (s : clipboard * clipboard) : clipboard * clipboard :=
  foldl (λ s t, clip_step t s) s ts.

(** The same text everywhere and nothing under way. *)
Definition agreed (text : string) : clipboard * clipboard :=
  (Clipboard text text [], Clipboard text text []).

Definition is_poll_or_receive (t : clip_turn) : Prop := match t with Copies _ _ => False | _ => True end.

(** What can be seen between a copy on the first device and the end of its propagation. *)
Definition spreading (old new : string) (s : clipboard * clipboard) : Prop :=
  s = (Clipboard new old [], Clipboard old old []) ∨
  s = (Clipboard new new [], Clipboard old old [new]) ∨
  s = (Clipboard new new [], Clipboard new old []) ∨
  s = (Clipboard new new [new], Clipboard new new []) ∨
  s = agreed new.

Lemma spreading_step old new t s :
  is_poll_or_receive t → new ≠ "" → spreading old new s → spreading old new (clip_step t s).
Proof.
  intros Ht Hn Hs. unfold spreading, agreed, clip_step, poll, on_who, of_who in *.
  destruct t as [|[]|[]]; [done|..]; destruct Hs as [->|[->|[->|[->| ->]]]]; cbn;
    repeat (rewrite ?reads_eq, ?writes_eq; case_decide; cbn); naive_solver.
Qed.

(** One copy spreads: whatever the order of the polls and receptions that follow, the other
    device never shows anything but the old text or the new one, and four turns in order
    leave both with the new text and nothing under way. *)
Lemma copy_spreads old new ts :
  new ≠ "" → old ≠ new → Forall is_poll_or_receive ts →
  let s := clip_step (Copies true new) (agreed old) in
  spreading old new (clip_run ts s) ∧
  clip_run [Polls true; Receives false; Polls false; Receives true] s = agreed new.
Proof.
  intros Hn Ho Hts s. split.
  - assert (spreading old new s) as Hs by (by left). clearbody s. revert s Hs.
    induction Hts as [|t ts Ht _ IH]; intros s Hs; [done|]. by apply IH, spreading_step.
  - unfold s, clip_run, agreed, clip_step, poll, on_who, of_who. cbn.
    repeat (rewrite ?reads_eq, ?writes_eq; case_decide; cbn); naive_solver.
Qed.

(** Two copies at the same time never settle: each device sends its text and then takes the
    other's for a new one of its own, so the two texts go back and forth for ever and the
    clipboards differ after every round. *)
Lemma copies_never_settle old x y n :
  x ≠ "" → y ≠ "" → x ≠ y → old ≠ x → old ≠ y →
  let round := [Polls true; Polls false; Receives true; Receives false] in
  let s := clip_run [Copies true x; Copies false y] (agreed old) in
  let s' := Nat.iter n (clip_run round) s in
  clip s'.1 ≠ clip s'.2 ∧ clip_step (Polls true) s' ≠ s'.
Proof.
  intros Hx Hy Hxy Ho1 Ho2 round s.
  assert (∀ a b c d, a ≠ "" → b ≠ "" → c ≠ a → d ≠ b →
    clip_run round (Clipboard a c [], Clipboard b d []) = (Clipboard b a [], Clipboard a b [])) as Hround.
  { intros a b c d Ha Hb Hc Hd. unfold round, clip_run.
    unfold clip_step, poll, on_who, of_who. cbn. repeat (rewrite ?reads_eq, ?writes_eq; case_decide; cbn); naive_solver. }
  assert (∀ m, ∃ a b c d, Nat.iter m (clip_run round) s = (Clipboard a c [], Clipboard b d []) ∧
    a ≠ "" ∧ b ≠ "" ∧ c ≠ a ∧ d ≠ b ∧ a ≠ b) as Hall.
  { induction m as [|m (a & b & c & d & E & Ha & Hb & Hc & Hd & Hab)].
    - exists x, y, old, old. by split_and!.
    - exists b, a, a, b. cbn [Nat.iter nat_rect]. unfold Nat.iter in E. rewrite E, Hround by done.
      by split_and!. }
  destruct (Hall n) as (a & b & c & d & -> & Ha & Hb & Hc & Hd & Hab). split; [done|].
  clear Hall Hround. unfold clip_step, poll. rewrite !reads_eq. cbn. case_decide as Hp; cbn; [intros [=]; done|].
  exfalso. apply Hp. by split.
Qed.
