(* ===== verification/Scenarios.v ===== *)
(** * The interoperability scenarios (src/interop/harness/scenarios.go, matrix.go)

    The scripts the harness runs against two shims, as computations of [Harness.H] with
    their early returns and deferred clean-ups, and the matrix of all of them. *)

From S2P Require Import Prelude Keys Json AnyJson Wire PeerStore PeerFile Harness.

Definition eventTimeout : Z := 15 * Second.
Definition maxMessageBytes : Z := 65536.
Definition noiseEnvelopeOverhead : Z := 1 + 16.

Definition fillBytes (n : Z) : bytes :=
  of_chars ((λ i, byte_of (Z.of_nat i)) <$> seq 0 (Z.to_nat n)).

Definition b64 (b : bytes) : string := encodeBase64 b.
Definition decodeB64 (s : string) : option bytes := decodeBase64 s.

(** [filepath.Join]. *)
Definition JoinPath (a b : string) : string := of_chars (Join (chars a) (chars b)).

Record RunningServer := MkServer { BaseURL : string; WSURL : string }.

Section scenarios.
Context {W : Type} {D : Driver W}.
Local Abbreviation H := (@Harness.H W).
Context (server : RunningServer) (proxyURL : string).

Definition when_event (i : Instance_) (pred : Event → bool) : H Event := WaitFor i eventTimeout pred.

(** The events the scenarios wait for. *)
Definition ready_signal (peer : string) (e : Event) : bool :=
  event_is "ready_signal" e && bool_decide (Str e "peer_id" = peer).
Definition status_of (peer : string) (online : bool) (e : Event) : bool :=
  event_is "peer_status" e && bool_decide (Str e "peer_id" = peer) && Bool.eqb (Harness.Bool e "online") online.
Definition message_from (sender : string) (e : Event) : bool :=
  event_is "message" e && bool_decide (Str e "from" = sender).

Definition roundtrip (sender receiver : Instance_) (senderID receiverID : string) (n : Z) : H unit :=
  let payload := fillBytes n in
  _ ← Send_ sender [("cmd", JStr "send"); ("peer_id", JStr receiverID); ("payload_b64", JStr (b64 payload))];
  ev ← when_event receiver (message_from senderID);
  match decodeB64 (Str ev "payload_b64") with
  | None => fail (Failed "decoding received payload")
  | Some got =>
      _ ← refuse (bool_decide (slen got ≠ slen payload)) "payload length mismatch";
      refuse (bool_decide (got ≠ payload)) "payload mismatch"
  end.

(** [pinFileEntry] is the entry the SDK writes. *)
Definition readPinFile (path : string) : H (gmap string pinnedPeer) := λ s,
  match d_read path (hw s) with
  | None => (inl (Failed "read"), s)
  | Some data =>
      match UnmarshalPins data with
      | None => (inl (Failed "unmarshal"), s)
      | Some m => (inr (default ∅ m), s)
      end
  end.

Definition assertPinMatches (storePath peerID wantB64 : string) : H unit :=
  m ← wrap "reading peer store" (readPinFile storePath);
  match m !! peerID with
  | None => fail (Failed "no pin recorded for peer")
  | Some entry =>
      refuse (bool_decide (StaticKey entry ≠ wantB64)) "pinned key does not match announced key"
  end.

(** [inst, err := StartInstance(...); defer inst.Close()], and the rest of the body. *)
Definition with_instance {A} (start : H Instance_) (body : Instance_ → H A) : H A :=
  inst ← start; deferring (Close inst) (body inst).

Definition start (def : SDKDef) (dev : deviceCreds) (store : string) : H Instance_ :=
  StartInstance def proxyURL (cr_DeviceID dev) (cr_DeviceToken dev) store.

(** A call of the proxy. *)
Definition proxy_do (f : W → W) : H unit := λ s, (inr tt, on_world f s).

Definition request_pair_code (i : Instance_) : H unit := Send_ i [("cmd", JStr "request_pair_code")].
Definition accept_pair (i : Instance_) (code : string) : H unit :=
  Send_ i [("cmd", JStr "accept_pair"); ("code", JStr code)].

Fixpoint each (l : list Z) (f : Z → H unit) : H unit :=
  match l with
  | [] => mret tt
  | n :: l => _ ← f n; each l f
  end.

Definition runPositiveFlow (aDef bDef : SDKDef) (workDir : string) : H unit :=
  let pair := sdk_Name aDef +:+ "-" +:+ sdk_Name bDef in
  devA ← wrap "register A" (registerDevice (BaseURL server) ("a-" +:+ pair));
  devB ← wrap "register B" (registerDevice (BaseURL server) ("b-" +:+ pair));
  let idA := cr_DeviceID devA in
  let idB := cr_DeviceID devB in
  let aStore := JoinPath workDir "a-peers.json" in
  let bStore := JoinPath workDir "b-peers.json" in
  with_instance (wrap "start A" (start aDef devA aStore)) (λ aInst,
  with_instance (wrap "start B" (start bDef devB bStore)) (λ bInst,
    _ ← wrap "A request_pair_code" (request_pair_code aInst);
    codeEv ← wrap "A pair_code" (when_event aInst (event_is "pair_code"));
    let code := Str codeEv "code" in
    _ ← refuse (bool_decide (slen code ≠ 6)) "A pair_code: expected 6-digit code";
    _ ← wrap "B accept_pair" (accept_pair bInst code);
    bPaired ← wrap "B paired" (when_event bInst (event_is "paired"));
    aPaired ← wrap "A paired" (when_event aInst (event_is "paired"));
    _ ← refuse (bool_decide (Str aPaired "peer_id" ≠ idB)) "A paired with another device";
    _ ← refuse (bool_decide (Str bPaired "peer_id" ≠ idA)) "B paired with another device";
    _ ← wrap "A pin check" (assertPinMatches aStore idB (Str aPaired "peer_public_key_b64"));
    _ ← wrap "B pin check" (assertPinMatches bStore idA (Str bPaired "peer_public_key_b64"));
    _ ← wrap "A did not see the initial ready_signal" (when_event aInst (ready_signal idB));
    _ ← wrap "B did not see the initial ready_signal" (when_event bInst (ready_signal idA));
    _ ← each [1; 1024; maxMessageBytes - noiseEnvelopeOverhead]%Z (λ n,
          _ ← wrap "A->B roundtrip" (roundtrip aInst bInst idA idB n);
          wrap "B->A roundtrip" (roundtrip bInst aInst idB idA n));
    _ ← proxy_do (d_sever idB);
    _ ← wrap "A did not see B go offline" (when_event aInst (status_of idB false));
    _ ← wrap "A did not see B come back online" (when_event aInst (status_of idB true));
    _ ← wrap "A did not see a post-reconnect ready_signal" (when_event aInst (ready_signal idB));
    _ ← wrap "B did not see a post-reconnect ready_signal" (when_event bInst (ready_signal idA));
    _ ← wrap "post-reconnect A->B roundtrip" (roundtrip aInst bInst idA idB 64);
    wrap "post-reconnect B->A roundtrip" (roundtrip bInst aInst idB idA 64))).

(** [json.Marshal] of a map with one pin. *)
Definition seed_file (peer key : string) : bytes :=
  of_chars (jprint (JObj [(peer, pin_json (PinnedPeer key "2020-01-01T00:00:00Z"))])).

Definition runWrongPinTest (victimDef partnerDef : SDKDef) (workDir : string) : H unit :=
  devA ← registerDevice (BaseURL server) ("wrongpin-a-" +:+ sdk_Name partnerDef);
  devB ← registerDevice (BaseURL server) ("wrongpin-b-" +:+ sdk_Name victimDef);
  let idA := cr_DeviceID devA in
  let bStore := JoinPath workDir "b-peers.json" in
  let wrongKey := b64 (fillBytes 32) in
  ok ← lift (d_write bStore (seed_file idA wrongKey));
  _ ← refuse (negb ok) "write";
  let aStore := JoinPath workDir "a-peers.json" in
  with_instance (start partnerDef devA aStore) (λ aInst,
  with_instance (start victimDef devB bStore) (λ bInst,
    _ ← request_pair_code aInst;
    codeEv ← when_event aInst (event_is "pair_code");
    _ ← accept_pair bInst (Str codeEv "code");
    _ ← wrap "expected B to reject the mismatched pin, but it didn't"
          (when_event bInst (event_is "pair_error"));
    m ← wrap "reading B's peer store after failed handshake" (readPinFile bStore);
    refuse (bool_decide (from_option StaticKey "" (m !! idA) ≠ wrongKey))
      "B's original (wrong) pin was overwritten")).

Definition runKeyRewriteTest (victimDef partnerDef : SDKDef) (workDir : string) : H unit :=
  devA ← registerDevice (BaseURL server) ("rewrite-a-" +:+ sdk_Name partnerDef);
  devB ← registerDevice (BaseURL server) ("rewrite-b-" +:+ sdk_Name victimDef);
  let aStore := JoinPath workDir "a-peers.json" in
  let bStore := JoinPath workDir "b-peers.json" in
  with_instance (start partnerDef devA aStore) (λ aInst,
  with_instance (start victimDef devB bStore) (λ bInst,
    _ ← proxy_do (d_rewrite (cr_DeviceID devB) (b64 (fillBytes 32)));
    _ ← request_pair_code aInst;
    codeEv ← when_event aInst (event_is "pair_code");
    _ ← accept_pair bInst (Str codeEv "code");
    _ ← wrap "expected B to reject the rewritten pair_complete key, but it didn't"
          (when_event bInst (event_is "pair_error"));
    mret tt)).

(** Registration is repeated until the partner's ID is the smaller one. *)
Fixpoint ordered_pair (victimDef partnerDef : SDKDef) (attempt more : nat) : H (deviceCreds * deviceCreds) :=
  v ← registerDevice (BaseURL server) ("rekey-victim-" +:+ sdk_Name victimDef +:+ "-" +:+ pretty attempt);
  p ← registerDevice (BaseURL server) ("rekey-partner-" +:+ sdk_Name partnerDef +:+ "-" +:+ pretty attempt);
  if String.ltb (cr_DeviceID p) (cr_DeviceID v) then mret (v, p)
  else match more with
       | O => fail (Failed "could not obtain a partner device_id smaller than the victim's")
       | S more => ordered_pair victimDef partnerDef (S attempt) more
       end.

Definition maxAttempts : nat := 10.

Definition runRekeySafetyTest (victimDef partnerDef : SDKDef) (workDir : string) : H unit :=
  '(victim, partner) ← ordered_pair victimDef partnerDef 0 (maxAttempts - 1);
  let idV := cr_DeviceID victim in
  let idP := cr_DeviceID partner in
  let victimStore := JoinPath workDir "victim-peers.json" in
  let partnerStore := JoinPath workDir "partner-peers.json" in
  with_instance (start victimDef victim victimStore) (λ victimInst,
  with_instance (start partnerDef partner partnerStore) (λ partnerInst,
    _ ← request_pair_code victimInst;
    codeEv ← when_event victimInst (event_is "pair_code");
    _ ← accept_pair partnerInst (Str codeEv "code");
    _ ← when_event partnerInst (event_is "paired");
    _ ← when_event victimInst (event_is "paired");
    _ ← wrap "victim did not see the initial ready_signal" (when_event victimInst (ready_signal idP));
    _ ← wrap "partner did not see the initial ready_signal" (when_event partnerInst (ready_signal idV));
    _ ← proxy_do (d_sever idV);
    _ ← wrap "partner never saw the victim come back online" (when_event partnerInst (status_of idV true));
    _ ← wrap "victim never saw a ready_signal for the completed rekey"
          (when_event victimInst (ready_signal idP));
    _ ← wrap "partner never saw a ready_signal for the completed rekey"
          (when_event partnerInst (ready_signal idV));
    _ ← wrap "post-rekey A->B roundtrip failed" (roundtrip victimInst partnerInst idV idP 32);
    wrap "post-rekey B->A roundtrip failed" (roundtrip partnerInst victimInst idP idV 32))).

(** ** The matrix (matrix.go) *)

Record pairResult := PairResult_ { pr_a : string; pr_b : string; pr_pass : bool; pr_err : option herr }.
Record negativeResult := NegativeResult {
  nr_scenario : string; nr_sdk : string; nr_pass : bool; nr_err : option herr
}.

Definition names : list string := ["go"; "ts"; "py"; "rust"; "cpp"].

Fixpoint pairs_of (l : list string) : list (string * string) :=
  match l with
  | [] => []
  | a :: l' => ((λ b, (a, b)) <$> l) ++ pairs_of l'
  end.

Definition no_sdk : SDKDef := MkSDKDef "" "" [].
Definition sdk (sdks : gmap string SDKDef) (name : string) : SDKDef := default no_sdk (sdks !! name).

(** A scenario in a fresh directory: what it returned. *)
Definition attempt (tmpRoot pattern : string) (flow : string → H unit) (s : hstate) : option herr * hstate :=
  match d_mkdirTemp tmpRoot pattern (hw s) with
  | (None, w) => (Some (Failed "mkdir"), HState w (backlogs s) (heard s))
  | (Some dir, w) =>
      match flow dir (HState w (backlogs s) (heard s)) with
      | (inl e, s) => (Some e, s)
      | (inr _, s) => (None, s)
      end
  end.

Fixpoint run_pairs (sdks : gmap string SDKDef) (tmpRoot : string) (l : list (string * string)) (s : hstate)
    : list pairResult * bool * hstate :=
  match l with
  | [] => ([], true, s)
  | (a, b) :: l =>
      let '(e, s) := attempt tmpRoot "pair-*" (runPositiveFlow (sdk sdks a) (sdk sdks b)) s in
      let ok := match e with None => true | Some _ => false end in
      let '(rs, allOK, s) := run_pairs sdks tmpRoot l s in
      (PairResult_ a b ok e :: rs, ok && allOK, s)
  end.

Definition negScenarios : list (string * (SDKDef → SDKDef → string → H unit)) :=
  [("wrong_pin", runWrongPinTest); ("key_rewrite", runKeyRewriteTest);
   ("rekey_safety", runRekeySafetyTest)].

Definition partner_of (sdkName : string) : string := if decide (sdkName = "go") then "ts" else "go".

Fixpoint run_negatives (sdks : gmap string SDKDef) (tmpRoot : string)
    (l : list (string * (string * (SDKDef → SDKDef → string → H unit)))) (s : hstate)
    : list negativeResult * bool * hstate :=
  match l with
  | [] => ([], true, s)
  | (name, (scenario, flow)) :: l =>
      let '(e, s) := attempt tmpRoot "neg-*" (flow (sdk sdks name) (sdk sdks (partner_of name))) s in
      let ok := match e with None => true | Some _ => false end in
      let '(rs, allOK, s) := run_negatives sdks tmpRoot l s in
      (NegativeResult scenario name ok e :: rs, ok && allOK, s)
  end.

Definition runMatrix (sdks : gmap string SDKDef) (tmpRoot : string) (s : hstate)
    : list pairResult * list negativeResult * bool * hstate :=
  let '(prs, ok1, s) := run_pairs sdks tmpRoot (pairs_of names) s in
  let '(nrs, ok2, s) := run_negatives sdks tmpRoot
    (n ← names; (λ sc, (n, sc)) <$> negScenarios) s in
  (prs, nrs, ok1 && ok2, s).
End scenarios.
