(* ===== verification/ScenarioFacts.v ===== *)
(** * What the harness's verdicts mean

    A scenario that passes has seen the events its specification lists; whatever happens,
    the processes a scenario started are closed; and the matrix runs every scenario and
    passes exactly if all of them do. *)

From S2P Require Import Prelude Keys Json AnyJson Wire PeerStore PeerFile Harness Scenarios.

(** ** Successful runs, taken apart *)

Section inversion.
Context {W : Type} {D : Driver W}.
Implicit Types (s : @hstate W).

Lemma bind_inv {A B} (m : H A) (f : A → H B) s y s' :
  (x ← m; f x) s = (inr y, s') → ∃ x s1, m s = (inr x, s1) ∧ f x s1 = (inr y, s').
Proof. unfold mbind, H_bind. destruct (m s) as [[e|x] s1]; [done|eauto]. Qed.

Lemma wrap_inv {A} what (m : H A) s x s' : wrap what m s = (inr x, s') → m s = (inr x, s').
Proof. unfold wrap. by destruct (m s) as [[e|y] s1]. Qed.

Lemma refuse_inv (c : bool) what s x s' :
  refuse c what s = (inr x, s') → c = false ∧ s' = s.
Proof. destruct c; cbn; [done|]. by intros [= _ ->]. Qed.

Lemma deferring_inv {A} c (m : H A) s x s' :
  deferring c m s = (inr x, s') → ∃ s1, m s = (inr x, s1) ∧ s' = c s1.
Proof. unfold deferring. destruct (m s) as [r s1]. intros [= -> <-]. eauto. Qed.

Lemma lift_heard {A} (f : W → A * W) s x s' : lift f s = (inr x, s') → heard s' = heard s.
Proof. unfold lift. destruct (f (hw s)). by intros [= _ <-]. Qed.

Lemma Send_heard i c s : heard (Send_ i c s).2 = heard s.
Proof. unfold Send_, lift, mbind, H_bind. destruct (d_stdin _ _ _) as [[] w]; done. Qed.

Lemma Send_inv i c s x s' : Send_ i c s = (inr x, s') → heard s' = heard s.
Proof. intros E. by rewrite <- (Send_heard i c s), E. Qed.

Lemma Close_heard i s : heard (Close i s) = heard s.
Proof. unfold Close. case_match; cbn; apply Send_heard. Qed.

Lemma WaitFor_inv i t pred s ev s' :
  WaitFor i t pred s = (inr ev, s') → heard s' = heard s ++ [(cmd i, ev)] ∧ pred ev = true.
Proof.
  assert (∀ l n e, find_event pred l = Some (n, e) → pred e = true) as Hf.
  { induction l as [|x l IH]; intros n e; cbn [find_event]; [done|].
    destruct (pred x) eqn:E; [by intros [= _ <-]|].
    intros ([k y] & Hy & [= _ <-])%fmap_Some. by eapply IH. }
  assert (∀ l e n k, await pred l = (Some e, n, k) → pred e = true) as Ha.
  { induction l as [|[x|] l IH]; intros e n k; cbn [await]; [done|..].
    - destruct (pred x) eqn:E; [by intros [= <- _ _]|].
      destruct (await pred l) as [[r m] k'] eqn:El. intros [= -> _ _]. by eapply IH.
    - destruct (await pred l) as [[r m] k'] eqn:El. intros [= -> _ _]. by eapply IH. }
  unfold WaitFor. destruct (find_event pred _) as [[n e]|] eqn:E.
  { intros [= -> <-]. split; [done|]. by eapply Hf. }
  case_decide; [done|]. destruct (d_lines _ _ _) as [ls b]. destruct (readLoop ls b) as [evs c].
  destruct (await pred evs) as [[[e|] n] k] eqn:Ea; [|done]. intros [= -> <-].
  split; [done|]. by eapply Ha.
Qed.

Lemma registerDevice_heard url name s x s' :
  registerDevice url name s = (inr x, s') → heard s' = heard s.
Proof.
  unfold registerDevice. intros (r & s1 & E1%lift_heard & E2)%bind_inv. rewrite <- E1.
  destruct r as [[st b]|]; [|done]. case_decide; [done|].
  destruct (first_value b ≫= decode_creds); [|done]. by injection E2 as _ <-.
Qed.

Lemma StartInstance_inv def url id token store s i s' :
  StartInstance def url id token store s = (inr i, s') →
  ∃ ev, heard s' = heard s ++ [(cmd i, ev)] ∧ event_is "ready" ev = true.
Proof.
  unfold StartInstance. intros (p & s1 & E1%lift_heard & E2)%bind_inv. rewrite <- E1.
  destruct p as [h|]; [|done]. unfold await_ready in E2.
  destruct (WaitFor _ _ _ s1) as [[e|ev] s2] eqn:Ew; [done|].
  apply WaitFor_inv in Ew as [Eh Ep]. destruct (event_is "connect_error" ev) eqn:Ec; [done|].
  injection E2 as <- <-. exists ev. split; [done|]. by rewrite orb_false_r in Ep.
Qed.

Lemma readPinFile_inv path s m s' : readPinFile path s = (inr m, s') →
  s' = s ∧ ∃ data, d_read path (hw s) = Some data ∧ default ∅ <$> UnmarshalPins data = Some m.
Proof.
  unfold readPinFile. destruct (d_read path (hw s)) as [data|]; [|done].
  destruct (UnmarshalPins data) as [o|] eqn:E; [|done]. intros [= <- <-].
  split; [done|]. exists data. by rewrite E.
Qed.

Lemma assertPin_inv path peer want s x s' :
  assertPinMatches path peer want s = (inr x, s') →
  s' = s ∧ ∃ data m, d_read path (hw s) = Some data ∧ UnmarshalPins data = Some (Some m) ∧
    StaticKey <$> m !! peer = Some want.
Proof.
  unfold assertPinMatches.
  intros (m & s1 & (-> & data & E1 & E2)%wrap_inv%readPinFile_inv & E3)%bind_inv.
  destruct (m !! peer) as [p|] eqn:Ep; [|done]. apply refuse_inv in E3 as [Hb ->].
  apply bool_decide_eq_false in Hb. apply dec_stable in Hb. split; [done|].
  apply fmap_Some in E2 as ([o|] & Eo & ->); [|by cbn in Ep; rewrite lookup_empty in Ep].
  exists data, o. split_and!; [done..|]. cbn in Ep. rewrite Ep. cbn. by rewrite Hb.
Qed.

(** A received message, with its payload. *)
Definition says (sender : string) (payload : bytes) (e : Event) : bool :=
  message_from sender e && bool_decide (decodeB64 (Str e "payload_b64") = Some payload).

Lemma roundtrip_inv a b ida idb n s x s' :
  roundtrip a b ida idb n s = (inr x, s') →
  ∃ ev, heard s' = heard s ++ [(cmd b, ev)] ∧ says ida (fillBytes n) ev = true.
Proof.
  unfold roundtrip. intros (u & s1 & E1%Send_inv & E2)%bind_inv. rewrite <- E1.
  apply bind_inv in E2 as (ev & s2 & [E2 Hp]%WaitFor_inv & E3).
  destruct (decodeB64 _) as [got|] eqn:Ed; [|done].
  apply bind_inv in E3 as (v & s3 & [_ ->]%refuse_inv & [Hg ->]%refuse_inv).
  apply bool_decide_eq_false in Hg. apply dec_stable in Hg. subst got.
  exists ev. split; [done|]. unfold says. rewrite Hp, Ed. by rewrite bool_decide_eq_true_2.
Qed.
End inversion.

Ltac hinv :=
  repeat match goal with
  | E : (_ ≫= _) _ = (inr _, _) |- _ =>
      let E1 := fresh "E" in apply bind_inv in E as (? & ? & E1 & E)
  | E : wrap _ _ _ = (inr _, _) |- _ => apply wrap_inv in E
  | E : with_instance _ _ _ = (inr _, _) |- _ => unfold with_instance in E
  | E : deferring _ _ _ = (inr _, _) |- _ =>
      let s := fresh "s" in apply deferring_inv in E as (s & E & ->)
  | E : refuse _ _ _ = (inr _, _) |- _ => apply refuse_inv in E as [? ->]
  | E : registerDevice _ _ _ = (inr _, _) |- _ => apply registerDevice_heard in E
  | E : start _ _ _ _ _ = (inr _, _) |- _ => apply StartInstance_inv in E as (? & E & ?)
  | E : request_pair_code _ _ = (inr _, _) |- _ => apply Send_inv in E
  | E : accept_pair _ _ _ = (inr _, _) |- _ => apply Send_inv in E
  | E : when_event _ _ _ = (inr _, _) |- _ => apply WaitFor_inv in E as [E ?]
  | E : assertPinMatches _ _ _ _ = (inr _, _) |- _ => apply assertPin_inv in E as [-> ?]
  | E : readPinFile _ _ = (inr _, _) |- _ => apply readPinFile_inv in E as [-> ?]
  | E : roundtrip _ _ _ _ _ _ = (inr _, _) |- _ => apply roundtrip_inv in E as (? & E & ?)
  | E : each (_ :: _) _ _ = (inr _, _) |- _ => cbn [each] in E
  | E : each [] _ _ = (inr _, _) |- _ => cbn [each] in E
  | E : mret _ _ = (inr _, _) |- _ => injection E as _ <-
  | E : (inr tt, _) = (inr _, _) |- _ => injection E as <-
  | E : proxy_do _ _ = (inr _, _) |- _ => injection E as _ <-
  | E : lift _ _ = (inr _, _) |- _ => apply lift_heard in E
  | E : bool_decide (_ ≠ _) = false |- _ =>
      apply bool_decide_eq_false in E; apply dec_stable in E
  end.

(** The events heard, as one list. *)
Ltac hlog :=
  rewrite ?Close_heard; cbn [heard on_world];
  repeat match goal with E : heard ?x = _ |- context [heard ?x] => rewrite E; cbn [heard on_world] end;
  rewrite <- ?app_assoc; cbn [app].

(** ** What a pass means *)

Section verdicts.
Context {W : Type} {D : Driver W}.
Context (server : RunningServer) (proxyURL : string).
Local Abbreviation hstate := (@Harness.hstate W).
Implicit Types (s : hstate).

(** The events a run has waited for are as specified, instance by instance. *)
Definition transcript (specs : list (nat * (Event → bool))) (s s' : hstate) : Prop :=
  ∃ l, heard s' = heard s ++ l ∧
    Forall2 (λ spec (e : nat * Event), e.1 = spec.1 ∧ spec.2 e.2 = true) specs l.

Definition code_event (e : Event) : bool :=
  event_is "pair_code" e && bool_decide (slen (Str e "code") = 6).
Definition paired_event (peer : string) (e : Event) : bool :=
  event_is "paired" e && bool_decide (Str e "peer_id" = peer).

(** The pin file says [key] for the device. *)
Definition pinned_in (s : hstate) (path peer key : string) : Prop :=
  ∃ data m, d_read path (hw s) = Some data ∧ UnmarshalPins data = Some (Some m) ∧
    StaticKey <$> m !! peer = Some key.

Definition with_key (key : string) (spec : Event → bool) (e : Event) : bool :=
  spec e && bool_decide (Str e "peer_public_key_b64" = key).

(** Up to the pairing, with instances [a], [b] of devices [ida], [idb] and the keys each is
    told; and from there. *)
Definition flow_pairing (a b : nat) (ida idb ka kb : string) : list (nat * (Event → bool)) :=
  [(a, event_is "ready"); (b, event_is "ready"); (a, code_event);
   (b, with_key ka (paired_event ida)); (a, with_key kb (paired_event idb))].

Definition flow_messages (a b : nat) (ida idb : string) : list (nat * (Event → bool)) :=
  [(a, ready_signal idb); (b, ready_signal ida)]
  ++ (n ← [1; 1024; 65519]%Z; [(b, says ida (fillBytes n)); (a, says idb (fillBytes n))])
  ++ [(a, status_of idb false); (a, status_of idb true); (a, ready_signal idb); (b, ready_signal ida);
      (b, says ida (fillBytes 64)); (a, says idb (fillBytes 64))].

Lemma spec_and (b : bool) (P : Prop) `{Decision P} : b = true → P → b && bool_decide P = true.
Proof. intros -> Hb. by apply bool_decide_eq_true_2. Qed.

Ltac spec :=
  first [assumption | reflexivity
        | progress cbv beta delta [with_key code_event paired_event]; spec | apply spec_and; spec].

Ltac heard_as :=
  repeat (apply Forall2_cons; split; [split; [reflexivity|cbn [snd fst]; spec]|]); constructor.

(** C40: A passing positive flow is evidence of what it is meant to show.  If it returns no
    error, both shims reported to be ready, the first printed a six-digit code, each
    reported to be paired with the other's device and the key its peer file then held for
    that device; both signalled readiness; payloads of 1, 1024 and 65519 bytes (the
    largest the relay lets through) arrived unchanged in both directions; the first shim
    saw the other go offline and come back, both signalled readiness again, and another
    payload arrived in each direction. *)
Theorem positive_flow_sound aDef bDef dir s x s' :
  runPositiveFlow server proxyURL aDef bDef dir s = (inr x, s') →
  ∃ a b ida idb ka kb s1,
    transcript (flow_pairing a b ida idb ka kb) s s1 ∧
    pinned_in s1 (JoinPath dir "a-peers.json") idb kb ∧
    pinned_in s1 (JoinPath dir "b-peers.json") ida ka ∧
    transcript (flow_messages a b ida idb) s1 s'.
Proof.
  unfold runPositiveFlow. intros E. hinv.
  match goal with
  | A : heard ?s2 = heard _ ++ [(cmd ?a, ?ea)], B : heard _ = heard _ ++ [(cmd ?b, ?eb)],
    PA : event_is "paired" ?ea = true, PB : event_is "paired" ?eb = true,
    IA : Str ?ea "peer_id" = ?idb, IB : Str ?eb "peer_id" = ?ida,
    FA : ∃ data m, d_read _ (hw ?s2) = _ ∧ _ ∧ StaticKey <$> m !! ?idb = _ |- _ =>
      exists (cmd a), (cmd b), ida, idb, (Str eb "peer_public_key_b64"), (Str ea "peer_public_key_b64"), s2
  end.
  split_and!; try done.
  - eexists. hlog. split; [reflexivity|]. heard_as.
  - eexists. hlog. split; [reflexivity|]. heard_as.
Qed.

Definition flow_refused (a b : nat) : list (nat * (Event → bool)) :=
  [(a, event_is "ready"); (b, event_is "ready"); (a, event_is "pair_code"); (b, event_is "pair_error")].

Definition flow_rekey (v p : nat) (idv idp : string) : list (nat * (Event → bool)) :=
  [(v, event_is "ready"); (p, event_is "ready"); (v, event_is "pair_code");
   (p, event_is "paired"); (v, event_is "paired"); (v, ready_signal idp); (p, ready_signal idv);
   (p, status_of idv true); (v, ready_signal idp); (p, ready_signal idv);
   (p, says idv (fillBytes 32)); (v, says idp (fillBytes 32))].

Lemma ordered_inv vDef pDef k n s v p s' :
  ordered_pair server vDef pDef k n s = (inr (v, p), s') →
  heard s' = heard s ∧ String.ltb (cr_DeviceID p) (cr_DeviceID v) = true.
Proof.
  revert k s. induction n as [|n IH]; intros k s; cbn [ordered_pair]; intros E; hinv.
  all: match type of E with (if ?b then _ else _) _ = _ => destruct b eqn:El end.
  1,3: unfold mret, H_ret in E; injection E as <- <- <-; split; [by hlog|done].
  - done.
  - apply IH in E as [E Ho]. split; [by hlog|done].
Qed.

(** What the three negative scenarios certify when they pass.  Wrong pin: the victim
    reported a pairing error, and its peer file still holds the wrong key that was
    planted.  Rewritten key: the victim reported a pairing error.  Rekeying: the partner
    had the smaller ID, both were paired and ready, and after the victim's connection was
    cut both became ready again and messages passed in both directions. *)
Theorem negative_scenarios_sound vDef pDef dir s x s' :
  (runWrongPinTest server proxyURL vDef pDef dir s = (inr x, s') →
   ∃ a b ida s1, transcript (flow_refused a b) s s1 ∧ heard s' = heard s1 ∧
     ∃ data m, d_read (JoinPath dir "b-peers.json") (hw s1) = Some data ∧
       UnmarshalPins data = Some (Some m) ∧ StaticKey <$> m !! ida = Some (b64 (fillBytes 32))) ∧
  (runKeyRewriteTest server proxyURL vDef pDef dir s = (inr x, s') →
   ∃ a b, transcript (flow_refused a b) s s') ∧
  (runRekeySafetyTest server proxyURL vDef pDef dir s = (inr x, s') →
   ∃ v p idv idp, String.ltb idp idv = true ∧ transcript (flow_rekey v p idv idp) s s').
Proof.
  split_and!.
  - unfold runWrongPinTest. intros E. hinv.
    match goal with P : ∃ data, _ ∧ _ <$> _ = Some ?m, F : from_option _ _ (?m !! cr_DeviceID ?d) = _,
      EA : heard _ = heard _ ++ [(cmd ?a, ?e)], PA : event_is "pair_code" ?e = true,
      EB : heard ?s2 = heard _ ++ [(cmd ?b, ?e2)], PB : event_is "pair_error" ?e2 = true |- _ =>
      exists (cmd a), (cmd b), (cr_DeviceID d), s2; destruct P as (data & Hr & Hm);
      rename F into HF end.
    split_and!.
    + eexists. hlog. split; [reflexivity|]. heard_as.
    + by hlog.
    + apply fmap_Some in Hm as ([m0|] & Hu & ->); cbn in HF; [|by rewrite lookup_empty in HF].
      exists data, m0. split_and!; [done..|]. by destruct (m0 !! _); cbn in *; [rewrite HF|].
  - unfold runKeyRewriteTest. intros E. hinv. do 2 eexists. eexists. hlog. split; [reflexivity|]. heard_as.
  - unfold runRekeySafetyTest. intros E. apply bind_inv in E as ([v p] & s1 & E1 & E).
    apply ordered_inv in E1 as [E1 Ho]. hinv.
    do 2 eexists. exists (cr_DeviceID v), (cr_DeviceID p). split; [done|].
    eexists. hlog. split; [reflexivity|]. heard_as.
Qed.
End verdicts.

(** ** No process is left behind *)

(** The processes that have neither ended nor been killed; what the operating system
    promises about them. *)
Class ProcessLaws (W : Type) {D : Driver W} := {
  d_live : W → gset nat;
  live_start c args w : match d_start c args w with
    | (Some h, w') => d_live w' ⊆ {[h]} ∪ d_live w
    | (None, w') => d_live w' ⊆ d_live w
    end;
  live_stdin h b w : d_live (d_stdin h b w).2 ⊆ d_live w;
  live_take h n w : d_live (d_take h n w) ⊆ d_live w;
  live_kill h w : d_live (d_kill h w) ⊆ d_live w ∖ {[h]};
  live_reap h w : d_live (d_reap h w) ⊆ d_live w;
  live_exits h t w : d_exits h t w = true → h ∉ d_live (d_reap h w);
  live_post u c b w : d_live (d_post u c b w).2 ⊆ d_live w;
  live_write p b w : d_live (d_write p b w).2 ⊆ d_live w;
  live_mkdirTemp d p w : d_live (d_mkdirTemp d p w).2 ⊆ d_live w;
  live_rewrite i k w : d_live (d_rewrite i k w) ⊆ d_live w;
  live_sever i w : d_live (d_sever i w) ⊆ d_live w
}.

Create HintDb tidy.

Section tidy.
Context {W : Type} {D : Driver W} {P : ProcessLaws W}.
Local Abbreviation hstate := (@Harness.hstate W).
Local Abbreviation H := (@Harness.H W).

Definition live (s : hstate) : gset nat := d_live (hw s).

(** A computation that leaves no process behind, whatever its outcome. *)
Definition tidy {A} (m : H A) : Prop := ∀ s, live (m s).2 ⊆ live s.

(** ... and one that leaves the instance it returns. *)
Definition starts (m : H Instance_) : Prop := ∀ s,
  match m s with
  | (inr i, s') => live s' ⊆ {[cmd i]} ∪ live s
  | (inl _, s') => live s' ⊆ live s
  end.

Lemma tidy_ret {A} (x : A) : tidy (mret x).
Proof. intros s. reflexivity. Qed.

Lemma tidy_fail {A} e : tidy (@fail W A e).
Proof. intros s. reflexivity. Qed.

Lemma tidy_bind {A B} (m : H A) (f : A → H B) : tidy m → (∀ x, tidy (f x)) → tidy (x ← m; f x).
Proof.
  intros Hm Hf s. unfold mbind, H_bind. specialize (Hm s). destruct (m s) as [[e|x] s1]; [done|].
  etrans; [apply Hf|done].
Qed.

Lemma tidy_wrap {A} what (m : H A) : tidy m → tidy (wrap what m).
Proof. intros Hm s. unfold wrap. specialize (Hm s). by destruct (m s) as [[e|x] s1]. Qed.

Lemma tidy_refuse c what : tidy (refuse c what).
Proof. destruct c; [apply tidy_fail|apply tidy_ret]. Qed.

Lemma tidy_lift {A} (f : W → A * W) : (∀ w, d_live (f w).2 ⊆ d_live w) → tidy (lift f).
Proof. intros Hf s. unfold lift, live. specialize (Hf (hw s)). by destruct (f (hw s)). Qed.

Lemma tidy_WaitFor i t pred : tidy (WaitFor i t pred).
Proof.
  intros s. unfold WaitFor. destruct (find_event _ _) as [[n e]|]; [reflexivity|].
  case_decide; [reflexivity|]. destruct (d_lines _ _ _) as [ls b]. destruct (readLoop ls b) as [evs c].
  destruct (await pred evs) as [[[e|] n] k]; cbn; apply live_take.
Qed.

Lemma tidy_Send i c : tidy (Send_ i c).
Proof.
  apply tidy_bind; [apply tidy_lift; intros; apply live_stdin|]. intros []; [apply tidy_ret|apply tidy_fail].
Qed.

Lemma tidy_register url name : tidy (registerDevice url name).
Proof.
  apply tidy_bind; [apply tidy_lift; intros; apply live_post|]. intros [[st b]|]; [|apply tidy_fail].
  case_decide; [apply tidy_fail|]. destruct (_ ≫= decode_creds); [apply tidy_ret|apply tidy_fail].
Qed.

Lemma tidy_readPinFile path : tidy (readPinFile path).
Proof. intros s. unfold readPinFile. repeat case_match; reflexivity. Qed.

Lemma tidy_assertPin path peer want : tidy (assertPinMatches path peer want).
Proof.
  apply tidy_bind; [apply tidy_wrap, tidy_readPinFile|]. intros m.
  destruct (m !! peer); [apply tidy_refuse|apply tidy_fail].
Qed.

Lemma tidy_each l f : (∀ n, tidy (f n)) → tidy (@each W l f).
Proof. intros Hf. induction l; [apply tidy_ret|]. cbn [each]. by apply tidy_bind. Qed.

Lemma tidy_proxy_do f : (∀ w, d_live (f w) ⊆ d_live w) → tidy (proxy_do f).
Proof. intros Hf s. apply Hf. Qed.

Lemma Close_ends i s : live (Close i s) ⊆ live s ∖ {[cmd i]}.
Proof.
  unfold Close. pose proof (tidy_Send i [("cmd", JStr "close")] s) as Hs.
  set (s1 := (Send_ i _ s).2) in *. clearbody s1. unfold live in *.
  destruct (d_exits (cmd i) _ (hw s1)) eqn:E; cbn.
  - pose proof (live_exits _ _ _ E). pose proof (live_reap (cmd i) (hw s1)). set_solver.
  - pose proof (live_reap (cmd i) (d_kill (cmd i) (hw s1))).
    pose proof (live_kill (cmd i) (hw s1)). set_solver.
Qed.

Lemma starts_StartInstance def url id token store : starts (StartInstance def url id token store).
Proof.
  intros s. unfold StartInstance, mbind, H_bind, lift.
  pose proof (live_start (Command def) (Args def ++ ["--server"; url; "--device-id"; id;
    "--device-token"; token] ++ (if decide (store ≠ "") then ["--peer-store-path"; store] else []))
    (hw s)) as Hs.
  destruct (d_start _ _ (hw s)) as [[h|] w1]; [|done]. unfold await_ready. cbn [cmd inst_Name].
  set (s1 := HState w1 _ _). set (i := MkInstance _ h).
  pose proof (tidy_WaitFor i (15 * Second) (λ e, event_is "ready" e || event_is "connect_error" e) s1) as Hw.
  destruct (WaitFor i _ _ s1) as [[e|ev] s2]; cbn in Hw.
  - pose proof (live_kill h (hw s2)). unfold live in *. cbn in *. set_solver.
  - destruct (event_is "connect_error" ev).
    + pose proof (live_kill h (hw s2)). unfold live in *. cbn in *. set_solver.
    + unfold live in *. cbn in *. set_solver.
Qed.

Lemma starts_wrap what m : starts m → starts (wrap what m).
Proof. intros Hm s. unfold wrap. specialize (Hm s). by destruct (m s) as [[e|x] s1]. Qed.

Lemma tidy_with_instance {A} m (body : Instance_ → H A) :
  starts m → (∀ i, tidy (body i)) → tidy (with_instance m body).
Proof.
  intros Hm Hb s. unfold with_instance, mbind, H_bind. specialize (Hm s).
  destruct (m s) as [[e|i] s1]; [done|]. unfold deferring. specialize (Hb i s1).
  destruct (body i s1) as [r s2]. cbn in *. pose proof (Close_ends i s2). set_solver.
Qed.

Lemma tidy_when_event i pred : tidy (when_event i pred).
Proof. apply tidy_WaitFor. Qed.

Lemma tidy_request i : tidy (request_pair_code i).
Proof. apply tidy_Send. Qed.

Lemma tidy_accept i code : tidy (accept_pair i code).
Proof. apply tidy_Send. Qed.

Lemma starts_start url def dev store : starts (start url def dev store).
Proof. apply starts_StartInstance. Qed.
End tidy.

#[export] Hint Resolve tidy_when_event tidy_request tidy_accept starts_start : tidy.
#[export] Hint Resolve tidy_ret tidy_fail tidy_wrap tidy_refuse tidy_WaitFor tidy_Send tidy_register
  tidy_readPinFile tidy_assertPin starts_StartInstance starts_wrap : tidy.

Ltac tidy :=
  repeat lazymatch goal with
    | |- ∀ _, _ => intros
    | |- tidy (with_instance _ _) => apply tidy_with_instance
    | |- tidy (mbind _ _) => apply tidy_bind
    | |- tidy (wrap _ _) => apply tidy_wrap
    | |- tidy (each _ _) => apply tidy_each
    | |- tidy (proxy_do _) => apply tidy_proxy_do; intros; first [apply live_sever | apply live_rewrite]
    | |- tidy (lift _) => apply tidy_lift; intros; apply live_write
    | |- tidy (match _ with _ => _ end) => case_match
    | |- tidy (refuse _ _) => apply tidy_refuse
    | |- tidy (when_event _ _) => apply tidy_when_event
    | |- _ => solve [eauto with tidy]
    end.

Section matrix.
Context {W : Type} {D : Driver W}.
Context (server : RunningServer) (proxyURL : string).
Local Abbreviation hstate := (@Harness.hstate W).
Local Abbreviation H := (@Harness.H W).

(** A result is the outcome of a run of the scenario in a directory of its own. *)
Definition outcome_of (flow : string → H unit) (pass : bool) (err : option herr) : Prop :=
  (pass = true ↔ err = None) ∧
  (pass = true → ∃ dir s s', flow dir s = (inr tt, s')).

Lemma attempt_outcome root pat flow s :
  let e := (attempt root pat flow s).1 in
  outcome_of flow (match e with None => true | Some _ => false end) e.
Proof.
  unfold attempt. destruct (d_mkdirTemp root pat (hw s)) as [[dir|] w]; [|done].
  destruct (flow dir _) as [[e|[]] s1] eqn:E; [done|]. split; [done|]. intros _. eauto.
Qed.

Definition pair_verdict (sdks : gmap string SDKDef) (r : pairResult) : Prop :=
  outcome_of (runPositiveFlow server proxyURL (sdk sdks (pr_a r)) (sdk sdks (pr_b r))) (pr_pass r) (pr_err r).

Lemma run_pairs_verdict sdks root l s :
  let '(rs, ok, _) := run_pairs server proxyURL sdks root l s in
  (λ r, (pr_a r, pr_b r)) <$> rs = l ∧ Forall (pair_verdict sdks) rs ∧ ok = forallb pr_pass rs.
Proof.
  revert s. induction l as [|[a b] l IH]; intros s; cbn [run_pairs]; [done|].
  pose proof (attempt_outcome root "pair-*" (runPositiveFlow server proxyURL (sdk sdks a) (sdk sdks b)) s) as Ha.
  destruct (attempt _ _ _ s) as [e s1]. specialize (IH s1).
  destruct (run_pairs _ _ _ _ l s1) as [[rs ok] s2]. destruct IH as (<- & Hf & ->).
  split_and!; [done| |done]. by constructor.
Qed.

Definition negative_verdict (sdks : gmap string SDKDef) (r : negativeResult) : Prop :=
  ∃ flow, (nr_scenario r, flow) ∈ negScenarios server proxyURL ∧
    outcome_of (flow (sdk sdks (nr_sdk r)) (sdk sdks (partner_of (nr_sdk r)))) (nr_pass r) (nr_err r).

Lemma run_negatives_verdict sdks root l s :
  Forall (λ x, x.2 ∈ negScenarios server proxyURL) l →
  let '(rs, ok, _) := run_negatives sdks root l s in
  (λ r, (nr_sdk r, nr_scenario r)) <$> rs = (λ x, (x.1, x.2.1)) <$> l ∧
  Forall (negative_verdict sdks) rs ∧ ok = forallb nr_pass rs.
Proof.
  intros Hl. revert s. induction Hl as [|[n [sc flow]] l Hx Hl IH]; intros s; cbn [run_negatives]; [done|].
  pose proof (attempt_outcome root "neg-*" (flow (sdk sdks n) (sdk sdks (partner_of n))) s) as Ha.
  destruct (attempt _ _ _ s) as [e s1]. specialize (IH s1).
  destruct (run_negatives _ _ l s1) as [[rs ok] s2]. destruct IH as (E & Hf & ->).
  split_and!; [by rewrite !fmap_cons, E| |done]. constructor; [by exists flow|done].
Qed.

(** The matrix's verdict is complete.  Its results are one for each of the fifteen pairs
    of SDKs (an SDK with itself included) and one for each SDK and negative scenario, in
    order; a result passes exactly if it has no error, and then its scenario ran to its
    end with that SDK and its partner; the verdict is positive exactly if every result
    passes. *)
Theorem matrix_verdict sdks root s :
  let '(prs, nrs, ok, _) := runMatrix server proxyURL sdks root s in
  (length prs = 15 ∧ length nrs = 15) ∧
  (λ r, (pr_a r, pr_b r)) <$> prs = pairs_of names ∧
  (λ r, (nr_sdk r, nr_scenario r)) <$> nrs =
    (n ← names; (λ sc, (n, sc)) <$> ["wrong_pin"; "key_rewrite"; "rekey_safety"]) ∧
  Forall (pair_verdict sdks) prs ∧ Forall (negative_verdict sdks) nrs ∧
  (ok = true ↔ Forall (λ r, pr_err r = None) prs ∧ Forall (λ r, nr_err r = None) nrs).
Proof.
  unfold runMatrix. pose proof (run_pairs_verdict sdks root (pairs_of names) s) as H1.
  destruct (run_pairs _ _ _ _ _ s) as [[prs ok1] s1]. destruct H1 as (E1 & F1 & ->).
  pose proof (run_negatives_verdict sdks root
    (n ← names; (λ sc, (n, sc)) <$> negScenarios server proxyURL) s1) as H2.
  destruct (run_negatives _ _ _ s1) as [[nrs ok2] s2]. destruct H2 as (E2 & F2 & ->).
  { repeat constructor; cbn [snd]; set_solver. }
  split_and!; [by rewrite <- (length_fmap (λ r, (pr_a r, pr_b r))), E1
              |by rewrite <- (length_fmap (λ r, (nr_sdk r, nr_scenario r))), E2|done..|].
  rewrite andb_true_iff, !forallb_forall, <- !List.Forall_forall.
  assert (∀ A (P : A → Prop) (f : A → bool) (g : A → option herr) l,
    Forall P l → (∀ x, P x → f x = true ↔ g x = None) →
    Forall (λ x, f x = true) l ↔ Forall (λ x, g x = None) l) as Hiff.
  { intros A P f g l Hl Hfg. induction Hl as [|x l Hx Hl IH]; [done|]. rewrite !Forall_cons, IH. by rewrite Hfg. }
  f_equiv.
  - apply (Hiff _ _ _ _ _ F1). intros r Hr. apply Hr.
  - apply (Hiff _ _ _ _ _ F2). by intros r (flow & _ & Hr & _).
Qed.

Section clean.
Context {P : ProcessLaws W}.

Lemma tidy_roundtrip a b ida idb n : tidy (roundtrip a b ida idb n).
Proof. unfold roundtrip. tidy. Qed.
Hint Resolve tidy_roundtrip : tidy.

Lemma tidy_positive aDef bDef dir : tidy (runPositiveFlow server proxyURL aDef bDef dir).
Proof. unfold runPositiveFlow. tidy. Qed.

Lemma tidy_wrong_pin v p dir : tidy (runWrongPinTest server proxyURL v p dir).
Proof. unfold runWrongPinTest. tidy. Qed.

Lemma tidy_key_rewrite v p dir : tidy (runKeyRewriteTest server proxyURL v p dir).
Proof. unfold runKeyRewriteTest. tidy. Qed.

Lemma tidy_ordered v p k n : tidy (ordered_pair server v p k n).
Proof. revert k. induction n; intros k; cbn [ordered_pair]; tidy. Qed.

Lemma tidy_rekey v p dir : tidy (runRekeySafetyTest server proxyURL v p dir).
Proof. unfold runRekeySafetyTest. apply tidy_bind; [apply tidy_ordered|]. intros [x y]. tidy. Qed.

Lemma attempt_tidy root pat (flow : string → H unit) s :
  (∀ dir, tidy (flow dir)) → live (attempt root pat flow s).2 ⊆ live s.
Proof.
  intros Hf. unfold attempt. pose proof (live_mkdirTemp root pat (hw s)) as Hm.
  destruct (d_mkdirTemp root pat (hw s)) as [[dir|] w]; [|done].
  specialize (Hf dir (HState w (backlogs s) (heard s))).
  destruct (flow dir _) as [[e|[]] s1]; cbn in *; by etrans.
Qed.

Lemma run_pairs_tidy sdks root l s : live (run_pairs server proxyURL sdks root l s).2 ⊆ live s.
Proof.
  revert s. induction l as [|[a b] l IH]; intros s; cbn [run_pairs]; [done|].
  pose proof (attempt_tidy root "pair-*" (runPositiveFlow server proxyURL (sdk sdks a) (sdk sdks b)) s
    (tidy_positive _ _)) as Ha.
  destruct (attempt _ _ _ s) as [e s1]. specialize (IH s1).
  destruct (run_pairs _ _ _ _ l s1) as [[rs ok] s2]. cbn in *. by etrans.
Qed.

Lemma run_negatives_tidy sdks root l s :
  Forall (λ x, ∀ v p dir, tidy (x.2.2 v p dir)) l → live (run_negatives sdks root l s).2 ⊆ live s.
Proof.
  intros Hl. revert s. induction Hl as [|[n [sc flow]] l Hx Hl IH]; intros s; cbn [run_negatives]; [done|].
  pose proof (attempt_tidy root "neg-*" (flow (sdk sdks n) (sdk sdks (partner_of n))) s (Hx _ _)) as Ha.
  destruct (attempt _ _ _ s) as [e s1]. specialize (IH s1).
  destruct (run_negatives _ _ l s1) as [[rs ok] s2]. cbn in *. by etrans.
Qed.

(** The harness leaves no process behind: whatever the shims do and wherever a scenario
    of the matrix returns early, every process the matrix has started has ended or been
    killed when it returns. *)
Theorem matrix_leaves_no_process sdks root s :
  live (runMatrix server proxyURL sdks root s).2 ⊆ live s.
Proof.
  unfold runMatrix. pose proof (run_pairs_tidy sdks root (pairs_of names) s) as H1.
  destruct (run_pairs _ _ _ _ _ s) as [[prs ok1] s1].
  pose proof (run_negatives_tidy sdks root
    (n ← names; (λ sc, (n, sc)) <$> negScenarios server proxyURL) s1) as H2.
  destruct (run_negatives _ _ _ s1) as [[nrs ok2] s2]. cbn in *. etrans; [apply H2|done].
  repeat constructor; cbn [fst snd]; auto using tidy_wrong_pin, tidy_key_rewrite, tidy_rekey.
Qed.
End clean.
End matrix.

(** ** Scripts that pass *)

Section scripts.
Local Abbreviation hstate := (@Harness.hstate script).
Implicit Types (s : hstate).

Definition fits_line (e : Event) : Prop :=
  sorted_map e ∧ Forall plain e ∧ (Z.of_nat (slen (MarshalMap e)) < maxLine)%Z.

Lemma eval_bind {A B} (m : H A) (f : A → H B) s x s1 r :
  m s = (inr x, s1) → f x s1 = r → (x ← m; f x) s = r.
Proof. unfold mbind, H_bind. by intros ->. Qed.

Lemma eval_wrap {A} what (m : H A) s x s1 : m s = (inr x, s1) → wrap what m s = (inr x, s1).
Proof. unfold wrap. by intros ->. Qed.

Lemma eval_with {A} m (body : Instance_ → H A) s i s1 x s2 :
  m s = (inr i, s1) → body i s1 = (inr x, s2) → with_instance m body s = (inr x, Close i s2).
Proof. intros E1 E2. unfold with_instance. eapply eval_bind; [done|]. unfold deferring. by rewrite E2. Qed.

Lemma eval_Send i c s : Send_ i c s = (inr tt, s).
Proof. by destruct s. Qed.

Lemma eval_wait i t pred s e rest :
  (0 < t)%Z → backlog (cmd i) s = [] → out (hw s) (cmd i) = MarshalMap e :: rest →
  fits_line e → pred e = true →
  WaitFor i t pred s = (inr e, hear (cmd i) e (set_backlog (cmd i) [] (on_world (d_take (cmd i) 1) s))).
Proof.
  intros Ht Hb Ho (Hs & Hp & Hl) Hpred. unfold WaitFor. rewrite Hb. cbn [find_event].
  rewrite decide_False by lia. cbn [d_lines script_driver]. rewrite Ho. cbn [readLoop].
  rewrite decide_True by done. destruct (readLoop rest false) as [evs b].
  cbn [await]. by rewrite map_round_trip, Hpred.
Qed.

(** A message a shim reports. *)
Definition said (sender : string) (n : Z) : Event :=
  [("event", JStr "message"); ("from", JStr sender); ("payload_b64", JStr (b64 (fillBytes n)))].

Lemma eval_roundtrip a b ida idb n s rest :
  let m := said ida n in
  backlog (cmd b) s = [] → out (hw s) (cmd b) = MarshalMap m :: rest → fits_line m →
  roundtrip a b ida idb n s =
    (inr tt, hear (cmd b) m (set_backlog (cmd b) [] (on_world (d_take (cmd b) 1) s))).
Proof.
  intros m Hb Ho Hf. unfold roundtrip. eapply eval_bind; [apply eval_Send|].
  eapply eval_bind; [apply (eval_wait b eventTimeout _ _ m rest); try done|].
  { unfold message_from, event_is. by rewrite !bool_decide_eq_true_2. }
  cbn [snd]. assert (decodeB64 (Str m "payload_b64") = Some (fillBytes n)) as ->
    by apply decode_encode_Base64.
  rewrite !bool_decide_eq_false_2 by (intros Hn; by apply Hn). done.
Qed.

Lemma fits_message sender n :
  valid_utf8 sender → (slen sender ≤ 100)%nat → (0 ≤ n ≤ 65519)%Z →
  fits_line (said sender n).
Proof.
  intros Hv Hs Hn.
  assert (Forall plain (said sender n)) as Hp.
  { repeat (apply Forall_cons; split); [split; cbn [fst snd]..|constructor].
    1, 2, 3, 5: valid_text. - done. - apply encodeBase64_valid. }
  split_and!; [by repeat constructor|done|].
  pose proof (MarshalMap_length _ Hp) as Hl. pose proof (encode64_length (chars (fillBytes n))) as He.
  assert (length (chars (fillBytes n)) = Z.to_nat n) as Hc.
  { unfold fillBytes. by rewrite chars_of_chars, length_fmap, length_seq. }
  assert (slen (b64 (fillBytes n)) ≤ 4 * Z.to_nat n)%nat as Hb.
  { unfold b64, encodeBase64. rewrite <- slen_chars, chars_of_chars. lia. }
  unfold said in Hl at 2. rewrite !fmap_cons, fmap_nil in Hl. cbn [fst snd sum_list] in Hl.
  change (slen "event") with 5%nat in Hl. change (slen "message") with 7%nat in Hl.
  change (slen "from") with 4%nat in Hl. change (slen "payload_b64") with 11%nat in Hl.
  unfold maxLine, id in *. generalize dependent (slen (MarshalMap (said sender n))).
  intros k Hl. lia.
Qed.

(** A reply of the REST interface. *)
Definition creds_reply (id : string) : bytes :=
  line [("device_id", JStr id); ("device_token", JStr "t")].

Lemma eval_register url name s id r rs :
  replies (hw s) = r :: rs → first_value r ≫= decode_creds = Some (MkCreds id "t") →
  registerDevice url name s =
    (inr (MkCreds id "t"),
     on_world (λ w, Script (next w) (out w) (alive w) rs (disk_files w)) s).
Proof.
  intros E1 E2. unfold registerDevice. eapply eval_bind.
  - unfold lift. cbn [d_post script_driver]. rewrite E1. reflexivity.
  - cbn iota. rewrite decide_False by (intros Hn; by apply Hn). by rewrite E2.
Qed.

Lemma eval_start url def dev store s e rest :
  let h := next (hw s) in
  backlog h s = [] → out (hw s) h = MarshalMap e :: rest → fits_line e → event_is "ready" e = true →
  start url def dev store s =
    (inr (MkInstance (sdk_Name def) h),
     hear h e (set_backlog h [] (on_world (λ w, d_take h 1
       (Script (S h) (out w) ({[h]} ∪ alive w) (replies w) (disk_files w))) s))).
Proof.
  intros h Hb Ho Hf He. unfold start, StartInstance. eapply eval_bind; [reflexivity|]. fold h.
  cbn iota. unfold await_ready.
  rewrite (eval_wait _ _ _ _ e rest); [|done|exact Hb|exact Ho|done|by rewrite He].
  assert (event_is "connect_error" e = false) as ->; [|done].
  unfold event_is in *. apply bool_decide_eq_true in He. by rewrite He.
Qed.

Lemma eval_pin path peer key s data m p :
  disk_files (hw s) !! path = Some data → UnmarshalPins data = Some (Some m) → m !! peer = Some p →
  StaticKey p = key → assertPinMatches path peer key s = (inr tt, s).
Proof.
  intros E1 E2 E3 E4. unfold assertPinMatches. eapply eval_bind.
  - apply eval_wrap. unfold readPinFile. cbn [d_read script_driver]. rewrite E1, E2. reflexivity.
  - cbn [default from_option id]. rewrite E3, bool_decide_eq_false_2 by (intros Hn; by apply Hn). done.
Qed.
End scripts.

Definition told (ev peer : string) : Event := [("event", JStr ev); ("peer_id", JStr peer)].
Definition ex_paired (peer key : string) : Event :=
  told "paired" peer ++ [("peer_public_key_b64", JStr key)].
Definition ex_status (peer : string) (online : bool) : Event :=
  [("event", JStr "peer_status"); ("online", JBool online); ("peer_id", JStr peer)].
Definition ex_ready : Event := [("event", JStr "ready")].
Definition ex_code : Event := [("code", JStr "123456"); ("event", JStr "pair_code")].

Abbreviation biggest := (maxMessageBytes - noiseEnvelopeOverhead)%Z.

(** What the two shims print in a positive flow. *)
Definition flow_lines (h : nat) : list bytes := MarshalMap <$>
  if decide (h = 0) then
    [ex_ready; ex_code; ex_paired "b" "kb"; told "ready_signal" "b"; said "b" 1; said "b" 1024; said "b" biggest;
     ex_status "b" false; ex_status "b" true; told "ready_signal" "b"; said "b" 64]
  else
    [ex_ready; ex_paired "a" "ka"; told "ready_signal" "a"; said "a" 1; said "a" 1024; said "a" biggest;
     told "ready_signal" "a"; said "a" 64].

Definition flow_script : script :=
  Script 0 flow_lines ∅ [creds_reply "a"; creds_reply "b"]
    {[ "w/a-peers.json" := seed_file "b" "kb"; "w/b-peers.json" := seed_file "a" "ka" ]}.

Definition ex_server : RunningServer := MkServer "http://h" "ws://h/ws".
Definition ex_sdk : SDKDef := MkSDKDef "go" "shim" [].

Ltac fits :=
  lazymatch goal with
  | |- fits_line (said _ _) => apply fits_message; [valid_text|vm_compute; lia|vm_compute; done]
  | |- _ => split_and!; 
      [by repeat constructor
      |repeat (apply Forall_cons; split; [split; cbn [fst snd]; [valid_text|first [exact I|valid_text]]|]); constructor
      |vm_compute; done]
  end.

Ltac eval_atom :=
  lazymatch goal with
  | |- registerDevice _ _ _ = _ => eapply eval_register; [reflexivity|vm_compute; reflexivity]
  | |- start _ _ _ _ _ = _ => eapply eval_start; [reflexivity..|fits|reflexivity]
  | |- request_pair_code _ _ = _ => apply eval_Send
  | |- accept_pair _ _ _ = _ => apply eval_Send
  | |- when_event _ _ _ = _ => eapply eval_wait; [done|reflexivity..|fits|reflexivity]
  | |- roundtrip _ _ _ _ _ _ = _ => eapply eval_roundtrip; [reflexivity..|fits]
  | |- assertPinMatches _ _ _ _ = _ => eapply eval_pin; [reflexivity|vm_compute; reflexivity|reflexivity..]
  | |- refuse _ _ _ = _ => reflexivity
  | |- proxy_do _ _ = _ => reflexivity
  | |- mret _ _ = _ => reflexivity
  end.

Ltac eval_run :=
  repeat lazymatch goal with
  | |- (_ ≫= _) _ = _ => eapply eval_bind
  | |- wrap _ _ _ = _ => eapply eval_wrap
  | |- with_instance _ _ _ = _ => eapply eval_with
  | |- each _ _ _ = _ => cbn [each]
  | |- _ => eval_atom
  end.

Lemma flow_passes :
  ∃ s', runPositiveFlow ex_server "ws://p/ws" ex_sdk ex_sdk "w" (HState flow_script ∅ []) = (inr tt, s').
Proof. eexists. unfold runPositiveFlow. eval_run. Qed.

Lemma positive_flow_sound_witness :
  ∃ s s', runPositiveFlow ex_server "ws://p/ws" ex_sdk ex_sdk "w" s = (inr tt, s') ∧
  ∃ a b ida idb ka kb s1,
    transcript (flow_pairing a b ida idb ka kb) s s1 ∧
    pinned_in s1 (JoinPath "w" "a-peers.json") idb kb ∧
    pinned_in s1 (JoinPath "w" "b-peers.json") ida ka ∧
    transcript (flow_messages a b ida idb) s1 s'.
Proof.
  destruct flow_passes as [s' E]. exists (HState flow_script ∅ []), s'. split; [exact E|].
  exact (positive_flow_sound ex_server "ws://p/ws" ex_sdk ex_sdk "w" _ tt s' E).
Defined.

(** The shims of a refused pairing and of a rekeying. *)
Definition refused_script : script :=
  Script 0 (λ h, MarshalMap <$>
      if decide (h = 0) then [ex_ready; ex_code] else [ex_ready; [("event", JStr "pair_error")]])
    ∅ [creds_reply "a"; creds_reply "b"] ∅.

Definition rekey_script : script :=
  Script 0 (λ h, MarshalMap <$>
      if decide (h = 0) then
        [ex_ready; ex_code; ex_paired "p" "kp"; told "ready_signal" "p"; told "ready_signal" "p"; said "p" 32]
      else
        [ex_ready; ex_paired "v" "kv"; told "ready_signal" "v"; ex_status "v" false; ex_status "v" true;
         told "ready_signal" "v"; said "v" 32])
    ∅ [creds_reply "a"; creds_reply "b"; creds_reply "v"; creds_reply "p"] ∅.

Definition passed {A} (r : (herr + A) * @hstate script) : bool :=
  match r.1 with inr _ => true | inl _ => false end.

Lemma passed_inv (r : (herr + unit) * @hstate script) : passed r = true → r = (inr tt, r.2).
Proof. by destruct r as [[e|[]] s]. Qed.

Lemma negative_scenarios_sound_witness :
  let s := HState refused_script ∅ [] in
  let s2 := HState rekey_script ∅ [] in
  (∃ a b ida s1 (s' : @hstate script), transcript (flow_refused a b) s s1 ∧ heard s' = heard s1 ∧
     ∃ data m, d_read (JoinPath "w" "b-peers.json") (hw s1) = Some data ∧
       UnmarshalPins data = Some (Some m) ∧ StaticKey <$> m !! ida = Some (b64 (fillBytes 32))) ∧
  (∃ a b s', transcript (flow_refused a b) s s') ∧
  (∃ v p idv idp s', String.ltb idp idv = true ∧ transcript (flow_rekey v p idv idp) s2 s').
Proof.
  intros s s2. split_and!.
  - assert (passed (runWrongPinTest ex_server "ws://p/ws" ex_sdk ex_sdk "w" s) = true) as E%passed_inv
      by (vm_compute; reflexivity).
    destruct (proj1 (negative_scenarios_sound ex_server "ws://p/ws" ex_sdk ex_sdk "w" s tt _) E)
      as (a & b & ida & s1 & H1). exists a, b, ida, s1. eexists. exact H1.
  - assert (passed (runKeyRewriteTest ex_server "ws://p/ws" ex_sdk ex_sdk "w" s) = true) as E%passed_inv
      by (vm_compute; reflexivity).
    destruct (proj1 (proj2 (negative_scenarios_sound ex_server "ws://p/ws" ex_sdk ex_sdk "w" s tt _)) E)
      as (a & b & H1). exists a, b. eexists. exact H1.
  - assert (passed (runRekeySafetyTest ex_server "ws://p/ws" ex_sdk ex_sdk "w" s2) = true) as E%passed_inv
      by (vm_compute; reflexivity).
    destruct (proj2 (proj2 (negative_scenarios_sound ex_server "ws://p/ws" ex_sdk ex_sdk "w" s2 tt _)) E)
      as (v & p & idv & idp & H1). exists v, p, idv, idp. eexists. exact H1.
Defined.

#[export] Program Instance script_processes : ProcessLaws script := {| d_live := alive |}.
Solve Obligations with (cbn; intros; first [done | set_solver | by case_match]).

Lemma matrix_leaves_no_process_witness :
  live (runMatrix ex_server "ws://p/ws" (list_to_map ((λ n, (n, ex_sdk)) <$> names)) "tmp"
          (HState refused_script ∅ [])).2 ⊆ live (HState refused_script ∅ []).
Proof. exact (matrix_leaves_no_process ex_server "ws://p/ws" _ _ _). Defined.
