(* ===== verification/HarnessRun.v ===== *)
(** * A whole run of the harness (src/interop/harness/main.go, server.go, matrix.go)

    Building the server and the shims, starting the server, waiting for it, running the
    matrix through the proxy, printing the summary, and the deferred clean-ups.  What
    [Harness.Driver] does not cover (the tool chain, the server's process, the proxy, the
    clock, the terminal) is the class [Toolbox]. *)

From S2P Require Import Prelude Keys Json AnyJson Wire PeerStore PeerFile Harness Scenarios ScenarioFacts.

Class Toolbox (W : Type) := {
  t_caller : option string;                                     (* [runtime.Caller(0)] *)
  t_stat : string → W → bool;                                   (* [os.Stat] succeeds *)
  t_mkdirAll : string → W → bool * W;
  t_removeAll : string → W → W;
  (** [exec.Command(...).Run()]: directory, program, arguments. *)
  t_run : string → string → list string → W → bool * W;
  (** [exec.Command(...).Start()] with additional environment variables. *)
  t_spawn : string → list string → list string → W → option nat * W;
  (** [net.Listen("tcp", "127.0.0.1:0")], the port, and [Close]. *)
  t_freePort : W → option Z * W;
  t_get : string → W → option Z * W;                            (* [http.Get]: the status *)
  t_now : W → Z;
  t_sleep : Z → W → W;
  t_newProxy : string → W → option string * W;                  (* the proxy's URL *)
  t_closeProxy : string → W → W;
  t_print : string → W → W
}.

Definition JoinAll (l : list string) : string :=
  match l with [] => "" | a :: l => foldl JoinPath a l end.

Section run.
Context {W : Type} {D : Driver W} {T : Toolbox W}.
Local Abbreviation hstate := (@Harness.hstate W).
Local Abbreviation H := (@Harness.H W).

(** A call that may fail. *)
Definition must (what : string) (f : W → bool * W) : H unit :=
  ok ← lift f; if ok : bool then mret tt else fail (Failed what).

Definition must_get {A} (what : string) (f : W → option A * W) : H A :=
  r ← lift f; match r with Some x => mret x | None => fail (Failed what) end.

Definition println (text : string) : H unit := lift (λ w, (tt, t_print text w)).

(** ** server.go *)

Definition repoRoot : H string := λ s,
  match t_caller with
  | None => (inl (Failed "could not determine source file location"), s)
  | Some thisFile =>
      let root := Dir (Dir (Dir thisFile)) in
      if t_stat (JoinPath root "go.mod") (hw s) then (inr root, s)
      else (inl (Failed ("could not locate repository root from " +:+ thisFile)), s)
  end.

Definition buildServerBinary (root outDir : string) : H string :=
  let binPath := JoinPath outDir "relayly-server" in
  _ ← must "building server" (t_run root "go" ["build"; "-o"; binPath; "./cmd/relayly"]);
  mret binPath.

Definition freePort : H Z := must_get "listen" t_freePort.

(** The server's process and its addresses. *)
Definition Stop (h : nat) (s : hstate) : hstate := on_world (d_reap h ∘ d_kill h) s.

Definition pollInterval : Z := 50 * 1000000.

(** The loop of [waitForHealth]; the fuel stands for its turns. *)
Fixpoint health_loop (fuel : nat) (baseURL : string) (deadline : Z) : H unit := λ s,
  match fuel with
  | O => (inl (Failed "out of fuel"), s)
  | S fuel =>
      if decide (t_now (hw s) < deadline)%Z then
        let '(r, w) := t_get (baseURL +:+ "/health") (hw s) in
        let s := HState w (backlogs s) (heard s) in
        if decide (r = Some 200%Z) then (inr tt, s)
        else health_loop fuel baseURL deadline (on_world (t_sleep pollInterval) s)
      else (inl (Failed "server did not become healthy"), s)
  end.

Definition health_turns (timeout : Z) : nat := S (Z.to_nat (timeout / pollInterval + 1)).

Definition waitForHealth (baseURL : string) (timeout : Z) : H unit := λ s,
  health_loop (health_turns timeout) baseURL (t_now (hw s) + timeout) s.

(** The end of [startServer]: the process is killed unless it becomes healthy. *)
Definition await_healthy (h : nat) (server : RunningServer) : H (nat * RunningServer) := λ s,
  match waitForHealth (BaseURL server) (10 * Second) s with
  | (inl e, s) => (inl e, on_world (d_kill h) s)
  | (inr _, s) => (inr (h, server), s)
  end.

Definition startServer (binPath dbDir : string) : H (nat * RunningServer) :=
  port ← freePort;
  let dbPath := JoinPath dbDir "relayly.db" in
  h ← must_get "starting server"
        (t_spawn binPath ["start"; "--host"; "127.0.0.1"; "--port"; pretty port; "--db.path"; dbPath]
           ["RELAYLY_WS_RATE_LIMIT_MAX=1000"; "RELAYLY_WS_RATE_LIMIT_WINDOW_SECONDS=60"]);
  await_healthy h (MkServer ("http://127.0.0.1:" +:+ pretty port) ("ws://127.0.0.1:" +:+ pretty port +:+ "/ws")).

(** ** matrix.go *)

Definition runIn (dir name : string) (args : list string) (what : string) : H unit := must what (t_run dir name args).

Definition prepareSDKs (root buildDir : string) : H (gmap string SDKDef) :=
  let goBin := JoinPath buildDir "go-shim" in
  let goShimDir := JoinAll [root; "interop"; "clients"; "go"] in
  _ ← runIn goShimDir "go" ["build"; "-o"; goBin; "."] "building go shim";
  let defs := <["go" := MkSDKDef "go" goBin []]> ∅ in
  let rustDir := JoinAll [root; "interop"; "clients"; "rust"] in
  _ ← runIn rustDir "cargo" ["build"] "building rust shim";
  let defs := <["rust" := MkSDKDef "rust" (JoinAll [rustDir; "target"; "debug"; "interop-shim-rust"]) []]> defs in
  let tsDir := JoinAll [root; "interop"; "clients"; "ts"] in
  let tsxBin := JoinAll [tsDir; "node_modules"; ".bin"; "tsx"] in
  _ ← must "ts shim not ready" (λ w, (t_stat tsxBin w, w));
  let defs := <["ts" := MkSDKDef "ts" tsxBin [JoinPath tsDir "shim.ts"]]> defs in
  let pyShim := JoinAll [root; "interop"; "clients"; "py"; "shim.py"] in
  _ ← must "py shim not ready" (t_run "" "python3" ["-c"; "import relayly"]);
  let defs := <["py" := MkSDKDef "py" "python3" [pyShim]]> defs in
  let cppDir := JoinAll [root; "interop"; "clients"; "cpp"] in
  let cppBuildDir := JoinPath buildDir "cpp-build" in
  _ ← runIn cppDir "cmake" ["-S"; "."; "-B"; cppBuildDir; "-DCMAKE_BUILD_TYPE=Release"] "configuring cpp shim";
  _ ← runIn cppDir "cmake" ["--build"; cppBuildDir; "-j"; "4"] "building cpp shim";
  mret (<["cpp" := MkSDKDef "cpp" (JoinPath cppBuildDir "relayly-interop-shim-cpp") []]> defs).

(** [%-4s] and the like. *)
Definition pad (n : nat) (s : string) : string := s +:+ of_chars (replicate (n - slen s) " "%char).

Fixpoint herr_text (e : herr) : string :=
  match e with Failed what => what | Because what e => what +:+ ": " +:+ herr_text e end.

Definition errString (e : option herr) : string := from_option herr_text "" e.

Definition verdict (pass : bool) : string := if pass then "PASS" else "FAIL".

Definition printSummary (prs : list pairResult) (nrs : list negativeResult) : list string :=
  ["";
   "=== Positive flow (register, pair, roundtrip, reconnect+rekey) ==="] ++
  (r ← prs;
   ("  " +:+ pad 4 (pr_a r) +:+ " x " +:+ pad 4 (pr_b r) +:+ "  " +:+ verdict (pr_pass r)) ::
   (if pr_pass r then [] else ["           " +:+ errString (pr_err r)])) ++
  ["";
   "=== Negative scenarios (each SDK once, in the victim role) ==="] ++
  (r ← nrs;
   ("  " +:+ pad 14 (nr_scenario r) +:+ " " +:+ pad 4 (nr_sdk r) +:+ "  " +:+ verdict (nr_pass r)) ::
   (if nr_pass r then [] else ["                       " +:+ errString (nr_err r)])) ++
  [""].

(** ** main.go *)

(** From the running server on. *)
Definition run_matrix (server : RunningServer) (sdks : gmap string SDKDef) (tmpRoot : string) : H unit :=
  proxyURL ← must_get "proxy" (t_newProxy (WSURL server));
  deferring (on_world (t_closeProxy proxyURL)) (λ s,
    let s := on_world (t_print "Running interop matrix...") s in
    let '(prs, nrs, allOK, s) := runMatrix server proxyURL sdks tmpRoot s in
    let s := on_world (λ w, foldl (λ w line, t_print line w) w (printSummary prs nrs)) s in
    if allOK then println "All interop scenarios passed." s
    else (inl (Failed "one or more interop scenarios failed"), s)).

Definition run_in (root tmpRoot : string) : H unit :=
  let buildDir := tmpRoot +:+ "/build" in
  _ ← must "mkdir" (t_mkdirAll buildDir);
  _ ← println "Building server...";
  serverBin ← buildServerBinary root buildDir;
  _ ← println "Preparing SDK shims...";
  sdks ← prepareSDKs root buildDir;
  _ ← println "Starting server...";
  let dbDir := tmpRoot +:+ "/db" in
  _ ← must "mkdir" (t_mkdirAll dbDir);
  '(h, server) ← startServer serverBin dbDir;
  deferring (Stop h) (run_matrix server sdks tmpRoot).

Definition run : H unit :=
  root ← repoRoot;
  tmpRoot ← must_get "mkdir" (d_mkdirTemp "" "relayly-interop-");
  deferring (on_world (t_removeAll tmpRoot)) (run_in root tmpRoot).

(** The exit status of [main]. *)
Definition main (s : hstate) : Z * hstate :=
  match run s with (inl _, s) => (1%Z, s) | (inr _, s) => (0%Z, s) end.
End run.

(** ** Properties *)

(** What the operating system promises about the calls of [Toolbox]. *)
Class ToolboxLaws (W : Type) `{ProcessLaws W} {T : Toolbox W} := {
  tl_mkdirAll p w : d_live (t_mkdirAll p w).2 ⊆ d_live w;
  tl_removeAll p w : d_live (t_removeAll p w) ⊆ d_live w;
  tl_run d p args w : d_live (t_run d p args w).2 ⊆ d_live w;
  tl_spawn p args env w : match t_spawn p args env w with
    | (Some h, w') => d_live w' ⊆ {[h]} ∪ d_live w
    | (None, w') => d_live w' ⊆ d_live w
    end;
  tl_freePort w : d_live (t_freePort w).2 ⊆ d_live w;
  tl_get u w : d_live (t_get u w).2 ⊆ d_live w;
  tl_sleep d w : d_live (t_sleep d w) ⊆ d_live w;
  tl_newProxy u w : d_live (t_newProxy u w).2 ⊆ d_live w;
  tl_closeProxy u w : d_live (t_closeProxy u w) ⊆ d_live w;
  tl_print l w : d_live (t_print l w) ⊆ d_live w
}.

(** ... and about its clock. *)
Class ClockLaws (W : Type) {T : Toolbox W} := {
  cl_get u w : (t_now w ≤ t_now (t_get u w).2)%Z;
  cl_sleep d w : (t_now w + d ≤ t_now (t_sleep d w))%Z
}.

Section facts.
Context {W : Type} {D : Driver W} {P : ProcessLaws W} {T : Toolbox W} {L : ToolboxLaws W}.
Local Abbreviation hstate := (@Harness.hstate W).
Local Abbreviation H := (@Harness.H W).

Lemma tidy_must what (f : W → bool * W) : (∀ w, d_live (f w).2 ⊆ d_live w) → tidy (must what f).
Proof. intros Hf. apply tidy_bind; [by apply tidy_lift|]. intros []; auto with tidy. Qed.

Lemma tidy_must_get {A} what (f : W → option A * W) : (∀ w, d_live (f w).2 ⊆ d_live w) → tidy (must_get what f).
Proof. intros Hf. apply tidy_bind; [by apply tidy_lift|]. intros []; auto with tidy. Qed.

Lemma tidy_println text : tidy (println text).
Proof. apply tidy_lift. intros w. apply tl_print. Qed.

Lemma tidy_deferring {A} cleanup (m : H A) :
  (∀ s, live (cleanup s) ⊆ live s) → tidy m → tidy (deferring cleanup m).
Proof. intros Hc Hm s. unfold deferring. specialize (Hm s). destruct (m s) as [r s1]. cbn in *. etrans; [apply Hc|done]. Qed.

Lemma health_tidy fuel url deadline : tidy (health_loop fuel url deadline).
Proof.
  induction fuel as [|fuel IH]; intros s; cbn [health_loop]; [done|]. case_decide; [|done].
  pose proof (tl_get (url +:+ "/health") (hw s)) as Hg. destruct (t_get _ _) as [r w].
  case_decide; [done|]. etrans; [apply IH|]. unfold live in *. cbn in *. etrans; [apply tl_sleep|done].
Qed.

(** A server that is started is the only process left, and only if it is returned. *)
Lemma startServer_live bin dir s :
  match startServer bin dir s with
  | (inr (h, _), s') => live s' ⊆ {[h]} ∪ live s
  | (inl _, s') => live s' ⊆ live s
  end.
Proof.
  unfold startServer, freePort, must_get, mbind, H_bind, lift.
  pose proof (tl_freePort (hw s)) as Hp. destruct (t_freePort (hw s)) as [[port|] w1]; [|done].
  cbn [mret H_ret hw]. match goal with |- context [t_spawn ?b ?a ?e ?w] => pose proof (tl_spawn b a e w) as Hs; destruct (t_spawn b a e w) as [[h|] w2] end.
  2: { unfold live in *. cbn in *. set_solver. }
  cbn [mret H_ret]. unfold await_healthy, waitForHealth. set (s2 := HState w2 _ _).
  pose proof (health_tidy (health_turns (10 * Second)) ("http://127.0.0.1:" +:+ pretty port)
    (t_now (hw s2) + 10 * Second) s2) as Hh. cbn [BaseURL].
  destruct (health_loop _ _ _ s2) as [[e|u] s3].
  - pose proof (live_kill h (hw s3)). unfold live in *. cbn in *. set_solver.
  - unfold live in *. cbn in *. set_solver.
Qed.

Lemma tidy_prepareSDKs root dir : tidy (prepareSDKs root dir).
Proof.
  unfold prepareSDKs, runIn. repeat (apply tidy_bind; [apply tidy_must; intros w; first [apply tl_run|done]|intros _]).
  apply tidy_ret.
Qed.

Lemma live_prints lines (s : hstate) : live (on_world (λ w, foldl (λ w line, t_print line w) w lines) s) ⊆ live s.
Proof.
  unfold live, on_world. cbn [hw]. generalize (hw s). induction lines as [|l lines IH]; intros w; [done|]. cbn [foldl].
  etrans; [apply IH|]. apply tl_print.
Qed.

Lemma tidy_run_matrix server sdks root : tidy (run_matrix server sdks root).
Proof.
  apply tidy_bind; [apply tidy_must_get; intros; apply tl_newProxy|]. intros url.
  apply tidy_deferring; [intros s; apply tl_closeProxy|]. intros s. cbv zeta.
  set (s0 := on_world _ s). assert (live s0 ⊆ live s) as H0 by apply tl_print.
  pose proof (matrix_leaves_no_process server url sdks root s0) as Hm.
  destruct (runMatrix server url sdks root s0) as [[[prs nrs] ok] s1]. cbn [snd] in Hm.
  pose proof (live_prints (printSummary prs nrs) s1) as H1. set (s2 := on_world _ s1) in *.
  destruct ok; [|cbn; set_solver]. pose proof (tidy_println "All interop scenarios passed." s2). set_solver.
Qed.

Lemma tidy_run_in root tmp : tidy (run_in root tmp).
Proof.
  unfold run_in, buildServerBinary. cbv zeta.
  apply tidy_bind; [apply tidy_must; intros; apply tl_mkdirAll|]. intros _.
  apply tidy_bind; [apply tidy_println|]. intros _.
  apply tidy_bind; [apply tidy_bind; [apply tidy_must; intros; apply tl_run|intros _; apply tidy_ret]|]. intros bin.
  apply tidy_bind; [apply tidy_println|]. intros _.
  apply tidy_bind; [apply tidy_prepareSDKs|]. intros sdks.
  apply tidy_bind; [apply tidy_println|]. intros _.
  apply tidy_bind; [apply tidy_must; intros; apply tl_mkdirAll|]. intros _.
  intros s. unfold mbind, H_bind. pose proof (startServer_live bin (tmp +:+ "/db") s) as Hs.
  destruct (startServer _ _ s) as [[e|[h server]] s1]; [done|]. unfold deferring.
  pose proof (tidy_run_matrix server sdks tmp s1) as Hm. destruct (run_matrix server sdks tmp s1) as [r s2].
  cbn [snd] in *. unfold Stop, live in *. cbn [hw on_world compose].
  pose proof (live_reap h (d_kill h (hw s2))). pose proof (live_kill h (hw s2)). set_solver.
Qed.

(** A run of the harness leaves nothing behind.  Wherever it stops (a tool is missing, a shim does not
    build, the server does not start or does not answer, a scenario fails), every process it started has ended
    or been killed, and removing its temporary directory is the last thing it does. *)
Theorem run_leaves_nothing s :
  live (run s).2 ⊆ live s ∧
  ∀ root tmp w, repoRoot s = (inr root, s) → d_mkdirTemp "" "relayly-interop-" (hw s) = (Some tmp, w) →
    ∃ w', hw (run s).2 = t_removeAll tmp w'.
Proof.
  split.
  - apply (tidy_bind repoRoot).
    { intros s0. unfold repoRoot. destruct t_caller; [|done]. by destruct (t_stat _ _). }
    intros root. apply tidy_bind; [apply tidy_must_get; intros; apply live_mkdirTemp|]. intros tmp.
    apply tidy_deferring; [intros s0; apply tl_removeAll|apply tidy_run_in].
  - intros root tmp w Hr Hm. unfold run, must_get, mbind, H_bind, lift. rewrite Hr, Hm. cbn [mret H_ret].
    unfold deferring. destruct (run_in root tmp _) as [r s2]. by eexists.
Qed.

(** The set-up defines every SDK the matrix uses. *)
Lemma prepared_names root dir s defs s' :
  prepareSDKs root dir s = (inr defs, s') → Forall (λ n, ∃ d, defs !! n = Some d ∧ sdk_Name d = n) names.
Proof.
  unfold prepareSDKs. intros E.
  repeat (apply bind_inv in E as (? & ? & _ & E)). injection E as <- _.
  repeat constructor; eexists; (split; [by simplify_map_eq|done]).
Qed.
End facts.

Section clock.
Context {W : Type} {D : Driver W} {T : Toolbox W} {C : ClockLaws W}.
Local Abbreviation hstate := (@Harness.hstate W).

Lemma health_loop_ends fuel url deadline (s : hstate) :
  (deadline - t_now (hw s) ≤ (Z.of_nat fuel - 1) * pollInterval)%Z → 0 < fuel →
  match health_loop fuel url deadline s with
  | (inr _, s') => True
  | (inl e, s') => e = Failed "server did not become healthy" ∧ (deadline ≤ t_now (hw s'))%Z
  end.
Proof.
  revert s. induction fuel as [|fuel IH]; intros s Hf Hpos; [lia|]. cbn [health_loop]. case_decide; [|by split; [|lia]].
  pose proof (cl_get (url +:+ "/health") (hw s)) as Hg. destruct (t_get _ _) as [r w]. case_decide; [done|].
  cbn [snd] in Hg. set (s1 := on_world _ _).
  assert (t_now (hw s) + pollInterval ≤ t_now (hw s1))%Z as Hs.
  { unfold s1. cbn. pose proof (cl_sleep pollInterval w). lia. }
  apply IH; unfold pollInterval in *; lia.
Qed.

(** Waiting for the server ends.  Within 50 ms steps the loop either sees the server answer 200 or gives up
    when, and only when, its time has passed: the number of turns the model allows is enough. *)
Theorem health_wait_ends url timeout (s : hstate) :
  (0 ≤ timeout)%Z →
  match waitForHealth url timeout s with
  | (inr _, s') => True
  | (inl e, s') => e = Failed "server did not become healthy" ∧ (t_now (hw s) + timeout ≤ t_now (hw s'))%Z
  end.
Proof.
  intros Ht. unfold waitForHealth. apply health_loop_ends; unfold health_turns; [|lia].
  unfold pollInterval. pose proof (Z.div_pos timeout (50 * 1000000) Ht ltac:(lia)).
  pose proof (Z.mul_succ_div_gt timeout (50 * 1000000) ltac:(lia)). lia.
Qed.
End clock.

(** ** Concrete runs *)

(** A machine with every tool, whose processes are those of a script. *)
#[export] Instance script_tools : Toolbox script := {
  t_caller := Some "/src/interop/harness/server.go";
  t_stat _ _ := true;
  t_mkdirAll _ w := (true, w);
  t_removeAll _ w := w;
  t_run _ _ _ w := (true, w);
  t_spawn p args _ w := d_start p args w;
  t_freePort w := (Some 9000%Z, w);
  t_get _ w := (Some 200%Z, w);
  t_now _ := 0%Z;
  t_sleep _ w := w;
  t_newProxy _ w := (Some "ws://p/ws", w);
  t_closeProxy _ w := w;
  t_print _ w := w
}.

#[export] Program Instance script_tools_laws : ToolboxLaws script.
Solve Obligations with (cbn; intros; first [done | set_solver | by case_match]).

Lemma run_leaves_nothing_witness :
  repoRoot (HState refused_script ∅ []) = (inr "/src", HState refused_script ∅ []) ∧
  live (run (HState refused_script ∅ [])).2 ⊆ live (HState refused_script ∅ []).
Proof. split; [reflexivity|]. exact (proj1 (run_leaves_nothing (HState refused_script ∅ []))). Defined.

(** A clock, and a server that never answers. *)
#[export] Instance clock_tools : Toolbox Z := {
  t_caller := None;
  t_stat _ _ := false;
  t_mkdirAll _ w := (false, w);
  t_removeAll _ w := w;
  t_run _ _ _ w := (false, w);
  t_spawn _ _ _ w := (None, w);
  t_freePort w := (None, w);
  t_get _ w := (None, (w + 1)%Z);
  t_now w := w;
  t_sleep d w := (w + d)%Z;
  t_newProxy _ w := (None, w);
  t_closeProxy _ w := w;
  t_print _ w := w
}.

#[export] Instance clock_laws : ClockLaws Z.
Proof. split; cbn; intros; lia. Qed.

Lemma health_wait_ends_witness :
  match waitForHealth "http://127.0.0.1:1" (10 * Second) (HState 7%Z ∅ []) with
  | (inl e, s') => e = Failed "server did not become healthy" ∧ (7 + 10 * Second ≤ hw s')%Z
  | (inr _, _) => True
  end.
Proof. exact (health_wait_ends "http://127.0.0.1:1" (10 * Second) (HState 7%Z ∅ []) ltac:(done)). Defined.
