(* ===== verification/Sdk.v ===== *)
(** * The Go client (src/sdk/go/client.go, peer.go, options.go, pairing.go)

    [Client] is the state the client's goroutines share.  The read loop is one goroutine,
    so the handlers it calls run one after the other; each is a function on the state, as
    are the calls a user makes.  Sessions are heap objects ([sessions]), because a
    [peerConn] compares pointers to them and the resolution of a handshake changes the
    session its peer holds.  [sends] is the sequence of frames handed to the write loop,
    [results] what each pairing channel was sent.  Randomness, time and the outcome of
    saving the peer store are inputs. *)

From S2P Require Import Prelude Keys Json Wire SendQueue Noise PeerStore.

Definition unsolicitedMsg1MinInterval : Z := 2 * Second.
Definition DefaultReconnectDelay : Z := Second.
Definition DefaultMaxReconnectDelay : Z := 60 * Second.

Record outFrame := OutFrame { of_kind : msgKind; of_data : bytes }.

Definition controlFrame (m : controlMessage) : outFrame := OutFrame TextMessage (Marshal m).

Abbreviation sref := nat.
Abbreviation chan := nat.

Record peerConn := PeerConn {
  pc_id : string;
  announcedStaticKey : string;
  active : option sref;
  pending : option sref;
  firstPairWaiter : option chan;
  lastUnsolicitedMsg1 : option Z        (* [None] is the zero time *)
}.

Definition newPeerConn (id announced : string) : peerConn :=
  PeerConn id announced None None None None.

Definition setFirstPairWaiter (ch : chan) (p : peerConn) : peerConn :=
  PeerConn (pc_id p) (announcedStaticKey p) (active p) (pending p) (Some ch) (lastUnsolicitedMsg1 p).

Definition clearFirstPairWaiter (p : peerConn) : peerConn :=
  PeerConn (pc_id p) (announcedStaticKey p) (active p) (pending p) None (lastUnsolicitedMsg1 p).

Definition set_active (s : option sref) (p : peerConn) : peerConn :=
  PeerConn (pc_id p) (announcedStaticKey p) s (pending p) (firstPairWaiter p) (lastUnsolicitedMsg1 p).

Definition set_pending (s : option sref) (p : peerConn) : peerConn :=
  PeerConn (pc_id p) (announcedStaticKey p) (active p) s (firstPairWaiter p) (lastUnsolicitedMsg1 p).

Definition set_last (t : Z) (p : peerConn) : peerConn :=
  PeerConn (pc_id p) (announcedStaticKey p) (active p) (pending p) (firstPairWaiter p) (Some t).

Record pairWaiter := PairWaiter { pw_ch : chan; weAreAcceptor : bool }.

Record PairResult := MkPairResult {
  pr_Code : string;
  pr_ExpiresIn : Z;
  pr_PeerID : string;
  pr_PeerPublicKey : PublicKey;
  pr_Error : option sdkerr
}.

Definition failed_result (e : sdkerr) : PairResult := MkPairResult "" 0 "" "" (Some e).

Record Message := MkMessage { From : string; Payload : bytes; Timestamp : Z }.

Inductive callback := OnReady (peerID : string) | OnPeerStatus (peerID : string) (online : bool).

Definition messagesCapacity : nat := 64.

(** Inputs of one turn of the read loop or one call. *)
Record input := Input {
  in_now : Z;
  in_seed : bytes;          (* for a handshake that is started *)
  in_saved : bool;          (* the peer store can be saved *)
  in_stamp : string;
  in_pick : nat             (* which entry ranging over a map yields first *)
}.

Section client.
Context `{NoiseLib}.

Record Client := MkClient {
  opt_DeviceID : string;
  opt_PrivateKey : PrivateKey;
  peerStore : PeerStore;
  peers : gmap string peerConn;
  sessions : gmap sref noiseSession;
  messages : list Message;
  sends : list outFrame;
  pairWaiters : gmap string pairWaiter;
  results : gmap chan (list PairResult);
  callbacks : list callback
}.

Definition with_store ps c := MkClient (opt_DeviceID c) (opt_PrivateKey c) ps (peers c) (sessions c)
  (messages c) (sends c) (pairWaiters c) (results c) (callbacks c).
Definition with_peers m c := MkClient (opt_DeviceID c) (opt_PrivateKey c) (peerStore c) m (sessions c)
  (messages c) (sends c) (pairWaiters c) (results c) (callbacks c).
Definition with_sessions m c := MkClient (opt_DeviceID c) (opt_PrivateKey c) (peerStore c) (peers c) m
  (messages c) (sends c) (pairWaiters c) (results c) (callbacks c).
Definition with_messages l c := MkClient (opt_DeviceID c) (opt_PrivateKey c) (peerStore c) (peers c)
  (sessions c) l (sends c) (pairWaiters c) (results c) (callbacks c).
Definition with_sends l c := MkClient (opt_DeviceID c) (opt_PrivateKey c) (peerStore c) (peers c)
  (sessions c) (messages c) l (pairWaiters c) (results c) (callbacks c).
Definition with_waiters m c := MkClient (opt_DeviceID c) (opt_PrivateKey c) (peerStore c) (peers c)
  (sessions c) (messages c) (sends c) m (results c) (callbacks c).
Definition with_results m c := MkClient (opt_DeviceID c) (opt_PrivateKey c) (peerStore c) (peers c)
  (sessions c) (messages c) (sends c) (pairWaiters c) m (callbacks c).
Definition with_callbacks l c := MkClient (opt_DeviceID c) (opt_PrivateKey c) (peerStore c) (peers c)
  (sessions c) (messages c) (sends c) (pairWaiters c) (results c) l.

(** *** Small operations *)

Definition getPeerConn (id : string) (c : Client) : option peerConn := peers c !! id.
Definition setPeerConn (id : string) (p : peerConn) (c : Client) : Client :=
  with_peers (<[id := p]> (peers c)) c.

(** The peer under its map key: ranging over the map yields some entry first. *)
Definition getSolePeer (pick : nat) (c : Client) : option (string * peerConn) :=
  let l := map_to_list (peers c) in l !! (pick mod length l).

Definition enqueue (f : outFrame) (c : Client) : Client := with_sends (sends c ++ [f]) c.

Definition enqueueBinary (kind : ascii) (payload : bytes) (c : Client) : Client :=
  enqueue (OutFrame BinaryMessage (encodeEnvelope kind payload)) c.

(** [ch <- r]. *)
Definition notify (ch : chan) (r : PairResult) (c : Client) : Client :=
  with_results (<[ch := default [] (results c !! ch) ++ [r]]> (results c)) c.

Definition fire (e : callback) (c : Client) : Client := with_callbacks (callbacks c ++ [e]) c.

Definition takePairWaiter (key : string) (c : Client) : option pairWaiter * Client :=
  match pairWaiters c !! key with
  | Some w => (Some w, with_waiters (delete key (pairWaiters c)) c)
  | None => (None, c)
  end.

Definition removePairWaiter (key : string) (c : Client) : Client :=
  with_waiters (delete key (pairWaiters c)) c.

Definition alloc_session (c : Client) : sref := S (max_list (map_to_list (sessions c)).*1).

Definition session_of (r : sref) (c : Client) : option noiseSession := sessions c !! r.

Definition set_session (r : sref) (s : noiseSession) (c : Client) : Client :=
  with_sessions (<[r := s]> (sessions c)) c.

(** The peer's waiter, taken. *)
Definition takeFirstPairWaiter (id : string) (p : peerConn) (c : Client) : option chan * Client :=
  (firstPairWaiter p, setPeerConn id (clearFirstPairWaiter p) c).
End client.
Arguments Client {_}.

(** ** One peer's sessions (peer.go) *)

Section peer.
Context `{NoiseLib}.

(** The very first handshake, started by this side. *)
Definition startAsInitiator (i : input) (id : string) (p : peerConn) (c : Client)
    : (sdkerr + bytes) * Client :=
  match newInitiatorSession (in_seed i) (opt_PrivateKey c) with
  | inl e => (inl e, c)
  | inr (s, msg1) =>
      let r := alloc_session c in
      (inr msg1, setPeerConn id (set_active (Some r) p) (set_session r s c))
  end.

(** A replacement handshake; the active session stays. *)
Definition startRekeyAsInitiator (i : input) (id : string) (p : peerConn) (c : Client)
    : (sdkerr + bytes) * Client :=
  match newInitiatorSession (in_seed i) (opt_PrivateKey c) with
  | inl e => (inl e, c)
  | inr (s, msg1) =>
      let r := alloc_session c in
      (inr msg1, setPeerConn id (set_pending (Some r) p) (set_session r s c))
  end.

(** [time.Since(last) < unsolicitedMsg1MinInterval]; long ago for the zero time. *)
Definition throttled (now : Z) (p : peerConn) : bool :=
  match lastUnsolicitedMsg1 p with
  | Some t => bool_decide (now - t < unsolicitedMsg1MinInterval)%Z
  | None => false
  end.

(** Which session a handshake message goes to. *)
Inductive choice :=
  | Use (r : sref) (wasPending : bool)      (* a session that exists *)
  | StartFirst                              (* a first responder session *)
  | StartPending                            (* a replacement responder session *)
  | Drop.                                   (* rate-limited *)

Definition choose (now : Z) (p : peerConn) (c : Client) : choice :=
  match pending p, active p with
  | Some r, _ => Use r true
  | None, None => StartFirst
  | None, Some r =>
      match session_of r c with
      | Some s => if ready s then if throttled now p then Drop else StartPending else Use r false
      | None => Use r false
      end
  end.

(** reply, completed session, wasPending, error *)
Definition hsoutcome := (option bytes * option sref * bool * option sdkerr)%type.

(** [session.handleHandshakeMessage(data)] on a session of the heap. *)
Definition drive (r : sref) (wasPending : bool) (data : bytes) (c : Client) : hsoutcome * Client :=
  match session_of r c with
  | None => ((None, None, wasPending, None), c)
  | Some s =>
      let '((reply, done, err), s') := handleHandshakeMessage data s in
      ((reply, if done : bool then Some r else None, wasPending, err), set_session r s' c)
  end.

Definition peer_handleHandshakeEnvelope (i : input) (id : string) (p : peerConn) (data : bytes)
    (c : Client) : hsoutcome * Client :=
  match choose (in_now i) p c with
  | Use r wasPending => drive r wasPending data c
  | Drop => ((None, None, false, None), c)
  | StartFirst =>
      match newResponderSession (in_seed i) (opt_PrivateKey c) with
      | inl e => ((None, None, false, Some e), c)
      | inr s =>
          let r := alloc_session c in
          drive r false data (setPeerConn id (set_active (Some r) p) (set_session r s c))
      end
  | StartPending =>
      let p := set_last (in_now i) p in
      match newResponderSession (in_seed i) (opt_PrivateKey c) with
      | inl e => ((None, None, false, Some e), setPeerConn id p c)
      | inr s =>
          let r := alloc_session c in
          drive r true data (setPeerConn id (set_pending (Some r) p) (set_session r s c))
      end
  end.

Definition promote (r : sref) (p : peerConn) : peerConn :=
  if decide (pending p = Some r) then set_pending None (set_active (Some r) p) else p.

Definition abandon (r : sref) (p : peerConn) : peerConn :=
  if decide (pending p = Some r) then set_pending None p else p.

Definition peer_send (payload : bytes) (p : peerConn) (c : Client) : (sdkerr + bytes) * Client :=
  match active p with
  | None => (inl ErrNotReady, c)
  | Some r =>
      match session_of r c with
      | None => (inl ErrNotReady, c)
      | Some s => let '(x, s') := encrypt payload s in (x, set_session r s' c)
      end
  end.

Definition recv (ciphertext : bytes) (p : peerConn) (c : Client) : (sdkerr + bytes) * Client :=
  match active p with
  | None => (inl ErrNotReady, c)
  | Some r =>
      match session_of r c with
      | None => (inl ErrNotReady, c)
      | Some s => let '(x, s') := decrypt ciphertext s in (x, set_session r s' c)
      end
  end.
End peer.

(** ** The client (client.go) *)

Section handlers.
Context `{NoiseLib}.

Definition handlePairCode (frame : controlMessage) (c : Client) : Client :=
  match takePairWaiter "__request__" c with
  | (Some w, c) => notify (pw_ch w) (MkPairResult (cm_Code frame) (cm_ExpiresIn frame) "" "" None) c
  | (None, c) => c
  end.

Definition handlePairComplete (i : input) (frame : controlMessage) (c : Client) : Client :=
  match takePairWaiter (cm_Code frame) c with
  | (None, c) => c
  | (Some w, c) =>
      let id := cm_PeerID frame in
      let p := setFirstPairWaiter (pw_ch w) (newPeerConn id (cm_PeerStaticKey frame)) in
      let c := setPeerConn id p c in
      if weAreAcceptor w then
        match startAsInitiator i id p c with
        | (inl e, c) =>
            match takeFirstPairWaiter id p c with
            | (Some ch, c) => notify ch (failed_result (Wrapped "starting handshake" e)) c
            | (None, c) => c
            end
        | (inr msg1, c) => enqueueBinary envelopeHandshake msg1 c
        end
      else c
  end.

(** [a >= b] on strings: byte-wise lexicographic order. *)
Definition string_ge (a b : string) : bool := negb (String.ltb a b).

Definition handlePeerStatus (i : input) (frame : controlMessage) (c : Client) : Client :=
  let online := default false (cm_Online frame) in
  let c := fire (OnPeerStatus (cm_PeerID frame) online) c in
  if online then
    match getPeerConn (cm_PeerID frame) c with
    | None => c
    | Some p =>
        if string_ge (opt_DeviceID c) (cm_PeerID frame) then c
        else match startRekeyAsInitiator i (cm_PeerID frame) p c with
             | (inl _, c) => c
             | (inr msg1, c) => enqueueBinary envelopeHandshake msg1 c
             end
    end
  else c.

Definition handleError (frame : controlMessage) (c : Client) : Client :=
  let err := errForCode (cm_Code frame) (cm_Message frame) in
  with_waiters ∅ (foldr (λ kw c, notify (pw_ch kw.2) (failed_result err) c) c
                    (map_to_list (pairWaiters c))).

Definition verifyAndPin (i : input) (p : peerConn) (s : noiseSession) (c : Client)
    : (sdkerr + PublicKey) * Client :=
  let b64 := encodeBase64 (peerStatic s) in
  match PinOrVerify (in_saved i) (in_stamp i) (pc_id p) b64 (peerStore c) with
  | (Some e, ps) => (inl (Wrapped "pin" e), with_store ps c)
  | (None, ps) =>
      let c := with_store ps c in
      if decide (announcedStaticKey p ≠ "" ∧ announcedStaticKey p ≠ b64)
      then (inl (Wrapped "server-announced key" ErrKeyMismatch), c)
      else match publicKeyFromBase64 b64 with
           | Some pub => (inr pub, c)
           | None => (inl ErrBadPeerKey, c)
           end
  end.

Definition fail_session (e : sdkerr) (s : noiseSession) : noiseSession :=
  NoiseSession statusFailed (Some e) (initiator s) (hs s) (gotMsg1 s) (sendCS s) (recvCS s)
    (peerStatic s) (readyClosed s).

(** The verdict on a finished handshake, with the session marked if it is rejected. *)
Definition judge (i : input) (p : peerConn) (r : sref) (hsErr : option sdkerr) (c : Client)
    : (sdkerr + PublicKey) * Client :=
  match hsErr with
  | Some e => (inl (Wrapped "handshake failed" e), c)
  | None =>
      match session_of r c with
      | None => (inl ErrInternal, c)
      | Some s =>
          match verifyAndPin i p s c with
          | (inl e, c) => (inl e, set_session r (fail_session e s) c)
          | (inr pub, c) => (inr pub, c)
          end
      end
  end.

Definition resolveHandshake (i : input) (id : string) (p : peerConn) (r : sref) (wasPending : bool)
    (hsErr : option sdkerr) (c : Client) : Client :=
  let '(verdict, c) := judge i p r hsErr c in
  let result := match verdict with
                | inl e => MkPairResult "" 0 (pc_id p) "" (Some e)
                | inr pub => MkPairResult "" 0 (pc_id p) pub None
                end in
  let finish p c :=
    let '(w, c) := takeFirstPairWaiter id p c in
    let c := match w with Some ch => notify ch result c | None => c end in
    match verdict with inr _ => fire (OnReady (pc_id p)) c | inl _ => c end in
  if wasPending then
    match verdict with
    | inl _ => setPeerConn id (abandon r p) c
    | inr _ => finish (promote r p) c
    end
  else finish p c.

Definition handleHandshakeEnvelope (i : input) (payload : bytes) (c : Client) : Client :=
  match getSolePeer (in_pick i) c with
  | None => c
  | Some (id, p) =>
      let '((reply, completed, wasPending, err), c) := peer_handleHandshakeEnvelope i id p payload c in
      let c := match reply with
               | Some m => enqueueBinary envelopeHandshake m c
               | None => c
               end in
      match completed with
      | None => c
      | Some r =>
          match getPeerConn id c with
          | Some p => resolveHandshake i id p r wasPending err c
          | None => c
          end
      end
  end.

Definition handleTransportEnvelope (i : input) (ciphertext : bytes) (c : Client) : Client :=
  match getSolePeer (in_pick i) c with
  | None => c
  | Some (id, p) =>
      match recv ciphertext p c with
      | (inl _, c) => c
      | (inr plaintext, c) =>
          if decide (length (messages c) < messagesCapacity)
          then with_messages (messages c ++ [MkMessage (pc_id p) plaintext (in_now i)]) c
          else c
      end
  end.

Definition dispatch (i : input) (frame : controlMessage) (c : Client) : Client :=
  if decide (cm_Type frame = msgTypePairCode) then handlePairCode frame c
  else if decide (cm_Type frame = msgTypePairComplete) then handlePairComplete i frame c
  else if decide (cm_Type frame = msgTypePeerStatus) then handlePeerStatus i frame c
  else if decide (cm_Type frame = msgTypeError) then handleError frame c
  else c.

(** One frame of [readLoop]. *)
Definition readLoop_frame (i : input) (k : msgKind) (data : bytes) (c : Client) : Client :=
  match k with
  | TextMessage =>
      match Unmarshal data with
      | None => c
      | Some frame => dispatch i frame c
      end
  | BinaryMessage =>
      match decodeEnvelope data with
      | None => c
      | Some (kind, payload) =>
          if decide (kind = envelopeHandshake) then handleHandshakeEnvelope i payload c
          else if decide (kind = envelopeTransport) then handleTransportEnvelope i payload c
          else c
      end
  end.

(** *** Calls of the user *)

Definition Send (peerID : string) (payload : bytes) (c : Client) : option sdkerr * Client :=
  match getPeerConn peerID c with
  | None => (Some ErrInternal, c)            (* "no paired peer with ID" *)
  | Some p =>
      match peer_send payload p c with
      | (inl e, c) => (Some e, c)
      | (inr ciphertext, c) =>
          (None, enqueueBinary envelopeTransport ciphertext c)
      end
  end.

(** [RequestPairCode] up to its wait, and what it does with the answer. *)
Definition RequestPairCode_begin (ch : chan) (c : Client) : Client :=
  enqueue (controlFrame (message msgTypePairRequest))
    (with_waiters (<["__request__" := PairWaiter ch false]> (pairWaiters c)) c).

Definition RequestPairCode_answer (ch : chan) (result : PairResult) (c : Client)
    : (sdkerr + string) * Client :=
  match pr_Error result with
  | Some e => (inl e, c)
  | None => (inr (pr_Code result),
             with_waiters (<[pr_Code result := PairWaiter ch false]> (pairWaiters c)) c)
  end.

Definition AcceptPair_begin (ch : chan) (code : string) (c : Client) : Client :=
  enqueue (controlFrame (ControlMessage msgTypePairAccept 0 "" [] "" code 0 "" "" None ""))
    (with_waiters (<[code := PairWaiter ch true]> (pairWaiters c)) c).
End handlers.

(** *** Connecting *)

Inductive dialerr :=
  | ErrReadWelcome | ErrNotText | ErrBadWelcome
  | ErrAuth (code message : string) | ErrFirstFrame (type : string) | ErrVersion (v : Z)
  | ErrAnnounce.

Definition validate (deviceID deviceToken : string) : option string :=
  if decide (deviceID = "") then Some "DeviceID is required"
  else if decide (deviceToken = "") then Some "DeviceToken is required"
  else None.

Section dial.
Context `{NoiseLib}.

Fixpoint applyWelcomePeers (ps : list wirePeer) (c : Client) : Client :=
  match ps with
  | [] => c
  | p :: ps =>
      applyWelcomePeers ps
        match getPeerConn (pi_ID p) c with
        | None => setPeerConn (pi_ID p) (newPeerConn (pi_ID p) (pi_StaticKey p)) c
        | Some _ => c
        end
  end.

(** [dial] once the socket is open: [first] is the first frame read, [wrote] whether the
    announcement could be written.  The result carries the frame announced. *)
Definition dial (first : option (msgKind * bytes)) (wrote : bool) (c : Client)
    : (dialerr + outFrame) * Client :=
  match first with
  | None => (inl ErrReadWelcome, c)
  | Some (BinaryMessage, _) => (inl ErrNotText, c)
  | Some (TextMessage, data) =>
      match Unmarshal data with
      | None => (inl ErrBadWelcome, c)
      | Some welcome =>
          if decide (cm_Type welcome = msgTypeError) then
            (inl (ErrAuth (cm_Code welcome) (cm_Message welcome)), c)
          else if decide (cm_Type welcome ≠ msgTypeWelcome) then
            (inl (ErrFirstFrame (cm_Type welcome)), c)
          else if decide (cm_ProtocolVersion welcome ≠ protocolVersion) then
            (inl (ErrVersion (cm_ProtocolVersion welcome)), c)
          else
            let c := applyWelcomePeers (cm_Peers welcome) c in
            let pub := ScalarBaseMult (opt_PrivateKey c) in
            let announce := ControlMessage msgTypeAnnounceKey 0 "" [] (encodeBase64 pub) "" 0
                              "" "" None "" in
            if wrote then (inr (controlFrame announce), c) else (inl ErrAnnounce, c)
      end
  end.
End dial.

(** *** Reconnecting: the delays of [reconnectWithBackoff] *)

(** [None]: reconnection is disabled. *)
Definition first_delay (reconnectDelay : Z) : option Z :=
  if decide (reconnectDelay < 0)%Z then None
  else Some (if decide (reconnectDelay = 0)%Z then DefaultReconnectDelay else reconnectDelay).

Definition max_delay (maxReconnectDelay : Z) : Z :=
  if decide (maxReconnectDelay = 0)%Z then DefaultMaxReconnectDelay else maxReconnectDelay.

Definition next_delay (maxDelay delay : Z) : Z :=
  let delay := int64 (delay * 2) in
  if decide (maxDelay < delay)%Z then maxDelay else delay.

Fixpoint delay_at (n : nat) (maxDelay delay : Z) : Z :=
  match n with
  | O => delay
  | S n => next_delay maxDelay (delay_at n maxDelay delay)
  end.

(** *** [Connect], the other loops, and what callers hold *)

Record Options := MkOptions {
  DeviceID : string;
  opt_DeviceToken : string;
  PrivKey : PrivateKey;
  PeerStorePath : string;
  PingInterval : Z;
  ReconnectDelay : Z;
  MaxReconnectDelay : Z
}.

Definition DefaultPeerStorePath : string := "~/.relayly/peers.json".
Definition DefaultPingInterval : Z := 30 * Second.

Definition peerStorePath (o : Options) : string :=
  if decide (PeerStorePath o ≠ "") then PeerStorePath o else DefaultPeerStorePath.

Definition ws_scheme (scheme : string) : string :=
  if decide (scheme = "http") then "ws" else if decide (scheme = "https") then "wss" else scheme.

Inductive connerr := ErrOptions (why : string) | ErrURL | ErrPeerStore | ErrDial (e : dialerr).

Section connect.
Context `{NoiseLib}.

(** [scheme] is [None] if the URL does not parse; [files] gives the pins a path holds, or
    [None] if they cannot be read; [first] and [wrote] are as for [dial]. *)
Definition Connect (o : Options) (scheme : option string)
    (files : string → option (option (gmap string pinnedPeer)))
    (first : option (msgKind * bytes)) (wrote : bool) : connerr + string * Client * outFrame :=
  match validate (DeviceID o) (opt_DeviceToken o) with
  | Some why => inl (ErrOptions why)
  | None =>
      match scheme with
      | None => inl ErrURL
      | Some sch =>
          match files (peerStorePath o) with
          | None => inl ErrPeerStore
          | Some file =>
              let c := MkClient (DeviceID o) (PrivKey o) (LoadPeerStore file) ∅ ∅ [] [] ∅ ∅ [] in
              match dial first wrote c with
              | (inl e, _) => inl (ErrDial e)
              | (inr announce, c) => inr (ws_scheme sch, c, announce)
              end
          end
      end
  end.

(** A turn of [writeLoop]: the frame it takes is gone whether or not writing it succeeds. *)
Definition writeLoop_turn (wrote : bool) (c : Client) : option (outFrame * bool * Client) :=
  match sends c with
  | [] => None
  | f :: fs => Some (f, wrote, with_sends fs c)
  end.

Definition ping_interval (o : Options) : Z :=
  if decide (PingInterval o = 0)%Z then DefaultPingInterval else PingInterval o.

(** A tick of [pingLoop]. *)
Definition pingLoop_tick (c : Client) : Client :=
  enqueue (controlFrame (message msgTypePing)) c.
End connect.

(** What [AcceptPair] and [PairCode.Wait] hand to the user. *)
Record Peer := MkPeer { Peer_ID : string; Peer_PublicKey : PublicKey }.

Record PairCode := MkPairCode { Short : string; ExpiresIn : Z; resultCh : chan }.

Definition Wait (result : PairResult) : sdkerr + Peer :=
  match pr_Error result with
  | Some e => inl e
  | None => inr (MkPeer (pr_PeerID result) (pr_PeerPublicKey result))
  end.
