(* ===== verification/SdkFacts.v ===== *)
(** * What the client guarantees against any relay

    The relay is untrusted, so the frames a client reads are arbitrary.  [turns] feeds a
    client any sequence of frames; the properties say what survives: identities stay
    pinned, a ready session is a session with the pinned key, a healthy session is never
    broken by handshakes it did not ask for, and nobody waits on a channel twice. *)

From S2P Require Import Prelude Keys Json Wire SendQueue Noise PeerStore Sdk.

Section invariant.
Context `{NoiseLaws}.

(** A session a peer refers to. *)
Definition owns (p : peerConn) (r : sref) : Prop := active p = Some r ∨ pending p = Some r.

Record client_ok (c : Client) : Prop := {
  ck_ids : ∀ id p, peers c !! id = Some p → pc_id p = id;
  ck_refs : ∀ id p r, peers c !! id = Some p → owns p r → is_Some (sessions c !! r);
  ck_unique : ∀ id p id' p' r, peers c !! id = Some p → peers c !! id' = Some p' →
                owns p r → owns p' r → id = id';
  ck_split : ∀ id p r, peers c !! id = Some p → active p = Some r → pending p ≠ Some r;
  ck_sessions : ∀ r s, sessions c !! r = Some s → session_ok s;
  ck_pending : ∀ id p r s, peers c !! id = Some p → pending p = Some r →
                 sessions c !! r = Some s → status s = statusHandshaking;
  ck_pinned : ∀ id p r s, peers c !! id = Some p → active p = Some r →
                sessions c !! r = Some s → status s = statusReady →
                StaticKey <$> pins (peerStore c) !! id = Some (encodeBase64 (peerStatic s))
}.

(** *** Changing one peer *)

(** The sessions a turn for peer [id] may change: new ones and the peer's own. *)
Definition mine (c : Client) (id : string) (r : sref) : Prop :=
  sessions c !! r = None ∨ ∃ p, peers c !! id = Some p ∧ owns p r.

Lemma client_ok_update c c' id p' :
  client_ok c → pc_id p' = id → peers c' = <[id := p']> (peers c) →
  (∀ r, sessions c' !! r = sessions c !! r ∨ mine c id r) →
  (∀ r, owns p' r → mine c id r ∧ is_Some (sessions c' !! r)) →
  (∀ r, active p' = Some r → pending p' ≠ Some r) →
  (∀ r s, sessions c' !! r = Some s → session_ok s) →
  (∀ r s, pending p' = Some r → sessions c' !! r = Some s → status s = statusHandshaking) →
  (∀ r s, active p' = Some r → sessions c' !! r = Some s → status s = statusReady →
     StaticKey <$> pins (peerStore c') !! id = Some (encodeBase64 (peerStatic s))) →
  (∀ x q, pins (peerStore c) !! x = Some q → pins (peerStore c') !! x = Some q) →
  client_ok c'.
Proof.
  intros [Hid Href Hun Hsp Hse Hpe Hpi] Ep Eps Hch Hown Hsp' Hse' Hpe' Hpi' Hgrow.
  assert (∀ x q r, x ≠ id → peers c !! x = Some q → owns q r →
    is_Some (sessions c !! r) ∧ sessions c' !! r = sessions c !! r ∧ ¬ mine c id r) as Hother.
  { intros x q r Hx Hq Ho. pose proof (Href x q r Hq Ho) as Hs.
    assert (¬ mine c id r) as Hn.
    { intros [E|(p & Hp & Ho')]; [rewrite E in Hs; by destruct Hs|]. apply Hx. eauto. }
    destruct (Hch r); naive_solver. }
  split; rewrite ?Eps.
  - intros x q. rewrite lookup_insert_Some. intros [[<- <-]|[_ Hq]]; eauto.
  - intros x q r. rewrite lookup_insert_Some. intros [[<- <-]|[Hx Hq]] Ho; [by apply Hown|].
    destruct (Hother x q r) as (? & -> & _); auto.
  - intros x q x' q' r. rewrite !lookup_insert_Some.
    intros [[<- <-]|[Hx Hq]] [[<- <-]|[Hx' Hq']] Ho Ho'; eauto.
    + destruct (Hother x' q' r) as (_ & _ & Hn); auto. destruct Hn. by apply Hown.
    + destruct (Hother x q r) as (_ & _ & Hn); auto. destruct Hn. by apply Hown.
  - intros x q r. rewrite lookup_insert_Some. intros [[<- <-]|[Hx Hq]]; eauto.
  - done.
  - intros x q r t. rewrite lookup_insert_Some. intros [[<- <-]|[Hx Hq]] Ho; [by apply Hpe'|].
    destruct (Hother x q r) as (_ & -> & _); eauto. by right.
  - intros x q r t. rewrite lookup_insert_Some. intros [[<- <-]|[Hx Hq]] Ho; [by apply Hpi'|].
    destruct (Hother x q r) as (_ & -> & _); eauto; [by left|]. intros Ht Hr.
    specialize (Hpi x q r t Hq Ho Ht Hr). apply fmap_Some in Hpi as (pin & Hpin & ->).
    by rewrite (Hgrow _ _ Hpin).
Qed.

(** Only what the invariant reads matters. *)
Lemma client_ok_same c c' :
  peers c' = peers c → sessions c' = sessions c → peerStore c' = peerStore c →
  client_ok c → client_ok c'.
Proof. intros E1 E2 E3 []. split; rewrite ?E1, ?E2, ?E3; done. Qed.

Lemma alloc_session_fresh c : sessions c !! alloc_session c = None.
Proof.
  destruct (sessions c !! alloc_session c) as [s|] eqn:E; [|done].
  apply elem_of_map_to_list in E.
  assert (alloc_session c ∈ (map_to_list (sessions c)).*1) as Hin
    by (apply list_elem_of_fmap; eexists (_, _); eauto).
  apply max_list_elem_of_le in Hin. unfold alloc_session in Hin. lia.
Qed.

(** *** Outcomes of a handshake message *)

Lemma handle_outcome data s reply done err s' :
  session_ok s → handleHandshakeMessage data s = ((reply, done, err), s') →
  (done = false → status s' = statusHandshaking ∧ err = None) ∧
  (done = true → err = None → status s' = statusReady) ∧
  (err ≠ None → status s ≠ statusReady → status s' = statusFailed) ∧
  (err ≠ None → done = true).
Proof.
  intros Hok. unfold handleHandshakeMessage.
  case_decide as Hst; [intros [= <- <- <- <-]; destruct (status s); naive_solver|].
  assert (status s = statusHandshaking) as Hs by (destruct (status s); naive_solver).
  unfold failLocked, finishLocked. rewrite !Hs. rewrite decide_False by done.
  destruct (initiator s), (gotMsg1 s); repeat case_match; intros; simplify_eq/=; naive_solver.
Qed.

(** *** Resolving a finished handshake *)

Lemma judge_outcome i p r err c s verdict c' :
  sessions c !! r = Some s → session_ok s →
  (err = None → status s = statusReady) → (err ≠ None → status s = statusFailed) →
  judge i p r err c = (verdict, c') →
  peers c' = peers c ∧
  (∀ x q, pins (peerStore c) !! x = Some q → pins (peerStore c') !! x = Some q) ∧
  ∃ s', sessions c' = <[r := s']> (sessions c) ∧ session_ok s' ∧ peerStatic s' = peerStatic s ∧
    match verdict with
    | inr _ => status s' = statusReady ∧
        StaticKey <$> pins (peerStore c') !! pc_id p = Some (encodeBase64 (peerStatic s))
    | inl _ => status s' = statusFailed
    end.
Proof.
  intros Hs Hok Hn He. unfold judge, session_of. destruct err as [e|].
  { intros [= <- <-]. split_and!; try done. exists s. rewrite insert_id by done.
    split_and!; try done. by apply He. }
  rewrite Hs. specialize (Hn eq_refl). unfold verifyAndPin.
  destruct (PinOrVerify (in_saved i) (in_stamp i) (pc_id p) (encodeBase64 (peerStatic s))
    (peerStore c)) as [e ps] eqn:Ep.
  apply PinOrVerify_pins in Ep as (Hgrow & (pin & Hpin & Hkey) & _ & _).
  assert (∀ e', session_ok (fail_session e' s)) as Hfail.
  { intros e'. unfold session_ok in *. rewrite Hn in Hok. simpl. naive_solver. }
  destruct e as [e|].
  { intros [= <- <-]. split_and!; try done. by eexists. }
  case_decide.
  { intros [= <- <-]. split_and!; try done. by eexists. }
  destruct (publicKeyFromBase64 (encodeBase64 (peerStatic s))) as [pub|]; intros [= <- <-].
  - split_and!; try done. exists s. simpl. rewrite insert_id by done. split_and!; try done.
    rewrite Hpin. simpl. by rewrite Hkey.
  - split_and!; try done. by eexists.
Qed.

(** The state a resolved handshake leaves, as far as the invariant reads it. *)
Lemma resolve_shape i id p r wp err c verdict c1 :
  judge i p r err c = (verdict, c1) → pc_id p = id →
  let c' := resolveHandshake i id p r wp err c in
  sessions c' = sessions c1 ∧ peerStore c' = peerStore c1 ∧
  peers c' = <[id := match verdict, wp with
                     | inl _, true => abandon r p
                     | inr _, true => clearFirstPairWaiter (promote r p)
                     | _, false => clearFirstPairWaiter p
                     end]> (peers c1).
Proof.
  intros E Hid. unfold resolveHandshake. rewrite E.
  destruct verdict as [e|pub], wp; simpl; try done; by destruct (firstPairWaiter _).
Qed.

(** Session [r] is the one a handshake message for [p] is fed to. *)
Definition driving (p : peerConn) (r : sref) (wp : bool) (s : noiseSession) : Prop :=
  if wp then pending p = Some r
  else active p = Some r ∧ pending p = None ∧ status s ≠ statusReady.

Lemma resolve_ok i id p r wp err c c2 s s' :
  client_ok c → peers c !! id = Some p → sessions c !! r = Some s → driving p r wp s →
  session_ok s' → (err = None → status s' = statusReady) →
  (err ≠ None → status s' = statusFailed) →
  peers c2 = peers c → sessions c2 = <[r := s']> (sessions c) → peerStore c2 = peerStore c →
  client_ok (resolveHandshake i id p r wp err c2).
Proof.
  intros Hc Hp Hs Hdr Hok Hn He E1 E2 E3.
  pose proof (ck_ids c Hc id p Hp) as Hid.
  destruct (judge i p r err c2) as [verdict c3] eqn:Ej.
  destruct (judge_outcome i p r err c2 s' verdict c3) as (J1 & J2 & s'' & J3 & J4 & J5 & J6);
    try done; [by rewrite E2, lookup_insert_eq|].
  destruct (resolve_shape i id p r wp err c2 verdict c3 Ej Hid) as (R1 & R2 & R3).
  assert (owns p r) as Hown by (unfold owns, driving in *; destruct wp; naive_solver).
  assert (sessions c3 = <[r := s'']> (sessions c)) as Es by by rewrite J3, E2, insert_insert_eq.
  set (p' := match verdict, wp with inl _, true => abandon r p
             | inr _, true => clearFirstPairWaiter (promote r p)
             | _, false => clearFirstPairWaiter p end) in R3.
  assert (pc_id p' = id ∧ pending p' = None ∧
    active p' = if verdict is inl _ then active p else Some r) as (Hid' & Hpend & Hact).
  { unfold p', promote, abandon, driving in *. destruct wp; [|destruct Hdr as (? & ? & _)];
      destruct verdict; rewrite ?decide_True by done; by split_and!. }
  assert (∀ x, active p' = Some x → owns p x) as Hsub.
  { intros x. rewrite Hact. destruct verdict; [by left|by intros [= <-]]. }
  apply (client_ok_update c _ id p'); try done.
  - by rewrite R3, J1, E1.
  - intros x. rewrite R1, Es. destruct (decide (x = r)) as [->|]; [right; right; eauto|].
    left. by rewrite lookup_insert_ne.
  - intros x [Hx|Hx]; [|congruence]. apply Hsub in Hx. split; [right; eauto|].
    rewrite R1, Es. destruct (decide (x = r)) as [->|]; [by rewrite lookup_insert_eq|].
    rewrite lookup_insert_ne by done. by eapply ck_refs.
  - intros x _. congruence.
  - intros x t. rewrite R1, Es. rewrite lookup_insert_Some. intros [[_ <-]|[_ Ht]]; [done|].
    by eapply ck_sessions.
  - intros x t. congruence.
  - intros x t Hx. rewrite R1, R2, Es. rewrite lookup_insert_Some.
    intros [[<- <-]|[Hne Ht]] Hst.
    + destruct verdict as [e|pub]; [congruence|]. destruct J6 as [_ J6]. by rewrite <- Hid, J6, J5.
    + destruct verdict as [e|pub]; rewrite Hact in Hx; [|congruence].
      pose proof (ck_pinned c Hc id p x t Hp Hx Ht Hst) as Hpin.
      apply fmap_Some in Hpin as (q & Hq & ->). rewrite <- E3 in Hq. by rewrite (J2 _ _ Hq).
  - rewrite R2. intros x q Hq. apply J2. by rewrite E3.
Qed.

(** Feeding a message to the driven session, without finishing. *)
Lemma continue_ok id p r wp c c2 s s' :
  client_ok c → peers c !! id = Some p → sessions c !! r = Some s → driving p r wp s →
  session_ok s' → status s' = statusHandshaking →
  peers c2 = peers c → sessions c2 = <[r := s']> (sessions c) → peerStore c2 = peerStore c →
  client_ok c2.
Proof.
  intros Hc Hp Hs Hdr Hok Hst E1 E2 E3.
  assert (owns p r) as Hown by (unfold owns, driving in *; destruct wp; naive_solver).
  apply (client_ok_update c _ id p); try done.
  - by eapply ck_ids.
  - by rewrite insert_id.
  - intros x. rewrite E2. destruct (decide (x = r)) as [->|]; [right; right; eauto|].
    left. by rewrite lookup_insert_ne.
  - intros x Hx. split; [right; eauto|]. rewrite E2.
    destruct (decide (x = r)) as [->|]; [by rewrite lookup_insert_eq|].
    rewrite lookup_insert_ne by done. by eapply ck_refs.
  - intros x Hx. by eapply ck_split.
  - intros x t. rewrite E2, lookup_insert_Some. intros [[_ <-]|[_ Ht]]; [done|].
    by eapply ck_sessions.
  - intros x t Hx. rewrite E2, lookup_insert_Some. intros [[_ <-]|[_ Ht]]; [done|].
    by eapply ck_pending.
  - intros x t Hx. rewrite E2, E3, lookup_insert_Some. intros [[_ <-]|[_ Ht]]; [congruence|].
    by eapply ck_pinned.
  - by rewrite E3.
Qed.

(** Starting a session: a fresh one becomes the first, or the replacement. *)
Lemma start_ok c c' id p p' s :
  client_ok c → peers c !! id = Some p → session_ok s → status s = statusHandshaking →
  let r := alloc_session c in
  pc_id p' = id →
  (active p' = Some r ∧ pending p' = None ∨
   active p' = active p ∧ pending p' = Some r) →
  peers c' = <[id := p']> (peers c) → sessions c' = <[r := s]> (sessions c) →
  peerStore c' = peerStore c → client_ok c'.
Proof.
  intros Hc Hp Hok Hst r Hid' Hcase E1 E2 E3. pose proof (alloc_session_fresh c) as Hf. fold r in Hf.
  assert (∀ x, owns p x → x ≠ r) as Hne.
  { intros x Hx ->. destruct (ck_refs c Hc id p r Hp Hx). congruence. }
  assert (∀ x, owns p' x → x = r ∨ owns p x) as Hsub.
  { unfold owns. intros x [Hx|Hx]; destruct Hcase as [[Ea Ep]|[Ea Ep]]; rewrite ?Ea, ?Ep in Hx;
      simplify_eq; auto. }
  apply (client_ok_update c _ id p'); try done.
  - intros x. rewrite E2. destruct (decide (x = r)) as [->|]; [right; by left|].
    left. by rewrite lookup_insert_ne.
  - intros x Hx. rewrite E2. destruct (Hsub x Hx) as [->|Ho].
    + split; [by left|]. by rewrite lookup_insert_eq.
    + split; [right; eauto|]. rewrite lookup_insert_ne by (symmetry; auto). by eapply ck_refs.
  - intros x Hx Hx'. destruct Hcase as [[? ?]|[Ea Ep]]; [congruence|].
    assert (x = r) as -> by congruence. apply (Hne r); [left|]; congruence.
  - intros x t. rewrite E2, lookup_insert_Some. intros [[_ <-]|[_ Ht]]; [done|].
    by eapply ck_sessions.
  - intros x t Hx. rewrite E2, lookup_insert_Some. intros [[_ <-]|[Hx' _]]; [done|].
    destruct Hcase as [[? ?]|[Ea Ep]]; congruence.
  - intros x t Hx. rewrite E2, E3, lookup_insert_Some. intros [[_ <-]|[Hx' Ht]] Hr; [congruence|].
    destruct Hcase as [[? ?]|[Ea Ep]]; [congruence|]. rewrite Ea in Hx. by eapply ck_pinned.
  - by rewrite E3.
Qed.

(** *** A peer with a usable session *)

Definition healthy (c : Client) (id : string) (key : bytes) : Prop :=
  ∃ p r s, peers c !! id = Some p ∧ active p = Some r ∧ sessions c !! r = Some s ∧
    status s = statusReady ∧ peerStatic s = key.

Definition alive (c : Client) (id : string) : Prop := ∃ key, healthy c id key.

Definition pins_kept (c c' : Client) : Prop :=
  ∀ x q, pins (peerStore c) !! x = Some q → pins (peerStore c') !! x = Some q.

(** The pinned key decides the identity of the session, so it cannot be switched. *)
Lemma healthy_key c c' id k k' :
  client_ok c → client_ok c' → pins_kept c c' → healthy c id k → healthy c' id k' → k = k'.
Proof.
  intros Hc Hc' Hpk (p & r & s & Hp & Ha & Hs & Hr & <-) (p' & r' & s' & Hp' & Ha' & Hs' & Hr' & <-).
  pose proof (ck_pinned c Hc _ _ _ _ Hp Ha Hs Hr) as H1.
  pose proof (ck_pinned c' Hc' _ _ _ _ Hp' Ha' Hs' Hr') as H2.
  apply fmap_Some in H1 as (q & Hq & E). rewrite (Hpk _ _ Hq) in H2. simpl in H2.
  apply encodeBase64_inj. congruence.
Qed.

Lemma alive_keep c c' x :
  (∀ p r, peers c !! x = Some p → active p = Some r →
     ∃ p', peers c' !! x = Some p' ∧ active p' = Some r ∧ sessions c' !! r = sessions c !! r) →
  alive c x → alive c' x.
Proof.
  intros Hk (k & p & r & s & Hp & Ha & Hs & Hr & E). destruct (Hk p r Hp Ha) as (p' & Hp' & Ha' & Es).
  exists k, p', r, s. rewrite Es. done.
Qed.

(** What a turn guarantees. *)
Definition good (c c' : Client) : Prop :=
  client_ok c' ∧ pins_kept c c' ∧ ∀ x, alive c x → alive c' x.

Lemma good_refl c : client_ok c → good c c.
Proof. intros. split_and!; [done|by intros x q|done]. Qed.

Lemma good_trans c1 c2 c3 : good c1 c2 → good c2 c3 → good c1 c3.
Proof. intros (?&P1&A1) (?&P2&A2). split_and!; [done|intros x q Hq; by apply P2, P1|auto]. Qed.

Lemma good_same c c' :
  client_ok c → peers c' = peers c → sessions c' = sessions c → peerStore c' = peerStore c → good c c'.
Proof.
  intros Hc E1 E2 E3. split_and!; [by eapply client_ok_same| |].
  - intros x q. by rewrite E3.
  - intros x. apply alive_keep. rewrite E1, E2. eauto.
Qed.

(** Peers other than [id] keep their sessions when only sessions of [id] change. *)
Lemma others_alive c c' id p' x :
  client_ok c → x ≠ id → peers c' = <[id := p']> (peers c) →
  (∀ r, sessions c' !! r = sessions c !! r ∨ mine c id r) → alive c x → alive c' x.
Proof.
  intros Hc Hx Ep Hs. apply alive_keep. intros p r Hp Ha. exists p.
  rewrite Ep, lookup_insert_ne by done. split_and!; [done..|].
  destruct (Hs r) as [|[E|(q & Hq & Ho)]]; [done| |].
  - destruct (ck_refs c Hc x p r Hp) as [? ?]; [by left|congruence].
  - destruct Hx. eapply (ck_unique c Hc x p id q r); try done. by left.
Qed.

Lemma resolve_good i id p r wp err c c2 s s' :
  client_ok c → peers c !! id = Some p → sessions c !! r = Some s → driving p r wp s →
  session_ok s' → (err = None → status s' = statusReady) →
  (err ≠ None → status s' = statusFailed) →
  peers c2 = peers c → sessions c2 = <[r := s']> (sessions c) → peerStore c2 = peerStore c →
  good c (resolveHandshake i id p r wp err c2).
Proof.
  intros Hc Hp Hs Hdr Hok Hn He E1 E2 E3. split; [by eapply resolve_ok|].
  pose proof (ck_ids c Hc id p Hp) as Hid.
  destruct (judge i p r err c2) as [verdict c3] eqn:Ej.
  destruct (judge_outcome i p r err c2 s' verdict c3) as (J1 & J2 & s'' & J3 & J4 & J5 & J6);
    try done; [by rewrite E2, lookup_insert_eq|].
  destruct (resolve_shape i id p r wp err c2 verdict c3 Ej Hid) as (R1 & R2 & R3).
  assert (owns p r) as Hown by (unfold owns, driving in *; destruct wp; naive_solver).
  assert (sessions c3 = <[r := s'']> (sessions c)) as Es by by rewrite J3, E2, insert_insert_eq.
  split.
  { intros x q Hq. rewrite R2. apply J2. by rewrite E3. }
  intros x Hx. destruct (decide (x = id)) as [->|Hne]; cycle 1.
  { eapply (others_alive c _ id); [done..|by rewrite R3, J1, E1| |done].
    intros y. rewrite R1, Es. destruct (decide (y = r)) as [->|]; [right; right; eauto|].
    left. by rewrite lookup_insert_ne. }
  destruct wp; simpl in Hdr.
  - destruct verdict as [e|pub].
    + revert Hx. apply alive_keep. intros q y Hq Hy. simplify_eq. exists (abandon r p).
      rewrite R3, lookup_insert_eq, R1, Es. split_and!; [done|by unfold abandon; case_decide|].
      rewrite lookup_insert_ne; [done|]. intros <-. by apply (ck_split c Hc _ p r Hp Hy).
    + exists (peerStatic s''), (clearFirstPairWaiter (promote r p)), r, s''.
      rewrite R3, lookup_insert_eq, R1, Es, lookup_insert_eq.
      destruct J6 as [J6 _]. split_and!; try done. unfold promote. by rewrite decide_True.
  - destruct Hdr as (Ha & _ & Hnr), Hx as (k & q & y & t & Hq & Hy & Ht & Hr & _).
    exfalso. apply Hnr. congruence.
Qed.

(** Bookkeeping on a peer that leaves its sessions alone. *)
Lemma same_sessions_good c c' id p p' :
  client_ok c → peers c !! id = Some p → pc_id p' = id → active p' = active p →
  pending p' = pending p → peers c' = <[id := p']> (peers c) → sessions c' = sessions c →
  peerStore c' = peerStore c → good c c'.
Proof.
  intros Hc Hp Hid Ha Hpd E1 E2 E3.
  assert (∀ r, owns p' r ↔ owns p r) as Ho by (intros r; unfold owns; by rewrite Ha, Hpd).
  split_and!; [apply (client_ok_update c _ id p'); try done; rewrite ?E2, ?E3|..].
  - by left.
  - intros r Hr. apply Ho in Hr. split; [right; eauto|by eapply ck_refs].
  - intros r. rewrite Ha, Hpd. by eapply ck_split.
  - by eapply ck_sessions.
  - intros r s. rewrite Hpd. by eapply ck_pending.
  - intros r s. rewrite Ha. by eapply ck_pinned.
  - done.
  - intros x q. by rewrite E3.
  - intros x. apply alive_keep. intros q r Hq Hr. rewrite E1, E2.
    destruct (decide (x = id)) as [->|Hne]; [exists p'|exists q].
    + rewrite lookup_insert_eq. split_and!; congruence.
    + by rewrite lookup_insert_ne.
Qed.

(** Feeding a message to a session without finishing, and starting a session. *)
Lemma continue_good id p r wp c c2 s s' :
  client_ok c → peers c !! id = Some p → sessions c !! r = Some s → driving p r wp s →
  session_ok s' → status s' = statusHandshaking →
  peers c2 = peers c → sessions c2 = <[r := s']> (sessions c) → peerStore c2 = peerStore c →
  good c c2.
Proof.
  intros Hc Hp Hs Hdr Hok Hst E1 E2 E3. split_and!; [by eapply continue_ok| |].
  { intros x q. by rewrite E3. }
  intros x Hx. assert (owns p r) as Hown by (unfold owns, driving in *; destruct wp; naive_solver).
  destruct (decide (x = id)) as [->|Hne]; cycle 1.
  { eapply (others_alive c _ id p); [done..|by rewrite E1, insert_id| |done].
    intros y. rewrite E2. destruct (decide (y = r)) as [->|]; [right; right; eauto|].
    left. by rewrite lookup_insert_ne. }
  destruct Hx as (k & q & y & t & Hq & Hy & Ht & Hr & Ek).
  assert (y ≠ r).
  { intros ->. unfold driving in Hdr. destruct wp; [by apply (ck_split c Hc id q r); congruence|].
    destruct Hdr as (_ & _ & Hn). congruence. }
  exists k, q, y, t. rewrite E1, E2, lookup_insert_ne by done. done.
Qed.

Lemma start_good c c' id p p' s :
  client_ok c → peers c !! id = Some p → session_ok s → status s = statusHandshaking →
  let r := alloc_session c in
  pc_id p' = id →
  (active p = None ∧ active p' = Some r ∧ pending p' = None ∨
   active p' = active p ∧ pending p' = Some r) →
  peers c' = <[id := p']> (peers c) → sessions c' = <[r := s]> (sessions c) →
  peerStore c' = peerStore c → good c c'.
Proof.
  intros Hc Hp Hok Hst r Hid Hcase E1 E2 E3. pose proof (alloc_session_fresh c) as Hf. fold r in Hf.
  split_and!; [eapply (start_ok c c' id p p' s); try done; naive_solver| |].
  { intros x q. by rewrite E3. }
  intros x Hx. destruct (decide (x = id)) as [->|Hne]; cycle 1.
  { eapply (others_alive c _ id p'); [done..| |done].
    intros y. rewrite E2. destruct (decide (y = r)) as [->|]; [right; by left|].
    left. by rewrite lookup_insert_ne. }
  revert Hx. apply alive_keep. intros q y Hq Hy. simplify_eq.
  destruct Hcase as [(? & _)|[Ea Ep]]; [congruence|]. exists p'.
  rewrite E1, lookup_insert_eq, E2. split_and!; [done|congruence|].
  rewrite lookup_insert_ne; [done|]. intros ->.
  destruct (ck_refs c Hc _ p _ Hp (or_introl Hy)). congruence.
Qed.

(** The rest of a turn once the session is chosen. *)
Definition rest_of_turn (i : input) (id : string) (o : hsoutcome) (c : Client) : Client :=
  let '(reply, completed, wasPending, err) := o in
  let c := match reply with Some m => enqueueBinary envelopeHandshake m c | None => c end in
  match completed with
  | None => c
  | Some r =>
      match getPeerConn id c with
      | Some p => resolveHandshake i id p r wasPending err c
      | None => c
      end
  end.

Lemma drive_good i id p r wp data c s :
  client_ok c → peers c !! id = Some p → sessions c !! r = Some s → driving p r wp s →
  let '(o, c') := drive r wp data c in good c (rest_of_turn i id o c').
Proof.
  intros Hc Hp Hs Hdr. unfold drive, session_of. rewrite Hs.
  destruct (handleHandshakeMessage data s) as [[[reply done] err] s'] eqn:E.
  pose proof (ck_sessions c Hc r s Hs) as Hok.
  assert (session_ok s') as Hok'.
  { pose proof (handle_ok data s Hok) as Hh. by rewrite E in Hh. }
  destruct (handle_outcome _ _ _ _ _ _ Hok E) as (O1 & O2 & O3 & O4).
  assert (status s ≠ statusReady) as Hnr.
  { unfold driving in Hdr. destruct wp; [|naive_solver].
    rewrite (ck_pending c Hc id p r s Hp Hdr Hs). done. }
  unfold rest_of_turn. set (c1 := match reply with Some _ => _ | None => _ end).
  assert (peers c1 = peers c ∧ sessions c1 = <[r := s']> (sessions c) ∧ peerStore c1 = peerStore c)
    as (E1 & E2 & E3) by (unfold c1; by destruct reply).
  destruct done.
  - unfold getPeerConn. rewrite E1, Hp. eapply resolve_good; try done; auto.
  - destruct (O1 eq_refl) as [O5 _]. by eapply continue_good.
Qed.

Lemma chosen c i id p r wp :
  client_ok c → peers c !! id = Some p → choose (in_now i) p c = Use r wp →
  ∃ s, sessions c !! r = Some s ∧ driving p r wp s.
Proof.
  intros Hc Hp. unfold choose, session_of, driving.
  destruct (pending p) as [x|] eqn:Epd.
  { intros [= <- <-]. destruct (ck_refs c Hc id p x Hp) as [s Hs]; [by right|]. by exists s. }
  destruct (active p) as [x|] eqn:Ea; [|done].
  destruct (ck_refs c Hc id p x Hp) as [s Hs]; [by left|]. rewrite Hs.
  unfold ready. case_bool_decide as Hr; [by destruct (throttled _ _)|].
  intros [= <- <-]. by exists s.
Qed.

Lemma responder_status seed priv s :
  newResponderSession seed priv = inr s → status s = statusHandshaking.
Proof. unfold newResponderSession. case_match; [|done]. by intros [= <-]. Qed.

Lemma initiator_status seed priv s m :
  newInitiatorSession seed priv = inr (s, m) → status s = statusHandshaking.
Proof. unfold newInitiatorSession. repeat case_match; try done. by intros [= <- _]. Qed.

Lemma envelope_good i id p data c :
  client_ok c → peers c !! id = Some p →
  let '(o, c') := peer_handleHandshakeEnvelope i id p data c in good c (rest_of_turn i id o c').
Proof.
  intros Hc Hp. pose proof (ck_ids c Hc id p Hp) as Hid. unfold peer_handleHandshakeEnvelope.
  destruct (choose (in_now i) p c) as [r wp| | |] eqn:Ech.
  - destruct (chosen c i id p r wp) as (s & Hs & Hd); try done. by eapply drive_good.
  - destruct (newResponderSession _ _) as [e|s] eqn:En; [by apply good_refl|].
    set (p' := set_active _ p). set (c1 := setPeerConn id p' _).
    assert (active p = None ∧ pending p = None) as [Ea Ep].
    { revert Ech. unfold choose. repeat case_match; try done. }
    assert (good c c1) as Hg.
    { eapply (start_good c c1 id p p' s); try done; eauto using responder_ok, responder_status. }
    assert (peers c1 !! id = Some p' ∧ sessions c1 !! alloc_session c = Some s) as [Hp' Hs']
      by (simpl; by rewrite !lookup_insert_eq).
    pose proof (drive_good i id p' (alloc_session c) false data c1 s) as Hdr.
    destruct (drive _ _ _ _) as [o c2]. eapply good_trans; [done|]. apply Hdr; try done.
    { apply Hg. }
    unfold driving, p'. simpl. rewrite (responder_status _ _ _ En). by split_and!.
  - destruct (newResponderSession _ _) as [e|s] eqn:En.
    { simpl. assert (active (set_last (in_now i) p) = active p) by done.
      apply (same_sessions_good c _ id p (set_last (in_now i) p)); done. }
    set (p' := set_pending _ _). set (c1 := setPeerConn id p' _).
    assert (good c c1) as Hg.
    { eapply (start_good c c1 id p p' s); try done; eauto using responder_ok, responder_status. }
    assert (peers c1 !! id = Some p' ∧ sessions c1 !! alloc_session c = Some s) as [Hp' Hs']
      by (simpl; by rewrite !lookup_insert_eq).
    pose proof (drive_good i id p' (alloc_session c) true data c1 s) as Hdr.
    destruct (drive _ _ _ _) as [o c2]. eapply good_trans; [done|]. apply Hdr; try done.
    apply Hg.
  - by apply good_refl.
Qed.

Lemma sole_peer pick c id p : getSolePeer pick c = Some (id, p) → peers c !! id = Some p.
Proof. intros E. apply list_elem_of_lookup_2 in E. by apply elem_of_map_to_list. Qed.

Lemma handshake_good i payload c :
  client_ok c → good c (handleHandshakeEnvelope i payload c).
Proof.
  intros Hc. unfold handleHandshakeEnvelope.
  destruct (getSolePeer (in_pick i) c) as [[id p]|] eqn:Ep; [|by apply good_refl].
  apply sole_peer in Ep. pose proof (envelope_good i id p payload c Hc Ep) as Hg.
  destruct (peer_handleHandshakeEnvelope i id p payload c) as [[[[reply done] wp] err] c'].
  exact Hg.
Qed.

(** Using the ciphers of a session. *)
Lemma cipher_good c c' id p r s s' :
  client_ok c → peers c !! id = Some p → active p = Some r → sessions c !! r = Some s →
  session_ok s' → status s' = status s → peerStatic s' = peerStatic s →
  peers c' = peers c → sessions c' = <[r := s']> (sessions c) → peerStore c' = peerStore c →
  good c c'.
Proof.
  intros Hc Hp Ha Hs Hok Est Eps E1 E2 E3. split_and!.
  - destruct Hc. split; rewrite ?E1, ?E2, ?E3; try done.
    + intros x q y Hq Ho. rewrite lookup_insert_is_Some. destruct (decide (r = y)); eauto.
    + intros y t. rewrite lookup_insert_Some. naive_solver.
    + intros x q y t Hq Ho. rewrite lookup_insert_Some. intros [[<- <-]|[_ Ht]]; [|by eauto].
      rewrite Est. eauto.
    + intros x q y t Hq Ho. rewrite lookup_insert_Some. intros [[<- <-]|[_ Ht]]; [|by eauto].
      rewrite Est, Eps. eauto.
  - intros x q. by rewrite E3.
  - intros x (k & q & y & t & Hq & Hy & Ht & Hr & Ek).
    destruct (decide (y = r)) as [->|].
    + exists k, q, r, s'. rewrite E1, E2, lookup_insert_eq. split_and!; congruence.
    + exists k, q, y, t. rewrite E1, E2, lookup_insert_ne by done. done.
Qed.

Lemma encrypt_kind p s : status (encrypt p s).2 = status s ∧ peerStatic (encrypt p s).2 = peerStatic s.
Proof. unfold encrypt. repeat case_match; done. Qed.

Lemma decrypt_kind d s : status (decrypt d s).2 = status s ∧ peerStatic (decrypt d s).2 = peerStatic s.
Proof. unfold decrypt. repeat case_match; done. Qed.

Lemma send_good id payload c : client_ok c → good c (Send id payload c).2.
Proof.
  intros Hc. unfold Send, getPeerConn, peer_send, session_of.
  destruct (peers c !! id) as [p|] eqn:Hp; [|by apply good_refl].
  destruct (active p) as [r|] eqn:Ha; [|by apply good_refl].
  destruct (sessions c !! r) as [s|] eqn:Hs; [|by apply good_refl].
  pose proof (encrypt_ok payload s (ck_sessions c Hc r s Hs)) as Hok.
  destruct (encrypt_kind payload s) as [E1 E2].
  destruct (encrypt payload s) as [[e|x] s']; simpl in *; by eapply cipher_good.
Qed.

Lemma transport_good i d c : client_ok c → good c (handleTransportEnvelope i d c).
Proof.
  intros Hc. unfold handleTransportEnvelope, recv, session_of.
  destruct (getSolePeer (in_pick i) c) as [[id p]|] eqn:Hp; [|by apply good_refl].
  apply sole_peer in Hp.
  destruct (active p) as [r|] eqn:Ha; [|by apply good_refl].
  destruct (sessions c !! r) as [s|] eqn:Hs; [|by apply good_refl].
  pose proof (decrypt_ok d s (ck_sessions c Hc r s Hs)) as Hok.
  destruct (decrypt_kind d s) as [E1 E2].
  destruct (decrypt d s) as [[e|x] s']; simpl in *; [by eapply cipher_good|].
  case_decide; by eapply cipher_good.
Qed.

(** *** Control frames *)

(** A change outside the peers, the sessions and the store. *)
Definition same_core (c c' : Client) : Prop :=
  peers c' = peers c ∧ sessions c' = sessions c ∧ peerStore c' = peerStore c.

Lemma core_good c c' : client_ok c → same_core c c' → good c c'.
Proof. intros Hc (? & ? & ?). by apply good_same. Qed.

Lemma take_core key c : same_core c (takePairWaiter key c).2.
Proof. unfold takePairWaiter. by destruct (pairWaiters c !! key). Qed.

Lemma pair_code_core frame c : same_core c (handlePairCode frame c).
Proof.
  unfold handlePairCode. pose proof (take_core "__request__" c) as Ht.
  destruct (takePairWaiter "__request__" c) as [[w|] c1]; exact Ht.
Qed.

Lemma error_core frame c : same_core c (handleError frame c).
Proof.
  unfold handleError. set (err := errForCode _ _). clearbody err.
  assert (∀ l : list (string * pairWaiter),
    same_core c (foldr (λ kw c, notify (pw_ch kw.2) (failed_result err) c) c l)) as Hl.
  { intros l. induction l as [|kw l IH]; [done|]. exact IH. }
  apply (Hl (map_to_list (pairWaiters c))).
Qed.

Lemma peer_status_good i frame c : client_ok c → good c (handlePeerStatus i frame c).
Proof.
  intros Hc. unfold handlePeerStatus, getPeerConn. set (c1 := fire _ c).
  assert (good c c1) as Hg by by apply core_good.
  destruct (default false (cm_Online frame)); [|done].
  destruct (peers c1 !! cm_PeerID frame) as [p|] eqn:Hp; [|done].
  destruct (string_ge _ _); [done|]. unfold startRekeyAsInitiator.
  destruct (newInitiatorSession _ _) as [e|[s m]] eqn:En; [done|].
  eapply good_trans; [done|]. eapply (start_good c1 _ _ p _ s); try done; [apply Hg|..];
    eauto using initiator_ok, initiator_status, ck_ids.
  simpl. eapply ck_ids; [exact Hc|done].
Qed.

(** A completed pairing replaces the peer, with no session at first. *)
Lemma pair_complete_ok i frame c :
  client_ok c → client_ok (handlePairComplete i frame c) ∧ pins_kept c (handlePairComplete i frame c).
Proof.
  intros Hc. unfold handlePairComplete. pose proof (take_core (cm_Code frame) c) as Ht.
  destruct (takePairWaiter (cm_Code frame) c) as [[w|] c1]; cycle 1.
  { destruct (core_good c c1 Hc Ht) as (? & ? & _). done. }
  destruct Ht as (T1 & T2 & T3). simpl in T1, T2, T3. set (id := cm_PeerID frame).
  set (p := setFirstPairWaiter _ _). set (c2 := setPeerConn id p c1).
  assert (client_ok c2) as H2.
  { apply (client_ok_update c _ id p); try done; simpl.
    - by rewrite T1.
    - rewrite T2. by left.
    - intros r [E|E]; by unfold p in E.
    - rewrite T2. by eapply ck_sessions.
    - by rewrite T3. }
  assert (pins_kept c c2) as P2 by (intros x q; unfold c2; simpl; by rewrite T3).
  destruct (weAreAcceptor w); [|done]. unfold startAsInitiator.
  destruct (newInitiatorSession _ _) as [e|[s m]] eqn:En.
  - assert (good c2 (setPeerConn id (clearFirstPairWaiter p) c2)) as (H3 & P3 & _).
    { apply (same_sessions_good c2 _ id p (clearFirstPairWaiter p)); try done.
      simpl. by rewrite lookup_insert_eq. }
    split; [eapply client_ok_same; [..|exact H3]; done|done].
  - assert (good c2 (setPeerConn id (set_active (Some (alloc_session c2)) p)
      (set_session (alloc_session c2) s c2))) as (H3 & P3 & _).
    { eapply (start_good c2 _ id p _ s); try done; eauto using initiator_ok, initiator_status.
      simpl. by rewrite lookup_insert_eq. }
    split; [eapply client_ok_same; [..|exact H3]; done|done].
Qed.

Lemma dispatch_ok i frame c :
  client_ok c → client_ok (dispatch i frame c) ∧ pins_kept c (dispatch i frame c) ∧
  (pairWaiters c = ∅ → pairWaiters (dispatch i frame c) = ∅ ∧ good c (dispatch i frame c)).
Proof.
  intros Hc. assert (∀ c', good c c' → (pairWaiters c = ∅ → pairWaiters c' = ∅) →
    client_ok c' ∧ pins_kept c c' ∧ (pairWaiters c = ∅ → pairWaiters c' = ∅ ∧ good c c')) as Hgood.
  { intros c' Hg Hw. destruct Hg as (? & ? & ?). split_and!; try done. intros E. split; [auto|done]. }
  unfold dispatch. case_decide; [|case_decide; [|case_decide; [|case_decide]]].
  - apply Hgood; [apply core_good; [done|apply pair_code_core]|].
    intros E. unfold handlePairCode, takePairWaiter. by rewrite E, lookup_empty.
  - destruct (pair_complete_ok i frame c Hc). split_and!; [done..|]. intros E.
    unfold handlePairComplete, takePairWaiter. rewrite E, lookup_empty.
    split; [done|by apply good_refl].
  - apply Hgood; [by apply peer_status_good|]. intros E. unfold handlePeerStatus, getPeerConn.
    repeat (case_match; simplify_eq/=; try done); unfold startRekeyAsInitiator in *;
      repeat (case_match; simplify_eq/=; try done).
  - apply Hgood; [apply core_good; [done|apply error_core]|done].
  - apply Hgood; [by apply good_refl|done].
Qed.

(** *** Reconnecting *)

Lemma new_peer_good c id announced :
  client_ok c → peers c !! id = None →
  good c (setPeerConn id (newPeerConn id announced) c).
Proof.
  intros Hc Hn. split_and!; [|by intros x q|].
  - apply (client_ok_update c _ id (newPeerConn id announced)); try done.
    + by left.
    + intros r [E|E]; discriminate E.
    + apply (ck_sessions c Hc).
  - intros x. apply alive_keep. intros p r Hp Ha. exists p.
    simpl. by rewrite lookup_insert_ne by congruence.
Qed.

Lemma welcome_good ps c :
  client_ok c → good c (applyWelcomePeers ps c) ∧ pairWaiters (applyWelcomePeers ps c) = pairWaiters c.
Proof.
  revert c. induction ps as [|p ps IH]; intros c Hc; [by split; [apply good_refl|]|].
  cbn [applyWelcomePeers]. unfold getPeerConn. destruct (peers c !! pi_ID p) eqn:E; [by apply IH|].
  pose proof (new_peer_good c (pi_ID p) (pi_StaticKey p) Hc E) as Hg.
  destruct (IH _ (proj1 Hg)) as [Hg' ->]. split; [by eapply good_trans|done].
Qed.

Lemma dial_good first wrote c :
  client_ok c → good c (dial first wrote c).2 ∧ pairWaiters (dial first wrote c).2 = pairWaiters c.
Proof.
  intros Hc. pose proof (good_refl c Hc). unfold dial.
  destruct first as [[[] data]|]; [|done..].
  destruct (Unmarshal data) as [m|]; [|done]. do 3 (case_decide; [done|]).
  destruct wrote; by apply welcome_good.
Qed.

(** *** Everything that happens to a client *)

Inductive event :=
  | ERead (i : input) (k : msgKind) (data : bytes)        (* a frame from the relay *)
  | EDial (first : option (msgKind * bytes)) (wrote : bool)  (* a new connection *)
  | ESend (peerID : string) (payload : bytes)
  | ERequest (ch : chan)
  | EAnswer (ch : chan) (result : PairResult)
  | EAccept (ch : chan) (code : string)
  | EGiveUp (key : string).                               (* the caller's context ended *)

Definition handle (c : Client) (e : event) : Client :=
  match e with
  | ERead i k data => readLoop_frame i k data c
  | EDial first wrote => (dial first wrote c).2
  | ESend id payload => (Send id payload c).2
  | ERequest ch => RequestPairCode_begin ch c
  | EAnswer ch result => (RequestPairCode_answer ch result c).2
  | EAccept ch code => AcceptPair_begin ch code c
  | EGiveUp key => removePairWaiter key c
  end.

(** No pairing is started. *)
Definition no_pairing (e : event) : Prop :=
  match e with ERequest _ | EAnswer _ _ | EAccept _ _ => False | _ => True end.

(** [Connect] before it dials. *)
Definition new_client (id : string) (priv : PrivateKey) (ps : PeerStore) : Client :=
  MkClient id priv ps ∅ ∅ [] [] ∅ ∅ [].

Lemma new_client_ok id priv ps : client_ok (new_client id priv ps).
Proof. split; unfold new_client; simpl; intros *; by rewrite lookup_empty. Qed.

Lemma send_waiters id payload c : pairWaiters (Send id payload c).2 = pairWaiters c.
Proof.
  unfold Send, getPeerConn, peer_send, session_of. repeat (case_match; simplify_eq/=; try done).
Qed.

Lemma resolve_waiters i id p r wp err c :
  pairWaiters (resolveHandshake i id p r wp err c) = pairWaiters c.
Proof.
  unfold resolveHandshake. destruct (judge i p r err c) as [v c1] eqn:E.
  assert (pairWaiters c1 = pairWaiters c) as <-.
  { revert E. unfold judge, verifyAndPin, session_of. repeat case_match; intros; simplify_eq/=; done. }
  destruct v, wp; simpl; try done; by destruct (firstPairWaiter _).
Qed.

Lemma handshake_waiters i payload c :
  pairWaiters (handleHandshakeEnvelope i payload c) = pairWaiters c.
Proof.
  assert (∀ r wp d c0, pairWaiters (drive r wp d c0).2 = pairWaiters c0) as Hd.
  { intros. unfold drive, session_of. case_match; [|done]. by case_match; repeat case_match. }
  unfold handleHandshakeEnvelope. destruct (getSolePeer _ _) as [[id p]|]; [|done].
  destruct (peer_handleHandshakeEnvelope i id p payload c) as [o c1] eqn:E.
  assert (pairWaiters c1 = pairWaiters c) as <-.
  { change c1 with (o, c1).2. rewrite <- E. unfold peer_handleHandshakeEnvelope.
    destruct (choose _ _ _); try done;
      cbv zeta; (destruct (newResponderSession _ _); [done|]); by rewrite Hd. }
  destruct o as [[[[m|] [r|]] wp] err]; simpl; try done; unfold getPeerConn; simpl;
    (destruct (peers c1 !! id); [by rewrite resolve_waiters|done]).
Qed.

Lemma handle_good c e :
  client_ok c → client_ok (handle c e) ∧ pins_kept c (handle c e) ∧
  (no_pairing e → pairWaiters c = ∅ → pairWaiters (handle c e) = ∅ ∧ good c (handle c e)).
Proof.
  intros Hc. assert (∀ c', good c c' → (no_pairing e → pairWaiters c = ∅ → pairWaiters c' = ∅) →
    client_ok c' ∧ pins_kept c c' ∧
    (no_pairing e → pairWaiters c = ∅ → pairWaiters c' = ∅ ∧ good c c')) as Hgood.
  { intros c' Hg Hw. pose proof Hg as (? & ? & ?). by split_and!; auto. }
  destruct e as [i k data|first wrote|id payload|ch|ch result|ch code|key]; simpl.
  - unfold readLoop_frame. pose proof (good_refl c Hc) as Hr. destruct k.
    + destruct (Unmarshal data) as [f|]; [|by apply Hgood].
      destruct (dispatch_ok i f c Hc) as (? & ? & ?). by split_and!; auto.
    + destruct (decodeEnvelope data) as [[kind payload]|]; [|by apply Hgood].
      case_decide; [|case_decide; [|by apply Hgood]]; apply Hgood;
        auto using handshake_good, transport_good; intros _ Hw.
      * by rewrite handshake_waiters.
      * unfold handleTransportEnvelope, recv, session_of.
        repeat (case_match; simplify_eq/=; try done).
  - destruct (dial_good first wrote c Hc) as [Hg E]. apply Hgood; [done|]. by rewrite E.
  - apply Hgood; [by apply send_good|]. by rewrite send_waiters.
  - apply Hgood; [by apply good_same|done].
  - apply Hgood; [|done]. apply good_same; [done|..]; unfold RequestPairCode_answer; by case_match.
  - apply Hgood; [by apply good_same|done].
  - apply Hgood; [by apply good_same|]. intros _ E. simpl. rewrite E. apply delete_empty.
Qed.

Lemma handle_all es c : client_ok c → client_ok (foldl handle c es) ∧ pins_kept c (foldl handle c es).
Proof.
  revert c. induction es as [|e es IH]; intros c Hc; [split; [done|by intros x q]|].
  destruct (handle_good c e Hc) as (H1 & P1 & _). destruct (IH _ H1) as [H2 P2].
  split; [done|]. intros x q Hq. by apply P2, P1.
Qed.

Lemma handle_all_good es c :
  client_ok c → Forall no_pairing es → pairWaiters c = ∅ → good c (foldl handle c es).
Proof.
  intros Hc Hes. revert c Hc. induction Hes as [|e es He _ IH]; intros c Hc Hw; [by apply good_refl|].
  destruct (handle_good c e Hc) as (H1 & _ & G). destruct (G He Hw) as [Hw1 Hg].
  eapply good_trans; [done|]. by apply IH.
Qed.


End invariant.

(** ** Concrete runs *)

Import ToyNoise.

Definition ex_key : bytes := "abcdefghijklmnopqrstuvwxyz012345".
Definition ex_input : input := Input (10 * Second) "" true "2025-01-01T00:00:00Z" 0.
Definition ex_store : PeerStore := MkPeerStore ∅ None.

(** The frames a client that asked for a code reads until its first session is ready. *)
Definition ex_paired : list event := [
  ERequest 0;
  ERead ex_input TextMessage
    (Marshal (ControlMessage msgTypePairCode 0 "" [] "" "CODE" 300 "" "" None ""));
  EAnswer 0 (MkPairResult "CODE" 300 "" "" None);
  ERead ex_input TextMessage
    (Marshal (ControlMessage msgTypePairComplete 0 "" [] "" "CODE" 0 "alice" "" None ""));
  ERead ex_input BinaryMessage (encodeEnvelope envelopeHandshake "1");
  ERead ex_input BinaryMessage (encodeEnvelope envelopeHandshake (String "3" ex_key))
].

(** Noise on the line, an injected handshake and a message. *)
Definition ex_noise : list event := [
  ERead ex_input BinaryMessage (encodeEnvelope envelopeHandshake "junk");
  ESend "alice" "hello";
  ERead ex_input TextMessage "{}";
  ERead ex_input BinaryMessage "";
  ERead (Input (20 * Second) "" true "" 0) BinaryMessage (encodeEnvelope envelopeHandshake "1");
  ERead (Input (20 * Second) "" true "" 0) BinaryMessage
    (encodeEnvelope envelopeHandshake "3another key")
].

(** Whether the peer has a usable session with the key. *)
Definition is_healthy `{NoiseLib} (c : Client) (id : string) (key : bytes) : bool :=
  match p ← peers c !! id; r ← active p; sessions c !! r with
  | Some s => bool_decide (status s = statusReady ∧ peerStatic s = key)
  | None => false
  end.

Lemma is_healthy_sound `{NoiseLib} c id key : is_healthy c id key = true → healthy c id key.
Proof.
  unfold is_healthy, healthy. destruct (peers c !! id) as [p|] eqn:Ep; [|done]. simpl.
  destruct (active p) as [r|] eqn:Ea; [|done]. simpl.
  destruct (sessions c !! r) as [s|] eqn:Es; [|done].
  intros [E1 E2]%bool_decide_eq_true. by exists p, r, s.
Qed.


