(* ===== verification/SdkPair.v ===== *)
(** * Two clients end to end

    Two clients connected by a relay that forwards frames: from the [pair_complete] frame
    each receives, through the Noise exchange, to messages in both directions. *)

From S2P Require Import Prelude Keys Json Wire SendQueue Noise PeerStore Sdk.

Section pair.
Context `{NoiseLaws}.

(** The relay hands a frame the other client sent to this one. *)
Definition deliver (i : input) (f : outFrame) (c : Client) : Client :=
  readLoop_frame i (of_kind f) (of_data f) c.

Definition handshakeFrame (m : bytes) : outFrame :=
  OutFrame BinaryMessage (encodeEnvelope envelopeHandshake m).
Definition transportFrame (m : bytes) : outFrame :=
  OutFrame BinaryMessage (encodeEnvelope envelopeTransport m).

(** Parts of a client a handshake in progress leaves alone. *)
Definition untouched (c c' : Client) : Prop :=
  opt_PrivateKey c' = opt_PrivateKey c ∧ peerStore c' = peerStore c ∧ messages c' = messages c ∧
  results c' = results c ∧ callbacks c' = callbacks c.

(** A client whose only peer is [id], in its first handshake. *)
Definition shaking (c : Client) (id announced : string) (ch : chan) (r : sref) (s : noiseSession)
    : Prop :=
  peers c = {[id := PeerConn id announced (Some r) None (Some ch) None]} ∧ sessions c !! r = Some s.

(** A client whose only peer is [id], with a finished first handshake. *)
Definition joined (c : Client) (id announced : string) (r : sref) (s : noiseSession) : Prop :=
  peers c = {[id := PeerConn id announced (Some r) None None None]} ∧ sessions c !! r = Some s.

Lemma sole_singleton pick c id p : peers c = {[id := p]} → getSolePeer pick c = Some (id, p).
Proof. intros E. unfold getSolePeer. rewrite E, map_to_list_singleton. simpl length. by rewrite Nat.mod_1_r. Qed.

Lemma deliver_handshake i m c : deliver i (handshakeFrame m) c = handleHandshakeEnvelope i m c.
Proof. done. Qed.

Lemma deliver_transport i m c : deliver i (transportFrame m) c = handleTransportEnvelope i m c.
Proof. done. Qed.

Lemma complete_frame i data f c :
  Unmarshal data = Some f → cm_Type f = msgTypePairComplete →
  readLoop_frame i TextMessage data c = handlePairComplete i f c.
Proof. intros E Ht. unfold readLoop_frame, dispatch. by rewrite E, Ht. Qed.

(** The side that accepted the code starts the handshake. *)
Lemma acceptor_starts i data f c ch s m :
  Unmarshal data = Some f → cm_Type f = msgTypePairComplete →
  peers c = ∅ → pairWaiters c !! cm_Code f = Some (PairWaiter ch true) →
  newInitiatorSession (in_seed i) (opt_PrivateKey c) = inr (s, m) →
  let c' := readLoop_frame i TextMessage data c in
  (∃ r, shaking c' (cm_PeerID f) (cm_PeerStaticKey f) ch r s) ∧ untouched c c' ∧
  sends c' = sends c ++ [handshakeFrame m].
Proof.
  intros Ej Et Ep Ew En. rewrite (complete_frame _ _ _ _ Ej Et).
  unfold handlePairComplete, takePairWaiter. rewrite Ew. cbv iota zeta.
  unfold startAsInitiator. simpl. rewrite En. simpl. split_and!; try done.
  eexists. split; simpl; [|by rewrite lookup_insert_eq].
  by rewrite Ep, insert_insert_eq, insert_empty.
Qed.

(** The side that asked for the code waits for the first message. *)
Lemma requester_waits i data f c ch :
  Unmarshal data = Some f → cm_Type f = msgTypePairComplete →
  peers c = ∅ → pairWaiters c !! cm_Code f = Some (PairWaiter ch false) →
  let c' := readLoop_frame i TextMessage data c in
  peers c' = {[cm_PeerID f := PeerConn (cm_PeerID f) (cm_PeerStaticKey f) None None (Some ch) None]} ∧
  untouched c c' ∧ sends c' = sends c.
Proof.
  intros Ej Et Ep Ew. rewrite (complete_frame _ _ _ _ Ej Et).
  unfold handlePairComplete, takePairWaiter. rewrite Ew. simpl. by rewrite Ep, insert_empty.
Qed.

Lemma responder_answers i m1 c id announced ch s s1 m2 :
  peers c = {[id := PeerConn id announced None None (Some ch) None]} →
  newResponderSession (in_seed i) (opt_PrivateKey c) = inr s →
  handleHandshakeMessage m1 s = ((Some m2, false, None), s1) →
  let c' := deliver i (handshakeFrame m1) c in
  (∃ r, shaking c' id announced ch r s1) ∧ untouched c c' ∧
  sends c' = sends c ++ [handshakeFrame m2].
Proof.
  intros Ep En Eh. rewrite deliver_handshake. unfold handleHandshakeEnvelope.
  rewrite (sole_singleton _ _ _ _ Ep). unfold peer_handleHandshakeEnvelope. simpl. rewrite En.
  unfold drive, session_of. simpl. rewrite lookup_insert_eq, Eh. simpl. split_and!; try done.
  eexists. split; simpl; [|by rewrite lookup_insert_eq]. by rewrite Ep, insert_singleton_eq.
Qed.

(** The client trusts [key] for the peer: it is the pinned one or can be pinned, and the
    relay announced it or nothing. *)
Definition trusts (i : input) (ps : PeerStore) (id announced : string) (key : bytes) : Prop :=
  (pins ps !! id = None ∧ in_saved i = true ∨
   ∃ p, pins ps !! id = Some p ∧ StaticKey p = encodeBase64 key) ∧
  (announced = "" ∨ announced = encodeBase64 key) ∧ slen key = 32%nat.

Lemma trusts_verified i p s c :
  trusts i (peerStore c) (pc_id p) (announcedStaticKey p) (peerStatic s) →
  ∃ ps, verifyAndPin i p s c = (inr (peerStatic s), with_store ps c) ∧
    StaticKey <$> pins ps !! pc_id p = Some (encodeBase64 (peerStatic s)).
Proof.
  intros (Hp & Ha & Hl). unfold verifyAndPin, PinOrVerify, saveLocked.
  assert (publicKeyFromBase64 (encodeBase64 (peerStatic s)) = Some (peerStatic s)) as ->.
  { unfold publicKeyFromBase64, keyFromBase64. rewrite decode_encode_Base64. simpl.
    by rewrite decide_True. }
  assert (¬ (announcedStaticKey p ≠ "" ∧ announcedStaticKey p ≠ encodeBase64 (peerStatic s)))
    as Hann by naive_solver.
  destruct Hp as [[-> ->]|(q & Hq & Hk)].
  - rewrite decide_False by done. eexists. split; [done|]. simpl. by rewrite lookup_insert_eq.
  - rewrite Hq. rewrite decide_False by naive_solver. rewrite decide_False by done.
    exists (peerStore c). split; [done|]. rewrite Hq. simpl. by rewrite Hk.
Qed.

Lemma driven_not_ready d s reply done s' :
  handleHandshakeMessage d s = ((reply, done, None), s') → status s ≠ statusReady.
Proof. unfold handleHandshakeMessage. intros E Hs. by rewrite Hs, decide_True in E. Qed.

(** The message that ends a first handshake. *)
Lemma handshake_ends i d c id announced ch r s s' reply :
  shaking c id announced ch r s → status s ≠ statusReady →
  handleHandshakeMessage d s = ((reply, true, None), s') →
  trusts i (peerStore c) id announced (peerStatic s') →
  let c' := deliver i (handshakeFrame d) c in
  joined c' id announced r s' ∧
  StaticKey <$> pins (peerStore c') !! id = Some (encodeBase64 (peerStatic s')) ∧
  messages c' = messages c ∧ opt_PrivateKey c' = opt_PrivateKey c ∧
  sends c' = sends c ++ (if reply is Some m then [handshakeFrame m] else []) ∧
  results c' = <[ch := default [] (results c !! ch) ++
                       [MkPairResult "" 0 id (peerStatic s') None]]> (results c) ∧
  callbacks c' = callbacks c ++ [OnReady id].
Proof.
  intros [Ep Es] Hs Eh Ht. rewrite deliver_handshake. unfold handleHandshakeEnvelope.
  rewrite (sole_singleton _ _ _ _ Ep). unfold peer_handleHandshakeEnvelope, choose, drive, session_of.
  simpl. rewrite Es. unfold ready. rewrite bool_decide_false by done. rewrite Es, Eh.
  set (c1 := match reply with Some _ => _ | None => _ end).
  assert (peers c1 = peers c ∧ sessions c1 = <[r := s']> (sessions c) ∧ peerStore c1 = peerStore c ∧
    messages c1 = messages c ∧ opt_PrivateKey c1 = opt_PrivateKey c ∧ results c1 = results c ∧
    callbacks c1 = callbacks c ∧
    sends c1 = sends c ++ (if reply is Some m then [handshakeFrame m] else []))
    as (E1 & E2 & E3 & E4 & E5 & E6 & E7 & E8).
  { unfold c1. destruct reply; simpl; rewrite ?app_nil_r; done. }
  clearbody c1. unfold getPeerConn. rewrite E1, Ep, lookup_singleton_eq.
  set (p := PeerConn _ _ _ _ _ _). unfold resolveHandshake, judge, session_of.
  rewrite E2, lookup_insert_eq.
  destruct (trusts_verified i p s' c1) as (ps & -> & Hpin); [by rewrite E3|].
  simpl. rewrite E4, E5, E6, E7, E8. split_and!; try done.
  split; simpl; [|by rewrite E2, lookup_insert_eq]. by rewrite E1, Ep, insert_singleton_eq.
Qed.

(** *** Messages *)

(** Two clients, each the other's only peer, with sessions that belong together. *)
Definition talking (a : Client) (ida : string) (b : Client) (idb : string) : Prop :=
  ∃ na ra sa nb rb sb, joined a idb na ra sa ∧ joined b ida nb rb sb ∧
    channel sa sb ∧ channel sb sa.

Lemma talking_sym a ida b idb : talking a ida b idb → talking b idb a ida.
Proof. intros (na & ra & sa & nb & rb & sb & ? & ? & ? & ?). by exists nb, rb, sb, na, ra, sa. Qed.

Lemma joined_update c c' id n r s s' :
  joined c id n r s → peers c' = peers c → sessions c' = <[r := s']> (sessions c) →
  joined c' id n r s'.
Proof. intros [Ep _] E1 E2. split; [congruence|]. by rewrite E2, lookup_insert_eq. Qed.

Lemma joined_send payload c id n r s :
  joined c id n r s →
  Send id payload c =
    match encrypt payload s with
    | (inl e, s') => (Some e, set_session r s' c)
    | (inr x, s') => (None, enqueueBinary envelopeTransport x (set_session r s' c))
    end.
Proof.
  intros [Ep Es]. unfold Send, getPeerConn, peer_send, session_of.
  rewrite Ep, lookup_singleton_eq. simpl. rewrite Es. by destruct (encrypt payload s) as [[e|x] s'].
Qed.

Lemma send_received payload a ida b idb a' :
  talking a ida b idb → Send idb payload a = (None, a') →
  ∃ f, sends a' = sends a ++ [f] ∧ messages a' = messages a ∧
    ∀ i, let b' := deliver i f b in
      talking a' ida b' idb ∧ sends b' = sends b ∧
      messages b' = if decide (length (messages b) < messagesCapacity)
                    then messages b ++ [MkMessage ida payload (in_now i)] else messages b.
Proof.
  intros (na & ra & sa & nb & rb & sb & Ja & Jb & Cab & Cba) Hsend.
  rewrite (joined_send payload a idb na ra sa Ja) in Hsend.
  destruct (encrypt payload sa) as [[e|x] sa'] eqn:Ee; [done|]. injection Hsend as <-.
  destruct (channel_step _ _ _ _ _ Cab Ee) as (sb' & Ed & Cab' & K1 & K2 & K3 & K4 & _).
  exists (transportFrame x). split_and!; [done..|]. intros i. rewrite deliver_transport.
  assert (channel sb' sa') as Cba'.
  { destruct Cba as (? & ? & k & l & ? & ? & ?). unfold channel. rewrite K1, K2, K3, K4. naive_solver. }
  unfold handleTransportEnvelope. rewrite (sole_singleton _ _ _ _ (proj1 Jb)).
  unfold recv, session_of. simpl. rewrite (proj2 Jb), Ed.
  change (messages (set_session rb sb' b)) with (messages b).
  split; [|by case_decide].
  exists na, ra, sa', nb, rb, sb'. split_and!; try done;
    [by eapply joined_update|by case_decide; eapply joined_update].
Qed.

(** All payloads sent, none refused. *)
Fixpoint send_all (id : string) (ps : list bytes) (c : Client) : option Client :=
  match ps with
  | [] => Some c
  | p :: ps => match Send id p c with (None, c') => send_all id ps c' | (Some _, _) => None end
  end.

Definition deliver_all (i : input) (fs : list outFrame) (c : Client) : Client :=
  foldl (λ c f, deliver i f c) c fs.

Lemma all_received i ps a ida b idb a' :
  talking a ida b idb → send_all idb ps a = Some a' →
  length (messages b) + length ps ≤ messagesCapacity →
  ∃ fs, sends a' = sends a ++ fs ∧ messages a' = messages a ∧
    let b' := deliver_all i fs b in
    talking a' ida b' idb ∧ sends b' = sends b ∧
    messages b' = messages b ++ ((λ p, MkMessage ida p (in_now i)) <$> ps).
Proof.
  revert a b. induction ps as [|p ps IH]; simpl; intros a b Ht Hs Hlen.
  { injection Hs as <-. exists []. simpl. by rewrite !app_nil_r. }
  destruct (Send idb p a) as [[e|] a1] eqn:E; [done|].
  destruct (send_received p a ida b idb a1 Ht E) as (f & S1 & M1 & Hd).
  destruct (Hd i) as (T1 & S2 & M2). rewrite decide_True in M2 by lia.
  destruct (IH a1 (deliver i f b) T1 Hs) as (fs & S3 & M3 & T3 & S4 & M4).
  { rewrite M2, length_app. simpl. lia. }
  exists (f :: fs). rewrite S3, S1, <- app_assoc, M3.
  change (deliver_all i (f :: fs) b) with (deliver_all i fs (deliver i f b)). split_and!; try done.
  - by rewrite S4.
  - by rewrite M4, M2, <- app_assoc.
Qed.

(** *** The whole pairing *)

(** What the two sides are told when their pairing completes: the frame, the waiter, and
    no other peer. *)
Record told (c : Client) (data : bytes) (f : controlMessage) (peer : string) (ch : chan)
    (acceptor : bool) : Prop := {
  told_frame : Unmarshal data = Some f;
  told_type : cm_Type f = msgTypePairComplete;
  told_peer : cm_PeerID f = peer;
  told_waiter : pairWaiters c !! cm_Code f = Some (PairWaiter ch acceptor);
  told_first : peers c = ∅
}.

Section exchange.
Variables (i1 i2 i3 i4 i5 : input) (a b : Client) (ida idb : string).
Variables (da db : bytes) (fa fb : controlMessage) (cha chb : chan).
Hypothesis Ha : told a da fa idb cha true.
Hypothesis Hb : told b db fb ida chb false.
(** The Noise library does not run out of randomness. *)
Variables (si sr sr1 si1 : noiseSession) (m1 m2 m3 : bytes).
Hypothesis Hi : newInitiatorSession (in_seed i1) (opt_PrivateKey a) = inr (si, m1).
Hypothesis Hr : newResponderSession (in_seed i3) (opt_PrivateKey b) = inr sr.
Hypothesis H1 : handleHandshakeMessage m1 sr = ((Some m2, false, None), sr1).
Hypothesis H2 : handleHandshakeMessage m2 si = ((Some m3, true, None), si1).

Let pa : PublicKey := ScalarBaseMult (opt_PrivateKey a).
Let pb : PublicKey := ScalarBaseMult (opt_PrivateKey b).
Hypothesis Hta : trusts i4 (peerStore a) idb (cm_PeerStaticKey fa) pb.
Hypothesis Htb : trusts i5 (peerStore b) ida (cm_PeerStaticKey fb) pa.

(** The pairing: both are told, then the three messages cross. *)
Definition pairing_run : Client * Client :=
  let a1 := readLoop_frame i1 TextMessage da a in
  let b1 := readLoop_frame i2 TextMessage db b in
  let b2 := deliver i3 (handshakeFrame m1) b1 in
  let a2 := deliver i4 (handshakeFrame m2) a1 in
  let b3 := deliver i5 (handshakeFrame m3) b2 in
  (a2, b3).

Lemma pairing_result :
  let '(a', b') := pairing_run in
  sends a' = sends a ++ [handshakeFrame m1; handshakeFrame m3] ∧
  sends b' = sends b ++ [handshakeFrame m2] ∧
  talking a' ida b' idb ∧
  StaticKey <$> pins (peerStore a') !! idb = Some (encodeBase64 pb) ∧
  StaticKey <$> pins (peerStore b') !! ida = Some (encodeBase64 pa) ∧
  results a' !! cha = Some (default [] (results a !! cha) ++ [MkPairResult "" 0 idb pb None]) ∧
  results b' !! chb = Some (default [] (results b !! chb) ++ [MkPairResult "" 0 ida pa None]) ∧
  callbacks a' = callbacks a ++ [OnReady idb] ∧ callbacks b' = callbacks b ++ [OnReady ida] ∧
  messages a' = messages a ∧ messages b' = messages b.
Proof.
  destruct Ha as [A1 A2 A3 A4 A5], Hb as [B1 B2 B3 B4 B5].
  destruct (acceptor_starts i1 da fa a cha si m1 A1 A2 A5 A4 Hi) as ([ra Sa] & Ua & Na).
  destruct (requester_waits i2 db fb b chb B1 B2 B5 B4) as (Pb & Ub & Nb).
  unfold pairing_run. set (a1 := readLoop_frame i1 _ _ a) in *.
  set (b1 := readLoop_frame i2 _ _ b) in *. rewrite A3 in Sa. rewrite B3 in Pb.
  destruct Ua as (Ua1 & Ua2 & Ua3 & Ua4 & Ua5), Ub as (Ub1 & Ub2 & Ub3 & Ub4 & Ub5).
  destruct (responder_answers i3 m1 b1 ida (cm_PeerStaticKey fb) chb sr sr1 m2 Pb)
    as ([rb Sb] & (Vb1 & Vb2 & Vb3 & Vb4 & Vb5) & Nb2); [by rewrite Ub1|done|].
  set (b2 := deliver i3 _ b1) in *.
  destruct (xx_exchange _ _ _ _ si m1 sr _ sr1 (Some m3, true, None) si1 Hi Hr H1 eq_refl)
    as (m2' & Em & X). injection Em as <-.
  destruct (X H2 eq_refl) as (m3' & sr2 & Em & H3 & R1 & R2 & P1 & P2 & ki & kr & li & lr &
    S1 & S2 & S3 & S4 & Y1 & Y2). injection Em as <-.
  destruct (handshake_ends i4 m2 a1 idb (cm_PeerStaticKey fa) cha ra si si1 (Some m3))
    as (Ja & Ka & Ma & _ & Na2 & Ra & Ca); [done|by eapply driven_not_ready|done|by rewrite Ua2, P1|].
  destruct (handshake_ends i5 m3 b2 ida (cm_PeerStaticKey fb) chb rb sr1 sr2 None)
    as (Jb & Kb & Mb & _ & Nb3 & Rb & Cb);
    [done|by eapply driven_not_ready|done|by rewrite Vb2, Ub2, P2|].
  rewrite Na2, Nb3, Nb2, Ra, Rb, Ca, Cb, Ma, Mb, Ka, Kb, !lookup_insert_eq.
  rewrite Na, Nb, Ua4, Vb4, Ub4, Ua5, Vb5, Ub5, Ua3, Vb3, Ub3, P1, P2, <- !app_assoc.
  split_and!; try done. eexists _, _, _, _, _, _. split; [exact Ja|]. split; [exact Jb|].
  split; (split_and!; [assumption..|]); eexists _, _; split_and!; eassumption.
Qed.

End exchange.
End pair.

(** ** A concrete run *)

Import ToyNoise.

Definition ex_alice_key : bytes := "abcdefghijklmnopqrstuvwxyz012345".
Definition ex_bob_key : bytes := "ABCDEFGHIJKLMNOPQRSTUVWXYZ678901".

Definition ex_waiting `{NoiseLib} (id : string) (key : PrivateKey) (acceptor : bool) : Client :=
  MkClient id key (MkPeerStore ∅ None) ∅ ∅ [] [] {["CODE" := PairWaiter 0 acceptor]} ∅ [].

Definition ex_complete (peer : string) (key : bytes) : controlMessage :=
  ControlMessage msgTypePairComplete 0 "" [] "" "CODE" 0 peer (encodeBase64 key) None "".

Definition ex_turn : input := Input (10 * Second) "" true "2025-01-01T00:00:00Z" 0.

