(* ===== verification/GoTs.v ===== *)
(** * A Go client and a TypeScript client

    With the handshake of the TypeScript SDK in the place of github.com/flynn/noise the
    sessions of the two SDKs are alike ([SessionAlike]); a Go client and a TypeScript client
    pair with each other, whichever of the two accepts the code, and converse. *)

From S2P Require Import Prelude Keys Json Wire SendQueue Suite Noise TsNoise CppNoise TsWire NoiseInterop SessionAlike TsClient TsFacts TsPair PeerStore Sdk SdkPair.

#[local] Existing Instance Ts.ts_lib.
#[local] Existing Instance Ts.ts_laws.

Local Abbreviation GoClient := Sdk.Client.
Local Abbreviation TsClient := TsClient.Client.
Local Abbreviation GoSession := Noise.noiseSession.
Local Abbreviation TsSession := Ts.NoiseSession.

(** ** Sessions *)

Section sessions.
Context `{SuiteLaws}.

(** The three messages between a session of each SDK. *)
Lemma go_initiates seed a A b B rb gi m1 m2 tr1 m3 gi1 : getPublicKey a = Some A → getPublicKey b = Some B →
  newInitiatorSession seed a = inr (gi, m1) →
  Ts.handleHandshakeMessage m1 (Ts.startAsResponder (MkKeyPair b B) rb) = Some (Some m2, tr1) →
  handleHandshakeMessage m2 gi = ((Some m3, true, None), gi1) →
  ∃ ti1 tr2, alike gi1 ti1 ∧ peerStatic gi1 = B ∧ Ts.handleHandshakeMessage m3 tr1 = Some (None, tr2) ∧
    Ts.isSettled tr1 = false ∧ Ts.isReady tr2 = true ∧ Ts.s_peerStaticKey tr2 = Some A ∧
    NoiseInterop.channel ti1 tr2 ∧ NoiseInterop.channel tr2 ti1.
Proof.
  intros HA HB Hi H1 H2. pose proof (alike_starts seed a A HA) as Hs. rewrite Hi in Hs. destruct Hs as (ti & Ht & Hal).
  destruct (alike_handles _ _ _ _ _ _ _ Hal (initiator_handshaking _ _ _ _ Hi) H2) as (ti1 & H2' & Hal1 & _).
  destruct (three_messages a A b B _ rb ti m1 m2 tr1 m3 ti1 HA HB Ht H1 H2') as (tr2 & H3 & Hset & R1 & K1 & R2 & K2 & C1 & C2).
  exists ti1, tr2. destruct (alike_ready _ _ Hal1 R1) as [_ Hp]. rewrite K1 in Hp. by split_and!.
Qed.

Lemma go_responds seed a A b B rb ti m1 gr m2 gr1 m3 ti1 : getPublicKey a = Some A → getPublicKey b = Some B →
  Ts.startAsInitiator (MkKeyPair b B) rb = Some (ti, m1) → newResponderSession seed a = inr gr →
  handleHandshakeMessage m1 gr = ((Some m2, false, None), gr1) →
  Ts.handleHandshakeMessage m2 ti = Some (Some m3, ti1) →
  ∃ gr2 tr2, handleHandshakeMessage m3 gr1 = ((None, true, None), gr2) ∧ alike gr2 tr2 ∧ peerStatic gr2 = B ∧
    Ts.isReady ti1 = true ∧ Ts.s_peerStaticKey ti1 = Some A ∧
    NoiseInterop.channel ti1 tr2 ∧ NoiseInterop.channel tr2 ti1.
Proof.
  intros HA HB Ht Hr H1 H2. destruct (alike_responds seed a A HA) as (gr' & Hr' & Hg & Hal).
  rewrite Hr in Hr'. injection Hr' as <-.
  destruct (alike_handles _ _ _ _ _ _ _ Hal Hg H1) as (tr1 & H1' & Hal1 & _).
  destruct (three_messages b B a A rb _ ti m1 m2 tr1 m3 ti1 HB HA Ht H1' H2) as (tr2 & H3 & Hset & R1 & K1 & R2 & K2 & C1 & C2).
  assert (status gr1 = statusHandshaking) as Hg1.
  { unfold alike in Hal1. unfold Ts.isSettled in Hset. by destruct (status gr1), (Ts.s_status tr1). }
  destruct (handleHandshakeMessage m3 gr1) as [[[rep dn] e] gr2] eqn:E3.
  destruct (alike_handles _ _ _ _ _ _ _ Hal1 Hg1 E3) as (tr2' & H3' & Hal2 & Hdn).
  rewrite H3 in H3'. injection H3' as <- <-. destruct (alike_ready _ _ Hal2 R2) as [Hg2 Hp]. rewrite K2 in Hp.
  pose proof (ready_without_error _ _ _ _ _ _ Hg1 Hg2 E3) as ->. rewrite Hdn, R2 by done. exists gr2, tr2. by split_and!.
Qed.

(** A Go session can take the place of a TypeScript session with the same randomness. *)
Lemma go_takes_initiator seed a A b B rb ti m1 m2 tr1 m3 ti1 : getPublicKey a = Some A → getPublicKey b = Some B →
  Ts.startAsInitiator (MkKeyPair a A) (λ _, seed) = Some (ti, m1) →
  Ts.handleHandshakeMessage m1 (Ts.startAsResponder (MkKeyPair b B) rb) = Some (Some m2, tr1) →
  Ts.handleHandshakeMessage m2 ti = Some (Some m3, ti1) →
  ∃ gi gi1, newInitiatorSession seed a = inr (gi, m1) ∧ handleHandshakeMessage m2 gi = ((Some m3, true, None), gi1).
Proof.
  intros HA HB Hi H1 H2. pose proof (alike_starts seed a A HA) as Hs.
  destruct (newInitiatorSession seed a) as [e|[gi m]] eqn:Ei; [congruence|]. destruct Hs as (t & Ht & Hal).
  rewrite Hi in Ht. injection Ht as <- <-. pose proof (initiator_handshaking _ _ _ _ Ei) as Hg.
  destruct (handleHandshakeMessage m2 gi) as [[[rep dn] e] gi1] eqn:E2.
  destruct (alike_handles _ _ _ _ _ _ _ Hal Hg E2) as (t' & Ht' & Hal' & Hdn). rewrite H2 in Ht'. injection Ht' as <- <-.
  destruct (three_messages a A b B _ rb ti m1 m2 tr1 m3 ti1 HA HB Hi H1 H2) as (_ & _ & _ & R1 & _).
  destruct (alike_ready _ _ Hal' R1) as [Hg' _]. pose proof (ready_without_error _ _ _ _ _ _ Hg Hg' E2) as ->.
  exists gi, gi1. by rewrite E2, Hdn, R1.
Qed.

Lemma go_takes_responder seed a A m1 m2 tr1 : getPublicKey a = Some A →
  Ts.handleHandshakeMessage m1 (Ts.startAsResponder (MkKeyPair a A) (λ _, seed)) = Some (Some m2, tr1) →
  ∃ gr gr1, newResponderSession seed a = inr gr ∧ handleHandshakeMessage m1 gr = ((Some m2, false, None), gr1).
Proof.
  intros HA H1. destruct (alike_responds seed a A HA) as (gr & Hr & Hg & Hal). exists gr.
  pose proof (first_reply _ _ _ _ _ H1) as Hst. destruct (handleHandshakeMessage m1 gr) as [[[rep dn] e] gr1] eqn:E1.
  destruct (alike_handles _ _ _ _ _ _ _ Hal Hg E1) as (t' & Ht' & Hal' & Hdn). rewrite H1 in Ht'. injection Ht' as <- <-.
  exists gr1. unfold alike in Hal'. rewrite Hst in Hal'. assert (e = None) as ->.
  { revert E1 Hal'. unfold handleHandshakeMessage, failLocked. rewrite decide_False by naive_solver.
    repeat case_match; intros [= <- <- <- <-]; cbn; congruence. }
  rewrite Hdn by done. unfold Ts.isReady. by rewrite Hst.
Qed.
End sessions.

(** ** Clients *)

Section clients.
Context `{SuiteLaws}.

(** A Go client and a TypeScript client with sessions that belong together. *)
Definition bridged (g : GoClient) (idG : string) (c : TsClient) (idT : string) : Prop :=
  ∃ na rg sg tg p pc n r tc, joined g idT na rg sg ∧ alike sg tg ∧
    stands c idG p pc n ∧ TsClient.active pc = Some r ∧ TsClient.sessions c !! r = Some tc ∧
    NoiseInterop.channel tg tc ∧ NoiseInterop.channel tc tg.

(** The Go client sends, and the relay passes the frame on; [None] if the client refuses to. *)
Definition go_says (i : TsClient.input) (k : nat) (idT : string) (m : bytes) (s : GoClient * TsClient) : option (GoClient * TsClient) :=
  let '(g, c) := s in
  match Sdk.Send idT m g with
  | (None, g') => f ← last (sends g'); c' ← step i (SocketBinary k (of_data f)) c; Some (g', c')
  | (Some _, _) => None
  end.

(** ... and the TypeScript client. *)
Definition ts_says (i : TsClient.input) (j : Sdk.input) (q : promise) (idG : string) (m : bytes) (s : GoClient * TsClient)
    : option (GoClient * TsClient) :=
  let '(g, c) := s in
  c' ← step i (Call (TsClient.Send q idG m)) c;
  match drop (length (sent (out c))) (sent (out c')) with
  | [OutBinary _ x] => Some (deliver j (OutFrame BinaryMessage x) g, c')
  | _ => None
  end.

(** What one side says to the other. *)
Inductive saying := FromGo (i : TsClient.input) (k : nat) (m : bytes) | FromTs (i : TsClient.input) (j : Sdk.input) (q : promise) (m : bytes).

Definition say (idG idT : string) (s : GoClient * TsClient) (x : saying) : option (GoClient * TsClient) :=
  match x with
  | FromGo i k m => go_says i k idT m s
  | FromTs i j q m => ts_says i j q idG m s
  end.

Fixpoint converse (idG idT : string) (l : list saying) (s : GoClient * TsClient) : option (GoClient * TsClient) :=
  match l with
  | [] => Some s
  | x :: l => s' ← say idG idT s x; converse idG idT l s'
  end.

(** What each side hears. *)
Definition for_go (idT : string) (l : list saying) : list Message :=
  omap (λ x, match x with FromTs _ j _ m => Some (MkMessage idT m (in_now j)) | _ => None end) l.
Definition for_ts (idG : string) (l : list saying) : list tsevent :=
  omap (λ x, match x with FromGo _ _ m => Some (MessageEvent idG m) | _ => None end) l.

Lemma go_heard i k g idG c idT m g' c' : bridged g idG c idT → go_says i k idT m (g, c) = Some (g', c') →
  bridged g' idG c' idT ∧ messages g' = messages g ∧ events (out c') = events (out c) ++ [MessageEvent idG m].
Proof.
  intros (na & rg & sg & tg & p & pc & n & r & tc & Jg & Hal & Hst & Ha & Hs & C1 & C2). unfold go_says.
  rewrite (joined_send m g idT na rg sg Jg). pose proof (alike_encrypts m sg tg Hal) as He.
  destruct (Ts.encrypt m tg) as [[x tg']|] eqn:Et; [|by destruct He as [e ->]]. destruct He as (sg' & -> & Hal').
  set (g1 := set_session rg sg' g). assert (sends (enqueueBinary envelopeTransport x g1) = sends g ++ [transportFrame x]) as -> by done.
  rewrite last_snoc. cbn [mbind option_bind]. destruct (channel_both _ _ _ _ _ C1 C2 Et) as (tc' & Hd & C1' & C2').
  destruct (turn_recv i k c idG p pc n r tc x m tc' Hst Ha Hs Hd) as (c1 & E1 & Hst1 & Hs1 & _ & He1).
  change (of_data (transportFrame x)) with (transport_frame x). rewrite E1. intros [= <- <-].
  split_and!; [|done..]. exists na, rg, sg', tg', p, pc, n, r, tc'. split_and!; try done.
  - by eapply joined_update.
  - by rewrite Hs1, lookup_insert_eq.
Qed.

Lemma ts_heard i j q g idG c idT m g' c' : bridged g idG c idT → ts_says i j q idG m (g, c) = Some (g', c') →
  bridged g' idG c' idT ∧ events (out c') = events (out c) ∧
  messages g' = if decide (length (messages g) < messagesCapacity) then messages g ++ [MkMessage idT m (in_now j)] else messages g.
Proof.
  intros (na & rg & sg & tg & p & pc & n & r & tc & Jg & Hal & Hst & Ha & Hs & C1 & C2). unfold ts_says.
  destruct (Ts.encrypt m tc) as [[x tc']|] eqn:Et.
  2:{ destruct (turn_send_fails i c idG p pc n r tc q m Hst Ha Hs Et) as (c1 & -> & Hsent).
      cbn [mbind option_bind]. rewrite Hsent, drop_all. done. }
  destruct (turn_send i c idG p pc n r tc q m x tc' Hst Ha Hs Et) as (c1 & -> & Hst1 & Hs1 & Hsent & He1 & _).
  cbn [mbind option_bind]. rewrite Hsent, drop_app_length. intros [= <- <-].
  destruct (channel_both _ _ _ _ _ C2 C1 Et) as (tg' & Hd & C2' & C1').
  pose proof (alike_decrypts x sg tg Hal) as Hx. rewrite Hd in Hx. destruct Hx as (sg' & Hdg & Hal').
  change (OutFrame BinaryMessage (transport_frame x)) with (transportFrame x). rewrite deliver_transport.
  unfold handleTransportEnvelope. rewrite (sole_singleton _ _ _ _ (proj1 Jg)). unfold recv, Sdk.session_of. simpl.
  rewrite (proj2 Jg), Hdg. change (messages (set_session rg sg' g)) with (messages g).
  split_and!; [|done|by case_decide]. exists na, rg, sg', tg', p, pc, n, r, tc'. split_and!; try done.
  - by case_decide; eapply joined_update.
  - by rewrite Hs1, lookup_insert_eq.
Qed.

(** A conversation: each side hears what the other says, in order. *)
Lemma conversed l g idG c idT g' c' : bridged g idG c idT → converse idG idT l (g, c) = Some (g', c') →
  length (messages g) + length (for_go idT l) ≤ messagesCapacity →
  bridged g' idG c' idT ∧ messages g' = messages g ++ for_go idT l ∧ events (out c') = events (out c) ++ for_ts idG l.
Proof.
  revert g c. induction l as [|x l IH]; intros g c Hb; cbn [converse].
  { intros [= <- <-] _. by rewrite !app_nil_r. }
  destruct (say idG idT (g, c) x) as [[g1 c1]|] eqn:E; cbn [mbind option_bind]; [|done].
  intros Hc Hlen. destruct x as [i k m|i j q m].
  - change (for_go idT (FromGo i k m :: l)) with (for_go idT l) in *.
    change (for_ts idG (FromGo i k m :: l)) with (MessageEvent idG m :: for_ts idG l). destruct (go_heard i k g idG c idT m g1 c1 Hb E) as (Hb1 & Em & Ee).
    rewrite <- Em in Hlen. destruct (IH g1 c1 Hb1 Hc Hlen) as (Hb' & -> & ->). rewrite Em, Ee, <- app_assoc. done.
  - change (for_go idT (FromTs i j q m :: l)) with (MkMessage idT m (in_now j) :: for_go idT l) in *.
    change (for_ts idG (FromTs i j q m :: l)) with (for_ts idG l). cbn [length] in Hlen. destruct (ts_heard i j q g idG c idT m g1 c1 Hb E) as (Hb1 & Ee & Em).
    rewrite decide_True in Em by lia. assert (length (messages g1) = S (length (messages g))) as Hl
      by (rewrite Em, length_app; simpl; lia).
    destruct (IH g1 c1 Hb1 Hc ltac:(lia)) as (Hb' & -> & ->). rewrite Em, Ee, <- app_assoc. done.
Qed.

(** The frame that links the devices, as the Go client reads it. *)
Lemma go_reads_linked code id key : valid_utf8 code → valid_utf8 id → valid_utf8 key →
  Unmarshal (pair_complete code id key) =
    Some (ControlMessage msgTypePairComplete 0 "" [] "" code 0 id key None "").
Proof.
  intros Hc Hi Hk. unfold pair_complete. rewrite Unmarshal_Marshal; [|done..].
  unfold sanitize_message. cbn [cm_Type cm_ProtocolVersion cm_DeviceID cm_Peers cm_StaticKey cm_Code cm_ExpiresIn cm_PeerID cm_PeerStaticKey
       cm_Online cm_Message]. by rewrite !(sanitize_valid code), !(sanitize_valid id), !(sanitize_valid key).
Qed.

(** A Go client that waits for the code [code] to be accepted, or has accepted it, and has no
    other peer. *)
Definition awaits (g : GoClient) (code : string) (ch : chan) (acceptor : bool) : Prop :=
  Sdk.peers g = ∅ ∧ pairWaiters g !! code = Some (PairWaiter ch acceptor).

(** The turns of a Go client that has accepted the code. *)
Lemma go_accepts i1 i2 g code ch id B gi m1 m2 m3 gi1 :
  awaits g code ch true → valid_utf8 code → valid_utf8 id →
  newInitiatorSession (in_seed i1) (opt_PrivateKey g) = inr (gi, m1) →
  handleHandshakeMessage m2 gi = ((Some m3, true, None), gi1) → peerStatic gi1 = B →
  trusts i2 (peerStore g) id (encodeBase64 B) B →
  let g' := deliver i2 (handshakeFrame m2) (readLoop_frame i1 TextMessage (pair_complete code id (encodeBase64 B)) g) in
  (∃ r, joined g' id (encodeBase64 B) r gi1) ∧ messages g' = messages g ∧
  sends g' = sends g ++ [handshakeFrame m1; handshakeFrame m3] ∧
  StaticKey <$> PeerStore.pins (peerStore g') !! id = Some (encodeBase64 B) ∧
  results g' !! ch = Some (default [] (results g !! ch) ++ [MkPairResult "" 0 id B None]).
Proof.
  intros [Hp Hw] Hc Hid Hi H2 HB Ht.
  destruct (acceptor_starts i1 _ _ g ch gi m1 (go_reads_linked code id _ Hc Hid (base64_valid B)) eq_refl Hp Hw Hi)
    as ([r Sh] & (_ & Ups & Um & Ur & _) & Us). cbn [cm_PeerID cm_PeerStaticKey] in Sh.
  destruct (handshake_ends i2 m2 _ id _ ch r gi gi1 (Some m3) Sh ltac:(by eapply driven_not_ready) H2)
    as (J & K & M & _ & S & R & _); [by rewrite Ups, HB|].
  split_and!; [by exists r|by rewrite M, Um|by rewrite S, Us, <- app_assoc|by rewrite K, HB|].
  by rewrite R, lookup_insert_eq, Ur, HB.
Qed.

(** ... and of one that has asked for it. *)
Lemma go_requests i1 i2 i3 g code ch id B gr m1 m2 m3 gr1 gr2 :
  awaits g code ch false → valid_utf8 code → valid_utf8 id →
  newResponderSession (in_seed i2) (opt_PrivateKey g) = inr gr →
  handleHandshakeMessage m1 gr = ((Some m2, false, None), gr1) →
  handleHandshakeMessage m3 gr1 = ((None, true, None), gr2) → peerStatic gr2 = B →
  trusts i3 (peerStore g) id (encodeBase64 B) B →
  let g' := deliver i3 (handshakeFrame m3) (deliver i2 (handshakeFrame m1)
    (readLoop_frame i1 TextMessage (pair_complete code id (encodeBase64 B)) g)) in
  (∃ r, joined g' id (encodeBase64 B) r gr2) ∧ messages g' = messages g ∧
  sends g' = sends g ++ [handshakeFrame m2] ∧
  StaticKey <$> PeerStore.pins (peerStore g') !! id = Some (encodeBase64 B) ∧
  results g' !! ch = Some (default [] (results g !! ch) ++ [MkPairResult "" 0 id B None]).
Proof.
  intros [Hp Hw] Hc Hid Hr H1 H3 HB Ht.
  destruct (requester_waits i1 _ _ g ch (go_reads_linked code id _ Hc Hid (base64_valid B)) eq_refl Hp Hw)
    as (Pg & (Upk & Ups & Um & Ur & _) & Us). cbn [cm_PeerID cm_PeerStaticKey] in Pg.
  destruct (responder_answers i2 m1 _ id _ ch gr gr1 m2 Pg) as ([r Sh] & (_ & Vps & Vm & Vr & _) & Vs); [by rewrite Upk|done|].
  destruct (handshake_ends i3 m3 _ id _ ch r gr1 gr2 None Sh ltac:(by eapply driven_not_ready) H3)
    as (J & K & M & _ & S & R & _); [by rewrite Vps, Ups, HB|].
  split_and!; [by exists r|by rewrite M, Vm, Um|by rewrite S, Vs, Us, app_nil_r|by rewrite K, HB|].
  by rewrite R, lookup_insert_eq, Vr, Ur, HB.
Qed.


End clients.

(** ** A concrete run *)

Import ToySuite.

Definition ex_seed (c : ascii) : Sdk.input := Input (10 * Second) (ex_key c) true "2025-01-01T00:00:00Z" 0.

Definition ex_go (key : ascii) (acceptor : bool) : GoClient :=
  ex_waiting "g" (ex_key key) acceptor.

Lemma ex_awaits key acceptor : awaits (ex_go key acceptor) "CODE" 0 acceptor.
Proof. done. Qed.

Lemma ex_trusts c id key acceptor k : trusts (ex_seed c) (peerStore (ex_go key acceptor)) id (encodeBase64 (ex_key k)) (ex_key k).
Proof. split_and!; [left; split; [apply lookup_empty|done]|by right|done]. Qed.

Lemma ex_names : valid_utf8 "CODE" ∧ valid_utf8 "g" ∧ valid_utf8 "t".
Proof. split_and!; valid_text. Qed.

Lemma ex_go_starts : ex_exchange "m" "a" (λ _, ex_key "x") (ex_rnd "y") = Some tt.
Proof. vm_compute. reflexivity. Qed.

Lemma ex_ts_starts : ex_exchange "a" "m" (ex_rnd "y") (λ _, ex_key "x") = Some tt.
Proof. vm_compute. reflexivity. Qed.


