(* ===== verification/SdkRace.v ===== *)
(** * Overlapping calls of Send (src/sdk/go/client.go, peer.go)

    [Send] encrypts with the session's counter under the session's lock, and queues the
    frame after it has released the lock.  Here the two halves, and what two calls that
    overlap do to the channel: the frames may be queued in the other order. *)

From S2P Require Import Prelude Keys Json Wire SendQueue Noise PeerStore Sdk SdkPair.

Section halves.
Context `{NoiseLib}.

Definition Send_seal (peerID : string) (payload : bytes) (c : Client) : (sdkerr + bytes) * Client :=
  match getPeerConn peerID c with
  | None => (inl ErrInternal, c)
  | Some p => peer_send payload p c
  end.

Definition Send_queue (ciphertext : bytes) (c : Client) : Client :=
  enqueueBinary envelopeTransport ciphertext c.

Lemma Send_halves peerID payload c :
  Send peerID payload c =
  match Send_seal peerID payload c with
  | (inl e, c) => (Some e, c)
  | (inr x, c) => (None, Send_queue x c)
  end.
Proof. unfold Send, Send_seal. by destruct (getPeerConn peerID c). Qed.
End halves.

Section race.
Context `{NoiseOrder}.

(** The sender has moved past the message the receiver expects. *)
Definition behind (s r : noiseSession) : Prop :=
  status s = statusReady ∧ status r = statusReady ∧
  ∃ k l e e1 p c, sendCS s = Some k ∧ recvCS r = Some l ∧
    synced e l ∧ csEncrypt e p = Some (e1, c) ∧ later e1 k.

Lemma encrypt_inv p s x s' :
  encrypt p s = (inr x, s') →
  status s = statusReady ∧ ∃ k k', sendCS s = Some k ∧ csEncrypt k p = Some (k', x) ∧ s' = set_send k' s.
Proof.
  unfold encrypt. case_decide as E; [done|]. intros Hx. split; [done|].
  destruct (sendCS s) as [k|]; [|done]. cbn in Hx. destruct (csEncrypt k p) as [[k' y]|] eqn:Ek; [|done].
  injection Hx as -> <-. eauto.
Qed.

Lemma behind_rejects q s r y s' :
  behind s r → encrypt q s = (inr y, s') → decrypt y r = (inl (ErrNoise "decrypt"), r) ∧ behind s' r.
Proof.
  intros (Hs & Hr & k & l & e & e1 & p & c & Ek & El & Hy & He & Hl) (_ & k' & k2 & Ek' & E2 & ->)%encrypt_inv.
  rewrite Ek in Ek'. injection Ek' as <-. split.
  - unfold decrypt. rewrite decide_False by auto. rewrite El. cbn.
    by rewrite (not_in_turn e l p e1 c k q k2 y).
  - split_and!; [done..|]. exists k2, l, e, e1, p, c. split_and!; try done. by eapply later_step.
Qed.

(** After a message has been encrypted its receiver is behind until it gets it. *)
Lemma channel_behind p s r x s' : channel s r → encrypt p s = (inr x, s') → behind s' r.
Proof.
  intros (Hs & Hr & k & l & Ek & El & Hy) (_ & k' & k2 & Ek' & E2 & ->)%encrypt_inv.
  rewrite Ek in Ek'. injection Ek' as <-. split_and!; [done..|].
  exists k2, l, k, k2, p, x. split_and!; try done. constructor.
Qed.

Lemma seal_inv id p c n r s x c' :
  joined c id n r s → Send_seal id p c = (inr x, c') →
  ∃ s', encrypt p s = (inr x, s') ∧ c' = set_session r s' c ∧ joined c' id n r s'.
Proof.
  intros [Ep Es]. unfold Send_seal, getPeerConn, peer_send, session_of.
  rewrite Ep, lookup_singleton_eq. cbn [active]. rewrite Es.
  destruct (encrypt p s) as [[e|y] s']; intros [= <- <-]. exists s'. split_and!; [done..|].
  eapply (joined_update c); [by split|done..].
Qed.

Lemma lost_frame i q b ida nb rb sa sb y sa' :
  joined b ida nb rb sb → behind sa sb → encrypt q sa = (inr y, sa') →
  let b' := deliver i (transportFrame y) b in
  joined b' ida nb rb sb ∧ behind sa' sb ∧ messages b' = messages b.
Proof.
  intros Jb Hb He b'. destruct (behind_rejects _ _ _ _ _ Hb He) as [Hd Hb'].
  assert (b' = set_session rb sb b) as ->; [|split_and!; [|done..]; by eapply joined_update].
  unfold b'. rewrite deliver_transport. unfold handleTransportEnvelope.
  rewrite (sole_singleton _ _ _ _ (proj1 Jb)). unfold recv, session_of. cbn [active].
  by rewrite (proj2 Jb), Hd.
Qed.

Lemma all_lost i ps a ida b idb na ra sa nb rb sb a' :
  joined a idb na ra sa → joined b ida nb rb sb → behind sa sb → send_all idb ps a = Some a' →
  ∃ fs, sends a' = sends a ++ fs ∧ length fs = length ps ∧ messages (deliver_all i fs b) = messages b.
Proof.
  revert a b sa. induction ps as [|p ps IH]; intros a b sa Ja Jb Hb Hs; cbn [send_all] in Hs.
  { injection Hs as <-. exists []. by rewrite app_nil_r. }
  rewrite (joined_send p a idb na ra sa Ja) in Hs.
  destruct (encrypt p sa) as [[e|y] sa'] eqn:Ee; [done|].
  destruct (lost_frame i p b ida nb rb sa sb y sa' Jb Hb Ee) as (Jb' & Hb' & M).
  destruct (IH (enqueueBinary envelopeTransport y (set_session ra sa' a)) (deliver i (transportFrame y) b) sa')
    as (fs & S1 & L & M'); [by eapply (joined_update a)|done..|].
  exists (transportFrame y :: fs). split_and!; [by rewrite S1; cbn; rewrite <- app_assoc|by cbn; rewrite L|].
  change (deliver_all i (transportFrame y :: fs) b) with (deliver_all i fs (deliver i (transportFrame y) b)).
  by rewrite M', M.
Qed.

(** C16: Two calls of [Send] that overlap can end the conversation.  One call encrypts [p], a
    second one encrypts [q], and the second is the first to queue its frame; both return
    no error.  The receiver cannot authenticate the frame of [q], which arrives out of
    turn, accepts [p], and from then on no message the sender sends reaches it, however
    many follow in order, as long as the session is not replaced. *)
Theorem concurrent_sends_desync i a ida b idb p q x y a1 a2 ps a' :
  talking a ida b idb → length (messages b) < messagesCapacity →
  Send_seal idb p a = (inr x, a1) → Send_seal idb q a1 = (inr y, a2) →
  send_all idb ps (Send_queue x (Send_queue y a2)) = Some a' →
  ∃ fs, sends a' = sends a ++ transportFrame y :: transportFrame x :: fs ∧ length fs = length ps ∧
    messages (deliver_all i (transportFrame y :: transportFrame x :: fs) b) =
      messages b ++ [MkMessage ida p (in_now i)].
Proof.
  intros (na & ra & sa & nb & rb & sb & Ja & Jb & Cab & _) Hroom Hp Hq Hs.
  destruct (seal_inv _ _ _ _ _ _ _ _ Ja Hp) as (sa1 & Ep & -> & Ja1).
  destruct (seal_inv _ _ _ _ _ _ _ _ Ja1 Hq) as (sa2 & Eq & -> & Ja2).
  destruct (lost_frame i q b ida nb rb sa1 sb y sa2 Jb (channel_behind _ _ _ _ _ Cab Ep) Eq) as (Jb1 & _ & M1).
  set (b1 := deliver i (transportFrame y) b) in *.
  destruct (channel_step _ _ _ _ _ Cab Ep) as (sb1 & Ed & Cab1 & _).
  set (b2 := deliver i (transportFrame x) b1).
  assert (joined b2 ida nb rb sb1 ∧ messages b2 = messages b1 ++ [MkMessage ida p (in_now i)]) as [Jb2 M2].
  { unfold b2. rewrite deliver_transport. unfold handleTransportEnvelope.
    rewrite (sole_singleton _ _ _ _ (proj1 Jb1)). unfold recv, session_of. cbn [active].
    rewrite (proj2 Jb1), Ed. change (messages (set_session rb sb1 b1)) with (messages b1).
    rewrite decide_True by by rewrite M1. split; [|done]. by eapply (joined_update b1). }
  destruct (all_lost i ps (Send_queue x (Send_queue y (set_session ra sa2 (set_session ra sa1 a)))) ida b2 idb
    na ra sa2 nb rb sb1 a') as (fs & S1 & L & M3);
    [by eapply (joined_update (set_session ra sa1 a))|done|by eapply channel_behind|done|].
  exists fs. split_and!; [by rewrite S1; cbn; rewrite <- !app_assoc|done|].
  change (deliver_all i (transportFrame y :: transportFrame x :: fs) b) with (deliver_all i fs b2).
  by rewrite M3, M2, M1.
Qed.
End race.

Import ToyNoise.

Definition ex_end (me other : string) : Client :=
  let s := @NoiseSession toy_lib statusReady None true (Toy true "" "" 3) true (Some 0) (Some 0) "" 1 in
  MkClient me "" (MkPeerStore ∅ None) {[other := PeerConn other "" (Some 0) None None None]} {[0 := s]} [] [] ∅ ∅ [].

Definition ex_now : input := Input 5 "" true "" 0.

Definition ex_first : Client := (Send_seal "bob" "first" (ex_end "alice" "bob")).2.
Definition ex_second : Client := (Send_seal "bob" "second" ex_first).2.

Lemma ex_seals :
  Send_seal "bob" "first" (ex_end "alice" "bob") = (inr (toy_tag 0 +:+ "first"), ex_first) ∧
  Send_seal "bob" "second" ex_first = (inr (toy_tag 1 +:+ "second"), ex_second).
Proof. split; vm_compute; reflexivity. Qed.

Lemma ex_talking : talking (ex_end "alice" "bob") "alice" (ex_end "bob" "alice") "bob".
Proof. do 6 eexists. split_and!; [by split|by split|..]; (split_and!; [done..|]; by eexists 0, 0). Qed.

Definition ex_raced : Client :=
  Send_queue (toy_tag 0 +:+ "first") (Send_queue (toy_tag 1 +:+ "second") ex_second).

Lemma ex_goes_on : bool_decide (is_Some (send_all "bob" ["third"; "fourth"] ex_raced)) = true.
Proof. vm_compute. reflexivity. Qed.

(** "first" and "second" overlap, then "third" and "fourth" follow. *)
Lemma concurrent_sends_desync_witness :
  match send_all "bob" ["third"; "fourth"] ex_raced with
  | Some a' => ∃ fs,
      sends a' = sends (ex_end "alice" "bob")
        ++ transportFrame (toy_tag 1 +:+ "second") :: transportFrame (toy_tag 0 +:+ "first") :: fs ∧
      length fs = 2 ∧
      messages (deliver_all ex_now (transportFrame (toy_tag 1 +:+ "second")
        :: transportFrame (toy_tag 0 +:+ "first") :: fs) (ex_end "bob" "alice")) =
        messages (ex_end "bob" "alice") ++ [MkMessage "alice" "first" (in_now ex_now)]
  | None => False
  end.
Proof.
  pose proof ex_goes_on as Hs.
  destruct (send_all "bob" ["third"; "fourth"] ex_raced) as [a'|] eqn:E; [|discriminate Hs].
  exact (concurrent_sends_desync ex_now (ex_end "alice" "bob") "alice" (ex_end "bob" "alice") "bob"
    "first" "second" _ _ _ _ ["third"; "fourth"] a' ex_talking (Nat.lt_0_succ 63)
    (proj1 ex_seals) (proj2 ex_seals) E).
Defined.
