(* ===== verification/Demos.v ===== *)
(** * The main functions of the example programs (src/examples/go)

    What the four programs do with the SDK: setting up their device, pairing, and the
    loops that send what is typed, echo what arrives, or wait for one reply.  A blocking
    call of the SDK is its outcome; [Send] is that of [Sdk], on the client's state. *)

From S2P Require Import Prelude Json AnyJson Wire SendQueue Keys Url Noise PeerStore PeerFile Harness Examples Sdk SdkPair SdkRace.

(** ** Setting up a device *)

(** [log.Fatalf]. *)
Inductive fatal := FatalKey (e : keyerr) | FatalRegister (e : regerr) | FatalConnect (text : string)
  | FatalPairCode (e : sdkerr) | FatalPair (e : sdkerr) | FatalWait (e : sdkerr) | FatalSend (e : sdkerr) | Usage.

Record identity := Identity { id_key : PrivateKey; id_device : string; id_token : string }.

Section setup.
Context (home : option string).

Definition setup (random : option bytes) (answer : string → bytes → option (Z * bytes))
    (server keyPath credsPath name : string) (d : disk) : (fatal + identity) * disk :=
  match LoadOrGenerateKey home random keyPath d with
  | (inl e, d) => (inl (FatalKey e), d)
  | (inr key, d) =>
      match registerOrLoadDevice home answer server credsPath name d with
      | (inl e, d) => (inl (FatalRegister e), d)
      | (inr (id, token), d) => (inr (Identity key id token), d)
      end
  end.

Definition chat_setup random answer server d :=
  setup random answer server "~/.relayly/chat-device.key" "~/.relayly/chat-device.json" "chat-device" d.

Definition clipboard_setup random answer server d :=
  setup random answer server "~/.relayly/clipboard.key" "~/.relayly/clipboard-device.json" "clipboard-device" d.

Definition send_setup random answer server d :=
  setup random answer server "~/.relayly/device.key" "~/.relayly/pair-and-send-device.json" "my-phone" d.

Definition basic_setup random answer (cfg : Config) d :=
  setup random answer (ServerURL cfg) (KeyPath cfg) (CredsPath cfg) (Name cfg) d.
End setup.

(** ** Pairing *)

(** What is printed, then an end or the peer. *)
Definition shows A := (list string * (fatal + A))%type.

(** [%-18s]. *)
Definition padded (n : nat) (s : string) : string := s +:+ of_chars (replicate (n - slen s) " "%char).

Definition box (width : nat) (rule : string) (code : string) : list string :=
  ["╔" +:+ rule +:+ "╗"; "║  Pairing code:  " +:+ padded width code +:+ "  ║"; "╚" +:+ rule +:+ "╝"].

Definition rule36 : string := "════════════════════════════════════".
Definition rule34 : string := "══════════════════════════════════".

(** The outcomes of [AcceptPair], [RequestPairCode] and [Wait]. *)
Record pairing_calls := PairingCalls {
  on_accept : string → sdkerr + Peer;
  on_request : sdkerr + string;
  on_wait : sdkerr + Peer
}.

Definition chat_pair (calls : pairing_calls) (server code : string) : shows Peer :=
  if decide (code ≠ "") then
    (["🔐  Accepting pairing code " +:+ quote_go code +:+ " …"],
     match on_accept calls code with inl e => inl (FatalPair e) | inr p => inr p end)
  else
    match on_request calls with
    | inl e => ([], inl (FatalPairCode e))
    | inr short =>
        (box 18 rule36 short ++
           ["Run in your other terminal:"; "  go run . --server " +:+ server +:+ " --code " +:+ short; "";
            "Waiting for the other device …"],
         match on_wait calls with inl e => inl (FatalWait e) | inr p => inr p end)
    end.

Definition clipboard_pair (calls : pairing_calls) (server code : string) : shows Peer :=
  if decide (code ≠ "") then
    match on_accept calls code with
    | inl e => (["Accepting pairing code " +:+ quote_go code +:+ "…"], inl (FatalPair e))
    | inr p => (["Accepting pairing code " +:+ quote_go code +:+ "…"; "Paired with " +:+ Peer_ID p], inr p)
    end
  else
    match on_request calls with
    | inl e => ([], inl (FatalPairCode e))
    | inr short =>
        let shown := box 18 rule36 short ++
          ["Run on your other device:"; "  clipboard-sync --server " +:+ server +:+ " --code " +:+ short; "";
           "Waiting for peer to connect…"] in
        match on_wait calls with
        | inl e => (shown, inl (FatalWait e))
        | inr p => (shown ++ ["Paired with " +:+ Peer_ID p], inr p)
        end
    end.

Definition basic_pair (calls : pairing_calls) (qr : string → string) : shows Peer :=
  match on_request calls with
  | inl e => ([], inl (FatalPairCode e))
  | inr short =>
      let shown := box 16 rule34 short ++
        ["Share this code with your other device."; "QR URL: " +:+ qr short; ""; "Waiting for peer to connect..."] in
      match on_wait calls with
      | inl e => (shown, inl (FatalWait e))
      | inr p => (shown ++ ["✓ Paired with device: " +:+ Peer_ID p; ""], inr p)
      end
  end.

(** ** The chat's input *)

(** [unicode.IsSpace] of a rune. *)
Definition space_runes : list (list ascii) :=
  encode_rune <$> ([9; 10; 11; 12; 13; 32; 133; 160; 5760; 8192; 8193; 8194; 8195; 8196; 8197; 8198; 8199; 8200;
    8201; 8202; 8232; 8233; 8239; 8287; 12288]%Z).

Definition is_space (x : list ascii + ascii) : bool :=
  match x with inl r => bool_decide (r ∈ space_runes) | inr _ => false end.

Fixpoint drop_spaces (l : list (list ascii + ascii)) : list (list ascii + ascii) :=
  match l with x :: l' => if is_space x then drop_spaces l' else l | [] => [] end.

Definition raw_seg (x : list ascii + ascii) : list ascii := match x with inl r => r | inr c => [c] end.

(** [strings.TrimSpace]. *)
Definition TrimSpace (s : string) : string :=
  of_chars (mjoin (raw_seg <$> reverse (drop_spaces (reverse (drop_spaces (segments (chars s))))))).

Definition lower_char (c : ascii) : ascii :=
  if decide (65 ≤ byte_val c ≤ 90)%Z then byte_of (byte_val c + 32) else c.

(** [strings.EqualFold(line, "/quit")]: none of these letters has a further case. *)
Definition is_quit (line : string) : bool := bool_decide (of_chars (lower_char <$> chars line) = "/quit").

(** [bufio.MaxScanTokenSize]. *)
Definition maxScanTokenSize : Z := 65536.

Section loops.
Context `{NoiseLib} (errText : sdkerr → string).

Fixpoint chat_input (peer : string) (lines : list string) (c : Client) : list string * Client :=
  match lines with
  | [] => ([], c)
  | text :: lines =>
      if decide (Z.of_nat (slen text) < maxScanTokenSize)%Z then
        let line := TrimSpace text in
        if decide (line = "") then prod_map (cons "> ") id (chat_input peer lines c)
        else if is_quit line then (["👋  Goodbye!"], c)
        else
          match Send peer line c with
          | (Some e, c) => prod_map (app ["⚠️   send error: " +:+ errText e; "> "]) id (chat_input peer lines c)
          | (None, c) => prod_map (cons "> ") id (chat_input peer lines c)
          end
      else ([], c)
  end.

(** What the goroutine over [Messages()] prints. *)
Definition chat_line (payload : string) : string :=
  of_chars ["013"%char; "027"%char] +:+ "[K[peer → you] " +:+ payload +:+ of_chars [newline] +:+ "> ".

Definition chat_output (ms : list Message) : list string := (λ m, chat_line (Payload m)) <$> ms.

(** ** The basic example's echo *)

(** A turn of the loop with a message: what is printed, and the client after the reply. *)
Definition echo_turn (m : Message) (c : Client) : list string * Client :=
  let shown := "[" +:+ From m +:+ "] → " +:+ Payload m in
  let '(to, reply) := echo (From m) (Payload m) in
  match Send to reply c with
  | (Some e, c) => ([shown; "send error: " +:+ errText e], c)
  | (None, c) => ([shown], c)
  end.

Fixpoint echo_loop (ms : list Message) (c : Client) : list string * Client :=
  match ms with
  | [] => ([], c)
  | m :: ms =>
      let '(l1, c) := echo_turn m c in
      let '(l2, c) := echo_loop ms c in (l1 ++ l2, c)
  end.

(** ** One message and one reply *)

Definition hello : string := "Hello from Go! 👋".

(** [accept] is the outcome of [AcceptPair] and the client after it; [reply] is what the
    wait of five seconds gives: a message, a closed channel, or nothing. *)
Inductive reply_outcome := Replied (m : Message) | Closed_ | TimedOut.

Definition pair_and_send (args : list string) (setup_result : fatal + identity)
    (connect : identity → string + Client) (accept : string → Client → (sdkerr + Peer) * Client)
    (reply : reply_outcome) : list string * option fatal * option Client :=
  match args with
  | _ :: _ :: pairCode :: _ =>
      match setup_result with
      | inl e => ([], Some e, None)
      | inr me =>
          match connect me with
          | inl text => ([], Some (FatalConnect text), None)
          | inr c =>
              let l1 := "Accepting pair code " +:+ pairCode +:+ "..." in
              match accept pairCode c with
              | (inl e, c) => ([l1], Some (FatalPair e), Some c)
              | (inr p, c) =>
                  let l2 := "✓ Paired with: " +:+ Peer_ID p in
                  match Send (Peer_ID p) hello c with
                  | (Some e, c) => ([l1; l2], Some (FatalSend e), Some c)
                  | (None, c) =>
                      ([l1; l2; "✓ Sent: " +:+ quote_go hello; "Waiting for reply (5 seconds)...";
                        match reply with
                        | Replied m => "✓ Reply from " +:+ From m +:+ ": " +:+ Payload m
                        | Closed_ => "Connection closed."
                        | TimedOut => "No reply received."
                        end], None, Some c)
                  end
              end
          end
      end
  | _ => ([], Some Usage, None)
  end.
End loops.

(** ** Properties *)

(** *** Two terminals of one user *)

Lemma split_slash_app p n : slash ∉ n → split_slash (p ++ slash :: n) = split_slash p ++ [n].
Proof.
  intros Hn. assert (split_slash n = [n]) as En.
  { induction n as [|c n IH]; [done|]. cbn [split_slash]. apply not_elem_of_cons in Hn as [Hc Hn].
    rewrite decide_False by done. by rewrite IH. }
  induction p as [|c p IH]; cbn [split_slash app]; [by rewrite decide_True, En|].
  rewrite IH. case_decide; [done|]. destruct (split_slash p) as [|x xs] eqn:E; [|done].
  destruct p as [|y p]; cbn in E; [done|]. by repeat case_match.
Qed.

Lemma join_slash_last l n : ∃ q, join_slash (l ++ [n]) = q ++ n.
Proof.
  induction l as [|x l [q IH]]; [by exists []|]. exists (x ++ slash :: q). cbn [app join_slash].
  destruct (l ++ [n]) as [|y l'] eqn:E; [by destruct l|]. rewrite IH, <- app_assoc. done.
Qed.

(** A cleaned path ends in its last component, if that is a name. *)
Lemma Clean_last p n :
  slash ∉ n → n ≠ [] → n ≠ chars "." → n ≠ chars ".." → ∃ q, Clean (p ++ slash :: n) = q ++ n.
Proof.
  intros Hs H1 H2 H3. unfold Clean. rewrite split_slash_app by done.
  set (rooted := match p ++ slash :: n with c :: _ => _ | [] => _ end). clearbody rooted.
  rewrite foldl_app. cbn [foldl]. set (out := foldl _ [] _).
  assert (clean_step rooted out n = n :: out) as -> by (unfold clean_step; by rewrite !decide_False by naive_solver).
  cbn [rev]. destruct (join_slash_last (rev out) n) as [q ->].
  destruct rooted; [by exists (slash :: q)|]. exists q.
  destruct (q ++ n) as [|y l] eqn:E; [|done]. by apply app_nil in E as [_ E].
Qed.

Lemma expandHome_last home dir n :
  slash ∉ n → n ≠ [] → n ≠ chars "." → n ≠ chars ".." →
  ∃ q, chars (expandHome home (of_chars ("~"%char :: slash :: dir ++ slash :: n))) = q ++ n.
Proof.
  intros Hs H1 H2 H3. unfold expandHome. rewrite chars_of_chars. destruct home as [h|]; cycle 1.
  { rewrite chars_of_chars. exists ("~"%char :: slash :: dir ++ [slash]). cbn. by rewrite <- app_assoc. }
  rewrite chars_of_chars. unfold Join. destruct (chars h) as [|c h'].
  - apply (Clean_last (slash :: dir)); done.
  - destruct (Clean_last ((c :: h') ++ slash :: slash :: dir) n Hs H1 H2 H3) as [q E].
    exists q. rewrite <- E. f_equal. by rewrite <- app_assoc.
Qed.

Lemma chat_paths_differ home :
  expandHome home "~/.relayly/chat-device.json" ≠ expandHome home "~/.relayly/chat-device.key".
Proof.
  intros E%(f_equal chars).
  destruct (expandHome_last home (chars ".relayly") (chars "chat-device.json")) as [q1 E1];
    [vm_compute; set_solver|done..|].
  destruct (expandHome_last home (chars ".relayly") (chars "chat-device.key")) as [q2 E2];
    [vm_compute; set_solver|done..|].
  assert (q1 ++ chars "chat-device.json" = q2 ++ chars "chat-device.key") as E3 by (by rewrite <- E1, <- E2).
  apply (f_equal last) in E3. by rewrite !last_app in E3.
Qed.

(** Two terminals of the chat are one device.  The chat's documentation has its two sides
    started in two terminals; both use the same key file and the same credentials file.
    Whatever the first one was given or registered, the second one on the same disk comes up
    with the same key, the same device ID and the same token, and registers nothing. *)
Theorem chat_terminals_collide home random random' answer answer' server server' d d1 me :
  (∀ b, random = Some b → slen b = 32) →
  chat_setup home random answer server d = (inr me, d1) →
  id_device me ≠ "" → id_token me ≠ "" → valid_utf8 (id_device me) → valid_utf8 (id_token me) →
  chat_setup home random' answer' server' d1 = (inr me, d1).
Proof.
  intros Hr. unfold chat_setup, setup.
  pose proof (generated_key_stable home random "~/.relayly/chat-device.key" d Hr) as Hk.
  destruct (LoadOrGenerateKey home random _ d) as [[e|key] dk]; [done|].
  destruct Hk as [Hk _]. destruct (Hk key eq_refl) as [_ Hk2].
  pose proof (λ id token, registration_stable home answer answer' server server' "~/.relayly/chat-device.json"
    "chat-device" "chat-device" dk id token) as Hg.
  destruct (registerOrLoadDevice home answer server _ _ dk) as [[e|[id token]] dr]; [done|].
  intros [= <- <-] N1 N2 V1 V2. cbn in N1, N2, V1, V2.
  destruct (Hg id token) as (Hreg & Hfail & Hfiles).
  assert (ReadFile (expandHome home "~/.relayly/chat-device.key") dr =
          ReadFile (expandHome home "~/.relayly/chat-device.key") dk) as Hread.
  { unfold ReadFile. rewrite Hfail. rewrite (Hfiles (expandHome home "~/.relayly/chat-device.key")); [done|].
    intros E. by apply (chat_paths_differ home). }
  assert (LoadKeyFromFile home "~/.relayly/chat-device.key" dr = inr key) as Hl.
  { rewrite <- Hk2. unfold LoadKeyFromFile. by rewrite Hread. }
  unfold LoadOrGenerateKey. rewrite Hl. by rewrite Hreg.
Qed.

Lemma chat_terminals_collide_witness :
  let home := Some "/home/u" in
  let key : bytes := "abcdefghijklmnopqrstuvwxyz012345" in
  let r := chat_setup home (Some key) ex_answer "ws://localhost:8080/ws" (Disk ∅ ∅) in
  r.1 = inr (Identity key "d1" "t1") ∧
  chat_setup home None (λ _ _, None) "ws://other/ws" r.2 = (inr (Identity key "d1" "t1"), r.2).
Proof.
  intros home key r. assert (r.1 = inr (Identity key "d1" "t1")) as E by (vm_compute; reflexivity). split; [exact E|].
  apply (chat_terminals_collide home (Some key) None ex_answer (λ _ _, None) "ws://localhost:8080/ws" "ws://other/ws"
    (Disk ∅ ∅) r.2 (Identity key "d1" "t1")).
  - intros b [= <-]. reflexivity.
  - fold r. rewrite <- E. destruct r. reflexivity.
  - discriminate.
  - discriminate.
  - valid_text.
  - valid_text.
Defined.

(** *** What is typed arrives *)

(** The messages among the lines typed: trimmed, without the empty ones, up to [/quit]. *)
Fixpoint said_lines (lines : list string) : list string :=
  match lines with
  | [] => []
  | text :: lines =>
      if decide (Z.of_nat (slen text) < maxScanTokenSize)%Z then
        if decide (TrimSpace text = "") then said_lines lines
        else if is_quit (TrimSpace text) then [] else TrimSpace text :: said_lines lines
      else []
  end.

Section talk.
Context `{NoiseLaws} (errText : sdkerr → string).

Lemma chat_input_sends peer lines c c' :
  send_all peer (said_lines lines) c = Some c' → (chat_input errText peer lines c).2 = c'.
Proof.
  revert c. induction lines as [|text lines IH]; intros c; cbn [said_lines chat_input send_all].
  { by intros [= ->]. }
  case_decide; [|by intros [= ->]]. case_decide; [by intros E; cbn; apply IH|].
  destruct (is_quit _); [by intros [= ->]|]. cbn [send_all].
  destruct (Send peer (TrimSpace text) c) as [[e|] c1]; [done|]. intros E. cbn. by apply IH.
Qed.

(** What is typed in the chat arrives.  Between two clients that are in session, the lines
    typed on one side (without surrounding blanks, blank lines and everything from [/quit]
    on left out) are what the other side's terminal shows, in order, as long as they can
    be sent and its buffer has room. *)
Theorem chat_end_to_end i lines a ida b idb a' :
  talking a ida b idb → send_all idb (said_lines lines) a = Some a' →
  length (messages b) + length (said_lines lines) ≤ messagesCapacity →
  (chat_input errText idb lines a).2 = a' ∧
  ∃ fs, sends a' = sends a ++ fs ∧
    chat_output (drop (length (messages b)) (messages (deliver_all i fs b))) = chat_line <$> said_lines lines.
Proof.
  intros Ht Hs Hl. split; [by apply chat_input_sends|].
  destruct (all_received i _ _ _ _ _ _ Ht Hs Hl) as (fs & E1 & _ & _ & _ & E2). exists fs. split; [done|].
  rewrite E2, drop_app_length. unfold chat_output. by rewrite <- list_fmap_compose.
Qed.

Lemma echo_loop_sends ida ms c c' :
  Forall (λ m, From m = ida) ms → send_all ida ((λ m, "echo: " +:+ Payload m) <$> ms) c = Some c' →
  (echo_loop errText ms c).2 = c'.
Proof.
  intros Hf. revert c. induction Hf as [|m ms Hm _ IH]; intros c; cbn [send_all echo_loop]; [by intros [= ->]|].
  rewrite fmap_cons. cbn [send_all]. unfold echo_turn, echo. rewrite Hm. cbn [fst snd].
  destruct (Send ida ("echo: " +:+ Payload m) c) as [[e|] c1]; [done|]. intros E.
  specialize (IH _ E). destruct (echo_loop errText ms c1) as [l2 c2]. done.
Qed.

(** The echo comes back.  A client sends messages to the basic example, which answers
    each one: the client receives, in order, each message it sent with the prefix of the
    echo, and nothing else. *)
Theorem echo_end_to_end i ps a ida b idb a' b' :
  talking a ida b idb → send_all idb ps a = Some a' →
  length (messages b) + length ps ≤ messagesCapacity → length (messages a) + length ps ≤ messagesCapacity →
  ∃ fs, sends a' = sends a ++ fs ∧
    let b1 := deliver_all i fs b in
    let got := drop (length (messages b)) (messages b1) in
    (send_all ida ((λ p, "echo: " +:+ p) <$> ps) b1 = Some b' →
     (echo_loop errText got b1).2 = b' ∧
     ∃ gs, sends b' = sends b ++ gs ∧
       messages (deliver_all i gs a') =
         messages a ++ ((λ p, MkMessage idb ("echo: " +:+ p) (in_now i)) <$> ps)).
Proof.
  intros Ht Hs Hb Ha. destruct (all_received i _ _ _ _ _ _ Ht Hs Hb) as (fs & E1 & Em & Ht1 & Es & E2).
  exists fs. split; [done|]. intros b1 got Hs2.
  assert (got = (λ p, MkMessage ida p (in_now i)) <$> ps) as Eg by (unfold got, b1; by rewrite E2, drop_app_length).
  split.
  - rewrite Eg. apply (echo_loop_sends ida); [by apply Forall_fmap, Forall_true|]. by rewrite <- list_fmap_compose.
  - destruct (all_received i _ _ _ _ _ _ (talking_sym _ _ _ _ Ht1) Hs2) as (gs & E3 & _ & _ & _ & E4).
    { by rewrite Em, length_fmap. }
    exists gs. rewrite E3. unfold b1. rewrite Es. split; [done|]. by rewrite E4, Em, <- list_fmap_compose.
Qed.
End talk.

Import ToyNoise.

Definition ex_typed : list string := ["  hello "; ""; "how are you?"; "/QUIT"; "too late"].
Definition ex_texts : list bytes := ["one"; "two"].

Lemma ex_sendable :
  bool_decide (is_Some (send_all "bob" (said_lines ex_typed) (ex_end "alice" "bob"))) = true ∧
  bool_decide (is_Some (send_all "bob" ex_texts (ex_end "alice" "bob"))) = true ∧
  said_lines ex_typed = ["hello"; "how are you?"].
Proof. split_and!; vm_compute; reflexivity. Qed.

Lemma chat_end_to_end_witness :
  match send_all "bob" (said_lines ex_typed) (ex_end "alice" "bob") with
  | Some a' => ∃ fs, sends a' = sends (ex_end "alice" "bob") ++ fs ∧
      chat_output (drop (length (messages (ex_end "bob" "alice")))
        (messages (deliver_all ex_now fs (ex_end "bob" "alice")))) = chat_line <$> said_lines ex_typed
  | None => False
  end.
Proof.
  destruct ex_sendable as (Hs & _ & Hl).
  destruct (send_all "bob" (said_lines ex_typed) (ex_end "alice" "bob")) as [a'|] eqn:E; [|discriminate Hs].
  refine (proj2 (chat_end_to_end (λ _, "error") ex_now ex_typed _ "alice" _ "bob" a' ex_talking E _)).
  rewrite Hl. cbn. unfold messagesCapacity. lia.
Defined.

Lemma echo_end_to_end_witness :
  match send_all "bob" ex_texts (ex_end "alice" "bob") with
  | Some a' => ∃ fs, sends a' = sends (ex_end "alice" "bob") ++ fs
  | None => False
  end.
Proof.
  destruct ex_sendable as (_ & Hs & _).
  destruct (send_all "bob" ex_texts (ex_end "alice" "bob")) as [a'|] eqn:E; [|discriminate Hs].
  destruct (echo_end_to_end (λ _, "error") ex_now ex_texts _ "alice" _ "bob" a' a' ex_talking E) as (fs & H1 & _).
  - cbn. unfold messagesCapacity. lia.
  - cbn. unfold messagesCapacity. lia.
  - exists fs. exact H1.
Defined.
