(* ===== verification/SdkEdges.v ===== *)
(** * Corner cases of the client

    What a client does when a first handshake fails or its key is refused, what a caller
    can do between the end of a handshake and its verification, and how long it waits
    between attempts to reconnect. *)

From S2P Require Import Prelude Keys Json Wire SendQueue Noise PeerStore Sdk SdkPair.

Section edges.
Context `{NoiseLaws}.

(** ** A refused key stays pinned *)

Lemma verify_pinned i p s c pin :
  pins (peerStore c) !! pc_id p = Some pin → StaticKey pin ≠ encodeBase64 (peerStatic s) →
  verifyAndPin i p s c = (inl (Wrapped "pin" ErrPeerKeyMismatch), c).
Proof.
  intros Hp Hk. unfold verifyAndPin, PinOrVerify. rewrite Hp, decide_True by done. by destruct c.
Qed.

Lemma verify_refused i p s c :
  pins (peerStore c) !! pc_id p = None → in_saved i = true →
  announcedStaticKey p ≠ "" → announcedStaticKey p ≠ encodeBase64 (peerStatic s) →
  let pinned := <[pc_id p := PinnedPeer (encodeBase64 (peerStatic s)) (in_stamp i)]>
                  (pins (peerStore c)) in
  verifyAndPin i p s c = (inl (Wrapped "server-announced key" ErrKeyMismatch),
                          with_store (MkPeerStore pinned (Some pinned)) c).
Proof.
  intros Hp Hsave H1 H2. unfold verifyAndPin, PinOrVerify. rewrite Hp, Hsave. simpl.
  by rewrite decide_True.
Qed.

(** The key of a first handshake is pinned before it is compared with the key the relay
    announced.  If the two differ the handshake is refused and the user is told, but the
    refused key stays pinned: from then on every handshake with the announced key, the
    right one included, is refused as a mismatch. *)
Theorem refused_key_stays_pinned i d c id announced ch r s s' reply :
  shaking c id announced ch r s →
  handleHandshakeMessage d s = ((reply, true, None), s') →
  pins (peerStore c) !! id = None → in_saved i = true →
  announced ≠ "" → announced ≠ encodeBase64 (peerStatic s') →
  let c' := deliver i (handshakeFrame d) c in
  let refused := Wrapped "server-announced key" ErrKeyMismatch in
  results c' !! ch = Some (default [] (results c !! ch) ++ [MkPairResult "" 0 id "" (Some refused)]) ∧
  (∀ payload, (Send id payload c').1 = Some ErrNotReady) ∧
  StaticKey <$> pins (peerStore c') !! id = Some (encodeBase64 (peerStatic s')) ∧
  (∀ j p t, pc_id p = id → encodeBase64 (peerStatic t) = announced →
     verifyAndPin j p t c' = (inl (Wrapped "pin" ErrPeerKeyMismatch), c')).
Proof.
  intros [Ep Es] Eh Hpin Hsave Hne Hdiff. rewrite deliver_handshake. unfold handleHandshakeEnvelope.
  rewrite (sole_singleton _ _ _ _ Ep). unfold peer_handleHandshakeEnvelope, choose, drive, session_of.
  simpl. rewrite Es. unfold ready. rewrite bool_decide_false by (by eapply driven_not_ready).
  rewrite Es, Eh. set (c1 := match reply with Some _ => _ | None => _ end).
  assert (peers c1 = peers c ∧ sessions c1 = <[r := s']> (sessions c) ∧ peerStore c1 = peerStore c ∧
    results c1 = results c) as (E1 & E2 & E3 & E4) by (unfold c1; by destruct reply).
  clearbody c1. unfold getPeerConn. rewrite E1, Ep, lookup_singleton_eq.
  set (p := PeerConn _ _ _ _ _ _). unfold resolveHandshake, judge, session_of.
  rewrite E2, lookup_insert_eq, (verify_refused i p s' c1); simpl; rewrite ?E3; try done.
  split_and!.
  - by rewrite lookup_insert_eq, E4.
  - intros payload. unfold Send, getPeerConn, peer_send, session_of. simpl.
    rewrite lookup_insert_eq. simpl. by rewrite lookup_insert_eq.
  - by rewrite lookup_insert_eq.
  - intros j q t Hq Ht. eapply verify_pinned; simpl; [by rewrite Hq, lookup_insert_eq|].
    simpl. congruence.
Qed.

(** ** A failed first handshake *)

(** The only peer's first handshake has failed and nothing else is under way. *)
Definition stuck (c : Client) (id : string) : Prop :=
  pairWaiters c = ∅ ∧ string_ge (opt_DeviceID c) id = true ∧
  ∃ p r s, peers c = {[id := p]} ∧ active p = Some r ∧ pending p = None ∧ pc_id p = id ∧
    sessions c !! r = Some s ∧ status s = statusFailed.

Lemma stuck_same c c' id :
  stuck c id → pairWaiters c' = pairWaiters c → opt_DeviceID c' = opt_DeviceID c →
  peers c' = peers c → sessions c' = sessions c → stuck c' id.
Proof. intros (Hw & Hg & Hp) E1 E2 E3 E4. unfold stuck. rewrite E1, E2, E3, E4. done. Qed.

Lemma stuck_handshake i d c id : stuck c id → stuck (handleHandshakeEnvelope i d c) id.
Proof.
  intros (Hw & Hg & p & r & s & Ep & Ea & Epd & Hid & Es & Hs). unfold handleHandshakeEnvelope.
  rewrite (sole_singleton _ _ _ _ Ep). unfold peer_handleHandshakeEnvelope, choose.
  rewrite Epd, Ea. unfold session_of. rewrite Es. unfold ready.
  rewrite bool_decide_false by congruence. unfold drive, session_of. rewrite Es. unfold handleHandshakeMessage.
  rewrite Hs, decide_True by done. unfold getPeerConn. simpl. rewrite Ep, lookup_singleton_eq.
  unfold resolveHandshake. simpl.
  assert (∀ c', pairWaiters c' = pairWaiters c → opt_DeviceID c' = opt_DeviceID c →
    peers c' = <[id := clearFirstPairWaiter p]> (peers c) →
    sessions c' = <[r := s]> (sessions c) → stuck c' id) as Hst.
  { intros c' E1 E2 E3 E4. unfold stuck. rewrite E1, E2, E3, E4. split_and!; [done..|].
    exists (clearFirstPairWaiter p), r, s. rewrite Ep, insert_singleton_eq, lookup_insert_eq. done. }
  destruct (firstPairWaiter p); by apply Hst.
Qed.

Lemma stuck_transport i d c id : stuck c id → stuck (handleTransportEnvelope i d c) id.
Proof.
  intros Hst. pose proof Hst as (_ & _ & p & r & s & Ep & Ea & Epd & Hid & Es & Hs).
  unfold handleTransportEnvelope. rewrite (sole_singleton _ _ _ _ Ep). unfold recv, session_of.
  rewrite Ea, Es. unfold decrypt. rewrite Hs, decide_True by done.
  eapply stuck_same; [done..|]. simpl. by rewrite insert_id.
Qed.

Lemma stuck_dispatch i f c id : stuck c id → stuck (dispatch i f c) id.
Proof.
  intros Hst. pose proof Hst as (Hw & Hg & p & r & s & Ep & _). unfold dispatch.
  case_decide; [|case_decide; [|case_decide; [|case_decide; [|done]]]].
  - unfold handlePairCode, takePairWaiter. by rewrite Hw, lookup_empty.
  - unfold handlePairComplete, takePairWaiter. by rewrite Hw, lookup_empty.
  - unfold handlePeerStatus, getPeerConn. simpl. rewrite Ep.
    destruct (default false (cm_Online f)); [|by eapply stuck_same].
    destruct (decide (cm_PeerID f = id)) as [->|].
    + rewrite lookup_singleton_eq, Hg. by eapply stuck_same.
    + rewrite lookup_singleton_ne by done. by eapply stuck_same.
  - unfold handleError. rewrite Hw, map_to_list_empty. by eapply stuck_same.
Qed.

(** A first handshake that fails is final for the side with the greater ID: whatever
    frames follow, new handshakes of the peer included, the client never gets a session
    with it and every [Send] is refused as not ready, until the user pairs again. *)
Theorem first_failure_is_final c id frames payload :
  stuck c id →
  let c' := foldl (λ c (f : input * msgKind * bytes), readLoop_frame f.1.1 f.1.2 f.2 c) c frames in
  stuck c' id ∧ (Send id payload c').1 = Some ErrNotReady.
Proof.
  intros Hst c'. assert (stuck c' id) as Hc'.
  { unfold c'. clear c'. revert c Hst. induction frames as [|[[i k] d] fs IH]; intros c Hst; [done|].
    apply IH. simpl. unfold readLoop_frame. destruct k.
    - destruct (Unmarshal d); [by apply stuck_dispatch|done].
    - destruct (decodeEnvelope d) as [[kind m]|]; [|done].
      case_decide; [by apply stuck_handshake|]. case_decide; [by apply stuck_transport|done]. }
  split; [done|]. destruct Hc' as (_ & _ & p & r & s & Ep & Ea & _ & _ & Es & Hs).
  unfold Send, getPeerConn, peer_send, session_of. rewrite Ep, lookup_singleton_eq, Ea, Es.
  unfold encrypt. by rewrite Hs, decide_True.
Qed.

(** ** Between the end of a handshake and its verification *)

(** A session is ready as soon as its last handshake message is processed, before its
    key is verified.  A [Send] that runs in between, in the first handshake of a process,
    encrypts for a peer whose key is not the pinned one and its frame goes out; a moment
    later, when the read loop has refused the key, the same call is refused. *)
Theorem send_before_verification i d c id p r s s' reply pin k k' x payload :
  peers c = {[id := p]} → pc_id p = id → active p = Some r → pending p = None →
  sessions c !! r = Some s → handleHandshakeMessage d s = ((reply, true, None), s') →
  pins (peerStore c) !! id = Some pin → StaticKey pin ≠ encodeBase64 (peerStatic s') →
  status s' = statusReady → sendCS s' = Some k → csEncrypt k payload = Some (k', x) →
  let c1 := (peer_handleHandshakeEnvelope i id p d c).2 in
  let c2 := handleHandshakeEnvelope i d c in
  (Send id payload c1).1 = None ∧
  sends (Send id payload c1).2 = sends c ++ [transportFrame x] ∧
  (Send id payload c2).1 = Some ErrNotReady.
Proof.
  intros Ep Hid Ea Epd Es Eh Hpin Hk Hr Hcs Hx.
  assert (peer_handleHandshakeEnvelope i id p d c =
    ((reply, Some r, false, None), set_session r s' c)) as E.
  { unfold peer_handleHandshakeEnvelope, choose, session_of. rewrite Epd, Ea, Es. unfold ready.
    rewrite bool_decide_false by (by eapply driven_not_ready).
    unfold drive, session_of. by rewrite Es, Eh. }
  cbv zeta. unfold handleHandshakeEnvelope. rewrite (sole_singleton _ _ _ _ Ep), E. cbn [fst snd].
  assert (Send id payload (set_session r s' c) =
    (None, enqueueBinary envelopeTransport x (set_session r (set_send k' s') (set_session r s' c))))
    as ->.
  { unfold Send, getPeerConn, peer_send, session_of. simpl.
    rewrite Ep, lookup_singleton_eq, Ea, lookup_insert_eq. unfold encrypt.
    rewrite decide_False by auto. rewrite Hcs. simpl. by rewrite Hx. }
  split_and!; [done..|]. set (c1 := match reply with Some _ => _ | None => _ end).
  assert (peers c1 = peers c ∧ sessions c1 = <[r := s']> (sessions c) ∧ peerStore c1 = peerStore c)
    as (E1 & E2 & E3) by (unfold c1; by destruct reply).
  clearbody c1. unfold getPeerConn. rewrite E1, Ep, lookup_singleton_eq.
  unfold resolveHandshake, judge, session_of. rewrite E2, lookup_insert_eq.
  rewrite (verify_pinned i p s' c1 pin) by (rewrite ?E3, ?Hid; done). simpl.
  unfold Send, getPeerConn, peer_send, session_of. rewrite <- Hid.
  destruct (firstPairWaiter p); simpl; rewrite lookup_insert_eq; simpl; rewrite Ea; simpl;
    by rewrite lookup_insert_eq.
Qed.
End edges.

(** ** Reconnecting *)

(** The delays between attempts start at the configured one, never leave the range up
    to the configured maximum, never shrink, and reach the maximum; doubling does not
    overflow for maxima below half the range of a duration. *)
Theorem backoff_bounded n maxDelay delay :
  (0 < delay ≤ maxDelay)%Z → (maxDelay < 2 ^ 62)%Z →
  (delay ≤ delay_at n maxDelay delay ≤ maxDelay)%Z ∧
  (delay_at n maxDelay delay ≤ delay_at (S n) maxDelay delay)%Z ∧
  delay_at n maxDelay delay = Z.min maxDelay (delay * 2 ^ Z.of_nat n).
Proof.
  intros Hd Hm. assert (∀ k, (1 ≤ 2 ^ Z.of_nat k)%Z) as Hpow.
  { intros k. pose proof (Z.pow_pos_nonneg 2 (Z.of_nat k)). lia. }
  assert (∀ k, delay_at k maxDelay delay = Z.min maxDelay (delay * 2 ^ Z.of_nat k)) as E.
  { intros k. induction k as [|k IH]; [simpl; lia|]. cbn [delay_at]. rewrite IH. unfold next_delay.
    rewrite Nat2Z.inj_succ, Z.pow_succ_r by lia. specialize (Hpow k).
    rewrite int64_id by (unfold int64_min, int64_max; nia). case_decide; nia. }
  rewrite !E, Nat2Z.inj_succ, Z.pow_succ_r by lia. specialize (Hpow n). split_and!; nia.
Qed.

(** ** Concrete runs *)

Import ToyNoise.

(** Alice accepted a code; the relay announced some other key for Bob. *)
Definition ex_misled : Client :=
  readLoop_frame ex_turn TextMessage (Marshal (ex_complete "bob" ex_alice_key))
    (ex_waiting "alice" ex_alice_key true).

Lemma refused_key_stays_pinned_witness :
  StaticKey <$> pins (peerStore (deliver ex_turn (handshakeFrame (String "2" ex_bob_key)) ex_misled))
    !! "bob" = Some (encodeBase64 ex_bob_key).
Proof.
  refine (proj1 (proj2 (proj2 (refused_key_stays_pinned ex_turn (String "2" ex_bob_key) ex_misled
    "bob" (encodeBase64 ex_alice_key) 0 1
    (NoiseSession statusHandshaking None true (Toy true ex_alice_key "" 1) false None None "" 0)
    _ _ (conj _ _) eq_refl _ _ _ _))));
    try (vm_compute; reflexivity); vm_compute; discriminate.
Defined.

(** Bob asked for a code, and the first handshake message is broken. *)
Definition ex_broken : Client :=
  deliver ex_turn (handshakeFrame "junk")
    (readLoop_frame ex_turn TextMessage (Marshal (ex_complete "alice" ex_alice_key))
       (ex_waiting "bob" ex_bob_key false)).

Lemma first_failure_is_final_witness :
  (Send "alice" "hello"
     (foldl (λ c (f : input * msgKind * bytes), readLoop_frame f.1.1 f.1.2 f.2 c) ex_broken
        [(ex_turn, BinaryMessage, encodeEnvelope envelopeHandshake "1")])).1 = Some ErrNotReady.
Proof.
  refine (proj2 (first_failure_is_final ex_broken "alice" _ "hello" _)).
  split; [vm_compute; reflexivity|]. split; [vm_compute; reflexivity|].
  eexists _, 1, _. split_and!; vm_compute; reflexivity.
Defined.

(** Bob restarts with Alice's key pinned and hears from somebody else. *)
Definition ex_restarted : Client :=
  let c := MkClient "bob" ex_bob_key
             (MkPeerStore {["alice" := PinnedPeer (encodeBase64 ex_alice_key) ""]} None)
             ∅ ∅ [] [] ∅ ∅ [] in
  deliver ex_turn (handshakeFrame "1") (setPeerConn "alice" (newPeerConn "alice" "") c).

Lemma send_before_verification_witness :
  sends (Send "alice" "secret" (peer_handleHandshakeEnvelope ex_turn "alice"
    (PeerConn "alice" "" (Some 1) None None None) "3mallory" ex_restarted).2).2 =
  sends ex_restarted ++ [transportFrame (toy_tag 0 +:+ "secret")].
Proof.
  refine (proj1 (proj2 (send_before_verification ex_turn "3mallory" ex_restarted "alice"
    (PeerConn "alice" "" (Some 1) None None None) 1
    (NoiseSession statusHandshaking None false (Toy false ex_bob_key "" 2) true None None "" 0)
    _ _ (PinnedPeer (encodeBase64 ex_alice_key) "") _ _ _ "secret"
    _ _ _ _ _ eq_refl _ _ _ eq_refl eq_refl)));
    try (vm_compute; reflexivity); vm_compute; discriminate.
Defined.

Lemma backoff_bounded_witness :
  delay_at 10 DefaultMaxReconnectDelay DefaultReconnectDelay = DefaultMaxReconnectDelay.
Proof.
  refine (eq_trans (proj2 (proj2 (backoff_bounded 10 DefaultMaxReconnectDelay DefaultReconnectDelay
    _ _))) _); vm_compute; try reflexivity. split; [reflexivity|discriminate].
Defined.
