(* ===== verification/SdkLoops.v ===== *)
(** * The goroutines of an SDK client (src/sdk/go/client.go)

    [Connect] starts [readLoop], [writeLoop] and [pingLoop]; the user's goroutines call
    [Send], [RequestPairCode], [AcceptPair] and [Close].  Here all of them run at the
    grain of their individual actions on [c.mu], [c.conn], the three channels and the
    sockets, as [SendQueue] does for the relay's connections.  What a handler does with a
    frame is the subject of [Sdk]; towards the other goroutines it delivers a message,
    enqueues a frame, or does neither ([frame_effect]). *)

From S2P Require Import Prelude SendQueue Wire Keys Noise PeerStore Sdk.

Definition sendsCapacity : nat := 64.

(** ** The shared variables *)

Inductive goroutine := GRead | GWrite | GClose (i : nat).

#[global] Instance goroutine_eq_dec : EqDecision goroutine.
Proof. solve_decision. Defined.

Record loops := Loops {
  l_mu : option goroutine;        (* the holder of [c.mu] *)
  l_conn : nat;                   (* [c.conn] *)
  l_closed : bool;                (* [c.closed] *)
  l_done : bool;                  (* [c.done] has been closed *)
  l_sends : list outFrame;        (* the buffer of [c.sends] *)
  l_messages : list Message;      (* the buffer of [c.messages] *)
  l_ended : bool;                 (* [c.messages] has been closed *)
  l_open : gset nat;              (* the sockets not closed by this client *)
  l_dialed : nat;                 (* connections made so far *)
  l_late : bool;                  (* [c.conn] was assigned after [Close] *)
  l_panicked : bool
}.

Definition with_mu m s := Loops m (l_conn s) (l_closed s) (l_done s) (l_sends s) (l_messages s)
  (l_ended s) (l_open s) (l_dialed s) (l_late s) (l_panicked s).
Definition with_conn k s := Loops (l_mu s) k (l_closed s) (l_done s) (l_sends s) (l_messages s)
  (l_ended s) (l_open s) (l_dialed s) (l_closed s || l_late s) (l_panicked s).
Definition with_closed s := Loops (l_mu s) (l_conn s) true (l_done s) (l_sends s) (l_messages s)
  (l_ended s) (l_open s) (l_dialed s) (l_late s) (l_panicked s).
Definition with_done s := Loops (l_mu s) (l_conn s) (l_closed s) true (l_sends s) (l_messages s)
  (l_ended s) (l_open s) (l_dialed s) (l_late s) (l_panicked s).
Definition with_outbox l s := Loops (l_mu s) (l_conn s) (l_closed s) (l_done s) l (l_messages s)
  (l_ended s) (l_open s) (l_dialed s) (l_late s) (l_panicked s).
Definition with_inbox l s := Loops (l_mu s) (l_conn s) (l_closed s) (l_done s) (l_sends s) l
  (l_ended s) (l_open s) (l_dialed s) (l_late s) (l_panicked s).
Definition with_ended s := Loops (l_mu s) (l_conn s) (l_closed s) (l_done s) (l_sends s) (l_messages s)
  true (l_open s) (l_dialed s) (l_late s) (l_panicked s).
Definition with_open o s := Loops (l_mu s) (l_conn s) (l_closed s) (l_done s) (l_sends s) (l_messages s)
  (l_ended s) o (l_dialed s) (l_late s) (l_panicked s).
Definition with_dialed s := Loops (l_mu s) (l_conn s) (l_closed s) (l_done s) (l_sends s) (l_messages s)
  (l_ended s) ({[l_dialed s]} ∪ l_open s) (S (l_dialed s)) (l_late s) (l_panicked s).
Definition with_panicked s := Loops (l_mu s) (l_conn s) (l_closed s) (l_done s) (l_sends s) (l_messages s)
  (l_ended s) (l_open s) (l_dialed s) (l_late s) true.

Definition hang_up (k : nat) (s : loops) : loops := with_open (l_open s ∖ {[k]}) s.

(** [c.mu.Lock()] and [c.mu.Unlock()]. *)
Definition lock (g : goroutine) (s : loops) : option loops :=
  match l_mu s with None => Some (with_mu (Some g) s) | Some _ => None end.
Definition unlock (s : loops) : loops := with_mu None s.

(** [c.sends <- f], when there is room. *)
Definition push (f : outFrame) (s : loops) : option loops :=
  if decide (length (l_sends s) < sendsCapacity) then Some (with_outbox (l_sends s ++ [f]) s) else None.

(** What decides an action that has alternatives: it goes on, it fails, it takes the
    [done] case of its [select], its timer fires, or it reads a frame with some effect. *)
Inductive effect := Nothing | Delivers (m : Message) | Enqueues (f : outFrame).
Inductive alternative := Go | Fails | Done | Tick | Frame (e : effect).

(** ** The read loop, with its reconnections *)

Inductive rpc :=
  | RLock | RGet | RUnlock (k : nat) | RRead (k : nat)
  | RDeliver (m : Message) | REnqueue (f : outFrame)
  | RFailed | RBackoff | RDial
  | RSetLock (k : nat) | RSet (k : nat) | RSetUnlock (k : nat)
  | RWelcome (k : nat) | RAnnounce (k : nat) | RAnnouncing (k : nat)
  | RDefer | REnded.

(** The part of [dial] from the moment the connection is made; a failure closes it. *)
Definition dial_action (x : alternative) (p : rpc) (s : loops) : option (rpc * loops) :=
  match p, x with
  | RDial, Fails => Some (RBackoff, s)
  | RDial, Go => Some (RSetLock (l_dialed s), with_dialed s)
  | RSetLock k, Go => (RSet k,.) <$> lock GRead s
  | RSet k, Go => Some (RSetUnlock k, with_conn k s)
  | RSetUnlock k, Go => Some (RWelcome k, unlock s)
  | RWelcome k, Fails => Some (RBackoff, hang_up k s)
  | RWelcome k, Go => if decide (k ∈ l_open s) then Some (RAnnounce k, s) else None
  | RAnnounce k, Go => Some (RAnnouncing k, s)
  | RAnnouncing k, Fails => Some (RBackoff, hang_up k s)
  | RAnnouncing k, Go => if decide (k ∈ l_open s) then Some (RLock, s) else None
  | _, _ => None
  end.

(** [reconnectWithBackoff] up to the next [dial]. *)
Definition backoff_action (x : alternative) (s : loops) : option (rpc * loops) :=
  match x with
  | Done => if l_done s then Some (RDefer, s) else None
  | Tick => Some (RDial, s)
  | _ => None
  end.

(** [reconnect] is false when [ReconnectDelay] is negative. *)
Definition readLoop_action (reconnect : bool) (x : alternative) (p : rpc) (s : loops) : option (rpc * loops) :=
  match p, x with
  | RLock, Go => (RGet,.) <$> lock GRead s
  | RGet, Go => Some (RUnlock (l_conn s), s)
  | RUnlock k, Go => Some (RRead k, unlock s)
  | RRead k, Frame e =>
      if decide (k ∈ l_open s) then
        Some (match e with Nothing => RLock | Delivers m => RDeliver m | Enqueues f => REnqueue f end, s)
      else None
  | RRead k, Fails => Some (RFailed, s)
  | RDeliver m, Go =>
      if l_ended s then Some (REnded, with_panicked s)
      else if decide (length (l_messages s) < messagesCapacity)
      then Some (RLock, with_inbox (l_messages s ++ [m]) s)
      else Some (RLock, s)
  | REnqueue f, Go => (RLock,.) <$> push f s
  | REnqueue f, Done => if l_done s then Some (RLock, s) else None
  | RFailed, Go =>
      Some (if l_done s then RDefer else if reconnect then RBackoff else RDefer, s)
  | RBackoff, _ => backoff_action x s
  | RDefer, Go => if l_ended s then Some (REnded, with_panicked s) else Some (REnded, with_ended s)
  | _, _ => dial_action x p s
  end.

(** ** The write loop and the ping loop *)

Inductive wpc :=
  | WTop | WLock (f : outFrame) | WGet (f : outFrame) | WUnlock (f : outFrame) (k : nat)
  | WWrite (f : outFrame) (k : nat) | WWriting (f : outFrame) (k : nat) | WEnded.

Definition writeLoop_action (x : alternative) (p : wpc) (s : loops) : option (wpc * loops) :=
  match p, x with
  | WTop, Go => match l_sends s with f :: fs => Some (WLock f, with_outbox fs s) | [] => None end
  | WTop, Done => if l_done s then Some (WEnded, s) else None
  | WLock f, Go => (WGet f,.) <$> lock GWrite s
  | WGet f, Go => Some (WUnlock f (l_conn s), s)
  | WUnlock f k, Go => Some (WWrite f k, unlock s)
  | WWrite f k, Go => Some (WWriting f k, s)
  | WWriting f k, (Go | Fails) => Some (WTop, s)
  | _, _ => None
  end.

Inductive ppc := PTop | PSend | PEnded.

Definition pingLoop_action (x : alternative) (p : ppc) (s : loops) : option (ppc * loops) :=
  match p, x with
  | PTop, Tick => Some (PSend, s)
  | PTop, Done => if l_done s then Some (PEnded, s) else None
  | PSend, Go => (PTop,.) <$> push (controlFrame (message msgTypePing)) s
  | _, _ => None
  end.

(** ** Close *)

Inductive kpc := KLock | KCheck | KDone | KHangUp | KUnlock | KReturned.

Definition Close_action (i : nat) (p : kpc) (s : loops) : option (kpc * loops) :=
  match p with
  | KLock => (KCheck,.) <$> lock (GClose i) s
  | KCheck => if l_closed s then Some (KUnlock, s) else Some (KDone, with_closed s)
  | KDone => if l_done s then Some (KReturned, with_panicked s) else Some (KHangUp, with_done s)
  | KHangUp => Some (KUnlock, hang_up (l_conn s) s)
  | KUnlock => Some (KReturned, unlock s)
  | KReturned => None
  end.

(** ** All of them together *)

Record client_state := CState {
  shared_of : loops;
  rd : rpc;
  wr : wpc;
  pg : ppc;
  closers : list kpc
}.

(** After [Connect]. *)
Definition started : client_state :=
  CState (Loops None 0 false false [] [] false {[0]} 1 false false) RLock WTop PTop [].

Section steps.
Context (reconnect : bool).

Inductive loop_step : client_state → client_state → Prop :=
  | step_read x p s s' w g ks p' :
      readLoop_action reconnect x p s = Some (p', s') →
      loop_step (CState s p w g ks) (CState s' p' w g ks)
  | step_write x p s s' r g ks p' :
      writeLoop_action x p s = Some (p', s') →
      loop_step (CState s r p g ks) (CState s' r p' g ks)
  | step_ping x p s s' r w ks p' :
      pingLoop_action x p s = Some (p', s') →
      loop_step (CState s r w p ks) (CState s' r w p' ks)
  | step_close i p s s' r w g ks p' :
      ks !! i = Some p → Close_action i p s = Some (p', s') →
      loop_step (CState s r w g ks) (CState s' r w g (<[i := p']> ks))
  | step_call s r w g ks : loop_step (CState s r w g ks) (CState s r w g (ks ++ [KLock]))
  (* the user's sends, and receives from [Messages] *)
  | step_user f s s' r w g ks :
      push f s = Some s' → loop_step (CState s r w g ks) (CState s' r w g ks)
  | step_receive m l s r w g ks :
      l_messages s = m :: l → loop_step (CState s r w g ks) (CState (with_inbox l s) r w g ks).

Definition reachable (c : client_state) : Prop := rtc loop_step started c.
End steps.

(** ** The invariant *)

Definition r_holds (p : rpc) : bool :=
  match p with RGet | RUnlock _ | RSet _ | RSetUnlock _ => true | _ => false end.
Definition w_holds (p : wpc) : bool :=
  match p with WGet _ | WUnlock _ _ => true | _ => false end.
Definition k_holds (p : kpc) : bool :=
  match p with KCheck | KDone | KHangUp | KUnlock => true | _ => false end.

(** The connection a part of the read loop works on. *)
Definition r_conn (p : rpc) : option nat :=
  match p with
  | RUnlock k | RRead k | RSetUnlock k | RWelcome k | RAnnounce k | RAnnouncing k => Some k
  | _ => None
  end.

(** ... and one that has been dialed and is not [c.conn] yet. *)
Definition r_new (p : rpc) : option nat :=
  match p with RSetLock k | RSet k => Some k | _ => None end.

Definition r_ended (p : rpc) : bool := match p with REnded => true | _ => false end.

Definition holder (c : client_state) : Prop :=
  match l_mu (shared_of c) with
  | None => r_holds (rd c) = false ∧ w_holds (wr c) = false ∧ Forall (λ k, k_holds k = false) (closers c)
  | Some GRead => r_holds (rd c) = true ∧ w_holds (wr c) = false ∧ Forall (λ k, k_holds k = false) (closers c)
  | Some GWrite => r_holds (rd c) = false ∧ w_holds (wr c) = true ∧ Forall (λ k, k_holds k = false) (closers c)
  | Some (GClose i) =>
      r_holds (rd c) = false ∧ w_holds (wr c) = false ∧ i < length (closers c) ∧
      ∀ j k, closers c !! j = Some k → k_holds k = bool_decide (j = i)
  end.

Record loops_inv (c : client_state) : Prop := {
  inv_holder : holder c;
  inv_no_panic : l_panicked (shared_of c) = false;
  inv_ended : l_ended (shared_of c) = r_ended (rd c);
  inv_sends : length (l_sends (shared_of c)) ≤ sendsCapacity;
  inv_messages : length (l_messages (shared_of c)) ≤ messagesCapacity;
  inv_at_done i : closers c !! i = Some KDone → l_closed (shared_of c) = true ∧ l_done (shared_of c) = false;
  inv_at_hang i : closers c !! i = Some KHangUp → l_done (shared_of c) = true;
  inv_done : l_done (shared_of c) = true → l_closed (shared_of c) = true;
  inv_closed : l_closed (shared_of c) = true →
    l_done (shared_of c) = true ∨ ∃ i, closers c !! i = Some KDone;
  inv_conn k : r_conn (rd c) = Some k → k = l_conn (shared_of c);
  inv_hung : l_done (shared_of c) = true → l_late (shared_of c) = false →
    l_conn (shared_of c) ∉ l_open (shared_of c) ∨ ∃ i, closers c !! i = Some KHangUp;
  inv_conn_dialed : l_conn (shared_of c) < l_dialed (shared_of c);
  inv_open_dialed k : k ∈ l_open (shared_of c) → k < l_dialed (shared_of c);
  inv_new_dialed k : r_new (rd c) = Some k → k < l_dialed (shared_of c)
}.

Lemma started_inv : loops_inv started.
Proof. split; cbn; try done; try (unfold sendsCapacity, messagesCapacity; lia). set_solver by lia. Qed.

Lemma lock_Some g s s' : lock g s = Some s' → l_mu s = None ∧ s' = with_mu (Some g) s.
Proof. unfold lock. destruct (l_mu s); [done|]. by intros [= <-]. Qed.

Lemma push_Some f s s' :
  push f s = Some s' → length (l_sends s) < sendsCapacity ∧ s' = with_outbox (l_sends s ++ [f]) s.
Proof. unfold push. case_decide; [|done]. by intros [= <-]. Qed.

Ltac act_inv :=
  repeat match goal with
  | E : None = Some _ |- _ => discriminate E
  | E : Some _ = Some _ |- _ => injection E as <- <-
  | E : (_,.) <$> _ = Some _ |- _ => apply fmap_Some in E as (? & ? & E)
  | E : (_, _) = (_, _) |- _ => injection E as -> ->
  | E : lock _ _ = Some _ |- _ => apply lock_Some in E as [? ->]
  | E : push _ _ = Some _ |- _ => apply push_Some in E as [? ->]
  | E : context [decide ?P] |- _ => destruct (decide P)
  | E : (if ?b then _ else _) = Some _ |- _ =>
      let Eb := fresh in
      assert (b = true ∨ b = false) as [Eb|Eb] by (destruct b; auto); rewrite Eb in E
  end.

Lemma read_keeps re x p s p' s' w g ks :
  readLoop_action re x p s = Some (p', s') →
  loops_inv (CState s p w g ks) → loops_inv (CState s' p' w g ks).
Proof.
  intros E [Hh Hp He Hs Hm Hd Hg Hdc Hc Hk Hu Hf1 Hf2 Hf3]. unfold holder in Hh.
  unfold readLoop_action, dial_action, backoff_action in E. cbn in *.
  destruct p, x; act_inv.
  all: try match goal with e : effect |- _ => destruct e end.
  all: try match goal with |- context [if ?b then RDefer else if ?a then _ else _] =>
    assert (b = true ∨ b = false) as [Eb|Eb] by (destruct b; auto); rewrite Eb; [|destruct a] end.
  all: split; unfold holder; cbn in *; try done.
  all: try match goal with H : l_mu _ = None |- _ => rewrite H in * end.
  all: try (by eauto).
  all: try (destruct (l_mu s) as [[| |i]|]; destruct_and?; done).
  all: try (rewrite ?length_app; cbn; lia).
  all: try (intros; simplify_eq; try done; try lia; by eauto).
  - intros H1 H2. destruct (Hu H1 H2); [left; set_solver by lia|by right].
  - set_solver by lia.
  - intros H1. by rewrite (Hdc H1).
  - intros H1 H2. destruct (Hu H1 H2); [left; set_solver|by right].
  - set_solver.
  - intros H1 H2. destruct (Hu H1 H2); [left; set_solver|by right].
  - set_solver.
Qed.

Lemma write_keeps x p s p' s' r g ks :
  writeLoop_action x p s = Some (p', s') →
  loops_inv (CState s r p g ks) → loops_inv (CState s' r p' g ks).
Proof.
  intros E [Hh Hp He Hs Hm Hd Hg Hdc Hc Hk Hu Hf1 Hf2 Hf3]. unfold holder in Hh.
  unfold writeLoop_action in E. cbn in *.
  destruct p, x; try match type of E with context [match l_sends s with _ => _ end] =>
    destruct (l_sends s) eqn:? end; act_inv.
  all: split; unfold holder; cbn in *; try done.
  all: try match goal with H : l_mu _ = None |- _ => rewrite H in * end.
  all: try (by eauto).
  all: try (destruct (l_mu s) as [[| |i]|]; destruct_and?; done).
  all: try lia.
Qed.

Lemma ping_keeps x p s p' s' r w ks :
  pingLoop_action x p s = Some (p', s') →
  loops_inv (CState s r w p ks) → loops_inv (CState s' r w p' ks).
Proof.
  intros E [Hh Hp He Hs Hm Hd Hg Hdc Hc Hk Hu Hf1 Hf2 Hf3]. unfold holder in Hh.
  unfold pingLoop_action in E. cbn in *.
  destruct p, x; act_inv; split; unfold holder; cbn in *; try done.
  rewrite length_app. cbn. lia.
Qed.

Lemma holder_closer c i p :
  holder c → closers c !! i = Some p → k_holds p = true → l_mu (shared_of c) = Some (GClose i).
Proof.
  unfold holder. intros Hh Ei Hp.
  assert (¬ Forall (λ k, k_holds k = false) (closers c)) as Hn.
  { intros Hf. pose proof (Forall_lookup_1 _ _ _ _ Hf Ei). cbn in *. congruence. }
  destruct (l_mu (shared_of c)) as [[| |j]|]; destruct_and?; try done.
  match goal with H : ∀ _ _, _ |- _ => pose proof (H i p Ei) as Hj end.
  rewrite Hp in Hj. symmetry in Hj. apply bool_decide_eq_true in Hj. by subst.
Qed.

Lemma insert_Some {A} (ks : list A) i p p' j q :
  ks !! i = Some p → <[i := p']> ks !! j = Some q → (j = i ∧ q = p') ∨ (j ≠ i ∧ ks !! j = Some q).
Proof. intros Ei [(-> & -> & _)|[Hj Ej]]%list_lookup_insert_Some; [by left|right; auto]. Qed.

Lemma insert_other {A} (ks : list A) i p p' q :
  ks !! i = Some p → p ≠ q → (∃ j, ks !! j = Some q) → ∃ j, <[i := p']> ks !! j = Some q.
Proof.
  intros Ei Hp [j Ej]. exists j. rewrite list_lookup_insert_ne; [done|]. intros ->. congruence.
Qed.

(** A closer that takes the lock, or gives it back. *)
Lemma closers_locked (ks : list kpc) i p' :
  Forall (λ k, k_holds k = false) ks → k_holds p' = true →
  ∀ j k, <[i := p']> ks !! j = Some k → k_holds k = bool_decide (j = i).
Proof.
  intros Hf Hp j k [(-> & -> & _)|[Hj Ej]]%list_lookup_insert_Some.
  - by rewrite bool_decide_eq_true_2.
  - rewrite bool_decide_eq_false_2 by done. by apply (Forall_lookup_1 _ _ _ _ Hf Ej).
Qed.

Lemma closers_kept (ks : list kpc) i p p' :
  ks !! i = Some p → (∀ j k, ks !! j = Some k → k_holds k = bool_decide (j = i)) → k_holds p' = true →
  ∀ j k, <[i := p']> ks !! j = Some k → k_holds k = bool_decide (j = i).
Proof.
  intros Ei Hf Hp j k [(-> & ->)|[Hj Ej]]%(insert_Some _ _ _ _ _ _ Ei); [|by auto].
  by rewrite bool_decide_eq_true_2.
Qed.

Lemma closers_unlocked (ks : list kpc) i p p' :
  ks !! i = Some p → (∀ j k, ks !! j = Some k → k_holds k = bool_decide (j = i)) → k_holds p' = false →
  Forall (λ k, k_holds k = false) (<[i := p']> ks).
Proof.
  intros Ei Hf Hp. apply Forall_lookup. intros j k [(-> & ->)|[Hj Ej]]%(insert_Some _ _ _ _ _ _ Ei); [done|].
  rewrite (Hf j k Ej). by apply bool_decide_eq_false_2.
Qed.

Lemma close_keeps i p s p' s' r w g ks :
  ks !! i = Some p → Close_action i p s = Some (p', s') →
  loops_inv (CState s r w g ks) → loops_inv (CState s' r w g (<[i := p']> ks)).
Proof.
  intros Ei E Hi. pose proof (λ q, holder_closer _ i q (inv_holder _ Hi)) as Hmu.
  destruct Hi as [Hh Hp He Hs Hm Hd Hg Hdc Hc Hk Hu Hf1 Hf2 Hf3]. unfold holder in Hh.
  assert (∀ q, q ≠ p' → ∀ j, <[i := p']> ks !! j = Some q → ks !! j = Some q) as Hold.
  { intros q Hq j [[_ ?]|[_ ?]]%(insert_Some _ _ _ _ _ _ Ei); congruence. }
  assert (∀ q, p ≠ q → (∃ j, ks !! j = Some q) → ∃ j, <[i := p']> ks !! j = Some q) as Hnew
    by (intros q; by apply insert_other).
  unfold Close_action in E. cbn in *.
  destruct p; act_inv.
  1: match goal with H : l_mu s = None |- _ => rewrite H in Hh end.
  2-7: rewrite (Hmu _ Ei eq_refl) in Hh; destruct Hh as (Hh1 & Hh2 & Hh4 & Hh3).
  4: destruct (Hd i Ei); congruence.
  all: split; unfold holder; cbn in *; try done.
  all: try (rewrite (Hmu _ Ei eq_refl)); destruct_and?; split_and?; try done.
  all: try (rewrite length_insert; by eapply lookup_lt_Some).
  all: try (by eapply closers_kept). all: try (by eapply closers_locked). all: try (by eapply closers_unlocked).
  all: try (intros j Hj; apply Hold in Hj; [by eauto|done]).
  all: try (intros X1; destruct (Hc X1); [by left|right; by apply Hnew]).
  all: try (intros X1 X2; destruct (Hu X1 X2); [left; set_solver|right; by apply Hnew]).
  - intros j _. split; [done|]. destruct (l_done s); [|done]. specialize (Hdc eq_refl). congruence.
  - intros _. right. exists i. apply list_lookup_insert_eq. by eapply lookup_lt_Some.
  - intros j [[_ ?]|[Hj Ej]]%(insert_Some _ _ _ _ _ _ Ei); [done|].
    specialize (Hh3 _ _ Ej). by rewrite bool_decide_eq_false_2 in Hh3.
  - intros _. by destruct (Hd i Ei).
  - by left.
  - intros _ _. right. exists i. apply list_lookup_insert_eq. by eapply lookup_lt_Some.
  - left. set_solver.
  - set_solver.
Qed.

Lemma loop_step_keeps re c c' : loop_step re c c' → loops_inv c → loops_inv c'.
Proof.
  intros [x p s s' w g ks p' E|x p s s' r g ks p' E|x p s s' r w ks p' E|i p s s' r w g ks p' Ei E|
          s r w g ks|f s s' r w g ks E|m l s r w g ks E].
  - by eapply read_keeps.
  - by eapply write_keeps.
  - by eapply ping_keeps.
  - by eapply close_keeps.
  - intros [Hh Hp He Hs Hm Hd Hg Hdc Hc Hk Hu Hf1 Hf2 Hf3]. unfold holder in Hh. cbn in *.
    assert (∀ q, q ≠ KLock → ∀ j, (ks ++ [KLock]) !! j = Some q → ks !! j = Some q) as Hold.
    { intros q Hq j [?|[? ?%list_lookup_singleton_Some]]%lookup_app_Some; [done|]. naive_solver. }
    split; unfold holder; cbn in *; try done.
    + assert (∀ P : kpc → Prop, Forall P ks → P KLock → Forall P (ks ++ [KLock])) as Ha
        by (intros; apply Forall_app; auto).
      destruct (l_mu s) as [[| |i]|]; destruct_and?; split_and?; auto.
      { rewrite length_app. lia. }
      intros j k [Ej|[Hj ?%list_lookup_singleton_Some]]%lookup_app_Some; [by auto|].
      destruct_and?. subst. symmetry. apply bool_decide_eq_false_2. lia.
    + intros i Hi. apply (Hd i). by apply Hold.
    + intros i Hi. apply (Hg i). by apply Hold.
    + intros H1. destruct (Hc H1) as [|[i Hi]]; [by left|right]. exists i. by apply lookup_app_l_Some.
    + intros H1 H2. destruct (Hu H1 H2) as [|[i Hi]]; [by left|right]. exists i. by apply lookup_app_l_Some.
  - intros [Hh Hp He Hs Hm Hd Hg Hdc Hc Hk Hu Hf1 Hf2 Hf3]. apply push_Some in E as [? ->].
    split; unfold holder in *; cbn in *; try done. rewrite length_app. cbn. lia.
  - intros [Hh Hp He Hs Hm Hd Hg Hdc Hc Hk Hu Hf1 Hf2 Hf3].
    split; unfold holder in *; cbn in *; try done. rewrite E in Hm. cbn in Hm. lia.
Qed.

Lemma loops_reachable_inv re c : reachable re c → loops_inv c.
Proof.
  apply (rtc_ind_r loops_inv); [apply started_inv|]. intros. by eapply loop_step_keeps.
Qed.

(** ** Schedules, executed *)

Inductive turn := TRead (x : alternative) | TWrite (x : alternative) | TPing (x : alternative) | TClose (i : nat)
  | TCall | TUser (f : outFrame) | TReceive.

Definition take_turn (re : bool) (t : turn) (c : client_state) : option client_state :=
  let '(CState s r w g ks) := c in
  match t with
  | TRead x => '(r, s) ← readLoop_action re x r s; Some (CState s r w g ks)
  | TWrite x => '(w, s) ← writeLoop_action x w s; Some (CState s r w g ks)
  | TPing x => '(g, s) ← pingLoop_action x g s; Some (CState s r w g ks)
  | TClose i => k ← ks !! i; '(k, s) ← Close_action i k s; Some (CState s r w g (<[i := k]> ks))
  | TCall => Some (CState s r w g (ks ++ [KLock]))
  | TUser f => s ← push f s; Some (CState s r w g ks)
  | TReceive => match l_messages s with _ :: l => Some (CState (with_inbox l s) r w g ks) | [] => None end
  end.

Fixpoint take_turns (re : bool) (ts : list turn) (c : client_state) : option client_state :=
  match ts with
  | [] => Some c
  | t :: ts => take_turn re t c ≫= take_turns re ts
  end.

Lemma take_turn_step re t c c' : take_turn re t c = Some c' → loop_step re c c'.
Proof.
  destruct c as [s r w g ks], t; cbn; intros E.
  - destruct (readLoop_action _ _ _ _) as [[r' s']|] eqn:Ea; simplify_eq/=. by eapply step_read.
  - destruct (writeLoop_action _ _ _) as [[r' s']|] eqn:Ea; simplify_eq/=. by eapply step_write.
  - destruct (pingLoop_action _ _ _) as [[r' s']|] eqn:Ea; simplify_eq/=. by eapply step_ping.
  - destruct (ks !! i) as [k|] eqn:Ei; simplify_eq/=.
    destruct (Close_action _ _ _) as [[r' s']|] eqn:Ea; simplify_eq/=. by eapply step_close.
  - simplify_eq. constructor.
  - destruct (push f s) eqn:Ea; simplify_eq/=. by econstructor.
  - destruct (l_messages s) eqn:Ea; simplify_eq/=. by eapply step_receive.
Qed.

Lemma take_turns_reachable re ts c : take_turns re ts started = Some c → reachable re c.
Proof.
  unfold reachable. generalize started. induction ts as [|t ts IH]; intros c0; cbn.
  { by intros [= ->]. }
  destruct (take_turn re t c0) as [c1|] eqn:E; [|done]. cbn. intros Hr%IH.
  eapply rtc_l; [by eapply take_turn_step|done].
Qed.

(** ** Safety *)


Definition ex_frame : outFrame := OutFrame BinaryMessage "x".
Definition times {A} (n : nat) (x : A) : list A := replicate n x.

(** The read loop reads [c.conn], loses it and waits to dial. *)
Definition lose_connection : list turn :=
  [TRead Go; TRead Go; TRead Go; TRead Fails; TRead Go; TRead Tick].
Definition close_it (i : nat) : list turn := TCall :: times 5 (TClose i).


(** ** After Close *)

(** The read loop away from reconnecting, and how many of its actions are left once
    reading can only fail. *)
Definition rank (p : rpc) : option nat :=
  match p with
  | RDeliver _ | REnqueue _ => Some 7
  | RLock => Some 6 | RGet => Some 5 | RUnlock _ => Some 4 | RRead _ => Some 3
  | RFailed => Some 2 | RDefer => Some 1 | REnded => Some 0
  | _ => None
  end.

(** [Close] has closed [done] and the connection. *)
Definition shut (c : client_state) : Prop :=
  l_done (shared_of c) = true ∧ l_closed (shared_of c) = true ∧
  Forall (λ p, p ≠ KDone ∧ p ≠ KHangUp) (closers c) ∧
  (l_conn (shared_of c) ∉ l_open (shared_of c)) ∧
  is_Some (rank (rd c)).

Lemma shut_read re x p s p' s' w g ks n :
  loops_inv (CState s p w g ks) → shut (CState s p w g ks) → rank p = Some n →
  readLoop_action re x p s = Some (p', s') →
  shut (CState s' p' w g ks) ∧ ∃ m, m < n ∧ rank p' = Some m.
Proof.
  intros [Hh Hp He Hs Hm Hd Hg Hdc Hc Hk Hu Hf1 Hf2 Hf3] (S1 & S2 & S3 & S4 & _) Hn E.
  unfold readLoop_action, dial_action, backoff_action, shut in *. cbn in *.
  destruct p, x; cbn in Hn; try discriminate Hn; injection Hn as <-; rewrite ?S1 in E; act_inv; cbn.
  all: try (split; [split_and!; by eauto|eexists; split; [|reflexivity]; lia]).
  all: by rewrite (Hk _ eq_refl) in *.
Qed.

Lemma shut_step re c c' :
  loop_step re c c' → loops_inv c → shut c →
  shut c' ∧ ∀ n, rank (rd c) = Some n → ∃ m, m ≤ n ∧ rank (rd c') = Some m.
Proof.
  intros Hst Hi Hsh. assert (∀ r, ∀ n, rank r = Some n → ∃ m, m ≤ n ∧ rank r = Some m) as Hsame by eauto.
  destruct Hst as [x p s s' w g ks p' E|x p s s' r g ks p' E|x p s s' r w ks p' E|i p s s' r w g ks p' Ei E|
          s r w g ks|f s s' r w g ks E|m l s r w g ks E].
  { destruct Hsh as (S1 & S2 & S3 & S4 & [n Hn]). cbn in Hn.
    destruct (shut_read re x p s p' s' w g ks n) as (Hs & m & Hm & Er); try done.
    split; [done|]. cbn. intros n' Hn'. exists m. split; [|done]. rewrite Hn in Hn'. injection Hn' as <-. lia. }
  all: destruct Hsh as (S1 & S2 & S3 & S4 & S5); cbn in *.
  - unfold writeLoop_action in E. split; [|by apply Hsame].
    destruct p, x; try (destruct (l_sends s)); act_inv; unfold shut; cbn; by split_and!.
  - unfold pingLoop_action in E. split; [|by apply Hsame]. destruct p, x; act_inv; unfold shut; cbn; by split_and!.
  - split; [|by apply Hsame]. pose proof (Forall_lookup_1 _ _ _ _ S3 Ei) as [N1 N2].
    unfold Close_action in E. rewrite S2 in E. destruct p; try done; act_inv; split_and!; cbn; try done.
    all: by apply Forall_insert.
  - split; [|by apply Hsame]. split_and!; try done. cbn. apply Forall_app. split; [done|]. by repeat constructor.
  - apply push_Some in E as [? ->]. split; [by split_and!|by apply Hsame].
  - split; [by split_and!|by apply Hsame].
Qed.

(** A goroutine can act. *)
Definition can_act (re : bool) (g : goroutine) (c : client_state) : Prop :=
  match g with
  | GRead => ∃ x, is_Some (readLoop_action re x (rd c) (shared_of c))
  | GWrite => ∃ x, is_Some (writeLoop_action x (wr c) (shared_of c))
  | GClose i => ∃ p, closers c !! i = Some p ∧ is_Some (Close_action i p (shared_of c))
  end.

Lemma holder_can_act re c g : loops_inv c → l_mu (shared_of c) = Some g → can_act re g c.
Proof.
  intros Hi Hg. pose proof (inv_holder _ Hi) as Hh. unfold holder in Hh. rewrite Hg in Hh.
  destruct g as [| |i]; cbn.
  - destruct Hh as (Hh & _). exists Go. destruct (rd c); try done; cbn; eauto.
  - destruct Hh as (_ & Hh & _). exists Go. destruct (wr c); try done; cbn; eauto.
  - destruct Hh as (_ & _ & [k Hk]%lookup_lt_is_Some & Hh). exists k. split; [done|].
    specialize (Hh _ _ Hk). rewrite bool_decide_eq_true_2 in Hh by done.
    destruct k; try done; cbn; try (case_match; eauto); eauto.
Qed.

Lemma reader_can_act re c n :
  loops_inv c → l_done (shared_of c) = true → rank (rd c) = Some n →
  n = 0 ∨ can_act re GRead c ∨ ∃ g, l_mu (shared_of c) = Some g.
Proof.
  intros Hi Hd Hn. destruct (l_mu (shared_of c)) as [g|] eqn:Em; [eauto|].
  destruct (rd c) eqn:Er; simplify_eq/=; try (by left); right; left; rewrite Er.
  all: try (exists Go; cbn; unfold lock; rewrite ?Em; by eauto).
  - exists Fails. cbn. eauto.
  - exists Go. cbn. repeat case_match; eauto.
  - exists Done. cbn. rewrite Hd. eauto.
  - exists Go. cbn. case_match; eauto.
Qed.



(** ** What goes wrong *)

(** A connection the client no longer closes. *)
Definition left_open (k : nat) (c : client_state) : Prop :=
  k ∈ l_open (shared_of c) ∧ l_done (shared_of c) = true ∧ l_closed (shared_of c) = true ∧
  Forall (λ p, p ≠ KDone ∧ p ≠ KHangUp) (closers c) ∧ is_Some (rank (rd c)).

Lemma left_open_step re k c c' : loop_step re c c' → left_open k c → left_open k c'.
Proof.
  intros Hst (Hk & Hd & Hc & Hf & Hr).
  destruct Hst as [x p s s' w g ks p' E|x p s s' r g ks p' E|x p s s' r w ks p' E|i p s s' r w g ks p' Ei E|
          s r w g ks|f s s' r w g ks E|m l s r w g ks E]; cbn in *; unfold left_open; cbn.
  - unfold readLoop_action, dial_action, backoff_action in E.
    destruct p, x; try (by destruct Hr); rewrite ?Hd in E; act_inv; cbn; split_and!; try done; try by eauto.
    by destruct e.
  - unfold writeLoop_action in E. destruct p, x; try (destruct (l_sends s)); act_inv; by split_and!.
  - unfold pingLoop_action in E. destruct p, x; act_inv; by split_and!.
  - pose proof (Forall_lookup_1 _ _ _ _ Hf Ei) as [N1 N2]. unfold Close_action in E. rewrite Hc in E.
    destruct p; try done; act_inv; split_and!; cbn; try done. all: by apply Forall_insert.
  - split_and!; try done. apply Forall_app. split; [done|]. by repeat constructor.
  - apply push_Some in E as [? ->]. by split_and!.
  - by split_and!.
Qed.

(** [Close] during a reconnection leaves a connection open for ever.  [dial] assigns the
    new connection to [c.conn] without looking at [c.closed]: in a run where [Close] is
    called, returns, and then the dialing under way succeeds, the client is back to
    reading from an open connection, with the other loops gone, and nothing it can do
    afterwards, another [Close] included, closes that connection. *)
Theorem close_during_reconnect :
  ∃ c, reachable true c ∧ closers c = [KReturned] ∧ wr c = WEnded ∧ pg c = PEnded ∧
    rd c = RRead (l_conn (shared_of c)) ∧
    ∀ c', rtc (loop_step true) c c' → l_conn (shared_of c) ∈ l_open (shared_of c').
Proof.
  exists (CState (Loops None 1 true true [] [] false {[1]} 2 true false) (RRead 1) WEnded PEnded [KReturned]).
  split.
  { apply (take_turns_reachable true
      (lose_connection ++ close_it 0 ++ [TWrite Done; TPing Done] ++ times 10 (TRead Go))).
    vm_compute. reflexivity. }
  split_and!; [reflexivity..|]. intros c' Hc'. cbn [l_conn shared_of].
  enough (left_open 1 c') as [? _] by done.
  assert (∀ c, rtc (loop_step true) c c' → left_open 1 c → left_open 1 c') as Hkeep.
  { intros c Hc. induction Hc; eauto using left_open_step. }
  apply (Hkeep _ Hc'). split_and!; [set_solver|done..|by repeat constructor|by eexists].
Qed.

(** Two goroutines can write to one connection at the same time, which the WebSocket
    library does not allow (it panics when it notices): while [dial] sends [announce_key] on
    the connection it has already made [c.conn], the write loop can be sending a queued
    frame on it. *)
Theorem writes_overlap :
  ∃ c f k, reachable true c ∧ rd c = RAnnouncing k ∧ wr c = WWriting f k ∧ k = l_conn (shared_of c).
Proof.
  exists (CState (Loops None 1 false false [] [] false {[1; 0]} 2 false false)
            (RAnnouncing 1) (WWriting ex_frame 1) PTop []), ex_frame, 1.
  split_and!; [|reflexivity..].
  apply (take_turns_reachable true
    (lose_connection ++ times 4 (TRead Go) ++ [TUser ex_frame] ++ times 5 (TWrite Go) ++ times 2 (TRead Go))).
  vm_compute. reflexivity.
Qed.

(** ** The ping loop *)

(** The ping loop waits for room in [c.sends], and nobody makes any. *)
Definition ping_stuck (c : client_state) : Prop :=
  pg c = PSend ∧ wr c = WEnded ∧ length (l_sends (shared_of c)) = sendsCapacity.

Lemma ping_stuck_step re c c' : loop_step re c c' → ping_stuck c → ping_stuck c'.
Proof.
  assert (∀ f s s', push f s = Some s' → length (l_sends s) ≠ sendsCapacity) as Hp.
  { intros f s s' [? _]%push_Some. lia. }
  intros Hst (Hg & Hw & Hl).
  destruct Hst as [x p s s' w g ks p' E|x p s s' r g ks p' E|x p s s' r w ks p' E|i p s s' r w g ks p' Ei E|
          s r w g ks|f s s' r w g ks E|m l s r w g ks E]; cbn in *; subst; unfold ping_stuck; cbn; try done.
  - unfold readLoop_action, dial_action, backoff_action in E.
    assert (l_sends s' = l_sends s) as ->; [|done].
    destruct p, x; try done; try (by act_inv).
    apply fmap_Some in E as (s1 & E & _). by apply Hp in E.
  - unfold pingLoop_action in E. destruct x; try done. apply fmap_Some in E as (s1 & E & _). by apply Hp in E.
  - unfold Close_action in E. assert (l_sends s' = l_sends s) as ->; [|done]. by destruct p; act_inv.
  - by apply Hp in E.
Qed.

(** The ping loop can wait for ever after [Close]: it does not watch [done] while it waits
    for room in [c.sends], and the write loop that would make room has ended. *)
Lemma ping_loop_leaks :
  ∃ c, reachable true c ∧ closers c = [KReturned] ∧ wr c = WEnded ∧
    ∀ c', rtc (loop_step true) c c' → pg c' = PSend.
Proof.
  set (ts := times 64 (TUser ex_frame) ++ [TPing Tick] ++ close_it 0 ++ [TWrite Done]).
  exists (CState (Loops None 0 true true (times 64 ex_frame) [] false ∅ 1 false false)
            RLock WEnded PSend [KReturned]).
  split; [apply (take_turns_reachable true ts); vm_compute; reflexivity|].
  split_and!; [reflexivity..|]. intros c' Hc'.
  assert (∀ c, rtc (loop_step true) c c' → ping_stuck c → ping_stuck c') as Hkeep.
  { intros c Hc. induction Hc; eauto using ping_stuck_step. }
  by apply (Hkeep _ Hc').
Qed.

(** ** What a handler does towards the other goroutines *)

Section effects.
Context `{NoiseLib}.

(** A frame makes the client's handlers do one of the three things of [effect]. *)
Definition frame_effect (c c' : Client) (e : effect) : Prop :=
  match e with
  | Nothing => sends c' = sends c ∧ messages c' = messages c
  | Delivers m => sends c' = sends c ∧ messages c' = messages c ++ [m]
  | Enqueues f => sends c' = sends c ++ [f] ∧ messages c' = messages c
  end.

Definition quiet (c c' : Client) : Prop := sends c' = sends c ∧ messages c' = messages c.

Lemma quiet_effect c c' : quiet c c' → ∃ e, frame_effect c c' e.
Proof. by exists Nothing. Qed.

Lemma enqueue_effect c c' k b : quiet c c' → ∃ e, frame_effect c (enqueueBinary k b c') e.
Proof. intros [H1 H2]. eexists (Enqueues _). cbn. by rewrite H1, H2. Qed.

Lemma quiet_trans c1 c2 c3 : quiet c1 c2 → quiet c2 c3 → quiet c1 c3.
Proof. intros [H1 H2] [H3 H4]. split; congruence. Qed.

Lemma drive_quiet r wp d c : quiet c (drive r wp d c).2.
Proof. unfold drive, quiet. repeat case_match; simplify_eq/=; done. Qed.

Lemma envelope_quiet i id p d c : quiet c (peer_handleHandshakeEnvelope i id p d c).2.
Proof.
  unfold peer_handleHandshakeEnvelope. destruct (choose _ _ _); [apply drive_quiet|..|done];
    cbv zeta; (destruct (newResponderSession _ _); [done|]); (eapply quiet_trans; [|apply drive_quiet]); done.
Qed.

Lemma resolve_quiet i id p r wp err c : quiet c (resolveHandshake i id p r wp err c).
Proof.
  unfold resolveHandshake. destruct (judge i p r err c) as [v c1] eqn:E.
  assert (quiet c c1) as Hq.
  { revert E. unfold judge, verifyAndPin, session_of, quiet. repeat case_match; intros; simplify_eq/=; done. }
  apply (quiet_trans _ _ _ Hq). destruct v, wp; simpl; try done; by destruct (firstPairWaiter _).
Qed.

Lemma handshake_effect i d c : ∃ e, frame_effect c (handleHandshakeEnvelope i d c) e.
Proof.
  unfold handleHandshakeEnvelope. destruct (getSolePeer _ _) as [[id p]|]; [|by apply quiet_effect].
  pose proof (envelope_quiet i id p d c) as Hq.
  destruct (peer_handleHandshakeEnvelope i id p d c) as [[[[reply completed] wp] err] c1]. cbn [snd] in Hq.
  assert (∀ c2, (∃ e, frame_effect c c2 e) → ∃ e, frame_effect c (match completed with
    | None => c2 | Some r => match getPeerConn id c2 with
      | Some p => resolveHandshake i id p r wp err c2 | None => c2 end end) e) as Hc.
  { intros c2 [e He]. destruct completed as [r|]; [|by exists e].
    destruct (getPeerConn id c2) as [p2|]; [|by exists e].
    destruct (resolve_quiet i id p2 r wp err c2) as [H1 H2]. exists e.
    destruct e; cbn in *; by rewrite H1, H2. }
  apply Hc. destruct reply; [by apply enqueue_effect|by apply quiet_effect].
Qed.

Lemma notify_all_quiet err l c :
  quiet c (foldr (λ (kw : string * pairWaiter) c, notify (pw_ch kw.2) (failed_result err) c) c l).
Proof. induction l as [|w l IH]; [done|]. by apply (quiet_trans _ _ _ IH). Qed.

(** What the loops assume of a frame's handler holds of the handlers. *)
Lemma readLoop_frame_effect i k data c : ∃ e, frame_effect c (readLoop_frame i k data c) e.
Proof.
  unfold readLoop_frame. destruct k.
  - destruct (Unmarshal data) as [f|]; [|by apply quiet_effect]. unfold dispatch.
    repeat (case_decide; [|]); [..|by apply quiet_effect].
    + apply quiet_effect. unfold handlePairCode, takePairWaiter. by repeat case_match; simplify_eq/=.
    + unfold handlePairComplete, takePairWaiter.
      destruct (pairWaiters c !! cm_Code f) as [w|]; [|by apply quiet_effect].
      destruct (weAreAcceptor w); [|by apply quiet_effect]. unfold startAsInitiator.
      destruct (newInitiatorSession _ _) as [e|[s m]]; cbn; [by apply quiet_effect|by apply enqueue_effect].
    + unfold handlePeerStatus, startRekeyAsInitiator.
      repeat case_match; simplify_eq/=; first [by apply quiet_effect|by apply enqueue_effect].
    + apply quiet_effect. unfold handleError. apply notify_all_quiet.
  - destruct (decodeEnvelope data) as [[kind d]|]; [|by apply quiet_effect].
    case_decide; [apply handshake_effect|]. case_decide; [|by apply quiet_effect].
    unfold handleTransportEnvelope, recv, session_of.
    repeat case_match; simplify_eq/=; try (by apply quiet_effect). by eexists (Delivers _).
Qed.
End effects.
