(* ===== verification/SdkResults.v ===== *)
(** * Results reach their waiters (src/sdk/go/client.go)

    A pairing call waits on a channel with room for one result.  The handlers send to it
    from the read loop, one of them while holding [pairWaitersMu]: a second result on the
    same channel would block the client.  Here: no channel ever gets a second one. *)

From S2P Require Import Prelude SendQueue Wire Keys Noise PeerStore Sdk SdkFacts.

Section results.
Context `{NoiseLib}.

Definition waiter_of (c : Client) (key : string) : option chan := pw_ch <$> pairWaiters c !! key.
Definition first_of (c : Client) (id : string) : option chan := peers c !! id ≫= firstPairWaiter.

(** A channel some handler may still send to. *)
Definition awaited (c : Client) (ch : chan) : Prop :=
  (∃ key, waiter_of c key = Some ch) ∨ ∃ id, first_of c id = Some ch.

(** Each awaited channel is awaited at one place and has got nothing yet; [used] are the
    channels made so far. *)
Record waiters_ok (used : list chan) (c : Client) : Prop := {
  wo_keys k1 k2 ch : waiter_of c k1 = Some ch → waiter_of c k2 = Some ch → k1 = k2;
  wo_ids i1 i2 ch : first_of c i1 = Some ch → first_of c i2 = Some ch → i1 = i2;
  wo_apart k i ch : waiter_of c k = Some ch → first_of c i = Some ch → False;
  wo_empty ch : awaited c ch → results c !! ch = None;
  wo_used ch : awaited c ch ∨ is_Some (results c !! ch) → ch ∈ used;
  wo_once ch l : results c !! ch = Some l → length l ≤ 1
}.

(** Nothing new is awaited and nothing is sent. *)
Definition calm (c c' : Client) : Prop :=
  (∀ k ch, waiter_of c' k = Some ch → waiter_of c k = Some ch) ∧
  (∀ i ch, first_of c' i = Some ch → first_of c i = Some ch) ∧ results c' = results c.

Lemma calm_refl c : calm c c.
Proof. by split_and!. Qed.

Lemma calm_trans c1 c2 c3 : calm c1 c2 → calm c2 c3 → calm c1 c3.
Proof. intros (A1 & A2 & A3) (B1 & B2 & B3). split_and!; [by eauto..|congruence]. Qed.

Lemma calm_ok used c c' : calm c c' → waiters_ok used c → waiters_ok used c'.
Proof.
  intros (Hw & Hf & Hr) [K I A E U O].
  assert (∀ ch, awaited c' ch → awaited c ch) as Ha.
  { intros ch [[k Hk]|[i Hi]]; [left|right]; eauto. }
  split; rewrite ?Hr; try by eauto. intros ch [?|?]; eauto.
Qed.

Lemma calm_same c c' :
  pairWaiters c' = pairWaiters c → peers c' = peers c → results c' = results c → calm c c'.
Proof. intros E1 E2 E3. unfold calm, waiter_of, first_of. by rewrite E1, E2, E3. Qed.

(** A peer's entry is replaced by one with the same waiter, or none. *)
Lemma calm_peer c c' id p p' :
  peers c !! id = Some p → peers c' = <[id := p']> (peers c) →
  firstPairWaiter p' = firstPairWaiter p ∨ firstPairWaiter p' = None →
  pairWaiters c' = pairWaiters c → results c' = results c → calm c c'.
Proof.
  intros Ep E Hf Ew Er. unfold calm, waiter_of, first_of. rewrite Ew, E, Er. split_and!; [done| |done].
  intros i ch. destruct (decide (i = id)) as [->|Hi].
  - rewrite lookup_insert_eq, Ep. cbn. by destruct Hf as [->| ->].
  - by rewrite lookup_insert_ne.
Qed.

(** An awaited channel gets its result and is awaited no longer. *)
Lemma notify_ok used c c' ch r :
  waiters_ok used c → awaited c ch →
  (∀ k x, waiter_of c' k = Some x → waiter_of c k = Some x ∧ x ≠ ch) →
  (∀ i x, first_of c' i = Some x → first_of c i = Some x ∧ x ≠ ch) →
  results c' = <[ch := default [] (results c !! ch) ++ [r]]> (results c) →
  waiters_ok used c'.
Proof.
  intros [K I A E U O] Hch Hw Hf Hr. rewrite (E ch Hch) in Hr. cbn in Hr.
  assert (∀ x, awaited c' x → awaited c x ∧ x ≠ ch) as Ha.
  { intros x [[k [? ?]%Hw]|[i [? ?]%Hf]]; (split; [|done]); [left|right]; eauto. }
  split; rewrite ?Hr.
  - intros k1 k2 x [? _]%Hw [? _]%Hw. eauto.
  - intros i1 i2 x [? _]%Hf [? _]%Hf. eauto.
  - intros k i x [? _]%Hw [? _]%Hf. eauto.
  - intros x [? ?]%Ha. rewrite lookup_insert_ne by done. eauto.
  - intros x [[? _]%Ha|Hx]; [by eauto|]. destruct (decide (x = ch)) as [->|]; [by eauto|].
    rewrite lookup_insert_ne in Hx by done. eauto.
  - intros x l. destruct (decide (x = ch)) as [->|].
    + rewrite lookup_insert_eq. intros [= <-]. cbn. lia.
    + rewrite lookup_insert_ne by done. eauto.
Qed.

Lemma ok_used used used' c : used ⊆ used' → waiters_ok used c → waiters_ok used' c.
Proof. intros Hu [K I A E U O]. split; try done. eauto. Qed.

(** A new channel is awaited under a key. *)
Lemma add_ok used c c' key b ch :
  waiters_ok used c → ch ∉ used →
  pairWaiters c' = <[key := PairWaiter ch b]> (pairWaiters c) → peers c' = peers c → results c' = results c →
  waiters_ok (ch :: used) c'.
Proof.
  intros [K I A E U O] Hch Ew Ep Er.
  assert (∀ k x, waiter_of c' k = Some x → (k = key ∧ x = ch) ∨ (waiter_of c k = Some x ∧ x ≠ ch)) as Hw.
  { intros k x. unfold waiter_of. rewrite Ew. destruct (decide (k = key)) as [->|].
    - rewrite lookup_insert_eq. intros [= <-]. by left.
    - rewrite lookup_insert_ne by done. intros Hx. right. split; [done|]. intros ->.
      apply Hch, U. left. left. by exists k. }
  assert (∀ i x, first_of c' i = Some x → first_of c i = Some x ∧ x ≠ ch) as Hf.
  { intros i x. unfold first_of. rewrite Ep. intros Hx. split; [done|]. intros ->. apply Hch, U. left. right. by exists i. }
  split; rewrite ?Er.
  - intros k1 k2 x [[-> ->]|[H1 ?]]%Hw [[-> ?]|[H2 ?]]%Hw; try done. by eapply K.
  - intros i1 i2 x [? _]%Hf [? _]%Hf. eauto.
  - intros k i x [[-> ->]|[? ?]]%Hw [? ?]%Hf; [done|]. eauto.
  - intros x [[k [[_ ->]|[Hk _]]%Hw]|[i [Hi _]%Hf]].
    + destruct (results c !! ch) eqn:Ec; [|done]. exfalso. apply Hch, U. right. by rewrite Ec.
    + apply E. left. eauto.
    + apply E. right. eauto.
  - intros x [[[k [[_ ->]|[Hk _]]%Hw]|[i [Hi _]%Hf]]|Hx].
    + by left.
    + right. apply U. left. left. eauto.
    + right. apply U. left. right. eauto.
    + right. eauto.
  - done.
Qed.

(** A waiter becomes the first-pairing waiter of a peer. *)
Lemma move_ok used c c' key id p ch :
  waiters_ok used c → waiter_of c key = Some ch →
  pairWaiters c' = delete key (pairWaiters c) → peers c' = <[id := p]> (peers c) →
  firstPairWaiter p = Some ch → results c' = results c → waiters_ok used c'.
Proof.
  intros [K I A E U O] Hch Ew Ep Hp Er.
  assert (∀ k x, waiter_of c' k = Some x → waiter_of c k = Some x ∧ x ≠ ch) as Hw.
  { intros k x. unfold waiter_of. rewrite Ew. intros Hx. apply fmap_Some in Hx as (w & [Hk Ek]%lookup_delete_Some & ->).
    assert (waiter_of c k = Some (pw_ch w)) as Hx by (unfold waiter_of; by rewrite Ek).
    split; [done|]. intros Heq. rewrite Heq in Hx. by apply Hk, (K _ _ ch). }
  assert (∀ i x, first_of c' i = Some x → (i = id ∧ x = ch) ∨ (first_of c i = Some x ∧ x ≠ ch)) as Hf.
  { intros i x. unfold first_of. rewrite Ep. destruct (decide (i = id)) as [->|].
    - rewrite lookup_insert_eq. cbn. rewrite Hp. intros [= <-]. by left.
    - rewrite lookup_insert_ne by done. intros Hx. right. split; [done|]. intros ->. by apply (A key i ch). }
  assert (∀ x, awaited c' x → awaited c x) as Ha.
  { intros x [[k [? _]%Hw]|[i [[_ ->]|[? _]]%Hf]]; [left..|right]; eauto. }
  split; rewrite ?Er.
  - intros k1 k2 x [? _]%Hw [? _]%Hw. eauto.
  - intros i1 i2 x [[-> ->]|[? ?]]%Hf [[-> ?]|[? ?]]%Hf; try done. eauto.
  - intros k i x [? ?]%Hw [[-> ->]|[? ?]]%Hf; [done|]. eauto.
  - eauto.
  - intros x [?|?]; eauto.
  - done.
Qed.

(** The first-pairing waiter of a peer gets the result of the handshake. *)
Lemma notify_first_ok used c c' id p p' ch r :
  waiters_ok used c → peers c !! id = Some p → firstPairWaiter p = Some ch →
  peers c' = <[id := p']> (peers c) → firstPairWaiter p' = None → pairWaiters c' = pairWaiters c →
  results c' = <[ch := default [] (results c !! ch) ++ [r]]> (results c) → waiters_ok used c'.
Proof.
  intros Hok Ep Hp Ep' Hp' Ew Er.
  assert (first_of c id = Some ch) as Hch by (unfold first_of; by rewrite Ep).
  apply (notify_ok used c c' ch r); [done|right; eauto|..|done].
  - unfold waiter_of. rewrite Ew. intros k x Hx. split; [done|]. intros ->. by apply (wo_apart _ _ Hok k id ch).
  - intros i x. unfold first_of at 1. rewrite Ep'. destruct (decide (i = id)) as [->|].
    + rewrite lookup_insert_eq. cbn. by rewrite Hp'.
    + rewrite lookup_insert_ne by done. intros Hx. split; [done|]. intros ->.
      by apply n, (wo_ids _ _ Hok i id ch).
Qed.

(** *** The handlers *)

Lemma pair_code_results used f c : waiters_ok used c → waiters_ok used (handlePairCode f c).
Proof.
  intros Hok. unfold handlePairCode, takePairWaiter.
  destruct (pairWaiters c !! "__request__") as [w|] eqn:Ew; [|done].
  assert (waiter_of c "__request__" = Some (pw_ch w)) as Hw by (unfold waiter_of; by rewrite Ew).
  eapply (notify_ok used c _ (pw_ch w)); [done|left; eauto|..|reflexivity].
  - intros k x Hx. unfold waiter_of in Hx. cbn in Hx.
    apply fmap_Some in Hx as (w' & [Hk Ek]%lookup_delete_Some & ->).
    assert (waiter_of c k = Some (pw_ch w')) as Hx by (unfold waiter_of; by rewrite Ek).
    split; [done|]. intros Heq. rewrite Heq in Hx. by apply Hk, (wo_keys _ _ Hok _ _ _ Hw).
  - intros i x Hx. split; [done|]. intros ->. by apply (wo_apart _ _ Hok "__request__" i (pw_ch w)).
Qed.

Lemma notified_results r (l : list (string * pairWaiter)) c :
  let chans := (λ kw, pw_ch kw.2) <$> l in
  NoDup chans → (∀ x, x ∈ chans → results c !! x = None) →
  ∀ x, results (foldr (λ kw c, notify (pw_ch kw.2) r c) c l) !! x =
       if decide (x ∈ chans) then Some [r] else results c !! x.
Proof.
  intros chans. unfold chans. clear chans.
  induction l as [|w l IH]; intros Hn He x; [done|]. rewrite fmap_cons in *.
  apply NoDup_cons in Hn as [Hw Hn]. rewrite foldr_cons.
  assert (∀ x, x ∈ (λ kw, pw_ch kw.2) <$> l → results c !! x = None) as He'
    by (intros y Hy; apply He; by right).
  specialize (IH Hn He'). set (c1 := foldr _ c l) in *. clearbody c1. unfold notify. cbn [results with_results].
  rewrite (IH (pw_ch w.2)), decide_False by done.
  rewrite (He (pw_ch w.2)) by (by left). cbn [default from_option app].
  destruct (decide (x = pw_ch w.2)) as [->|Hx].
  - rewrite lookup_insert_eq, decide_True; [done|by left].
  - rewrite lookup_insert_ne, (IH x) by done. destruct (decide (x ∈ _)) as [Hi|Hi].
    + rewrite decide_True; [done|by right].
    + rewrite decide_False; [done|]. by intros [?|?]%elem_of_cons.
Qed.

Lemma notified_peers r (l : list (string * pairWaiter)) c :
  peers (foldr (λ kw c, notify (pw_ch kw.2) r c) c l) = peers c.
Proof. by induction l. Qed.

Lemma error_results used f c : waiters_ok used c → waiters_ok used (handleError f c).
Proof.
  intros [K I A E U O]. unfold handleError. set (r := failed_result _). set (l := map_to_list (pairWaiters c)).
  assert (∀ x, x ∈ (λ kw, pw_ch kw.2) <$> l → ∃ k, waiter_of c k = Some x) as Hl.
  { intros x ([k w] & -> & Hk)%list_elem_of_fmap. exists k. unfold waiter_of.
    apply elem_of_map_to_list in Hk. by rewrite Hk. }
  assert (NoDup ((λ kw, pw_ch kw.2) <$> l)) as Hn.
  { apply NoDup_fmap_2_strong; [|apply NoDup_map_to_list].
    intros [k1 w1] [k2 w2] H1%elem_of_map_to_list H2%elem_of_map_to_list Heq. cbn in Heq.
    assert (k1 = k2) as <-; [|congruence]. apply (K _ _ (pw_ch w1)); unfold waiter_of.
    - by rewrite H1.
    - by rewrite H2, Heq. }
  pose proof (notified_results r l c Hn) as Hr. cbn in Hr.
  assert (∀ x, x ∈ (λ kw, pw_ch kw.2) <$> l → results c !! x = None) as Hnone.
  { intros x [k Hk]%Hl. apply E. left. eauto. }
  specialize (Hr Hnone). set (c1 := foldr _ c l) in *.
  assert (peers c1 = peers c) as Ep by apply notified_peers. clearbody c1.
  assert (∀ k, waiter_of (with_waiters ∅ c1) k = None) as Hw.
  { intros k. unfold waiter_of. cbn. by rewrite lookup_empty. }
  assert (∀ i, first_of (with_waiters ∅ c1) i = first_of c i) as Hf.
  { intros i. unfold first_of. cbn. by rewrite Ep. }
  split; try setoid_rewrite Hw; try setoid_rewrite Hf; try done.
  - intros x [[k Hk]|[i Hi]]; [by rewrite Hw in Hk|]. rewrite Hf in Hi. cbn [results with_waiters].
    rewrite Hr. case_decide as Hx; [|apply E; right; eauto].
    exfalso. apply Hl in Hx as [k Hk]. by apply (A k i x).
  - intros x [[[k Hk]|[i Hi]]|Hx]; [by rewrite Hw in Hk|rewrite Hf in Hi; apply U; left; right; eauto|].
    cbn [results with_waiters] in Hx. rewrite Hr in Hx. case_decide as Hi; [|eauto].
    apply U. left. left. by apply Hl.
  - intros x q. cbn [results with_waiters]. rewrite Hr. case_decide; [by intros [= <-]|]. eauto.
Qed.

Lemma pair_complete_results used i f c :
  waiters_ok used c → waiters_ok used (handlePairComplete i f c).
Proof.
  intros Hok. unfold handlePairComplete, takePairWaiter.
  destruct (pairWaiters c !! cm_Code f) as [w|] eqn:Ew; [|done].
  set (id := cm_PeerID f). set (p := setFirstPairWaiter _ _). set (c1 := setPeerConn id p _).
  assert (waiters_ok used c1) as H1.
  { eapply (move_ok used c c1 (cm_Code f) id p (pw_ch w)); try done. unfold waiter_of. by rewrite Ew. }
  assert (peers c1 !! id = Some p) as Hp by (unfold c1, setPeerConn; cbn; apply lookup_insert_eq).
  destruct (weAreAcceptor w); [|done]. unfold startAsInitiator.
  destruct (newInitiatorSession _ _) as [e|[s m]]; cbn [takeFirstPairWaiter firstPairWaiter p].
  - eapply (notify_first_ok used c1 _ id p (clearFirstPairWaiter p) (pw_ch w)); done.
  - apply (calm_ok used c1); [|done].
    eapply (calm_peer c1 _ id p); [done|reflexivity|by left|done..].
Qed.

Lemma peer_status_calm i f c : calm c (handlePeerStatus i f c).
Proof.
  unfold handlePeerStatus, startRekeyAsInitiator. cbv zeta.
  destruct (default false (cm_Online f)); [|by apply calm_same].
  destruct (getPeerConn _ _) as [p|] eqn:Ep; [|by apply calm_same].
  destruct (string_ge _ _); [by apply calm_same|].
  destruct (newInitiatorSession _ _) as [e|[s m]]; [by apply calm_same|].
  eapply (calm_peer c _ (cm_PeerID f) p); [exact Ep|reflexivity|by left|done..].
Qed.

Lemma drive_calm r wp d c : calm c (drive r wp d c).2.
Proof. unfold drive. repeat case_match; simplify_eq/=; by apply calm_same. Qed.

Lemma envelope_calm i id p d c : peers c !! id = Some p → calm c (peer_handleHandshakeEnvelope i id p d c).2.
Proof.
  intros Ep. unfold peer_handleHandshakeEnvelope. destruct (choose _ _ _); [apply drive_calm|..|apply calm_refl].
  - destruct (newResponderSession _ _); [apply calm_refl|]. eapply calm_trans; [|apply drive_calm].
    eapply (calm_peer c _ id p); [done|reflexivity|by left|done..].
  - cbv zeta. destruct (newResponderSession _ _).
    + eapply (calm_peer c _ id p); [done|reflexivity|by left|done..].
    + eapply calm_trans; [|apply drive_calm].
      eapply (calm_peer c _ id p); [done|reflexivity|by left|done..].
Qed.

Lemma judge_same i p r err c : let c1 := (judge i p r err c).2 in
  pairWaiters c1 = pairWaiters c ∧ peers c1 = peers c ∧ results c1 = results c.
Proof. unfold judge, verifyAndPin, session_of. repeat case_match; simplify_eq/=; done. Qed.

Lemma resolve_results used i id p r wp err c :
  peers c !! id = Some p → waiters_ok used c → waiters_ok used (resolveHandshake i id p r wp err c).
Proof.
  intros Ep Hok. unfold resolveHandshake. destruct (judge_same i p r err c) as (J1 & J2 & J3).
  destruct (judge i p r err c) as [v c1]. cbn [snd] in *.
  assert (calm c c1) as Hc by (by apply calm_same). apply (calm_ok _ _ _ Hc) in Hok. rewrite <- J2 in Ep.
  assert (∀ res p', firstPairWaiter p' = firstPairWaiter p →
    waiters_ok used (let '(w, c2) := takeFirstPairWaiter id p' c1 in
      let c2 := match w with Some ch => notify ch res c2 | None => c2 end in
      match v with inr _ => fire (OnReady (pc_id p')) c2 | inl _ => c2 end)) as Hfin.
  { intros res p' Hp'. unfold takeFirstPairWaiter. rewrite Hp'.
    destruct (firstPairWaiter p) as [ch|] eqn:Ew.
    - eapply (notify_first_ok used c1 _ id p (clearFirstPairWaiter p') ch); [done..| | | |]; by destruct v.
    - apply (calm_ok used c1); [|done].
      eapply (calm_peer c1 _ id p (clearFirstPairWaiter p')); [done| |by right|..]; by destruct v. }
  assert (∀ p', firstPairWaiter p' = firstPairWaiter p → waiters_ok used (setPeerConn id p' c1)) as Hset.
  { intros p' Hp'. apply (calm_ok used c1); [|done].
    eapply (calm_peer c1 _ id p); [done|reflexivity|by left|done..]. }
  assert (firstPairWaiter (abandon r p) = firstPairWaiter p) as Ha by (unfold abandon; by case_decide).
  assert (firstPairWaiter (promote r p) = firstPairWaiter p) as Hp by (unfold promote; by case_decide).
  destruct wp; [|by apply Hfin]. destruct v; [by apply Hset|by apply Hfin].
Qed.

Lemma handshake_results used i d c :
  waiters_ok used c → waiters_ok used (handleHandshakeEnvelope i d c).
Proof.
  intros Hok. unfold handleHandshakeEnvelope. destruct (getSolePeer _ _) as [[id p]|] eqn:Es; [|done].
  pose proof (envelope_calm i id p d c (sole_peer _ _ _ _ Es)) as Hc.
  destruct (peer_handleHandshakeEnvelope i id p d c) as [[[[reply completed] wp] err] c1]. cbn [snd] in Hc.
  apply (calm_ok _ _ _ Hc) in Hok.
  set (c2 := match reply with Some m => _ | None => _ end).
  assert (waiters_ok used c2) as H2.
  { destruct reply; [|done]. apply (calm_ok used c1); [|done]. by apply calm_same. }
  destruct completed as [r|]; [|done]. destruct (getPeerConn id c2) as [p2|] eqn:Ep; [|done].
  by apply resolve_results.
Qed.

Lemma welcome_calm ps c : calm c (applyWelcomePeers ps c).
Proof.
  revert c. induction ps as [|w ps IH]; intros c; cbn [applyWelcomePeers]; [apply calm_refl|].
  eapply calm_trans; [|apply IH]. destruct (getPeerConn (pi_ID w) c) eqn:Ep; [apply calm_refl|].
  unfold calm, first_of. cbn [peers with_peers setPeerConn]. split_and!; [done| |done].
  intros i ch. unfold setPeerConn. cbn. destruct (decide (i = pi_ID w)) as [->|].
  - by rewrite lookup_insert_eq.
  - by rewrite lookup_insert_ne.
Qed.

Lemma dial_calm first wrote c : calm c (dial first wrote c).2.
Proof.
  unfold dial. destruct first as [[[] data]|]; try apply calm_refl.
  destruct (Unmarshal data) as [m|]; [|apply calm_refl]. do 3 (case_decide; [apply calm_refl|]).
  destruct wrote; apply welcome_calm.
Qed.

Lemma readLoop_results used i k data c :
  waiters_ok used c → waiters_ok used (readLoop_frame i k data c).
Proof.
  intros Hok. unfold readLoop_frame. destruct k.
  - destruct (Unmarshal data) as [f|]; [|done]. unfold dispatch.
    case_decide; [by apply pair_code_results|]. case_decide; [by apply pair_complete_results|].
    case_decide; [by apply (calm_ok _ _ _ (peer_status_calm i f c))|].
    case_decide; [by apply error_results|done].
  - destruct (decodeEnvelope data) as [[kind d]|]; [|done].
    case_decide; [by apply handshake_results|]. case_decide; [|done].
    apply (calm_ok used c); [|done]. unfold handleTransportEnvelope, recv, session_of.
    repeat case_match; simplify_eq/=; by apply calm_same.
Qed.

(** ** Every run *)

(** The channels the calls make, in order. *)
Definition made (e : event) : list chan :=
  match e with ERequest ch | EAnswer ch _ | EAccept ch _ => [ch] | _ => [] end.

Lemma handle_results used e c :
  waiters_ok used c → NoDup (made e) → (∀ ch, ch ∈ made e → ch ∉ used) →
  waiters_ok (made e ++ used) (handle c e).
Proof.
  intros Hok _ Hnew. destruct e as [i k data|first wrote|id payload|ch|ch result|ch code|key]; cbn [made app handle] in *.
  - by apply readLoop_results.
  - by apply (calm_ok _ _ _ (dial_calm first wrote c)).
  - apply (calm_ok used c); [|done]. unfold Send, getPeerConn, peer_send, session_of.
    repeat (case_match; simplify_eq/=); by apply calm_same.
  - eapply (add_ok used c); [done| |done..]. apply Hnew. by left.
  - unfold RequestPairCode_answer. destruct (pr_Error result).
    + apply (ok_used used); [|done]. set_solver.
    + eapply (add_ok used c); [done| |done..]. apply Hnew. by left.
  - eapply (add_ok used c); [done| |done..]. apply Hnew. by left.
  - apply (calm_ok used c); [|done]. unfold calm, waiter_of, first_of. cbn. split_and!; try done.
    intros k x (w & [Hk Ek]%lookup_delete_Some & ->)%fmap_Some. by rewrite Ek.
Qed.

Lemma handle_all_results es used c :
  waiters_ok used c → NoDup (mbind made es) → (∀ ch, ch ∈ mbind made es → ch ∉ used) →
  ∃ used', waiters_ok used' (foldl handle c es).
Proof.
  revert used c. induction es as [|e es IH]; intros used c Hok Hn Hnew; [by exists used|].
  rewrite bind_cons in Hn, Hnew. apply NoDup_app in Hn as (Hn1 & Hd & Hn2).
  apply (IH (made e ++ used)); [|done|].
  - apply handle_results; [done..|]. intros ch Hch. apply Hnew, elem_of_app. by left.
  - intros ch Hch. rewrite elem_of_app. intros [Hx|Hx]; [by apply (Hd ch)|].
    by apply (Hnew ch); [apply elem_of_app; right|].
Qed.

(** C13: No result channel gets a second result.  Whatever frames the relay sends, however the
    user's pairing calls overlap, are repeated with the same code or given up, and however
    often the connection is made again: a channel a call has made gets at most one result.
    Its buffer of one is always enough, so the handlers, which send from the read loop
    and in one case while holding [pairWaitersMu], never block on the user. *)
Theorem results_once id priv ps es ch l :
  NoDup (mbind made es) →
  results (foldl handle (new_client id priv ps) es) !! ch = Some l → length l ≤ 1.
Proof.
  intros Hn. destruct (handle_all_results es [] (new_client id priv ps)) as [used [_ _ _ _ _ Hone]].
  - split; unfold awaited, waiter_of, first_of; cbn; intros *; rewrite ?lookup_empty; try done.
    + intros [[[k Hk]|[i Hi]]|Hx].
      * by rewrite lookup_empty in Hk.
      * by rewrite lookup_empty in Hi.
      * by destruct Hx.
  - done.
  - intros x _. by apply not_elem_of_nil.
  - apply Hone.
Qed.
End results.

Import ToyNoise.

(** Two calls wait for a partner when the relay reports an error. *)
Definition ex_waits : list event := [
  ERequest 0;
  ERead ex_input TextMessage (Marshal (ControlMessage msgTypePairCode 0 "" [] "" "123456" 300 "" "" None ""));
  EAnswer 1 (MkPairResult "123456" 300 "" "" None);
  EAccept 2 "654321";
  ERead ex_input TextMessage (Marshal (ControlMessage msgTypeError 0 "" [] "" "invalid_code" 0 "" "" None "no"));
  ERead ex_input TextMessage (Marshal (ControlMessage msgTypeError 0 "" [] "" "invalid_code" 0 "" "" None "no"))
].

Lemma results_once_witness :
  NoDup (mbind made ex_waits) ∧
  ∃ l, results (foldl handle (new_client "a" ex_key ex_store) ex_waits) !! 2 = Some l ∧ length l ≤ 1.
Proof.
  assert (NoDup (mbind made ex_waits)) as Hn by (apply (bool_decide_unpack _); vm_compute; exact I).
  split; [exact Hn|].
  destruct (results (foldl handle (new_client "a" ex_key ex_store) ex_waits) !! 2) as [l|] eqn:E;
    [|vm_compute in E; discriminate E].
  exists l. split; [reflexivity|]. exact (results_once "a" ex_key ex_store ex_waits 2 l Hn E).
Defined.
