(* ===== verification/Shim.v ===== *)
(** * The Go shim (src/interop/clients/go/main.go)

    The process the interoperability harness drives: it reads commands from its standard
    input, one JSON object a line, calls the SDK, and prints events.  Each command runs
    in a goroutine of its own, beside the main goroutine, the one that prints messages and
    the client's loops, which call [OnReady] and [OnPeerStatus].  Here they take turns at
    the client of [Sdk]; a call waits on its channel of [results].  The other end of both
    pipes is [Harness]. *)

From S2P Require Import Prelude Keys Json AnyJson SendQueue Wire Noise PeerStore PeerFile Harness Scenarios Sdk SdkFacts SdkPair SdkRace SdkLoops.

Definition maxCommand : Z := 1024 * 1024.

(** ** Events *)

Definition connect_error_event (text : string) : anymap :=
  anymap_of [("event", JStr "connect_error"); ("message", JStr text)].
Definition ready_event : anymap := anymap_of [("event", JStr "ready")].
Definition message_event (m : Message) : anymap :=
  anymap_of [("event", JStr "message"); ("from", JStr (From m)); ("payload_b64", JStr (encodeBase64 (Payload m)))].
Definition callback_event (cb : callback) : anymap :=
  match cb with
  | OnReady peerID => anymap_of [("event", JStr "ready_signal"); ("peer_id", JStr peerID)]
  | OnPeerStatus peerID online =>
      anymap_of [("event", JStr "peer_status"); ("peer_id", JStr peerID); ("online", JBool online)]
  end.
Definition pair_code_event (code : string) (expiresIn : Z) : anymap :=
  anymap_of [("event", JStr "pair_code"); ("code", JStr code); ("expires_in", JNum (int_lit (int64 expiresIn)))].
Definition paired_event (p : Peer) : anymap :=
  anymap_of [("event", JStr "paired"); ("peer_id", JStr (Peer_ID p));
             ("peer_public_key_b64", JStr (encodeBase64 (Peer_PublicKey p)))].
Definition pair_error_event (text : string) : anymap :=
  anymap_of [("event", JStr "pair_error"); ("message", JStr text)].
Definition sent_event : anymap := anymap_of [("event", JStr "sent")].
Definition send_error_event (text : string) : anymap :=
  anymap_of [("event", JStr "send_error"); ("message", JStr text)].

(** ** Goroutines *)

(** What the goroutine of a command has still to do; [TEmit] prints an event, and goes on
    to [code.Wait] if there is a channel. *)
Inductive task :=
  | TRequest
  | TCode (ch : chan)
  | TWait (ch : chan)
  | TAccept (code : string)
  | TAccepting (ch : chan) (code : string)
  | TSend (peerID payloadB64 : string)
  | TSending (ciphertext : bytes)
  | TEmit (v : anymap) (next : option chan).

(** The main goroutine: before it prints [ready], in its loop, after it, after the deferred [Close], gone. *)
Inductive mpc := MStart | MScan | MReturn | MClosed | MExited.

Inductive kind := Pairing | Sending.

#[global] Instance kind_eq_dec : EqDecision kind.
Proof. solve_decision. Defined.

Section shim.
Context `{NoiseLib}.

(** The texts of errors. *)
Context (Error : sdkerr → string) (connError : connerr → string) (base64Error : string → string).

Record shim := Shim {
  sh_client : Client;
  sh_done : bool;                 (* [client.Close] has been called *)
  sh_next : chan;                 (* channels are numbered as they are made *)
  sh_main : mpc;
  sh_stdin : list bytes;          (* lines written and not yet read *)
  sh_eof : bool;
  sh_tasks : list task;
  sh_taken : option Message;      (* received from [Messages()], not yet printed *)
  sh_stdout : list bytes;
  (* for the statements: what has been asked for, and the messages received *)
  sh_asked : list kind;
  sh_received : list Message
}.

Definition sh_set_client c s := Shim c (sh_done s) (sh_next s) (sh_main s) (sh_stdin s) (sh_eof s)
  (sh_tasks s) (sh_taken s) (sh_stdout s) (sh_asked s) (sh_received s).
Definition sh_set_main m done s := Shim (sh_client s) done (sh_next s) m (sh_stdin s) (sh_eof s)
  (sh_tasks s) (sh_taken s) (sh_stdout s) (sh_asked s) (sh_received s).
Definition sh_set_stdin l eof s := Shim (sh_client s) (sh_done s) (sh_next s) (sh_main s) l eof
  (sh_tasks s) (sh_taken s) (sh_stdout s) (sh_asked s) (sh_received s).
Definition sh_set_tasks l s := Shim (sh_client s) (sh_done s) (sh_next s) (sh_main s) (sh_stdin s) (sh_eof s)
  l (sh_taken s) (sh_stdout s) (sh_asked s) (sh_received s).
Definition sh_set_next n s := Shim (sh_client s) (sh_done s) n (sh_main s) (sh_stdin s) (sh_eof s)
  (sh_tasks s) (sh_taken s) (sh_stdout s) (sh_asked s) (sh_received s).
Definition sh_set_taken m got s := Shim (sh_client s) (sh_done s) (sh_next s) (sh_main s) (sh_stdin s) (sh_eof s)
  (sh_tasks s) m (sh_stdout s) (sh_asked s) got.

Definition emit (v : anymap) (s : shim) : shim :=
  Shim (sh_client s) (sh_done s) (sh_next s) (sh_main s) (sh_stdin s) (sh_eof s)
    (sh_tasks s) (sh_taken s) (sh_stdout s ++ [MarshalMap v]) (sh_asked s) (sh_received s).

(** [go func() { ... }()]. *)
Definition spawn (k : kind) (t : task) (s : shim) : shim :=
  Shim (sh_client s) (sh_done s) (sh_next s) (sh_main s) (sh_stdin s) (sh_eof s)
    (sh_tasks s ++ [t]) (sh_taken s) (sh_stdout s) (sh_asked s ++ [k]) (sh_received s).

(** *** Commands *)

Definition handleCommand (c : anymap) (s : shim) : shim :=
  if is_str "cmd" "request_pair_code" c then spawn Pairing TRequest s
  else if is_str "cmd" "accept_pair" c then spawn Pairing (TAccept (get_str "code" c)) s
  else if is_str "cmd" "send" c then
    spawn Sending (TSend (get_str "peer_id" c) (get_str "payload_b64" c)) s
  else if is_str "cmd" "close" c then sh_set_main (sh_main s) true s
  else s.

(** A turn of [main]'s loop with the line read. *)
Definition main_line (line : bytes) (s : shim) : shim :=
  if decide (Z.of_nat (slen line) < maxCommand)%Z then
    match UnmarshalMap line with
    | None => s
    | Some c =>
        let s := handleCommand c s in
        if is_str "cmd" "close" c then sh_set_main MReturn (sh_done s) s else s
    end
  else sh_set_main MReturn (sh_done s) s.

Definition main_turn (s : shim) : option shim :=
  match sh_main s with
  | MStart => Some (emit ready_event (sh_set_main MScan (sh_done s) s))
  | MScan =>
      match sh_stdin s with
      | line :: rest => Some (main_line line (sh_set_stdin rest (sh_eof s) s))
      | [] => if sh_eof s then Some (sh_set_main MReturn (sh_done s) s) else None
      end
  | MReturn => Some (sh_set_main MClosed true s)
  | MClosed => Some (sh_set_main MExited true s)
  | MExited => None
  end.

(** *** A command's goroutine *)

Definition closed_text : string := "relayly: client is closed".
Definition wait_closed_text : string := "relayly: client closed before pairing completed".

Definition has_room (c : Client) : bool := bool_decide (length (sends c) < sendsCapacity).

(** [<-ch]. *)
Definition take_result (ch : chan) (c : Client) : option (PairResult * Client) :=
  match results c !! ch with
  | Some (r :: rs) => Some (r, with_results (<[ch := rs]> (results c)) c)
  | _ => None
  end.

Definition paired_or_error (r : PairResult) : anymap :=
  match Wait r with
  | inl e => pair_error_event (Error e)
  | inr p => paired_event p
  end.

(** A turn up to the next wait or print; [closing] takes the [done] case of a [select], [new] is the next
    channel made. *)
Definition task_turn (done closing : bool) (new : chan) (t : task) (c : Client) : option (task * Client) :=
  match t with
  | TRequest =>
      if closing then
        if done then Some (TEmit (pair_error_event closed_text) None,
                           removePairWaiter "__request__"
                             (with_waiters (<["__request__" := PairWaiter new false]> (pairWaiters c)) c))
        else None
      else if has_room c then Some (TCode new, RequestPairCode_begin new c) else None
  | TCode ch =>
      if closing then
        if done then Some (TEmit (pair_error_event closed_text) None, removePairWaiter "__request__" c) else None
      else
        '(r, c) ← take_result ch c;
        match RequestPairCode_answer new r c with
        | (inl e, c) => Some (TEmit (pair_error_event (Error e)) None, c)
        | (inr code, c) => Some (TEmit (pair_code_event code (pr_ExpiresIn r)) (Some new), c)
        end
  | TWait ch =>
      if closing then
        if done then Some (TEmit (pair_error_event wait_closed_text) None, c) else None
      else
        '(r, c) ← take_result ch c;
        Some (TEmit (paired_or_error r) None, c)
  | TAccept code =>
      if closing then
        if done then Some (TEmit (pair_error_event closed_text) None,
                           removePairWaiter code
                             (with_waiters (<[code := PairWaiter new true]> (pairWaiters c)) c))
        else None
      else if has_room c then Some (TAccepting new code, AcceptPair_begin new code c) else None
  | TAccepting ch code =>
      if closing then
        if done then Some (TEmit (pair_error_event closed_text) None, removePairWaiter code c) else None
      else
        '(r, c) ← take_result ch c;
        Some (TEmit (paired_or_error r) None, c)
  | TSend peerID payloadB64 =>
      match decodeBase64 payloadB64 with
      | None => Some (TEmit (send_error_event (base64Error payloadB64)) None, c)
      | Some payload =>
          match Send_seal peerID payload c with
          | (inl e, c) => Some (TEmit (send_error_event (Error e)) None, c)
          | (inr ciphertext, c) => Some (TSending ciphertext, c)
          end
      end
  | TSending ciphertext =>
      if closing then if done then Some (TEmit (send_error_event closed_text) None, c) else None
      else if has_room c then Some (TEmit sent_event None, Send_queue ciphertext c) else None
  | TEmit _ _ => None
  end.

(** *** All of them *)

Inductive action :=
  | AType (line : bytes)                      (* the harness writes a line *)
  | AHangUp                                   (* ... and closes the pipe *)
  | AMain
  | ATask (i : nat) (closing : bool)
  | ARange                                    (* the goroutine over [Messages()] *)
  | ACallback                                 (* the read loop, in [OnReady] or [OnPeerStatus] *)
  | ARead (i : input) (k : msgKind) (data : bytes)
  | ADial (first : option (msgKind * bytes)) (wrote : bool)
  | AWriteLoop (wrote : bool)
  | APing.

(** The read loop calls the callbacks itself: nothing is read while one is running. *)
Definition calling (s : shim) : bool := bool_decide (callbacks (sh_client s) ≠ []).

Definition emit_turn (i : nat) (v : anymap) (next : option chan) (s : shim) : shim :=
  emit v (sh_set_tasks (match next with
                        | Some ch => <[i := TWait ch]> (sh_tasks s)
                        | None => delete i (sh_tasks s)
                        end) s).

Definition turn (a : action) (s : shim) : option shim :=
  match a with
  | AType line => if sh_eof s then None else Some (sh_set_stdin (sh_stdin s ++ [line]) false s)
  | AHangUp => Some (sh_set_stdin (sh_stdin s) true s)
  | AMain => main_turn s
  | ATask i closing =>
      t ← sh_tasks s !! i;
      match t with
      | TEmit v next => Some (emit_turn i v next s)
      | _ =>
          '(t, c) ← task_turn (sh_done s) closing (sh_next s) t (sh_client s);
          Some (sh_set_next (S (sh_next s)) (sh_set_tasks (<[i := t]> (sh_tasks s)) (sh_set_client c s)))
      end
  | ARange =>
      match sh_taken s with
      | Some m => Some (emit (message_event m) (sh_set_taken None (sh_received s) s))
      | None =>
          match messages (sh_client s) with
          | m :: ms => Some (sh_set_taken (Some m) (sh_received s ++ [m]) (sh_set_client (with_messages ms (sh_client s)) s))
          | [] => None
          end
      end
  | ACallback =>
      match callbacks (sh_client s) with
      | cb :: cbs => Some (emit (callback_event cb) (sh_set_client (with_callbacks cbs (sh_client s)) s))
      | [] => None
      end
  | ARead i k data =>
      if calling s then None else Some (sh_set_client (readLoop_frame i k data (sh_client s)) s)
  | ADial first wrote =>
      if calling s then None else Some (sh_set_client (dial first wrote (sh_client s)).2 s)
  | AWriteLoop wrote =>
      '(_, _, c) ← writeLoop_turn wrote (sh_client s);
      Some (sh_set_client c s)
  | APing =>
      if has_room (sh_client s) then Some (sh_set_client (pingLoop_tick (sh_client s)) s) else None
  end.

(** The process ends when [main] does. *)
Definition shim_turn (a : action) (s : shim) : option shim :=
  match sh_main s with MExited => None | _ => turn a s end.

Fixpoint shim_run (acts : list action) (s : shim) : option shim :=
  match acts with
  | [] => Some s
  | a :: acts => s ← shim_turn a s; shim_run acts s
  end.

(** *** Starting *)

Definition options (deviceID deviceToken peerStorePath : string) (key : PrivateKey) : Options :=
  let opts := MkOptions deviceID deviceToken key "" 0 0 0 in
  if decide (peerStorePath ≠ "") then MkOptions deviceID deviceToken key peerStorePath 0 0 0 else opts.

(** [main] up to its loop: what it prints and its exit status, or the running process.
    [key] is the result of [GenerateKey], an error as its text; [scheme], [files], [first] and [wrote] are as for
    [Connect]. *)
Definition main_start (deviceID deviceToken peerStorePath : string) (key : string + PrivateKey)
    (scheme : option string) (files : string → option (option (gmap string pinnedPeer)))
    (first : option (msgKind * bytes)) (wrote : bool) : list bytes * Z + shim :=
  match key with
  | inl text => inl ([MarshalMap (connect_error_event text)], 1%Z)
  | inr key =>
      match Connect (options deviceID deviceToken peerStorePath key) scheme files first wrote with
      | inl e => inl ([MarshalMap (connect_error_event (connError e))], 1%Z)
      | inr (_, c, _) => inr (Shim c false 0 MStart [] false [] None [] [] [])
      end
  end.

(** ** Properties *)

(** The event that ends a command of a kind. *)
Definition answers (k : kind) (e : Event) : bool :=
  match k with
  | Pairing => event_is "paired" e || event_is "pair_error" e
  | Sending => event_is "sent" e || event_is "send_error" e
  end.

Definition task_kind (t : task) : kind :=
  match t with
  | TSend _ _ | TSending _ => Sending
  | TEmit v None => if answers Sending v then Sending else Pairing
  | _ => Pairing
  end.

Definition of_kind_b (k : kind) (k' : kind) : bool := bool_decide (k' = k).

(** What the harness reads. *)
Definition printed (s : shim) : list Event := omap UnmarshalMap (sh_stdout s).

Definition message_of (e : Event) : option (string * bytes) :=
  if event_is "message" e then payload ← decodeB64 (Str e "payload_b64"); Some (Str e "from", payload) else None.

(** *** Events survive the pipe *)

Definition speakable (v : anymap) : Prop := sorted_map v ∧ Forall loose v ∧ valid_utf8 (Type_ v).

Lemma loose_str k x : valid_utf8 k → loose (k, JStr x).
Proof. done. Qed.

Ltac speak :=
  split_and!; [by repeat constructor|repeat (apply Forall_cons; split);
    try (split; [cbn [fst]; valid_text|try exact I]); try constructor|cbn; valid_text].

Lemma callback_speakable cb : speakable (callback_event cb).
Proof. destruct cb; speak. Qed.
Lemma message_speakable m : speakable (message_event m).
Proof. speak. Qed.
Lemma ready_speakable : speakable ready_event.
Proof. speak. Qed.
Lemma pair_error_speakable text : speakable (pair_error_event text).
Proof. speak. Qed.
Lemma send_error_speakable text : speakable (send_error_event text).
Proof. speak. Qed.
Lemma sent_speakable : speakable sent_event.
Proof. speak. Qed.
Lemma paired_speakable p : speakable (paired_event p).
Proof. speak. Qed.
Lemma pair_code_speakable code n : speakable (pair_code_event code n).
Proof.
  speak. cbn [snd]. exists (int64 n). split; [done|]. apply int64_range.
Qed.

Lemma heard_as v : speakable v → UnmarshalMap (MarshalMap v) = Some (prod_map id reread <$> v).
Proof. intros (Hs & Hl & _). by apply map_reread. Qed.

Lemma type_reread v : valid_utf8 (Type_ v) → Type_ (prod_map id reread <$> v) = Type_ v.
Proof. intros Hv. unfold Type_. rewrite get_str_reread. by apply sanitize_valid. Qed.

Lemma answers_reread k v : speakable v → answers k (prod_map id reread <$> v) = answers k v.
Proof. intros (_ & _ & Hv). unfold answers, event_is. by rewrite type_reread. Qed.

(** *** The ledger *)

Definition task_ok (t : task) : Prop :=
  match t with
  | TEmit v next =>
      speakable v ∧ event_is "message" v = false ∧
      ∀ k, answers k v = match next with Some _ => false | None => of_kind_b k (task_kind t) end
  | _ => True
  end.

(** [evs] have been printed, among them the messages [ms]. *)
Record ledger (s : shim) (evs : list anymap) (ms : list Message) : Prop := {
  lg_tasks : Forall task_ok (sh_tasks s);
  lg_out : sh_stdout s = MarshalMap <$> evs;
  lg_events : Forall speakable evs;
  lg_count k : cnt (of_kind_b k) (sh_asked s) =
    cnt (λ t, of_kind_b k (task_kind t)) (sh_tasks s) + cnt (answers k) evs;
  lg_messages : filter (λ e, event_is "message" e) evs = message_event <$> ms;
  lg_received : sh_received s = ms ++ option_list (sh_taken s)
}.

Lemma cnt_app {A} (P : A → bool) l1 l2 : cnt P (l1 ++ l2) = cnt P l1 + cnt P l2.
Proof. unfold cnt. apply sum_list_with_app. Qed.

#[local] Arguments cnt : simpl never.

Lemma cnt_one {A} (P : A → bool) x : cnt P [x] = Nat.b2n (P x).
Proof. unfold cnt. cbn. lia. Qed.

Lemma cnt_delete {A} (P : A → bool) l i x : l !! i = Some x → cnt P (delete i l) + Nat.b2n (P x) = cnt P l.
Proof.
  unfold cnt. revert i. induction l as [|y l IH]; intros [|i] Hi; simplify_eq/=; [lia|].
  specialize (IH i Hi). lia.
Qed.

Lemma pair_error_ok text : task_ok (TEmit (pair_error_event text) None).
Proof. split_and!; [apply pair_error_speakable|done|by intros []]. Qed.
Lemma send_error_ok text : task_ok (TEmit (send_error_event text) None).
Proof. split_and!; [apply send_error_speakable|done|by intros []]. Qed.
Lemma sent_ok : task_ok (TEmit sent_event None).
Proof. split_and!; [apply sent_speakable|done|by intros []]. Qed.
Lemma pair_code_ok code n ch : task_ok (TEmit (pair_code_event code n) (Some ch)).
Proof. split_and!; [apply pair_code_speakable|done|by intros []]. Qed.
Lemma paired_or_error_ok r :
  task_ok (TEmit (paired_or_error r) None) ∧ task_kind (TEmit (paired_or_error r) None) = Pairing.
Proof.
  unfold paired_or_error. destruct (Wait r) as [e|p]; (split; [|done]); [apply pair_error_ok|].
  split_and!; [apply paired_speakable|done|by intros []].
Qed.

(** A turn of a goroutine leaves it a goroutine of the same kind. *)
Lemma task_turn_ok done closing new t c t' c' :
  task_turn done closing new t c = Some (t', c') → task_ok t' ∧ task_kind t' = task_kind t.
Proof.
  destruct t; cbn [task_turn]; intros Ht;
    repeat (match type of Ht with
            | context [if ?b then _ else _] => destruct b
            | context [take_result ?ch ?c] => destruct (take_result ch c) as [[r c1]|]; cbn [mbind option_bind] in Ht
            | context [match RequestPairCode_answer ?n ?r ?c with _ => _ end] => destruct (RequestPairCode_answer n r c) as [[e|code'] c2]
            | context [match decodeBase64 ?x with _ => _ end] => destruct (decodeBase64 x)
            | context [match Send_seal ?a ?b ?c with _ => _ end] => destruct (Send_seal a b c) as [[e|x] c2]
            end); try discriminate Ht; injection Ht as <- <-;
    first [ by split; [apply pair_error_ok|] | by split; [apply send_error_ok|] | by split; [apply sent_ok|]
          | by split; [apply pair_code_ok|] | apply paired_or_error_ok | done ].
Qed.

Lemma ledger_same s s' evs ms :
  sh_tasks s' = sh_tasks s → sh_stdout s' = sh_stdout s → sh_asked s' = sh_asked s →
  sh_received s' = sh_received s → sh_taken s' = sh_taken s → ledger s evs ms → ledger s' evs ms.
Proof. intros E1 E2 E3 E4 E5 []. split; rewrite ?E1, ?E2, ?E3, ?E4, ?E5; done. Qed.

Lemma ledger_spawn k t s evs ms :
  task_ok t → task_kind t = k → ledger s evs ms → ledger (spawn k t s) evs ms.
Proof.
  intros Ht <- [L1 L2 L3 L4 L5 L6]. split; cbn; try done.
  - by apply Forall_app_2; [|constructor].
  - intros k. rewrite !cnt_app, L4, !cnt_one. lia.
Qed.

Lemma ledger_task i t t' s evs ms :
  sh_tasks s !! i = Some t → task_ok t' → task_kind t' = task_kind t → ledger s evs ms →
  ledger (sh_set_tasks (<[i := t']> (sh_tasks s)) s) evs ms.
Proof.
  intros Hi Ht Ek [L1 L2 L3 L4 L5 L6]. split; cbn; try done.
  - by apply Forall_insert.
  - intros k. rewrite L4. pose proof (cnt_insert (λ t, of_kind_b k (task_kind t)) _ _ _ t' Hi) as E.
    cbn beta in E. rewrite Ek in E. lia.
Qed.

(** An event that answers nothing, and is no message, is printed. *)
Lemma ledger_emit v s evs ms :
  speakable v → event_is "message" v = false → (∀ k, answers k v = false) → ledger s evs ms →
  ledger (emit v s) (evs ++ [v]) ms.
Proof.
  intros Hv Hm Hk [L1 L2 L3 L4 L5 L6]. split; cbn; try done.
  - by rewrite L2, fmap_app.
  - by apply Forall_app_2; [|constructor].
  - intros k. rewrite L4, cnt_app, cnt_one, Hk. cbn. lia.
  - rewrite filter_app, L5, filter_cons_False by (rewrite Hm; by intros []). by rewrite filter_nil, app_nil_r.
Qed.

Lemma ledger_answer i v next s evs ms :
  sh_tasks s !! i = Some (TEmit v next) → ledger s evs ms →
  ledger (emit_turn i v next s) (evs ++ [v]) ms.
Proof.
  intros Hi L. pose proof (lg_tasks _ _ _ L) as Hok. rewrite Forall_lookup in Hok.
  destruct (Hok _ _ Hi) as (Hv & Hm & Hk). unfold emit_turn. destruct next as [ch|].
  { apply ledger_emit; [done..|]. by apply (ledger_task i _ _ _ _ _ Hi). }
  destruct L as [L1 L2 L3 L4 L5 L6]. split; cbn; try done.
  - apply Forall_delete, L1.
  - by rewrite L2, fmap_app.
  - by apply Forall_app_2; [|constructor].
  - intros k. rewrite L4, cnt_app, cnt_one. pose proof (cnt_delete (λ t, of_kind_b k (task_kind t)) _ _ _ Hi) as E.
    cbn beta in E. rewrite <- Hk in E. lia.
  - rewrite filter_app, L5, filter_cons_False by (rewrite Hm; by intros []). by rewrite filter_nil, app_nil_r.
Qed.

Lemma ledger_message m s evs ms :
  sh_taken s = Some m → ledger s evs ms →
  ledger (emit (message_event m) (sh_set_taken None (sh_received s) s)) (evs ++ [message_event m]) (ms ++ [m]).
Proof.
  intros Hm [L1 L2 L3 L4 L5 L6]. split; cbn [sh_tasks sh_stdout sh_asked sh_received sh_taken emit sh_set_taken]; try done.
  - by rewrite L2, fmap_app.
  - apply Forall_app_2; [done|]. constructor; [apply message_speakable|constructor].
  - intros k. rewrite L4, cnt_app, cnt_one. assert (answers k (message_event m) = false) as -> by by destruct k.
    cbn. lia.
  - by rewrite filter_app, L5, fmap_app, filter_cons_True.
  - rewrite L6, Hm. cbn. by rewrite app_nil_r.
Qed.

Lemma ledger_take m c s evs ms :
  sh_taken s = None → ledger s evs ms →
  ledger (sh_set_taken (Some m) (sh_received s ++ [m]) (sh_set_client c s)) evs ms.
Proof. intros Hm [L1 L2 L3 L4 L5 L6]. split; try done. cbn. by rewrite L6, Hm, app_nil_r. Qed.

Lemma ledger_command c s evs ms : ledger s evs ms → ledger (handleCommand c s) evs ms.
Proof.
  intros L. unfold handleCommand. repeat (case_match; [by apply ledger_spawn|]).
  case_match; [by apply (ledger_same s)|done].
Qed.

Lemma ledger_main s s' evs ms :
  main_turn s = Some s' → ledger s evs ms → ∃ evs', ledger s' evs' ms.
Proof.
  unfold main_turn. intros Ht L. destruct (sh_main s); [| |injection Ht as <-..|done].
  - injection Ht as <-. exists (evs ++ [ready_event]).
    apply ledger_emit; [apply ready_speakable|done|by intros []|by apply (ledger_same s)].
  - destruct (sh_stdin s) as [|line rest].
    { destruct (sh_eof s); [|done]. injection Ht as <-. exists evs. by apply (ledger_same s). }
    injection Ht as <-. exists evs. unfold main_line.
    assert (ledger (sh_set_stdin rest (sh_eof s) s) evs ms) as L' by by apply (ledger_same s).
    case_decide; [|by (eapply ledger_same; [..|exact L'])].
    destruct (UnmarshalMap line) as [c|]; [|done]. cbv zeta. apply (ledger_command c) in L'.
    destruct (is_str "cmd" "close" c); [|done]. by (eapply ledger_same; [..|exact L']).
  - exists evs. by apply (ledger_same s).
  - exists evs. by apply (ledger_same s).
Qed.

Lemma ledger_turn a s s' evs ms :
  shim_turn a s = Some s' → ledger s evs ms → ∃ evs' ms', ledger s' evs' ms'.
Proof.
  intros Ht L. assert (turn a s = Some s') as Ht' by (unfold shim_turn in Ht; by destruct (sh_main s)). clear Ht.
  assert (∀ c, ledger (sh_set_client c s) evs ms) as Lc by (intros c; by apply (ledger_same s)).
  destruct a as [line| | |i closing| | |i k data|first wrote|wrote|]; cbn [turn] in Ht'.
  - destruct (sh_eof s); [done|]. injection Ht' as <-. exists evs, ms. by apply (ledger_same s).
  - injection Ht' as <-. exists evs, ms. by apply (ledger_same s).
  - destruct (ledger_main _ _ _ _ Ht' L) as [evs' L']. by exists evs', ms.
  - destruct (sh_tasks s !! i) as [t|] eqn:Ei; cbn [mbind option_bind] in Ht'; [|done].
    assert (∀ r, ('(t, c) ← r;
              Some (sh_set_next (S (sh_next s)) (sh_set_tasks (<[i := t]> (sh_tasks s)) (sh_set_client c s)))) = Some s' →
            (∀ t' c', r = Some (t', c') → task_ok t' ∧ task_kind t' = task_kind t) → ∃ evs' ms', ledger s' evs' ms') as Hr.
    { intros [[t' c']|] E Hok; cbn [mbind option_bind] in E; [|done]. injection E as <-.
      destruct (Hok _ _ eq_refl) as [Hok1 Hk]. exists evs, ms.
      pose proof (ledger_task i t t' (sh_set_client c' s) _ _ Ei Hok1 Hk (Lc c')) as L'.
      by (eapply ledger_same; [..|exact L']). }
    destruct t; try (apply (Hr _ Ht'); intros t' c'; apply task_turn_ok).
    injection Ht' as <-. exists (evs ++ [v]), ms. by apply ledger_answer.
  - destruct (sh_taken s) as [m|] eqn:Em.
    + injection Ht' as <-. exists (evs ++ [message_event m]), (ms ++ [m]). by apply ledger_message.
    + destruct (messages (sh_client s)); [done|]. injection Ht' as <-. exists evs, ms. by apply ledger_take.
  - destruct (callbacks (sh_client s)) as [|cb cbs]; [done|]. injection Ht' as <-.
    exists (evs ++ [callback_event cb]), ms. apply ledger_emit; [apply callback_speakable|by destruct cb|by intros []; destruct cb|done].
  - destruct (calling s); [done|]. injection Ht' as <-. eauto.
  - destruct (calling s); [done|]. injection Ht' as <-. eauto.
  - destruct (writeLoop_turn wrote (sh_client s)) as [[[f w] c]|]; cbn [mbind option_bind] in Ht'; [|done].
    injection Ht' as <-. eauto.
  - destruct (has_room _); [|done]. injection Ht' as <-. eauto.
Qed.

Lemma ledger_run acts s s' evs ms :
  shim_run acts s = Some s' → ledger s evs ms → ∃ evs' ms', ledger s' evs' ms'.
Proof.
  revert s evs ms. induction acts as [|a acts IH]; intros s evs ms Hr L; cbn [shim_run] in Hr.
  { injection Hr as <-. eauto. }
  apply bind_Some in Hr as (s1 & H1 & H2). destruct (ledger_turn _ _ _ _ _ H1 L) as (? & ? & L1). eauto.
Qed.

(** *** What has been asked for *)

Definition command_kind (c : anymap) : option kind :=
  if is_str "cmd" "request_pair_code" c || is_str "cmd" "accept_pair" c then Some Pairing
  else if is_str "cmd" "send" c then Some Sending else None.

Definition asked_by (line : bytes) : option kind :=
  if decide (Z.of_nat (slen line) < maxCommand)%Z then UnmarshalMap line ≫= command_kind else None.

Definition typed (acts : list action) : list bytes :=
  omap (λ a, match a with AType line => Some line | _ => None end) acts.

Lemma asked_command c s :
  sh_asked (handleCommand c s) = sh_asked s ++ option_list (command_kind c) ∧ sh_stdin (handleCommand c s) = sh_stdin s.
Proof.
  unfold handleCommand, command_kind. do 3 (case_match; [done|]; cbn [orb]).
  case_match; cbn; by rewrite app_nil_r.
Qed.

Lemma asked_line line s :
  sh_asked (main_line line s) = sh_asked s ++ option_list (asked_by line) ∧ sh_stdin (main_line line s) = sh_stdin s.
Proof.
  unfold main_line, asked_by. case_decide; [|by cbn; rewrite app_nil_r].
  destruct (UnmarshalMap line) as [c|]; cbn; [|by rewrite app_nil_r].
  destruct (asked_command c s) as [E1 E2]. by case_match.
Qed.

Lemma asked_turn a s s' :
  shim_turn a s = Some s' →
  ∃ read, sh_stdin s ++ typed [a] = read ++ sh_stdin s' ∧ sh_asked s' = sh_asked s ++ omap asked_by read.
Proof.
  intros Ht. assert (turn a s = Some s') as Ht' by (unfold shim_turn in Ht; by destruct (sh_main s)). clear Ht.
  assert (sh_stdin s' = sh_stdin s ++ typed [a] ∧ sh_asked s' = sh_asked s →
    ∃ read, sh_stdin s ++ typed [a] = read ++ sh_stdin s' ∧ sh_asked s' = sh_asked s ++ omap asked_by read) as Hno.
  { intros [-> ->]. exists []. by rewrite app_nil_r. }
  assert (typed [a] = match a with AType line => [line] | _ => [] end) as Et by by destruct a.
  destruct a as [line| | |i closing| | |i k data|first wrote|wrote|]; cbn [turn] in Ht';
    rewrite Et in *; rewrite ?app_nil_r in *.
  - apply Hno. destruct (sh_eof s); [done|]. by injection Ht' as <-.
  - apply Hno. by injection Ht' as <-.
  - unfold main_turn in Ht'. destruct (sh_main s); [| |injection Ht' as <-; by apply Hno..|done].
    { injection Ht' as <-. by apply Hno. }
    destruct (sh_stdin s) as [|line rest] eqn:Es.
    { apply Hno. destruct (sh_eof s); [|done]. injection Ht' as <-. by cbn. }
    injection Ht' as <-. destruct (asked_line line (sh_set_stdin rest (sh_eof s) s)) as [E1 E2].
    exists [line]. rewrite E1, E2. split; [done|]. cbn. by destruct (asked_by line).
  - apply Hno. apply bind_Some in Ht' as (t & _ & Ht').
    destruct t; try (apply bind_Some in Ht' as ([t' c'] & _ & Ht')); by injection Ht' as <-.
  - apply Hno. repeat case_match; by simplify_eq.
  - apply Hno. repeat case_match; by simplify_eq.
  - apply Hno. repeat case_match; by simplify_eq.
  - apply Hno. repeat case_match; by simplify_eq.
  - apply Hno. apply bind_Some in Ht' as ([[f w] c] & _ & Ht'). by injection Ht' as <-.
  - apply Hno. repeat case_match; by simplify_eq.
Qed.

Lemma asked_run acts s s' :
  shim_run acts s = Some s' →
  ∃ read, sh_stdin s ++ typed acts = read ++ sh_stdin s' ∧ sh_asked s' = sh_asked s ++ omap asked_by read.
Proof.
  revert s. induction acts as [|a acts IH]; intros s Hr; cbn [shim_run] in Hr.
  { injection Hr as <-. exists []. by rewrite !app_nil_r. }
  apply bind_Some in Hr as (s1 & H1 & H2). destruct (asked_turn _ _ _ H1) as (r1 & E1 & E2).
  destruct (IH _ H2) as (r2 & E3 & E4). exists (r1 ++ r2). split.
  - unfold typed in *. rewrite (omap_app _ [a] acts), (app_assoc (sh_stdin s)), E1, <- !app_assoc. by rewrite E3.
  - by rewrite E4, E2, omap_app, app_assoc.
Qed.

(** *** What the harness hears *)

Lemma printed_reread evs :
  Forall speakable evs → omap UnmarshalMap (MarshalMap <$> evs) = (λ v, prod_map id reread <$> v) <$> evs.
Proof.
  induction 1 as [|v evs Hv _ IH]; [done|]. rewrite !fmap_cons. cbn [omap list_omap]. by rewrite heard_as, IH.
Qed.

Lemma cnt_fmap {A B} (P : B → bool) (f : A → B) l : cnt P (f <$> l) = cnt (λ x, P (f x)) l.
Proof. unfold cnt. induction l as [|x l IH]; [done|]. rewrite fmap_cons. cbn. by rewrite IH. Qed.

Lemma cnt_ext {A} (P Q : A → bool) l : Forall (λ x, P x = Q x) l → cnt P l = cnt Q l.
Proof. unfold cnt. induction 1 as [|x l Hx _ IH]; [done|]. cbn. by rewrite Hx, IH. Qed.

Lemma message_heard m :
  message_of (prod_map id reread <$> message_event m) = Some (sanitize (From m), Payload m).
Proof.
  unfold message_of, event_is, Str. rewrite type_reread by apply message_speakable.
  rewrite !get_str_reread. change (get_str "payload_b64" (message_event m)) with (encodeBase64 (Payload m)).
  change (get_str "from" (message_event m)) with (From m).
  rewrite (sanitize_valid (encodeBase64 _)) by apply encodeBase64_valid. unfold decodeB64. rewrite decode_encode_Base64. done.
Qed.

Lemma messages_heard evs ms :
  Forall speakable evs → filter (λ e, event_is "message" e) evs = message_event <$> ms →
  omap message_of ((λ v, prod_map id reread <$> v) <$> evs) = (λ m, (sanitize (From m), Payload m)) <$> ms.
Proof.
  intros Hs. revert ms. induction Hs as [|v evs Hv _ IH]; intros ms Hf.
  { destruct ms; [done|]. by rewrite fmap_cons in Hf. }
  rewrite fmap_cons. cbn [omap list_omap]. destruct (event_is "message" v) eqn:E.
  - rewrite filter_cons_True in Hf by by rewrite E. destruct ms as [|m ms]; [done|]. rewrite fmap_cons in Hf.
    injection Hf as -> Hf. rewrite message_heard, fmap_cons. by rewrite (IH ms).
  - rewrite filter_cons_False in Hf by (rewrite E; by intros []).
    assert (message_of (prod_map id reread <$> v) = None) as ->; [|by apply IH].
    unfold message_of, event_is in *. rewrite type_reread by apply Hv. by rewrite E.
Qed.

(** C30: The shim answers every command once and reports every message once.  Whatever lines
    are typed, whatever the relay sends and however the goroutines take turns: every line
    printed is an event; of the commands of a kind read so far, each is either in
    progress or has got exactly one final event (paired or pair_error, sent or
    send_error), and there are no others; and the messages printed are those received from
    the SDK, each once, in order, with the same bytes, but for one that may be about to be printed. *)
Theorem shim_answers_once deviceID token path key scheme files first wrote s0 acts s :
  main_start deviceID token path key scheme files first wrote = inr s0 → shim_run acts s0 = Some s →
  length (printed s) = length (sh_stdout s) ∧
  (∃ read, typed acts = read ++ sh_stdin s ∧ ∀ k,
     cnt (of_kind_b k) (omap asked_by read) =
       cnt (λ t, of_kind_b k (task_kind t)) (sh_tasks s) + cnt (answers k) (printed s)) ∧
  (λ m, (sanitize (From m), Payload m)) <$> sh_received s =
    omap message_of (printed s) ++ option_list ((λ m, (sanitize (From m), Payload m)) <$> sh_taken s).
Proof.
  intros Hs0 Hr.
  assert (ledger s0 [] [] ∧ sh_stdin s0 = [] ∧ sh_asked s0 = []) as (L0 & E0 & A0).
  { unfold main_start in Hs0. repeat case_match; simplify_eq. done. }
  destruct (ledger_run _ _ _ _ _ Hr L0) as (evs & ms & [L1 L2 L3 L4 L5 L6]).
  destruct (asked_run _ _ _ Hr) as (read & E1 & E2). rewrite E0 in E1. rewrite A0 in E2. cbn [app] in E1, E2.
  unfold printed. rewrite L2, printed_reread by done. split_and!.
  - by rewrite !length_fmap.
  - exists read. split; [done|]. intros k. rewrite <- E2, L4, cnt_fmap. f_equal. apply cnt_ext.
    eapply Forall_impl; [exact L3|]. intros v Hv. symmetry. by apply answers_reread.
  - rewrite (messages_heard _ ms), L6, fmap_app by done. by destruct (sh_taken s).
Qed.

(** *** What the harness asks for *)

Lemma command_arrives c s :
  let m := anymap_of c in
  sorted_map m → Forall plain m → (Z.of_nat (slen (MarshalMap m)) < maxCommand)%Z →
  main_line (MarshalMap m) s =
    if is_str "cmd" "close" m then sh_set_main MReturn (sh_done (handleCommand m s)) (handleCommand m s)
    else handleCommand m s.
Proof.
  intros m Hs Hp Hl. unfold main_line. rewrite decide_True by done. by rewrite map_round_trip.
Qed.

Lemma plain_entry k x : valid_utf8 k → valid_utf8 x → plain (k, JStr x).
Proof. done. Qed.

Lemma cmd_valid : valid_utf8 "cmd" ∧ valid_utf8 "code" ∧ valid_utf8 "peer_id" ∧ valid_utf8 "payload_b64".
Proof. split_and!; valid_text. Qed.

(** The harness's commands reach the SDK.  The line the harness writes for a command is read by the shim as that command: [request_pair_code] starts a request, [accept_pair] an acceptance
    of the same code, [send] a call of [Send] for the same peer and the same payload, for payloads up to the largest
    message of the protocol (64 KiB), and [close] closes the client and ends the loop. *)
Theorem commands_arrive code peerID payload s :
  valid_utf8 code → (Z.of_nat (slen code) ≤ 65536)%Z → valid_utf8 peerID → (Z.of_nat (slen peerID) ≤ 65536)%Z →
  (Z.of_nat (slen payload) ≤ maxMessageBytes)%Z →
  main_line (MarshalMap (anymap_of [("cmd", JStr "request_pair_code")])) s = spawn Pairing TRequest s ∧
  main_line (MarshalMap (anymap_of [("cmd", JStr "accept_pair"); ("code", JStr code)])) s =
    spawn Pairing (TAccept code) s ∧
  main_line (MarshalMap (anymap_of [("cmd", JStr "send"); ("peer_id", JStr peerID);
                                    ("payload_b64", JStr (b64 payload))])) s =
    spawn Sending (TSend peerID (b64 payload)) s ∧
  (∀ done closing new c, task_turn done closing new (TSend peerID (b64 payload)) c =
     Some (match Send_seal peerID payload c with
           | (inl e, c) => (TEmit (send_error_event (Error e)) None, c)
           | (inr ciphertext, c) => (TSending ciphertext, c)
           end)) ∧
  main_line (MarshalMap (anymap_of [("cmd", JStr "close")])) s = sh_set_main MReturn true s.
Proof.
  intros Hc Lc Hp Lp Lm. unfold maxMessageBytes in Lm.
  assert (Z.of_nat (slen (b64 payload)) ≤ 87385)%Z as Hb.
  { pose proof (encode64_length (chars payload)) as [_ He]. unfold b64, encodeBase64.
    rewrite <- slen_chars, chars_of_chars. rewrite slen_chars in He. lia. }
  destruct cmd_valid as (V1 & V2 & V3 & V4). split_and!.
  - rewrite command_arrives; [done|by repeat constructor| |done].
    apply Forall_singleton, plain_entry; [done|valid_text].
  - set (m := [("cmd", JStr "accept_pair"); ("code", JStr code)]).
    assert (Forall plain m) as Hm.
    { apply Forall_cons; split; [apply plain_entry; [done|valid_text]|]. by apply Forall_singleton, plain_entry. }
    rewrite command_arrives; [done|by repeat constructor|done|]. change (anymap_of m) with m.
    pose proof (MarshalMap_length m Hm) as Hl. unfold m in Hl at 2.
    rewrite !fmap_cons, fmap_nil in Hl. cbn [fst snd sum_list] in Hl.
    change (slen "cmd") with 3%nat in Hl. change (slen "code") with 4%nat in Hl.
    change (slen "accept_pair") with 11%nat in Hl. unfold maxCommand, id in *.
    generalize dependent (slen (MarshalMap m)). intros n Hl. lia.
  - set (m := [("cmd", JStr "send"); ("payload_b64", JStr (b64 payload)); ("peer_id", JStr peerID)]).
    assert (Forall plain m) as Hm.
    { apply Forall_cons; split; [apply plain_entry; [done|valid_text]|].
      apply Forall_cons; split; [apply plain_entry; [done|apply encodeBase64_valid]|]. by apply Forall_singleton, plain_entry. }
    rewrite command_arrives; [done|by repeat constructor|done|]. change (anymap_of _) with m.
    pose proof (MarshalMap_length m Hm) as Hl. unfold m in Hl at 2.
    rewrite !fmap_cons, fmap_nil in Hl. cbn [fst snd sum_list] in Hl.
    change (slen "cmd") with 3%nat in Hl. change (slen "payload_b64") with 11%nat in Hl.
    change (slen "peer_id") with 7%nat in Hl. change (slen "send") with 4%nat in Hl. unfold maxCommand, id in *.
    generalize dependent (slen (MarshalMap m)). intros n Hl. lia.
  - intros done closing new c. cbn [task_turn]. rewrite (decode_encode_Base64 payload : decodeBase64 (b64 payload) = _).
    by destruct (Send_seal peerID payload c) as [[e|x] c'].
  - rewrite command_arrives; [done|by repeat constructor| |done].
    apply Forall_singleton, plain_entry; [done|valid_text].
Qed.
End shim.

Import ToyNoise.

Definition ex_error (e : sdkerr) : string := "error".
Definition ex_connError (e : connerr) : string := "error".
Definition ex_base64Error (s : string) : string := "illegal base64 data".

Definition ex_welcome : bytes := Marshal (ControlMessage msgTypeWelcome 1 "" [] "" "" 0 "" "" None "").

Local Abbreviation ex_main :=
  (main_start ex_connError "alice" "token" "" (inr ex_key) (Some "ws") (λ _, Some None)
    (Some (TextMessage, ex_welcome)) true).

(** A request and a message to a peer there is none of; the request is in progress. *)
Definition ex_acts : list action := [
  AMain;
  AType (MarshalMap (anymap_of [("cmd", JStr "request_pair_code")]));
  AType (MarshalMap (anymap_of [("cmd", JStr "send"); ("peer_id", JStr "bob"); ("payload_b64", JStr "aGk=")]));
  AMain; AMain; ATask 0 false; ATask 1 false; ATask 1 false
].

Lemma ex_runs :
  match ex_main with
  | inr s0 => match shim_run ex_error ex_base64Error ex_acts s0 with
              | Some s => bool_decide (length (sh_stdout s) = 2 ∧ length (sh_tasks s) = 1)
              | None => false
              end
  | inl _ => false
  end = true.
Proof. vm_compute. reflexivity. Qed.

Lemma shim_answers_once_witness :
  match ex_main with
  | inr s0 => match shim_run ex_error ex_base64Error ex_acts s0 with
              | Some s => length (printed s) = length (sh_stdout s)
              | None => False
              end
  | inl _ => False
  end.
Proof.
  pose proof ex_runs as Hx. destruct ex_main as [|s0] eqn:E0; [discriminate Hx|].
  destruct (shim_run ex_error ex_base64Error ex_acts s0) as [s|] eqn:E; [|discriminate Hx].
  exact (proj1 (shim_answers_once ex_error ex_connError ex_base64Error "alice" "token" "" (inr ex_key) (Some "ws")
    (λ _, Some None) (Some (TextMessage, ex_welcome)) true s0 ex_acts s E0 E)).
Defined.

Lemma commands_arrive_witness :
  let s := Shim (new_client "alice" ex_key ex_store) false 0 MScan [] false [] None [] [] [] in
  main_line (MarshalMap (anymap_of [("cmd", JStr "send"); ("peer_id", JStr "bob");
                                    ("payload_b64", JStr (b64 "hi"))])) s =
    spawn Sending (TSend "bob" (b64 "hi")) s.
Proof.
  intros s. assert (valid_utf8 "123456") as V1 by valid_text. assert (valid_utf8 "bob") as V2 by valid_text.
  exact (proj1 (proj2 (proj2 (commands_arrive ex_error ex_base64Error "123456" "bob" "hi" s
    V1 ltac:(done) V2 ltac:(done) ltac:(done))))).
Defined.
