(* ===== verification/Http.v ===== *)
(** * HTTP plumbing the servers use

    The parts of [net/http] the relay's servers are built from: routing by
    [http.ServeMux] (method, literal segments, one-segment wildcards, trailing slashes,
    path cleaning and redirects), the headers of a response, and [http.Error].  Paths are
    taken in decoded form.  A response carries a typed body [B]; encoding it is the
    library's work. *)

From S2P Require Import Prelude Keys.

(** ** Patterns *)

Inductive seg := Lit (s : string) | Wild | Rest.

Record pattern (H : Type) := Pattern {
  p_method : string;             (* [""] is any method *)
  p_segs : list seg;
  p_handler : H
}.
Arguments Pattern {_}.
Arguments p_method {_}.
Arguments p_segs {_}.
Arguments p_handler {_}.

Definition method_le (a b : string) : Prop := String.leb a b = true.
#[export] Instance method_le_dec a b : Decision (method_le a b).
Proof. unfold method_le. apply _. Defined.

Section mux.
Context {H : Type}.
Implicit Types rs : list (list seg * pattern H).

(** The patterns that go on with a literal, with a wildcard, or end in a slash. *)
Definition lits (s : string) rs : list (list seg * pattern H) :=
  omap (λ r, match r.1 with
             | Lit t :: ps => if decide (s = t) then Some (ps, r.2) else None
             | _ => None
             end) rs.

Definition wilds rs : list (list seg * pattern H) :=
  omap (λ r, match r.1 with Wild :: ps => Some (ps, r.2) | _ => None end) rs.

Definition rests rs : option (pattern H) :=
  head (omap (λ r, match r.1 with Rest :: _ => Some r.2 | _ => None end) rs).

Definition leaf rs : option (pattern H) :=
  head (omap (λ r, match r.1 with [] => Some r.2 | _ => None end) rs).

(** [routingNode.matchPath]: literals first, then a wildcard, then a trailing slash. *)
Fixpoint matchPath rs (path : list string) : option (pattern H * list string) :=
  match path with
  | [] => (λ p, (p, [])) <$> leaf rs
  | s :: path =>
      match matchPath (lits s rs) path with
      | Some m => Some m
      | None =>
          match (if decide (s = "") then None else matchPath (wilds rs) path) with
          | Some (p, caps) => Some (p, s :: caps)
          | None => (λ p, (p, [])) <$> rests rs
          end
      end
  end.

(** The segments of a path that starts with a slash. *)
Definition segments_of (path : string) : list string :=
  of_chars <$> split_slash (tail (chars path)).

Definition of_method (m : string) (routes : list (pattern H)) : list (list seg * pattern H) :=
  (λ p, (p_segs p, p)) <$> filter (λ p, p_method p = m) routes.

(** [matchMethodAndPath]. *)
Definition matchRoute (routes : list (pattern H)) (method path : string)
    : option (pattern H * list string) :=
  let ss := segments_of path in
  match matchPath (of_method method routes) ss with
  | Some m => Some m
  | None =>
      match (if decide (method = "HEAD") then matchPath (of_method "GET" routes) ss else None) with
      | Some m => Some m
      | None => matchPath (of_method "" routes) ss
      end
  end.

Definition ends_in_slash (path : string) : bool :=
  bool_decide (last (chars path) = Some slash).

Definition exactMatch (m : option (pattern H * list string)) (path : string) : bool :=
  match m with
  | None => false
  | Some (p, _) =>
      match last (p_segs p) with
      | Some Rest =>
          ends_in_slash path && bool_decide (length (p_segs p) = length (segments_of path))
      | _ => true
      end
  end.

Definition cleanPath (path : string) : string :=
  let p := match chars path with
           | [] => [slash]
           | c :: l => if decide (c = slash) then c :: l else slash :: c :: l
           end in
  let np := Clean p in
  of_chars (if bool_decide (last p = Some slash) && bool_decide (np ≠ [slash])
            then np ++ [slash] else np).

Inductive routed :=
  | Found (h : H) (captures : list string)
  | Moved (location : string)
  | NotAllowed (methods : list string)
  | NotFound.

(** The methods under which the path, or the path with a slash, has a handler: sorted,
    and with [HEAD] if [GET] is one. *)
Definition matchingMethods (routes : list (pattern H)) (path : string) : list string :=
  let has m p := is_Some (matchPath (of_method m routes) (segments_of p)) in
  let ms := filter (λ m, has m path ∨ ends_in_slash path = false ∧ has m (path +:+ "/"))
              (remove_dups (p_method <$> filter (λ p, p_method p ≠ "") routes)) in
  let ms := if decide ("GET" ∈ ms ∧ "HEAD" ∉ ms) then "HEAD" :: ms else ms in
  merge_sort method_le ms.

(** [ServeMux.findHandler] for methods other than [CONNECT]. *)
Definition findHandler (routes : list (pattern H)) (method url : string) : routed :=
  let path := cleanPath url in
  let m := matchRoute routes method path in
  let slashed := path +:+ "/" in
  if negb (exactMatch m path) && negb (ends_in_slash path) &&
     exactMatch (matchRoute routes method slashed) slashed
  then Moved slashed
  else if decide (path ≠ url) then Moved path
  else match m with
       | Some (p, caps) => Found (p_handler p) caps
       | None =>
           match matchingMethods routes path with
           | [] => NotFound
           | ms => NotAllowed ms
           end
       end.
End mux.
Arguments routed : clear implicits.

(** ** Responses *)

(** What [w.Header()] holds. *)
Abbreviation header := (gmap string string).

Record response (B : Type) := Response {
  code : Z;
  headers : header;
  content : B
}.
Arguments Response {_}.
Arguments code {_}.
Arguments headers {_}.
Arguments content {_}.

Definition Set_ (k v : string) (w : header) : header := <[k := v]> w.

(** [http.Error]. *)
Definition Error {B} (text : string → B) (w : header) (msg : string) (status : Z) : response B :=
  Response status
    (Set_ "X-Content-Type-Options" "nosniff" (Set_ "Content-Type" "text/plain; charset=utf-8" w))
    (text (msg +:+ String "010" EmptyString)).

(** What the mux itself answers. *)
Definition unrouted {B} (text : string → B) (w : header) (r : option (list string)) : response B :=
  match r with
  | None => Error text w "404 page not found" 404
  | Some ms => Error text (Set_ "Allow" (String.concat ", " ms) w) "Method Not Allowed" 405
  end.

Definition redirect {B} (empty : B) (w : header) (location : string) : response B :=
  Response 301 (Set_ "Location" location w) empty.

(** ** Properties of routing *)

Section facts.
Context {H : Type}.

(** A path matches a pattern segment by segment. *)
Fixpoint fits (ps : list seg) (path : list string) : Prop :=
  match ps, path with
  | [], [] => True
  | Lit t :: ps, s :: path => s = t ∧ fits ps path
  | Wild :: ps, s :: path => s ≠ "" ∧ fits ps path
  | Rest :: _, _ :: _ => True
  | _, _ => False
  end.

(** What is found is one of the patterns, and it fits. *)
Lemma matchPath_fits (rs : list (list seg * pattern H)) path p caps :
  matchPath rs path = Some (p, caps) → ∃ ps, (ps, p) ∈ rs ∧ fits ps path.
Proof.
  revert rs caps. induction path as [|s path IH]; intros rs caps; simpl.
  { unfold leaf. intros (q & Hq & [= -> ->])%fmap_Some.
    apply head_Some_elem_of, list_elem_of_omap in Hq as ([ps x] & Hin & Hx). simpl in Hx.
    destruct ps; simplify_eq. by exists []. }
  destruct (matchPath (lits s rs) path) as [m|] eqn:E1.
  { intros [= ->]. destruct (IH _ _ E1) as (ps & Hin & Hf).
    apply list_elem_of_omap in Hin as ([qs x] & Hin & Hx). simpl in Hx.
    destruct qs as [|[t| |] qs]; simplify_eq. case_decide; simplify_eq. by exists (Lit t :: ps). }
  assert ((λ p, (p, [])) <$> rests rs = Some (p, caps) → ∃ ps, (ps, p) ∈ rs ∧ fits ps (s :: path))
    as Hrest.
  { unfold rests. intros (q & Hq & [= -> ->])%fmap_Some.
    apply head_Some_elem_of, list_elem_of_omap in Hq as ([ps x] & Hin & Hx). simpl in Hx.
    destruct ps as [|[| |] ps]; simplify_eq. by exists (Rest :: ps). }
  case_decide as Hs; [done|].
  destruct (matchPath (wilds rs) path) as [[q cs]|] eqn:E2; [|done].
  intros [= -> <-]. destruct (IH _ _ E2) as (ps & Hin & Hf).
  apply list_elem_of_omap in Hin as ([qs x] & Hin & Hx). simpl in Hx.
  destruct qs as [|[| |] qs]; simplify_eq. by exists (Wild :: ps).
Qed.

(** If some pattern fits, something is found. *)
Lemma matchPath_complete (rs : list (list seg * pattern H)) path ps p :
  (ps, p) ∈ rs → fits ps path → is_Some (matchPath rs path).
Proof.
  revert rs ps. induction path as [|s path IH]; intros rs ps Hin Hf; simpl.
  { destruct ps as [|[| |] ps]; try done. unfold leaf.
    assert (p ∈ omap (λ r : list seg * pattern H, match r.1 with [] => Some r.2 | _ => None end) rs)
      as Hp by (apply list_elem_of_omap; by exists ([], p)).
    destruct (omap _ rs); [by apply not_elem_of_nil in Hp|]. by eexists. }
  destruct (matchPath (lits s rs) path) as [m|] eqn:E1; [by eexists|].
  destruct ps as [|[t| |] ps]; simpl in Hf; try done.
  - destruct Hf as [-> Hf]. destruct (IH (lits t rs) ps) as [x Hx]; [|done|congruence].
    apply list_elem_of_omap. exists (Lit t :: ps, p). simpl. by rewrite decide_True.
  - destruct Hf as [Hs Hf]. rewrite decide_False by done.
    destruct (IH (wilds rs) ps) as [[q cs] ->]; [|done|by eexists].
    apply list_elem_of_omap. by exists (Wild :: ps, p).
  - assert (is_Some (rests rs)) as [q ->].
    { unfold rests.
      assert (p ∈ omap (λ r : list seg * pattern H, match r.1 with Rest :: _ => Some r.2 | _ => None end)
        rs) as Hp by (apply list_elem_of_omap; by exists (Rest :: ps, p)).
      destruct (omap _ rs); [by apply not_elem_of_nil in Hp|]. by eexists. }
    simpl. destruct (if decide (s = "") then None else matchPath (wilds rs) path) as [[]|]; by eexists.
Qed.

(** The handler that is run belongs to a route whose method and path fit the request. *)
Lemma findHandler_found (routes : list (pattern H)) method url h caps :
  findHandler routes method url = Found h caps →
  ∃ p, p ∈ routes ∧ p_handler p = h ∧ fits (p_segs p) (segments_of url) ∧
    (p_method p = method ∨ p_method p = "GET" ∧ method = "HEAD" ∨ p_method p = "").
Proof.
  unfold findHandler. case_match; [done|]. case_decide as Hurl; [done|].
  assert (cleanPath url = url) as -> by (by destruct (decide (cleanPath url = url))).
  assert (∀ m q cs, matchPath (of_method m routes) (segments_of url) = Some (q, cs) →
    q ∈ routes ∧ p_method q = m ∧ fits (p_segs q) (segments_of url)) as Hm.
  { intros m q cs E. apply matchPath_fits in E as (ps & Hin & Hf). unfold of_method in Hin.
    apply list_elem_of_fmap in Hin as (q' & [= -> <-] & Hin).
    apply list_elem_of_filter in Hin as [Hq Hin]. done. }
  destruct (matchRoute routes method url) as [[p cs]|] eqn:Er; [|by destruct (matchingMethods _ _)].
  intros [= <- <-]. exists p. unfold matchRoute in Er.
  destruct (matchPath (of_method method routes) (segments_of url)) as [[q cs1]|] eqn:E1.
  { injection Er as -> ->. destruct (Hm _ _ _ E1) as (? & ? & ?). auto. }
  case_decide as Hh.
  - destruct (matchPath (of_method "GET" routes) (segments_of url)) as [[q cs2]|] eqn:E2.
    + injection Er as -> ->. destruct (Hm _ _ _ E2) as (? & ? & ?). auto 10.
    + destruct (Hm _ _ _ Er) as (? & ? & ?). auto 10.
  - destruct (Hm _ _ _ Er) as (? & ? & ?). auto 10.
Qed.

Lemma fits_lits ls path : fits (Lit <$> ls) path ↔ path = ls.
Proof.
  revert path. induction ls as [|l ls IH]; intros [|s path]; simpl; [done..|].
  rewrite IH. split; [intros [-> ->]; done|intros [= -> ->]; done].
Qed.
End facts.
