(* ===== verification/Config.v ===== *)
(** * Configuration (src/internal/config/config.go)

    Viper, which merges defaults, files, the environment and flags, is outside the
    repository: the values it read are an input of [Load], and they take precedence over
    the defaults, as Viper documents. *)

From S2P Require Import Prelude.

Record TLSConfig := MkTLS { tls_Enabled : bool; tls_Cert : string; tls_Key : string }.
Record DBConfig := MkDB { db_Path : string }.
Record AdminCfg := MkAdmin { admin_Enabled : bool; admin_Host : string; admin_Port : Z }.
Record LogCfg := MkLog { log_Level : string; log_Format : string }.
Record WSCfg := MkWS { MaxMessageBytes : Z; PingInterval : Z; Deadline : Z }.

Record Config := MkConfig {
  Host : string;
  Port : Z;
  TLS : TLSConfig;
  cfg_DB : DBConfig;
  Admin : AdminCfg;
  Log : LogCfg;
  WebSocket : WSCfg
}.

(** [fmt.Sprintf("%d", n)]. *)
Definition Sprintf_d (n : Z) : string := pretty n.

Definition Addr (c : Config) : string := Host c +:+ ":" +:+ Sprintf_d (Port c).
Definition AdminAddr (c : Config) : string :=
  admin_Host (Admin c) +:+ ":" +:+ Sprintf_d (admin_Port (Admin c)).

(** ** Defaults *)

Inductive value := VStr (s : string) | VInt (z : Z) | VBool (b : bool) | VDur (d : Z).

(** The calls of [v.SetDefault], in order. *)
Definition defaults : list (string * value) := [
  ("host", VStr "0.0.0.0");
  ("port", VInt 8080);
  ("tls.enabled", VBool false);
  ("db.path", VStr "./data/relayly.db");
  ("admin.enabled", VBool true);
  ("admin.host", VStr "127.0.0.1");
  ("admin.port", VInt 8081);
  ("log.level", VStr "info");
  ("log.format", VStr "json");
  ("websocket.max_message_bytes", VInt 65536);
  ("websocket.ping_interval", VDur (30 * Second));
  ("websocket.deadline", VDur (60 * Second))
].

Definition setDefaults (v : gmap string value) : gmap string value :=
  foldl (λ v kv, <[kv.1 := kv.2]> v) v defaults.

(** [v.Unmarshal] of a key-value view in which every value has its field's type. *)
Definition get_str (v : gmap string value) (k : string) : string :=
  match v !! k with Some (VStr s) => s | _ => "" end.
Definition get_int (v : gmap string value) (k : string) : Z :=
  match v !! k with Some (VInt z) | Some (VDur z) => z | _ => 0 end.
Definition get_bool (v : gmap string value) (k : string) : bool :=
  match v !! k with Some (VBool b) => b | _ => false end.

Definition decode (v : gmap string value) : Config :=
  MkConfig (get_str v "host") (get_int v "port")
    (MkTLS (get_bool v "tls.enabled") (get_str v "tls.cert") (get_str v "tls.key"))
    (MkDB (get_str v "db.path"))
    (MkAdmin (get_bool v "admin.enabled") (get_str v "admin.host") (get_int v "admin.port"))
    (MkLog (get_str v "log.level") (get_str v "log.format"))
    (MkWS (get_int v "websocket.max_message_bytes") (get_int v "websocket.ping_interval")
          (get_int v "websocket.deadline")).

(** ** Loading *)

Inductive cfgerr :=
  | ErrBindFlags | ErrReading | ErrParsing
  | ErrPort (p : Z) | ErrTLS | ErrDBPath.

Definition validate (c : Config) : option cfgerr :=
  if decide (Port c < 1 ∨ 65535 < Port c)%Z then Some (ErrPort (Port c))
  else if decide (tls_Enabled (TLS c) = true ∧ (tls_Cert (TLS c) = "" ∨ tls_Key (TLS c) = ""))
  then Some ErrTLS
  else if decide (db_Path (cfg_DB c) = "") then Some ErrDBPath
  else None.

(** What Viper did: whether the flags could be bound, how reading the main file went, and
    the values set by files, environment and flags (they override the defaults), or
    [None] if they cannot be decoded. *)
Inductive readres := ReadOk | ReadMissing | ReadFailed.

Definition Load (bound : bool) (main : readres) (overrides : option (gmap string value))
    : (cfgerr + Config) * option cfgerr :=
  if bound then
    match main with
    | ReadFailed => (inl ErrReading, Some ErrReading)
    | _ =>
        match overrides with
        | None => (inl ErrParsing, Some ErrParsing)
        | Some o => let cfg := decode (o ∪ setDefaults ∅) in (inr cfg, validate cfg)
        end
    end
  else (inl ErrBindFlags, Some ErrBindFlags).

(** ** Properties *)

Lemma validate_ok c :
  validate c = None ↔
  (1 ≤ Port c ≤ 65535)%Z ∧ (tls_Enabled (TLS c) = true → tls_Cert (TLS c) ≠ "" ∧ tls_Key (TLS c) ≠ "") ∧
  db_Path (cfg_DB c) ≠ "".
Proof.
  unfold validate. split.
  - repeat case_decide; intros; try done. split_and!; [lia|lia| |done].
    intros He. split; intros E; naive_solver.
  - intros (Hp & Ht & Hd). rewrite decide_False by lia. rewrite decide_False by naive_solver.
    by rewrite decide_False.
Qed.

(** Without any override the relay listens on every interface and the admin server on the
    loopback one only. *)
Lemma Load_defaults :
  ∃ c, Load true ReadMissing (Some ∅) = (inr c, None) ∧ Addr c = "0.0.0.0:8080" ∧
    AdminAddr c = "127.0.0.1:8081" ∧ PingInterval (WebSocket c) = (30 * Second)%Z.
Proof. eexists. split; [vm_compute; reflexivity|]. split_and!; vm_compute; reflexivity. Qed.

(** A configuration accepted by [Load] is valid, and carries every override of a port. *)
Lemma Load_valid b m o c :
  Load b m o = (inr c, None) →
  (1 ≤ Port c ≤ 65535)%Z ∧ db_Path (cfg_DB c) ≠ "" ∧
  ∀ v z, o = Some v → v !! "port" = Some (VInt z) → Port c = z.
Proof.
  unfold Load. destruct b; [|done].
  assert (∀ v : gmap string value, (@inr cfgerr _ (decode (v ∪ setDefaults ∅)),
    validate (decode (v ∪ setDefaults ∅))) = (inr c, None) → (1 ≤ Port c ≤ 65535)%Z ∧ db_Path (cfg_DB c) ≠ "" ∧
      ∀ z, v !! "port" = Some (VInt z) → Port c = z) as Hv.
  { intros v [= <- Hok]. apply validate_ok in Hok as (? & _ & ?). split_and!; [lia|lia|done|].
    intros z Hz. unfold decode, get_int. cbn [Port]. by rewrite (lookup_union_Some_l _ _ _ _ Hz). }
  destruct m, o as [v|]; try done; intros E; apply Hv in E as (? & ? & ?); naive_solver.
Qed.
