(* ===== verification/Api.v ===== *)
(** * The REST API (src/internal/api/handler.go, server.go) and the health endpoint of
      the relay (src/internal/relay/handler.go)

    A handler maps the headers set so far, the request and the store to a response and
    the store.  The clock, the random source and the UUID of a request are inputs. *)

From Stdlib Require Import SpecFloat.
From S2P Require Import Prelude Database Pairing Json Wire Relay RelayFacts Http.

(** [int64(d.Seconds())]: [Seconds] adds two [float64]s, the conversion truncates. *)
Definition float_of (z : Z) : spec_float := binary_normalize 53 1024 z 0 false.

Definition Seconds (d : Z) : spec_float :=
  SFadd 53 1024 (float_of (Z.quot d Second))
    (SFdiv 53 1024 (float_of (Z.rem d Second)) (float_of 1000000000)).

Definition truncate (f : spec_float) : Z :=
  match f with
  | S754_finite s m e =>
      let a := if decide (0 ≤ e)%Z then (Zpos m * 2 ^ e)%Z else (Zpos m / 2 ^ (- e))%Z in
      if s then (- a)%Z else a
  | _ => 0%Z
  end.

(** ** Data *)

Record server := MkServer { s_version : string; s_startAt : Z }.

(** What one request reads from its surroundings. *)
Record surroundings := Surroundings {
  x_now : Z;
  x_random : option bytes;
  x_uuid : string;
  x_connected : Z             (* [hub.ConnectedCount()] *)
}.

Record request := Request { Method : string; Path : string; Body : bytes }.

Record deviceResponse := DeviceResponse {
  d_id : string;
  d_name : string;
  d_paired_with : option string;
  d_created_at : Z;
  d_last_seen : option Z
}.

Record createDeviceResponse := CreateDeviceResponse {
  device_id : string;
  device_token : string;
  expires_at : Z
}.

Record healthResponse := HealthResponse {
  h_status : string;
  h_version : string;
  h_uptime_seconds : Z;
  h_connected_devices : Z
}.

Inductive apiBody :=
  | Empty
  | PlainText (s : string)
  | Devices (l : list deviceResponse)
  | Created (r : createDeviceResponse)
  | Health (r : healthResponse).

Abbreviation reply := (response apiBody).
Abbreviation handler := (header → request → conn → reply * conn).

(** ** Handlers *)

Definition writeJSON (w : header) (status : Z) (v : apiBody) : reply :=
  Response status (Set_ "Content-Type" "application/json" w) v.

Definition device_response (d : Device) : deviceResponse :=
  DeviceResponse (ID d) (Name d) (PairedWith d) (CreatedAt d) (LastSeen d).

Definition handleListDevices : handler := λ w r c,
  match ListDevices c with
  | (inl _, c) => (Error PlainText w "internal server error" 500, c)
  | (inr devices, c) => (writeJSON w 200 (Devices (device_response <$> devices)), c)
  end.

(** [json.NewDecoder(r.Body).Decode]: the first JSON value of the body. *)
Definition Decode (body : bytes) : option json :=
  let l := chars body in fst <$> parse_value (S (length l)) 0 l.

(** [createDeviceRequest]: the value of its only field. *)
Definition decode_request (j : json) : option string :=
  match j with
  | JNull => Some ""
  | JObj l => fold_fields (λ n kv, match find_field [("name", tt)] kv.1 with
                                   | None => Some n
                                   | Some _ => dec_string n kv.2
                                   end) "" l
  | _ => None
  end.

Definition bad_body : string :=
  "body must be JSON with non-empty " +:+ String "034" "name" +:+ String "034" " field".

Definition handleCreateDevice (x : surroundings) : handler := λ w r c,
  match Decode (Body r) ≫= decode_request with
  | None => (Error PlainText w bad_body 400, c)
  | Some name =>
      if decide (name = "") then (Error PlainText w bad_body 400, c)
      else
        match NewDevice (x_random x) (x_uuid x) (x_now x) name with
        | None => (Error PlainText w "internal server error" 500, c)
        | Some dev =>
            match CreateDevice dev c with
            | (inl _, c) => (Error PlainText w "internal server error" 500, c)
            | (inr _, c) =>
                (writeJSON w 200 (Created (CreateDeviceResponse (ID dev) (DeviceToken dev)
                                             (default 0%Z (ExpiresAt dev)))), c)
            end
        end
  end.

Definition handleHealth (s : server) (x : surroundings) : handler := λ w r c,
  let uptime := (x_now x - s_startAt s)%Z in
  (writeJSON w 200 (Health (HealthResponse "ok" (s_version s) (truncate (Seconds uptime))
                              (x_connected x))), c).

Definition deprecated (next : handler) : handler := λ w r c, next (Set_ "Deprecation" "true" w) r c.

Definition corsMiddleware (next : handler) : handler := λ w r c,
  let w := Set_ "Access-Control-Allow-Headers" "Content-Type"
             (Set_ "Access-Control-Allow-Methods" "GET, POST, OPTIONS"
                (Set_ "Access-Control-Allow-Origin" "*" w)) in
  if decide (Method r = "OPTIONS") then (Response 204 w Empty, c) else next w r c.

(** [StatusHandler] of the relay. *)
Definition StatusHandler (version : string) (now : Z) (h : Hub) (w : header) : reply :=
  Response 200 (Set_ "Content-Type" "application/json" w)
    (Health (HealthResponse "ok" version (truncate (Seconds (Uptime now h)))
               (ConnectedCount h))).

(** ** The routes (server.go) *)

Definition under_api (ss : list string) : list seg := Lit <$> ("api" :: "v1" :: ss).

Definition api_routes (s : server) (x : surroundings) : list (pattern handler) := [
  Pattern "GET" (under_api ["devices"]) handleListDevices;
  Pattern "POST" (under_api ["devices"]) (handleCreateDevice x);
  Pattern "POST" (under_api ["pair"]) (deprecated (handleCreateDevice x));
  Pattern "GET" (under_api ["health"]) (handleHealth s x)
].

Definition ServeHTTP (routes : list (pattern handler)) : handler := λ w r c,
  match findHandler routes (Method r) (Path r) with
  | Found h _ => h w r c
  | Moved l => (redirect Empty w l, c)
  | NotAllowed ms => (unrouted PlainText w (Some ms), c)
  | NotFound => (unrouted PlainText w None, c)
  end.

(** The server [New] creates; an empty version is replaced by the build's. *)
Definition new_server (version ver : string) (now : Z) : server :=
  MkServer (if decide (ver = "") then version else ver) now.

(** [New], serving one request. *)
Definition New (s : server) (x : surroundings) : handler :=
  corsMiddleware (ServeHTTP (api_routes s x)).

(** ** Properties *)

Definition allow_origin : string := "Access-Control-Allow-Origin".

(** A handler keeps the origin header it is given. *)
Definition keeps_origin (h : handler) : Prop :=
  ∀ w r c, w !! allow_origin = Some "*" → headers (h w r c).1 !! allow_origin = Some "*".

Lemma Set_origin k v w :
  k ≠ allow_origin → w !! allow_origin = Some "*" → Set_ k v w !! allow_origin = Some "*".
Proof. intros Hk Hw. unfold Set_. by rewrite lookup_insert_ne. Qed.

Ltac origin := repeat (apply Set_origin; [discriminate|]); done.

Lemma routes_origin s x p : p ∈ api_routes s x → keeps_origin (p_handler p).
Proof.
  assert (keeps_origin (handleCreateDevice x)) as Hc.
  { intros w r c Hw. unfold handleCreateDevice. repeat case_match; origin. }
  unfold api_routes. rewrite !elem_of_cons. intros Hp w r c Hw.
  destruct Hp as [->|[->|[->|[->|Hp%not_elem_of_nil]]]]; [..|done]; cbn [p_handler].
  - unfold handleListDevices. repeat case_match; origin.
  - by apply Hc.
  - apply Hc. origin.
  - unfold handleHealth. origin.
Qed.

Lemma ListDevices_pure c : devices (ListDevices c).2 = devices c.
Proof.
  unfold ListDevices, query, engine. destruct c as [t [|[] fs]]; done.
Qed.

Lemma CreateDevice_effect d c e c' :
  CreateDevice d c = (e, c') → devices c' ≠ devices c → e = inr tt.
Proof.
  unfold CreateDevice, exec, engine, write, mbind, DBM_bind. destruct c as [t [|[] fs]]; simpl;
    repeat case_match; intros; simplify_eq/=; done.
Qed.

Lemma create_effect x w r c :
  devices (handleCreateDevice x w r c).2 ≠ devices c → code (handleCreateDevice x w r c).1 = 200%Z.
Proof.
  unfold handleCreateDevice. destruct (Decode (Body r) ≫= decode_request) as [name|]; [|done].
  case_decide; [done|]. destruct (NewDevice _ _ _ _) as [d|]; [|done].
  destruct (CreateDevice d c) as [[e|[]] c'] eqn:E; simpl; [|done].
  intros Hd. by specialize (CreateDevice_effect _ _ _ _ E Hd).
Qed.

(** Every response of the API, errors and preflights included, carries the CORS origin
    header; and the only requests that change the store are successful POSTs to
    [/api/v1/devices] and its deprecated alias [/api/v1/pair]. *)
Theorem api_effects s x w r c :
  let '(rep, c') := New s x w r c in
  headers rep !! allow_origin = Some "*" ∧
  (devices c' ≠ devices c → code rep = 200%Z ∧ Method r = "POST" ∧
     segments_of (Path r) ∈ [["api"; "v1"; "devices"]; ["api"; "v1"; "pair"]]).
Proof.
  unfold New, corsMiddleware. set (w1 := Set_ "Access-Control-Allow-Headers" _ _).
  assert (w1 !! allow_origin = Some "*") as Hw.
  { unfold w1. do 2 (apply Set_origin; [discriminate|]). apply lookup_insert_eq. }
  clearbody w1. case_decide; [done|]. unfold ServeHTTP.
  destruct (findHandler (api_routes s x) (Method r) (Path r)) as [h caps|l|ms|] eqn:E;
    [|split; [cbn [unrouted redirect Error headers fst]; origin|congruence]..].
  apply findHandler_found in E as (p & Hp & <- & Hf & Hmeth).
  pose proof (routes_origin s x p Hp w1 r c Hw) as Ho.
  destruct (p_handler p w1 r c) as [rep c'] eqn:Eh. split; [done|]. intros Hd.
  unfold api_routes in Hp. rewrite !elem_of_cons in Hp.
  destruct Hp as [->|[->|[->|[->|Hp%not_elem_of_nil]]]]; [..|done]; cbn [p_handler p_segs p_method] in *;
    apply fits_lits in Hf; cbn [under_api] in Hf.
  - pose proof (ListDevices_pure c) as Hl. revert Eh. unfold handleListDevices.
    destruct (ListDevices c) as [[e|l] c1]; intros [= <- <-]; done.
  - pose proof (create_effect x w1 r c) as Hc. rewrite Eh in Hc.
    split_and!; [by apply Hc|naive_solver|rewrite Hf; set_solver].
  - pose proof (create_effect x (Set_ "Deprecation" "true" w1) r c) as Hc. unfold deprecated in Eh.
    rewrite Eh in Hc. split_and!; [by apply Hc|naive_solver|rewrite Hf; set_solver].
  - by injection Eh as <- <-.
Qed.

(** A registration request: method, route and name. *)
Record registers (r : request) (name : string) : Prop := {
  reg_method : Method r = "POST";
  reg_path : Path r = "/api/v1/devices" ∨ Path r = "/api/v1/pair";
  reg_body : Decode (Body r) ≫= decode_request = Some name;
  reg_name : name ≠ ""
}.

Lemma register_reply s x w r name c b :
  registers r name → x_random x = Some b → faults c = [] → devices c !! x_uuid x = None →
  token_free (base58Encode b) (devices c) →
  let c' := Conn (<[x_uuid x := Row name "" (base58Encode b) None None (x_now x) None
                                 (Some (x_now x + deviceTokenTTL)%Z)]> (devices c)) [] in
  ∃ rep, New s x w r c = (rep, c') ∧ code rep = 200%Z ∧
    content rep = Created (CreateDeviceResponse (x_uuid x) (base58Encode b)
                             (x_now x + deviceTokenTTL)%Z).
Proof.
  intros [Hm Hp Hb Hn] Hr Hf Hid Htok c'. destruct c as [t fs]. simpl in Hf, Hid, Htok, c'. subst fs.
  unfold New, corsMiddleware. rewrite Hm.
  rewrite decide_False by done. unfold ServeHTTP. rewrite Hm.
  assert (∀ w, ∃ rep, handleCreateDevice x w r (Conn t []) = (rep, c') ∧ code rep = 200%Z ∧
    content rep = Created (CreateDeviceResponse (x_uuid x) (base58Encode b)
                             (x_now x + deviceTokenTTL)%Z)) as Hcreate.
  { intros w'. unfold handleCreateDevice. rewrite Hb, decide_False by done.
    unfold NewDevice, GenerateDeviceToken. rewrite Hr. simpl.
    unfold CreateDevice, exec, engine, write, mbind, DBM_bind.
    unfold insert_row. simpl. rewrite decide_True by done. by eexists. }
  destruct Hp as [->| ->]; cbn [findHandler]; [apply Hcreate|apply Hcreate].
Qed.

(** C33: Registration end to end.  A registration request answers with an ID and a token
    that are the store's newest device; the relay lets exactly that pair in, from then
    until five minutes later, and refuses it as expired afterwards. *)
Theorem register_then_connect s x w r name c b mb v :
  registers r name → x_random x = Some b → b ≠ "" → x_uuid x ≠ "" → faults c = [] →
  devices c !! x_uuid x = None → token_free (base58Encode b) (devices c) →
  o_faults (env v) = [] → length (Register (hub v)) < channelSize →
  let '(rep, c') := New s x w r c in
  db v = devices c' →
  ∃ d, content rep = Created d ∧ expires_at d = (x_now x + 300 * Second)%Z ∧
    if decide (o_now (env v) ≤ expires_at d)%Z
    then ∃ v', run (Handler mb (device_id d) (device_token d)) v =
           Some (if (coin v).1 then Connected (alloc (heap v)) else UpgradeFailed, v')
    else run (Handler mb (device_id d) (device_token d)) v =
           Some (HttpError 401 "pairing code expired", v).
Proof.
  intros Hreg Hr Hb Hu Hf Hid Htok Hfv Hroom.
  destruct (register_reply s x w r name c b Hreg Hr Hf Hid Htok) as (rep & E & _ & Hc).
  rewrite E. intros Hdb. simpl in Hdb. eexists. split; [done|]. cbn [device_id device_token expires_at].
  split; [done|]. pose proof (run_Handler v mb (x_uuid x) (base58Encode b) Hfv Hroom) as H.
  cbv zeta in H. rewrite decide_False in H.
  2: { pose proof (base58Encode_nonempty b Hb). naive_solver. }
  rewrite Hdb, lookup_insert_eq in H. cbn [r_device_token r_paired_with] in H.
  rewrite decide_True in H by done. unfold token_expired in H. cbn [r_expires_at] in H.
  case_bool_decide as Hx; case_decide; try lia; [done|].
  destruct H as (v' & H & _). by exists v'.
Qed.

(** ** A concrete run *)

Definition ex_request : request :=
  Request "POST" "/api/v1/devices" (of_chars (jprint (JObj [("name", JStr "phone")]))).
Definition ex_around : surroundings := Surroundings 7 (Some "random") "u1" 0.
Definition ex_stored : table := <["u1" := Row "phone" "" (base58Encode "random") None None 7 None
                                            (Some (7 + deviceTokenTTL)%Z)]> ∅.
Definition ex_world : world := World ∅ (NewHub 0) ex_stored [] (Oracle 8 [] [] [true] []).

Lemma register_then_connect_witness :
  ∃ d, content (New (MkServer "dev" 0) ex_around ∅ ex_request (Conn ∅ [])).1 = Created d ∧
    expires_at d = (7 + 300 * Second)%Z.
Proof.
  pose proof (register_then_connect (MkServer "dev" 0) ex_around ∅ ex_request "phone" (Conn ∅ [])
    "random" 65536 ex_world) as P.
  destruct (New (MkServer "dev" 0) ex_around ∅ ex_request (Conn ∅ [])) as [rep c'] eqn:E.
  destruct P as (d & Hd & He & _); [..|by exists d].
  - split; [reflexivity|by left|vm_compute; reflexivity|discriminate].
  - reflexivity.
  - discriminate.
  - discriminate.
  - reflexivity.
  - reflexivity.
  - apply map_Forall_empty.
  - reflexivity.
  - simpl. unfold channelSize. lia.
  - change c' with (rep, c').2. rewrite <- E. vm_compute. reflexivity.
Defined.
