(* ===== verification/Admin.v ===== *)
(** * The admin server (src/internal/admin/server.go) and the commands that write the
      store (src/internal/cli/pair.go, link.go, start.go)

    Handlers map the headers set so far, the request, the hub and the store to a response
    and the store.  Pages are their template's name and data; parsing the embedded
    templates ([parses]) and serving the static files ([fileServer]) are inputs. *)

From S2P Require Import Prelude Database Pairing PairCodes SendQueue Relay RelaySystem RelayFacts Http Config.

(** ** Durations as text *)

(** [d.Round(time.Second)]: half away from zero, saturating. *)
Definition Round_second (d : Z) : Z :=
  let r := Z.rem d Second in
  if decide (d < 0)%Z then
    if decide (- r + - r < Second)%Z then (d - r)%Z
    else let d1 := int64 (d - Second - r) in if decide (d1 < d)%Z then d1 else int64_min
  else
    if decide (r + r < Second)%Z then (d - r)%Z
    else let d1 := int64 (d + Second - r) in if decide (d < d1)%Z then d1 else int64_max.

(** [d.String()] of a whole number of seconds. *)
Definition Duration_String (d : Z) : string :=
  let u := (Z.abs d / Second)%Z in
  let text :=
    (if decide (3600 ≤ u)%Z then pretty (u / 3600)%Z +:+ "h" else "") +:+
    (if decide (60 ≤ u)%Z then pretty (u / 60 mod 60)%Z +:+ "m" else "") +:+
    pretty (u mod 60)%Z +:+ "s" in
  if decide (d < 0)%Z then "-" +:+ text else text.

(** ** Data *)

Record statusResponse := StatusResponse {
  st_status : string;
  st_version : string;
  st_connected : Z;
  st_uptime : string
}.

Record pageData := PageData {
  pg_version : option string;
  pg_connected : option Z;
  pg_uptime : option string;
  pg_devices : list Device;
  pg_online : gset string;
  pg_year : Z
}.

Inductive adminBody :=
  | NoContent
  | Plain (s : string)
  | Page (name : string) (data : pageData)
  | StatusJSON (s : statusResponse)
  | DevicesJSON (l : list Device)
  | Asset (data : bytes).

Record adminRequest := AdminRequest {
  a_method : string;
  a_path : string;
  a_form : option (gmap string string)      (* [None]: the form cannot be parsed *)
}.

Abbreviation areply := (response adminBody).

Section admin.
Context (version : string) (now year : Z) (h : Hub).
Context (parses : string → bool) (fileServer : header → string → areply).
Context (ord foreign_keys : bool) (engine_text : string).

Abbreviation ahandler := (header → adminRequest → list string → conn → areply * conn).

(** ** Helpers *)

Definition onlineSet (ids : list string) : gset string := list_to_set ids.

Definition render (w : header) (name : string) (data : pageData) : areply :=
  if parses name
  then Response 200 (Set_ "Content-Type" "text/html; charset=utf-8" w) (Page name data)
  else Error Plain w "render error" 500.

Definition writeJSON (w : header) (v : adminBody) : areply :=
  Response 200 (Set_ "Content-Type" "application/json" w) v.

Definition error_text (e : dberr) : string :=
  match e with
  | ErrNotFound => "device not found"
  | ErrAlreadyPaired => "device already paired"
  | ErrStaticKeyMismatch => "static key mismatch"
  | ErrConstraint | ErrEngine => engine_text
  end.

(** [s.db.ListDevices()] and a response built from its result. *)
Definition with_devices (w : header) (f : list Device → areply) (c : conn) : areply * conn :=
  match ListDevices c with
  | (inl _, c) => (Error Plain w "db error" 500, c)
  | (inr ds, c) => (f ds, c)
  end.

(** ** Handlers *)

Definition uptime_text : string := Duration_String (Round_second (Uptime now h)).

Definition handleIndex : ahandler := λ w r caps,
  with_devices w (λ ds, render w "index.html"
    (PageData (Some version) (Some (ConnectedCount h)) (Some uptime_text) ds
       (onlineSet (ConnectedDevices h)) year)).

Definition handleDevices : ahandler := λ w r caps,
  with_devices w (λ ds, render w "devices.html"
    (PageData (Some version) None None ds (onlineSet (ConnectedDevices h)) year)).

Definition handleDevicesPartial : ahandler := λ w r caps,
  with_devices w (λ ds, render w "devices_table"
    (PageData None None None ds (onlineSet (ConnectedDevices h)) year)).

Definition handleDeleteDevice : ahandler := λ w r caps c,
  let id := default "" (head caps) in
  match DeleteDevice foreign_keys id c with
  | (inl _, c) => (Error Plain w "delete failed" 500, c)
  | (inr _, c) => (Response 200 w NoContent, c)
  end.

Definition handlePairDevices : ahandler := λ w r caps c,
  match a_form r with
  | None => (Error Plain w "bad request" 400, c)
  | Some form =>
      let id1 := default "" (form !! "id1") in
      let id2 := default "" (form !! "id2") in
      if decide (id1 = "" ∨ id2 = "" ∨ id1 = id2) then (Error Plain w "invalid device IDs" 400, c)
      else
        match PairDevices ord id1 id2 c with
        | (inl e, c) => (Error Plain w ("pairing failed: " +:+ error_text e) 500, c)
        | (inr _, c) => handleDevicesPartial w r caps c
        end
  end.

Definition apiStatus : ahandler := λ w r caps c,
  (writeJSON w (StatusJSON (StatusResponse "ok" version (ConnectedCount h) uptime_text)), c).

Definition apiDevices : ahandler := λ w r caps,
  with_devices w (λ ds, writeJSON w (DevicesJSON ds)).

Definition favicon : ahandler := λ w r caps c, (redirect NoContent w "/static/favicon.ico", c).
Definition static : ahandler := λ w r caps c, (fileServer w (a_path r), c).

Definition registerRoutes : list (pattern ahandler) := [
  Pattern "GET" [Lit "static"; Rest] static;
  Pattern "GET" [Lit "favicon.ico"] favicon;
  Pattern "GET" [Rest] handleIndex;
  Pattern "GET" [Lit "devices"] handleDevices;
  Pattern "GET" [Lit "htmx"; Lit "devices"] handleDevicesPartial;
  Pattern "DELETE" [Lit "htmx"; Lit "devices"; Wild] handleDeleteDevice;
  Pattern "POST" [Lit "htmx"; Lit "pair"] handlePairDevices;
  Pattern "GET" [Lit "api"; Lit "v1"; Lit "status"] apiStatus;
  Pattern "GET" [Lit "api"; Lit "v1"; Lit "devices"] apiDevices
].

Definition ServeHTTP (w : header) (r : adminRequest) (c : conn) : areply * conn :=
  match findHandler registerRoutes (a_method r) (a_path r) with
  | Found f caps => f w r caps c
  | Moved l => (redirect NoContent w l, c)
  | NotAllowed ms => (unrouted Plain w (Some ms), c)
  | NotFound => (unrouted Plain w None, c)
  end.
End admin.

(** ** Commands *)

Section cli.
Context (load : (cfgerr + Config) * option cfgerr).    (* [config.Load] *)
Context (open : string → option conn).                  (* [database.Open] *)

Inductive clierr :=
  | LoadingConfig (e : cfgerr) | OpeningDatabase | GeneratingDevice | SavingDevice (e : dberr)
  | GeneratingQR | NoDevice (n : Z) (id : string) (e : dberr) | PairingFailed (e : dberr).

(** Loading the configuration and opening its database. *)
Definition with_db {A} (f : conn → (clierr + A) * option conn) : (clierr + A) * option conn :=
  match load with
  | (_, Some e) => (inl (LoadingConfig e), None)
  | (inl e, None) => (inl (LoadingConfig e), None)
  | (inr cfg, None) =>
      match open (db_Path (cfg_DB cfg)) with
      | None => (inl OpeningDatabase, None)
      | Some c => f c
      end
  end.

Definition pairingURI (d : Device) : string :=
  "relayly://pair?device_id=" +:+ ID d +:+ "&token=" +:+ DeviceToken d.

(** [relayly pair NAME]: the device, and the URI if a QR code is wanted ([qr] says whether
    the code can be drawn).  The store is left as the second component. *)
Definition runPair (random : option bytes) (uuid : string) (now : Z) (noQR : bool)
    (qr : string → bool) (name : string) : (clierr + Device * option string) * option conn :=
  with_db (λ c,
    match NewDevice random uuid now name with
    | None => (inl GeneratingDevice, Some c)
    | Some d =>
        match CreateDevice d c with
        | (inl e, c) => (inl (SavingDevice e), Some c)
        | (inr _, c) =>
            if noQR then (inr (d, None), Some c)
            else if qr (pairingURI d) then (inr (d, Some (pairingURI d)), Some c)
            else (inl GeneratingQR, Some c)
        end
    end).

(** [relayly link ID1 ID2]. *)
Definition runLink (ord : bool) (id1 id2 : string) : (clierr + Device * Device) * option conn :=
  with_db (λ c,
    match GetDeviceByID id1 c with
    | (inl e, c) => (inl (NoDevice 1 id1 e), Some c)
    | (inr d1, c) =>
        match GetDeviceByID id2 c with
        | (inl e, c) => (inl (NoDevice 2 id2 e), Some c)
        | (inr d2, c) =>
            match PairDevices ord id1 id2 c with
            | (inl e, c) => (inl (PairingFailed e), Some c)
            | (inr _, c) => (inr (d1, d2), Some c)
            end
        end
    end).
End cli.

(** ** The relay's routes ([runStart]) *)

Inductive endpoint := WS | HealthEndpoint | API.

Definition relay_routes : list (pattern endpoint) := [
  Pattern "" [Lit "ws"] WS;
  Pattern "" [Lit "health"] HealthEndpoint;
  Pattern "" [Lit "api"; Rest] API
].

(** [--dev] and [--debug]. *)
Definition start_config (dev debug : bool) (c : Config) : Config :=
  let log l := MkConfig (Host c) (Port c) (TLS c) (cfg_DB c) (Admin c) l (WebSocket c) in
  if dev then log (MkLog "debug" "console")
  else if debug then log (MkLog "debug" (log_Format (Log c)))
  else c.

(** ** Properties *)

(** Reading one binary frame routes it to the connection's peer. *)
Lemma run_read_binary w r c d fs :
  heap w !! r = Some c → conn_open c = true → o_frames (env w) = Some (BinaryMessage, d) :: fs →
  ¬ (0 < maxMessageBytes c < Z.of_nat (slen d))%Z → pairedWith c ≠ "" →
  let w' := set_env (Oracle (o_now (env w)) (o_faults (env w)) (o_rand (env w))
                       (o_coin (env w)) fs) w in
  run (readPump_body r) w =
  (x ← run (Route (MkMessage (DeviceID c) d) (pairedWith c)) w'; Some (true, x.2)).
Proof.
  intros Hr Ho Hf Hlim Hp w'. unfold readPump_body, call. cbn [mbind prog_mbind prog_bind run exec_op].
  unfold with_client. rewrite Hr. cbn [mbind option_bind]. rewrite Ho, Hf.
  rewrite decide_False by done. cbn [mbind option_bind]. fold w'.
  assert (heap w' !! r = Some c) as Hr' by done.
  rewrite (run_OPeer _ _ _ c Hr'). unfold Peer. cbn [fst snd].
  rewrite bool_decide_true by done. rewrite (run_ODeviceID _ _ _ c Hr').
  rewrite run_bind. destruct (run _ w') as [[[] w2]|]; done.
Qed.

Lemma DeleteDevice_ok fk id t :
  DeleteDevice fk id (Conn t []) = (inr tt, Conn (delete_row fk id (clear_refs id t)) []).
Proof. done. Qed.

(** Deleting a device through the admin server takes its row away at once, but not its
    connection: frames the deleted device sends are still relayed to its former peer for
    as long as it stays connected. *)
Theorem deletion_is_late fk req w r c d fs peer rp cp :
  wf_world w → heap w !! r = Some c → conn_open c = true →
  o_frames (env w) = Some (BinaryMessage, d) :: fs →
  ¬ (0 < maxMessageBytes c < Z.of_nat (slen d))%Z → pairedWith c = peer → peer ≠ "" →
  clients (hub w) !! peer = Some rp → heap w !! rp = Some cp → closed cp = false →
  length (send cp) < sendBufferSize →
  let '(rep, c') := handleDeleteDevice fk ∅ req [DeviceID c] (Conn (db w) []) in
  code rep = 200%Z ∧ devices c' !! DeviceID c = None ∧
  ∃ w', run (readPump_body r) (on_store (devices c') w) = Some (true, w') ∧
    ∃ cp', heap w' !! rp = Some cp' ∧ send cp' = send cp ++ [WsFrame BinaryMessage d false].
Proof.
  intros Hwf Hr Ho Hf Hlim Hp Hne Hcl Hrp Hopen Hroom.
  unfold handleDeleteDevice. rewrite DeleteDevice_ok. cbn [default head devices code].
  split; [done|]. split.
  { unfold delete_row, clear_refs. destruct fk; [rewrite lookup_fmap|]; by rewrite lookup_delete_eq. }
  set (t := delete_row _ _ _). set (v := on_store t w).
  rewrite (run_read_binary v r c d fs) by (try done; by rewrite Hp).
  set (v' := set_env _ v). assert (wf_world v') as Hwf' by (destruct Hwf; by split).
  pose proof (run_Route v' (DeviceID c) d peer Hwf') as HR.
  change (clients (hub v')) with (clients (hub w)) in HR. rewrite Hcl in HR.
  destruct HR as (cr & Hcr & _ & HR). assert (cr = cp) as -> by (unfold v' in Hcr; simpl in Hcr; congruence).
  rewrite decide_True in HR by done. rewrite Hp, HR. eexists. split; [done|].
  eexists. simpl. rewrite lookup_alter_eq, Hrp. done.
Qed.

(** [relayly link] with the same ID twice, which the admin form refuses, links a device
    to itself: the store then names the device as its own partner, and the device can
    never pair with another one until it is unlinked. *)
Theorem link_self load open ord id c cfg row other :
  load = (inr cfg, None) → open (db_Path (cfg_DB cfg)) = Some c → faults c = [] →
  devices c !! id = Some row → r_paired_with row = None →
  ∃ c', runLink load open ord id id = (inr (scanDevice id row, scanDevice id row), Some c') ∧
    partner (devices c') id = Some id ∧
    ∀ o, PairDevices o id other c' = (inl ErrAlreadyPaired, c').
Proof.
  intros Hl Hop Hf Hid Hun. destruct c as [t fs]. simpl in Hf, Hid. subst fs.
  unfold runLink, with_db. rewrite Hl, Hop.
  do 2 (rewrite GetDeviceByID_eval, Hid; cbn [tail]; cbv beta iota). rewrite PairDevices_ok.
  assert (unpaired_err id t = None) as Hu by (unfold unpaired_err; by rewrite Hid; simpl; rewrite Hun).
  unfold pair_spec. rewrite !Hu. eexists. split; [done|].
  assert (partner (link id id t) id = Some id) as Hself.
  { unfold partner, link. rewrite !lookup_alter_eq, Hid. done. }
  split; [done|]. intros o. rewrite PairDevices_ok. unfold pair_spec.
  unfold partner in Hself. destruct (link id id t !! id) as [row'|] eqn:E; [|done].
  unfold unpaired_err. simpl in *. rewrite E. simpl. by rewrite Hself.
Qed.

(** ** Concrete runs *)

Definition ex_linked : table :=
  <["A" := Row "a" "" "ta" None (Some "B") 0 None None]>
    {["B" := Row "b" "" "tb" None (Some "A") 0 None None]}.

Definition ex_online : world :=
  World (<[1 := NewClient "A" "B" 65536]> {[2 := NewClient "B" "A" 65536]})
    (MkHub (<["A" := 1]> {["B" := 2]}) [] [] newPairCodeRegistry 0)
    ex_linked [] (Oracle 0 [] [] [] [Some (BinaryMessage, "hi")]).

Lemma ex_online_wf : wf_world ex_online.
Proof.
  split; simpl.
  - intros id r. rewrite lookup_insert_Some, lookup_singleton_Some.
    intros [[<- <-]|(_ & <- & <-)]; by eexists.
  - intros r Hr. by apply not_elem_of_nil in Hr.
  - unfold channelSize. lia.
  - intros r c. rewrite lookup_insert_Some, lookup_singleton_Some. unfold sendBufferSize.
    intros [[<- <-]|(_ & <- & <-)]; simpl; lia.
Qed.

Lemma deletion_is_late_witness :
  code (handleDeleteDevice true ∅ (AdminRequest "DELETE" "/htmx/devices/A" None) ["A"]
          (Conn ex_linked [])).1 = 200%Z.
Proof.
  refine (proj1 (deletion_is_late true (AdminRequest "DELETE" "/htmx/devices/A" None) ex_online 1
    (NewClient "A" "B" 65536) "hi" [] "B" 2 (NewClient "B" "A" 65536)
    ex_online_wf eq_refl eq_refl eq_refl _ eq_refl _ eq_refl eq_refl eq_refl _)).
  - simpl. lia.
  - discriminate.
  - simpl. unfold sendBufferSize. lia.
Defined.

Definition ex_config : (cfgerr + Config) * option cfgerr := Load true ReadMissing (Some ∅).
Definition ex_unlinked : table := {["A" := Row "a" "" "ta" None None 0 None None]}.

Lemma link_self_witness :
  ∃ c', (runLink ex_config (λ _, Some (Conn ex_unlinked [])) true "A" "A").2 = Some c' ∧
    partner (devices c') "A" = Some "A".
Proof.
  destruct (link_self ex_config (λ _, Some (Conn ex_unlinked [])) true "A" (Conn ex_unlinked [])
    (decode (setDefaults ∅)) (Row "a" "" "ta" None None 0 None None) "B") as (c' & E & Hp & _);
    [by vm_compute|reflexivity..|].
  exists c'. by rewrite E.
Defined.
