(* ===== verification/Cli.v ===== *)
(** * Running the server and asking for its status (src/internal/cli/start.go, status.go,
      root.go; src/pkg/version/version.go)

    [runStart] acquires a logger, the database and a signal handler, starts a goroutine per
    HTTP server and waits for an error of a server or for a signal; its deferred calls
    release what it acquired.  Here the function up to the wait is [runStart_setup] and
    the rest a step relation of its goroutines; [trace] records the calls that matter to
    the world.  [runStatus] is the other end of the admin server's status endpoint. *)

From S2P Require Import Prelude Keys Json AnyJson Wire Database Pairing SendQueue Relay Http Config Admin.

(** ** Version *)

Definition Info (Version Commit BuildTime : string) : string :=
  "relayly " +:+ Version +:+ " (commit=" +:+ Commit +:+ " built=" +:+ BuildTime +:+ ")".

(** ** start *)

Inductive httpServer := RelayServer | AdminServer.

#[global] Instance httpServer_eq_dec : EqDecision httpServer.
Proof. solve_decision. Defined.

Inductive effect :=
  | EBuildLog (level : string) (console : bool)
  | EOpenDB (path : string)
  | EHub
  | ENotify
  | EListen (s : httpServer) (addr : string) (tls : option (string * string))
  | EShutdown (s : httpServer)
  | EStop | ECloseDB | ESync.

Inductive starterr :=
  | StartLoading (e : cfgerr)
  | StartLogger
  | StartOpening
  | StartAdmin
  | StartServer (s : httpServer) (addr text : string).

(** A goroutine that runs [ListenAndServe]: serving, sending its error, or ended. *)
Inductive gpc := GServe | GSend (e : starterr) | GEnd.

Inductive spc :=
  | SSelect
  | SShutdown (s : httpServer)
  | SDraining (s : httpServer)
  | SDefer (n : nat) (result : option starterr)    (* deferred calls left *)
  | SReturned (result : option starterr).

Record running := Running {
  r_cfg : Config;
  r_main : spc;
  r_relay : gpc;
  r_admin : option gpc;             (* [None]: the admin server is disabled *)
  r_errs : list starterr;           (* the buffer of [serverErr] *)
  r_signal : bool;                  (* the signal context is done *)
  trace : list effect
}.

Definition serverErrCapacity : nat := 2.

Definition goroutine_of (s : httpServer) (r : running) : option gpc :=
  match s with RelayServer => Some (r_relay r) | AdminServer => r_admin r end.

Definition set_goroutine (s : httpServer) (g : gpc) (r : running) : running :=
  match s with
  | RelayServer => Running (r_cfg r) (r_main r) g (r_admin r) (r_errs r) (r_signal r) (trace r)
  | AdminServer => Running (r_cfg r) (r_main r) (r_relay r) (Some g) (r_errs r) (r_signal r) (trace r)
  end.
Definition set_errs l r := Running (r_cfg r) (r_main r) (r_relay r) (r_admin r) l (r_signal r) (trace r).
Definition set_signal r := Running (r_cfg r) (r_main r) (r_relay r) (r_admin r) (r_errs r) true (trace r).
Definition goto m r := Running (r_cfg r) m (r_relay r) (r_admin r) (r_errs r) (r_signal r) (trace r).
Definition does e r := Running (r_cfg r) (r_main r) (r_relay r) (r_admin r) (r_errs r) (r_signal r) (trace r ++ [e]).

Definition addr_of (s : httpServer) (c : Config) : string :=
  match s with RelayServer => Addr c | AdminServer => AdminAddr c end.

Section start.
(** What the command meets: the configuration read, the flags, whether [zap] builds the
    logger, which levels it knows, opening the database and the admin templates. *)
Context (load : (cfgerr + Config) * option cfgerr) (dev debug : bool).
Context (builds : string → bool → bool) (known_level : string → bool).
Context (opens : string → bool) (templates : bool).

Definition buildLogger (level format : string) : option effect :=
  let zapLevel := if known_level level then level else "info" in
  let console := bool_decide (format = "console") in
  if builds zapLevel console then Some (EBuildLog zapLevel console) else None.

(** The calls made, and an error or the state in which [runStart] waits. *)
Definition runStart_setup : list effect * (starterr + running) :=
  match load with
  | (_, Some e) | (inl e, None) => ([], inl (StartLoading e))
  | (inr cfg, None) =>
      let cfg := start_config dev debug cfg in
      match buildLogger (log_Level (Log cfg)) (log_Format (Log cfg)) with
      | None => ([], inl StartLogger)
      | Some built =>
          if opens (db_Path (cfg_DB cfg)) then
            let opened := [built; EOpenDB (db_Path (cfg_DB cfg)); EHub] in
            let tls := if tls_Enabled (TLS cfg) then Some (tls_Cert (TLS cfg), tls_Key (TLS cfg)) else None in
            if admin_Enabled (Admin cfg) then
              if templates then
                let tr := opened ++ [ENotify; EListen RelayServer (Addr cfg) tls;
                                     EListen AdminServer (AdminAddr cfg) None] in
                (tr, inr (Running cfg SSelect GServe (Some GServe) [] false tr))
              else (opened ++ [ECloseDB; ESync], inl StartAdmin)
            else
              let tr := opened ++ [ENotify; EListen RelayServer (Addr cfg) tls] in
              (tr, inr (Running cfg SSelect GServe None [] false tr))
          else ([built; ESync], inl StartOpening)
      end
  end.
End start.

(** The deferred calls, the last one first. *)
Definition deferred (n : nat) : option effect :=
  match n with 3 => Some EStop | 2 => Some ECloseDB | 1 => Some ESync | _ => None end.

Inductive start_step : running → running → Prop :=
  | step_fails s text r :
      goroutine_of s r = Some GServe →
      start_step r (set_goroutine s (GSend (StartServer s (addr_of s (r_cfg r)) text)) r)
  | step_closed s r :
      goroutine_of s r = Some GServe → EShutdown s ∈ trace r →
      start_step r (set_goroutine s GEnd r)
  | step_reports s e r :
      goroutine_of s r = Some (GSend e) → length (r_errs r) < serverErrCapacity →
      start_step r (set_goroutine s GEnd (set_errs (r_errs r ++ [e]) r))
  | step_signal r : start_step r (set_signal r)
  | step_error e es r :
      r_main r = SSelect → r_errs r = e :: es →
      start_step r (goto (SDefer 3 (Some e)) (set_errs es r))
  | step_done r :
      r_main r = SSelect → r_signal r = true → start_step r (goto (SShutdown RelayServer) r)
  | step_shutdown s r :
      r_main r = SShutdown s → start_step r (goto (SDraining s) (does (EShutdown s) r))
  | step_drained s r :
      r_main r = SDraining s →
      start_step r (goto (match s, r_admin r with
                          | RelayServer, Some _ => SShutdown AdminServer
                          | _, _ => SDefer 3 None
                          end) r)
  | step_defer n e result r :
      r_main r = SDefer (S n) result → deferred (S n) = Some e →
      start_step r (goto (SDefer n result) (does e r))
  | step_return result r :
      r_main r = SDefer 0 result → start_step r (goto (SReturned result) r).

(** *** Properties *)

Inductive resource := RLog | RDatabase | RSignals.

#[global] Instance resource_eq_dec : EqDecision resource.
Proof. solve_decision. Defined.

Definition release (x : resource) (l : list resource) : option (list resource) :=
  match l with y :: l => if decide (x = y) then Some l else None | [] => None end.

(** What is held after some calls; [None] if something was released that was not the last
    thing acquired. *)
Definition hold (held : option (list resource)) (e : effect) : option (list resource) :=
  l ← held;
  match e with
  | EBuildLog _ _ => Some (RLog :: l)
  | EOpenDB _ => Some (RDatabase :: l)
  | ENotify => Some (RSignals :: l)
  | EStop => release RSignals l
  | ECloseDB => release RDatabase l
  | ESync => release RLog l
  | _ => Some l
  end.

Definition held (tr : list effect) : option (list resource) := foldl hold (Some []) tr.

(** Servers listen, and are shut down, while the database is open. *)
Definition needs_db (e : effect) : bool :=
  match e with EListen _ _ _ | EShutdown _ | EHub => true | _ => false end.

Definition while_open (tr : list effect) : Prop :=
  ∀ tr1 e tr2, tr = tr1 ++ e :: tr2 → needs_db e = true → ∃ l, held tr1 = Some l ∧ RDatabase ∈ l.

Definition left_to (m : spc) : list resource :=
  match m with
  | SDefer n _ => drop (3 - n) [RSignals; RDatabase; RLog]
  | SReturned _ => []
  | _ => [RSignals; RDatabase; RLog]
  end.

Definition failure_of (r : running) (e : starterr) : Prop :=
  ∃ s text, e = StartServer s (addr_of s (r_cfg r)) text ∧ is_Some (goroutine_of s r).

Definition alive (g : gpc) : nat := match g with GEnd => 0 | _ => 1 end.

Definition shut_down (r : running) : Prop :=
  r_signal r = true ∧ EShutdown RelayServer ∈ trace r ∧ (is_Some (r_admin r) → EShutdown AdminServer ∈ trace r).

(** What is known at each point of the main goroutine. *)
Definition main_ok (r : running) : Prop :=
  match r_main r with
  | SSelect => True
  | SShutdown RelayServer => r_signal r = true
  | SShutdown AdminServer => r_signal r = true ∧ EShutdown RelayServer ∈ trace r
  | SDraining RelayServer => r_signal r = true ∧ EShutdown RelayServer ∈ trace r
  | SDraining AdminServer => shut_down r
  | SDefer n None => n ≤ 3 ∧ shut_down r
  | SDefer n (Some e) => n ≤ 3 ∧ failure_of r e
  | SReturned None => shut_down r
  | SReturned (Some e) => failure_of r e
  end.

Record start_ok (r : running) : Prop := {
  so_held : held (trace r) = Some (left_to (r_main r));
  so_open : while_open (trace r);
  so_main : main_ok r;
  so_room : length (r_errs r) + alive (r_relay r) + from_option alive 0 (r_admin r) ≤ serverErrCapacity;
  so_errs : Forall (failure_of r) (r_errs r);
  so_sends s e : goroutine_of s r = Some (GSend e) → failure_of r e
}.

Lemma held_app tr e : held (tr ++ [e]) = hold (held tr) e.
Proof. unfold held. by rewrite foldl_app. Qed.

Lemma while_open_app tr e :
  while_open tr → (needs_db e = true → ∃ l, held tr = Some l ∧ RDatabase ∈ l) → while_open (tr ++ [e]).
Proof.
  intros Hw He tr1 e' tr2 E Hn. destruct tr2 as [|y tr2 _] using rev_ind.
  - apply app_inj_tail in E as [<- <-]. by apply He.
  - rewrite app_comm_cons, app_assoc in E. apply app_inj_tail in E as [-> <-]. by eapply Hw.
Qed.

Lemma goroutine_set s g r s' :
  is_Some (goroutine_of s r) → is_Some (goroutine_of s' (set_goroutine s g r)) ↔ is_Some (goroutine_of s' r).
Proof. by destruct s, s'. Qed.

Lemma failure_set s g r e :
  is_Some (goroutine_of s r) → failure_of r e → failure_of (set_goroutine s g r) e.
Proof.
  intros Hs (s' & text & -> & Hg). exists s', text. split; [by destruct s|]. by apply goroutine_set.
Qed.

(** Replacing the state of a goroutine that is there. *)
Lemma start_ok_goroutine s g g' r :
  goroutine_of s r = Some g → alive g' ≤ alive g → (∀ e, g' = GSend e → failure_of r e) →
  start_ok r → start_ok (set_goroutine s g' r).
Proof.
  intros Hs Ha Hg [K1 K2 K3 K4 K5 K6].
  assert (is_Some (goroutine_of s r)) as Hi by by rewrite Hs.
  assert (∀ e, failure_of r e → failure_of (set_goroutine s g' r) e) as Hf by (intros e; by apply failure_set).
  assert (shut_down r → shut_down (set_goroutine s g' r)) as Hd.
  { unfold shut_down. intros (D1 & D2 & D3). destruct s; [done|]. split_and!; try done. intros _. by apply D3. }
  split.
  - by destruct s.
  - by destruct s.
  - unfold main_ok in *. assert (r_main (set_goroutine s g' r) = r_main r) as -> by by destruct s.
    assert (r_signal (set_goroutine s g' r) = r_signal r) as -> by by destruct s.
    assert (trace (set_goroutine s g' r) = trace r) as -> by by destruct s.
    destruct (r_main r) as [|[]|[]|n [e|]|[e|]]; naive_solver.
  - destruct s; cbn in *; [|rewrite Hs in K4; cbn in K4]; simplify_eq; lia.
  - assert (r_errs (set_goroutine s g' r) = r_errs r) as -> by by destruct s. by eapply Forall_impl.
  - intros s' e Hs'. apply Hf. destruct (decide (s' = s)) as [->|Hne].
    + apply Hg. destruct s; cbn in Hs'; congruence.
    + apply (K6 s'). by destruct s, s'.
Qed.

Lemma start_step_ok r r' : start_step r r' → start_ok r → start_ok r'.
Proof.
  intros Hst K. destruct Hst as [s text r Hg|s r Hg Hd|s e r Hg Hroom|r|e es r Hm He|r Hm Hsig|s r Hm|s r Hm
    |n e result r Hm He|result r Hm].
  - apply (start_ok_goroutine s GServe); [done..| |done]. intros e [= <-]. exists s, text. split; [done|]. by rewrite Hg.
  - apply (start_ok_goroutine s GServe); [done|cbn; lia|done|done].
  - assert (failure_of r e) as Hf by by apply (so_sends _ K s).
    destruct K as [K1 K2 K3 K4 K5 K6].
    pose (r1 := set_goroutine s GEnd r).
    assert (start_ok r1) as [J1 J2 J3 J4 J5 J6].
    { apply (start_ok_goroutine s (GSend e)); [done|cbn; lia|done|by split]. }
    assert (set_goroutine s GEnd (set_errs (r_errs r ++ [e]) r) = set_errs (r_errs r1 ++ [e]) r1) as -> by by destruct s.
    split; try done.
    + cbn [r_errs set_errs]. rewrite length_app. cbn [length r_relay r_admin set_errs].
      unfold r1 in *. destruct s; cbn in *; [injection Hg as Hg|]; rewrite Hg in K4; cbn in K4; lia.
    + apply Forall_app_2; [done|]. constructor; [|constructor]. apply failure_set; [by rewrite Hg|done].
  - destruct K as [K1 K2 K3 K4 K5 K6]. split; try done.
    unfold main_ok, shut_down in *. cbn. destruct (r_main r) as [|[]|[]|n [e|]|[e|]]; naive_solver.
  - destruct K as [K1 K2 K3 K4 K5 K6]. rewrite He in K4, K5. apply Forall_cons in K5 as [Hf K5].
    split; cbn [trace goto set_errs r_main r_relay r_admin r_errs]; try done.
    + by rewrite K1, Hm.
    + cbn in K4. lia.
  - destruct K as [K1 K2 K3 K4 K5 K6]. split; try done. cbn [trace goto r_main]. by rewrite K1, Hm.
  - destruct K as [K1 K2 K3 K4 K5 K6]. rewrite Hm in K1. unfold main_ok in K3. rewrite Hm in K3.
    split; cbn [trace goto does r_main r_relay r_admin r_errs left_to]; try done.
    + by rewrite held_app, K1.
    + apply while_open_app; [done|]. intros _. eexists. split; [exact K1|]. right. by left.
    + unfold main_ok, shut_down. cbn. destruct s.
      * split; [done|]. apply elem_of_app. right. by left.
      * destruct K3 as [? ?]. split_and!; [done|by apply elem_of_app; left|]. intros _. apply elem_of_app. right. by left.
  - destruct K as [K1 K2 K3 K4 K5 K6]. rewrite Hm in K1. unfold main_ok in K3. rewrite Hm in K3.
    split; cbn [trace goto r_main r_relay r_admin r_errs]; try done.
    + rewrite K1. by destruct s, (r_admin r).
    + unfold main_ok, shut_down. cbn. destruct s.
      * destruct (r_admin r); cbn; [done|]. destruct K3 as [? ?]. split_and!; [lia|done..|by intros [? ?]].
      * destruct K3 as (? & ? & Ha). split_and!; [lia|done..].
  - destruct K as [K1 K2 K3 K4 K5 K6]. rewrite Hm in K1. unfold main_ok in K3. rewrite Hm in K3.
    split; cbn [trace goto does r_main r_relay r_admin r_errs]; try done.
    + rewrite held_app, K1. destruct n as [|[|[|n]]]; cbn in He; simplify_eq; done.
    + apply while_open_app; [done|]. destruct n as [|[|[|n]]]; cbn in He; by simplify_eq.
    + unfold main_ok, shut_down in *. cbn. destruct result.
      * destruct K3 as [? ?]. split; [lia|done].
      * destruct K3 as (? & ? & ? & Ha). split_and!; [lia|done|by apply elem_of_app; left|].
        intros ?. apply elem_of_app. left. by apply Ha.
  - destruct K as [K1 K2 K3 K4 K5 K6]. rewrite Hm in K1. unfold main_ok in K3. rewrite Hm in K3.
    split; cbn [trace goto r_main]; try done. unfold main_ok. cbn. by destruct result, K3.
Qed.

Fixpoint open_from (st : option (list resource)) (tr : list effect) : bool :=
  match tr with
  | [] => true
  | e :: tr =>
      (negb (needs_db e) || match st with Some l => bool_decide (RDatabase ∈ l) | None => false end)
      && open_from (hold st e) tr
  end.

Lemma open_from_sound tr : open_from (Some []) tr = true → while_open tr.
Proof.
  unfold while_open, held. generalize (Some (A:=list resource) []). induction tr as [|x tr IH]; intros st Ho tr1 e tr2 E He.
  { by destruct tr1. }
  cbn [open_from] in Ho. apply andb_prop in Ho as [Hx Ho].
  destruct tr1 as [|y tr1]; cbn in E; injection E as -> E.
  - rewrite He in Hx. cbn in Hx. destruct st as [l|]; [|done]. apply bool_decide_eq_true in Hx. eauto.
  - apply (IH _ Ho tr1 e tr2 E He).
Qed.

Lemma setup_ok load dev debug builds known opens templates tr r :
  runStart_setup load dev debug builds known opens templates = (tr, inr r) → start_ok r ∧ tr = trace r.
Proof.
  unfold runStart_setup, buildLogger.
  assert (∀ cfg lvl con path addr tls adm g, let tr := [EBuildLog lvl con; EOpenDB path; EHub] ++
      [ENotify; EListen RelayServer addr tls] ++ adm in
    (adm = [] ∧ g = None) ∨ (∃ a, adm = [EListen AdminServer a None] ∧ g = Some GServe) →
    start_ok (Running cfg SSelect GServe g [] false tr)) as Hok.
  { intros cfg lvl con path addr tls adm g tr' Hadm.
    assert (held tr' = Some [RSignals; RDatabase; RLog]) as Hh by by destruct Hadm as [[-> ->]|(a & -> & ->)].
    split; cbn [trace r_main r_relay r_admin r_errs left_to]; try done.
    - apply open_from_sound. by destruct Hadm as [[-> ->]|(a & -> & ->)].
    - destruct Hadm as [[-> ->]|(a & -> & ->)]; cbn; unfold serverErrCapacity; lia.
    - intros s e. destruct s; cbn; [done|]. by destruct Hadm as [[-> ->]|(a & -> & ->)]. }
  destruct load as [[e|cfg] [e'|]]; try done. cbv zeta. destruct (builds _ _); [|done]. destruct (opens _); [|done].
  destruct (admin_Enabled _); [destruct templates; [|done]|]; intros [= <- <-]; (split; [|done]); apply Hok; eauto.
Qed.


(** ** status *)

Record statusResp := StatusResp { Status : string; Version : string; Connected : Z; Uptime_ : string }.

Inductive status_field := SfStatus | SfVersion | SfConnected | SfUptime.

Definition status_tags : list (string * status_field) :=
  [("status", SfStatus); ("version", SfVersion); ("connected", SfConnected); ("uptime", SfUptime)].

Definition status_set (s : statusResp) (kv : string * json) : option statusResp :=
  match find_field status_tags kv.1 with
  | None => Some s
  | Some SfStatus => x ← dec_string (Status s) kv.2; Some (StatusResp x (Version s) (Connected s) (Uptime_ s))
  | Some SfVersion => x ← dec_string (Version s) kv.2; Some (StatusResp (Status s) x (Connected s) (Uptime_ s))
  | Some SfConnected => x ← dec_int (Connected s) kv.2; Some (StatusResp (Status s) (Version s) x (Uptime_ s))
  | Some SfUptime => x ← dec_string (Uptime_ s) kv.2; Some (StatusResp (Status s) (Version s) (Connected s) x)
  end.

Definition decode_status (body : bytes) : option statusResp :=
  j ← Parse body;
  match j with
  | JNull => Some (StatusResp "" "" 0 "")
  | JObj l => fold_fields status_set (StatusResp "" "" 0 "") l
  | _ => None
  end.

Inductive staterr := StatusConnecting | StatusReading | StatusParsing.

(** [get] is [http.Get] and [io.ReadAll]; the result is what is printed. *)
Definition runStatus (get : string → option (option bytes)) (adminURL format : string) : staterr + list string :=
  match get (adminURL +:+ "/api/v1/status") with
  | None => inl StatusConnecting
  | Some None => inl StatusReading
  | Some (Some body) =>
      match decode_status body with
      | None => inl StatusParsing
      | Some s =>
          if decide (format = "json") then inr [body]
          else inr ["  Status:    " +:+ Status s;
                    "  Version:   " +:+ Version s;
                    "  Connected: " +:+ Sprintf_d (Connected s) +:+ " device(s)";
                    "  Uptime:    " +:+ Uptime_ s]
      end
  end.

(** [json.NewEncoder(w).Encode] of the admin server's answer. *)
Definition encode_status (s : statusResponse) : bytes :=
  of_chars (jprint (JObj [("status", JStr (st_status s)); ("version", JStr (st_version s));
                          ("connected", JNum (int_lit (st_connected s))); ("uptime", JStr (st_uptime s))]) ++ [newline]).

(** An object is read back whatever follows it. *)
Lemma parse_object kv l fuel rest :
  let j := JObj (kv :: l) in
  int_json j → jsize j ≤ fuel → (jdepth j ≤ maxNestingDepth)%Z →
  parse_value fuel 0 (jprint j ++ rest) = Some (jsan j, rest).
Proof.
  intros j Hi Hf Hd. destruct fuel as [|fuel]; [cbn in Hf; lia|].
  cbn [jsize jdepth int_json j] in Hf, Hd, Hi. apply le_S_n in Hf.
  assert (Forall (λ kv : string * json, reads_back kv.2) (kv :: l)) as IH
    by (apply Forall_forall; intros; apply printed_reads_back).
  pose proof (parse_members_print (kv :: l) fuel (0 + 1) rest IH ltac:(done) Hi Hf Hd) as Hp.
  assert (0 + 1 ≤ maxNestingDepth)%Z as Hd1 by (pose proof (obj_depth_nonneg (kv :: l)); lia).
  unfold j. cbn [jprint jsan]. rewrite fmap_cons in *.
  match type of Hp with context [commas ?L] =>
    assert (∃ l'', commas L = "034"%char :: l'') as [l'' E2] by (destruct l; simpl; eauto) end.
  rewrite E2 in *. cbn [app] in *. rewrite <- app_assoc. cbn [app].
  rewrite (parse_value_obj fuel 0 _ Hd1). by rewrite Hp.
Qed.

Lemma decode_encode_status s :
  (int64_min ≤ st_connected s ≤ int64_max)%Z →
  decode_status (encode_status s) =
    Some (StatusResp (sanitize (st_status s)) (sanitize (st_version s)) (st_connected s) (sanitize (st_uptime s))).
Proof.
  intros Hc. unfold decode_status, encode_status, Parse. rewrite chars_of_chars.
  set (l := [_; _; _; _]). assert (int_json (JObj l)) as Hi by (cbn; eauto 10).
  pose proof (jsize_le _ Hi) as Hs. unfold l in *.
  rewrite parse_object; [|done|rewrite length_app; lia|done].
  cbn [jsan fmap list_fmap fst snd skip_ws].
  change (is_ws newline) with true. cbv iota. cbn [mbind option_bind].
  rewrite !(sanitize_valid "status"), !(sanitize_valid "version"), !(sanitize_valid "connected"),
    !(sanitize_valid "uptime") by valid_text.
  unfold fold_fields, status_set. cbn [fst snd].
  change (find_field status_tags "status") with (Some SfStatus).
  change (find_field status_tags "version") with (Some SfVersion).
  change (find_field status_tags "connected") with (Some SfConnected).
  change (find_field status_tags "uptime") with (Some SfUptime).
  cbn [dec_string mbind option_bind Status Version Connected Uptime_ dec_int].
  unfold int_lit. rewrite of_chars_chars, Atoi_pretty by done. done.
Qed.

Definition ascii_only (s : string) : Prop := Forall (λ c, (byte_val c < 128)%Z) (chars s).

Lemma ascii_app a b : ascii_only a → ascii_only b → ascii_only (a +:+ b).
Proof. unfold ascii_only. rewrite chars_app. apply Forall_app_2. Qed.

Lemma ascii_pretty (z : Z) : ascii_only (pretty z).
Proof.
  assert (∀ n : N, ascii_only (pretty n)) as Hn.
  { intros n. destruct (pretty_N_digits n) as [Hd _]. eapply Forall_impl; [exact Hd|].
    intros c Hc. unfold is_digit in Hc. lia. }
  destruct z as [|p|p]; [apply (Hn 0%N)|apply (Hn (Npos p))|].
  change (pretty (Zneg p)) with ("-" +:+ pretty (Npos p)). apply ascii_app; [by repeat constructor|apply Hn].
Qed.

Lemma Duration_valid d : valid_utf8 (Duration_String d).
Proof.
  apply valid_ascii. fold (ascii_only (Duration_String d)). unfold Duration_String.
  cbv zeta. repeat (apply ascii_app || case_decide || apply ascii_pretty || by repeat constructor).
Qed.

(** [relayly status] prints what the admin server knows.  The server answers GET
    /api/v1/status from the hub, without touching the store; the command, given that
    answer, prints the number of connections the hub has, its uptime and the version. *)
Theorem status_shows version now year h parses fileServer ord fk engine w form c adminURL get :
  let '(r, c') := Admin.ServeHTTP version now year h parses fileServer ord fk engine w
                    (AdminRequest "GET" "/api/v1/status" form) c in
  ∃ st, code r = 200%Z ∧ content r = StatusJSON st ∧ c' = c ∧
    ((ConnectedCount h ≤ int64_max)%Z → valid_utf8 version →
     get (adminURL +:+ "/api/v1/status") = Some (Some (encode_status st)) →
     runStatus get adminURL "text" =
       inr ["  Status:    ok"; "  Version:   " +:+ version;
            "  Connected: " +:+ Sprintf_d (ConnectedCount h) +:+ " device(s)";
            "  Uptime:    " +:+ Duration_String (Round_second (Uptime now h))]).
Proof.
  destruct (Admin.ServeHTTP _ _ _ _ _ _ _ _ _ _ _ _) as [r c'] eqn:E.
  assert (findHandler (registerRoutes version now year h parses fileServer ord fk engine) "GET" "/api/v1/status" =
    Found (apiStatus version now h) []) as Hf by reflexivity.
  unfold Admin.ServeHTTP in E. cbn [a_method a_path] in E. rewrite Hf in E. unfold apiStatus in E.
  injection E as <- <-. eexists. split_and!; [reflexivity..|]. intros Hc Hv Hg. unfold runStatus. rewrite Hg.
  rewrite decode_encode_status by (cbn; unfold ConnectedCount, int64_min in *; lia).
  cbn [st_status st_version st_connected st_uptime Status Version Connected Uptime_].
  rewrite (sanitize_valid "ok"), (sanitize_valid version), (sanitize_valid (uptime_text _ _)); [done| |done|].
  - apply Duration_valid.
  - valid_text.
Qed.

(** ** Concrete runs *)

Definition ex_load : (cfgerr + Config) * option cfgerr := Load true ReadMissing (Some ∅).

(** A signal, and everything is shut down. *)
Definition ex_stopped : running :=
  match (runStart_setup ex_load true false (λ _ _, true) (λ _, true) (λ _, true) true).2 with
  | inr r =>
      let r := set_signal r in
      let r := does (EShutdown AdminServer) (does (EShutdown RelayServer) r) in
      goto (SReturned None) (does ESync (does ECloseDB (does EStop r)))
  | inl _ => Running (decode ∅) SSelect GEnd None [] false []
  end.

Lemma ex_stopping :
  match (runStart_setup ex_load true false (λ _ _, true) (λ _, true) (λ _, true) true).2 with
  | inr r => rtc start_step r ex_stopped
  | inl _ => False
  end.
Proof.
  unfold ex_stopped. destruct (runStart_setup _ _ _ _ _ _ _) as [tr [e|r]] eqn:E; [vm_compute in E; discriminate E|].
  assert (r_main r = SSelect ∧ is_Some (r_admin r)) as [Hm [g Ha]].
  { vm_compute in E. injection E as _ <-. vm_compute. eauto. }
  cbn [snd]. clear E.
  eapply rtc_l; [apply step_signal|]. eapply rtc_l; [by apply step_done|].
  eapply rtc_l; [by apply step_shutdown|]. eapply rtc_l; [by apply step_drained|]. cbn [r_admin goto does set_signal].
  rewrite Ha. eapply rtc_l; [by apply step_shutdown|]. eapply rtc_l; [by apply step_drained|].
  do 3 (eapply rtc_l; [by eapply step_defer|]). eapply rtc_l; [by apply step_return|]. done.
Qed.


Definition ex_status : statusResponse := StatusResponse "ok" "1.0.0" 0 "1m5s".

Lemma status_shows_witness :
  runStatus (λ _, Some (Some (encode_status ex_status))) "http://127.0.0.1:8081" "text" =
    inr ["  Status:    ok"; "  Version:   1.0.0"; "  Connected: 0 device(s)"; "  Uptime:    1m5s"].
Proof.
  destruct (status_shows "1.0.0" (65 * Second) 2025 (NewHub 0) (λ _, true) (λ w _, Response 404 w NoContent) true true ""
    ∅ None (Conn ∅ []) "http://127.0.0.1:8081" (λ _, Some (Some (encode_status ex_status)))) as (st & _ & E & _ & P).
  assert (st = ex_status) as -> by (injection E as <-; vm_compute; reflexivity).
  apply P; [vm_compute; discriminate|valid_text|reflexivity].
Defined.
