(* ===== verification/Joint.v ===== *)
(** * Relay and clients together

    The relay of Relay.v and clients of Sdk.v as one system: a client's write loop feeds
    the relay's read pump, the relay's write pump feeds the client's read loop.  Turns do
    not overlap (RelaySerial.v) and the network works.  Two registered devices connect,
    one asks for a code, the other redeems it, and the Noise exchange runs through the
    relay; after it, messages arrive as they were sent. *)

From S2P Require Import Prelude Database Pairing PairCodes Keys Json Wire SendQueue.
From S2P Require Import Relay RelaySystem RelayFacts RelaySerial.
From S2P Require Import Noise PeerStore PeerFile Sdk SdkPair.

(** ** The relay, one turn at a time *)

(** A device's registered, open connection: its queue and what was written to it. *)
Definition desk (w : world) (id : string) (r : ref) (q : list wsFrame)
    (l : list (msgKind * bytes)) (peer : string) (mb : Z) : Prop :=
  clients (hub w) !! id = Some r ∧ heap w !! r = Some (Relay.MkClient id peer false q true l mb).

(** Nothing but connection [r] changed. *)
Definition beside (r : ref) (w w' : world) : Prop :=
  (∀ r', r' ≠ r → heap w' !! r' = heap w !! r') ∧ hub w' = hub w ∧ db w' = db w.

Definition calm (now : Z) : oracle := Oracle now [] [] [] [].
Definition incoming (now : Z) (rand : list (option bytes)) (k : msgKind) (d : bytes) : oracle :=
  Oracle now [] rand [] [Some (k, d)].

(** The frame is not larger than the connection's limit. *)
Definition fits (mb : Z) (d : bytes) : Prop := ¬ (0 < mb < Z.of_nat (slen d))%Z.

Lemma desk_beside w w' r id r' q l peer mb :
  beside r w w' → r' ≠ r → desk w id r' q l peer mb → desk w' id r' q l peer mb.
Proof. intros (Hh & Hb & _) Hne [H1 H2]. split; [by rewrite Hb|by rewrite Hh]. Qed.

Lemma serial_calm w o : serial_ok w → o_faults o = [] → serial_ok (set_env o w).
Proof.
  intros Hok Hf. apply (serial_turn w (TEnv o)); [done|]. cbn [serial]. by rewrite decide_True.
Qed.

Lemma turn_down w now id r f q l peer mb :
  desk w id r (f :: q) l peer mb → closeAfter f = false →
  ∃ w', serial_run w [TEnv (calm now); TWrite r] = Some w' ∧
    desk w' id r q (l ++ [(kind f, data f)]) peer mb ∧ beside r w w'.
Proof.
  intros [H1 H2] Hf. cbn [serial_run serial]. rewrite decide_True by done. cbn [mbind option_bind].
  change (snd <$> run (writePump_body r) (set_env (calm now) w))
    with (serial (set_env (calm now) w) (TWrite r)).
  rewrite (serial_write (set_env (calm now) w) r _ f q H2 eq_refl eq_refl eq_refl Hf). cbn [mbind option_bind].
  eexists. split; [done|]. split.
  - split; [done|]. rewrite heap_on_client, decide_True by done. cbn [heap set_env]. by rewrite H2.
  - split_and!; try done. intros r' Hr. by rewrite heap_on_client, decide_False.
Qed.

Lemma turn_binary w now a ra qa la b rb qb lb mb mb' payload :
  serial_ok w → desk w a ra qa la b mb → desk w b rb qb lb a mb' → b ≠ "" →
  length qb < sendBufferSize → fits mb payload →
  ∃ w', serial_run w [TEnv (incoming now [] BinaryMessage payload); TRead ra] = Some w' ∧
    desk w' b rb (qb ++ [WsFrame BinaryMessage payload false]) lb a mb' ∧ beside rb w w'.
Proof.
  intros Hok [A1 A2] [B1 B2] Hb Hlen Hfit. cbn [serial_run serial].
  rewrite decide_True by done. cbn [mbind option_bind].
  destruct (serial_deliver (set_env (incoming now [] BinaryMessage payload) w) ra _ rb _ b payload []
    (serial_calm w (incoming now [] BinaryMessage payload) Hok eq_refl) A2 eq_refl eq_refl Hb B1 B2 eq_refl Hlen Hfit eq_refl)
    as (w1 & E1 & (H1 & H2 & H3 & _) & _).
  cbn [serial] in E1. rewrite E1. eexists. split; [done|]. split.
  - split; [by rewrite H2|]. rewrite H1, heap_on_client, decide_True by done.
    cbn [heap set_env]. by rewrite B2.
  - split_and!; [|by rewrite H2|by rewrite H3].
    intros r' Hr. by rewrite H1, heap_on_client, decide_False.
Qed.

(** A control frame that is read and handled. *)
Lemma turn_text w now rand r cl d w' :
  heap w !! r = Some cl → conn_open cl = true → fits (maxMessageBytes cl) d →
  run (handleControl r d) (set_env (Oracle now [] rand [] []) w) = Some (tt, w') →
  RelaySystem.pending w' = 0 →
  serial_run w [TEnv (incoming now rand TextMessage d); TRead r] = Some w'.
Proof.
  intros Hr Ho Hfit Hrun Hp. cbn [serial_run serial]. rewrite decide_True by done.
  cbn [mbind option_bind]. unfold readPump_body, call. cbn [mbind prog_mbind prog_bind run exec_op].
  unfold with_client. cbn [heap set_env]. rewrite Hr. cbn [mbind option_bind]. rewrite Ho.
  cbn [env o_frames incoming set_env]. rewrite decide_False by done. cbn [mbind option_bind].
  change (prog_bind ?f (handleControl r d)) with (handleControl r d ≫= f).
  rewrite run_bind. cbn [o_now o_faults o_rand o_coin].
  match goal with |- context [run (handleControl r d) ?x] =>
    change x with (set_env (Oracle now [] rand [] []) w) end.
  rewrite Hrun. cbn [mbind option_bind run]. unfold settle_hub. by rewrite Hp.
Qed.

Lemma desk_receive w id r q l peer mb m :
  desk w id r q l peer mb → length q < sendBufferSize →
  desk (on_client r (receive m) w) id r (q ++ [text m]) l peer mb.
Proof.
  intros [H1 H2] Hq. split; [done|]. rewrite heap_on_client, decide_True, H2 by done. cbn [fmap option_fmap option_map].
  unfold receive, offer, Relay.enqueue. cbn [closed send]. by rewrite decide_True.
Qed.

Lemma handleControl_dispatch r d m :
  Unmarshal d = Some m →
  handleControl r d =
    if decide (cm_Type m = "announce_key") then handleAnnounceKey r m
    else if decide (cm_Type m = "pair_request") then handlePairRequest r
    else if decide (cm_Type m = "pair_accept") then handlePairAccept r m
    else if decide (cm_Type m = "unpair") then handleUnpair r
    else if decide (cm_Type m = "ping") then sendJSON r (message "pong")
    else skip.
Proof. unfold handleControl. by intros ->. Qed.

(** [pair_request]: the code the random source gives is registered and sent. *)
Lemma turn_request w now x rand id r q l peer mb d m code :
  serial_ok w → desk w id r q l peer mb → length q < sendBufferSize → fits mb d →
  Unmarshal d = Some m → cm_Type m = "pair_request" → GeneratePairingCode x = Some code →
  ∃ w', serial_run w [TEnv (incoming now (x :: rand) TextMessage d); TRead r] = Some w' ∧
    desk w' id r (q ++ [text (pair_code_message code)]) l peer mb ∧
    (∀ r', r' ≠ r → heap w' !! r' = heap w !! r') ∧ clients (hub w') = clients (hub w) ∧
    pairCodes (hub w') = Put now code id PairingCodeTTL (pairCodes (hub w)) ∧ db w' = db w.
Proof.
  intros Hok [H1 H2] Hq Hfit Hm Ht Hc.
  set (w0 := on_codes (Put now code id PairingCodeTTL (pairCodes (hub w)))
               (set_env (Oracle now [] rand [] []) w)).
  exists (on_client r (receive (pair_code_message code)) w0). split.
  - eapply turn_text; [done|done|done| |exact (so_pending w Hok)].
    rewrite (handleControl_dispatch _ _ _ Hm), Ht. rewrite decide_False, decide_True by done.
    unfold handlePairRequest, call. cbn [mbind prog_mbind prog_bind run exec_op env set_env o_rand].
    cbn [mbind option_bind]. rewrite Hc. cbn [run exec_op]. unfold with_client.
    cbn [heap set_env]. rewrite H2. cbn [mbind option_bind run exec_op].
    rewrite run_sendJSON; [done|]. by eexists.
  - split_and!; try done; [by apply (desk_receive w0)|].
    intros r' Hr. by rewrite heap_on_client, decide_False.
Qed.

(** [pair_accept] of a live code of a connected, unlinked device by an unlinked one. *)
Lemma turn_accept w now a ra qa la mb b rb qb lb mb' d m :
  serial_ok w → a ≠ b → desk w a ra qa la "" mb → desk w b rb qb lb "" mb' →
  length qa < sendBufferSize → length qb < sendBufferSize → fits mb' d →
  Unmarshal d = Some m → cm_Type m = "pair_accept" → cm_Code m ≠ "" →
  live now (pairCodes (hub w)) !! cm_Code m = Some a → pair_spec a b (db w) = inr (link a b (db w)) →
  ∃ w', serial_run w [TEnv (incoming now [] TextMessage d); TRead rb] = Some w' ∧
    desk w' a ra (qa ++ [text (pair_complete_message (cm_Code m) b (locked_key (link a b (db w)) b))])
      la b mb ∧
    desk w' b rb (qb ++ [text (pair_complete_message (cm_Code m) a (locked_key (link a b (db w)) a))])
      lb a mb' ∧
    db w' = link a b (db w).
Proof.
  intros Hok Hab [A1 A2] [B1 B2] Hqa Hqb Hfit Hm Ht Hcode Hlive Hspec.
  set (w0 := set_env (Oracle now [] [] [] []) w).
  assert (serial_ok w0) as Hok0 by by apply serial_calm.
  destruct (run_handlePairAccept w0 rb _ m (so_wf _ Hok0) B2 eq_refl) as (w' & Hrun & E).
  rewrite decide_False in E by done. cbv zeta in E.
  change (pairCodes (hub w0)) with (pairCodes (hub w)) in E.
  change (o_now (env w0)) with now in E. rewrite Hlive in E.
  change (Relay.DeviceID (Relay.MkClient b "" false qb true lb mb')) with b in E.
  change (db w0) with (db w) in E. rewrite decide_False, Hspec in E by done.
  assert (ra ≠ rb) as Hne by congruence.
  unfold linked_world in E. set (w1 := on_store _ _) in E.
  change (clients (hub w1) !! a) with (clients (hub w) !! a) in E. rewrite A1 in E.
  change (db w1) with (link a b (db w)) in E.
  destruct E as (E1 & E2 & E3 & _).
  exists w'. split_and!.
  - eapply turn_text; [exact B2|done|done| |].
    + rewrite (handleControl_dispatch _ _ _ Hm), Ht. rewrite !decide_False, decide_True by done.
      exact Hrun.
    + unfold RelaySystem.pending. rewrite E2. exact (so_pending w Hok).
  - split; [by rewrite E2|]. rewrite E1, heap_on_client, decide_True, heap_on_client, decide_False by done.
    change (heap w1) with (heap w). rewrite A2. cbn [fmap option_fmap option_map]. unfold compose, setPeer, receive, offer, Relay.enqueue.
    cbn [closed send]. by rewrite decide_True.
  - split; [by rewrite E2|]. rewrite E1, heap_on_client, decide_False, heap_on_client, decide_True by done.
    change (heap w1) with (heap w). rewrite B2. cbn [fmap option_fmap option_map]. unfold compose, setPeer, receive, offer, Relay.enqueue.
    cbn [closed send]. by rewrite decide_True.
  - by rewrite E3.
Qed.

Definition welcome_message (id : string) : controlMessage :=
  ControlMessage "welcome" ProtocolVersion id [] "" "" 0 "" "" None "".

(** A device that is not linked and not connected connects. *)
Lemma turn_connect w now mb id token row :
  serial_ok w → id ≠ "" → token ≠ "" → db w !! id = Some row → r_device_token row = token →
  token_expired now row = false → r_paired_with row = None → clients (hub w) !! id = None →
  let r := alloc (heap w) in
  ∃ w', serial_run w [TEnv (calm now); TConnect mb id token] = Some w' ∧
    desk w' id r [text (welcome_message id)] [] "" mb ∧
    (∀ r', r' ≠ r → heap w' !! r' = heap w !! r') ∧
    clients (hub w') = <[id := r]> (clients (hub w)) ∧
    pairCodes (hub w') = pairCodes (hub w) ∧ db w' = db w.
Proof.
  intros Hok Hid Htok Hrow Ht Hexp Hpair Hnone r.
  set (w0 := set_env (calm now) w).
  assert (serial_ok w0) as Hok0 by by apply serial_calm.
  destruct (serial_queues w (so_pending w Hok)) as [Q1 Q2].
  pose proof (run_Handler w0 mb id token eq_refl) as H. cbv zeta in H.
  change (hub w0) with (hub w) in H. rewrite Q1 in H.
  specialize (H ltac:(unfold channelSize; simpl; lia)). rewrite decide_False in H by naive_solver.
  change (db w0) with (db w) in H. rewrite Hrow, decide_True in H by done.
  change (o_now (env w0)) with now in H. rewrite Hexp in H.
  destruct H as (w1 & Hrun & E). change (coin w0) with (true, w0) in Hrun, E. cbn [fst] in Hrun, E.
  assert (wf_world w1) as Hwf1.
  { eapply run_wf; [apply Hok0| |done]. eapply safe_ext; [apply safe_Handler|done]. }
  destruct E as (E1 & E2 & E3 & _ & E4). rewrite Hpair in E1.
  change (heap w0) with (heap w) in E1, E2. fold r in E1, E2. simpl in E1, E2, E3.
  set (c := Relay.with_send [text (welcome_message id)] (NewClient id "" mb)) in E1.
  cbn [serial_run serial]. rewrite decide_True by done. cbn [mbind option_bind]. fold w0.
  rewrite Hrun. cbn [mbind option_bind]. unfold settle_hub, RelaySystem.pending.
  assert (Register (hub w1) = [r] ∧ Unregister (hub w1) = []) as [R1 R2].
  { rewrite E2. simpl. by rewrite Q1, Q2. }
  rewrite R1, R2. cbn [length Nat.add hub_turns].
  unfold Run_body. rewrite run_bind. cbn [run call exec_op]. rewrite R1, R2.
  cbn [mbind option_bind]. rewrite run_bind. set (w2 := set_hub _ w1).
  assert (heap w2 !! r = Some c) as Hr by (simpl; by rewrite E1, lookup_insert_eq).
  assert (wf_world w2) as Hwf2.
  { apply wf_hub; simpl; [done| | |lia|by rewrite R2; simpl; lia].
    - intros id' r' H. by apply (wf_clients w1 Hwf1).
    - rewrite R2. set_solver. }
  rewrite (run_run_register w2 r c Hwf2 Hr). cbn [mbind option_bind run].
  change (Relay.DeviceID c) with id. change (pairedWith c) with "".
  assert (clients (hub w2) = clients (hub w)) as Ec by (simpl; by rewrite E2).
  rewrite Ec, Hnone. cbn [evicted]. unfold notified. rewrite decide_True by done.
  eexists. split; [done|]. unfold set_entry. simpl. rewrite E2. simpl. split_and!.
  - split; simpl; [by rewrite lookup_partial_alter_eq|]. by rewrite E1, lookup_insert_eq.
  - intros r' Hr'. by rewrite E1, lookup_insert_ne.
  - done.
  - done.
  - by rewrite E3.
Qed.

(** The first announcement of a device's key. *)
Lemma turn_announce w now id r q l peer mb d m row :
  serial_ok w → desk w id r q l peer mb → fits mb d → Unmarshal d = Some m →
  cm_Type m = "announce_key" → cm_StaticKey m ≠ "" → db w !! id = Some row →
  default "" (r_static_key row) = "" ∨ default "" (r_static_key row) = cm_StaticKey m →
  ∃ w', serial_run w [TEnv (incoming now [] TextMessage d); TRead r] = Some w' ∧
    heap w' = heap w ∧ hub w' = hub w ∧
    db w' !! id = Some (set_static_key (cm_StaticKey m) row) ∧
    ∀ id', id' ≠ id → db w' !! id' = db w !! id'.
Proof.
  intros Hok [H1 H2] Hfit Hm Ht Hk Hrow Hkey.
  set (w0 := set_env (Oracle now [] [] [] []) w).
  pose proof (run_handleAnnounceKey w0 r _ m H2 eq_refl) as Hrun. cbv zeta in Hrun.
  rewrite decide_False in Hrun by done. change (db w0) with (db w) in Hrun.
  change (Relay.DeviceID _) with id in Hrun. rewrite Hrow in Hrun.
  assert (∀ w', run (handleAnnounceKey r m) w0 = Some (tt, w') → hub w' = hub w →
    serial_run w [TEnv (incoming now [] TextMessage d); TRead r] = Some w') as Hturn.
  { intros w' Hr Hh. eapply turn_text; [exact H2|done|done| |].
    - by rewrite (handleControl_dispatch _ _ _ Hm), Ht, decide_True.
    - unfold RelaySystem.pending. rewrite Hh. exact (so_pending w Hok). }
  case_decide as E.
  - eexists. split; [by apply Hturn|]. split_and!; try done; simpl.
    + by rewrite lookup_alter, decide_True, Hrow.
    + intros id' Hne. by rewrite lookup_alter, decide_False.
  - destruct Hkey as [?|Hkey]; [done|]. rewrite decide_True in Hrun by done.
    eexists. split; [by apply Hturn|]. split_and!; try done. cbn [db set_env w0]. rewrite Hrow. f_equal.
    unfold set_static_key. rewrite <- Hkey. destruct row as [? ? ? [k|]]; [done|by destruct E].
Qed.

(** ** Messages that survive their encoding *)

Definition clean_message (m : controlMessage) : Prop :=
  sanitize_message m = m ∧ (int64_min ≤ cm_ProtocolVersion m ≤ int64_max)%Z ∧
  (int64_min ≤ cm_ExpiresIn m ≤ int64_max)%Z.

Lemma Unmarshal_clean m : clean_message m → Unmarshal (Marshal m) = Some m.
Proof. intros (E & H1 & H2). by rewrite Unmarshal_Marshal, E. Qed.

Ltac clean_message m :=
  unfold m; split; [|split; by vm_compute];
  unfold sanitize_message; cbn [cm_Type cm_ProtocolVersion cm_DeviceID cm_Peers cm_StaticKey
    cm_Code cm_ExpiresIn cm_PeerID cm_PeerStaticKey cm_Online cm_Message];
  repeat match goal with H : valid_utf8 ?s |- _ => rewrite (sanitize_valid s H); clear H end;
  vm_compute; reflexivity.

Lemma clean_welcome id : valid_utf8 id → clean_message (welcome_message id).
Proof. intros. clean_message welcome_message. Qed.

Lemma clean_pair_code code : valid_utf8 code → clean_message (pair_code_message code).
Proof. intros. clean_message pair_code_message. Qed.

Lemma clean_pair_complete code id key :
  valid_utf8 code → valid_utf8 id → valid_utf8 key → clean_message (pair_complete_message code id key).
Proof. intros. clean_message pair_complete_message. Qed.

Definition accept_message (code : string) : controlMessage :=
  ControlMessage msgTypePairAccept 0 "" [] "" code 0 "" "" None "".

Lemma clean_accept code : valid_utf8 code → clean_message (accept_message code).
Proof. intros. clean_message accept_message. Qed.

Definition announce_message (key : string) : controlMessage :=
  ControlMessage msgTypeAnnounceKey 0 "" [] key "" 0 "" "" None "".

Lemma clean_announce key : valid_utf8 key → clean_message (announce_message key).
Proof. intros. clean_message announce_message. Qed.

Lemma code_clean x code : GeneratePairingCode x = Some code → valid_utf8 code ∧ code ≠ "".
Proof.
  destruct x as [b|]; [|done]. destruct (GeneratePairingCode_six b) as (c & E & Hl & Hd & _).
  rewrite E. intros [= <-]. split; [|by intros ->].
  apply valid_ascii. eapply Forall_impl; [exact Hd|]. unfold is_digit. intros c' ?. simpl in *. lia.
Qed.

(** ** The joint system *)

Section joint.
Context `{NoiseLib}.

(** A client, the relay's connection it is on, and how many frames it has read from it. *)
Record endpoint := Endpoint { ep_ref : ref; ep_read : nat; ep_client : Client }.

Record joint := Joint { j_relay : world; j_ends : gmap string endpoint }.

Inductive action :=
  | Enter (o : Options) (mb now : Z) (file : option (gmap string pinnedPeer))
  | Up (id : string) (now : Z) (rand : list (option bytes))
  | Down (id : string) (i : input)
  | Ask (id : string) (ch : chan)
  | Asked (id : string) (ch : chan)
  | Accept (id : string) (ch : chan) (code : string)
  | SendTo (id peer : string) (payload : bytes).

Definition set_ep (id : string) (e : endpoint) (j : joint) : joint :=
  Joint (j_relay j) (<[id := e]> (j_ends j)).

Definition on_ep (id : string) (j : joint) (f : Client → option Client) : option joint :=
  e ← j_ends j !! id;
  c ← f (ep_client e);
  Some (set_ep id (Endpoint (ep_ref e) (ep_read e) c) j).

(** [Connect] of the client against [Handler] of the relay: the welcome is written and
    read, and the client's announcement is read. *)
Definition enter (o : Options) (mb now : Z) (file : option (gmap string pinnedPeer)) (j : joint)
    : option joint :=
  let r := alloc (heap (j_relay j)) in
  w1 ← serial_run (j_relay j) [TEnv (calm now); TConnect mb (DeviceID o) (opt_DeviceToken o)];
  w2 ← serial_run w1 [TEnv (calm now); TWrite r];
  cl ← heap w2 !! r;
  match Connect o (Some "ws") (λ _, Some file) (head (written cl)) true with
  | inl _ => None
  | inr (_, c, f) =>
      w3 ← serial_run w2 [TEnv (incoming now [] (of_kind f) (of_data f)); TRead r];
      Some (Joint w3 (<[DeviceID o := Endpoint r (length (written cl)) c]> (j_ends j)))
  end.

Definition act (a : action) (j : joint) : option joint :=
  match a with
  | Enter o mb now file => enter o mb now file j
  | Up id now rand =>
      e ← j_ends j !! id;
      '(f, _, c) ← writeLoop_turn true (ep_client e);
      w ← serial_run (j_relay j)
            [TEnv (incoming now rand (of_kind f) (of_data f)); TRead (ep_ref e)];
      Some (Joint w (<[id := Endpoint (ep_ref e) (ep_read e) c]> (j_ends j)))
  | Down id i =>
      e ← j_ends j !! id;
      w ← serial_run (j_relay j) [TEnv (calm (in_now i)); TWrite (ep_ref e)];
      cl ← heap w !! ep_ref e;
      let c := foldl (λ c f, readLoop_frame i f.1 f.2 c) (ep_client e) (drop (ep_read e) (written cl)) in
      Some (Joint w (<[id := Endpoint (ep_ref e) (length (written cl)) c]> (j_ends j)))
  | Ask id ch => on_ep id j (λ c, Some (RequestPairCode_begin ch c))
  | Asked id ch =>
      on_ep id j (λ c, r ← results c !! ch ≫= head;
        match RequestPairCode_answer ch r c with (inr _, c') => Some c' | (inl _, _) => None end)
  | Accept id ch code => on_ep id j (λ c, Some (AcceptPair_begin ch code c))
  | SendTo id peer payload =>
      on_ep id j (λ c, match Send peer payload c with (None, c') => Some c' | (Some _, _) => None end)
  end.

Fixpoint acts (l : list action) (j : joint) : option joint :=
  match l with
  | [] => Some j
  | a :: l => j' ← act a j; acts l j'
  end.

Lemma acts_cons a l j j' : act a j = Some j' → acts (a :: l) j = acts l j'.
Proof. cbn [acts]. by intros ->. Qed.

Lemma on_ep_ok id j f r n c c' :
  j_ends j !! id = Some (Endpoint r n c) → f c = Some c' →
  on_ep id j f = Some (set_ep id (Endpoint r n c') j).
Proof. intros E Ef. unfold on_ep. rewrite E. simpl. by rewrite Ef. Qed.

Lemma up_ok id now rand w ends r n c f fs w' :
  ends !! id = Some (Endpoint r n c) → sends c = f :: fs →
  serial_run w [TEnv (incoming now rand (of_kind f) (of_data f)); TRead r] = Some w' →
  act (Up id now rand) (Joint w ends) =
    Some (Joint w' (<[id := Endpoint r n (with_sends fs c)]> ends)).
Proof.
  intros E Es Ew. cbn [act j_ends]. rewrite E. cbn [mbind option_bind ep_client].
  unfold writeLoop_turn. rewrite Es. cbn [mbind option_bind ep_ref ep_read]. cbn [j_relay].
  by rewrite Ew.
Qed.

Lemma down_ok id i w ends r l c q k d peer mb w' :
  ends !! id = Some (Endpoint r (length l) c) →
  serial_run w [TEnv (calm (in_now i)); TWrite r] = Some w' →
  desk w' id r q (l ++ [(k, d)]) peer mb →
  act (Down id i) (Joint w ends) =
    Some (Joint w' (<[id := Endpoint r (length (l ++ [(k, d)])) (readLoop_frame i k d c)]> ends)).
Proof.
  intros E Ew [_ Hr]. cbn [act j_ends]. rewrite E. cbn [mbind option_bind ep_client ep_ref ep_read].
  cbn [j_relay]. rewrite Ew. cbn [mbind option_bind]. rewrite Hr. cbn [mbind option_bind written].
  by rewrite drop_app_length.
Qed.

(** *** Entering *)

Definition public (o : Options) : string := encodeBase64 (ScalarBaseMult (PrivKey o)).

Definition entered (o : Options) (file : option (gmap string pinnedPeer)) : Client :=
  MkClient (DeviceID o) (PrivKey o) (LoadPeerStore file) ∅ ∅ [] [] ∅ ∅ [].

(** A registered device that is not linked, whose token is alive and whose key is not
    locked to another one. *)
Record may_enter (o : Options) (now : Z) (row : row) : Prop := {
  me_id : DeviceID o ≠ "";
  me_text : valid_utf8 (DeviceID o);
  me_token : opt_DeviceToken o ≠ "";
  me_row_token : r_device_token row = opt_DeviceToken o;
  me_alive : token_expired now row = false;
  me_free : r_paired_with row = None;
  me_key : public o ≠ "";
  me_locked : default "" (r_static_key row) = "" ∨ default "" (r_static_key row) = public o
}.

Lemma Connect_entered o file id :
  DeviceID o ≠ "" ∧ opt_DeviceToken o ≠ "" → valid_utf8 id →
  Connect o (Some "ws") (λ _, Some file) (Some (TextMessage, Marshal (welcome_message id))) true =
    inr ("ws", entered o file, controlFrame (announce_message (public o))).
Proof.
  intros [H1 H2] Hid. unfold Connect, validate. rewrite !decide_False by done.
  unfold dial. rewrite Unmarshal_clean by by apply clean_welcome. cbn [cm_Type welcome_message].
  rewrite decide_False by done. rewrite decide_False by (intros Hn; by apply Hn).
  cbn [cm_ProtocolVersion]. by rewrite decide_False by (intros Hn; by apply Hn).
Qed.

Lemma enter_ok o mb now file w ends row :
  serial_ok w → may_enter o now row → db w !! DeviceID o = Some row →
  clients (hub w) !! DeviceID o = None → fits mb (Marshal (announce_message (public o))) →
  let r := alloc (heap w) in
  ∃ w', act (Enter o mb now file) (Joint w ends) =
      Some (Joint w' (<[DeviceID o := Endpoint r 1 (entered o file)]> ends)) ∧
    serial_ok w' ∧
    desk w' (DeviceID o) r [] [(TextMessage, Marshal (welcome_message (DeviceID o)))] "" mb ∧
    (∀ r', r' ≠ r → heap w' !! r' = heap w !! r') ∧
    clients (hub w') = <[DeviceID o := r]> (clients (hub w)) ∧
    pairCodes (hub w') = pairCodes (hub w) ∧
    db w' !! DeviceID o = Some (set_static_key (public o) row) ∧
    (∀ id, id ≠ DeviceID o → db w' !! id = db w !! id).
Proof.
  intros Hok [M1 M2 M3 M4 M5 M6 M7 M8] Hrow Hnone Hfit r.
  destruct (turn_connect w now mb (DeviceID o) (opt_DeviceToken o) row) as
    (w1 & E1 & D1 & H1 & C1 & P1 & B1); try done.
  fold r in D1, H1, C1. assert (serial_ok w1) as Hok1 by by eapply serial_run_ok.
  destruct (turn_down w1 now _ _ _ _ _ _ _ D1 eq_refl) as (w2 & E2 & D2 & H2 & C2 & B2).
  cbn [app kind data text] in D2. assert (serial_ok w2) as Hok2 by by eapply serial_run_ok.
  destruct (turn_announce w2 now (DeviceID o) r [] [(TextMessage, Marshal (welcome_message (DeviceID o)))]
    "" mb (Marshal (announce_message (public o))) (announce_message (public o)) row) as (w3 & E3 & H3 & C3 & R3 & R3'); try done.
  { apply Unmarshal_clean, clean_announce, encodeBase64_valid. }
  { by rewrite B2, B1. }
  exists w3. split_and!.
  - cbn [act]. unfold enter. cbn [j_relay]. fold r. rewrite E1. cbn [mbind option_bind].
    rewrite E2. cbn [mbind option_bind]. rewrite (proj2 D2). cbn [mbind option_bind written head].
    rewrite Connect_entered by done. cbn [of_kind of_data controlFrame]. by rewrite E3.
  - by eapply serial_run_ok.
  - destruct D2 as [D2 D2']. split; [by rewrite C3|by rewrite H3].
  - intros r' Hr. by rewrite H3, H2, H1.
  - by rewrite C3, C2, C1.
  - by rewrite C3, C2, P1.
  - done.
  - intros id Hid. by rewrite R3', B2, B1.
Qed.

(** *** Two clients at their desks *)

(** [a] and [b] are connected; their clients, queues and routes are given, the store and
    the pending codes are [t] and [codes]. *)
Record seated (mb : Z) (a b : string) (j : joint) (t : table) (codes : pairCodeRegistry)
    (ca : Client) (qa : list wsFrame) (pa : string)
    (cb : Client) (qb : list wsFrame) (pb : string) : Prop := Seated {
  st_ok : serial_ok (j_relay j);
  st_a : ∃ r l, j_ends j !! a = Some (Endpoint r (length l) ca) ∧ desk (j_relay j) a r qa l pa mb;
  st_b : ∃ r l, j_ends j !! b = Some (Endpoint r (length l) cb) ∧ desk (j_relay j) b r qb l pb mb;
  st_t : db (j_relay j) = t;
  st_codes : pairCodes (hub (j_relay j)) = codes
}.

Section seated.
Context (mb : Z) (a b : string) (Hab : a ≠ b).

Lemma seated_sym j t codes ca qa pa cb qb pb :
  seated mb a b j t codes ca qa pa cb qb pb → seated mb b a j t codes cb qb pb ca qa pa.
Proof. by intros []. Qed.

Lemma desks_differ w ra qa la pa rb qb lb pb :
  desk w a ra qa la pa mb → desk w b rb qb lb pb mb → ra ≠ rb.
Proof. intros [_ H1] [_ H2] ->. congruence. Qed.

Lemma seated_call j t codes ca qa pa cb qb pb f c' :
  seated mb a b j t codes ca qa pa cb qb pb → f ca = Some c' →
  ∃ j', on_ep a j f = Some j' ∧ seated mb a b j' t codes c' qa pa cb qb pb.
Proof.
  intros [Hok (ra & la & Ea & Da) (rb & lb & Eb & Db) Ht Hc] Hf.
  eexists. split; [by eapply on_ep_ok|]. split; try done.
  - exists ra, la. split; [|done]. cbn [j_ends set_ep]. by rewrite lookup_insert_eq.
  - exists rb, lb. split; [|done]. cbn [j_ends set_ep]. by rewrite lookup_insert_ne.
Qed.

Lemma seated_down i j t codes ca f qa pa cb qb pb :
  seated mb a b j t codes ca (f :: qa) pa cb qb pb → closeAfter f = false →
  ∃ j', act (Down a i) j = Some j' ∧
    seated mb a b j' t codes (readLoop_frame i (kind f) (data f) ca) qa pa cb qb pb.
Proof.
  intros [Hok (ra & la & Ea & Da) (rb & lb & Eb & Db) Ht Hc] Hf.
  pose proof (desks_differ _ _ _ _ _ _ _ _ _ Da Db) as Hne. destruct j as [w ends]. cbn in *.
  destruct (turn_down w (in_now i) _ _ _ _ _ _ _ Da Hf) as (w' & E & Da' & Hbe).
  eexists. split; [by eapply down_ok|]. split; cbn [j_relay j_ends].
  - by eapply serial_run_ok.
  - eexists ra, _. split; [|exact Da']. by rewrite lookup_insert_eq.
  - exists rb, lb. split; [by rewrite lookup_insert_ne|]. by eapply desk_beside.
  - destruct Hbe as (_ & _ & ->). done.
  - destruct Hbe as (_ & -> & _). done.
Qed.

Lemma seated_up now j t codes ca qa cb qb payload fs :
  seated mb a b j t codes ca qa b cb qb a →
  sends ca = OutFrame BinaryMessage payload :: fs → b ≠ "" →
  length qb < sendBufferSize → fits mb payload →
  ∃ j', act (Up a now []) j = Some j' ∧
    seated mb a b j' t codes (with_sends fs ca) qa b cb
      (qb ++ [WsFrame BinaryMessage payload false]) a.
Proof.
  intros [Hok (ra & la & Ea & Da) (rb & lb & Eb & Db) Ht Hc] Hs Hb Hq Hfit.
  pose proof (desks_differ _ _ _ _ _ _ _ _ _ Da Db) as Hne. destruct j as [w ends]. cbn in *.
  destruct (turn_binary w now _ _ _ _ _ _ _ _ _ _ payload Hok Da Db Hb Hq Hfit) as (w' & E & Db' & Hbe).
  eexists. split; [by eapply up_ok|]. split; cbn [j_relay j_ends].
  - by eapply serial_run_ok.
  - exists ra, la. split; [by rewrite lookup_insert_eq|]. by eapply desk_beside.
  - exists rb, lb. split; [by rewrite lookup_insert_ne|done].
  - destruct Hbe as (_ & _ & ->). done.
  - destruct Hbe as (_ & -> & _). done.
Qed.

Lemma seated_request now x rand j t codes ca qa pa cb qb pb d m code fs :
  seated mb a b j t codes ca qa pa cb qb pb →
  sends ca = OutFrame TextMessage d :: fs → length qa < sendBufferSize → fits mb d →
  Unmarshal d = Some m → cm_Type m = "pair_request" → GeneratePairingCode x = Some code →
  ∃ j', act (Up a now (x :: rand)) j = Some j' ∧
    seated mb a b j' t (Put now code a PairingCodeTTL codes) (with_sends fs ca)
      (qa ++ [text (pair_code_message code)]) pa cb qb pb.
Proof.
  intros [Hok (ra & la & Ea & Da) (rb & lb & Eb & Db) Ht Hc] Hs Hq Hfit Hm Hty Hcode.
  pose proof (desks_differ _ _ _ _ _ _ _ _ _ Da Db) as Hne. destruct j as [w ends]. cbn in *.
  destruct (turn_request w now x rand _ _ _ _ _ _ d m code Hok Da Hq Hfit Hm Hty Hcode)
    as (w' & E & Da' & Hh & Hcl & Hco & Hdb).
  eexists. split; [by eapply up_ok|]. split; cbn [j_relay j_ends].
  - by eapply serial_run_ok.
  - exists ra, la. split; [by rewrite lookup_insert_eq|done].
  - exists rb, lb. split; [by rewrite lookup_insert_ne|].
    destruct Db as [D1 D2]. split; [by rewrite Hcl|by rewrite Hh by auto].
  - by rewrite Hdb.
  - by rewrite Hco, Hc.
Qed.
End seated.

Lemma seated_accept mb a b now j t codes ca qa cb qb d m fs :
  a ≠ b → seated mb a b j t codes ca qa "" cb qb "" →
  sends ca = OutFrame TextMessage d :: fs →
  length qa < sendBufferSize → length qb < sendBufferSize → fits mb d →
  Unmarshal d = Some m → cm_Type m = "pair_accept" → cm_Code m ≠ "" →
  live now codes !! cm_Code m = Some b → pair_spec b a t = inr (link b a t) →
  ∃ j' codes', act (Up a now []) j = Some j' ∧
    let t' := link b a t in
    seated mb a b j' t' codes' (with_sends fs ca)
      (qa ++ [text (pair_complete_message (cm_Code m) b (locked_key t' b))]) b
      cb (qb ++ [text (pair_complete_message (cm_Code m) a (locked_key t' a))]) a.
Proof.
  intros Hab [Hok (ra & la & Ea & Da) (rb & lb & Eb & Db) Ht Hc] Hs Hqa Hqb Hfit Hm Hty Hne Hl Hp.
  destruct j as [w ends]. cbn in *. subst codes t.
  destruct (turn_accept w now b rb qb lb mb a ra qa la mb d m Hok) as (w' & E & Db' & Da' & Hdb);
    try done.
  eexists _, _. split; [by eapply up_ok|]. split; cbn [j_relay j_ends].
  - by eapply serial_run_ok.
  - exists ra, la. split; [by rewrite lookup_insert_eq|done].
  - exists rb, lb. split; [by rewrite lookup_insert_ne|done].
  - done.
  - done.
Qed.
End joint.

(** ** Pairing through the relay *)

Section pairing.
Context `{NoiseLaws}.

Lemma acts_app l1 l2 j : acts (l1 ++ l2) j = j' ← acts l1 j; acts l2 j'.
Proof.
  revert j. induction l1 as [|x l1 IH]; intros j; [done|]. cbn [acts app].
  destruct (act x j); [apply IH|done].
Qed.

Definition request_frame : bytes := Marshal (message msgTypePairRequest).

Definition expiry : Z := PairingCodeTTL / Second.

(** The client that holds a code, and the one that has handed in a code. *)
Definition asked_client (o : Options) file (ch : chan) (code : string) : Client :=
  MkClient (DeviceID o) (PrivKey o) (LoadPeerStore file) ∅ ∅ [] [] {[code := PairWaiter ch false]}
    {[ch := [MkPairResult code expiry "" "" None]]} [].

Definition accepting_client (o : Options) file (ch : chan) (code : string) : Client :=
  MkClient (DeviceID o) (PrivKey o) (LoadPeerStore file) ∅ ∅ [] [] {[code := PairWaiter ch true]} ∅ [].

Lemma asks mb a b j t codes file o qa pa cb qb pb ch now x rand i code :
  a ≠ b → a = DeviceID o → seated mb a b j t codes (entered o file) [] pa cb qb pb →
  qa = [] → fits mb request_frame → GeneratePairingCode x = Some code →
  ∃ j', acts [Ask a ch; Up a now (x :: rand); Down a i; Asked a ch] j = Some j' ∧
    seated mb a b j' t (Put now code a PairingCodeTTL codes) (asked_client o file ch code) qa pa
      cb qb pb.
Proof.
  intros Hab Ha Hs -> Hfit Hc. destruct (code_clean _ _ Hc) as [Hv _].
  destruct (seated_call mb a b Hab j t codes _ _ _ _ _ _
    (λ c, Some (RequestPairCode_begin ch c)) _ Hs eq_refl) as (j1 & E1 & S1).
  rewrite (acts_cons (Ask a ch) _ j j1 E1).
  destruct (seated_request mb a b Hab now x rand j1 t codes _ _ _ _ _ _ request_frame
    (message msgTypePairRequest) code [] S1) as (j2 & E2 & S2); try done.
  { unfold sendBufferSize. simpl. lia. }
  rewrite (acts_cons _ _ _ _ E2). cbn [app] in S2.
  destruct (seated_down mb a b Hab i j2 _ _ _ _ _ _ _ _ _ S2 eq_refl) as (j3 & E3 & S3).
  rewrite (acts_cons _ _ _ _ E3). cbn [kind data text] in S3.
  unfold readLoop_frame in S3. rewrite Unmarshal_clean in S3 by by apply clean_pair_code.
  change (dispatch i (pair_code_message code)) with (handlePairCode (pair_code_message code)) in S3.
  unfold handlePairCode, takePairWaiter in S3. cbn [pairWaiters with_sends RequestPairCode_begin
    enqueue with_waiters entered] in S3. rewrite lookup_insert_eq in S3. cbn [pw_ch] in S3.
  match type of S3 with seated _ _ _ _ _ _ ?c _ _ _ _ _ => set (c3 := c) in S3 end.
  assert (results c3 !! ch = Some [MkPairResult code expiry "" "" None]) as Hr
    by (unfold c3; cbn; by rewrite lookup_insert_eq).
  destruct (seated_call mb a b Hab j3 _ _ c3 _ _ _ _ _
    (λ c, r ← results c !! ch ≫= head;
        match RequestPairCode_answer ch r c with (inr _, c') => Some c' | (inl _, _) => None end)
    (asked_client o file ch code) S3) as (j4 & E4 & S4).
  { rewrite Hr. unfold RequestPairCode_answer, asked_client, c3. reflexivity. }
  rewrite (acts_cons (Asked a ch) [] j3 j4 E4). by exists j4.
Qed.

Lemma accepts mb a b j t codes file o cb qb ch now code :
  a ≠ b → seated mb a b j t codes (entered o file) [] "" cb qb "" → qb = [] →
  fits mb (Marshal (accept_message code)) → valid_utf8 code → code ≠ "" →
  live now codes !! code = Some b → pair_spec b a t = inr (link b a t) →
  ∃ j' codes', acts [Accept a ch code; Up a now []] j = Some j' ∧
    let t' := link b a t in
    seated mb a b j' t' codes' (accepting_client o file ch code)
      [text (pair_complete_message code b (locked_key t' b))] b
      cb [text (pair_complete_message code a (locked_key t' a))] a.
Proof.
  intros Hab Hs -> Hfit Hv Hne Hl Hp.
  destruct (seated_call mb a b Hab j t codes _ _ _ _ _ _
    (λ c, Some (AcceptPair_begin ch code c)) _ Hs eq_refl) as (j1 & E1 & S1).
  rewrite (acts_cons (Accept a ch code) _ j j1 E1).
  destruct (seated_accept mb a b now j1 t codes _ [] cb [] (Marshal (accept_message code))
    (accept_message code) [] Hab S1) as (j2 & codes' & E2 & S2); try done.
  { unfold sendBufferSize. simpl. lia. }
  { unfold sendBufferSize. simpl. lia. }
  { by apply Unmarshal_clean, clean_accept. }
  rewrite (acts_cons _ [] _ _ E2). exists j2, codes'. split; [done|]. exact S2.
Qed.

Lemma acts_app2 x y l j j' : acts [x; y] j = Some j' → acts (x :: y :: l) j = acts l j'.
Proof. intros E. change (x :: y :: l) with ([x; y] ++ l). by rewrite acts_app, E. Qed.

(** A binary frame from [a]'s client to [b]'s. *)
Lemma carry mb a b n i j t codes ca cb payload :
  a ≠ b → b ≠ "" → seated mb a b j t codes ca [] b cb [] a →
  sends ca = [OutFrame BinaryMessage payload] → fits mb payload →
  ∃ j', acts [Up a n []; Down b i] j = Some j' ∧
    seated mb a b j' t codes (with_sends [] ca) [] b
      (deliver i (OutFrame BinaryMessage payload) cb) [] a.
Proof.
  intros Hab Hb S N F.
  assert (@length wsFrame [] < sendBufferSize) as Hroom by (unfold sendBufferSize; simpl; lia).
  destruct (seated_up mb a b Hab n j _ _ _ _ _ _ _ [] S N Hb Hroom F) as (j1 & E1 & S1).
  rewrite (acts_cons _ _ _ _ E1). apply seated_sym in S1.
  destruct (seated_down mb b a (not_eq_sym Hab) i j1 _ _ _ _ _ _ _ _ _ S1 eq_refl) as (j2 & E2 & S2).
  rewrite (acts_cons _ [] _ _ E2). exists j2. split; [done|]. by apply seated_sym.
Qed.

(** What both sides end with: a session, the other's key pinned and reported. *)
Record paired_up (a b : string) (ka kb : PublicKey) (cha chb : chan) (ra rb : list PairResult)
    (ca cb : Client) : Prop := {
  pu_talk : talking ca a cb b;
  pu_sends : sends ca = [] ∧ sends cb = [];
  pu_pins : PeerStore.StaticKey <$> pins (peerStore ca) !! b = Some (encodeBase64 kb) ∧
            PeerStore.StaticKey <$> pins (peerStore cb) !! a = Some (encodeBase64 ka);
  pu_results : results ca !! cha = Some (ra ++ [MkPairResult "" 0 b kb None]) ∧
               results cb !! chb = Some (rb ++ [MkPairResult "" 0 a ka None]);
  pu_ready : callbacks ca = [OnReady b] ∧ callbacks cb = [OnReady a];
  pu_messages : messages ca = [] ∧ messages cb = []
}.

Section handshake.
Variables (mb : Z) (a b : string) (t : table) (codes : pairCodeRegistry).
Variables (oa ob : Options) (filea fileb : option (gmap string pinnedPeer)).
Variables (cha chb : chan) (code ka kb : string).
Hypothesis Hab : a ≠ b.
Hypothesis Hne : a ≠ "" ∧ b ≠ "".
Hypothesis Hva : valid_utf8 a.
Hypothesis Hvb : valid_utf8 b.
Hypothesis Hvc : valid_utf8 code.
Hypothesis Hvka : valid_utf8 ka.
Hypothesis Hvkb : valid_utf8 kb.

Variables (i1 i2 i3 i4 i5 : input) (n1 n2 n3 : Z).
Variables (si sr sr1 si1 : noiseSession) (m1 m2 m3 : bytes).
Hypothesis Hi : newInitiatorSession (in_seed i1) (PrivKey oa) = inr (si, m1).
Hypothesis Hr : newResponderSession (in_seed i3) (PrivKey ob) = inr sr.
Hypothesis H1 : handleHandshakeMessage m1 sr = ((Some m2, false, None), sr1).
Hypothesis H2 : handleHandshakeMessage m2 si = ((Some m3, true, None), si1).
Hypothesis Hfit : Forall (λ m, fits mb (encodeEnvelope envelopeHandshake m)) [m1; m2; m3].

Let pa : PublicKey := ScalarBaseMult (PrivKey oa).
Let pb : PublicKey := ScalarBaseMult (PrivKey ob).
Hypothesis Hta : trusts i4 (LoadPeerStore filea) b kb pb.
Hypothesis Htb : trusts i5 (LoadPeerStore fileb) a ka pa.

(** The clients along the way: told, then one message after the other, each client's
    queue drained before the next. *)
Let a0 := accepting_client oa filea cha code.
Let b0 := asked_client ob fileb chb code.
Let a1 := readLoop_frame i1 TextMessage (Marshal (pair_complete_message code b kb)) a0.
Let b1 := readLoop_frame i2 TextMessage (Marshal (pair_complete_message code a ka)) b0.
Let b2 := deliver i3 (handshakeFrame m1) b1.
Let a2 := deliver i4 (handshakeFrame m2) (with_sends [] a1).
Let b3 := deliver i5 (handshakeFrame m3) (with_sends [] b2).

Lemma exchange_drained :
  sends a1 = [handshakeFrame m1] ∧ sends b1 = [] ∧ sends b2 = [handshakeFrame m2] ∧
  sends a2 = [handshakeFrame m3] ∧
  paired_up a b pa pb cha chb [] [MkPairResult code expiry "" "" None] (with_sends [] a2) b3.
Proof.
  destruct (acceptor_starts i1 _ _ a0 cha si m1
    (Unmarshal_clean _ (clean_pair_complete code b kb Hvc Hvb Hvkb)) eq_refl eq_refl
    (lookup_singleton_eq _ _) Hi) as ([ra Sa] & (Ua1 & Ua2 & Ua3 & Ua4 & Ua5) & Na).
  fold a1 in Sa, Ua1, Ua2, Ua3, Ua4, Ua5, Na.
  destruct (requester_waits i2 _ _ b0 chb
    (Unmarshal_clean _ (clean_pair_complete code a ka Hvc Hva Hvka)) eq_refl eq_refl
    (lookup_singleton_eq _ _)) as (Pb & (Ub1 & Ub2 & Ub3 & Ub4 & Ub5) & Nb).
  fold b1 in Pb, Ub1, Ub2, Ub3, Ub4, Ub5, Nb.
  destruct (responder_answers i3 m1 b1 a ka chb sr sr1 m2 Pb) as
    ([rb Sb] & (Vb1 & Vb2 & Vb3 & Vb4 & Vb5) & Nb2); [by rewrite Ub1|done|].
  fold b2 in Sb, Vb1, Vb2, Vb3, Vb4, Vb5, Nb2.
  destruct (xx_exchange _ _ _ _ si m1 sr _ sr1 (Some m3, true, None) si1 Hi Hr H1 eq_refl)
    as (m2' & Em & X). injection Em as <-.
  destruct (X H2 eq_refl) as (m3' & sr2 & Em & H3 & R1 & R2 & P1 & P2 & ki & kr & li & lr &
    Y1 & Y2 & Y3 & Y4 & Y5 & Y6). injection Em as <-.
  destruct (handshake_ends i4 m2 (with_sends [] a1) b kb cha ra si si1 (Some m3))
    as (Ja & Ka & Ma & _ & Na2 & Ra & Ca);
    [done|by eapply driven_not_ready|done|rewrite P1; change (peerStore (with_sends [] a1)) with (peerStore a1); by rewrite Ua2|].
  destruct (handshake_ends i5 m3 (with_sends [] b2) a ka chb rb sr1 sr2 None)
    as (Jb & Kb & Mb & _ & Nb3 & Rb & Cb);
    [done|by eapply driven_not_ready|done|rewrite P2; change (peerStore (with_sends [] b2)) with (peerStore b2); by rewrite Vb2, Ub2|].
  fold a2 in Ja, Ka, Ma, Na2, Ra, Ca. fold b3 in Jb, Kb, Mb, Nb3, Rb, Cb.
  cbn [sends with_sends results callbacks messages app] in *.
  rewrite Nb2, Nb. split_and!; try done. split; cbn [peerStore sends with_sends results callbacks messages].
  - exists kb, ra, si1, ka, rb, sr2. split; [exact Ja|]. split; [exact Jb|].
    split; (split_and!; [assumption..|]); eexists _, _; split_and!; eassumption.
  - done.
  - by rewrite Ka, Kb, P1, P2.
  - rewrite Ra, Rb, !lookup_insert_eq, Ua4, Vb4, Ub4, P1, P2. cbn [a0 b0 accepting_client asked_client results].
    by rewrite lookup_empty, lookup_singleton_eq.
  - by rewrite Ca, Cb, Ua5, Vb5, Ub5.
  - by rewrite Ma, Mb, Ua3, Vb3, Ub3.
Qed.

Lemma shakes j :
  seated mb a b j t codes a0 [text (pair_complete_message code b kb)] b
    b0 [text (pair_complete_message code a ka)] a →
  ∃ j' ca cb,
    acts [Down a i1; Down b i2; Up a n1 []; Down b i3; Up b n2 []; Down a i4; Up a n3 []; Down b i5] j
      = Some j' ∧
    seated mb a b j' t codes ca [] b cb [] a ∧
    paired_up a b pa pb cha chb [] [MkPairResult code expiry "" "" None] ca cb.
Proof.
  intros S. destruct Hne as [Hne1 Hne2]. rewrite !Forall_cons in Hfit. destruct Hfit as (F1 & F2 & F3 & _).
  destruct exchange_drained as (N1 & N2 & N3 & N4 & P).
  destruct (seated_down mb a b Hab i1 j _ _ _ _ _ _ _ _ _ S eq_refl) as (j1 & E1 & S1).
  rewrite (acts_cons _ _ _ _ E1). apply seated_sym in S1.
  destruct (seated_down mb b a (not_eq_sym Hab) i2 j1 _ _ _ _ _ _ _ _ _ S1 eq_refl) as (j2 & E2 & S2).
  rewrite (acts_cons _ _ _ _ E2). apply seated_sym in S2. cbn [kind data text] in S2.
  fold a1 b1 in S2.
  destruct (carry mb a b n1 i3 j2 t codes a1 b1 _ Hab Hne2 S2 N1 F1) as (j3 & E3 & S3).
  rewrite (acts_app2 _ _ _ _ _ E3). apply seated_sym in S3. fold b2 in S3.
  destruct (carry mb b a n2 i4 j3 t codes b2 _ _ (not_eq_sym Hab) Hne1 S3 N3 F2) as (j4 & E4 & S4).
  rewrite (acts_app2 _ _ _ _ _ E4). apply seated_sym in S4. fold a2 in S4.
  destruct (carry mb a b n3 i5 j4 t codes a2 _ _ Hab Hne2 S4 N4 F3) as (j5 & E5 & S5).
  rewrite (acts_app2 _ _ [] _ _ E5). fold b3 in S5. by exists j5, (with_sends [] a2), b3.
Qed.
End handshake.

(** *** Messages *)

Lemma Send_frame `{!NoiseSizes} id p c c' :
  Send id p c = (None, c') → ∃ x, sends c' = sends c ++ [transportFrame x] ∧ slen x = slen p + 16.
Proof.
  unfold Send, peer_send. destruct (getPeerConn id c) as [q|]; [|done].
  destruct (active q) as [r|]; [|done]. destruct (session_of r c) as [s|]; [|done].
  unfold encrypt. case_decide; [done|]. destruct (sendCS s) as [k|]; [|done]. cbn [mbind option_bind].
  destruct (csEncrypt k p) as [[k' x]|] eqn:E; [|done]. intros [= <-]. exists x.
  split; [done|]. by eapply csEncrypt_size.
Qed.

(** A payload the relay lets through: with the envelope's type byte and the tag it is not
    larger than the limit. *)
Definition small (mb : Z) (p : bytes) : Prop := (mb ≤ 0 ∨ Z.of_nat (slen p) + 17 ≤ mb)%Z.

(** Two clients in session with each other. *)
Record in_session (mb : Z) (a b : string) (j : joint) (ma mb' : list Message) : Prop := {
  is_seated : ∃ t codes ca cb, seated mb a b j t codes ca [] b cb [] a ∧
    talking ca a cb b ∧ sends ca = [] ∧ sends cb = [] ∧ messages ca = ma ∧ messages cb = mb'
}.

Lemma in_session_sym mb a b j ma m : in_session mb a b j ma m → in_session mb b a j m ma.
Proof.
  intros [(t & codes & ca & cb & S & T & ? & ? & ? & ?)]. split. exists t, codes, cb, ca.
  split_and!; try done; [by apply seated_sym|by apply talking_sym].
Qed.

Lemma say `{!NoiseSizes} mb a b n i j j1 ma m p :
  a ≠ b → b ≠ "" → in_session mb a b j ma m → small mb p → length m < messagesCapacity →
  act (SendTo a b p) j = Some j1 →
  ∃ j', acts [Up a n []; Down b i] j1 = Some j' ∧
    in_session mb a b j' ma (m ++ [MkMessage a p (in_now i)]).
Proof.
  intros Hab Hb [(t & codes & ca & cb & S & T & N1 & N2 & M1 & M2)] Hp Hm Hs.
  assert (∃ ca', Send b p ca = (None, ca')) as [ca' Es].
  { destruct S as [_ (ra & la & Ea & _) _ _ _]. cbn [act] in Hs. unfold on_ep in Hs.
    rewrite Ea in Hs. cbn [mbind option_bind ep_client] in Hs.
    destruct (Send b p ca) as [[e|] ca'] eqn:Es; [done|eauto]. }
  destruct (seated_call mb a b Hab j _ _ _ _ _ _ _ _
    (λ c, match Send b p c with (None, c') => Some c' | (Some _, _) => None end) ca' S)
    as (j1' & E1 & S1); [by rewrite Es|].
  cbn [act] in Hs. rewrite E1 in Hs. injection Hs as ->.
  destruct (send_received p ca a cb b ca' T Es) as (f & F1 & F2 & F3).
  destruct (Send_frame b p ca ca' Es) as (x & X1 & X2).
  rewrite F1 in X1. apply (inj (app (sends ca))) in X1. injection X1 as ->.
  destruct (carry mb a b n i j1 t codes ca' cb (encodeEnvelope envelopeTransport x) Hab Hb S1)
    as (j' & E2 & S2).
  { by rewrite F1, N1. }
  { unfold fits, small, encodeEnvelope, slen in *. cbn [String.length]. lia. }
  exists j'. split; [done|]. destruct (F3 i) as (T' & N' & M').
  split. exists t, codes, (with_sends [] ca'), (deliver i (transportFrame x) cb).
  split_and!; try done; [by rewrite N'|by rewrite <- M1|].
  rewrite M', M2. by rewrite decide_True.
Qed.

(** A message of the conversation: who sends it, what, when it is relayed and read. *)
Record utterance := Utterance { by_first : bool; said : bytes; relayed : Z; heard : input }.

Definition utter (a b : string) (u : utterance) : list action :=
  let '(x, y) := if by_first u then (a, b) else (b, a) in
  [SendTo x y (said u); Up x (relayed u) []; Down y (heard u)].

(** What [b] receives of it. *)
Definition received (a : string) (first : bool) (l : list utterance) : list Message :=
  (λ u, MkMessage a (said u) (in_now (heard u))) <$> filter (λ u, by_first u = first) l.

Lemma received_cons a first u l :
  received a first (u :: l) =
  (if Bool.eqb (by_first u) first then [MkMessage a (said u) (in_now (heard u))] else []) ++
  received a first l.
Proof.
  unfold received. rewrite filter_cons. destruct (Bool.eqb_spec (by_first u) first); by case_decide.
Qed.

(** Every message is accepted for sending. *)
Fixpoint all_sent (a b : string) (l : list utterance) (j : joint) : Prop :=
  match l with
  | [] => True
  | u :: l =>
      let '(x, y) := if by_first u then (a, b) else (b, a) in
      is_Some (act (SendTo x y (said u)) j) ∧
      ∀ j', acts (utter a b u) j = Some j' → all_sent a b l j'
  end.

Lemma converse `{!NoiseSizes} mb a b l j ma m :
  a ≠ b → a ≠ "" → b ≠ "" → in_session mb a b j ma m → Forall (λ u, small mb (said u)) l →
  length ma + length (received b false l) ≤ messagesCapacity →
  length m + length (received a true l) ≤ messagesCapacity → all_sent a b l j →
  ∃ j', acts (mjoin (utter a b <$> l)) j = Some j' ∧
    in_session mb a b j' (ma ++ received b false l) (m ++ received a true l).
Proof.
  intros Hab Ha Hb. revert j ma m. induction l as [|[[] p n i] l IH]; intros j ma m S Hl L1 L2 Hs.
  { exists j. rewrite !app_nil_r. done. }
  all: apply Forall_cons in Hl as [Hp Hl]; rewrite !received_cons in *;
    cbn [by_first said heard Bool.eqb app length] in *.
  all: rewrite fmap_cons, mjoin_cons, acts_app; destruct Hs as [[j1 E1] Hs];
    cbn [by_first said relayed heard utter] in *.
  - destruct (say mb a b n i j j1 ma m p Hab Hb S Hp ltac:(lia) E1) as (j2 & E2 & S2).
    assert (acts [SendTo a b p; Up a n []; Down b i] j = Some j2) as E
      by (by rewrite (acts_cons _ _ _ _ E1)).
    rewrite E. cbn [mbind option_bind].
    destruct (IH j2 _ _ S2 Hl L1) as (j3 & E3 & S3); [rewrite length_app; simpl; lia|by apply Hs|].
    exists j3. split; [done|]. cbn [app]. by rewrite <- app_assoc in S3.
  - destruct (say mb b a n i j j1 m ma p (not_eq_sym Hab) Ha (in_session_sym _ _ _ _ _ _ S) Hp
      ltac:(lia) E1) as (j2 & E2 & S2).
    assert (acts [SendTo b a p; Up b n []; Down a i] j = Some j2) as E
      by (by rewrite (acts_cons _ _ _ _ E1)).
    rewrite E. cbn [mbind option_bind]. apply in_session_sym in S2.
    destruct (IH j2 _ _ S2 Hl) as (j3 & E3 & S3); [rewrite length_app; simpl; lia|done|by apply Hs|].
    exists j3. split; [done|]. cbn [app]. by rewrite <- app_assoc in S3.
Qed.

(** *** The whole run *)

Section run.
Variables (mb now : Z) (t : table) (oa ob : Options) (filea fileb : option (gmap string pinnedPeer)).
Variables (cha chb : chan) (code : string) (x : option bytes) (rand : list (option bytes)).
Variables (i0 i1 i2 i3 i4 i5 : input) (ta tb tr tc n1 n2 n3 : Z).

Definition pairing_actions : list action :=
  let a := DeviceID oa in let b := DeviceID ob in
  [Enter oa mb ta filea; Enter ob mb tb fileb] ++
  [Ask b chb; Up b tr (x :: rand); Down b i0; Asked b chb] ++
  [Accept a cha code; Up a tc []] ++
  [Down a i1; Down b i2; Up a n1 []; Down b i3; Up b n2 []; Down a i4; Up a n3 []; Down b i5].

Variables (rowa rowb : row).
Let a : string := DeviceID oa.
Let b : string := DeviceID ob.
Hypothesis Hsym : links_sym t.
Hypothesis Hab : a ≠ b.
Hypothesis Hrowa : t !! a = Some rowa.
Hypothesis Hrowb : t !! b = Some rowb.
Hypothesis Hma : may_enter oa ta rowa.
Hypothesis Hmb : may_enter ob tb rowb.
Hypothesis Hcode : GeneratePairingCode x = Some code.
Hypothesis Htime : (tc ≤ tr + PairingCodeTTL)%Z.

Variables (si sr sr1 si1 : noiseSession) (m1 m2 m3 : bytes).
Hypothesis Hi : newInitiatorSession (in_seed i1) (PrivKey oa) = inr (si, m1).
Hypothesis Hr : newResponderSession (in_seed i3) (PrivKey ob) = inr sr.
Hypothesis H1 : handleHandshakeMessage m1 sr = ((Some m2, false, None), sr1).
Hypothesis H2 : handleHandshakeMessage m2 si = ((Some m3, true, None), si1).
Hypothesis Hfit1 : Forall (λ m, fits mb (encodeEnvelope envelopeHandshake m)) [m1; m2; m3].
Hypothesis Hfit2 : Forall (λ m, fits mb (Marshal m))
  [announce_message (public oa); announce_message (public ob); message msgTypePairRequest;
   accept_message code].

Let ka : PublicKey := ScalarBaseMult (PrivKey oa).
Let kb : PublicKey := ScalarBaseMult (PrivKey ob).
Hypothesis Hta : trusts i4 (LoadPeerStore filea) b (public ob) kb.
Hypothesis Htb : trusts i5 (LoadPeerStore fileb) a (public oa) ka.

Definition begin : joint := Joint (start now t (calm now)) ∅.

Lemma both_enter :
  ∃ j t' codes, acts [Enter oa mb ta filea; Enter ob mb tb fileb] begin = Some j ∧
    seated mb a b j t' codes (entered oa filea) [] "" (entered ob fileb) [] "" ∧
    t' !! a = Some (set_static_key (public oa) rowa) ∧
    t' !! b = Some (set_static_key (public ob) rowb).
Proof.
  rewrite !Forall_cons in Hfit2. destruct Hfit2 as (F1 & F2 & _).
  destruct (enter_ok oa mb ta filea (start now t (calm now)) ∅ rowa) as
    (w1 & E1 & K1 & D1 & P1 & C1 & _ & R1 & R1'); try done; [by apply serial_ok_start|].
  rewrite (acts_cons _ _ _ _ E1).
  set (ra := alloc (heap (start now t (calm now)))) in *.
  destruct (enter_ok ob mb tb fileb w1 (<[DeviceID oa:=Endpoint ra 1 (entered oa filea)]> ∅) rowb) as
    (w2 & E2 & K2 & D2 & P2 & C2 & Q2 & R2 & R2'); try done.
  { by rewrite R1' by (apply not_eq_sym; exact Hab). }
  { rewrite C1, lookup_insert_ne by exact Hab. apply lookup_empty. }
  rewrite (acts_cons _ [] _ _ E2). eexists _, (db w2), (pairCodes (hub w2)). split; [done|].
  set (rb := alloc (heap w1)) in *.
  assert (ra ≠ rb) as Hne.
  { intros E. pose proof (alloc_fresh (heap w1)) as Hfresh. fold rb in Hfresh. rewrite <- E in Hfresh.
    destruct D1 as [_ D1]. congruence. }
  split_and!; [|rewrite R2' by exact Hab; exact R1|exact R2]. split; cbn [j_relay j_ends]; try done.
  - exists ra, [(TextMessage, Marshal (welcome_message a))]. split; [rewrite lookup_insert_ne by (apply not_eq_sym; exact Hab);
      by rewrite lookup_insert_eq|].
    destruct D1 as [D1 D1']. split; [rewrite C2, lookup_insert_ne by (apply not_eq_sym; exact Hab); exact D1|].
    by rewrite P2.
  - exists rb, [(TextMessage, Marshal (welcome_message b))]. split; [by rewrite lookup_insert_eq|exact D2].
Qed.

End run.
End pairing.

(** ** A concrete run *)

Definition is_some {A} (x : option A) : bool := match x with Some _ => true | None => false end.

Fixpoint all_sentb `{NoiseLib} (a b : string) (l : list utterance) (j : joint) : bool :=
  match l with
  | [] => true
  | u :: l =>
      let '(x, y) := if by_first u then (a, b) else (b, a) in
      is_some (act (SendTo x y (said u)) j) &&
      match acts (utter a b u) j with Some j' => all_sentb a b l j' | None => true end
  end.

Lemma all_sentb_sent `{NoiseLib} a b l j : all_sentb a b l j = true → all_sent a b l j.
Proof.
  revert j. induction l as [|u l IH]; intros j; [done|]. cbn [all_sentb all_sent].
  destruct (if by_first u then (a, b) else (b, a)) as [x y].
  intros [Hx Hl]%andb_true_iff. split.
  - by destruct (act (SendTo x y (said u)) j).
  - intros j' E. rewrite E in Hl. by apply IH.
Qed.

Import ToyNoise.

Definition ex_opts (id token : string) (key : PrivateKey) : Options := MkOptions id token key "" 0 0 0.
Definition ex_alice : Options := ex_opts "A" "ta" ex_alice_key.
Definition ex_bob : Options := ex_opts "B" "tb" ex_bob_key.

Definition ex_actions : list action :=
  pairing_actions 65536 ex_alice ex_bob None None 0 1 "000000" (Some "") []
    ex_turn ex_turn ex_turn ex_turn ex_turn ex_turn 0 0 0 0 0 0 0.

Definition ex_words : list utterance :=
  [Utterance true "hello" 0 ex_turn; Utterance false "hi" 0 ex_turn; Utterance true "bye" 0 ex_turn].

Lemma ex_may_enter id token key :
  id ≠ "" → valid_utf8 id → token ≠ "" → key ≠ "" →
  may_enter (ex_opts id token key) 0 (ex_row token).
Proof. intros. split; try done; [by apply encodeBase64_nonempty|by left]. Qed.

